(* ===== verification/_CoqProject ===== *)
-Q . S2P
Prelude.v
StdTypes.v
RangeSet.v
Digits.v
Text.v
SpotifyId.v
SpotifyUri.v
ShuffleVec.v
Protocol.v
StateMonad.v
ConnectData.v
ConnectQueue.v
ConnectContext.v
ConnectState.v
ConnectFill.v
ConnectInv.v
ConnectProps.v
ConnectFrame.v
ConnectLoad.v
SpircData.v
ContextResolver.v
AudioFetch.v
AudioFetchInv.v
AudioFetchProps.v
AudioReader.v
Wire.v
ApCodec.v
Channel.v
AudioKey.v
DealerMaps.v
Dealer.v
Mercury.v
Handshake.v
Connection.v
Session.v
Cache.v
Float64.v
Metadata.v
Player.v
PlayerInv.v
PlayerProps.v
TrackLoader.v
Sinks.v
Mixer.v
Spirc.v
SpircInv.v
SpircProps.v
AllowList.v
ApiData.v
ApiServer.v
ApiInv.v
ApiProps.v
Lines.v
Dmap.v
StdText.v
Raop.v
Rtsp.v
RtspProps.v
Dacp.v
DacpProps.v
AirplaySession.v
Http.v
SpClient.v
CdnUrl.v
WebProps.v
DealerSocket.v
Discovery.v
DiscoveryProps.v
Program.v
ProgramProps.v
OAuth.v
Passthrough.v
AlsaMixer.v
Symphonia.v
