(* ===== verification/Prelude.v ===== *)
(** * A verification library for librespot

    librespot is a client for the Spotify streaming service.  A session
    connects to an access point over an encrypted connection, through which it
    asks for audio keys and data and talks to the service; a web socket, the
    dealer, brings commands; the connect state keeps the queue of tracks that
    the commands act on and that is reported to the service; the audio file of
    a track is fetched in ranges while it is decrypted and played, and kept in
    a cache.  The credentials come from a file, from a browser, or from a phone
    that discovers the device.  Beside it the program receives AirPlay, and an API over TCP tells
    clients what is playing and takes their commands.

    The library models these parts as Rocq functions on explicit state and
    proves them correct.  Paths below are under [src/].

    ** Conventions

    A Rust computation that may panic is of type [exec]; [Result] is
    [result]; machine integers are [Z] with their overflow written out ([uadd],
    [usub], [umul] panic, [wrapu] wraps, as the code does with overflow checks
    on).  Records are updated with [r <| f := v |>].  Stateful code passes its
    state explicitly, or, in the connect state and the audio fetcher, through
    the state and error monad of [StateMonad].  Locks are not modelled: what is
    done while a lock is held is one step.  Channels between tasks are the lists of what
    was sent, with a set of the receivers that are still there.  What is
    outside the repository is a class of operations with a class of laws
    (ciphers, hashes, the priority queue, protobuf and JSON formats, the
    network, the random generator); each has an instance with which the
    theorems are applied to an example.

    ** Files

    - [Prelude], [StdTypes], [Digits], [Text], [StateMonad]: the conventions
      above; [Duration] and single floats; digits, byte order and number
      parsing; strings; the monad with a weakest precondition logic.
    - [RangeSet]: [audio/src/range_set.rs].  The lists of ranges denote sets of
      positions, and the operations are the set operations.
    - [SpotifyId], [SpotifyUri]: [core/src/spotify_id.rs], [file_id.rs],
      [spotify_uri.rs].  The base 62 algorithm on machine words prints the
      digits of the identifier; all textual forms round trip.
    - [ShuffleVec]: [connect/src/shuffle_vec.rs].  Shuffling permutes and can
      be undone.
    - [Protocol], [ConnectData], [ConnectQueue], [ConnectContext],
      [ConnectState]: the messages of [protocol] and [connect/src/state.rs]
      with [state/].  [ConnectFill] relates filling up the next tracks to a
      reference sequence; [ConnectInv] has the invariant of all commands;
      [ConnectProps] what skipping, shuffling and loading contexts do;
      [ConnectFrame] what every operation keeps, errors included;
      [ConnectLoad] where loading a list of tracks puts each of them.
    - [SpircData], [ContextResolver], [Spirc]: [connect/src/model.rs],
      [context_resolver.rs] and [spirc.rs] with the requests of
      [core/src/dealer/protocol/request.rs].  The task that connects the
      service, the connect state and the player, as handlers on a world (the
      task, the session, the commands given to the player, the environment) and
      a loop over what its [select!] chose; [SpircInv] proves that every
      handler keeps the invariant, [SpircProps] has the theorems.
    - [AllowList]: the networks of [src/server.rs] that may use the API, with
      the address parser of the standard library.
    - [ApiData], [ApiServer], [Lines]: the rest of [src/server.rs].  The task of
      the API with its connections, subscriptions and covers, as turns of its
      loop; the reading of requests.  [ApiInv] follows what a subscriber is told
      and relates it to the state; [ApiProps] has the theorems.
    - [StdText], [Dmap], [Raop], [Rtsp], [Dacp]: [airplay/src].  More of the
      standard library's text functions; the metadata a sender pushes
      ([dmap.rs]); the negotiation, decryption and playing of audio
      ([legacy], [codec], [sink.rs]); the control connection ([rtsp],
      [device_id.rs]); the requests to the sender ([dacp.rs]) and the task that
      polls it.  [RtspProps] and [DacpProps] are about the two by themselves;
      [AirplaySession] runs a connection beside the tasks that poll its sender,
      in any interleaving, and has the theorems about both.
    - [AudioFetch]: [audio/src/fetch].  The fetch task, the request tasks, the
      reader and the controller, each with the point it is at between two
      accesses of what they share (the lock, the atomics, the channels, the
      temporary file, whose operations may fail), and the labelled steps from
      one point to the next; [AudioFetchInv] counts where each byte is and says
      what each party knows at each point; [AudioFetchProps] has the theorems
      about every interleaving.
    - [AudioReader]: [audio/src/decrypt.rs] and the sub-file of
      [playback/src/player.rs], as readers over an interface [ReadSeek] with
      laws, composed to what the decoder reads.
    - [Wire]: byte buffers, packet types, sequence numbers, UTF-8.
    - [ApCodec]: [core/src/connection/codec.rs]; [Handshake]:
      [diffie_hellman.rs] and [connection/handshake.rs]; [Connection]:
      [apresolve.rs], [connection/mod.rs] and the loop of [Session::connect].
    - [Channel], [AudioKey], [Mercury]: [core/src/channel.rs], [audio_key.rs],
      [mercury].  Packets reach the request they belong to, whole.
    - [DealerMaps], [Dealer], [DealerSocket]: [core/src/dealer].  Routing tables,
      payloads, and one reply per request; the tasks of a connection, with the
      pings that watch over it, and the task that connects again.
    - [Session]: [core/src/session.rs].  The managers together, packet
      dispatch, and the keep-alive machine.
    - [Http], [SpClient], [CdnUrl]: [core/src/http_client.rs], [util.rs],
      [spclient.rs], [login5.rs], [token.rs] and [cdn_url.rs].  Requests to the
      web service, with the waits it asks for, the tokens and puzzles before
      them and the tries after a failure; where audio files are.  [WebProps] has
      the theorems.
    - [Discovery]: [discovery/src/server.rs], [lib.rs] and the blob of
      [core/src/authentication.rs].  The server a phone hands credentials to;
      [DiscoveryProps] has the phone's side and the theorems.
    - [OAuth]: [oauth/src/lib.rs].  Logging in with a browser.
    - [Program]: the loop of [src/main.rs], [src/player_event_handler.rs] and the
      small files of [core/src/cache.rs]; [ProgramProps] has the theorems.
    - [Cache]: [core/src/cache.rs].  The size limiter and the files on disk.
    - [Float64]: double-precision floats and their bits.
    - [Metadata]: [metadata/src/audio], [restriction.rs], [availability.rs].
      The files of a track, and whether the account may play it.
    - [Player]: [playback/src/player.rs].  The state of the player task, its
      commands and events, and one turn of its loop, over a class of external
      operations (clock, sink, decoders, loading threads); [PlayerInv] reads
      the log of the task as a history and proves the invariant that relates
      it to the state; [PlayerProps] has the theorems.  [TrackLoader] is what a
      loading thread does.
    - [Sinks]: [playback/src/convert.rs], [dither.rs] and the pipe and process
      of [audio_backend]; [Mixer]: [config.rs] and the volume controls;
      [AlsaMixer]: [mixer/alsamixer.rs], the volume of a control of a sound card.
    - [Passthrough], [Symphonia]: [playback/src/decoder].  The packets of a track
      written again as a chain of streams, and decoded.

    ** What the theorems show

    Invariants and safety: [connect_safety] holds for every sequence of
    commands, [fetch_safety] for every interleaving of the tasks of a streamed
    file; both include that no step panics, provided what the commands are given
    is in range, and that the server sends the bytes that were asked for and
    seeks and ranges lie inside the file.  The lists of the connect state are
    within 10 and 80 tracks or the longest that a remote has set, which
    [connect_safety] and [spirc_invariant] keep count of.  [audio_keys] is a
    conservation law over histories;
    [passthrough_chain] holds for whatever is asked of the decoder that passes
    packets on; [player_exits_on_failure] and [player_sink]
    hold for every run of the player task and every behaviour of what it
    calls, [player_events] as long as the sink and the seeking of decoders do
    not fail; [spirc_invariant] for every run of the Connect task;
    [silence_detected] and [dealer_watchdog] bound the time until a dead peer is
    found out, and the latter also spares a live one; [dealer_reconnects] and
    [main_keeps_going] hold for every run of the loops that connect again;
    [add_user_guarded] holds for every request to discovery and says when it
    panics, [login_exchanges] for every login; [cache_within_limit] bounds the
    disk from any directory on, but for files that the file system protects or
    that were left half written; [api_bounded] bounds the memory of the API;
    [connection_protocol] holds for whatever an AirPlay sender writes and answers.  Refinement and equivalence: the range sets
    ([rangeset_algebra]), what a subscriber of the API shows
    ([subscriber_up_to_date]), the changes a poll reports
    ([poll_reports_changes]), answers that arrive in pieces
    ([dacp_get_pieces]), base 62 ([to_base62_correct]), modular exponentiation inside
    [handshake_agreement], the decrypted reader
    ([track_is_plain]), the bits of a network ([allow_list_admits]).  Round
    trips: [uri_roundtrip], [codec_roundtrip], and the credentials of a phone
    ([credentials_delivered]); [rtsp_dialogue] includes that of the requests.  Across
    components: [load_tracks_plays], [skip_next] and [shutdown_ends] follow a
    command through the task, the connect state and the commands to the player;
    [ended_off_air] follows an AirPlay connection and its polls into the API;
    [commands_follow_source] says where a command of the API goes.
    Requests to the web service end ([request_tries]) and reuse what is still
    good ([tokens_reused], [cdn_until_expiry]).
    The other theorems say what an operation does on each of its branches.

    Lemmas under the heading of corner cases evaluate the model where the
    code does something unexpected.

    ** Fuel

    Loops that are not structural have a fuel argument, and running out of it
    is a panic or is excluded by the theorem: [fill_loop] has one turn per
    track to place and per track of the contexts; [decode_all] one per byte of
    the buffer; [prune] one per file; [connect_loop] six; [powm] one per bit of
    the exponent; [num_digits] one per bit; [load_loop] two, because a file
    removed from the cache is not opened from it again; [walk], [requests],
    [drain], [chunk_loop] and [decrypt_chunks] one per byte.  The theorems about them
    prove that the loops end before the fuel does.  [token_loop] has
    the 256 turns after which its count overflows, [login_loop] the three it
    counts and one ([token_loop_fuel] and [login_loop_fuel] say that more make no
    difference).  The [turns] of a request are how often it waits
    or is tried, those of the decoders how many packets they read
    ([packet_loop_ends] and [next_packet_ends] say how many are enough), those of a puzzle how often the clock finds time left.  The [turns] of the loop of
    [handle_next] are an argument of the task, running out of them an error of
    its own: [skip_next] says how many are enough, and when none are.

    ** Not modelled

    Code that is only I/O over a library: the HTTP connections, sockets, most audio
    backends, the Ogg and Symphonia libraries, ALSA, mDNS.  Code
    that is derived or generated: protobuf and JSON parsing, error
    conversions, [Display].  Conversions field by field: the messages of
    [metadata].  Options: the command line of [src/main.rs].  Of [airplay], the accept
    loop and the advertisement are calls of libraries, and the embedded key is
    a constant for one.  Time passes only where a
    state has a deadline or reads a clock; the memory model of atomics is not
    considered. *)

From stdpp Require Export base tactics numbers list gmap strings sorting.
From Stdlib Require Export ZArith Lia Ascii.

Set Default Proof Using "Type".

(** ** Computations that may panic

    A Rust computation either returns a value or panics (an index out of
    range, an [expect] on [None], or an arithmetic overflow with overflow
    checks on).  [exec A] is that outcome; Rust's own [Option] and [Result]
    are ordinary values inside it. *)

Inductive exec (A : Type) : Type :=
| Val (a : A)
| Panic.
Arguments Val {A} a.
Arguments Panic {A}.

#[export] Instance exec_ret : MRet exec := λ A a, Val a.
#[export] Instance exec_bind : MBind exec := λ A B f m,
  match m with Val a => f a | Panic => Panic end.
#[export] Instance exec_fmap : FMap exec := λ A B f m,
  match m with Val a => Val (f a) | Panic => Panic end.

(** Rust's [Result<A, E>]. *)
Inductive result (A E : Type) : Type :=
| Ok (a : A)
| Err (e : E).
Arguments Ok {A E} a.
Arguments Err {A E} e.

Definition result_ok {A E} (r : result A E) : option A :=
  match r with Ok a => Some a | Err _ => None end.

Definition ok_or {A E} (o : option A) (e : E) : result A E :=
  match o with Some a => Ok a | None => Err e end.

#[export] Instance result_ret {E} : MRet (λ A, result A E) := λ A a, Ok a.
#[export] Instance result_bind {E} : MBind (λ A, result A E) := λ A B f m,
  match m with Ok a => f a | Err e => Err e end.

Section exec_lemmas.
Context {A B : Type}.
Implicit Types (m : exec A) (f : A → exec B).

Lemma exec_bind_Val (a : A) f : (Val a ≫= f) = f a.
Proof. done. Qed.

Lemma exec_bind_Val_inv m f b :
  (m ≫= f) = Val b → ∃ a, m = Val a ∧ f a = Val b.
Proof. destruct m; simpl; [eauto|done]. Qed.
End exec_lemmas.

(** ** Machine integers

    A [w]-bit unsigned integer is a [Z] in [[0, 2^w)].  [usize] is 64 bits
    wide throughout. *)

Definition u8_max : Z := 255.
Definition u16_max : Z := 65535.
Definition u32_max : Z := 4294967295.
Definition u64_max : Z := 18446744073709551615.
Definition usize_max : Z := u64_max.
Definition u128_max : Z := 340282366920938463463374607431768211455.

(** Truncation to [w] bits: Rust's [as] casts and [wrapping_*]. *)
Definition wrapu (w : Z) (z : Z) : Z := z `mod` 2 ^ w.

(** [a + b], [a - b] and [a * b] on an unsigned type with overflow checks. *)
Definition uadd (mx a b : Z) : exec Z :=
  if decide (a + b ≤ mx)%Z then Val (a + b)%Z else Panic.
Definition usub (a b : Z) : exec Z :=
  if decide (b ≤ a)%Z then Val (a - b)%Z else Panic.

Definition umul (mx a b : Z) : exec Z :=
  if decide (a * b ≤ mx)%Z then Val (a * b)%Z else Panic.

Definition checked_mul (mx a b : Z) : option Z :=
  if decide (a * b ≤ mx)%Z then Some (a * b)%Z else None.
Definition checked_add (mx a b : Z) : option Z :=
  if decide (a + b ≤ mx)%Z then Some (a + b)%Z else None.

Lemma uadd_Val mx a b : (a + b ≤ mx)%Z → uadd mx a b = Val (a + b)%Z.
Proof. intros. unfold uadd. by rewrite decide_True. Qed.
Lemma usub_Val a b : (b ≤ a)%Z → usub a b = Val (a - b)%Z.
Proof. intros. unfold usub. by rewrite decide_True. Qed.

Lemma umul_Val mx a b : (a * b ≤ mx)%Z → umul mx a b = Val (a * b)%Z.
Proof. intros. unfold umul. by rewrite decide_True. Qed.

Lemma uadd_Val_inv mx a b c : uadd mx a b = Val c → c = (a + b)%Z ∧ (a + b ≤ mx)%Z.
Proof. unfold uadd. case_decide; naive_solver. Qed.
Lemma usub_Val_inv a b c : usub a b = Val c → c = (a - b)%Z ∧ (b ≤ a)%Z.
Proof. unfold usub. case_decide; naive_solver. Qed.

(** ** Record update

    [r <| f := v |>] replaces the field [f] of [r], [r <| f ::= g |>] maps [g]
    over it.  A record type opts in with an instance of [Settable]: the
    identity written as a rebuild from its projections, in which the setter
    tactic abstracts the projection to be replaced. *)

Class Settable (R : Type) := eta_record : R → R.

Class Setter {R T : Type} (getter : R → T) := set_field : (T → T) → R → R.
Arguments set_field {R T} getter {_} _ _ /.

Ltac build_setter R getter :=
  let inst := constr:(_ : Settable R) in
  let eta := eval cbv beta iota delta [eta_record] in (@eta_record R inst) in
  let eta := match eta with
             | ?h => let b := eval hnf in h in b
             end in
  match eval pattern getter in eta with
  | ?mk _ => let t := eval cbv beta in (λ f, mk (λ r, f (getter r))) in exact t
  end.

#[export] Hint Extern 1 (@Setter ?R _ ?getter) => build_setter R getter : typeclass_instances.

Notation "r <| f := v |>" := (set_field f (λ _, v) r)
  (at level 12, f at next level, left associativity, format "r  <|  f  :=  v  |>").
Notation "r <| f ::= g |>" := (set_field f g r)
  (at level 12, f at next level, left associativity, format "r  <|  f  ::=  g  |>").

(** ** Lists *)

Lemma lookup_rev {A} (l : list A) i : i < length l → rev l !! i = l !! (length l - S i).
Proof. intros. rewrite rev_alt. by apply reverse_lookup. Qed.

Lemma filter_all {A} (P : A → Prop) `{∀ x, Decision (P x)} (l : list A) :
  Forall P l → filter P l = l.
Proof. induction 1; [done|]. rewrite filter_cons_True by done. by f_equal. Qed.

Lemma length_removelast {A} (l : list A) : length (removelast l) = length l - 1.
Proof. rewrite removelast_firstn_len, length_firstn. lia. Qed.

Lemma sorted_snoc {A} (R : relation A) (l : list A) x :
  StronglySorted R l → Forall (λ y, R y x) l → StronglySorted R (l ++ [x]).
Proof.
  induction 1 as [|y l Hs IH Hy]; intros Hx; simpl; [by repeat constructor|]. apply Forall_cons in Hx as [? ?].
  constructor; [auto|]. apply Forall_app. auto.
Qed.

(** ** Automation *)

Create HintDb librespot.
Create Rewrite HintDb librespot.

(** Case analysis on the tests of a translated function, closing the
    arithmetic and propositional leaves. *)
Ltac split_decide :=
  repeat (case_decide || case_bool_decide); simplify_eq/=.

(** Invert a successful run of an [exec] computation. *)
Ltac invert_exec :=
  repeat match goal with
  | H : (_ ≫= _) = Val _ |- _ =>
      apply exec_bind_Val_inv in H as (? & ? & H)
  | H : uadd _ _ _ = Val _ |- _ => apply uadd_Val_inv in H as [-> ?]
  | H : usub _ _ = Val _ |- _ => apply usub_Val_inv in H as [-> ?]
  | H : Val _ = Val _ |- _ => injection H as H; simplify_eq/=
  | H : Panic = Val _ |- _ => discriminate H
  end.
