(* ===== verification/StdTypes.v ===== *)
(** * [std::time::Duration] and [f32]

    The parts of the standard library the time and throughput estimates of the
    audio download use: durations with their overflow behaviour, and IEEE
    single-precision arithmetic (round to nearest, ties to even) on the
    executable floats of the Standard Library. *)

From S2P Require Import Prelude.
From Stdlib Require Import SpecFloat.

Local Open Scope Z_scope.

(** ** Durations *)

Record Duration := mkDuration { secs : Z; nanos : Z }.

#[export] Instance Duration_eq_dec : EqDecision Duration.
Proof. solve_decision. Defined.

Definition NANOS_PER_SEC : Z := 1000000000.

Definition Duration_from_secs (s : Z) : Duration := mkDuration s 0.
Definition Duration_from_millis (ms : Z) : Duration :=
  mkDuration (ms / 1000) (ms `mod` 1000 * 1000000).

(** The length in nanoseconds, and the values of the type. *)
Definition total_nanos (d : Duration) : Z := secs d * NANOS_PER_SEC + nanos d.
Definition duration_ok (d : Duration) : Prop :=
  0 ≤ secs d ≤ u64_max ∧ 0 ≤ nanos d < NANOS_PER_SEC.

Definition as_millis (d : Duration) : Z := secs d * 1000 + nanos d / 1000000.
Definition as_secs (d : Duration) : Z := secs d.

(** The derived order: seconds first, then nanoseconds. *)
Definition duration_le (d1 d2 : Duration) : Prop :=
  secs d1 < secs d2 ∨ secs d1 = secs d2 ∧ nanos d1 ≤ nanos d2.
#[export] Instance duration_le_dec d1 d2 : Decision (duration_le d1 d2).
Proof. unfold duration_le. apply _. Defined.

(** [a + b] panics when the seconds overflow. *)
Definition duration_add (d1 d2 : Duration) : exec Duration :=
  s ← uadd u64_max (secs d1) (secs d2);
  let n := nanos d1 + nanos d2 in
  if decide (NANOS_PER_SEC ≤ n) then s ← uadd u64_max s 1; Val (mkDuration s (n - NANOS_PER_SEC))
  else Val (mkDuration s n).

(** [d / k] for a positive [u32] [k]. *)
Definition duration_div (d : Duration) (k : Z) : Duration :=
  mkDuration (secs d / k)
    (nanos d / k + (secs d `mod` k * NANOS_PER_SEC + nanos d `mod` k) / k).

Lemma duration_le_nanos d1 d2 :
  duration_ok d1 → duration_ok d2 → (duration_le d1 d2 ↔ total_nanos d1 ≤ total_nanos d2).
Proof. unfold duration_ok, duration_le, total_nanos, NANOS_PER_SEC. nia. Qed.

#[export] Instance duration_le_total : Total duration_le.
Proof. intros d1 d2. unfold duration_le. lia. Qed.
#[export] Instance duration_le_trans : Transitive duration_le.
Proof. intros d1 d2 d3. unfold duration_le. lia. Qed.

Lemma duration_add_spec d1 d2 :
  duration_ok d1 → duration_ok d2 → secs d1 + secs d2 < u64_max →
  ∃ d, duration_add d1 d2 = Val d ∧ duration_ok d ∧ total_nanos d = total_nanos d1 + total_nanos d2.
Proof.
  intros [? ?] [? ?] ?. unfold duration_add. rewrite uadd_Val by lia. rewrite exec_bind_Val.
  unfold duration_ok, total_nanos, NANOS_PER_SEC in *. case_decide.
  - rewrite uadd_Val by lia. eexists. split; [done|]. simpl. lia.
  - eexists. split; [done|]. simpl. lia.
Qed.

Lemma duration_half_spec d :
  duration_ok d → duration_ok (duration_div d 2) ∧ total_nanos (duration_div d 2) = total_nanos d / 2.
Proof.
  intros [? ?]. unfold duration_ok, duration_div, total_nanos, NANOS_PER_SEC in *. simpl.
  pose proof (Z.div_mod (secs d) 2). pose proof (Z.mod_pos_bound (secs d) 2).
  pose proof (Z.div_mod (nanos d) 2). pose proof (Z.mod_pos_bound (nanos d) 2).
  unfold u64_max in *. split; Z.to_euclidean_division_equations; lia.
Qed.

Lemma as_millis_nanos d : duration_ok d → as_millis d = total_nanos d / 1000000.
Proof.
  intros [? ?]. unfold as_millis, total_nanos, NANOS_PER_SEC in *.
  replace (secs d * 1000000000 + nanos d) with (nanos d + secs d * 1000 * 1000000) by lia.
  rewrite Z.div_add by lia. lia.
Qed.

Lemma as_millis_mono d1 d2 :
  duration_ok d1 → duration_ok d2 → duration_le d1 d2 → as_millis d1 ≤ as_millis d2.
Proof.
  intros H1 H2 Hle. rewrite !as_millis_nanos by done. apply Z.div_le_mono; [lia|].
  by apply duration_le_nanos.
Qed.

(** ** Single-precision floats *)

Definition f32 : Type := spec_float.

(** Casts from an unsigned integer, and back: towards zero, saturating, and 0
    for a NaN. *)
Definition f32_of_Z (z : Z) : f32 := binary_normalize 24 128 z 0 false.
Definition f32_add : f32 → f32 → f32 := SFadd 24 128.
Definition f32_mul : f32 → f32 → f32 := SFmul 24 128.
Definition f32_div : f32 → f32 → f32 := SFdiv 24 128.

Definition f32_to_usize (f : f32) : Z :=
  match f with
  | S754_finite false m e => Z.min usize_max (if decide (0 ≤ e) then Z.pos m * 2 ^ e else Z.pos m / 2 ^ (- e))
  | S754_infinity false => usize_max
  | _ => 0
  end.

Definition as_secs_f32 (d : Duration) : f32 :=
  f32_add (f32_of_Z (secs d)) (f32_div (f32_of_Z (nanos d)) (f32_of_Z NANOS_PER_SEC)).

Lemma f32_to_usize_bounds f : 0 ≤ f32_to_usize f ≤ usize_max.
Proof.
  destruct f as [|[]| |[] m e]; simpl; try (unfold usize_max, u64_max; lia).
  assert (0 ≤ if decide (0 ≤ e) then Z.pos m * 2 ^ e else Z.pos m / 2 ^ (- e)).
  { case_decide; [pose proof (Z.pow_nonneg 2 e); nia|]. apply Z.div_pos; [lia|]. apply Z.pow_pos_nonneg; lia. }
  unfold usize_max, u64_max in *. lia.
Qed.

(** Half a second of 40,000 bytes per second are 20,000 bytes; products are
    rounded to 24 bits. *)
Lemma f32_examples :
  f32_to_usize (f32_mul (as_secs_f32 (Duration_from_millis 500)) (f32_of_Z 40000)) = 20000 ∧
  f32_to_usize (f32_of_Z 16777217) = 16777216 ∧
  f32_to_usize (f32_mul (f32_of_Z 4) (f32_mul (as_secs_f32 (Duration_from_millis 1500)) (f32_of_Z 20000))) = 120000.
Proof. by vm_compute. Qed.
