(* ===== verification/RangeSet.v ===== *)
(** * Sets of byte ranges: [audio/src/range_set.rs]

    [Range] and [RangeSet] with every operation of the Rust module, the
    representation invariant and the set each value denotes. *)

From S2P Require Import Prelude.
Local Open Scope Z_scope.

(** ** Data *)

Record Range := mkRange { start : Z; length : Z }.

(** [Range::end], an addition on [usize]. *)
Definition range_end (r : Range) : exec Z := uadd usize_max (start r) (length r).

Record RangeSet := mkRangeSet { ranges : list Range }.

Definition new : RangeSet := mkRangeSet [].

Definition is_empty (rs : RangeSet) : bool :=
  match ranges rs with [] => true | _ => false end.

(** [RangeSet::len]: the sum of the lengths. *)
Fixpoint sum_lengths (l : list Range) : exec Z :=
  match l with
  | [] => Val 0
  | r :: t => n ← sum_lengths t; uadd usize_max (length r) n
  end.
Definition len (rs : RangeSet) : exec Z := sum_lengths (ranges rs).

(** [RangeSet::get_range] indexes the vector and panics out of range. *)
Definition get_range (rs : RangeSet) (index : nat) : exec Range :=
  match ranges rs !! index with Some r => Val r | None => Panic end.

(** ** Queries *)

Fixpoint contains_loop (value : Z) (l : list Range) : exec bool :=
  match l with
  | [] => Val false
  | r :: t =>
      if decide (value < start r) then Val false
      else
        e ← range_end r;
        if decide (start r ≤ value ∧ value < e) then Val true
        else contains_loop value t
  end.
Definition contains (rs : RangeSet) (value : Z) : exec bool :=
  contains_loop value (ranges rs).

Fixpoint contained_length_loop (value : Z) (l : list Range) : exec Z :=
  match l with
  | [] => Val 0
  | r :: t =>
      if decide (value < start r) then Val 0
      else
        e ← range_end r;
        if decide (start r ≤ value ∧ value < e) then usub e value
        else contained_length_loop value t
  end.
Definition contained_length_from_value (rs : RangeSet) (value : Z) : exec Z :=
  contained_length_loop value (ranges rs).

Fixpoint contains_range_set_loop (rs : RangeSet) (other : list Range) : exec bool :=
  match other with
  | [] => Val true
  | r :: t =>
      n ← contained_length_from_value rs (start r);
      if decide (n < length r) then Val false
      else contains_range_set_loop rs t
  end.
Definition contains_range_set (rs other : RangeSet) : exec bool :=
  contains_range_set_loop rs (ranges other).

(** ** Adding a range *)

(** The inner [while] loop of [add_range]: merge the ranges that overlap or
    touch [new_range], removing them from the vector. *)
Fixpoint absorb (new_range : Range) (l : list Range) : exec (Range * list Range) :=
  match l with
  | [] => Val (new_range, [])
  | r :: t =>
      ne ← range_end new_range;
      if decide (start r ≤ ne) then
        re ← range_end r;
        let new_end := Z.max ne re in
        let new_start := Z.min (start new_range) (start r) in
        new_length ← usub new_end new_start;
        absorb (mkRange new_start new_length) t
      else Val (new_range, r :: t)
  end.

(** The outer [for] loop: the list is the part of the vector from [index]
    on; the ranges already passed are put back in front. *)
Fixpoint add_range_loop (range : Range) (l : list Range) : exec (list Range) :=
  match l with
  | [] => Val [range]
  | r :: t =>
      e ← range_end range;
      if decide (e < start r) then Val (range :: r :: t)
      else
        re ← range_end r;
        if decide (start range ≤ re ∧ start r ≤ e) then
          '(new_range, rest) ← absorb range (r :: t);
          Val (new_range :: rest)
        else
          rest ← add_range_loop range t;
          Val (r :: rest)
  end.
Definition add_range (rs : RangeSet) (range : Range) : exec RangeSet :=
  if decide (length range = 0) then Val rs
  else l ← add_range_loop range (ranges rs); Val (mkRangeSet l).

Fixpoint add_ranges (rs : RangeSet) (other : list Range) : exec RangeSet :=
  match other with
  | [] => Val rs
  | r :: t => rs' ← add_range rs r; add_ranges rs' t
  end.
Definition add_range_set (rs other : RangeSet) : exec RangeSet :=
  add_ranges rs (ranges other).

Definition union (rs other : RangeSet) : exec RangeSet := add_range_set rs other.

(** ** Subtracting a range *)

(** The [while] loop of [subtract_range]: drop the ranges that end inside
    the one to subtract. *)
Fixpoint drop_covered (e : Z) (l : list Range) : exec (list Range) :=
  match l with
  | [] => Val []
  | r :: t =>
      re ← range_end r;
      if decide (re ≤ e) then drop_covered e t else Val (r :: t)
  end.

(** Cut the part below [e] off a range. *)
Definition cut_front (e : Z) (r : Range) : exec Range :=
  cut ← usub e (start r);
  n ← usub (length r) cut;
  Val (mkRange e n).

Fixpoint subtract_range_loop (range : Range) (l : list Range) : exec (list Range) :=
  match l with
  | [] => Val []
  | r :: t =>
      e ← range_end range;
      if decide (e ≤ start r) then Val (r :: t)
      else if decide (start range ≤ start r ∧ start r < e) then
        rest ← drop_covered e (r :: t);
        match rest with
        | [] => Val []
        | r' :: t' =>
            if decide (start r' < e) then
              r'' ← cut_front e r'; Val (r'' :: t')
            else Val (r' :: t')
        end
      else
        re ← range_end r;
        if decide (e < re) then
          n ← usub (start range) (start r);
          r'' ← cut_front e r;
          Val (mkRange (start r) n :: r'' :: t)
        else if decide (start range < re) then
          n ← usub (start range) (start r);
          rest ← subtract_range_loop range t;
          Val (mkRange (start r) n :: rest)
        else
          rest ← subtract_range_loop range t;
          Val (r :: rest)
  end.
Definition subtract_range (rs : RangeSet) (range : Range) : exec RangeSet :=
  if decide (length range = 0) then Val rs
  else l ← subtract_range_loop range (ranges rs); Val (mkRangeSet l).

Fixpoint subtract_ranges (rs : RangeSet) (other : list Range) : exec RangeSet :=
  match other with
  | [] => Val rs
  | r :: t => rs' ← subtract_range rs r; subtract_ranges rs' t
  end.
Definition subtract_range_set (rs other : RangeSet) : exec RangeSet :=
  subtract_ranges rs (ranges other).

Definition minus (rs other : RangeSet) : exec RangeSet := subtract_range_set rs other.

(** ** Intersection *)

(** The two-index loop of [intersection]: the lists are the parts of the two
    vectors from [self_index] and from [other_index] on. *)
Fixpoint intersection_loop (l1 : list Range) : list Range → RangeSet → exec RangeSet :=
  fix other_loop (l2 : list Range) (result : RangeSet) : exec RangeSet :=
    match l1, l2 with
    | r1 :: t1, r2 :: t2 =>
        e1 ← range_end r1;
        if decide (e1 ≤ start r2) then intersection_loop t1 l2 result
        else
          e2 ← range_end r2;
          if decide (e2 ≤ start r1) then other_loop t2 result
          else
            let new_start := Z.max (start r1) (start r2) in
            let new_end := Z.min e1 e2 in
            n ← usub new_end new_start;
            result' ← add_range result (mkRange new_start n);
            if decide (e1 ≤ e2) then intersection_loop t1 l2 result'
            else other_loop t2 result'
    | _, _ => Val result
    end.
Definition intersection (rs other : RangeSet) : exec RangeSet :=
  intersection_loop (ranges rs) (ranges other) new.

(** ** Meaning and invariant *)

(** The end of a range as a mathematical sum. *)
Definition endz (r : Range) : Z := start r + length r.

(** A range that stays inside the address space: what the callers pass. *)
Definition range_fits (r : Range) : Prop :=
  0 ≤ start r ∧ 0 ≤ length r ∧ endz r ≤ usize_max.

(** Sorted, non-empty, and neither overlapping nor touching, all above [lo]. *)
Fixpoint separated (lo : Z) (l : list Range) : Prop :=
  match l with
  | [] => True
  | r :: t => lo < start r ∧ 0 < length r ∧ endz r ≤ usize_max ∧ separated (endz r) t
  end.

(** The representation invariant of a [RangeSet]. *)
Definition wf (rs : RangeSet) : Prop := separated (-1) (ranges rs).

Definition in_range (v : Z) (r : Range) : Prop := start r ≤ v < endz r.
Definition in_ranges (v : Z) (l : list Range) : Prop := Exists (in_range v) l.

#[export] Instance range_elem_of : ElemOf Z Range := in_range.
#[export] Instance rangeset_elem_of : ElemOf Z RangeSet := λ v rs, in_ranges v (ranges rs).

Lemma in_ranges_nil v : in_ranges v [] ↔ False.
Proof. apply Exists_nil. Qed.
Lemma in_ranges_cons v r l : in_ranges v (r :: l) ↔ in_range v r ∨ in_ranges v l.
Proof. apply Exists_cons. Qed.

Lemma elem_of_new v : v ∈ new ↔ False.
Proof. apply in_ranges_nil. Qed.

Lemma separated_mono lo lo' l : lo' ≤ lo → separated lo l → separated lo' l.
Proof. destruct l; simpl; [done|]. intuition lia. Qed.

Lemma separated_lb lo l v : separated lo l → in_ranges v l → lo < v.
Proof.
  revert lo. induction l as [|r t IH]; intros lo; simpl.
  - by rewrite in_ranges_nil.
  - rewrite in_ranges_cons. unfold in_range, endz in *.
    intros (?&?&?&Ht) [?|?]; [lia|]. specialize (IH _ Ht H2). unfold endz in IH. lia.
Qed.

Lemma range_end_fits r : endz r ≤ usize_max → range_end r = Val (endz r).
Proof. intros. unfold range_end. by apply uadd_Val. Qed.

#[export] Hint Rewrite in_ranges_nil in_ranges_cons : librespot.

(** Unfold membership in ranges to inequalities on their bounds, after
    collecting the lower bounds that separated tails give. *)
Ltac ranges_solve :=
  intros;
  repeat match goal with
  | Hs : separated ?lo ?l, Hm : in_ranges ?v ?l |- _ =>
      lazymatch goal with
      | _ : lo < v |- _ => fail
      | _ => pose proof (separated_lb lo l v Hs Hm)
      end
  end;
  unfold in_range, endz in *; simpl in *; (lia || intuition lia).

(** ** Adding *)

(** The head of the list reaches at least to [s]: what the outer loop of
    [add_range] has tested before it starts to merge. *)
Definition reaches (s : Z) (l : list Range) : Prop :=
  match l with [] => True | r :: _ => s ≤ endz r end.

(** The union of two ranges that overlap or touch. *)
Definition merged (r1 r2 : Range) : Range :=
  mkRange (start r1 `min` start r2) (endz r1 `max` endz r2 - start r1 `min` start r2).

Lemma endz_merged r1 r2 : endz (merged r1 r2) = endz r1 `max` endz r2.
Proof. unfold merged, endz; simpl. lia. Qed.

Lemma in_merged v r1 r2 :
  start r1 ≤ endz r2 → start r2 ≤ endz r1 →
  (in_range v (merged r1 r2) ↔ in_range v r1 ∨ in_range v r2).
Proof.
  unfold in_range. rewrite endz_merged. intros. unfold merged; simpl. unfold endz in *. lia.
Qed.

Lemma absorb_step nr r t :
  endz nr ≤ usize_max → endz r ≤ usize_max → 0 < length nr →
  absorb nr (r :: t) =
    if decide (start r ≤ endz nr) then absorb (merged nr r) t else Val (nr, r :: t).
Proof.
  intros. simpl. rewrite (range_end_fits nr), exec_bind_Val by done.
  case_decide; [|done]. rewrite (range_end_fits r), exec_bind_Val by done.
  rewrite usub_Val; [done|]. unfold endz in *. lia.
Qed.

Lemma absorb_spec lo l nr :
  lo < start nr → 0 < length nr → endz nr ≤ usize_max →
  separated lo l → reaches (start nr) l →
  ∃ nr' rest, absorb nr l = Val (nr', rest) ∧ separated lo (nr' :: rest) ∧
    ∀ v, in_ranges v (nr' :: rest) ↔ in_ranges v (nr :: l).
Proof.
  revert nr. induction l as [|r t IH]; intros nr Hlo Hlen Hfit Hs Hr.
  { exists nr, []. simpl. intuition. }
  destruct Hs as (Hr1 & Hr2 & Hr3 & Hs). simpl in Hr.
  rewrite absorb_step by done. case_decide as Hd.
  - destruct (IH (merged nr r)) as (nr' & rest & -> & Hs' & Hv).
    + simpl. lia.
    + unfold merged, endz in *; simpl. lia.
    + rewrite endz_merged. lia.
    + eapply separated_mono; [|exact Hs]. unfold endz. lia.
    + destruct t as [|r' t]; simpl in *; [done|]. unfold endz in *. lia.
    + exists nr', rest. split_and!; [done|done|]. intros v.
      rewrite Hv, !in_ranges_cons, in_merged by done. tauto.
  - exists nr, (r :: t). split; [done|]. split; [|done].
    simpl. unfold endz in *. intuition lia.
Qed.

Lemma add_range_loop_spec lo l range :
  lo < start range → 0 < length range → endz range ≤ usize_max → separated lo l →
  ∃ l', add_range_loop range l = Val l' ∧ separated lo l' ∧
    ∀ v, in_ranges v l' ↔ in_range v range ∨ in_ranges v l.
Proof.
  revert lo. induction l as [|r t IH]; intros lo Hlo Hlen Hfit Hs.
  { exists [range]. simpl. split_and!; try done. intros v. apply in_ranges_cons. }
  assert (Hs' := Hs). destruct Hs as (Hr1 & Hr2 & Hr3 & Hs). cbn [add_range_loop].
  rewrite (range_end_fits range), exec_bind_Val by done. case_decide as Hd.
  { exists (range :: r :: t). split; [done|]. split; [by simpl|].
    intros v. by rewrite in_ranges_cons. }
  rewrite (range_end_fits r), exec_bind_Val by done. case_decide as Hd2.
  - destruct (absorb_spec lo (r :: t) range) as (nr' & rest & -> & ? & Hv); try done.
    { apply Hd2. }
    exists (nr' :: rest). split_and!; [done|done|].
    intros v. rewrite Hv. apply in_ranges_cons.
  - destruct (IH (endz r)) as (l' & -> & Hl' & Hv); try done; [lia|].
    exists (r :: l'). split; [done|]. split; [done|].
    intros v. rewrite !in_ranges_cons, Hv. tauto.
Qed.

Lemma add_range_spec rs range :
  wf rs → range_fits range →
  ∃ rs', add_range rs range = Val rs' ∧ wf rs' ∧
    ∀ v, v ∈ rs' ↔ v ∈ rs ∨ v ∈ range.
Proof.
  intros Hwf (? & ? & ?). unfold add_range. case_decide as Hd.
  { exists rs. split_and!; [done|done|]. intros v.
    unfold elem_of, range_elem_of, in_range, endz. rewrite Hd. intuition lia. }
  destruct (add_range_loop_spec (-1) (ranges rs) range) as (l & -> & ? & Hv);
    [lia|lia|done|done|].
  exists (mkRangeSet l). split_and!; [done|done|].
  intros v. unfold elem_of, rangeset_elem_of, range_elem_of. simpl. rewrite Hv. tauto.
Qed.

Lemma separated_fits lo l : -1 ≤ lo → separated lo l → Forall range_fits l.
Proof.
  revert lo. induction l as [|r t IH]; intros lo Hlo; simpl; [by constructor|].
  intros (?&?&?&Ht). constructor.
  - unfold range_fits. lia.
  - apply (IH (endz r)); [unfold endz; lia|done].
Qed.

Lemma wf_fits rs : wf rs → Forall range_fits (ranges rs).
Proof. by apply separated_fits. Qed.

Lemma add_ranges_spec rs l :
  wf rs → Forall range_fits l →
  ∃ rs', add_ranges rs l = Val rs' ∧ wf rs' ∧ ∀ v, v ∈ rs' ↔ v ∈ rs ∨ in_ranges v l.
Proof.
  intros Hwf Hl. revert rs Hwf. induction Hl as [|r t Hr Ht IH]; intros rs Hwf; simpl.
  { exists rs. split_and!; try done. intros v. rewrite in_ranges_nil. tauto. }
  destruct (add_range_spec rs r) as (rs1 & -> & Hwf1 & Hv1); [done..|].
  destruct (IH rs1 Hwf1) as (rs2 & E2 & Hwf2 & Hv2). simpl. rewrite E2.
  exists rs2. split_and!; [done..|].
  intros v. rewrite Hv2, Hv1, in_ranges_cons.
  unfold elem_of, range_elem_of. tauto.
Qed.

(** ** Subtracting *)

Lemma drop_covered_spec lo e l :
  separated lo l →
  ∃ l', drop_covered e l = Val l' ∧ separated lo l' ∧
    match l' with [] => True | r :: _ => e < endz r end ∧
    ∀ v, e ≤ v → (in_ranges v l' ↔ in_ranges v l).
Proof.
  revert lo. induction l as [|r t IH]; intros lo Hs; simpl.
  { exists []. split_and!; done. }
  destruct Hs as (Hr1 & Hr2 & Hr3 & Hs).
  rewrite (range_end_fits r), exec_bind_Val by done. case_decide as Hd.
  - destruct (IH _ Hs) as (l' & -> & Hs' & Hh & Hv). exists l'. split_and!; try done.
    + eapply separated_mono; [|done]. unfold endz. lia.
    + intros v Hle. rewrite Hv, in_ranges_cons by done. unfold in_range. intuition lia.
  - exists (r :: t). split; [done|]. split; [by simpl|]. split; [lia|done].
Qed.

Lemma cut_front_spec e r :
  start r ≤ e → e < endz r → cut_front e r = Val (mkRange e (endz r - e)).
Proof.
  intros. unfold cut_front, endz in *. rewrite usub_Val by done. simpl.
  rewrite usub_Val by lia. simpl. do 2 f_equal. lia.
Qed.

(** What is left of a separated list once everything below [e] is removed. *)
Lemma cut_below_spec lo e l :
  lo < e → separated lo l →
  match l with [] => True | r :: _ => e < endz r end →
  ∃ l', (match l with
         | [] => Val []
         | r :: t => if decide (start r < e) then r' ← cut_front e r; Val (r' :: t)
                     else Val (r :: t)
         end) = Val l' ∧ separated lo l' ∧
    ∀ v, in_ranges v l' ↔ in_ranges v l ∧ e ≤ v.
Proof.
  intros Hlo Hs Hh. destruct l as [|r t].
  { exists []. split_and!; [done..|]. intros v. rewrite in_ranges_nil. tauto. }
  destruct Hs as (? & ? & ? & Hs). case_decide as Hd.
  - rewrite cut_front_spec by lia. eexists. split; [done|].
    assert (E : endz (mkRange e (endz r - e)) = endz r) by (unfold endz; simpl; lia).
    split; [simpl; rewrite E; simpl; intuition lia|].
    intros v. rewrite !in_ranges_cons. unfold in_range at 1. rewrite E. simpl.
    split; [intros [|]; split; try ranges_solve; by right|ranges_solve].
  - exists (r :: t). split; [done|]. split; [by simpl|].
    intros v. rewrite in_ranges_cons. split; [|tauto].
    intros [|]; split; auto; ranges_solve.
Qed.

(** The range to subtract starts at or before the current one. *)
Lemma subtract_head_spec lo r t range :
  0 < length range → endz range ≤ usize_max → separated lo (r :: t) →
  start range ≤ start r → start r < endz range →
  ∃ l', subtract_range_loop range (r :: t) = Val l' ∧ separated lo l' ∧
    ∀ v, in_ranges v l' ↔ in_ranges v (r :: t) ∧ ¬ in_range v range.
Proof.
  intros Hlen Hfit Hs H1 H2. cbn [subtract_range_loop].
  rewrite (range_end_fits range), exec_bind_Val, decide_False, decide_True by (done || lia).
  destruct (drop_covered_spec lo (endz range) (r :: t)) as (rest & E & Hs' & Hh & Hv); [done|].
  rewrite E, exec_bind_Val.
  destruct (cut_below_spec lo (endz range) rest) as (l' & -> & Hl' & Hv'); try done.
  { destruct Hs. lia. }
  exists l'. split_and!; [done..|]. intros v. rewrite Hv'.
  assert (in_ranges v (r :: t) → start range ≤ v).
  { destruct Hs as (?&?&?&?). rewrite in_ranges_cons. intros [|]; ranges_solve. }
  destruct (decide (endz range ≤ v)) as [Hd|Hd].
  - rewrite Hv by done. unfold in_range. intuition lia.
  - unfold in_range. intuition lia.
Qed.

(** The range to subtract punches a hole into the current one. *)
Lemma subtract_hole_spec lo r t range :
  0 < length range → endz range ≤ usize_max → separated lo (r :: t) →
  start r < start range → endz range < endz r →
  ∃ l', subtract_range_loop range (r :: t) = Val l' ∧ separated lo l' ∧
    ∀ v, in_ranges v l' ↔ in_ranges v (r :: t) ∧ ¬ in_range v range.
Proof.
  intros Hlen Hfit (Hr1 & Hr2 & Hr3 & Hs) H1 H2. cbn [subtract_range_loop].
  assert (start range < endz range) by (unfold endz; lia).
  rewrite (range_end_fits range), exec_bind_Val, !decide_False by (done || lia).
  rewrite (range_end_fits r), exec_bind_Val, decide_True by done.
  rewrite usub_Val, exec_bind_Val, cut_front_spec, exec_bind_Val by lia.
  assert (E : endz (mkRange (endz range) (endz r - endz range)) = endz r)
    by (unfold endz; simpl; lia).
  eexists. split; [done|]. split.
  - cbn [separated]. rewrite E. unfold endz in *; simpl. intuition lia.
  - intros v. rewrite !in_ranges_cons. unfold in_range at 1 2. rewrite E.
    split; [intros [?|[?|?]]; (split; [|ranges_solve])|intros [[?|?] ?]]; ranges_solve.
Qed.

Lemma subtract_range_loop_spec lo l range :
  0 < length range → endz range ≤ usize_max → separated lo l →
  ∃ l', subtract_range_loop range l = Val l' ∧ separated lo l' ∧
    ∀ v, in_ranges v l' ↔ in_ranges v l ∧ ¬ in_range v range.
Proof.
  intros Hlen Hfit. revert lo. induction l as [|r t IH]; intros lo Hs.
  { exists []. split_and!; [done..|]. intros v. rewrite in_ranges_nil. tauto. }
  assert (start range < endz range) by (unfold endz; lia).
  destruct (decide (endz range ≤ start r)) as [Hd1|Hd1].
  { exists (r :: t). split_and!; [|done|].
    - cbn [subtract_range_loop]. rewrite (range_end_fits range), exec_bind_Val by done.
      by rewrite decide_True.
    - destruct Hs as (?&?&?&?). intros v. rewrite in_ranges_cons.
      split; [|tauto]. intros [|]; (split; [tauto|ranges_solve]). }
  destruct (decide (start range ≤ start r)) as [Hd2|Hd2].
  { apply subtract_head_spec; lia || done. }
  destruct (decide (endz range < endz r)) as [Hd3|Hd3].
  { apply subtract_hole_spec; lia || done. }
  destruct Hs as (Hr1 & Hr2 & Hr3 & Hs). destruct (IH (endz r) Hs) as (l' & E & Hl' & Hv).
  cbn [subtract_range_loop]. rewrite (range_end_fits range), exec_bind_Val, !decide_False by (done || lia).
  rewrite (range_end_fits r), exec_bind_Val, decide_False by done. rewrite E. case_decide as Hd4.
  - rewrite usub_Val, exec_bind_Val by lia. eexists. split; [done|]. split.
    + cbn [separated]. unfold endz in *; simpl. intuition (try lia).
      eapply separated_mono; [|done]. lia.
    + intros v. rewrite !in_ranges_cons, Hv. unfold in_range, endz in *; simpl. intuition lia.
  - eexists. split; [done|]. split; [done|].
    intros v. rewrite !in_ranges_cons, Hv. unfold in_range, endz in *; simpl. intuition lia.
Qed.

Lemma subtract_range_spec rs range :
  wf rs → range_fits range →
  ∃ rs', subtract_range rs range = Val rs' ∧ wf rs' ∧
    ∀ v, v ∈ rs' ↔ v ∈ rs ∧ v ∉ range.
Proof.
  intros Hwf (? & ? & ?). unfold subtract_range. case_decide as Hd.
  { exists rs. split_and!; [done|done|]. intros v.
    unfold elem_of, range_elem_of, in_range, endz. rewrite Hd. intuition lia. }
  destruct (subtract_range_loop_spec (-1) (ranges rs) range) as (l & -> & ? & Hv);
    [lia|done|done|].
  by exists (mkRangeSet l).
Qed.

Lemma subtract_ranges_spec rs l :
  wf rs → Forall range_fits l →
  ∃ rs', subtract_ranges rs l = Val rs' ∧ wf rs' ∧ ∀ v, v ∈ rs' ↔ v ∈ rs ∧ ¬ in_ranges v l.
Proof.
  intros Hwf Hl. revert rs Hwf. induction Hl as [|r t Hr Ht IH]; intros rs Hwf; simpl.
  { exists rs. split_and!; try done. intros v. rewrite in_ranges_nil. tauto. }
  destruct (subtract_range_spec rs r) as (rs1 & -> & Hwf1 & Hv1); [done..|].
  destruct (IH rs1 Hwf1) as (rs2 & E2 & Hwf2 & Hv2). simpl. rewrite E2.
  exists rs2. split_and!; [done..|].
  intros v. rewrite Hv2, Hv1, in_ranges_cons.
  unfold elem_of, range_elem_of. tauto.
Qed.

(** ** Intersecting *)

Lemma intersection_loop_cons r1 t1 r2 t2 result :
  intersection_loop (r1 :: t1) (r2 :: t2) result =
    (e1 ← range_end r1;
     if decide (e1 ≤ start r2) then intersection_loop t1 (r2 :: t2) result
     else
       e2 ← range_end r2;
       if decide (e2 ≤ start r1) then intersection_loop (r1 :: t1) t2 result
       else
         n ← usub (Z.min e1 e2) (Z.max (start r1) (start r2));
         result' ← add_range result (mkRange (Z.max (start r1) (start r2)) n);
         if decide (e1 ≤ e2) then intersection_loop t1 (r2 :: t2) result'
         else intersection_loop (r1 :: t1) t2 result').
Proof. reflexivity. Qed.

Lemma intersection_loop_spec lo1 lo2 l1 l2 result :
  -1 ≤ lo1 → -1 ≤ lo2 → separated lo1 l1 → separated lo2 l2 → wf result →
  ∃ rs', intersection_loop l1 l2 result = Val rs' ∧ wf rs' ∧
    ∀ v, v ∈ rs' ↔ v ∈ result ∨ (in_ranges v l1 ∧ in_ranges v l2).
Proof.
  revert lo1 lo2 l2 result. induction l1 as [|r1 t1 IH1]; intros lo1 lo2 l2 result Hlo1 Hlo2 Hs1.
  { intros Hs2 Hwf. exists result. destruct l2; split_and!; try done;
      intros v; rewrite in_ranges_nil; tauto. }
  revert lo2 result Hlo2. induction l2 as [|r2 t2 IH2]; intros lo2 result Hlo2 Hs2 Hwf.
  { exists result. split_and!; try done. intros v. rewrite in_ranges_nil. tauto. }
  assert (Hs1' := Hs1). assert (Hs2' := Hs2).
  destruct Hs1 as (?&?&?&Ht1). destruct Hs2 as (?&?&?&Ht2).
  assert (start r1 < endz r1) by (unfold endz; lia).
  assert (start r2 < endz r2) by (unfold endz; lia).
  rewrite intersection_loop_cons, (range_end_fits r1), exec_bind_Val by done.
  case_decide as Hd1.
  { destruct (IH1 (endz r1) lo2 (r2 :: t2) result) as (rs' & E & ? & Hv); try done; [lia|].
    exists rs'. split_and!; [done..|]. intros v. rewrite Hv, !in_ranges_cons.
    split; [tauto|]. intros [|[[] []]]; auto; exfalso; ranges_solve. }
  rewrite (range_end_fits r2), exec_bind_Val by done. case_decide as Hd2.
  { destruct (IH2 (endz r2) result) as (rs' & E & ? & Hv); try done; [lia|].
    exists rs'. split_and!; [done..|]. intros v. rewrite Hv, !in_ranges_cons.
    split; [tauto|]. intros [|[[] []]]; auto; exfalso; ranges_solve. }
  rewrite usub_Val, exec_bind_Val by lia.
  set (r := mkRange _ _).
  destruct (add_range_spec result r) as (rs1 & -> & Hwf1 & Hv1); [done| |].
  { unfold range_fits, endz, r; simpl. lia. }
  rewrite exec_bind_Val.
  assert (Hr : ∀ v, v ∈ r ↔ in_range v r1 ∧ in_range v r2).
  { intros v. unfold elem_of, range_elem_of, in_range, r, endz; simpl. lia. }
  case_decide as Hd3.
  - destruct (IH1 (endz r1) lo2 (r2 :: t2) rs1) as (rs' & E & ? & Hv); try done; [lia|].
    exists rs'. split_and!; [done..|]. intros v. rewrite Hv, Hv1, Hr, !in_ranges_cons.
    split; [tauto|]. intros [|[[] []]]; auto; exfalso; ranges_solve.
  - destruct (IH2 (endz r2) rs1) as (rs' & E & ? & Hv); try done; [lia|].
    exists rs'. split_and!; [done..|]. intros v. rewrite Hv, Hv1, Hr, !in_ranges_cons.
    split; [tauto|]. intros [|[[] []]]; auto; exfalso; ranges_solve.
Qed.

(** ** Queries *)

Lemma contains_loop_spec lo l v :
  separated lo l → ∃ b, contains_loop v l = Val b ∧ (b = true ↔ in_ranges v l).
Proof.
  revert lo. induction l as [|r t IH]; intros lo; simpl.
  { exists false. by rewrite in_ranges_nil. }
  intros (?&?&?&Ht). case_decide as Hd.
  { exists false. split; [done|]. split; [done|].
    intros [|]%in_ranges_cons; exfalso; ranges_solve. }
  rewrite (range_end_fits r), exec_bind_Val by done. case_decide as Hd2.
  { exists true. split; [done|]. split; [|done]. by left. }
  destruct (IH _ Ht) as (b & -> & Hb). exists b. split; [done|].
  rewrite Hb, in_ranges_cons. unfold in_range. intuition lia.
Qed.

Lemma contained_length_loop_spec lo l v :
  separated lo l → ∃ n, contained_length_loop v l = Val n ∧ 0 ≤ n ∧
    (∀ w, v ≤ w < v + n → in_ranges w l) ∧ ¬ in_ranges (v + n) l.
Proof.
  revert lo. induction l as [|r t IH]; intros lo; simpl.
  { exists 0. split_and!; [done|lia|intros; lia|]. by intros ?%in_ranges_nil. }
  intros (?&?&?&Ht). case_decide as Hd.
  { exists 0. split_and!; [done|lia|intros; lia|]. intros [|]%in_ranges_cons; ranges_solve. }
  rewrite (range_end_fits r), exec_bind_Val by done. case_decide as Hd2.
  { exists (endz r - v). split_and!; [apply usub_Val; lia|lia| |].
    - intros w ?. left. unfold in_range. lia.
    - replace (v + (endz r - v)) with (endz r) by lia.
      intros [|]%in_ranges_cons; ranges_solve. }
  destruct (IH _ Ht) as (n & -> & Hn & Hin & Hout). exists n. split_and!; [done..| |].
  - intros w ?. right. by apply Hin.
  - intros [|]%in_ranges_cons; [|tauto]. unfold in_range in *. lia.
Qed.

Lemma contained_length_covers rs v n m :
  contained_length_from_value rs v = Val n → wf rs → 0 ≤ m →
  (m ≤ n ↔ ∀ w, v ≤ w < v + m → w ∈ rs).
Proof.
  intros E Hwf Hm. destruct (contained_length_loop_spec (-1) (ranges rs) v Hwf)
    as (n' & E' & Hn & Hin & Hout).
  unfold contained_length_from_value in E. rewrite E in E'. injection E' as <-. split.
  - intros Hle w Hw. apply Hin. lia.
  - intros Hall. destruct (decide (m ≤ n)) as [|Hlt]; [done|].
    exfalso. apply Hout, Hall. lia.
Qed.

Lemma contains_range_set_loop_spec rs lo l :
  wf rs → separated lo l →
  ∃ b, contains_range_set_loop rs l = Val b ∧ (b = true ↔ ∀ v, in_ranges v l → v ∈ rs).
Proof.
  intros Hwf. revert lo. induction l as [|r t IH]; intros lo; simpl.
  { exists true. split; [done|]. split; [|done]. by intros _ v ?%in_ranges_nil. }
  intros (?&?&?&Ht).
  destruct (contained_length_loop_spec (-1) (ranges rs) (start r) Hwf) as (n & E & _).
  change (contained_length_from_value rs (start r) = Val n) in E.
  rewrite E, exec_bind_Val.
  assert (Hc := contained_length_covers rs (start r) n (length r) E Hwf ltac:(lia)).
  case_decide as Hd.
  - exists false. split; [done|]. split; [done|]. intros Hall.
    assert (length r ≤ n); [|lia]. apply Hc. intros w Hw. apply Hall. by left.
  - destruct (IH _ Ht) as (b & -> & Hb). exists b. split; [done|]. rewrite Hb. split.
    + intros Hall v [Hv|Hv]%in_ranges_cons; [|auto]. apply Hc; [lia|]. exact Hv.
    + intros Hall v Hv. apply Hall. by right.
Qed.

(** ** Canonicity *)

Lemma separated_head_min lo r t v : separated lo (r :: t) → in_ranges v (r :: t) → start r ≤ v.
Proof. intros (?&?&?&?) [|]%in_ranges_cons; ranges_solve. Qed.

Lemma separated_end_out lo r t : separated lo (r :: t) → ¬ in_ranges (endz r) (r :: t).
Proof. intros (?&?&?&?) [|]%in_ranges_cons; ranges_solve. Qed.

Lemma separated_head_ends lo1 lo2 r1 t1 r2 t2 :
  separated lo1 (r1 :: t1) → separated lo2 (r2 :: t2) → start r1 = start r2 →
  (∀ v, in_ranges v (r1 :: t1) → in_ranges v (r2 :: t2)) → endz r1 ≤ endz r2.
Proof.
  intros H1 H2 Hst Hall. destruct (decide (endz r1 ≤ endz r2)) as [|Hn]; [done|].
  exfalso. apply (separated_end_out _ _ _ H2), Hall. left.
  destruct H2 as (?&?&?&?). unfold in_range, endz in *. lia.
Qed.

Lemma separated_ext lo1 lo2 l1 l2 :
  separated lo1 l1 → separated lo2 l2 →
  (∀ v, in_ranges v l1 ↔ in_ranges v l2) → l1 = l2.
Proof.
  assert (Hhead : ∀ lo r t, separated lo (r :: t) → in_ranges (start r) (r :: t)).
  { intros lo r t (?&?&?&?). left. unfold in_range, endz. lia. }
  revert lo1 lo2 l2. induction l1 as [|r1 t1 IH]; intros lo1 lo2 [|r2 t2] H1 H2 Hv.
  - done.
  - exfalso. by apply (in_ranges_nil (start r2)), Hv, (Hhead lo2).
  - exfalso. by apply (in_ranges_nil (start r1)), Hv, (Hhead lo1).
  - assert (Hst : start r1 = start r2).
    { apply Z.le_antisymm.
      - eapply separated_head_min; [exact H1|]. apply Hv. by eapply Hhead.
      - eapply separated_head_min; [exact H2|]. apply Hv. by eapply Hhead. }
    assert (Hen : endz r1 = endz r2).
    { apply Z.le_antisymm.
      - apply (separated_head_ends _ _ _ _ _ _ H1 H2); [done|]. intros v. apply Hv.
      - apply (separated_head_ends _ _ _ _ _ _ H2 H1); [done|]. intros v. apply Hv. }
    assert (Hr : r1 = r2).
    { destruct r1, r2; unfold endz in *; simpl in *. f_equal; lia. }
    subst r2. f_equal. destruct H1 as (?&?&?&Ht1), H2 as (?&?&?&Ht2).
    apply (IH (endz r1) (endz r1)); [done..|]. intros v.
    specialize (Hv v). rewrite !in_ranges_cons in Hv.
    split; intros Hin; (assert (¬ in_range v r1) by ranges_solve); tauto.
Qed.

(** ** The component's theorems *)

(** C37: the set operations.  On well-formed arguments [union], [minus] and
    [intersection] never panic (no [usize] addition or subtraction they make
    overflows), return a well-formed set, and denote the union, the
    difference and the intersection of the sets of byte positions. *)
Theorem rangeset_algebra a b :
  wf a → wf b →
  (∃ u, union a b = Val u ∧ wf u ∧ ∀ v, v ∈ u ↔ v ∈ a ∨ v ∈ b) ∧
  (∃ m, minus a b = Val m ∧ wf m ∧ ∀ v, v ∈ m ↔ v ∈ a ∧ v ∉ b) ∧
  (∃ i, intersection a b = Val i ∧ wf i ∧ ∀ v, v ∈ i ↔ v ∈ a ∧ v ∈ b).
Proof.
  intros Ha Hb. split_and!.
  - apply add_ranges_spec; [done|]. by apply wf_fits.
  - apply subtract_ranges_spec; [done|]. by apply wf_fits.
  - destruct (intersection_loop_spec (-1) (-1) (ranges a) (ranges b) new)
      as (i & E & Hi & Hv); [lia|lia|done|done|done|].
    exists i. split_and!; [done..|]. intros v. rewrite Hv, elem_of_new. tauto.
Qed.

Lemma rangeset_algebra_witness :
  ∃ i, intersection (mkRangeSet [mkRange 0 4; mkRange 10 5]) (mkRangeSet [mkRange 2 9]) = Val i ∧
    i = mkRangeSet [mkRange 2 2; mkRange 10 1] ∧ wf i.
Proof.
  destruct (rangeset_algebra (mkRangeSet [mkRange 0 4; mkRange 10 5]) (mkRangeSet [mkRange 2 9]))
    as (_ & _ & i & E & Hi & _); [repeat split; vm_compute; congruence..|].
  exists i. split; [exact E|]. split; [vm_compute in E; congruence|exact Hi].
Defined.

(** Updates of a range set, as the download bookkeeping issues them. *)
Inductive update := Add (r : Range) | Subtract (r : Range).

Definition update_range (u : update) : Range :=
  match u with Add r | Subtract r => r end.
Definition apply_update (rs : RangeSet) (u : update) : exec RangeSet :=
  match u with Add r => add_range rs r | Subtract r => subtract_range rs r end.
Fixpoint apply_updates (rs : RangeSet) (us : list update) : exec RangeSet :=
  match us with
  | [] => Val rs
  | u :: us => rs' ← apply_update rs u; apply_updates rs' us
  end.

(** The abstract machine: a predicate on byte positions. *)
Definition spec_update (P : Z → Prop) (u : update) : Z → Prop :=
  match u with
  | Add r => λ v, P v ∨ v ∈ r
  | Subtract r => λ v, P v ∧ v ∉ r
  end.
Definition spec_updates (P : Z → Prop) (us : list update) : Z → Prop :=
  foldl spec_update P us.

Lemma spec_updates_ext us : ∀ P Q : Z → Prop,
  (∀ v, P v ↔ Q v) → ∀ v, spec_updates P us v ↔ spec_updates Q us v.
Proof.
  induction us as [|u us IH]; intros P Q H v; [apply H|].
  apply IH. intros w. destruct u; simpl; by rewrite H.
Qed.

Lemma apply_update_spec rs u :
  wf rs → range_fits (update_range u) →
  ∃ rs', apply_update rs u = Val rs' ∧ wf rs' ∧
    ∀ v, v ∈ rs' ↔ spec_update (λ w, w ∈ rs) u v.
Proof. destruct u; [apply add_range_spec|apply subtract_range_spec]. Qed.

(** Every reachable range set.  Starting from a well-formed set, any
    sequence of [add_range] and [subtract_range] calls with ranges inside the
    address space runs to the end without a panic, keeps the representation
    invariant, and denotes what the same updates make of the abstract set. *)
Lemma apply_updates_refines rs us :
  wf rs → Forall (λ u, range_fits (update_range u)) us →
  ∃ rs', apply_updates rs us = Val rs' ∧ wf rs' ∧
    ∀ v, v ∈ rs' ↔ spec_updates (λ w, w ∈ rs) us v.
Proof.
  intros Hwf Hus. revert rs Hwf. induction Hus as [|u us Hu Hus IH]; intros rs Hwf.
  { by exists rs. }
  destruct (apply_update_spec rs u) as (rs1 & E1 & Hwf1 & Hv1); [done..|].
  destruct (IH rs1 Hwf1) as (rs2 & E2 & Hwf2 & Hv2).
  exists rs2. simpl. rewrite E1, exec_bind_Val. split_and!; [done..|].
  intros v. rewrite Hv2. by apply spec_updates_ext.
Qed.

(** the representation is canonical.  Two well-formed range sets with the
    same byte positions are the same list of ranges, so the order in which
    ranges were added and removed leaves no trace. *)
Lemma rangeset_canonical a b :
  wf a → wf b → (∀ v, v ∈ a ↔ v ∈ b) → a = b.
Proof.
  intros Ha Hb Hv. destruct a as [la], b as [lb]. f_equal.
  by apply (separated_ext (-1) (-1)).
Qed.

(** [contained_length_from_value] is the length of the longest run of
    downloaded bytes that starts at [value]: every byte of the run is in the
    set and the byte after it is not; it agrees with [contains], and
    [contains_range_set] decides inclusion. *)
Lemma rangeset_queries rs other value :
  wf rs → wf other →
  (∃ n, contained_length_from_value rs value = Val n ∧ 0 ≤ n ∧
     (∀ w, value ≤ w < value + n → w ∈ rs) ∧ value + n ∉ rs) ∧
  (∃ b, contains rs value = Val b ∧ (b = true ↔ value ∈ rs)) ∧
  (∃ b, contains_range_set rs other = Val b ∧ (b = true ↔ ∀ v, v ∈ other → v ∈ rs)).
Proof.
  intros Hrs Ho. split_and!.
  - by apply (contained_length_loop_spec (-1)).
  - by apply (contains_loop_spec (-1)).
  - by apply (contains_range_set_loop_spec rs (-1)).
Qed.

