(* ===== verification/Digits.v ===== *)
(** * Positional numerals, big-endian bytes, and the standard library's
      integer parsing and printing

    Rust strings are modelled by their UTF-8 bytes, one [ascii] per byte.
    This file has the pieces of [core::num], [core::fmt] and [byteorder] the
    sources use: [from_str_radix], [to_string], zero-padded hexadecimal,
    [to_be_bytes] and [from_be_bytes]. *)

From S2P Require Import Prelude.
Local Open Scope Z_scope.
Local Coercion Z.of_nat : nat >-> Z.

(** ** Digit lists *)

Definition digits_ok (b : Z) (l : list Z) : Prop := Forall (λ d, 0 ≤ d < b) l.

(** Little-endian value of a digit list. *)
Fixpoint eval_le (b : Z) (l : list Z) : Z :=
  match l with [] => 0 | d :: t => d + b * eval_le b t end.

(** Big-endian value, as a left fold reads it. *)
Definition eval_be (b : Z) (l : list Z) : Z := foldl (λ acc d, acc * b + d) 0 l.

Lemma eval_be_foldl b l : foldl (λ acc d, acc * b + d) 0 l = eval_be b l.
Proof. reflexivity. Qed.

(** The [k] low digits of [n], least significant first. *)
Fixpoint digits_le (b : Z) (k : nat) (n : Z) : list Z :=
  match k with O => [] | S k => n `mod` b :: digits_le b k (n / b) end.

(** The [k] low digits of [n], most significant first. *)
Definition digits_be (b : Z) (k : nat) (n : Z) : list Z := rev (digits_le b k n).

Lemma length_digits_le b k n : length (digits_le b k n) = k.
Proof. revert n. induction k; intros; simpl; auto. Qed.

Lemma length_digits_be b k n : length (digits_be b k n) = k.
Proof. unfold digits_be. rewrite length_rev. apply length_digits_le. Qed.

Lemma eval_le_app b l1 l2 :
  eval_le b (l1 ++ l2) = eval_le b l1 + b ^ length l1 * eval_le b l2.
Proof.
  induction l1 as [|d l1 IH]; cbn -[Z.of_nat]; [lia|].
  rewrite IH, Nat2Z.inj_succ, Z.pow_succ_r by lia. ring.
Qed.

Lemma eval_be_rev b l : eval_be b (rev l) = eval_le b l.
Proof.
  induction l as [|d l IH]; [done|]. simpl. unfold eval_be in *.
  rewrite foldl_app. simpl. rewrite IH. lia.
Qed.

Lemma eval_le_bounds b l : 1 < b → digits_ok b l → 0 ≤ eval_le b l < b ^ length l.
Proof.
  intros Hb. induction 1 as [|d l Hd Hl IH]; cbn -[Z.of_nat]; [lia|].
  rewrite Nat2Z.inj_succ, Z.pow_succ_r by lia. nia.
Qed.

Lemma digits_le_ok b k n : 1 < b → digits_ok b (digits_le b k n).
Proof.
  intros Hb. revert n. induction k; intros n; simpl; constructor; [|apply IHk].
  apply Z.mod_pos_bound. lia.
Qed.

Lemma eval_digits_le b (k : nat) n : 1 < b → 0 ≤ n → eval_le b (digits_le b k n) = n `mod` b ^ k.
Proof.
  intros Hb. revert n. induction k as [|k IH]; intros n Hn; cbn -[Z.of_nat].
  - by rewrite Z.mod_1_r.
  - rewrite IH by (apply Z.div_pos; lia).
    rewrite Nat2Z.inj_succ, Z.pow_succ_r by lia.
    rewrite Z.rem_mul_r; lia.
Qed.

Lemma digits_eval_le b l :
  1 < b → digits_ok b l → digits_le b (length l) (eval_le b l) = l.
Proof.
  intros Hb. induction 1 as [|d l Hd Hl IH]; [done|]. cbn -[Z.of_nat].
  rewrite (Z.mul_comm b), Z_mod_plus_full, Z.mod_small by done.
  rewrite Z_div_plus_full, Z.div_small, Z.add_0_l by lia. by rewrite IH.
Qed.

Lemma digits_be_ok b k n : 1 < b → digits_ok b (digits_be b k n).
Proof. intros. by apply Forall_rev, digits_le_ok. Qed.

Lemma eval_digits_be b (k : nat) n :
  1 < b → 0 ≤ n < b ^ k → eval_be b (digits_be b k n) = n.
Proof.
  intros. unfold digits_be. rewrite eval_be_rev, eval_digits_le by lia.
  by apply Z.mod_small.
Qed.

Lemma digits_eval_be b l :
  1 < b → digits_ok b l → digits_be b (length l) (eval_be b l) = l.
Proof.
  intros Hb Hl. unfold digits_be. rewrite <- (rev_involutive l) at 2.
  rewrite eval_be_rev, <- length_rev, digits_eval_le; [|done|by apply Forall_rev].
  apply rev_involutive.
Qed.

Lemma eval_be_bounds b l : 1 < b → digits_ok b l → 0 ≤ eval_be b l < b ^ length l.
Proof.
  intros Hb Hl. rewrite <- (rev_involutive l), eval_be_rev, (length_rev (rev l)).
  apply eval_le_bounds; [done|]. by apply Forall_rev.
Qed.

Lemma eval_be_inj b l1 l2 :
  1 < b → digits_ok b l1 → digits_ok b l2 → length l1 = length l2 →
  eval_be b l1 = eval_be b l2 → l1 = l2.
Proof.
  intros Hb H1 H2 Hlen E. rewrite <- (digits_eval_be b l1), <- (digits_eval_be b l2) by done.
  by rewrite Hlen, E.
Qed.

Lemma eval_be_acc b l acc :
  foldl (λ a d, a * b + d) acc l = acc * b ^ length l + eval_be b l.
Proof.
  unfold eval_be. revert acc. induction l as [|d l IH]; intros acc; cbn [foldl length]; [lia|].
  rewrite IH, (IH (0 * b + d)), Nat2Z.inj_succ, Z.pow_succ_r by lia. ring.
Qed.

Lemma eval_be_cons b d l : eval_be b (d :: l) = d * b ^ length l + eval_be b l.
Proof. unfold eval_be at 1. cbn [foldl]. rewrite Z.mul_0_l, Z.add_0_l. apply eval_be_acc. Qed.

(** ** Big-endian bytes *)

Definition byte_ok (x : Z) : Prop := 0 ≤ x < 256.
Definition bytes_ok (l : list Z) : Prop := digits_ok 256 l.

(** Decide that a literal byte string is one. *)
Ltac bytes_solve :=
  unfold bytes_ok, byte_ok; repeat apply Forall_cons_2; try apply Forall_nil_2; lia.

(** [to_be_bytes] of a [k]-byte integer and [from_be_bytes]. *)
Definition to_be_bytes (k : nat) (n : Z) : list Z := digits_be 256 k n.
Definition from_be_bytes (l : list Z) : Z := eval_be 256 l.

Lemma length_to_be_bytes k n : length (to_be_bytes k n) = k.
Proof. apply length_digits_be. Qed.
Lemma to_be_bytes_ok k n : bytes_ok (to_be_bytes k n).
Proof. by apply digits_be_ok. Qed.
Lemma from_to_be_bytes (k : nat) n : 0 ≤ n < 256 ^ k → from_be_bytes (to_be_bytes k n) = n.
Proof. by apply eval_digits_be. Qed.
Lemma to_from_be_bytes l : bytes_ok l → to_be_bytes (length l) (from_be_bytes l) = l.
Proof. by apply digits_eval_be. Qed.
Lemma from_be_bytes_bounds l : bytes_ok l → 0 ≤ from_be_bytes l < 256 ^ length l.
Proof. by apply eval_be_bounds. Qed.

(** ** Characters and digits *)

Definition code (c : ascii) : Z := Z.of_N (N_of_ascii c).
Definition chr (z : Z) : ascii := ascii_of_N (Z.to_N z).

Lemma code_bounds c : 0 ≤ code c < 256.
Proof. unfold code. pose proof (N_ascii_bounded c). lia. Qed.
Lemma chr_code c : chr (code c) = c.
Proof. unfold chr, code. rewrite N2Z.id. apply ascii_N_embedding. Qed.
Lemma code_chr z : 0 ≤ z < 256 → code (chr z) = z.
Proof. intros. unfold chr, code. rewrite N_ascii_embedding; lia. Qed.

(** [char::to_digit]: letters of either case, then the radix test. *)
Definition to_digit (radix : Z) (c : ascii) : option Z :=
  let z := code c in
  let d :=
    if decide (48 ≤ z ≤ 57) then Some (z - 48)
    else if decide (97 ≤ z ≤ 122) then Some (z - 97 + 10)
    else if decide (65 ≤ z ≤ 90) then Some (z - 65 + 10)
    else None in
  d ≫= λ d, if decide (d < radix) then Some d else None.

(** The lower-case digit character the formatting traits print. *)
Definition from_digit (d : Z) : ascii :=
  if decide (d < 10) then chr (48 + d) else chr (97 + (d - 10)).

Lemma to_from_digit radix d : 0 ≤ d < radix → radix ≤ 36 → to_digit radix (from_digit d) = Some d.
Proof.
  intros. unfold from_digit. destruct (decide (d < 10)); unfold to_digit; rewrite code_chr by lia.
  - rewrite decide_True by lia. simpl. rewrite decide_True by lia. f_equal; lia.
  - rewrite decide_False, decide_True by lia. simpl. rewrite decide_True by lia. f_equal; lia.
Qed.

Lemma to_digit_bounds radix c d : to_digit radix c = Some d → 0 ≤ d < radix.
Proof. unfold to_digit. intros H. repeat case_decide; simplify_eq/=; case_decide; simplify_eq; lia. Qed.

(** ** Parsing *)

Inductive ParseIntError := IntEmpty | IntInvalidDigit | IntPosOverflow.

(** The digit loop of [from_str_radix] on an unsigned type with maximum [mx]. *)
Fixpoint radix_loop (mx radix acc : Z) (s : string) : result Z ParseIntError :=
  match s with
  | EmptyString => Ok acc
  | String c s' =>
      match checked_mul mx acc radix with
      | None => match to_digit radix c with None => Err IntInvalidDigit | Some _ => Err IntPosOverflow end
      | Some m =>
          match to_digit radix c with
          | None => Err IntInvalidDigit
          | Some d =>
              match checked_add mx m d with
              | None => Err IntPosOverflow
              | Some a => radix_loop mx radix a s'
              end
          end
      end
  end.

(** [uN::from_str_radix]: an optional leading plus sign, then digits. *)
Definition from_str_radix (mx radix : Z) (s : string) : result Z ParseIntError :=
  match s with
  | EmptyString => Err IntEmpty
  | String c s' =>
      if decide (c = "+"%char ∨ c = "-"%char) then
        if decide (s' = EmptyString) then Err IntInvalidDigit
        else if decide (c = "+"%char) then radix_loop mx radix 0 s'
        else radix_loop mx radix 0 s
      else radix_loop mx radix 0 s
  end.

(** [str::parse] at an unsigned integer type. *)
Definition parse_uint (mx : Z) (s : string) : result Z ParseIntError := from_str_radix mx 10 s.

(** What the digit loop accepts: digit characters only, and a value that
    never passes [mx]. *)
Fixpoint digit_values (radix : Z) (s : string) : option (list Z) :=
  match s with
  | EmptyString => Some []
  | String c s' => d ← to_digit radix c; ds ← digit_values radix s'; Some (d :: ds)
  end.

Lemma digit_values_ok radix s ds : digit_values radix s = Some ds → digits_ok radix ds.
Proof.
  revert ds. induction s as [|c s IH]; intros ds; simpl.
  - intros [= <-]. constructor.
  - destruct (to_digit radix c) as [d|] eqn:E; [|done]. simpl.
    destruct (digit_values radix s) as [ds'|]; [|done]. simpl. intros [= <-].
    constructor; [by eapply to_digit_bounds|by apply IH].
Qed.

Lemma length_digit_values radix s ds :
  digit_values radix s = Some ds → length ds = String.length s.
Proof.
  revert ds. induction s as [|c s IH]; intros ds; simpl.
  - by intros [= <-].
  - destruct (to_digit radix c) as [d|]; [|done]. simpl.
    destruct (digit_values radix s) as [ds'|]; [|done]. simpl. intros [= <-].
    simpl. f_equal. by apply IH.
Qed.

Lemma foldl_digits_ge radix ds acc :
  1 < radix → digits_ok radix ds → 0 ≤ acc →
  acc ≤ foldl (λ a d, a * radix + d) acc ds.
Proof.
  intros Hr Hds. revert acc. induction Hds as [|d ds Hd Hds IH]; intros acc Hacc; simpl; [lia|].
  etransitivity; [|apply IH; nia]. nia.
Qed.

Lemma radix_loop_Ok mx radix acc s n :
  1 < radix → 0 ≤ acc ≤ mx →
  radix_loop mx radix acc s = Ok n ↔
  ∃ ds, digit_values radix s = Some ds ∧ n = foldl (λ a d, a * radix + d) acc ds ∧ n ≤ mx.
Proof.
  intros Hr. revert acc. induction s as [|c s IH]; intros acc Hacc; simpl.
  { split; [intros [= <-]; eexists; split_and!; simpl; done || lia|].
    by intros (ds & [= <-] & -> & _). }
  unfold checked_mul, checked_add.
  destruct (to_digit radix c) as [d|] eqn:Ed; simpl.
  2:{ case_decide; split; try done; by intros (?&?&_). }
  pose proof (to_digit_bounds _ _ _ Ed).
  assert (Hbig : ∀ ds, digit_values radix s = Some ds →
    acc * radix + d ≤ foldl (λ a d, a * radix + d) (acc * radix + d) ds).
  { intros ds Hds. apply foldl_digits_ge; [lia| |nia]. by eapply digit_values_ok. }
  destruct (digit_values radix s) as [ds|] eqn:Eds; simpl.
  - specialize (Hbig ds eq_refl). repeat case_decide.
    + rewrite IH by nia. split; intros (ds' & [= <-] & -> & Hn); eauto.
    + split; [done|]. intros (ds' & [= <-] & -> & Hn). simpl in Hn. lia.
    + split; [done|]. intros (ds' & [= <-] & -> & Hn). simpl in Hn. lia.
  - repeat case_decide; try (split; [done|by intros (?&?&_)]).
    rewrite IH by nia. split; by intros (?&?&_).
Qed.

Lemma radix_loop_bounds mx radix acc s n :
  1 < radix → 0 ≤ acc ≤ mx → radix_loop mx radix acc s = Ok n → 0 ≤ n ≤ mx.
Proof.
  intros Hr Hacc (ds & Hds & -> & Hn)%radix_loop_Ok; [|done..]. split; [|done].
  apply digit_values_ok in Hds. etransitivity; [apply Hacc|]. by apply foldl_digits_ge; [lia|..|lia].
Qed.

Lemma parse_uint_bounds mx s n : 0 ≤ mx → parse_uint mx s = Ok n → 0 ≤ n ≤ mx.
Proof.
  intros Hmx. unfold parse_uint, from_str_radix. destruct s as [|c s]; [done|].
  repeat case_decide; try done; intros E; by eapply radix_loop_bounds in E; [|lia..].
Qed.

(** ** Printing *)

(** The digit characters of a digit list, and back. *)
Definition digit_string (l : list Z) : string := foldr (λ d s, String (from_digit d) s) EmptyString l.

Lemma digit_values_string radix l :
  radix ≤ 36 → digits_ok radix l → digit_values radix (digit_string l) = Some l.
Proof.
  intros Hr. induction 1 as [|d l Hd Hl IH]; [done|]. simpl.
  rewrite to_from_digit by lia. simpl. by rewrite IH.
Qed.

Lemma length_digit_string l : String.length (digit_string l) = length l.
Proof. induction l; simpl; auto. Qed.

(** The number of significant digits, at least one.  [fuel] bounds the
    number of divisions. *)
Fixpoint num_digits (radix : Z) (fuel : nat) (n : Z) : nat :=
  match fuel with
  | O => 1
  | S fuel => if decide (n < radix) then 1 else S (num_digits radix fuel (n / radix))
  end.

(** The [Display] and [LowerHex] output of an unsigned integer of at most 128
    bits: no leading zero, ["0"] for zero.  128 divisions are enough for any
    radix. *)
Definition fmt_radix (radix n : Z) : string :=
  digit_string (digits_be radix (num_digits radix 128 n) n).
Definition display (n : Z) : string := fmt_radix 10 n.

(** Zero padding to a minimum width: [{:0wx}]. *)
Fixpoint zeros (k : nat) (s : string) : string :=
  match k with O => s | S k => String "0" (zeros k s) end.
Definition pad_zero (w : nat) (s : string) : string := zeros (w - String.length s) s.

Lemma num_digits_pos radix fuel n : (1 ≤ num_digits radix fuel n)%nat.
Proof. destruct fuel; simpl; [lia|]. case_decide; lia. Qed.

Lemma num_digits_enough radix fuel n :
  1 < radix → 0 ≤ n < radix ^ (S fuel) → n < radix ^ num_digits radix fuel n.
Proof.
  intros Hr. revert n. induction fuel as [|fuel IH]; intros n Hn; [exact (proj2 Hn)|]. cbn [num_digits].
  case_decide; [change (Z.of_nat 1) with 1; lia|].
  rewrite Nat2Z.inj_succ, Z.pow_succ_r in Hn |- * by lia.
  pose proof (Z.div_lt_upper_bound n radix _ ltac:(lia) (proj2 Hn)) as Hdiv.
  assert (Hpos : 0 ≤ n / radix) by (apply Z.div_pos; lia).
  specialize (IH (n / radix) (conj Hpos Hdiv)).
  pose proof (Z.mul_succ_div_gt n radix ltac:(lia)). nia.
Qed.

Lemma num_digits_minimal radix fuel n (w : nat) :
  1 < radix → 0 ≤ n < radix ^ w → (1 ≤ w)%nat → (num_digits radix fuel n ≤ w)%nat.
Proof.
  intros Hr. revert n w. induction fuel as [|fuel IH]; intros n w Hn Hw; [done|]. cbn [num_digits].
  case_decide as Hd; [done|]. destruct w as [|[|w]]; [lia|change (Z.of_nat 1) with 1 in Hn; lia|].
  apply le_n_S, IH; [|lia]. split; [apply Z.div_pos; lia|].
  apply Z.div_lt_upper_bound; [lia|].
  rewrite (Nat2Z.inj_succ (S w)), Z.pow_succ_r in Hn by lia. apply Hn.
Qed.

Lemma zeros_digit_string k l : zeros k (digit_string l) = digit_string (replicate k 0 ++ l).
Proof. induction k; simpl; [done|]. by rewrite IHk. Qed.

Lemma digits_ok_replicate_0 b k : 1 < b → digits_ok b (replicate k 0).
Proof. intros. apply Forall_replicate. lia. Qed.

Lemma eval_le_replicate_0 b k : eval_le b (replicate k 0) = 0.
Proof. induction k as [|k IH]; [done|]. cbn [replicate eval_le]. lia. Qed.

Lemma eval_be_replicate_0 b k l : eval_be b (replicate k 0 ++ l) = eval_be b l.
Proof. unfold eval_be. rewrite foldl_app. f_equal. induction k; simpl; [done|]. apply IHk. Qed.

Lemma digits_be_pad b (m w : nat) n :
  1 < b → 0 ≤ n < b ^ m → (m ≤ w)%nat →
  digits_be b w n = replicate (w - m) 0 ++ digits_be b m n.
Proof.
  intros Hb Hn Hle.
  assert (0 ≤ n < b ^ w) by (pose proof (Z.pow_le_mono_r b m w); lia).
  apply (eval_be_inj b); [done|by apply digits_be_ok| | |].
  - apply Forall_app. split; [by apply digits_ok_replicate_0|by apply digits_be_ok].
  - rewrite length_app, length_replicate, !length_digits_be. lia.
  - by rewrite eval_be_replicate_0, !eval_digits_be.
Qed.

(** Every number of at most 128 bits is below the bound the formatter's
    division count covers. *)
Lemma u128_fuel radix n : 1 < radix → 0 ≤ n ≤ u128_max → 0 ≤ n < radix ^ (S 128).
Proof.
  intros Hr Hn. split; [lia|]. apply Z.lt_le_trans with (2 ^ 129); [unfold u128_max in Hn; lia|].
  change (Z.of_nat (S 128)) with 129. apply Z.pow_le_mono_l. lia.
Qed.

(** [{:0wx}] prints exactly [w] digits when the number has no more. *)
Lemma pad_fmt_radix radix (w : nat) n :
  1 < radix → 0 ≤ n ≤ u128_max → n < radix ^ w → (1 ≤ w)%nat →
  pad_zero w (fmt_radix radix n) = digit_string (digits_be radix w n).
Proof.
  intros Hr Hn Hlt Hw. unfold pad_zero, fmt_radix.
  rewrite length_digit_string, length_digits_be, zeros_digit_string.
  rewrite <- digits_be_pad; [done|done| |].
  - split; [lia|]. apply num_digits_enough; [done|]. by apply u128_fuel.
  - apply num_digits_minimal; lia.
Qed.

Lemma from_digit_not_sign d : 0 ≤ d < 36 → from_digit d ≠ "+"%char ∧ from_digit d ≠ "-"%char.
Proof.
  intros. unfold from_digit. split; intros E; apply (f_equal code) in E;
    change (code "+") with 43 in *; change (code "-") with 45 in *;
    case_decide; rewrite code_chr in E by lia; lia.
Qed.

(** Parsing a printed digit string gives its value back. *)
Lemma parse_digit_string mx radix l :
  1 < radix → radix ≤ 36 → digits_ok radix l → l ≠ [] → eval_be radix l ≤ mx →
  from_str_radix mx radix (digit_string l) = Ok (eval_be radix l).
Proof.
  intros Hr Hr36 Hl Hne Hmx. destruct l as [|d l]; [done|].
  assert (Hd : 0 ≤ d < 36) by (inversion Hl; lia).
  unfold from_str_radix. cbn [digit_string foldr]. fold (digit_string l).
  destruct (from_digit_not_sign d Hd). rewrite decide_False by tauto.
  pose proof (eval_be_bounds radix (d :: l) Hr Hl).
  apply radix_loop_Ok; [done|lia|]. exists (d :: l). split_and!; [|done|done].
  by apply (digit_values_string radix (d :: l)).
Qed.

(** Decimal round trip: [n.to_string().parse()]. *)
Lemma parse_display mx n : 0 ≤ n ≤ mx → mx ≤ u128_max → parse_uint mx (display n) = Ok n.
Proof.
  intros Hn Hmx. unfold parse_uint, display, fmt_radix.
  assert (Hlt : n < 10 ^ num_digits 10 128 n).
  { apply num_digits_enough; [lia|]. apply u128_fuel; lia. }
  pose proof (num_digits_pos 10 128 n) as Hpos.
  generalize dependent (num_digits 10 128 n). intros k Hlt Hpos.
  assert (E : eval_be 10 (digits_be 10 k n) = n) by (apply eval_digits_be; lia).
  rewrite parse_digit_string; [by rewrite E|lia|lia|by apply digits_be_ok| |lia].
  intros Hnil. apply (f_equal length) in Hnil. rewrite length_digits_be in Hnil. simpl in Hnil. lia.
Qed.
