(* ===== verification/Text.v ===== *)
(** * Text: the string operations of the standard library that parsers use

    Strings are sequences of UTF-8 bytes.  All separators and prefixes used in
    the program are ASCII, so splitting bytes and splitting characters agree. *)

From S2P Require Import Prelude Digits.

Local Open Scope string_scope.

Definition no_char (c : ascii) (s : string) : Prop :=
  Forall (λ d, d ≠ c) (String.list_ascii_of_string s).

#[export] Instance no_char_dec c s : Decision (no_char c s).
Proof. unfold no_char. apply _. Defined.

Definition string_rev (s : string) : string :=
  String.string_of_list_ascii (rev (String.list_ascii_of_string s)).

(** ** [str::split] with a character, and joining *)

Fixpoint split (c : ascii) (s : string) : list string :=
  match s with
  | EmptyString => [EmptyString]
  | String d s' =>
      if decide (d = c) then EmptyString :: split c s'
      else match split c s' with
           | [] => [String d EmptyString]
           | p :: ps => String d p :: ps
           end
  end.

Fixpoint join (sep : string) (l : list string) : string :=
  match l with
  | [] => EmptyString
  | [p] => p
  | p :: l' => p +:+ sep +:+ join sep l'
  end.

(** [str::split_once] with a character. *)
Fixpoint split_once (c : ascii) (s : string) : option (string * string) :=
  match s with
  | EmptyString => None
  | String d s' =>
      if decide (d = c) then Some (EmptyString, s')
      else '(a, b) ← split_once c s'; Some (String d a, b)
  end.

(** ** Prefixes *)

Definition starts_with (p s : string) : bool := String.prefix p s.

Fixpoint strip_prefix (p s : string) : option string :=
  match p, s with
  | EmptyString, _ => Some s
  | String c p', String d s' => if decide (c = d) then strip_prefix p' s' else None
  | String _ _, EmptyString => None
  end.

Definition ends_with (p s : string) : bool := starts_with (string_rev p) (string_rev s).

(** Substring search, [str::contains]. *)
Fixpoint str_contains (p s : string) : bool :=
  starts_with p s || match s with EmptyString => false | String _ s' => str_contains p s' end.

(** ** Case and white space, on ASCII *)

Definition is_ascii_whitespace (c : ascii) : bool :=
  bool_decide (code c = 32%Z ∨ (9 ≤ code c ≤ 13)%Z).

Definition to_ascii_lowercase_char (c : ascii) : ascii :=
  if decide (65 ≤ code c ≤ 90)%Z then chr (code c + 32) else c.

Fixpoint map_string (f : ascii → ascii) (s : string) : string :=
  match s with EmptyString => EmptyString | String c s' => String (f c) (map_string f s') end.

Definition to_ascii_lowercase (s : string) : string := map_string to_ascii_lowercase_char s.

Definition eq_ignore_ascii_case (a b : string) : bool :=
  bool_decide (to_ascii_lowercase a = to_ascii_lowercase b).

(** The characters with the property White_Space beyond ASCII, as the bytes of
    their UTF-8 encodings. *)
Definition is_whitespace2 (a b : ascii) : bool :=
  bool_decide (code a = 0xC2 ∧ (code b = 0x85 ∨ code b = 0xA0))%Z.
Definition is_whitespace3 (a b c : ascii) : bool :=
  bool_decide
    (code a = 0xE1 ∧ code b = 0x9A ∧ code c = 0x80 ∨
     code a = 0xE2 ∧ code b = 0x80 ∧ (0x80 ≤ code c ≤ 0x8A ∨ code c = 0xA8 ∨ code c = 0xA9 ∨ code c = 0xAF) ∨
     code a = 0xE2 ∧ code b = 0x81 ∧ code c = 0x9F ∨
     code a = 0xE3 ∧ code b = 0x80 ∧ code c = 0x80)%Z.

(** Leading white space; [ordered] undoes the order of the bytes of a
    character when the text is read backwards. *)
Fixpoint trim_bytes (ordered : bool) (s : string) : string :=
  match s with
  | String c s1 =>
      if is_ascii_whitespace c then trim_bytes ordered s1
      else match s1 with
      | String d s2 =>
          if (if ordered then is_whitespace2 c d else is_whitespace2 d c) then trim_bytes ordered s2
          else match s2 with
          | String e s3 =>
              if (if ordered then is_whitespace3 c d e else is_whitespace3 e d c) then trim_bytes ordered s3 else s
          | EmptyString => s
          end
      | EmptyString => s
      end
  | EmptyString => EmptyString
  end.
Definition trim_start (s : string) : string := trim_bytes true s.
Definition trim_end (s : string) : string := string_rev (trim_bytes false (string_rev s)).
Definition trim (s : string) : string := trim_end (trim_start s).

(** ** Lemmas *)

Lemma no_char_nil c : no_char c EmptyString.
Proof. constructor. Qed.

Lemma no_char_cons c d s : no_char c (String d s) ↔ d ≠ c ∧ no_char c s.
Proof. unfold no_char. cbn. by rewrite Forall_cons. Qed.

Lemma split_not_nil c s : split c s ≠ [].
Proof. destruct s; simpl; [done|]. case_decide; [done|]. by destruct (split c s). Qed.

Lemma split_no_char c s : Forall (no_char c) (split c s).
Proof.
  induction s as [|d s IH]; simpl; [repeat constructor|].
  case_decide; [by constructor; [apply no_char_nil|]|].
  destruct (split c s); [repeat constructor; done|].
  apply Forall_cons in IH as [? ?]. constructor; [|done]. by apply no_char_cons.
Qed.

Lemma split_id c s : no_char c s → split c s = [s].
Proof.
  induction s as [|d s IH]; [done|]. intros [? ?]%no_char_cons. simpl.
  rewrite decide_False by done. by rewrite IH.
Qed.

Lemma split_app c p s : no_char c p → split c (p +:+ String c s) = p :: split c s.
Proof.
  induction p as [|d p IH]; cbn [split String.app].
  - intros _. unfold String.app. cbn. by rewrite decide_True.
  - intros [? ?]%no_char_cons. change (String d p +:+ String c s) with (String d (p +:+ String c s)).
    cbn [split]. rewrite decide_False by done. by rewrite IH.
Qed.

Lemma split_join c l :
  l ≠ [] → Forall (no_char c) l → split c (join (String c EmptyString) l) = l.
Proof.
  intros Hne Hl. induction Hl as [|p l Hp Hl IH]; [done|]. clear Hne.
  destruct l as [|q l]; [by apply split_id|].
  change (join _ (p :: q :: l)) with (p +:+ String c (join (String c EmptyString) (q :: l))).
  rewrite split_app by done. by rewrite IH.
Qed.

Lemma join_split c s : join (String c EmptyString) (split c s) = s.
Proof.
  induction s as [|d s IH]; [done|]. cbn [split]. pose proof (split_not_nil c s).
  case_decide; subst; destruct (split c s) as [|p ps]; simplify_eq/=; [done|by destruct ps].
Qed.

Lemma no_char_app c s t : no_char c (s +:+ t) ↔ no_char c s ∧ no_char c t.
Proof.
  induction s as [|d s IH]; cbn.
  - split; [by split; [apply no_char_nil|]|by intros [_ ?]].
  - change (String d s +:+ t) with (String d (s +:+ t)). rewrite !no_char_cons, IH. tauto.
Qed.

(** [str::replace] with a non-empty pattern: leftmost, non-overlapping. *)
Fixpoint replace_loop (p t : string) (skip : nat) (s : string) : string :=
  match s with
  | EmptyString => EmptyString
  | String c s' =>
      match skip with
      | S k => replace_loop p t k s'
      | O => if starts_with p s then t +:+ replace_loop p t (String.length p - 1) s'
             else String c (replace_loop p t 0 s')
      end
  end.
Definition replace (p t s : string) : string := replace_loop p t 0 s.

(** Text without an occurrence of the pattern is left alone. *)
Lemma replace_none p t s : str_contains p s = false → replace p t s = s.
Proof.
  unfold replace. induction s as [|c s IH]; [done|]. cbn [str_contains replace_loop].
  intros [-> H]%orb_false_iff. by rewrite IH.
Qed.

(** ** Positions in a string *)

(** [str::find] of a character. *)
Fixpoint find (c : ascii) (str : string) : option nat :=
  match str with
  | EmptyString => None
  | String c' str => if decide (c' = c) then Some 0%nat else S <$> find c str
  end.

(** [str[a..b]] panics when the bounds are out of order or out of range. *)
Definition slice (a b : nat) (str : string) : exec string :=
  if decide (a ≤ b ≤ String.length str)%nat then Val (String.substring a (b - a) str) else Panic.

Lemma string_cons_app c s t : String c s +:+ t = String c (s +:+ t).
Proof. done. Qed.
Lemma string_app_assoc (s t u : string) : s +:+ (t +:+ u) = (s +:+ t) +:+ u.
Proof. induction s as [|c s IH]; [done|]. rewrite !string_cons_app. by rewrite IH. Qed.
Lemma string_app_nil (s : string) : s +:+ EmptyString = s.
Proof. induction s as [|c s IH]; [done|]. rewrite string_cons_app. by rewrite IH. Qed.
Lemma string_length_app (s t : string) : String.length (s +:+ t) = (String.length s + String.length t)%nat.
Proof. induction s as [|c s IH]; [done|]. rewrite string_cons_app. simpl. by rewrite IH. Qed.

Lemma find_app c a b : no_char c a → find c (a +:+ String c b) = Some (String.length a).
Proof.
  induction a as [|d a IH]; intros Ha.
  - change (EmptyString +:+ String c b) with (String c b). simpl. by rewrite decide_True.
  - apply no_char_cons in Ha as [? ?]. rewrite string_cons_app. simpl. rewrite decide_False by done. by rewrite IH.
Qed.

Lemma substring_prefix a b : String.substring 0 (String.length a) (a +:+ b) = a.
Proof. induction a as [|c a IH]; [by destruct b|]. rewrite string_cons_app. simpl. by rewrite IH. Qed.
Lemma substring_skip a b n : String.substring (String.length a) n (a +:+ b) = String.substring 0 n b.
Proof. induction a as [|c a IH]; [done|]. rewrite string_cons_app. simpl. apply IH. Qed.

Lemma string_substring_full s : String.substring 0 (String.length s) s = s.
Proof. induction s as [|c s IH]; [done|]. simpl. by rewrite IH. Qed.

Lemma substring_split n s :
  (n ≤ String.length s)%nat →
  String.substring 0 n s +:+ String.substring n (String.length s - n) s = s ∧
  String.length (String.substring 0 n s) = n ∧
  String.length (String.substring n (String.length s - n) s) = (String.length s - n)%nat.
Proof.
  revert s. induction n as [|n IH]; intros s H.
  - rewrite Nat.sub_0_r, string_substring_full. by destruct s.
  - destruct s as [|d s]; [simpl in H; lia|]. simpl in *. destruct (IH s) as (H1 & H2 & H3); [lia|].
    rewrite string_cons_app. by rewrite H1, H2.
Qed.

Lemma slice_middle a b c i j :
  i = String.length a → j = (String.length a + String.length b)%nat → slice i j (a +:+ (b +:+ c)) = Val b.
Proof.
  intros -> ->. unfold slice. rewrite !string_length_app. rewrite decide_True by lia.
  replace (String.length a + String.length b - String.length a)%nat with (String.length b) by lia.
  by rewrite substring_skip, substring_prefix.
Qed.

Lemma split_once_app c a b : no_char c a → split_once c (a +:+ String c b) = Some (a, b).
Proof.
  induction a as [|d a IH]; [intros _; unfold String.app; cbn; by rewrite decide_True|].
  intros [? ?]%no_char_cons. rewrite string_cons_app. cbn [split_once]. rewrite decide_False by done. by rewrite IH.
Qed.

(** A printed number has only digits. *)
Lemma display_no_char c n : (∀ d, (0 ≤ d < 10)%Z → from_digit d ≠ c) → no_char c (display n).
Proof.
  intros Hc. unfold display, fmt_radix, digit_string.
  assert (digits_ok 10 (digits_be 10 (num_digits 10 128 n) n)) as H by (apply digits_be_ok; lia).
  induction H; cbn [foldr]; [apply no_char_nil|]. apply no_char_cons. auto.
Qed.
Lemma display_char c n : (code c < 48 ∨ 57 < code c)%Z → no_char c (display n).
Proof.
  intros Hc. apply display_no_char. intros d ? E. apply (f_equal code) in E. unfold from_digit in E.
  rewrite decide_True in E by lia. rewrite code_chr in E by lia. lia.
Qed.

(** ** Header values *)

(** [HeaderValue::from_str] and [to_str]: what characters a value may have. *)
Definition all_chars (p : ascii → bool) (s : string) : bool := forallb p (String.list_ascii_of_string s).
Definition header_value_ok (s : string) : bool :=
  all_chars (λ c, bool_decide (code c = 9 ∨ 32 ≤ code c ∧ code c ≠ 127)%Z) s.
Definition to_str_ok (s : string) : bool := all_chars (λ c, bool_decide (code c = 9 ∨ 32 ≤ code c < 127)%Z) s.

Lemma all_chars_app p a b : all_chars p (a +:+ b) = all_chars p a && all_chars p b.
Proof.
  unfold all_chars. induction a as [|c a IH]; [done|]. rewrite string_cons_app. cbn [String.list_ascii_of_string forallb].
  by rewrite IH, andb_assoc.
Qed.
Lemma to_str_ok_display n : to_str_ok (display n) = true.
Proof.
  unfold to_str_ok, display, fmt_radix, digit_string.
  assert (digits_ok 10 (digits_be 10 (num_digits 10 128 n) n)) as H by (apply digits_be_ok; lia).
  induction H as [|d l Hd _ IH]; cbn [foldr]; [done|]. cbn [all_chars String.list_ascii_of_string forallb].
  apply andb_true_iff. split; [|exact IH]. apply bool_decide_eq_true. right. unfold from_digit.
  rewrite decide_True by lia. rewrite code_chr by lia. lia.
Qed.
