(* ===== verification/SpotifyId.v ===== *)
(** * Identifiers: [core/src/spotify_id.rs] and [core/src/file_id.rs]

    A [SpotifyId] is a [u128] with three textual or binary forms: 22 base-62
    digits, 32 hexadecimal digits, 16 big-endian bytes.  A [FileId] is 20
    bytes, printed in hexadecimal. *)

From S2P Require Import Prelude Digits.
Local Open Scope Z_scope.
Local Coercion Z.of_nat : nat >-> Z.

Record SpotifyId := mkSpotifyId { id : Z }.

Inductive SpotifyIdError := InvalidId | InvalidFormat.

Abbreviation SpotifyIdResult := (result SpotifyId SpotifyIdError).

Definition id_ok (i : SpotifyId) : Prop := 0 ≤ id i ≤ u128_max.

#[export] Instance SpotifyId_eq_dec : EqDecision SpotifyId.
Proof. solve_decision. Defined.

(** ** Parsing *)

Definition SIZE : nat := 16.
Definition SIZE_BASE62 : nat := 22.

Definition BASE62_DIGITS : list ascii :=
  String.list_ascii_of_string "0123456789abcdefghijklmnopqrstuvwxyzABCDEFGHIJKLMNOPQRSTUVWXYZ".

Definition from_base16 (src : string) : SpotifyIdResult :=
  if decide (String.length src ≠ 32%nat) then Err InvalidId
  else match from_str_radix u128_max 16 src with
       | Ok n => Ok (mkSpotifyId n)
       | Err _ => Err InvalidId
       end.

(** The value of one base-62 digit character. *)
Definition base62_value (c : ascii) : option Z :=
  let z := code c in
  if decide (48 ≤ z ≤ 57) then Some (z - 48)
  else if decide (97 ≤ z ≤ 122) then Some (z - 97 + 10)
  else if decide (65 ≤ z ≤ 90) then Some (z - 65 + 36)
  else None.

Fixpoint from_base62_loop (dst : Z) (src : string) : SpotifyIdResult :=
  match src with
  | EmptyString => Ok (mkSpotifyId dst)
  | String c src' =>
      match base62_value c with
      | None => Err InvalidId
      | Some p =>
          match checked_mul u128_max dst 62 with
          | None => Err InvalidId
          | Some dst =>
              match checked_add u128_max dst p with
              | None => Err InvalidId
              | Some dst => from_base62_loop dst src'
              end
          end
      end
  end.
Definition from_base62 (src : string) : SpotifyIdResult :=
  if decide (String.length src ≠ SIZE_BASE62) then Err InvalidId
  else from_base62_loop 0 src.

Definition from_raw (src : list Z) : SpotifyIdResult :=
  if decide (length src = SIZE) then Ok (mkSpotifyId (from_be_bytes src)) else Err InvalidId.

(** ** Printing *)

Definition to_base16 (self : SpotifyId) : string := pad_zero 32 (fmt_radix 16 (id self)).

(** The inner [for] loop of [to_base62]: multiply the digits written so far
    by [2^32] and add the carry. *)
Fixpoint scale_digits (carry : Z) (ds : list Z) : exec (list Z * Z) :=
  match ds with
  | [] => Val ([], carry)
  | b :: t =>
      carry ← uadd u64_max carry (wrapu 64 (Z.shiftl b 32));
      '(t', carry') ← scale_digits (carry / 62) t;
      Val (wrapu 8 (carry `mod` 62) :: t', carry')
  end.

(** The inner [while] loop: write the carry's digits into the free slots
    [dst[i..]].  The write panics when no slot is left. *)
Fixpoint push_digits (carry : Z) (free : list Z) : exec (list Z * list Z) :=
  if decide (carry > 0) then
    match free with
    | [] => Panic
    | _ :: t =>
        '(written, rest) ← push_digits (carry / 62) t;
        Val (wrapu 8 (carry `mod` 62) :: written, rest)
    end
  else Val ([], free).

(** The outer loop over the four 32-bit words: the state is [dst[..i]] and
    [dst[i..]]. *)
Fixpoint base62_words (n : Z) (shifts : list Z) (used free : list Z) : exec (list Z * list Z) :=
  match shifts with
  | [] => Val (used, free)
  | shift :: shifts =>
      '(used, carry) ← scale_digits (wrapu 32 (Z.shiftr n shift)) used;
      '(written, free) ← push_digits carry free;
      base62_words n shifts (used ++ written) free
  end.

(** Index the digit table; the final loop pushes the digits in reverse. *)
Fixpoint base62_string (ds : list Z) : exec string :=
  match ds with
  | [] => Val EmptyString
  | d :: t =>
      match BASE62_DIGITS !! Z.to_nat d with
      | Some c => s ← base62_string t; Val (String c s)
      | None => Panic
      end
  end.

Definition to_base62 (self : SpotifyId) : exec string :=
  '(used, free) ← base62_words (id self) [96; 64; 32; 0] [] (replicate 22 0);
  base62_string (rev (used ++ free)).

Definition to_raw (self : SpotifyId) : list Z := to_be_bytes SIZE (id self).

(** ** File identifiers *)

Definition RAW_LEN : nat := 20.

Record FileId := mkFileId { file_bytes : list Z }.

(** [FileId::from_raw]: shorter sources are padded with zeros, longer ones
    are dropped altogether. *)
Definition FileId_from_raw (src : list Z) : FileId :=
  if decide (length src ≤ RAW_LEN)%nat then mkFileId (src ++ replicate (RAW_LEN - length src) 0)
  else mkFileId (replicate RAW_LEN 0).

Fixpoint hex_bytes (l : list Z) : string :=
  match l with
  | [] => EmptyString
  | b :: t => pad_zero 2 (fmt_radix 16 b) +:+ hex_bytes t
  end.
Definition FileId_to_base16 (f : FileId) : string := hex_bytes (file_bytes f).

Definition file_ok (f : FileId) : Prop :=
  bytes_ok (file_bytes f) ∧ length (file_bytes f) = RAW_LEN.

(** ** The reference base-62 numeral *)

(** What [to_base62] is meant to compute: 22 base-62 digits by plain
    division, most significant first. *)
Definition base62_digit (d : Z) : ascii := default "0"%char (BASE62_DIGITS !! Z.to_nat d).
Definition base62_ref (n : Z) : string :=
  foldr (λ d s, String (base62_digit d) s) EmptyString (digits_be 62 SIZE_BASE62 n).

(** ** The digit loops of [to_base62] *)

Lemma scale_digits_spec carry ds :
  digits_ok 62 ds → 0 ≤ carry < 2 ^ 32 →
  ∃ ds' carry', scale_digits carry ds = Val (ds', carry') ∧ digits_ok 62 ds' ∧
    length ds' = length ds ∧ 0 ≤ carry' ∧
    eval_le 62 ds' + carry' * 62 ^ length ds = carry + 2 ^ 32 * eval_le 62 ds.
Proof.
  intros Hds. revert carry. induction Hds as [|b t Hb Ht IH]; intros carry Hc.
  { exists [], carry. cbn -[Z.mul Z.add]. split_and!; [done|constructor|done|lia|lia]. }
  cbn [scale_digits].
  assert (Hw : wrapu 64 (Z.shiftl b 32) = b * 2 ^ 32).
  { rewrite Z.shiftl_mul_pow2 by lia. apply Z.mod_small. lia. }
  rewrite Hw, uadd_Val, exec_bind_Val by (unfold u64_max; lia).
  set (c := carry + b * 2 ^ 32).
  assert (Hc' : 0 ≤ c / 62 < 2 ^ 32).
  { split; [apply Z.div_pos; lia|apply Z.div_lt_upper_bound; lia]. }
  destruct (IH _ Hc') as (t' & carry' & -> & Hok & Hlen & Hpos & E).
  assert (0 ≤ c `mod` 62 < 62) by (apply Z.mod_pos_bound; lia).
  eexists _, carry'. split; [done|]. unfold wrapu.
  rewrite (Z.mod_small (c `mod` 62)) by lia. split_and!.
  - by constructor.
  - cbn [length]. by f_equal.
  - done.
  - cbn [eval_le length]. rewrite Nat2Z.inj_succ, Z.pow_succ_r by lia.
    pose proof (Z.div_mod c 62 ltac:(lia)). lia.
Qed.

Lemma push_digits_spec carry free :
  0 ≤ carry < 62 ^ length free →
  ∃ written rest, push_digits carry free = Val (written, rest) ∧ digits_ok 62 written ∧
    eval_le 62 written = carry ∧ (length written ≤ length free)%nat ∧
    rest = drop (length written) free.
Proof.
  revert carry. induction free as [|x t IH]; intros carry Hc; cbn [push_digits].
  { rewrite decide_False by (cbn in Hc; lia). exists [], []. cbn in *.
    split_and!; [done|constructor|lia|lia|done]. }
  case_decide.
  - destruct (IH (carry / 62)) as (w & rest & -> & Hok & E & Hlen & ->).
    { cbn [length] in Hc. rewrite Nat2Z.inj_succ, Z.pow_succ_r in Hc by lia.
      split; [apply Z.div_pos; lia|apply Z.div_lt_upper_bound; lia]. }
    assert (0 ≤ carry `mod` 62 < 62) by (apply Z.mod_pos_bound; lia).
    unfold wrapu. rewrite (Z.mod_small (carry `mod` 62)) by lia.
    eexists _, _. split; [done|]. split_and!; [by constructor| |cbn; lia|done].
    cbn [eval_le]. pose proof (Z.div_mod carry 62 ltac:(lia)). lia.
  - exists [], (x :: t). cbn. split_and!; [done|constructor|lia|lia|done].
Qed.

(** The loop state after the words above [shift] were read: the digits
    written so far denote the high part of [n], the free slots are zero. *)
Definition words_inv (n shift : Z) (used free : list Z) : Prop :=
  digits_ok 62 used ∧ (length used + length free = 22)%nat ∧
  free = replicate (length free) 0 ∧ eval_le 62 used = n / 2 ^ shift.

Lemma word_split n shift :
  0 ≤ shift → n / 2 ^ shift = wrapu 32 (Z.shiftr n shift) + 2 ^ 32 * (n / 2 ^ (shift + 32)).
Proof.
  intros. unfold wrapu. rewrite Z.shiftr_div_pow2 by done.
  rewrite Z.pow_add_r, <- Z.div_div by lia.
  pose proof (Z.div_mod (n / 2 ^ shift) (2 ^ 32) ltac:(lia)). lia.
Qed.

Lemma base62_word_step n shift used free :
  0 ≤ n ≤ u128_max → 0 ≤ shift → words_inv n (shift + 32) used free →
  ∃ used' carry written free',
    scale_digits (wrapu 32 (Z.shiftr n shift)) used = Val (used', carry) ∧
    push_digits carry free = Val (written, free') ∧
    words_inv n shift (used' ++ written) free'.
Proof.
  intros Hn Hsh (Hok & Hlen & Hfree & E).
  destruct (scale_digits_spec (wrapu 32 (Z.shiftr n shift)) used) as
    (used' & carry & E1 & Hok' & Hlen' & Hpos & E').
  { done. } { unfold wrapu. apply Z.mod_pos_bound. lia. }
  rewrite E, <- word_split in E' by done.
  pose proof (eval_le_bounds 62 used' ltac:(lia) Hok') as Hb.
  assert (Hle : n / 2 ^ shift ≤ u128_max).
  { transitivity n; [|lia]. apply Z.div_le_upper_bound; [lia|].
    pose proof (Z.pow_pos_nonneg 2 shift). nia. }
  destruct (push_digits_spec carry free) as (written & free' & E2 & Hokw & Ew & Hlw & Ef).
  { split; [done|].
    assert (62 ^ 22 = 62 ^ length free * 62 ^ length used) as Hp.
    { rewrite <- Z.pow_add_r by lia. f_equal. lia. }
    assert (u128_max < 62 ^ 22) by (unfold u128_max; lia).
    assert (0 < 62 ^ length used) by (apply Z.pow_pos_nonneg; lia). nia. }
  exists used', carry, written, free'. split_and!; try done. split_and!.
  - by apply Forall_app.
  - subst free'. rewrite length_app, length_drop. lia.
  - subst free'. rewrite Hfree, drop_replicate, length_replicate. done.
  - rewrite eval_le_app, Ew, Hlen'. lia.
Qed.

Lemma base62_words_cons n shift shifts used free used' carry written free' :
  scale_digits (wrapu 32 (Z.shiftr n shift)) used = Val (used', carry) →
  push_digits carry free = Val (written, free') →
  base62_words n (shift :: shifts) used free = base62_words n shifts (used' ++ written) free'.
Proof. intros E1 E2. cbn [base62_words]. rewrite E1, exec_bind_Val, E2. reflexivity. Qed.

Lemma base62_words_spec n :
  0 ≤ n ≤ u128_max →
  ∃ used free, base62_words n [96; 64; 32; 0] [] (replicate 22 0) = Val (used, free) ∧
    words_inv n 0 used free.
Proof.
  intros Hn.
  assert (H0 : words_inv n (96 + 32) [] (replicate 22 0)).
  { split_and!; [constructor|done|done|]. symmetry. apply Z.div_small. unfold u128_max in Hn. lia. }
  destruct (base62_word_step n 96 _ _ Hn ltac:(lia) H0) as (u1&c1&w1&f1&E1&P1&H1).
  destruct (base62_word_step n 64 _ _ Hn ltac:(lia) H1) as (u2&c2&w2&f2&E2&P2&H2).
  destruct (base62_word_step n 32 _ _ Hn ltac:(lia) H2) as (u3&c3&w3&f3&E3&P3&H3).
  destruct (base62_word_step n 0 _ _ Hn ltac:(lia) H3) as (u4&c4&w4&f4&E4&P4&H4).
  exists (u4 ++ w4), f4. split; [|done].
  erewrite !base62_words_cons by eassumption. reflexivity.
Qed.

Lemma words_inv_digits n used free :
  0 ≤ n ≤ u128_max → words_inv n 0 used free → rev (used ++ free) = digits_be 62 22 n.
Proof.
  intros Hn (Hok & Hlen & Hfree & E).
  rewrite Z.pow_0_r, Z.div_1_r in E.
  assert (Hf : digits_ok 62 free) by (rewrite Hfree; by apply digits_ok_replicate_0).
  assert (E' : eval_le 62 (used ++ free) = n).
  { rewrite eval_le_app, E, Hfree, eval_le_replicate_0. lia. }
  unfold digits_be. f_equal. rewrite <- E' at 1.
  rewrite <- (digits_eval_le 62 (used ++ free)) at 1; [|done|by apply Forall_app].
  f_equal. rewrite length_app. lia.
Qed.

(** ** Base-62 digits and characters *)

Lemma base62_digit_table d : 0 ≤ d < 62 → BASE62_DIGITS !! Z.to_nat d = Some (base62_digit d).
Proof.
  intros Hd. unfold base62_digit.
  destruct (lookup_lt_is_Some_2 BASE62_DIGITS (Z.to_nat d)) as [c ->]; [|done].
  change (length BASE62_DIGITS) with 62%nat. lia.
Qed.

Lemma base62_string_ref ds :
  digits_ok 62 ds →
  base62_string ds = Val (foldr (λ d s, String (base62_digit d) s) EmptyString ds).
Proof.
  induction 1 as [|d ds Hd Hds IH]; [done|]. cbn [base62_string foldr].
  rewrite base62_digit_table by done. by rewrite IH.
Qed.

(** The table and the parser's three character ranges are inverse. *)
Lemma base62_table_check :
  forallb (λ k : nat, bool_decide (base62_value (base62_digit k) = Some (k : Z))) (seq 0 62) = true.
Proof. vm_compute. reflexivity. Qed.

Lemma base62_value_digit d : 0 ≤ d < 62 → base62_value (base62_digit d) = Some d.
Proof.
  intros Hd. pose proof base62_table_check as Hc. rewrite forallb_forall in Hc.
  specialize (Hc (Z.to_nat d)). rewrite in_seq, bool_decide_eq_true, Z2Nat.id in Hc by lia.
  apply Hc. lia.
Qed.

Lemma base62_value_bounds c d : base62_value c = Some d → 0 ≤ d < 62.
Proof. unfold base62_value. intros. repeat case_decide; simplify_eq; lia. Qed.

Lemma base62_value_inj c1 c2 d : base62_value c1 = Some d → base62_value c2 = Some d → c1 = c2.
Proof.
  unfold base62_value. intros H1 H2. rewrite <- (chr_code c1), <- (chr_code c2).
  f_equal. repeat case_decide; simplify_eq; lia.
Qed.

Lemma base62_digit_value c d : base62_value c = Some d → base62_digit d = c.
Proof.
  intros H. apply (base62_value_inj _ _ d); [|done].
  apply base62_value_digit. by eapply base62_value_bounds.
Qed.

(** ** What [from_base62] accepts *)

Fixpoint base62_values (s : string) : option (list Z) :=
  match s with
  | EmptyString => Some []
  | String c s' => d ← base62_value c; ds ← base62_values s'; Some (d :: ds)
  end.

Lemma base62_values_props s ds :
  base62_values s = Some ds →
  digits_ok 62 ds ∧ length ds = String.length s ∧
  foldr (λ d s, String (base62_digit d) s) EmptyString ds = s.
Proof.
  revert ds. induction s as [|c s IH]; intros ds; simpl.
  { intros [= <-]. split_and!; [constructor|done|done]. }
  destruct (base62_value c) as [d|] eqn:Ed; [|done]. simpl.
  destruct (base62_values s) as [ds'|]; [|done]. simpl. intros [= <-].
  destruct (IH ds' eq_refl) as (Hok & Hlen & Hs). split_and!.
  - constructor; [by eapply base62_value_bounds|done].
  - simpl. by rewrite Hlen.
  - simpl. by rewrite Hs, (base62_digit_value c).
Qed.

Lemma base62_values_digits ds :
  digits_ok 62 ds →
  base62_values (foldr (λ d s, String (base62_digit d) s) EmptyString ds) = Some ds.
Proof.
  induction 1 as [|d ds Hd Hds IH]; [done|]. simpl.
  rewrite base62_value_digit by done. simpl. by rewrite IH.
Qed.

Lemma from_base62_loop_Ok dst s i :
  0 ≤ dst ≤ u128_max →
  from_base62_loop dst s = Ok i ↔
  ∃ ds, base62_values s = Some ds ∧ id i = foldl (λ a d, a * 62 + d) dst ds ∧ id i ≤ u128_max.
Proof.
  revert dst. induction s as [|c s IH]; intros dst Hdst; simpl.
  { split; [intros [= <-]; eexists; split_and!; simpl; done || lia|].
    intros (ds & [= <-] & Ei & _). destruct i; simpl in *. by subst. }
  destruct (base62_value c) as [d|] eqn:Ed; simpl; [|by split; [|intros (?&?&_)]].
  pose proof (base62_value_bounds _ _ Ed). unfold checked_mul, checked_add.
  destruct (base62_values s) as [ds|] eqn:Eds; simpl.
  - assert (dst * 62 + d ≤ foldl (λ a d, a * 62 + d) (dst * 62 + d) ds).
    { apply foldl_digits_ge; [lia| |nia]. by apply (base62_values_props s). }
    repeat case_decide.
    + rewrite IH by nia. split; intros (ds' & [= <-] & Ei & Hle); eauto.
    + split; [done|]. intros (ds' & [= <-] & Ei & Hle). simpl in Ei. lia.
    + split; [done|]. intros (ds' & [= <-] & Ei & Hle). simpl in Ei. lia.
  - repeat case_decide; try (split; [done|by intros (?&?&_)]).
    rewrite IH by nia. split; by intros (?&?&_).
Qed.

Lemma base62_ref_length n : String.length (base62_ref n) = SIZE_BASE62.
Proof.
  unfold base62_ref. pose proof (length_digits_be 62 SIZE_BASE62 n) as H.
  revert H. generalize (digits_be 62 SIZE_BASE62 n). intros l Hl. rewrite <- Hl. clear Hl.
  induction l; simpl; auto.
Qed.

Lemma to_base62_ref i : id_ok i → to_base62 i = Val (base62_ref (id i)).
Proof.
  intros Hi. unfold to_base62.
  destruct (base62_words_spec (id i) Hi) as (used & free & -> & Hinv).
  rewrite exec_bind_Val, (words_inv_digits (id i)) by done.
  apply base62_string_ref. by apply digits_be_ok.
Qed.

Lemma base62_fits n : 0 ≤ n ≤ u128_max → 0 ≤ n < 62 ^ SIZE_BASE62.
Proof.
  intros Hn. split; [lia|]. apply Z.le_lt_trans with u128_max; [lia|]. reflexivity.
Qed.

Lemma from_base62_ref n : 0 ≤ n ≤ u128_max → from_base62 (base62_ref n) = Ok (mkSpotifyId n).
Proof.
  intros Hn. unfold from_base62. rewrite base62_ref_length, decide_False by auto.
  pose proof (eval_digits_be 62 SIZE_BASE62 n eq_refl (base62_fits n Hn)) as E.
  apply from_base62_loop_Ok; [unfold u128_max; lia|].
  exists (digits_be 62 SIZE_BASE62 n). split; [by apply base62_values_digits, digits_be_ok|].
  cbn [id]. rewrite eval_be_foldl, E. split; [reflexivity|lia].
Qed.

Lemma from_base62_inv s i :
  from_base62 s = Ok i → id_ok i ∧ base62_ref (id i) = s.
Proof.
  unfold from_base62. case_decide as Hlen; [done|].
  intros H%from_base62_loop_Ok; [|unfold u128_max; lia].
  destruct H as (ds & Hds & Ei & Hle). destruct (base62_values_props _ _ Hds) as (Hok & Hl & Hs).
  rewrite eval_be_foldl in Ei.
  pose proof (eval_be_bounds 62 ds ltac:(lia) Hok). split; [split; lia|].
  unfold base62_ref. rewrite Ei, <- Hlen, <- Hl, digits_eval_be by done. exact Hs.
Qed.

(** ** The component's theorems *)

(** C38: the optimised [to_base62], which works on 32-bit words with a carry,
    computes the 22 base-62 digits plain division gives; on every [u128] it
    stays inside its 22-byte buffer and its 64-bit carry never overflows. *)
Theorem to_base62_correct i : id_ok i → to_base62 i = Val (base62_ref (id i)).
Proof. apply to_base62_ref. Qed.

Lemma to_base62_correct_witness :
  to_base62 (mkSpotifyId 238762092608182713602505436543891614649) = Val "5sWHDYs0csV6RS48xBl0tH"%string.
Proof.
  rewrite (to_base62_correct (mkSpotifyId 238762092608182713602505436543891614649));
    [vm_compute; reflexivity|split; vm_compute; congruence].
Defined.

(** Base 62 is a bijection between identifiers and the strings
    [from_base62] accepts: printing then parsing gives the identifier back,
    and a string that parses is exactly what its identifier prints as. *)
Lemma base62_roundtrip :
  (∀ i, id_ok i → ∃ s, to_base62 i = Val s ∧ String.length s = SIZE_BASE62 ∧ from_base62 s = Ok i) ∧
  (∀ s i, from_base62 s = Ok i → id_ok i ∧ to_base62 i = Val s).
Proof.
  split.
  - intros i Hi. exists (base62_ref (id i)). split_and!.
    + by apply to_base62_ref.
    + apply base62_ref_length.
    + rewrite from_base62_ref by apply Hi. by destruct i.
  - intros s i H. destruct (from_base62_inv s i H) as [Hi <-].
    split; [done|]. by apply to_base62_ref.
Qed.

(** the raw and hexadecimal forms.  [from_raw] inverts [to_raw] and
    accepts exactly 16 bytes; [from_base16] inverts [to_base16], whose output
    is always 32 characters. *)
Lemma raw_base16_roundtrip :
  (∀ i, id_ok i → from_raw (to_raw i) = Ok i ∧ bytes_ok (to_raw i)) ∧
  (∀ l i, bytes_ok l → from_raw l = Ok i → id_ok i ∧ to_raw i = l) ∧
  (∀ l, length l ≠ SIZE → from_raw l = Err InvalidId) ∧
  (∀ i, id_ok i → String.length (to_base16 i) = 32%nat ∧ from_base16 (to_base16 i) = Ok i).
Proof.
  assert (Hp : 256 ^ SIZE = u128_max + 1) by reflexivity.
  assert (Hp16 : 16 ^ 32%nat = u128_max + 1) by reflexivity.
  split_and!.
  - intros [n] [H1 H2]; simpl in *. unfold from_raw, to_raw. rewrite length_to_be_bytes, decide_True by done.
    split; [|apply to_be_bytes_ok]. rewrite from_to_be_bytes by (simpl; lia). done.
  - intros l i Hl. unfold from_raw, to_raw, id_ok. case_decide as Hlen; [|done]. intros [= <-]. simpl.
    pose proof (from_be_bytes_bounds l Hl) as Hb. rewrite Hlen in Hb.
    split; [lia|]. rewrite <- Hlen. by apply to_from_be_bytes.
  - intros l Hl. unfold from_raw. by rewrite decide_False.
  - intros [n] [H1 H2]; simpl in *. unfold from_base16, to_base16; simpl.
    rewrite pad_fmt_radix by lia. rewrite length_digit_string, length_digits_be, decide_False by auto.
    split; [done|]. assert (E : eval_be 16 (digits_be 16 32 n) = n) by (apply eval_digits_be; lia).
    rewrite parse_digit_string; [by rewrite E|lia|lia|by apply digits_be_ok| |lia].
    intros Hnil. by apply (f_equal length) in Hnil; rewrite length_digits_be in Hnil.
Qed.

(** The values of the source's own conversion test. *)
Example conversion_case :
  to_base16 (mkSpotifyId 238762092608182713602505436543891614649)
    = "b39fe8081e1f4c54be38e8d6f9f12bb9"%string ∧
  to_raw (mkSpotifyId 238762092608182713602505436543891614649)
    = [179; 159; 232; 8; 30; 31; 76; 84; 190; 56; 232; 214; 249; 241; 43; 185].
Proof. split; vm_compute; reflexivity. Qed.

(** ** File identifiers *)

Lemma FileId_from_raw_ok src : bytes_ok src → file_ok (FileId_from_raw src).
Proof.
  intros Hsrc. unfold FileId_from_raw, file_ok. case_decide; simpl; split.
  - apply Forall_app. split; [done|]. by apply digits_ok_replicate_0.
  - rewrite length_app, length_replicate. lia.
  - by apply (digits_ok_replicate_0 256 RAW_LEN).
  - done.
Qed.

Lemma hex_byte b : byte_ok b → pad_zero 2 (fmt_radix 16 b) = digit_string (digits_be 16 2 b).
Proof. intros [? ?]. apply pad_fmt_radix; unfold u128_max; lia. Qed.

Lemma digit_string_app l1 l2 : digit_string (l1 ++ l2) = digit_string l1 +:+ digit_string l2.
Proof. induction l1; simpl; [done|]. by rewrite IHl1. Qed.

(** The hexadecimal digits of a byte sequence. *)
Fixpoint nibbles (l : list Z) : list Z :=
  match l with [] => [] | b :: t => digits_be 16 2 b ++ nibbles t end.

Lemma nibbles_ok l : digits_ok 16 (nibbles l).
Proof. induction l; cbn [nibbles]; [constructor|]. apply Forall_app. split; [by apply digits_be_ok|done]. Qed.

Lemma length_nibbles l : length (nibbles l) = (2 * length l)%nat.
Proof. induction l; cbn [nibbles]; [done|]. rewrite length_app, length_digits_be. simpl. lia. Qed.

Lemma hex_bytes_nibbles l : bytes_ok l → hex_bytes l = digit_string (nibbles l).
Proof.
  induction 1 as [|b l Hb Hl IH]; [done|]. cbn [hex_bytes nibbles].
  by rewrite hex_byte, IH, digit_string_app.
Qed.

Lemma nibbles_inj l1 l2 :
  bytes_ok l1 → bytes_ok l2 → nibbles l1 = nibbles l2 → l1 = l2.
Proof.
  intros H1. revert l2. induction H1 as [|b1 l1 Hb1 Hl1 IH]; intros l2 H2 E.
  - destruct H2 as [|b2 l2 Hb2 Hl2]; [done|]. apply (f_equal length) in E.
    rewrite !length_nibbles in E. simpl in E. lia.
  - destruct H2 as [|b2 l2 Hb2 Hl2].
    { apply (f_equal length) in E. rewrite !length_nibbles in E. simpl in E. lia. }
    cbn [nibbles] in E. apply app_inj_1 in E as [Eb E]; [|by rewrite !length_digits_be].
    f_equal; [|by apply IH]. apply (f_equal (eval_be 16)) in Eb.
    rewrite !eval_digits_be in Eb; [done|lia|exact Hb2|lia|exact Hb1].
Qed.

(** A [FileId] always holds 20 bytes; its hexadecimal name has 40
    characters and determines it; sources of up to 20 bytes are kept as a
    prefix and padded with zeros, longer ones give the all-zero identifier. *)
Lemma file_id_hex src1 src2 :
  bytes_ok src1 → bytes_ok src2 →
  let f1 := FileId_from_raw src1 in
  let f2 := FileId_from_raw src2 in
  file_ok f1 ∧ String.length (FileId_to_base16 f1) = 40%nat ∧
  (FileId_to_base16 f1 = FileId_to_base16 f2 → f1 = f2) ∧
  ((length src1 ≤ RAW_LEN)%nat → take (length src1) (file_bytes f1) = src1) ∧
  ((RAW_LEN < length src1)%nat → file_bytes f1 = replicate RAW_LEN 0).
Proof.
  intros H1 H2 f1 f2. pose proof (FileId_from_raw_ok src1 H1) as [Hok1 Hlen1].
  pose proof (FileId_from_raw_ok src2 H2) as [Hok2 Hlen2].
  fold f1 in Hok1, Hlen1. fold f2 in Hok2, Hlen2. split; [by split|]. split_and!.
  - unfold FileId_to_base16. rewrite hex_bytes_nibbles, length_digit_string, length_nibbles by done.
    by rewrite Hlen1.
  - unfold FileId_to_base16. rewrite !hex_bytes_nibbles by done. intros E.
    apply (f_equal (digit_values 16)) in E. rewrite !digit_values_string in E by (lia || apply nibbles_ok).
    injection E as E. apply nibbles_inj in E; [|done..]. destruct f1, f2; simpl in *. by subst.
  - intros Hle. unfold f1, FileId_from_raw. rewrite decide_True by done. simpl.
    by rewrite take_app_length.
  - intros Hgt. unfold f1, FileId_from_raw. rewrite decide_False by lia. done.
Qed.

