(* ===== verification/SpotifyUri.v ===== *)
(** * Spotify URIs: [core/src/spotify_uri.rs]

    Parsing and printing of [spotify:{type}:{id}], the named form
    [spotify:user:{user}:{type}:{id}] and local files. *)

From S2P Require Import Prelude StdTypes Digits Text SpotifyId.

Local Open Scope string_scope.

Definition SPOTIFY_ITEM_TYPE_ALBUM : string := "album".
Definition SPOTIFY_ITEM_TYPE_ARTIST : string := "artist".
Definition SPOTIFY_ITEM_TYPE_EPISODE : string := "episode".
Definition SPOTIFY_ITEM_TYPE_PLAYLIST : string := "playlist".
Definition SPOTIFY_ITEM_TYPE_SHOW : string := "show".
Definition SPOTIFY_ITEM_TYPE_TRACK : string := "track".
Definition SPOTIFY_ITEM_TYPE_LOCAL : string := "local".
Definition SPOTIFY_ITEM_TYPE_UNKNOWN : string := "unknown".

(** The errors [from_uri] returns: its own two, and those of the identifier. *)
Inductive SpotifyUriError :=
| UriInvalidFormat
| UriInvalidRoot
| UriInvalidId (e : SpotifyIdError).

Inductive SpotifyUri :=
| Album (id : SpotifyId)
| Artist (id : SpotifyId)
| Episode (id : SpotifyId)
| Playlist (user : option string) (id : SpotifyId)
| Show_ (id : SpotifyId)
| Track (id : SpotifyId)
| Local_ (artist album_title track_title : string) (duration : Duration)
| Unknown (kind : string) (id : string).

Abbreviation SpotifyUriResult := (result SpotifyUri SpotifyUriError).

#[export] Instance SpotifyUri_eq_dec : EqDecision SpotifyUri.
Proof. solve_decision. Defined.

Definition is_playable (self : SpotifyUri) : bool :=
  match self with Episode _ | Track _ | Local_ _ _ _ _ => true | _ => false end.

Definition item_type (self : SpotifyUri) : string :=
  match self with
  | Album _ => SPOTIFY_ITEM_TYPE_ALBUM
  | Artist _ => SPOTIFY_ITEM_TYPE_ARTIST
  | Episode _ => SPOTIFY_ITEM_TYPE_EPISODE
  | Playlist _ _ => SPOTIFY_ITEM_TYPE_PLAYLIST
  | Show_ _ => SPOTIFY_ITEM_TYPE_SHOW
  | Track _ => SPOTIFY_ITEM_TYPE_TRACK
  | Local_ _ _ _ _ => SPOTIFY_ITEM_TYPE_LOCAL
  | Unknown _ _ => SPOTIFY_ITEM_TYPE_UNKNOWN
  end.

Definition to_id (self : SpotifyUri) : exec string :=
  match self with
  | Album id | Artist id | Episode id | Playlist _ id | Show_ id | Track id => to_base62 id
  | Local_ artist album_title track_title duration =>
      Val (artist +:+ ":" +:+ album_title +:+ ":" +:+ track_title +:+ ":" +:+ display (secs duration))
  | Unknown _ id => Val id
  end.

(** The [SpotifyId::from_base62(name)?] of each arm. *)
Definition with_base62 (name : string) (mk : SpotifyId → SpotifyUri) : SpotifyUriResult :=
  match from_base62 name with
  | Ok id => Ok (mk id)
  | Err e => Err (UriInvalidId e)
  end.

(** [Iterator::next] on the split parts, with [ok_or(InvalidFormat)?]. *)
Definition next_part {A} (parts : list string)
    (k : string → list string → result A SpotifyUriError) : result A SpotifyUriError :=
  match parts with
  | [] => Err UriInvalidFormat
  | p :: rest => k p rest
  end.

(** The part of [from_uri] after the item type. *)
Definition parse_item (username : option string) (item_type : string) (parts : list string)
    : SpotifyUriResult :=
  next_part parts (λ name parts,
  if decide (item_type = SPOTIFY_ITEM_TYPE_ALBUM) then with_base62 name Album
  else if decide (item_type = SPOTIFY_ITEM_TYPE_ARTIST) then with_base62 name Artist
  else if decide (item_type = SPOTIFY_ITEM_TYPE_EPISODE) then with_base62 name Episode
  else if decide (item_type = SPOTIFY_ITEM_TYPE_PLAYLIST) then with_base62 name (Playlist username)
  else if decide (item_type = SPOTIFY_ITEM_TYPE_SHOW) then with_base62 name Show_
  else if decide (item_type = SPOTIFY_ITEM_TYPE_TRACK) then with_base62 name Track
  else if decide (item_type = SPOTIFY_ITEM_TYPE_LOCAL) then
    let artist := name in
    next_part parts (λ album_title parts,
    next_part parts (λ track_title parts,
    match (f ← head parts; result_ok (parse_uint u64_max f)) with
    | None => Err UriInvalidFormat
    | Some duration_secs =>
        Ok (Local_ artist album_title track_title (Duration_from_secs duration_secs))
    end))
  else Ok (Unknown item_type name)).

Definition from_uri (src : string) : SpotifyUriResult :=
  next_part (split ":" src) (λ scheme parts,
  if decide (scheme ≠ "spotify") then Err UriInvalidRoot
  else
    next_part parts (λ next parts,
    if decide (next = "user") then
      next_part parts (λ username parts,
      next_part parts (λ item_type parts, parse_item (Some username) item_type parts))
    else parse_item None next parts)).

Definition to_uri (self : SpotifyUri) : exec string :=
  let item_type := item_type self in
  match self with
  | Playlist (Some user) id =>
      id ← to_base62 id;
      Val ("spotify:user:" +:+ user +:+ ":" +:+ item_type +:+ ":" +:+ id)
  | _ =>
      name ← to_id self;
      Val ("spotify:" +:+ item_type +:+ ":" +:+ name)
  end.

(** ** Conversions from metadata messages

    The messages are generated code; a conversion takes the field it reads. *)

Definition of_gid (mk : SpotifyId → SpotifyUri) (gid : list Z) : SpotifyUriResult :=
  match from_raw gid with
  | Ok id => Ok (mk id)
  | Err e => Err (UriInvalidId e)
  end.
Definition try_from_album (gid : list Z) : SpotifyUriResult := of_gid Album gid.
Definition try_from_artist (gid : list Z) : SpotifyUriResult := of_gid Artist gid.
Definition try_from_episode (gid : list Z) : SpotifyUriResult := of_gid Episode gid.
Definition try_from_track (gid : list Z) : SpotifyUriResult := of_gid Track gid.
Definition try_from_show (gid : list Z) : SpotifyUriResult := of_gid Show_ gid.
Definition try_from_artist_with_role (artist_gid : list Z) : SpotifyUriResult := of_gid Artist artist_gid.
Definition try_from_item (uri : string) : SpotifyUriResult := from_uri uri.

(** [TryFrom<&SpotifyUri> for SpotifyId]. *)
Definition id_of_uri (value : SpotifyUri) : result SpotifyId SpotifyIdError :=
  match value with
  | Album id | Artist id | Episode id | Playlist _ id | Show_ id | Track id => Ok id
  | Local_ _ _ _ _ | Unknown _ _ => Err InvalidFormat
  end.

Definition of_revision (kind : string) (revision : list Z) : exec SpotifyUriResult :=
  match from_raw revision with
  | Ok id => s ← to_base62 id; Val (Ok (Unknown kind s))
  | Err e => Val (Err (UriInvalidId e))
  end.
Definition try_from_meta_item (revision : list Z) : exec SpotifyUriResult :=
  of_revision "MetaItem" revision.
Definition try_from_selected_list_content (revision : list Z) : exec SpotifyUriResult :=
  of_revision "SelectedListContent" revision.
Definition try_from_transcoded_picture (uri : string) : SpotifyUriResult :=
  Ok (Unknown "TranscodedPicture" uri).

(** ** Well-formed URIs

    The values that [from_uri] produces: identifiers in range, text fields
    without the separator, whole-second durations that fit a [u64]. *)

Definition known_types : list string :=
  ["album"; "artist"; "episode"; "playlist"; "show"; "track"; "local"].

Definition uri_ok (u : SpotifyUri) : Prop :=
  match u with
  | Album id | Artist id | Episode id | Show_ id | Track id => id_ok id
  | Playlist user id =>
      id_ok id ∧ match user with Some u => no_char ":" u | None => True end
  | Local_ a b c d =>
      no_char ":" a ∧ no_char ":" b ∧ no_char ":" c ∧ (0 ≤ secs d ≤ u64_max)%Z ∧ nanos d = 0%Z
  | Unknown kind id => no_char ":" kind ∧ no_char ":" id ∧ kind ∉ known_types
  end.

(** What survives printing: the kind of an unknown item is lost. *)
Definition canonical (u : SpotifyUri) : SpotifyUri :=
  match u with Unknown _ id => Unknown SPOTIFY_ITEM_TYPE_UNKNOWN id | _ => u end.

(** ** Lemmas *)

Lemma base62_digit_no_colon d : (0 ≤ d < 62)%Z → base62_digit d ≠ ":"%char.
Proof.
  intros Hd E. pose proof (base62_value_digit d Hd) as H. rewrite E in H.
  vm_compute in H. discriminate.
Qed.

Lemma from_digit_no_colon d : (0 ≤ d < 36)%Z → from_digit d ≠ ":"%char.
Proof.
  intros Hd E. pose proof (to_from_digit 36 d Hd ltac:(lia)) as H. rewrite E in H.
  vm_compute in H. discriminate.
Qed.

(** A string of digits that are not the separator has no separator. *)
Lemma no_colon_foldr (f : Z → ascii) b ds :
  (∀ d, (0 ≤ d < b)%Z → f d ≠ ":"%char) → digits_ok b ds →
  no_char ":" (foldr (λ d s, String (f d) s) EmptyString ds).
Proof.
  intros Hf. induction 1; cbn [foldr]; [apply no_char_nil|].
  apply no_char_cons. auto.
Qed.

Lemma base62_ref_no_colon n : no_char ":" (base62_ref n).
Proof. apply (no_colon_foldr _ 62); [apply base62_digit_no_colon|by apply digits_be_ok]. Qed.

Lemma display_no_colon n : no_char ":" (display n).
Proof.
  apply (no_colon_foldr _ 10); [intros; apply from_digit_no_colon; lia|by apply digits_be_ok].
Qed.

(** Printing [parts] joined by colons and parsing them again. *)
Lemma from_uri_join parts :
  Forall (no_char ":") parts →
  from_uri (join ":" ("spotify" :: parts)) =
  next_part parts (λ next parts,
    if decide (next = "user") then
      next_part parts (λ username parts,
      next_part parts (λ item_type parts, parse_item (Some username) item_type parts))
    else parse_item None next parts).
Proof.
  intros H. unfold from_uri. rewrite split_join; [done|done|].
  constructor; [|done]. by apply (bool_decide_unpack (no_char ":" "spotify")).
Qed.

Lemma with_base62_ref i mk : id_ok i → with_base62 (base62_ref (id i)) mk = Ok (mk i).
Proof. intros Hi. unfold with_base62. rewrite from_base62_ref by done. by destruct i. Qed.

(** The parts of a printed URI. *)
Definition uri_parts (u : SpotifyUri) : list string :=
  match u with
  | Playlist (Some user) i => ["user"; user; item_type u; base62_ref (id i)]
  | Album i | Artist i | Episode i | Playlist None i | Show_ i | Track i =>
      [item_type u; base62_ref (id i)]
  | Local_ a b c d => [item_type u; a; b; c; display (secs d)]
  | Unknown _ s => [item_type u; s]
  end.

Lemma to_uri_parts u : uri_ok u → to_uri u = Val (join ":" ("spotify" :: uri_parts u)).
Proof.
  destruct u as [i|i|i|[user|] i|i|i|a b c d|k s]; intros Hok; unfold to_uri, to_id;
    try (rewrite to_base62_ref by apply Hok); reflexivity.
Qed.

Lemma uri_parts_no_colon u : uri_ok u → Forall (no_char ":") (uri_parts u).
Proof.
  assert (∀ t, t ∈ "user" :: "unknown" :: known_types → no_char ":" t) as Ht.
  { apply Forall_forall. by apply (bool_decide_unpack (Forall _ _)). }
  destruct u as [i|i|i|[user|] i|i|i|a b c d|k s]; intros Hok; simpl in Hok; unfold uri_parts;
    repeat first [apply base62_ref_no_colon | apply display_no_colon | solve [apply Hok]
                 | solve [by apply Ht, (bool_decide_unpack (_ ∈ _))] | apply Forall_cons; split | by apply Forall_nil].
Qed.

Lemma from_to_uri u : uri_ok u → ∃ s, to_uri u = Val s ∧ from_uri s = Ok (canonical u).
Proof.
  intros Hok. eexists. split; [by apply to_uri_parts|].
  rewrite from_uri_join by by apply uri_parts_no_colon.
  destruct u as [i|i|i|[user|] i|i|i|a b c d|k s]; cbn -[parse_uint display base62_ref with_base62];
    try (apply with_base62_ref; apply Hok); [|reflexivity].
  destruct Hok as (? & ? & ? & ? & Hn). rewrite parse_display by (done || unfold u128_max, u64_max; lia).
  destruct d; simpl in *. by subst.
Qed.

Lemma from_base62_ok s i : from_base62 s = Ok i → id_ok i.
Proof. intros H. by destruct (from_base62_inv s i H). Qed.

(** Everything the parser accepts is well formed. *)
Lemma parse_item_ok username t parts u :
  match username with Some u => no_char ":" u | None => True end →
  no_char ":" t → Forall (no_char ":") parts → parse_item username t parts = Ok u → uri_ok u.
Proof.
  intros Hu Ht Hp. destruct parts as [|name parts]; [done|].
  apply Forall_cons in Hp as [Hn Hp]. unfold parse_item, with_base62. cbn -[parse_uint].
  repeat (case_decide; [destruct (from_base62 name) as [i|e] eqn:Ei; intros; simplify_eq;
    apply from_base62_ok in Ei; by simpl|]).
  case_decide.
  - destruct parts as [|b [|c [|f parts]]]; cbn -[parse_uint]; try done.
    destruct (parse_uint u64_max f) as [n|] eqn:En; cbn -[parse_uint]; [|done].
    apply parse_uint_bounds in En; [|unfold u64_max; lia]. intros [= <-].
    rewrite !Forall_cons in Hp. simpl. tauto.
  - intros [= <-]. simpl. split_and!; [done..|]. unfold known_types.
    rewrite !elem_of_cons, elem_of_nil. tauto.
Qed.

Lemma from_uri_ok s u : from_uri s = Ok u → uri_ok u.
Proof.
  unfold from_uri, next_part. pose proof (split_no_char ":" s) as H.
  destruct (split ":" s) as [|sch parts]; [done|]. case_decide; [done|].
  destruct parts as [|next parts]; [done|]. case_decide.
  - destruct parts as [|name [|t parts]]; [done..|]. rewrite !Forall_cons in H.
    apply parse_item_ok; tauto.
  - rewrite !Forall_cons in H. apply parse_item_ok; tauto.
Qed.

(** ** Properties *)

(** C40: printing a URI and parsing it gives the URI back, except that the kind
    of an unknown item becomes [unknown]; every URI the parser returns is one
    that printing handles, so parsing is idempotent up to the same loss. *)
Theorem uri_roundtrip :
  (∀ u, uri_ok u → ∃ s, to_uri u = Val s ∧ from_uri s = Ok (canonical u)) ∧
  (∀ s u, from_uri s = Ok u →
     uri_ok u ∧ ∃ s', to_uri u = Val s' ∧ from_uri s' = Ok (canonical u)).
Proof.
  split; [apply from_to_uri|]. intros s u H%from_uri_ok. split; [done|]. by apply from_to_uri.
Qed.

(** The error branches of [from_uri]: another scheme is refused before
    anything else, and a URI with too few parts is refused as malformed
    whatever its type; a known type with a bad identifier reports the
    identifier's error. *)
Lemma from_uri_errors parts :
  Forall (no_char ":") parts →
  let src := join ":" parts in
  (parts ≠ [] → head parts ≠ Some "spotify" → from_uri src = Err UriInvalidRoot) ∧
  (head parts = Some "spotify" → length parts < 3 → from_uri src = Err UriInvalidFormat) ∧
  (∀ u t name rest e, parts = "spotify" :: u ++ t :: name :: rest →
     (u = [] ∧ t ≠ "user" ∨ ∃ user, u = ["user"; user]) → t ∈ take 6 known_types →
     from_base62 name = Err e → from_uri src = Err (UriInvalidId e)).
Proof.
  intros Hp src. split_and!.
  - intros Hne Hh. unfold src, from_uri. rewrite split_join by done.
    destruct parts as [|p parts]; [done|]. simpl. rewrite decide_True; [done|naive_solver].
  - intros Hh Hlen. unfold src. destruct parts as [|p parts]; [done|]. injection Hh as ->.
    apply Forall_cons in Hp as [_ Hp]. rewrite from_uri_join by done.
    destruct parts as [|p [|q parts]]; simpl in *; [done| |lia].
    case_decide; reflexivity.
  - intros u t name rest e -> Hu Ht He. unfold src. apply Forall_cons in Hp as [_ Hp].
    rewrite from_uri_join by done.
    assert (∀ un, parse_item un t (name :: rest) = Err (UriInvalidId e)) as Hitem.
    { intros un. unfold parse_item, with_base62. simpl. rewrite He.
      cbn in Ht. rewrite !elem_of_cons, elem_of_nil in Ht.
      repeat (case_decide; [done|]). tauto. }
    destruct Hu as [[-> Hnu]|[user ->]]; cbn -[parse_item].
    + rewrite decide_False by done. apply Hitem.
    + apply Hitem.
Qed.

(** The conversions from metadata messages: a 16-byte gid gives the URI
    whose printed identifier is its base-62 form, and converting the URI back
    to an identifier gives the gid's bytes; other lengths are refused. *)
Lemma metadata_conversions gid :
  bytes_ok gid →
  (length gid = SIZE → ∃ i, to_raw i = gid ∧
     Forall (λ '(conv, mk), conv gid = Ok (mk i) ∧ id_of_uri (mk i) = Ok i ∧
               to_id (mk i) = Val (base62_ref (id i)))
       [(try_from_album, Album); (try_from_artist, Artist); (try_from_episode, Episode);
        (try_from_track, Track); (try_from_show, Show_); (try_from_artist_with_role, Artist)] ∧
     try_from_meta_item gid = Val (Ok (Unknown "MetaItem" (base62_ref (id i)))) ∧
     try_from_selected_list_content gid = Val (Ok (Unknown "SelectedListContent" (base62_ref (id i))))) ∧
  (length gid ≠ SIZE →
     Forall (λ conv, conv gid = Err (UriInvalidId InvalidId))
       [try_from_album; try_from_artist; try_from_episode; try_from_track; try_from_show;
        try_from_artist_with_role] ∧
     try_from_meta_item gid = Val (Err (UriInvalidId InvalidId))).
Proof.
  intros Hb. unfold try_from_meta_item, try_from_selected_list_content, of_revision. split.
  - intros Hl. exists (mkSpotifyId (from_be_bytes gid)).
    assert (id_ok (mkSpotifyId (from_be_bytes gid))) as Hok.
    { pose proof (from_be_bytes_bounds gid Hb) as Hbd. rewrite Hl in Hbd.
      unfold id_ok. cbn [id]. change (256 ^ Z.of_nat SIZE)%Z with (u128_max + 1)%Z in Hbd. lia. }
    assert (from_raw gid = Ok (mkSpotifyId (from_be_bytes gid))) as Hr.
    { unfold from_raw. by rewrite decide_True. }
    rewrite Hr, (to_base62_ref _ Hok). split; [|split; [|done]]; cycle 1.
    { repeat (apply Forall_cons; split); [..|by apply Forall_nil];
        unfold try_from_album, try_from_artist, try_from_episode, try_from_track, try_from_show,
          try_from_artist_with_role, of_gid; rewrite Hr; (split; [done|split; [done|]]);
        by apply to_base62_ref. }
    unfold to_raw. cbn [id]. rewrite <- Hl. by apply to_from_be_bytes.
  - intros Hl. assert (from_raw gid = Err InvalidId) as Hr.
    { unfold from_raw. by rewrite decide_False. }
    rewrite Hr. split; [|done]. repeat (apply Forall_cons; split); [..|by apply Forall_nil];
      unfold try_from_album, try_from_artist, try_from_episode, try_from_track, try_from_show,
        try_from_artist_with_role, of_gid; by rewrite Hr.
Qed.

