(* ===== verification/ShuffleVec.v ===== *)
(** * Shuffled track lists: [connect/src/shuffle_vec.rs]

    A vector that remembers the swaps of its last shuffle, so that it can be
    restored.  The random number generator is a type class with the one law
    the code relies on: a draw from [0..n] is below [n]. *)

From S2P Require Import Prelude.

(** ** The generator *)

Class Rng (R : Type) := {
  seed_from_u64 : Z → R;
  (** [rng.random_range(0..n)] and the advanced generator. *)
  random_range : R → nat → nat * R;
}.

Class RngLaws (R : Type) `{Rng R} :=
  random_range_lt : ∀ (r : R) n, 0 < n → (random_range r n).1 < n.

(** ** Data and operations *)

Record ShuffleVec (T : Type) := mkShuffleVec {
  vec : list T;
  indices : option (list nat);
  original_first_position : option nat;
}.
Arguments mkShuffleVec {T} _ _ _.
Arguments vec {T} _.
Arguments indices {T} _.
Arguments original_first_position {T} _.

(** [slice::swap], which panics out of range. *)
Definition swap {T} (i j : nat) (v : list T) : exec (list T) :=
  match v !! i, v !! j with
  | Some x, Some y => Val (<[i := y]> (<[j := x]> v))
  | _, _ => Panic
  end.

Section ops.
Context {T : Type}.
Implicit Types (v : list T) (self : ShuffleVec T).

Definition from_vec v : ShuffleVec T := mkShuffleVec v None None.

Definition with_vec v self : ShuffleVec T := mkShuffleVec v (indices self) (original_first_position self).

(** The draws [(1..len).rev().map(|i| rng.random_range(0..i + 1))]. *)
Fixpoint draw `{Rng R} (rng : R) (ixs : list nat) : list nat * R :=
  match ixs with
  | [] => ([], rng)
  | i :: ixs =>
      let '(n, rng) := random_range rng (i + 1) in
      let '(ns, rng) := draw rng ixs in
      (n :: ns, rng)
  end.

Fixpoint apply_swaps (ps : list (nat * nat)) v : exec (list T) :=
  match ps with
  | [] => Val v
  | (i, rnd_ind) :: ps => v ← swap i rnd_ind v; apply_swaps ps v
  end.

(** [Iterator::position]. *)
Fixpoint position (p : T → bool) v : option nat :=
  match v with
  | [] => None
  | x :: v => if p x then Some 0 else S <$> position p v
  end.

Fixpoint unshuffle_loop (ixs : list nat) (indices : list nat) v : exec (list T) :=
  match ixs with
  | [] => Val v
  | i :: ixs =>
      match indices !! (length v - i - 1) with
      | None => Val v
      | Some n => v ← swap n i v; unshuffle_loop ixs indices v
      end
  end.

Definition unshuffle self : exec (ShuffleVec T) :=
  match indices self with
  | None => Val self
  | Some indices =>
      v ← (match original_first_position self with
           | Some first_pos => swap 0 first_pos (vec self)
           | None => Val (vec self)
           end);
      v ← unshuffle_loop (seq 1 (length v - 1)) indices v;
      Val (mkShuffleVec v None None)
  end.

Definition shuffle_with_rng `{Rng R} (rng : R) (is_first : T → bool) self : exec (ShuffleVec T) :=
  if decide (length (vec self) ≤ 1) then Val self
  else
    self ← (match indices self with Some _ => unshuffle self | None => Val self end);
    let '(indices, _) := draw rng (rev (seq 1 (length (vec self) - 1))) in
    v ← apply_swaps (zip (rev (seq 1 (length (vec self) - 1))) indices) (vec self);
    let first_position := position is_first v in
    v ← (match first_position with
         | Some first_pos => swap 0 first_pos v
         | None => Val v
         end);
    Val (mkShuffleVec v (Some indices) first_position).

Definition shuffle_with_seed `{Rng R} (seed : Z) (is_first : T → bool) self : exec (ShuffleVec T) :=
  shuffle_with_rng (seed_from_u64 (R:=R) seed) is_first self.
End ops.

(** ** Swaps *)

Section swap_lemmas.
Context {T : Type}.
Implicit Types (v w : list T).

Lemma swap_Val i j v : i < length v → j < length v → ∃ w, swap i j v = Val w.
Proof.
  intros [x Hx]%lookup_lt_is_Some_2 [y Hy]%lookup_lt_is_Some_2. unfold swap.
  rewrite Hx, Hy. eauto.
Qed.

Lemma swap_lookup i j v w k :
  swap i j v = Val w → w !! k = v !! (if decide (k = i) then j else if decide (k = j) then i else k).
Proof.
  unfold swap. destruct (v !! i) as [x|] eqn:Hx, (v !! j) as [y|] eqn:Hy; intros [= <-].
  assert (i < length v ∧ j < length v) as [? ?] by (split; by eapply lookup_lt_Some).
  repeat case_decide; subst.
  - by rewrite list_lookup_insert_eq by (rewrite length_insert; done).
  - rewrite list_lookup_insert_ne, list_lookup_insert_eq by done. done.
  - by rewrite !list_lookup_insert_ne by done.
Qed.

Lemma swap_length i j v w : swap i j v = Val w → length w = length v ∧ i < length v ∧ j < length v.
Proof.
  unfold swap. destruct (v !! i) eqn:Hx, (v !! j) eqn:Hy; intros [= <-].
  rewrite !length_insert. split_and!; [done|by eapply lookup_lt_Some..].
Qed.

(** A swap is undone by swapping again, in either order of the arguments. *)
Lemma swap_undo i j v w : swap i j v = Val w → swap i j w = Val v ∧ swap j i w = Val v.
Proof.
  intros H. pose proof (swap_length _ _ _ _ H) as (Hlen & Hi & Hj).
  destruct (swap_Val i j w) as [u1 H1]; [lia..|].
  destruct (swap_Val j i w) as [u2 H2]; [lia..|].
  split; [rewrite H1|rewrite H2]; f_equal; apply list_eq; intros k.
  - rewrite (swap_lookup _ _ _ _ _ H1), (swap_lookup _ _ _ _ _ H). split_decide; congruence.
  - rewrite (swap_lookup _ _ _ _ _ H2), (swap_lookup _ _ _ _ _ H). split_decide; congruence.
Qed.

Lemma swap_app_perm (a b c : list T) x y : a ++ x :: b ++ y :: c ≡ₚ a ++ y :: b ++ x :: c.
Proof. solve_Permutation. Qed.

Lemma swap_perm i j v w : swap i j v = Val w → w ≡ₚ v.
Proof.
  assert (∀ i j v w, i < j → swap i j v = Val w → w ≡ₚ v) as Hlt.
  { clear. intros i j v w Hij H. unfold swap in H.
    destruct (v !! i) as [x|] eqn:Hx, (v !! j) as [y|] eqn:Hy; [|done..]. injection H as <-.
    apply list_elem_of_split_length in Hx as (a & r & -> & ->).
    rewrite lookup_app_r in Hy by lia. destruct (j - length a) as [|k] eqn:Ek; [lia|].
    simpl in Hy. apply list_elem_of_split_length in Hy as (b & c & -> & ->).
    replace j with (length a + S (length b)) by lia.
    rewrite insert_app_r. simpl. rewrite <- (Nat.add_0_r (length b)), insert_app_r.
    replace (length a) with (length a + 0) by lia. rewrite insert_app_r. simpl.
    apply swap_app_perm. }
  intros H. destruct (lt_eq_lt_dec i j) as [[?| ->]|?].
  - by eapply Hlt.
  - apply reflexive_eq, list_eq. intros k. rewrite (swap_lookup _ _ _ _ _ H).
    repeat case_decide; congruence.
  - symmetry. eapply Hlt; [done|]. by apply swap_undo in H as [_ ?].
Qed.
End swap_lemmas.

(** ** Shuffling and restoring *)

Section shuffle_lemmas.
Context {T : Type}.
Implicit Types (v w base : list T) (s self : ShuffleVec T).

Definition in_range (n : nat) (p : nat * nat) : Prop := p.1 < n ∧ p.2 < n.

Definition undo_swaps (ps : list (nat * nat)) : list (nat * nat) := rev (prod_swap <$> ps).

Lemma apply_swaps_app ps1 ps2 v :
  apply_swaps (ps1 ++ ps2) v = (apply_swaps ps1 v ≫= apply_swaps ps2).
Proof.
  revert v. induction ps1 as [|[i j] ps IH]; intros v; [done|]. simpl.
  destruct (swap i j v); simpl; [apply IH|done].
Qed.

Lemma apply_swaps_spec ps v :
  Forall (in_range (length v)) ps →
  ∃ w, apply_swaps ps v = Val w ∧ w ≡ₚ v ∧ apply_swaps (undo_swaps ps) w = Val v.
Proof.
  revert v. induction ps as [|[i j] ps IH]; intros v Hps; [by exists v|].
  apply Forall_cons in Hps as [[Hi Hj] Hps]. simpl in Hi, Hj.
  destruct (swap_Val i j v Hi Hj) as [u Hu].
  destruct (IH u) as (w & Hw & Hp & Hun).
  { by rewrite (proj1 (swap_length _ _ _ _ Hu)). }
  exists w. simpl. rewrite Hu. simpl. split; [done|]. split.
  - rewrite Hp. by eapply swap_perm.
  - unfold undo_swaps in *. rewrite fmap_cons. cbn [rev]. rewrite apply_swaps_app, Hun. simpl.
    by rewrite (proj2 (swap_undo _ _ _ _ Hu)).
Qed.

Lemma unshuffle_loop_swaps ixs idx v (n := length v) :
  Forall (λ i, n - i - 1 < length idx) ixs →
  unshuffle_loop ixs idx v = apply_swaps ((λ i, (idx !!! (n - i - 1), i)) <$> ixs) v.
Proof.
  intros H. subst n. remember (length v) as n eqn:Hn. revert v Hn.
  induction H as [|i ixs Hi _ IH]; intros v Hn; [done|]. simpl. rewrite <- Hn.
  rewrite (list_lookup_lookup_total_lt _ _ Hi).
  destruct (swap _ i v) as [u|] eqn:Hu; simpl; [|done].
  apply IH. by rewrite (proj1 (swap_length _ _ _ _ Hu)).
Qed.

(** The swaps [unshuffle] performs are the shuffle's swaps, backwards. *)
Lemma unshuffle_pairs n idx :
  length idx = n - 1 →
  (λ i, (idx !!! (n - i - 1), i)) <$> seq 1 (n - 1) =
  undo_swaps (zip (rev (seq 1 (n - 1))) idx).
Proof.
  intros Hl. unfold undo_swaps. apply list_eq. intros k.
  rewrite list_lookup_fmap. destruct (decide (k < n - 1)) as [Hk|Hk].
  - rewrite lookup_seq_lt by done. simpl. symmetry.
    rewrite lookup_rev; rewrite length_fmap, length_zip, length_rev, length_seq; [|lia].
    rewrite list_lookup_fmap. rewrite Hl, Nat.min_id.
    replace (n - 1 - S k) with (n - 1 - 1 - k) by lia.
    rewrite lookup_zip_with, lookup_rev by (rewrite length_seq; lia).
    rewrite length_seq, lookup_seq_lt by lia. simpl.
    rewrite (list_lookup_lookup_total_lt idx) by lia. simpl. unfold prod_swap. simpl.
    f_equal. f_equal; [|lia]. f_equal. lia.
  - rewrite lookup_ge_None_2 by (rewrite length_seq; lia). symmetry.
    apply lookup_ge_None_2. rewrite length_rev, length_fmap, length_zip, length_rev, length_seq. lia.
Qed.

Section with_rng.
Context `{RngLaws R}.
Implicit Types (rng : R).

Lemma draw_spec rng ixs :
  Forall2 (λ i r, r ≤ i) ixs (draw rng ixs).1.
Proof.
  revert rng. induction ixs as [|i ixs IH]; intros rng; simpl; [constructor|].
  pose proof (random_range_lt rng (i + 1) ltac:(lia)) as Hlt.
  destruct (random_range rng (i + 1)) as [r rng'] eqn:E. specialize (IH rng').
  destruct (draw rng' ixs) as [rs rng'']. simpl in *. constructor; [lia|done].
Qed.

Lemma draw_pairs rng n :
  Forall (in_range n) (zip (rev (seq 1 (n - 1))) (draw rng (rev (seq 1 (n - 1)))).1).
Proof.
  pose proof (draw_spec rng (rev (seq 1 (n - 1)))) as Hd.
  assert (Forall (λ i, i < n) (rev (seq 1 (n - 1)))) as Hr.
  { apply Forall_rev. apply Forall_forall. intros i Hi%elem_of_seq. lia. }
  induction Hd as [|i r ixs rs Hir Hd IH]; [constructor|].
  apply Forall_cons in Hr as [Hi Hr]. constructor; [|by apply IH].
  split; simpl; lia.
Qed.
End with_rng.

Lemma position_Some p v k :
  position p v = Some k → k < length v ∧ ∃ x, v !! k = Some x ∧ p x = true.
Proof.
  revert k. induction v as [|x v IH]; simpl; intros k Hk; [done|].
  destruct (p x) eqn:Hx; [injection Hk as <-; split; [lia|by exists x]|].
  destruct (position p v) as [j|]; simplify_eq/=. destruct (IH j eq_refl) as (? & ?). split; [lia|done].
Qed.

Lemma position_None p v : position p v = None → Forall (λ x, p x = false) v.
Proof.
  induction v as [|x v IH]; [constructor|]. simpl. destruct (p x) eqn:Hx; [done|].
  destruct (position p v); [done|]. constructor; [done|]. by apply IH.
Qed.

(** A shuffled vector still represents the sequence it was built from when
    [unshuffle] gives that sequence back. *)
Definition represents base s : Prop :=
  vec s ≡ₚ base ∧ ∃ s', unshuffle s = Val s' ∧ vec s' = base ∧ indices s' = None.

Lemma represents_from_vec base : represents base (from_vec base).
Proof. split; [done|]. by exists (from_vec base). Qed.

(** Swap the chosen element to the front, and back. *)
Lemma first_swap_spec (p : T → bool) v :
  1 < length v →
  ∃ w, (match position p v with Some k => swap 0 k v | None => Val v end) = Val w ∧ w ≡ₚ v ∧
    (match position p v with Some k => swap 0 k w | None => Val w end) = Val v ∧
    (Exists (λ x, p x = true) v → ∃ x, head w = Some x ∧ p x = true).
Proof.
  intros Hv. destruct (position p v) as [k|] eqn:Hk.
  - apply position_Some in Hk as (Hk & x & Hx & Hp).
    destruct (swap_Val 0 k v) as [w Hw]; [lia|done|]. exists w. split_and!; [done| | |].
    + by eapply swap_perm.
    + by apply swap_undo in Hw as [? ?].
    + intros _. exists x. split; [|done]. pose proof (swap_lookup _ _ _ _ 0 Hw) as H0.
      rewrite decide_True, Hx in H0 by done. by destruct w; simplify_eq/=.
  - apply position_None in Hk. exists v. split_and!; [done..|].
    intros (x & Hin & Hx)%Exists_exists. rewrite Forall_forall in Hk.
    specialize (Hk x Hin). congruence.
Qed.

Lemma shuffle_fresh `{RngLaws R} (rng : R) (p : T → bool) v :
  1 < length v →
  ∃ s', (let '(idx, _) := draw rng (rev (seq 1 (length v - 1))) in
     v' ← apply_swaps (zip (rev (seq 1 (length v - 1))) idx) v;
     w ← (match position p v' with Some k => swap 0 k v' | None => Val v' end);
     Val (mkShuffleVec w (Some idx) (position p v'))) = Val s' ∧
    represents v s' ∧ (Exists (λ x, p x = true) v → ∃ x, head (vec s') = Some x ∧ p x = true).
Proof.
  intros Hv. pose proof (draw_spec rng (rev (seq 1 (length v - 1)))) as Hd%Forall2_length.
  pose proof (draw_pairs rng (length v)) as Hr.
  destruct (draw rng _) as [idx rng']. simpl in Hd, Hr. rewrite length_rev, length_seq in Hd.
  destruct (apply_swaps_spec _ v Hr) as (v' & Hv' & Hp' & Hun). rewrite Hv'. simpl.
  assert (length v' = length v) as Hl by by apply Permutation_length.
  destruct (first_swap_spec p v') as (w & Hw & Hpw & Hback & Hfirst); [lia|].
  rewrite Hw. simpl. eexists. split; [done|]. split.
  - split; [simpl; by rewrite Hpw|]. unfold unshuffle. simpl. rewrite Hback. simpl.
    rewrite unshuffle_loop_swaps.
    + rewrite unshuffle_pairs by (rewrite Hl; done). rewrite Hl, Hun. simpl. eauto.
    + apply Forall_forall. intros i Hi%elem_of_seq. lia.
  - simpl. intros Hex. apply Hfirst. apply Exists_exists in Hex as (x & Hx & ?).
    apply Exists_exists. exists x. by rewrite Hp'.
Qed.

Lemma shuffle_represents `{RngLaws R} (rng : R) (p : T → bool) base s :
  represents base s →
  ∃ s', shuffle_with_rng rng p s = Val s' ∧ represents base s' ∧
    (1 < length base → Exists (λ x, p x = true) base → ∃ x, head (vec s') = Some x ∧ p x = true).
Proof.
  intros Hs. pose proof Hs as [Hp (s0 & Hun & Hv & Hi)].
  pose proof (Permutation_length Hp) as Hl. unfold shuffle_with_rng. case_decide as Hle.
  { exists s. split_and!; [done..|lia]. }
  assert ((match indices s with Some _ => unshuffle s | None => Val s end) = Val s0) as ->.
  { destruct (indices s) eqn:E; [done|]. unfold unshuffle in Hun. by rewrite E in Hun. }
  simpl. rewrite Hv. destruct (shuffle_fresh rng p base) as (s' & E & ? & ?); [lia|].
  exists s'. split; [exact E|]. split; [done|]. auto.
Qed.

Lemma unshuffle_represents base s :
  represents base s → ∃ s', unshuffle s = Val s' ∧ vec s' = base ∧ represents base s'.
Proof.
  intros [Hp (s' & Hun & Hv & Hi)]. exists s'. split_and!; [done..|]. split; [by rewrite Hv|].
  exists s'. unfold unshuffle. by rewrite Hi.
Qed.
End shuffle_lemmas.

(** ** Vectors that change while shuffled

    A client may append items to a shuffled vector; the recorded swaps then
    no longer describe it, but every index in them stays in range. *)

Section safety.
Context {T : Type}.
Implicit Types (v : list T) (s : ShuffleVec T).

Definition sv_safe s : Prop :=
  match indices s with
  | None => True
  | Some idx => Forall (λ r, r < length (vec s)) idx ∧
                match original_first_position s with Some k => k < length (vec s) | None => True end
  end.

Lemma sv_safe_from_vec v : sv_safe (from_vec v).
Proof. done. Qed.

Lemma sv_safe_grow v s :
  sv_safe s → length (vec s) ≤ length v → sv_safe (with_vec v s).
Proof.
  unfold sv_safe. simpl. destruct (indices s); [|done]. intros [Hi Hf] Hle. split.
  - eapply Forall_impl; [exact Hi|]. simpl. lia.
  - destruct (original_first_position s); [lia|done].
Qed.

Lemma unshuffle_loop_safe ixs idx v :
  Forall (λ r, r < length v) idx → Forall (λ i, i < length v) ixs →
  ∃ w, unshuffle_loop ixs idx v = Val w ∧ w ≡ₚ v.
Proof.
  revert v. induction ixs as [|i ixs IH]; intros v Hidx Hix; [by exists v|]. simpl.
  apply Forall_cons in Hix as [Hi Hix].
  destruct (idx !! (length v - i - 1)) as [n|] eqn:Hn; [|by exists v].
  destruct (swap_Val n i v) as [w Hw]; [exact (Forall_lookup_1 _ idx _ _ Hidx Hn)|done|].
  rewrite Hw. simpl. pose proof (proj1 (swap_length _ _ _ _ Hw)) as Hl.
  destruct (IH w) as (u & Hu & Hp); [by rewrite Hl..|].
  exists u. split; [done|]. rewrite Hp. by eapply swap_perm.
Qed.

Lemma unshuffle_safe s :
  sv_safe s → ∃ s', unshuffle s = Val s' ∧ indices s' = None ∧ sv_safe s' ∧ vec s' ≡ₚ vec s.
Proof.
  unfold sv_safe at 1, unshuffle. destruct (indices s) as [idx|] eqn:Hi.
  2:{ intros _. exists s. unfold sv_safe. by rewrite Hi. }
  intros [Hidx Hf].
  assert (∃ w, (match original_first_position s with
                | Some k => swap 0 k (vec s) | None => Val (vec s) end) = Val w ∧ w ≡ₚ vec s) as (w & -> & Hw).
  { destruct (original_first_position s) as [k|]; [|by exists (vec s)].
    destruct (swap_Val 0 k (vec s)) as [w Hw]; [lia|done|]. exists w. split; [done|]. by eapply swap_perm. }
  simpl. pose proof (Permutation_length Hw) as Hl.
  destruct (unshuffle_loop_safe (seq 1 (length w - 1)) idx w) as (u & -> & Hu).
  - by rewrite Hl.
  - apply Forall_forall. intros i ?%elem_of_seq. lia.
  - simpl. eexists. split; [done|]. split_and!; [done..|]. simpl. by rewrite Hu.
Qed.

Lemma shuffle_safe `{RngLaws R} (rng : R) p s :
  sv_safe s → ∃ s', shuffle_with_rng rng p s = Val s' ∧ sv_safe s' ∧ vec s' ≡ₚ vec s.
Proof.
  intros Hs. unfold shuffle_with_rng. case_decide as Hle; [by exists s|].
  assert (∃ s0, (match indices s with Some _ => unshuffle s | None => Val s end) = Val s0 ∧
                vec s0 ≡ₚ vec s) as (s0 & -> & Hp0).
  { destruct (indices s); [|by exists s]. destruct (unshuffle_safe s Hs) as (s0 & ? & _ & _ & ?).
    by exists s0. }
  simpl. pose proof (draw_pairs rng (length (vec s0))) as Hr.
  pose proof (draw_spec rng (rev (seq 1 (length (vec s0) - 1)))) as Hd.
  destruct (draw rng _) as [idx rng']. simpl in Hr, Hd.
  destruct (apply_swaps_spec _ (vec s0) Hr) as (w & -> & Hpw & _). simpl.
  pose proof (Permutation_length Hpw) as Hl. pose proof (Permutation_length Hp0) as Hl0.
  destruct (first_swap_spec p w) as (u & -> & Hu & _ & _); [lia|].
  pose proof (Permutation_length Hu). simpl. eexists. split; [done|]. split.
  - unfold sv_safe. simpl. split.
    + apply Forall_forall. intros r Hin. apply list_elem_of_lookup_1 in Hin as [k Hk].
      destruct (Forall2_lookup_r _ _ _ _ _ Hd Hk) as (i & Hi%list_elem_of_lookup_2 & Hir).
      apply list_elem_of_In, in_rev, list_elem_of_In, elem_of_seq in Hi. lia.
    + destruct (position p w) eqn:E; [|done]. apply position_Some in E as [? _]. lia.
  - simpl. by rewrite Hu, Hpw, Hp0.
Qed.
End safety.

(** ** Properties *)

(** The two operations a client may perform, and a run of them. *)
Inductive shuffle_op (R T : Type) :=
| Shuffle (rng : R) (is_first : T → bool)
| Unshuffle.
Arguments Shuffle {R T} _ _.
Arguments Unshuffle {R T}.

Definition run_op `{Rng R} {T} (o : shuffle_op R T) (s : ShuffleVec T) : exec (ShuffleVec T) :=
  match o with
  | Shuffle rng is_first => shuffle_with_rng rng is_first s
  | Unshuffle => unshuffle s
  end.
Fixpoint run_ops `{Rng R} {T} (os : list (shuffle_op R T)) (s : ShuffleVec T) : exec (ShuffleVec T) :=
  match os with
  | [] => Val s
  | o :: os => s ← run_op o s; run_ops os s
  end.

Lemma run_ops_represents `{RngLaws R} {T} (os : list (shuffle_op R T)) base s :
  represents base s → ∃ s', run_ops os s = Val s' ∧ represents base s'.
Proof.
  revert s. induction os as [|o os IH]; intros s Hs; [by exists s|].
  assert (∃ s1, run_op o s = Val s1 ∧ represents base s1) as (s1 & E & H1).
  { destruct o as [rng p|].
    - destruct (shuffle_represents rng p base s Hs) as (s1 & ? & ? & _). by exists s1.
    - destruct (unshuffle_represents base s Hs) as (s1 & ? & _ & ?). by exists s1. }
  simpl. rewrite E. apply (IH s1 H1).
Qed.

(** Whatever sequence of shuffles (with any generators and any choice of
    first item) and restores runs on a vector, no swap is out of range, the
    result is a permutation of the vector, and restoring gives the original
    order back. *)
Lemma shuffle_sequence `{RngLaws R} {T} (base : list T) (os : list (shuffle_op R T)) :
  ∃ s, run_ops os (from_vec base) = Val s ∧ vec s ≡ₚ base ∧
       ∃ s', unshuffle s = Val s' ∧ vec s' = base.
Proof.
  destruct (run_ops_represents os base _ (represents_from_vec base)) as (s & E & Hs).
  exists s. split; [done|]. pose proof Hs as [Hp _]. split; [done|].
  destruct (unshuffle_represents base s Hs) as (s' & ? & ? & _). eauto.
Qed.

(** A concrete generator: a linear congruential one. *)
#[export] Instance lcg_rng : Rng Z := {
  seed_from_u64 s := wrapu 64 s;
  random_range r n := (Z.to_nat (r `mod` Z.of_nat n), wrapu 64 (6364136223846793005 * r + 1442695040888963407))%Z;
}.
#[export] Instance lcg_laws : RngLaws Z.
Proof. intros r n Hn. simpl. pose proof (Z.mod_pos_bound r (Z.of_nat n)). lia. Qed.

(** after shuffling a vector of at least two items, an item that satisfies
    the caller's test comes first whenever there is one, however the vector
    was shuffled before. *)
Lemma shuffle_first `{RngLaws R} {T} (base : list T) (os : list (shuffle_op R T)) rng p :
  1 < length base → Exists (λ x, p x = true) base →
  ∃ s, run_ops (os ++ [Shuffle rng p]) (from_vec base) = Val s ∧
       ∃ x, head (vec s) = Some x ∧ p x = true.
Proof.
  intros Hlen Hex.
  assert (∀ s, run_ops (os ++ [Shuffle rng p]) s = (run_ops os s ≫= shuffle_with_rng rng p)) as Happ.
  { induction os as [|o os IH]; intros s; simpl; [by destruct (shuffle_with_rng rng p s)|].
    destruct (run_op o s); simpl; [apply IH|done]. }
  destruct (run_ops_represents os base _ (represents_from_vec base)) as (s & E & Hs).
  destruct (shuffle_represents rng p base s Hs) as (s' & E' & _ & Hf).
  exists s'. rewrite Happ, E. split; [done|]. auto.
Qed.

(** Items appended to a shuffled vector: the recorded swaps no longer match
    the length, and restoring undoes the move of the first item only. *)
Lemma unshuffle_grown {T} (v extra : list T) idx :
  length idx = length v - 1 → 1 < length v → extra ≠ [] →
  unshuffle (mkShuffleVec (v ++ extra) (Some idx) None) = Val (mkShuffleVec (v ++ extra) None None).
Proof.
  intros Hi Hv Hne. unfold unshuffle. simpl. rewrite length_app.
  destruct (length v + length extra - 1) as [|k] eqn:E; [done|]. simpl.
  rewrite (lookup_ge_None_2 idx); [done|]. rewrite length_app.
  destruct extra; [done|]. simpl in *. lia.
Qed.
