(* ===== verification/Protocol.v ===== *)
(** * Protocol messages: [protocol/src/impl_trait]

    The message types of the player and of the context services that the
    connect state reads and writes, and the conversions between them.  Fields
    that no code of the program touches, and the unknown-field storage that the
    protobuf runtime keeps in [special_fields], are left out.  A floating point
    number is represented by its bit pattern. *)

From S2P Require Import Prelude.

Local Open Scope string_scope.

Definition f64_zero : Z := 0.
Definition f64_neg_zero : Z := 9223372036854775808.
Definition f64_one : Z := 4607182418800017408.

(** [x != 0.] on [f64]: the two zeros compare equal, a NaN differs from zero. *)
Definition f64_nonzero (x : Z) : bool := bool_decide (x ≠ f64_zero ∧ x ≠ f64_neg_zero).

(** ** Restrictions *)

Record RestrictionReasons := mkRestrictionReasons { r_reasons : list string }.
Record ModeRestrictions := mkModeRestrictions { r_values : gmap string RestrictionReasons }.
Record PlayerRestrictionReasons := mkPlayerRestrictionReasons { p_reasons : list string }.
Record PlayerModeRestrictions := mkPlayerModeRestrictions { p_values : gmap string PlayerRestrictionReasons }.

Record Restrictions := mkRestrictions {
  disallow_pausing_reasons : list string;
  disallow_resuming_reasons : list string;
  disallow_seeking_reasons : list string;
  disallow_peeking_prev_reasons : list string;
  disallow_peeking_next_reasons : list string;
  disallow_skipping_prev_reasons : list string;
  disallow_skipping_next_reasons : list string;
  disallow_toggling_repeat_context_reasons : list string;
  disallow_toggling_repeat_track_reasons : list string;
  disallow_toggling_shuffle_reasons : list string;
  disallow_set_queue_reasons : list string;
  disallow_interrupting_playback_reasons : list string;
  disallow_transferring_playback_reasons : list string;
  disallow_remote_control_reasons : list string;
  disallow_inserting_into_next_tracks_reasons : list string;
  disallow_inserting_into_context_tracks_reasons : list string;
  disallow_reordering_in_next_tracks_reasons : list string;
  disallow_reordering_in_context_tracks_reasons : list string;
  disallow_removing_from_next_tracks_reasons : list string;
  disallow_removing_from_context_tracks_reasons : list string;
  disallow_updating_context_reasons : list string;
  disallow_add_to_queue_reasons : list string;
  disallow_setting_playback_speed : list string;
  disallow_setting_modes : gmap string ModeRestrictions;
  disallow_signals : gmap string RestrictionReasons;
}.

Record PlayerRestrictions := mkPlayerRestrictions {
  p_disallow_pausing_reasons : list string;
  p_disallow_resuming_reasons : list string;
  p_disallow_seeking_reasons : list string;
  p_disallow_peeking_prev_reasons : list string;
  p_disallow_peeking_next_reasons : list string;
  p_disallow_skipping_prev_reasons : list string;
  p_disallow_skipping_next_reasons : list string;
  p_disallow_toggling_repeat_context_reasons : list string;
  p_disallow_toggling_repeat_track_reasons : list string;
  p_disallow_toggling_shuffle_reasons : list string;
  p_disallow_set_queue_reasons : list string;
  p_disallow_interrupting_playback_reasons : list string;
  p_disallow_transferring_playback_reasons : list string;
  p_disallow_remote_control_reasons : list string;
  p_disallow_inserting_into_next_tracks_reasons : list string;
  p_disallow_inserting_into_context_tracks_reasons : list string;
  p_disallow_reordering_in_next_tracks_reasons : list string;
  p_disallow_reordering_in_context_tracks_reasons : list string;
  p_disallow_removing_from_next_tracks_reasons : list string;
  p_disallow_removing_from_context_tracks_reasons : list string;
  p_disallow_updating_context_reasons : list string;
  p_disallow_playing_reasons : list string;
  p_disallow_stopping_reasons : list string;
  p_disallow_add_to_queue_reasons : list string;
  p_disallow_setting_playback_speed_reasons : list string;
  p_disallow_setting_modes : gmap string PlayerModeRestrictions;
  p_disallow_signals : gmap string PlayerRestrictionReasons;
}.

Definition hashmap_into {T V} (into : T → V) (m : gmap string T) : gmap string V := into <$> m.

Definition reasons_from_player (value : PlayerRestrictionReasons) : RestrictionReasons :=
  {| r_reasons := p_reasons value |}.
Definition reasons_into_player (value : RestrictionReasons) : PlayerRestrictionReasons :=
  {| p_reasons := r_reasons value |}.
Definition modes_from_player (value : PlayerModeRestrictions) : ModeRestrictions :=
  {| r_values := hashmap_into reasons_from_player (p_values value) |}.
Definition modes_into_player (value : ModeRestrictions) : PlayerModeRestrictions :=
  {| p_values := hashmap_into reasons_into_player (r_values value) |}.

Definition restrictions_from_player (value : PlayerRestrictions) : Restrictions := {|
  disallow_pausing_reasons := p_disallow_pausing_reasons value;
  disallow_resuming_reasons := p_disallow_resuming_reasons value;
  disallow_seeking_reasons := p_disallow_seeking_reasons value;
  disallow_peeking_prev_reasons := p_disallow_peeking_prev_reasons value;
  disallow_peeking_next_reasons := p_disallow_peeking_next_reasons value;
  disallow_skipping_prev_reasons := p_disallow_skipping_prev_reasons value;
  disallow_skipping_next_reasons := p_disallow_skipping_next_reasons value;
  disallow_toggling_repeat_context_reasons := p_disallow_toggling_repeat_context_reasons value;
  disallow_toggling_repeat_track_reasons := p_disallow_toggling_repeat_track_reasons value;
  disallow_toggling_shuffle_reasons := p_disallow_toggling_shuffle_reasons value;
  disallow_set_queue_reasons := p_disallow_set_queue_reasons value;
  disallow_interrupting_playback_reasons := p_disallow_interrupting_playback_reasons value;
  disallow_transferring_playback_reasons := p_disallow_transferring_playback_reasons value;
  disallow_remote_control_reasons := p_disallow_remote_control_reasons value;
  disallow_inserting_into_next_tracks_reasons := p_disallow_inserting_into_next_tracks_reasons value;
  disallow_inserting_into_context_tracks_reasons := p_disallow_inserting_into_context_tracks_reasons value;
  disallow_reordering_in_next_tracks_reasons := p_disallow_reordering_in_next_tracks_reasons value;
  disallow_reordering_in_context_tracks_reasons := p_disallow_reordering_in_context_tracks_reasons value;
  disallow_removing_from_next_tracks_reasons := p_disallow_removing_from_next_tracks_reasons value;
  disallow_removing_from_context_tracks_reasons := p_disallow_removing_from_context_tracks_reasons value;
  disallow_updating_context_reasons := p_disallow_updating_context_reasons value;
  disallow_add_to_queue_reasons := p_disallow_add_to_queue_reasons value;
  disallow_setting_playback_speed := p_disallow_setting_playback_speed_reasons value;
  disallow_setting_modes := hashmap_into modes_from_player (p_disallow_setting_modes value);
  disallow_signals := hashmap_into reasons_from_player (p_disallow_signals value)
|}.

Definition restrictions_into_player (value : Restrictions) : PlayerRestrictions := {|
  p_disallow_pausing_reasons := disallow_pausing_reasons value;
  p_disallow_resuming_reasons := disallow_resuming_reasons value;
  p_disallow_seeking_reasons := disallow_seeking_reasons value;
  p_disallow_peeking_prev_reasons := disallow_peeking_prev_reasons value;
  p_disallow_peeking_next_reasons := disallow_peeking_next_reasons value;
  p_disallow_skipping_prev_reasons := disallow_skipping_prev_reasons value;
  p_disallow_skipping_next_reasons := disallow_skipping_next_reasons value;
  p_disallow_toggling_repeat_context_reasons := disallow_toggling_repeat_context_reasons value;
  p_disallow_toggling_repeat_track_reasons := disallow_toggling_repeat_track_reasons value;
  p_disallow_toggling_shuffle_reasons := disallow_toggling_shuffle_reasons value;
  p_disallow_set_queue_reasons := disallow_set_queue_reasons value;
  p_disallow_interrupting_playback_reasons := disallow_interrupting_playback_reasons value;
  p_disallow_transferring_playback_reasons := disallow_transferring_playback_reasons value;
  p_disallow_remote_control_reasons := disallow_remote_control_reasons value;
  p_disallow_inserting_into_next_tracks_reasons := disallow_inserting_into_next_tracks_reasons value;
  p_disallow_inserting_into_context_tracks_reasons := disallow_inserting_into_context_tracks_reasons value;
  p_disallow_reordering_in_next_tracks_reasons := disallow_reordering_in_next_tracks_reasons value;
  p_disallow_reordering_in_context_tracks_reasons := disallow_reordering_in_context_tracks_reasons value;
  p_disallow_removing_from_next_tracks_reasons := disallow_removing_from_next_tracks_reasons value;
  p_disallow_removing_from_context_tracks_reasons := disallow_removing_from_context_tracks_reasons value;
  p_disallow_updating_context_reasons := disallow_updating_context_reasons value;
  p_disallow_playing_reasons := [];
  p_disallow_stopping_reasons := [];
  p_disallow_add_to_queue_reasons := disallow_add_to_queue_reasons value;
  p_disallow_setting_playback_speed_reasons := disallow_setting_playback_speed value;
  p_disallow_setting_modes := hashmap_into modes_into_player (disallow_setting_modes value);
  p_disallow_signals := hashmap_into reasons_into_player (disallow_signals value)
|}.

(** [PlayerRestrictions::default()]. *)
Definition PlayerRestrictions_default : PlayerRestrictions :=
  mkPlayerRestrictions [] [] [] [] [] [] [] [] [] [] [] [] [] [] [] [] [] [] [] [] [] [] [] [] [] ∅ ∅.

(** ** Options, origin, suppressions *)

Record ContextPlayerOptions := mkContextPlayerOptions {
  o_shuffling_context : option bool;
  o_repeating_context : option bool;
  o_repeating_track : option bool;
  o_playback_speed : option Z;
  o_modes : gmap string string;
}.

Record PlayerContextPlayerOptions := mkPlayerContextPlayerOptions {
  opt_shuffling_context : bool;
  opt_repeating_context : bool;
  opt_repeating_track : bool;
  opt_modes : gmap string string;
  opt_playback_speed : option Z;
}.

Definition options_default : PlayerContextPlayerOptions :=
  mkPlayerContextPlayerOptions false false false ∅ None.

Definition options_into_player (value : ContextPlayerOptions) : PlayerContextPlayerOptions := {|
  opt_shuffling_context := default false (o_shuffling_context value);
  opt_repeating_context := default false (o_repeating_context value);
  opt_repeating_track := default false (o_repeating_track value);
  opt_modes := o_modes value;
  opt_playback_speed := o_playback_speed value
|}.

Record PlayOrigin := mkPlayOrigin {
  o_feature_identifier : option string;
  o_feature_version : option string;
  o_view_uri : option string;
  o_external_referrer : option string;
  o_referrer_identifier : option string;
  o_device_identifier : option string;
  o_feature_classes : list string;
  o_restriction_identifier : option string;
}.

Record PlayerPlayOrigin := mkPlayerPlayOrigin {
  feature_identifier : string;
  feature_version : string;
  view_uri : string;
  external_referrer : string;
  referrer_identifier : string;
  device_identifier : string;
  feature_classes : list string;
  restriction_identifier : string;
}.

Definition play_origin_default : PlayerPlayOrigin :=
  mkPlayerPlayOrigin EmptyString EmptyString EmptyString EmptyString EmptyString EmptyString [] EmptyString.

Definition unwrap_or_default (o : option string) : string := default EmptyString o.

Definition play_origin_into_player (value : PlayOrigin) : PlayerPlayOrigin := {|
  feature_identifier := unwrap_or_default (o_feature_identifier value);
  feature_version := unwrap_or_default (o_feature_version value);
  view_uri := unwrap_or_default (o_view_uri value);
  external_referrer := unwrap_or_default (o_external_referrer value);
  referrer_identifier := unwrap_or_default (o_referrer_identifier value);
  device_identifier := unwrap_or_default (o_device_identifier value);
  feature_classes := o_feature_classes value;
  restriction_identifier := unwrap_or_default (o_restriction_identifier value)
|}.

Record Suppressions := mkSuppressions { providers : list string }.
Record PlayerSuppressions := mkPlayerSuppressions { p_providers : list string }.
Definition suppressions_into_player (value : Suppressions) : PlayerSuppressions :=
  {| p_providers := providers value |}.

(** ** Contexts *)

Record ContextTrack := mkContextTrack {
  ct_uri : option string;
  ct_uid : option string;
  ct_gid : option (list Z);
  ct_metadata : gmap string string;
}.

Record ContextPage := mkContextPage {
  page_url : option string;
  next_page_url : option string;
  page_metadata : gmap string string;
  page_tracks : list ContextTrack;
}.

Record Context := mkContext {
  ctx_uri : option string;
  ctx_url : option string;
  ctx_metadata : gmap string string;
  ctx_restrictions : option Restrictions;
  ctx_pages : list ContextPage;
}.

(** [From<Vec<ContextTrack>>] and [From<Vec<String>>] for a page. *)
Definition page_from_tracks (tracks : list ContextTrack) : ContextPage :=
  mkContextPage None None ∅ tracks.
Definition page_from_uris (value : list string) : ContextPage :=
  mkContextPage None None ∅ ((λ uri, mkContextTrack (Some uri) None None ∅) <$> value).

(** ** Transfers *)

Record Playback := mkPlayback {
  pb_timestamp : option Z;
  pb_position_as_of_timestamp : option Z;
  pb_playback_speed : option Z;
  pb_is_paused : option bool;
  pb_current_track : option ContextTrack;
}.
Definition Playback_default : Playback := mkPlayback None None None None None.

Record Session := mkSession {
  se_play_origin : option PlayOrigin;
  se_context : option Context;
  se_current_uid : option string;
  se_suppressions : option Suppressions;
}.

Record Queue := mkQueue {
  q_tracks : list ContextTrack;
  q_is_playing_queue : option bool;
}.
Definition Queue_default : Queue := mkQueue [] None.

Record TransferState := mkTransferState {
  tr_options : option ContextPlayerOptions;
  tr_playback : option Playback;
  tr_current_session : option Session;
  tr_queue : option Queue;
}.

(** ** Record updates *)

#[export] Instance PlayerRestrictions_settable : Settable PlayerRestrictions := λ r,
  mkPlayerRestrictions (p_disallow_pausing_reasons r) (p_disallow_resuming_reasons r) (p_disallow_seeking_reasons
    r) (p_disallow_peeking_prev_reasons r) (p_disallow_peeking_next_reasons r)
    (p_disallow_skipping_prev_reasons r) (p_disallow_skipping_next_reasons r)
    (p_disallow_toggling_repeat_context_reasons r)
    (p_disallow_toggling_repeat_track_reasons r) (p_disallow_toggling_shuffle_reasons r)
    (p_disallow_set_queue_reasons r) (p_disallow_interrupting_playback_reasons r)
    (p_disallow_transferring_playback_reasons r) (p_disallow_remote_control_reasons r)
    (p_disallow_inserting_into_next_tracks_reasons r)
    (p_disallow_inserting_into_context_tracks_reasons r)
    (p_disallow_reordering_in_next_tracks_reasons r)
    (p_disallow_reordering_in_context_tracks_reasons r)
    (p_disallow_removing_from_next_tracks_reasons r)
    (p_disallow_removing_from_context_tracks_reasons r)
    (p_disallow_updating_context_reasons r) (p_disallow_playing_reasons r)
    (p_disallow_stopping_reasons r) (p_disallow_add_to_queue_reasons r)
    (p_disallow_setting_playback_speed_reasons r) (p_disallow_setting_modes r)
    (p_disallow_signals r).
#[export] Instance options_settable : Settable PlayerContextPlayerOptions := λ o,
  mkPlayerContextPlayerOptions (opt_shuffling_context o) (opt_repeating_context o)
    (opt_repeating_track o) (opt_modes o) (opt_playback_speed o).

(** ** The conversions lose nothing but two lists *)

Lemma reasons_into_from r : reasons_from_player (reasons_into_player r) = r.
Proof. by destruct r. Qed.
Lemma reasons_from_into r : reasons_into_player (reasons_from_player r) = r.
Proof. by destruct r. Qed.

Lemma hashmap_into_inv {T V} (f : T → V) (g : V → T) m :
  (∀ x, g (f x) = x) → hashmap_into g (hashmap_into f m) = m.
Proof.
  intros Hgf. unfold hashmap_into. rewrite <- map_fmap_compose.
  transitivity (id <$> m); [|by rewrite map_fmap_id]. apply map_fmap_ext. intros. apply Hgf.
Qed.

Lemma modes_into_from m : modes_from_player (modes_into_player m) = m.
Proof. destruct m. unfold modes_from_player. simpl. f_equal. apply hashmap_into_inv, reasons_into_from. Qed.
Lemma modes_from_into m : modes_into_player (modes_from_player m) = m.
Proof. destruct m. unfold modes_into_player. simpl. f_equal. apply hashmap_into_inv, reasons_from_into. Qed.

(** Converting restrictions to the player's form and back is the identity; the
    other way round exactly the playing and stopping reasons are dropped. *)
Lemma restrictions_roundtrip :
  (∀ r, restrictions_from_player (restrictions_into_player r) = r) ∧
  (∀ p, p_disallow_playing_reasons p = [] → p_disallow_stopping_reasons p = [] →
        restrictions_into_player (restrictions_from_player p) = p).
Proof.
  split.
  - intros []. unfold restrictions_from_player, restrictions_into_player. simpl.
    by rewrite (hashmap_into_inv _ _ _ modes_into_from), (hashmap_into_inv _ _ _ reasons_into_from).
  - intros [] ? ?. unfold restrictions_from_player, restrictions_into_player. simpl in *. subst.
    by rewrite (hashmap_into_inv _ _ _ modes_from_into), (hashmap_into_inv _ _ _ reasons_from_into).
Qed.
