(* ===== verification/StateMonad.v ===== *)
(** * State, errors and panics

    A Rust method [fn(&mut self, ..) -> Result<A, E>] is a function from the
    state to the outcome of running it: a panic, or the new state with the
    returned value or error.  An early return by [?] keeps the state changes
    made before it.  [wp m Q s] says that running [m] from [s] does not panic
    and ends in a state and result that satisfy [Q]. *)

From S2P Require Import Prelude.

Definition st (S E A : Type) : Type := S → exec (S * result A E).

#[export] Instance st_ret {S E} : MRet (st S E) := λ A a s, Val (s, Ok a).
#[export] Instance st_bind {S E} : MBind (st S E) := λ A B f m s,
  match m s with
  | Val (s', Ok a) => f a s'
  | Val (s', Err e) => Val (s', Err e)
  | Panic => Panic
  end.

Section ops.
Context {S E : Type}.

Definition st_get : st S E S := λ s, Val (s, Ok s).
Definition st_modify (f : S → S) : st S E () := λ s, Val (f s, Ok ()).
Definition st_throw {A} (e : E) : st S E A := λ s, Val (s, Err e).
Definition st_panic {A} : st S E A := λ _, Panic.

(** A method that cannot return an error but may panic. *)
Definition st_exec (f : S → exec S) : st S E () := λ s,
  match f s with Val s' => Val (s', Ok ()) | Panic => Panic end.

(** A computation that does not touch the state but may panic. *)
Definition st_lift {A} (m : exec A) : st S E A := λ s,
  match m with Val a => Val (s, Ok a) | Panic => Panic end.

(** A method that only reads the state. *)
Definition st_read {A} (f : S → result A E) : st S E A := λ s, Val (s, f s).

(** Running a bind whose first action is primitive. *)
Lemma st_get_bind {A} (f : S → st S E A) s : (st_get ≫= f) s = f s s.
Proof. done. Qed.
Lemma st_modify_bind {A} g (f : () → st S E A) s : (st_modify g ≫= f) s = f () (g s).
Proof. done. Qed.
Lemma st_ret_bind {A B} (a : A) (f : A → st S E B) s : (mret a ≫= f) s = f a s.
Proof. done. Qed.
Lemma st_bind_Ok {A B} (m : st S E A) (f : A → st S E B) s s' a :
  m s = Val (s', Ok a) → (m ≫= f) s = f a s'.
Proof. unfold mbind, st_bind. by intros ->. Qed.
Lemma st_bind_Err {A B} (m : st S E A) (f : A → st S E B) s s' e :
  m s = Val (s', Err e) → (m ≫= f) s = Val (s', Err e).
Proof. unfold mbind, st_bind. by intros ->. Qed.
Lemma st_bind_Ok_inv {A B} (m : st S E A) (f : A → st S E B) s s' b :
  (m ≫= f) s = Val (s', Ok b) → ∃ s1 a, m s = Val (s1, Ok a) ∧ f a s1 = Val (s', Ok b).
Proof. unfold mbind, st_bind. destruct (m s) as [[s1 [a|e]]|]; [eauto|done..]. Qed.

Definition wp {A} (m : st S E A) (Q : S → result A E → Prop) (s : S) : Prop :=
  match m s with Val (s', r) => Q s' r | Panic => False end.

Lemma wp_Val {A} (m : st S E A) Q s :
  wp m Q s ↔ ∃ s' r, m s = Val (s', r) ∧ Q s' r.
Proof.
  unfold wp. destruct (m s) as [[s' r]|]; [|naive_solver].
  split; [eauto|]. by intros (? & ? & [= <- <-] & ?).
Qed.

Lemma wp_done (m : st S E ()) (Q : S → Prop) s :
  wp m (λ s' r, r = Ok () ∧ Q s') s → ∃ s', m s = Val (s', Ok ()) ∧ Q s'.
Proof. intros (s' & r & E' & -> & HQ)%wp_Val. eauto. Qed.

Lemma wp_mono {A} (m : st S E A) (Q Q' : S → result A E → Prop) s :
  wp m Q s → (∀ s' r, Q s' r → Q' s' r) → wp m Q' s.
Proof. unfold wp. destruct (m s) as [[]|]; naive_solver. Qed.

Lemma wp_bind {A B} (m : st S E A) (f : A → st S E B) Q s :
  wp m (λ s' r, match r with Ok a => wp (f a) Q s' | Err e => Q s' (Err e) end) s → wp (m ≫= f) Q s.
Proof. unfold wp, mbind, st_bind. by destruct (m s) as [[s' [a|e]]|]. Qed.

Lemma wp_ret {A} (a : A) (Q : S → result A E → Prop) s : Q s (Ok a) → wp (mret a) Q s.
Proof. done. Qed.
Lemma wp_get Q s : Q s (Ok s) → wp st_get Q s.
Proof. done. Qed.
Lemma wp_modify f Q s : Q (f s) (Ok ()) → wp (st_modify f) Q s.
Proof. done. Qed.
Lemma wp_throw {A} e (Q : S → result A E → Prop) s : Q s (Err e) → wp (st_throw e) Q s.
Proof. done. Qed.
Lemma wp_read {A} f (Q : S → result A E → Prop) s : Q s (f s) → wp (st_read f) Q s.
Proof. done. Qed.
Lemma wp_lift {A} (m : exec A) (Q : S → result A E → Prop) s a :
  m = Val a → Q s (Ok a) → wp (st_lift m) Q s.
Proof. unfold wp, st_lift. by intros ->. Qed.
Lemma wp_exec f Q s s' : f s = Val s' → Q s' (Ok ()) → wp (st_exec f) Q s.
Proof. unfold wp, st_exec. by intros ->. Qed.
End ops.

(** One step of symbolic execution. *)
Ltac wp_step :=
  match goal with
  | |- wp (_ ≫= _) _ _ => apply wp_bind
  | |- wp (mret _) _ _ => apply wp_ret
  | |- wp st_get _ _ => apply wp_get
  | |- wp (st_modify _) _ _ => apply wp_modify
  | |- wp (st_throw _) _ _ => apply wp_throw
  | |- wp (st_read _) _ _ => apply wp_read
  end; cbn beta iota.
Ltac wp_steps := repeat wp_step.

(** Use a specification of the first action of a bind. *)
Ltac wp_use H := apply wp_bind; eapply wp_mono; [apply H|].

(** ** Invariants

    [preserves P m]: when [m] comes back, with a value or an error, it has kept
    [P].  Nothing is said of a panic, after which there is no state. *)
Section preserves.
Context {S E : Type}.
Implicit Types P : S → Prop.

Definition preserves {A} P (m : st S E A) : Prop := ∀ s s' r, P s → m s = Val (s', r) → P s'.

Lemma preserves_bind {A B} P (m : st S E A) (f : A → st S E B) :
  preserves P m → (∀ a, preserves P (f a)) → preserves P (m ≫= f).
Proof.
  unfold mbind, st_bind. intros Hm Hf s s' r Hs E1. destruct (m s) as [[s1 [a|e]]|] eqn:E2; [..|done].
  - eapply Hf; [|exact E1]. by eapply Hm.
  - injection E1 as <- <-. by eapply Hm.
Qed.
Lemma preserves_get_bind {A} P (f : S → st S E A) :
  (∀ s, P s → preserves P (f s)) → preserves P (st_get ≫= f).
Proof. intros Hf s s' r Hs E1. by eapply (Hf s Hs). Qed.
Lemma preserves_ret {A} P (a : A) : preserves P (mret a : st S E A).
Proof. by intros s s' r Hs [= <- <-]. Qed.
Lemma preserves_throw {A} P e : preserves P (st_throw e : st S E A).
Proof. by intros s s' r Hs [= <- <-]. Qed.
Lemma preserves_panic {A} P : preserves P (st_panic : st S E A).
Proof. done. Qed.
Lemma preserves_modify P f : (∀ s, P s → P (f s)) → preserves P (st_modify f : st S E ()).
Proof. intros Hf s s' r Hs [= <- <-]. by apply Hf. Qed.
Lemma preserves_exec P f :
  (∀ s s', P s → f s = Val s' → P s') → preserves P (st_exec f : st S E ()).
Proof.
  intros Hf s s' r Hs. unfold st_exec. destruct (f s) eqn:E1; [|done]. intros [= <- <-]. by eapply Hf.
Qed.
Lemma preserves_lift {A} P (m : exec A) : preserves P (st_lift m : st S E A).
Proof. intros s s' r Hs. unfold st_lift. destruct m; [|done]. by intros [= <- <-]. Qed.
Lemma preserves_read {A} P f : preserves P (st_read f : st S E A).
Proof. by intros s s' r Hs [= <- <-]. Qed.
Lemma preserves_wp {A} P (m : st S E A) : (∀ s, P s → wp m (λ s' _, P s') s) → preserves P m.
Proof. intros Hm s s' r Hs E1. specialize (Hm s Hs). unfold wp in Hm. by rewrite E1 in Hm. Qed.
Lemma preserves_and {A} P P' (m : st S E A) :
  preserves P m → preserves P' m → preserves (λ s, P s ∧ P' s) m.
Proof. intros H1 H2 s s' r [? ?] ?. split; [by eapply H1|by eapply H2]. Qed.
End preserves.

Create HintDb preserves.
#[export] Hint Resolve preserves_ret preserves_throw preserves_panic preserves_lift preserves_read : preserves.

(** Walk through a program down to the actions whose lemmas are in the
    database; what is left are the changes of the state. *)
Ltac preserve_step :=
  match goal with
  | |- preserves _ (st_get ≫= _) => apply preserves_get_bind; intros ? ?
  | |- preserves _ (_ ≫= _) => apply preserves_bind; [|intros ?]
  | |- preserves _ (match ?x with _ => _ end) => destruct x eqn:?
  | |- preserves _ (let _ := _ in _) => cbv zeta
  | |- _ => solve [eauto with preserves]
  end.
Ltac preserve := repeat preserve_step.
