(* ===== verification/ConnectData.v ===== *)
(** * The connect state: [connect/src/state.rs] and its small submodules

    The data of [ConnectState] with the parts of [state.rs],
    [state/provider.rs], [state/metadata.rs], [state/restrictions.rs] and
    [state/options.rs] that do not walk the contexts.  The message wrappers
    [device], [device_info] and [player_state], which [ConnectState::new] always
    fills, are flattened into the request. *)

From S2P Require Import Prelude Digits Text Protocol ShuffleVec StateMonad.

Local Open Scope string_scope.
Local Open Scope Z_scope.

Definition SPOTIFY_MAX_PREV_TRACKS_SIZE : nat := 10.
Definition SPOTIFY_MAX_NEXT_TRACKS_SIZE : nat := 80.

(** ** Metadata maps: the [Metadata] trait *)

Class Metadata (A : Type) := {
  metadata : A → gmap string string;
  metadata_mut : (gmap string string → gmap string string) → A → A;
}.

Definition CONTEXT_URI : string := "context_uri".
Definition ENTITY_URI : string := "entity_uri".
Definition IS_QUEUED : string := "is_queued".
Definition IS_AUTOPLAY : string := "autoplay.is_autoplay".
Definition HIDDEN : string := "hidden".
Definition ITERATION : string := "iteration".
Definition CUSTOM_CONTEXT_INDEX : string := "context_index".
Definition CUSTOM_SHUFFLE_SEED : string := "shuffle_seed".
Definition CUSTOM_INITIAL_TRACK : string := "initial_track".

Definition bool_to_string (b : bool) : string := if b then "true" else "false".

Section metadata_entries.
Context `{Metadata A}.
Implicit Types x : A.

Definition get_bool (entry : string) x : bool := bool_decide (metadata x !! entry = Some "true").
Definition get_usize (entry : string) x : option nat :=
  v ← metadata x !! entry; Z.to_nat <$> result_ok (parse_uint usize_max v).
Definition get (entry : string) x : option string := metadata x !! entry.
Definition set_entry (entry value : string) x : A := metadata_mut <[entry := value]> x.
Definition clear_entry (entry : string) x : A := metadata_mut (delete entry) x.

Definition is_from_queue x : bool := get_bool IS_QUEUED x.
Definition set_from_queue (b : bool) x : A := set_entry IS_QUEUED (bool_to_string b) x.
Definition is_from_autoplay x : bool := get_bool IS_AUTOPLAY x.
Definition set_from_autoplay (b : bool) x : A := set_entry IS_AUTOPLAY (bool_to_string b) x.
Definition set_hidden (b : bool) x : A := set_entry HIDDEN (bool_to_string b) x.
Definition get_context_index x : option nat := get_usize CUSTOM_CONTEXT_INDEX x.
Definition set_context_index (i : nat) x : A := set_entry CUSTOM_CONTEXT_INDEX (display (Z.of_nat i)) x.
Definition set_context_uri (uri : string) x : A := set_entry CONTEXT_URI uri x.
Definition set_entity_uri (uri : string) x : A := set_entry ENTITY_URI uri x.
Definition set_iteration (i : Z) x : A := set_entry ITERATION (display i) x.
Definition get_shuffle_seed x : option string := get CUSTOM_SHUFFLE_SEED x.
Definition set_shuffle_seed (seed : Z) x : A := set_entry CUSTOM_SHUFFLE_SEED (display seed) x.
Definition remove_shuffle_seed x : A := clear_entry CUSTOM_SHUFFLE_SEED x.
Definition get_initial_track x : option string := get CUSTOM_INITIAL_TRACK x.
Definition set_initial_track (uri : string) x : A := set_entry CUSTOM_INITIAL_TRACK uri x.
Definition remove_initial_track x : A := clear_entry CUSTOM_INITIAL_TRACK x.
End metadata_entries.

(** ** Tracks and their providers *)

Record ProvidedTrack := mkProvidedTrack {
  uri : string;
  uid : string;
  pt_metadata : gmap string string;
  provider : string;
}.
#[export] Instance ProvidedTrack_settable : Settable ProvidedTrack := λ t,
  mkProvidedTrack (uri t) (uid t) (pt_metadata t) (provider t).
#[export] Instance ProvidedTrack_eq_dec : EqDecision ProvidedTrack.
Proof. solve_decision. Defined.

Definition ProvidedTrack_default : ProvidedTrack := mkProvidedTrack EmptyString EmptyString ∅ EmptyString.

#[export] Instance ProvidedTrack_metadata : Metadata ProvidedTrack := {
  metadata := pt_metadata;
  metadata_mut f t := t <| pt_metadata ::= f |>;
}.
#[export] Instance Context_metadata : Metadata Context := {
  metadata := ctx_metadata;
  metadata_mut f c := mkContext (ctx_uri c) (ctx_url c) (f (ctx_metadata c)) (ctx_restrictions c) (ctx_pages c);
}.

Definition PROVIDER_CONTEXT : string := "context".
Definition PROVIDER_QUEUE : string := "queue".
Definition PROVIDER_AUTOPLAY : string := "autoplay".
Definition PROVIDER_UNAVAILABLE : string := "unavailable".

Inductive Provider := PContext | PQueue | PAutoplay | PUnavailable.

Definition provider_to_string (p : Provider) : string :=
  match p with
  | PContext => PROVIDER_CONTEXT
  | PQueue => PROVIDER_QUEUE
  | PAutoplay => PROVIDER_AUTOPLAY
  | PUnavailable => PROVIDER_UNAVAILABLE
  end.

Definition is_autoplay (t : ProvidedTrack) : bool := bool_decide (provider t = PROVIDER_AUTOPLAY).
Definition is_context (t : ProvidedTrack) : bool := bool_decide (provider t = PROVIDER_CONTEXT).
Definition is_queue (t : ProvidedTrack) : bool := bool_decide (provider t = PROVIDER_QUEUE).
Definition is_unavailable (t : ProvidedTrack) : bool := bool_decide (provider t = PROVIDER_UNAVAILABLE).
Definition set_provider (p : Provider) (t : ProvidedTrack) : ProvidedTrack :=
  t <| provider := provider_to_string p |>.

(** ** Contexts *)

Record ContextIndex := mkContextIndex {
  ci_page : Z;
  ci_track : Z;
}.
#[export] Instance ContextIndex_settable : Settable ContextIndex := λ i,
  mkContextIndex (ci_page i) (ci_track i).
Definition ContextIndex_default : ContextIndex := mkContextIndex 0 0.

Inductive ContextType := Default | Autoplay.
#[export] Instance ContextType_eq_dec : EqDecision ContextType.
Proof. solve_decision. Defined.

Record StateContext := mkStateContext {
  tracks : ShuffleVec ProvidedTrack;
  sc_metadata : gmap string string;
  sc_restrictions : option Restrictions;
  index : ContextIndex;
}.
#[export] Instance StateContext_settable : Settable StateContext := λ c,
  mkStateContext (tracks c) (sc_metadata c) (sc_restrictions c) (index c).
#[export] Instance StateContext_metadata : Metadata StateContext := {
  metadata := sc_metadata;
  metadata_mut f c := c <| sc_metadata ::= f |>;
}.

Record ShuffleState := mkShuffleState { ss_seed : Z; ss_initial_track : string }.

(** ** Messages sent to the remote server *)

Record PlayerState := mkPlayerState {
  ps_timestamp : Z;
  ps_context_uri : string;
  ps_context_url : string;
  ps_context_restrictions : option PlayerRestrictions;
  ps_play_origin : option PlayerPlayOrigin;
  ps_index : option ContextIndex;
  ps_track : option ProvidedTrack;
  ps_playback_speed : Z;
  ps_position_as_of_timestamp : Z;
  ps_duration : Z;
  ps_is_playing : bool;
  ps_is_paused : bool;
  ps_is_buffering : bool;
  ps_is_system_initiated : bool;
  ps_options : option PlayerContextPlayerOptions;
  ps_restrictions : option PlayerRestrictions;
  ps_suppressions : option PlayerSuppressions;
  ps_prev_tracks : list ProvidedTrack;
  ps_next_tracks : list ProvidedTrack;
  ps_context_metadata : gmap string string;
  ps_session_id : string;
  ps_queue_revision : string;
}.
#[export] Instance PlayerState_settable : Settable PlayerState := λ p,
  mkPlayerState (ps_timestamp p) (ps_context_uri p) (ps_context_url p) (ps_context_restrictions
    p) (ps_play_origin p) (ps_index p) (ps_track p) (ps_playback_speed p)
    (ps_position_as_of_timestamp p) (ps_duration p) (ps_is_playing p) (ps_is_paused p)
    (ps_is_buffering p) (ps_is_system_initiated p) (ps_options p) (ps_restrictions p)
    (ps_suppressions p) (ps_prev_tracks p) (ps_next_tracks p) (ps_context_metadata p)
    (ps_session_id p) (ps_queue_revision p).
Definition PlayerState_default : PlayerState :=
  mkPlayerState 0 EmptyString EmptyString None None None None f64_zero 0 0 false false false false
    None None None [] [] ∅ EmptyString EmptyString.

Inductive PutStateReason := NEW_DEVICE | PLAYER_STATE_CHANGED | VOLUME_CHANGED.

Record Capabilities := mkCapabilities {
  volume_steps : Z;
  disable_volume : bool;
  gaia_eq_connect_id : bool;
  can_be_player : bool;
  needs_full_player_state : bool;
  is_observable : bool;
  is_controllable : bool;
  hidden : bool;
  supports_gzip_pushes : bool;
  supports_logout : bool;
  supports_playlist_v2 : bool;
  supports_transfer_command : bool;
  supports_command_request : bool;
  supports_set_options_command : bool;
  is_voice_enabled : bool;
  restrict_to_local : bool;
  connect_disabled : bool;
  supports_rename : bool;
  supports_external_episodes : bool;
  supports_set_backend_metadata : bool;
  supports_dj : bool;
  supports_rooms : bool;
  command_acks : bool;
  supported_types : list string;
  supported_audio_quality : string;
}.

Record DeviceInfo := mkDeviceInfo {
  can_play : bool;
  di_volume : Z;
  di_name : string;
  di_device_id : string;
  di_device_type : string;
  device_software_version : string;
  spirc_version : string;
  di_client_id : string;
  di_is_group : bool;
  capabilities : Capabilities;
}.
#[export] Instance DeviceInfo_settable : Settable DeviceInfo := λ d,
  mkDeviceInfo (can_play d) (di_volume d) (di_name d) (di_device_id d) (di_device_type d)
    (device_software_version d) (spirc_version d) (di_client_id d) (di_is_group d) (capabilities
    d).

Record PutStateRequest := mkPutStateRequest {
  rq_is_active : bool;
  put_state_reason : PutStateReason;
  client_side_timestamp : Z;
  started_playing_at : Z;
  last_command_message_id : Z;
  last_command_sent_by_device_id : string;
  device_info : DeviceInfo;
  player_state : PlayerState;
}.
#[export] Instance PutStateRequest_settable : Settable PutStateRequest := λ q,
  mkPutStateRequest (rq_is_active q) (put_state_reason q) (client_side_timestamp q)
    (started_playing_at q) (last_command_message_id q) (last_command_sent_by_device_id q)
    (device_info q) (player_state q).

(** ** The state *)

Record ConnectState := mkConnectState {
  request : PutStateRequest;
  unavailable_uri : list string;
  active_since : option Z;
  queue_count : Z;
  active_context : ContextType;
  fill_up_context : ContextType;
  context : option StateContext;
  transfer_shuffle : option ShuffleState;
  autoplay_context : option StateContext;
  volume_step_size : Z;
}.
#[export] Instance ConnectState_settable : Settable ConnectState := λ s,
  mkConnectState (request s) (unavailable_uri s) (active_since s) (queue_count s)
    (active_context s) (fill_up_context s) (context s) (transfer_shuffle s) (autoplay_context s)
    (volume_step_size s).

Inductive StateError :=
| CouldNotResolveTrackFromTransfer
| NoContext (ty : ContextType)
| CanNotFindTrackInContext (index : option nat) (len : nat)
| CurrentlyDisallowed (action reason : string)
| ContextHasNoTracks
| UnsupportedLocalPlayback
| InvalidTrackUri (uri : option string).

Record ConnectConfig := mkConnectConfig {
  cfg_name : string;
  cfg_device_type : string;
  cfg_is_group : bool;
  cfg_initial_volume : Z;
  cfg_disable_volume : bool;
  cfg_volume_steps : Z;
}.

Definition ConnectConfig_default : ConnectConfig :=
  mkConnectConfig "librespot" "speaker" false (u16_max / 2) false 64.

(** What [new] reads of the session and of the build. *)
Record SessionInfo := mkSessionInfo {
  session_device_id : string;
  session_client_id : string;
  session_session_id : string;
  build_semver : string;
}.

Definition SPOTIFY_SPIRC_VERSION : string := "3.2.6".

(** The hash of a sequence of strings by the standard library's default
    hasher, whose algorithm is unspecified. *)
Class DefaultHasher := hash_strings : list string → Z.

Inductive SpircPlayStatus :=
| Stopped
| LoadingPlay (position_ms : Z)
| LoadingPause (position_ms : Z)
| Playing (nominal_start_time : Z) (preloading_of_next_track_triggered : bool)
| Paused (position_ms : Z) (preloading_of_next_track_triggered : bool).

Section state.
Context `{DefaultHasher}.
Implicit Types s : ConnectState.

Definition player s : PlayerState := player_state (request s).
Definition player_mut (f : PlayerState → PlayerState) s : ConnectState :=
  s <| request ::= λ q, q <| player_state ::= f |> |>.

Definition prev_tracks s : list ProvidedTrack := ps_prev_tracks (player s).
Definition next_tracks s : list ProvidedTrack := ps_next_tracks (player s).
Definition prev_tracks_mut (f : list ProvidedTrack → list ProvidedTrack) s : ConnectState :=
  player_mut (λ p, p <| ps_prev_tracks ::= f |>) s.
Definition next_tracks_mut (f : list ProvidedTrack → list ProvidedTrack) s : ConnectState :=
  player_mut (λ p, p <| ps_next_tracks ::= f |>) s.

(** An unset message field reads as its default value. *)
Definition current_track s : ProvidedTrack := default ProvidedTrack_default (ps_track (player s)).
Definition set_track (t : ProvidedTrack) s : ConnectState := player_mut (λ p, p <| ps_track := Some t |>) s.

Definition is_active s : bool := rq_is_active (request s).
Definition is_playing s : bool := ps_is_playing (player s) && negb (ps_is_paused (player s)).
Definition is_pause s : bool :=
  ps_is_playing (player s) && ps_is_paused (player s) && ps_is_buffering (player s).

Definition set_volume (volume : Z) s : ConnectState :=
  s <| request ::= λ q, q <| device_info ::= λ d, d <| di_volume := volume |> |> |>.

Definition set_last_command (message_id : Z) (sent_by_device_id : string) s : ConnectState :=
  s <| request ::= λ q, q <| last_command_message_id := message_id |>
                          <| last_command_sent_by_device_id := sent_by_device_id |> |>.

(** [active_since] is in nanoseconds from the epoch; [duration_since] fails
    before the epoch, and [try_into] when the milliseconds do not fit. *)
Definition set_now (now : Z) s : ConnectState :=
  let s := s <| request ::= λ q, q <| client_side_timestamp := now |> |> in
  match active_since s with
  | Some since =>
      if decide (0 ≤ since) then
        let ms := since / 1000000 in
        if decide (ms ≤ u64_max) then s <| request ::= λ q, q <| started_playing_at := ms |> |> else s
      else s
  | None => s
  end.

(** [system_time] is the value of [SystemTime::now()]. *)
Definition set_active (system_time : Z) (value : bool) s : ConnectState :=
  if value then
    if rq_is_active (request s) then s
    else s <| request ::= λ q, q <| rq_is_active := true |> |> <| active_since := Some system_time |>
  else s <| request ::= λ q, q <| rq_is_active := false |> |> <| active_since := None |>.

Definition set_origin (origin : PlayerPlayOrigin) s : ConnectState :=
  player_mut (λ p, p <| ps_play_origin := Some origin |>) s.
Definition set_session_id (session_id : string) s : ConnectState :=
  player_mut (λ p, p <| ps_session_id := session_id |>) s.

Definition reset s : ConnectState :=
  let s := set_active 0 false s in
  let s := s <| queue_count := 0 |> in
  let session_id := ps_session_id (player s) in
  player_mut (λ _, PlayerState_default
    <| ps_session_id := session_id |>
    <| ps_is_system_initiated := true |>
    <| ps_playback_speed := f64_one |>
    <| ps_play_origin := Some play_origin_default |>
    <| ps_suppressions := Some (mkPlayerSuppressions []) |>
    <| ps_options := Some options_default |>) s.

Definition new (cfg : ConnectConfig) (session : SessionInfo) : ConnectState :=
  (* u16::MAX.checked_div(cfg.volume_steps).unwrap_or(1024) *)
  let volume_step_size := if decide (cfg_volume_steps cfg = 0) then 1024 else u16_max / cfg_volume_steps cfg in
  let device_info := {|
    can_play := true;
    di_volume := cfg_initial_volume cfg;
    di_name := cfg_name cfg;
    di_device_id := session_device_id session;
    di_device_type := cfg_device_type cfg;
    device_software_version := build_semver session;
    spirc_version := SPOTIFY_SPIRC_VERSION;
    di_client_id := session_client_id session;
    di_is_group := cfg_is_group cfg;
    capabilities := {|
      volume_steps := cfg_volume_steps cfg;
      disable_volume := cfg_disable_volume cfg;
      gaia_eq_connect_id := true;
      can_be_player := true;
      needs_full_player_state := true;
      is_observable := true;
      is_controllable := true;
      hidden := false;
      supports_gzip_pushes := true;
      supports_logout := false;
      supports_playlist_v2 := true;
      supports_transfer_command := true;
      supports_command_request := true;
      supports_set_options_command := true;
      is_voice_enabled := false;
      restrict_to_local := false;
      connect_disabled := false;
      supports_rename := false;
      supports_external_episodes := false;
      supports_set_backend_metadata := false;
      supports_dj := false;
      supports_rooms := false;
      command_acks := true;
      supported_types := ["audio/episode"; "audio/track"; "audio/local"];
      supported_audio_quality := "VERY_HIGH"
    |}
  |} in
  reset {|
    request := {|
      rq_is_active := false;
      put_state_reason := PLAYER_STATE_CHANGED;
      client_side_timestamp := 0;
      started_playing_at := 0;
      last_command_message_id := 0;
      last_command_sent_by_device_id := EmptyString;
      device_info := device_info;
      player_state := PlayerState_default <| ps_session_id := session_session_id session |>
    |};
    unavailable_uri := [];
    active_since := None;
    queue_count := 0;
    active_context := Default;
    fill_up_context := Default;
    context := None;
    transfer_shuffle := None;
    autoplay_context := None;
    volume_step_size := volume_step_size
  |}.

(** *** Restrictions *)

Definition clear_restrictions s : ConnectState :=
  player_mut (λ p, p <| ps_context_restrictions := Some PlayerRestrictions_default |>
                     <| ps_restrictions := Some PlayerRestrictions_default |>) s.

Definition NO_PREV : string := "no previous tracks".
Definition AUTOPLAY : string := "autoplay".

(** The two blocks of [update_restrictions], on the restrictions message. *)
Definition restrict_playback (playing paused : bool) (r : PlayerRestrictions) : PlayerRestrictions :=
  let r := if playing then
      r <| p_disallow_pausing_reasons := [] |> <| p_disallow_resuming_reasons := ["not_paused"] |>
    else r in
  if paused then
    r <| p_disallow_resuming_reasons := [] |> <| p_disallow_pausing_reasons := ["not_playing"] |>
  else r.

Definition restrict_tracks (no_prev autoplay : bool) (r : PlayerRestrictions) : PlayerRestrictions :=
  let r := if no_prev then
      r <| p_disallow_peeking_prev_reasons := [NO_PREV] |> <| p_disallow_skipping_prev_reasons := [NO_PREV] |>
    else
      r <| p_disallow_peeking_prev_reasons := [] |> <| p_disallow_skipping_prev_reasons := [] |> in
  if autoplay then
    r <| p_disallow_toggling_shuffle_reasons := [AUTOPLAY] |>
      <| p_disallow_toggling_repeat_context_reasons := [AUTOPLAY] |>
      <| p_disallow_toggling_repeat_track_reasons := [AUTOPLAY] |>
  else
    r <| p_disallow_toggling_shuffle_reasons := [] |>
      <| p_disallow_toggling_repeat_context_reasons := [] |>
      <| p_disallow_toggling_repeat_track_reasons := [] |>.

Definition update_restrictions s : ConnectState :=
  let prev_tracks_is_empty := bool_decide (prev_tracks s = []) in
  let is_paused := is_pause s in
  let is_playing := is_playing s in
  player_mut (λ p,
    let p := p <| ps_restrictions ::= fmap (restrict_playback is_playing is_paused) |> in
    let p := match ps_restrictions p with
             | None => p <| ps_restrictions := Some PlayerRestrictions_default |>
             | Some _ => p
             end in
    p <| ps_restrictions ::=
      fmap (restrict_tracks prev_tracks_is_empty
              (is_autoplay (default ProvidedTrack_default (ps_track p)))) |>) s.

(** *** Status, position, index *)

Definition set_status (status : SpircPlayStatus) s : ConnectState :=
  let s := player_mut (λ p,
    let paused := match status with LoadingPause _ | Paused _ _ | Stopped => true | _ => false end in
    let p := p <| ps_is_paused := paused |> in
    let p := p <| ps_playback_speed := if paused then f64_zero else f64_one |> in
    let p := p <| ps_is_buffering :=
      paused || match status with LoadingPause _ | LoadingPlay _ => true | _ => false end |> in
    p <| ps_is_playing :=
      paused || match status with LoadingPlay _ | Playing _ _ => true | _ => false end |>) s in
  update_restrictions s.

Definition update_current_index (f : ContextIndex → ContextIndex) s : ConnectState :=
  player_mut (λ p, p <| ps_index := Some (f (default ContextIndex_default (ps_index p))) |>) s.

Definition update_position (position_ms timestamp : Z) s : ConnectState :=
  player_mut (λ p, p <| ps_position_as_of_timestamp := position_ms |> <| ps_timestamp := timestamp |>) s.

Definition update_duration (duration : Z) s : ConnectState :=
  player_mut (λ p, p <| ps_duration := duration |>) s.

Definition i64_min : Z := -9223372036854775808.
Definition i64_max : Z := 9223372036854775807.
Definition i64_checked (z : Z) : exec Z := if decide (i64_min ≤ z ≤ i64_max) then Val z else Panic.

Definition update_position_in_relation (timestamp : Z) s : exec ConnectState :=
  diff ← i64_checked (timestamp - ps_timestamp (player s));
  pos ← i64_checked (ps_position_as_of_timestamp (player s) + diff);
  Val (player_mut (λ p, p <| ps_position_as_of_timestamp := pos |> <| ps_timestamp := timestamp |>) s).

Definition update_queue_revision s : ConnectState :=
  player_mut (λ p, p <| ps_queue_revision := display (hash_strings (uri <$> next_tracks s)) |>) s.

Definition mark_as_unavailable_for_match (u : string) (track : ProvidedTrack) : ProvidedTrack :=
  if decide (uri track = u) then set_provider PUnavailable track else track.

(** [send_with_reason], with the network call as an argument. *)
Definition send_with_reason {A} (put_connect_state : PutStateRequest → A) (reason : PutStateReason) s
    : A * ConnectState :=
  let prev_reason := put_state_reason (request s) in
  let s := s <| request ::= λ q, q <| put_state_reason := reason |> |> in
  let res := put_connect_state (request s) in
  (res, s <| request ::= λ q, q <| put_state_reason := prev_reason |> |>).
Definition notify_new_device_appeared {A} (put : PutStateRequest → A) s := send_with_reason put NEW_DEVICE s.
Definition notify_volume_changed {A} (put : PutStateRequest → A) s := send_with_reason put VOLUME_CHANGED s.
Definition send_state {A} (put : PutStateRequest → A) s : A := put (request s).

(** *** Options *)

Definition add_options_if_empty s : ConnectState :=
  match ps_options (player s) with
  | None => player_mut (λ p, p <| ps_options := Some options_default |>) s
  | Some _ => s
  end.
Definition options_mut (f : PlayerContextPlayerOptions → PlayerContextPlayerOptions) s : ConnectState :=
  player_mut (λ p, p <| ps_options ::= fmap f |>) (add_options_if_empty s).
Definition set_repeat_context (repeat : bool) s : ConnectState :=
  options_mut (λ o, o <| opt_repeating_context := repeat |>) s.
Definition set_repeat_track (repeat : bool) s : ConnectState :=
  options_mut (λ o, o <| opt_repeating_track := repeat |>) s.
Definition set_shuffle (shuffle : bool) s : ConnectState :=
  options_mut (λ o, o <| opt_shuffling_context := shuffle |>) s.
Definition reset_options s : ConnectState :=
  set_repeat_context false (set_repeat_track false (set_shuffle false s)).

Definition shuffling_context s : bool := opt_shuffling_context (default options_default (ps_options (player s))).
Definition repeat_context s : bool := opt_repeating_context (default options_default (ps_options (player s))).
Definition repeat_track s : bool := opt_repeating_track (default options_default (ps_options (player s))).

Definition validate_shuffle_allowed s : result () StateError :=
  match p_disallow_toggling_shuffle_reasons
          (default PlayerRestrictions_default (ps_restrictions (player s))) with
  | reason :: _ => Err (CurrentlyDisallowed "shuffle" reason)
  | [] => Ok ()
  end.
End state.
