(* ===== verification/ConnectQueue.v ===== *)
(** * Previous and next tracks: the list operations of [connect/src/state/tracks.rs]

    The operations that only touch the two track lists of the player state.
    The next tracks start with the user's queue; everything after it comes
    from a context. *)

From S2P Require Import Prelude Digits Text SpotifyId SpotifyUri Protocol ShuffleVec StateMonad ConnectData.

Local Open Scope string_scope.
Local Open Scope list_scope.
Local Open Scope nat_scope.

Definition IDENTIFIER_DELIMITER : string := "delimiter".

Definition new_delimiter (iteration : Z) : ProvidedTrack :=
  let delimiter := {|
    uri := "spotify:" +:+ IDENTIFIER_DELIMITER;
    uid := IDENTIFIER_DELIMITER +:+ display iteration;
    pt_metadata := ∅;
    provider := provider_to_string PContext
  |} in
  set_iteration iteration (set_hidden true delimiter).

Definition is_delimiter (t : ProvidedTrack) : bool := starts_with IDENTIFIER_DELIMITER (uid t).

(** [while v.len() > n { v.pop(); }], with the length as fuel. *)
Fixpoint pop_loop {A} (fuel n : nat) (l : list A) : list A :=
  match fuel with
  | O => l
  | S fuel => if decide (n < length l) then pop_loop fuel n (removelast l) else l
  end.
Definition pop_while_longer {A} (n : nat) (l : list A) : list A := pop_loop (length l) n l.

(** [while let Some(pos) = v.iter().position(f) { v.remove(pos); }] *)
Fixpoint remove_loop {A} (fuel : nat) (f : A → bool) (l : list A) : list A :=
  match fuel with
  | O => l
  | S fuel =>
      match position f l with
      | None => l
      | Some pos => remove_loop fuel f (take pos l ++ drop (S pos) l)
      end
  end.
Definition remove_while {A} (f : A → bool) (l : list A) : list A := remove_loop (length l) f l.

Section queue.
Context `{DefaultHasher}.
Implicit Types s : ConnectState.

Definition push_prev (prev : ProvidedTrack) s : ConnectState :=
  prev_tracks_mut (λ l,
    let l := if decide (SPOTIFY_MAX_PREV_TRACKS_SIZE ≤ length l) then tail l else l in
    l ++ [prev]) s.

Definition get_next_track s : option ProvidedTrack * ConnectState :=
  match next_tracks s with
  | [] => (None, s)
  | t :: _ => (Some t, next_tracks_mut tail s)
  end.

(** The pass of [set_next_tracks] over the tracks that come from the queue. *)
Fixpoint requeue (count : Z) (l : list ProvidedTrack) : exec (list ProvidedTrack * Z) :=
  match l with
  | [] => Val ([], count)
  | t :: l =>
      if is_from_queue t then
        count' ← uadd u64_max count 1;
        '(l', n) ← requeue count' l;
        Val ((set_provider PQueue t) <| uid := "q" +:+ display count |> :: l', n)
      else
        '(l', n) ← requeue count l;
        Val (t :: l', n)
  end.

Definition set_next_tracks (ts : list ProvidedTrack) s : exec ConnectState :=
  '(ts, count) ← requeue (queue_count s) ts;
  let ts := (λ t, if decide (uri t = EmptyString) then t <| uri := uri (current_track s) |> else t) <$> ts in
  Val (next_tracks_mut (λ _, ts) (s <| queue_count := count |>)).

Definition set_prev_tracks (ts : list ProvidedTrack) s : ConnectState := prev_tracks_mut (λ _, ts) s.
Definition clear_prev_track s : ConnectState := prev_tracks_mut (λ _, []) s.

Definition clear_next_tracks s : ConnectState :=
  match position (λ t, negb (is_queue t)) (next_tracks s) with
  | Some non_queued_track => next_tracks_mut (pop_while_longer non_queued_track) s
  | None => s
  end.

Definition preview_next_track s : option SpotifyUri :=
  next ← (if repeat_track s then Some (uri (current_track s)) else uri <$> head (next_tracks s));
  result_ok (from_uri next).

Definition has_next_tracks (min : option nat) s : bool :=
  match min with
  | Some min => bool_decide (min ≤ length (next_tracks s))
  | None => negb (bool_decide (next_tracks s = []))
  end.

Definition recent_track_uris s : list string :=
  (uri <$> prev_tracks s) ++ [uri (current_track s)].

Definition add_to_queue (track : ProvidedTrack) (rev_update : bool) s : exec ConnectState :=
  let track := track <| uid := "q" +:+ display (queue_count s) |> in
  count ← uadd u64_max (queue_count s) 1;
  let s := s <| queue_count := count |> in
  let track := set_provider PQueue track in
  let track := if negb (is_from_queue track) then set_from_queue true track else track in
  let s := next_tracks_mut (λ l,
    let l := match position (λ t, negb (is_queue t)) l with
             | Some next_not_queued_track => take next_not_queued_track l ++ track :: drop next_not_queued_track l
             | None => l ++ [track]
             end in
    pop_while_longer SPOTIFY_MAX_NEXT_TRACKS_SIZE l) s in
  let s := if rev_update then update_queue_revision s else s in
  Val (update_restrictions s).

Definition handle_set_queue (next prev : list ProvidedTrack) s : exec ConnectState :=
  s ← set_next_tracks next s;
  Val (update_queue_revision (set_prev_tracks prev s)).
End queue.

(** ** Lemmas *)

Lemma pop_loop_take {A} fuel n (l : list A) : length l ≤ fuel + n → pop_loop fuel n l = take n l.
Proof.
  revert l. induction fuel as [|fuel IH]; intros l Hf; simpl.
  { symmetry. apply take_ge. lia. }
  case_decide; [|symmetry; apply take_ge; lia].
  destruct (@exists_last _ l) as (l' & x & ->); [by intros ->; simpl in *; lia|].
  rewrite removelast_last. rewrite length_app in *. simpl in *.
  rewrite IH by lia. symmetry. apply take_app_le. lia.
Qed.

Lemma pop_while_longer_take {A} n (l : list A) : pop_while_longer n l = take n l.
Proof. apply pop_loop_take. lia. Qed.

Lemma position_split {A} (f : A → bool) l k :
  position f l = Some k →
  ∃ x, l = take k l ++ x :: drop (S k) l ∧ f x = true ∧ Forall (λ y, f y = false) (take k l).
Proof.
  revert k. induction l as [|x l IH]; intros k Hk; [done|]. simpl in Hk.
  destruct (f x) eqn:Hx; [injection Hk as <-; by exists x|].
  destruct (position f l) as [j|]; [|done]. injection Hk as <-.
  destruct (IH j eq_refl) as (y & E & ? & ?). exists y. simpl. split_and!; [by f_equal|done|by constructor].
Qed.

Lemma remove_loop_filter {A} (f : A → bool) fuel l :
  length l ≤ fuel → remove_loop fuel f l = filter (λ x, f x = false) l.
Proof.
  revert l. induction fuel as [|fuel IH]; intros l Hf.
  { destruct l; [done|simpl in Hf; lia]. }
  simpl. destruct (position f l) as [k|] eqn:Hk.
  - apply position_split in Hk as (x & E & Hx & Hfalse).
    rewrite IH.
    + rewrite E at 3. rewrite !filter_app, filter_cons_False by congruence. done.
    + rewrite E in Hf. rewrite length_app in *. simpl in Hf. lia.
  - apply position_None in Hk. symmetry. by apply filter_all.
Qed.

Lemma remove_while_filter {A} (f : A → bool) (l : list A) :
  remove_while f l = filter (λ x, f x = false) l.
Proof. by apply remove_loop_filter. Qed.

(** The leading queued tracks and the rest of a list of next tracks. *)
Fixpoint queued (l : list ProvidedTrack) : list ProvidedTrack :=
  match l with
  | t :: l => if is_queue t then t :: queued l else []
  | [] => []
  end.
Fixpoint upcoming (l : list ProvidedTrack) : list ProvidedTrack :=
  match l with
  | t :: l' => if is_queue t then upcoming l' else l
  | [] => []
  end.

Lemma queued_upcoming l : queued l ++ upcoming l = l.
Proof. induction l as [|t l IH]; simpl; [done|]. destruct (is_queue t); simpl; by rewrite ?IH. Qed.

Lemma queued_all l : Forall (λ t, is_queue t = true) (queued l).
Proof. induction l as [|t l IH]; simpl; [constructor|]. destruct (is_queue t) eqn:E; by constructor. Qed.

Lemma position_not_queued l :
  match position (λ t, negb (is_queue t)) l with
  | Some k => take k l = queued l ∧ drop k l = upcoming l
  | None => l = queued l ∧ upcoming l = []
  end.
Proof.
  induction l as [|t l IH]; simpl; [done|]. destruct (is_queue t); simpl; [|done].
  destruct (position _ l); simpl; destruct IH as [IH1 IH2]; split; (done || by f_equal).
Qed.

Section queue_lemmas.
Context `{DefaultHasher}.
Implicit Types s : ConnectState.

Definition prev_ok s : Prop := length (prev_tracks s) ≤ SPOTIFY_MAX_PREV_TRACKS_SIZE.
Definition next_ok s : Prop := length (next_tracks s) ≤ SPOTIFY_MAX_NEXT_TRACKS_SIZE.

Lemma next_tracks_next_tracks_mut f s : next_tracks (next_tracks_mut f s) = f (next_tracks s).
Proof. done. Qed.

Lemma push_prev_tracks t s :
  prev_tracks (push_prev t s) =
    (if decide (SPOTIFY_MAX_PREV_TRACKS_SIZE ≤ length (prev_tracks s)) then tail (prev_tracks s)
     else prev_tracks s) ++ [t].
Proof. done. Qed.

Lemma push_prev_ok t s : prev_ok s → prev_ok (push_prev t s).
Proof.
  unfold prev_ok. rewrite push_prev_tracks, length_app. simpl.
  unfold SPOTIFY_MAX_PREV_TRACKS_SIZE. case_decide; [|lia].
  destruct (prev_tracks s); simpl in *; lia.
Qed.

Lemma update_queue_revision_lists s :
  next_tracks (update_queue_revision s) = next_tracks s ∧
  prev_tracks (update_queue_revision s) = prev_tracks s.
Proof. done. Qed.

Lemma update_restrictions_player s :
  ∃ r, update_restrictions s = player_mut (λ p, p <| ps_restrictions := Some r |>) s.
Proof.
  destruct s as [q]. destruct q as [? ? ? ? ? ? ? p]. destruct p. unfold update_restrictions, player_mut. simpl.
  destruct ps_restrictions; simpl; eauto.
Qed.

Lemma update_restrictions_lists s :
  next_tracks (update_restrictions s) = next_tracks s ∧
  prev_tracks (update_restrictions s) = prev_tracks s ∧
  ps_track (player (update_restrictions s)) = ps_track (player s) ∧
  ps_index (player (update_restrictions s)) = ps_index (player s).
Proof. by destruct (update_restrictions_player s) as [r ->]. Qed.

Lemma clear_next_tracks_queued s : next_tracks (clear_next_tracks s) = queued (next_tracks s).
Proof.
  unfold clear_next_tracks. pose proof (position_not_queued (next_tracks s)) as Hp.
  destruct (position _ _).
  - change (pop_while_longer n (next_tracks s) = queued (next_tracks s)).
    rewrite pop_while_longer_take. apply Hp.
  - apply Hp.
Qed.
End queue_lemmas.

(** ** The user's queue *)

Section queue_spec.
Context `{DefaultHasher}.
Implicit Types s : ConnectState.

(** The track that [add_to_queue] inserts. *)
Definition queued_track (count : Z) (t : ProvidedTrack) : ProvidedTrack :=
  let t := set_provider PQueue (t <| uid := "q" +:+ display count |>) in
  if is_from_queue t then t else set_from_queue true t.

Lemma queued_track_spec count t :
  is_queue (queued_track count t) = true ∧ is_from_queue (queued_track count t) = true ∧
  uri (queued_track count t) = uri t ∧ uid (queued_track count t) = "q" +:+ display count.
Proof.
  unfold queued_track. destruct (is_from_queue _) eqn:E; split_and!; try done.
  unfold is_from_queue, get_bool. simpl. rewrite lookup_insert_eq. done.
Qed.

Lemma queued_app_all q l : Forall (λ t, is_queue t = true) q → queued (q ++ l) = q ++ queued l.
Proof. induction 1 as [|t q Ht _ IH]; simpl; [done|]. rewrite Ht. by f_equal. Qed.
Lemma upcoming_app_all q l : Forall (λ t, is_queue t = true) q → upcoming (q ++ l) = upcoming l.
Proof. induction 1 as [|t q Ht _ IH]; simpl; [done|]. by rewrite Ht. Qed.

Lemma queued_take_upcoming n l : queued (take n (upcoming l)) = [] ∧ upcoming (take n (upcoming l)) = take n (upcoming l).
Proof.
  induction l as [|t l IH]; simpl; [by rewrite take_nil|].
  destruct (is_queue t) eqn:E; [done|]. destruct n; simpl; [done|]. by rewrite E.
Qed.

Lemma add_to_queue_spec t rev s :
  (0 ≤ queue_count s < u64_max)%Z →
  ∃ s', add_to_queue t rev s = Val s' ∧
    next_tracks s' = take SPOTIFY_MAX_NEXT_TRACKS_SIZE
      (queued (next_tracks s) ++ queued_track (queue_count s) t :: upcoming (next_tracks s)) ∧
    prev_tracks s' = prev_tracks s ∧ queue_count s' = (queue_count s + 1)%Z ∧
    ps_track (player s') = ps_track (player s).
Proof.
  intros Hc. unfold add_to_queue. rewrite uadd_Val by lia. cbn [mbind exec_bind].
  set (t0 := if negb _ then _ else _).
  assert (t0 = queued_track (queue_count s) t) as ->.
  { unfold t0, queued_track. by destruct (is_from_queue _). }
  set (s1 := next_tracks_mut _ _).
  assert (next_tracks s1 = take SPOTIFY_MAX_NEXT_TRACKS_SIZE
      (queued (next_tracks s) ++ queued_track (queue_count s) t :: upcoming (next_tracks s))) as Hs1.
  { unfold s1. rewrite next_tracks_next_tracks_mut, pop_while_longer_take. f_equal.
    pose proof (position_not_queued (next_tracks s)) as Hp.
    change (next_tracks (s <| queue_count := _ |>)) with (next_tracks s).
    destruct (position _ _) as [k|].
    - by destruct Hp as [-> ->].
    - destruct Hp as [Hq Hu]. rewrite Hu. by rewrite <- Hq. }
  eexists. split; [done|].
  destruct (update_restrictions_lists (if rev then update_queue_revision s1 else s1)) as (-> & -> & -> & _).
  destruct (update_restrictions_player (if rev then update_queue_revision s1 else s1)) as [r ->].
  by destruct rev.
Qed.

Fixpoint add_all (ts : list ProvidedTrack) s : exec ConnectState :=
  match ts with
  | [] => Val s
  | t :: ts => s ← add_to_queue t true s; add_all ts s
  end.

Fixpoint queued_tracks (count : Z) (ts : list ProvidedTrack) : list ProvidedTrack :=
  match ts with
  | [] => []
  | t :: ts => queued_track count t :: queued_tracks (count + 1) ts
  end.

Lemma queued_tracks_queue count ts : Forall (λ t, is_queue t = true) (queued_tracks count ts).
Proof.
  revert count. induction ts as [|t ts IH]; intros count; simpl; constructor; [|apply IH].
  apply queued_track_spec.
Qed.

Lemma add_all_spec ts s :
  (0 ≤ queue_count s)%Z → (queue_count s + Z.of_nat (length ts) ≤ u64_max)%Z →
  length (queued (next_tracks s)) + length ts ≤ SPOTIFY_MAX_NEXT_TRACKS_SIZE → next_ok s →
  ∃ s', add_all ts s = Val s' ∧
    next_tracks s' = take SPOTIFY_MAX_NEXT_TRACKS_SIZE
      (queued (next_tracks s) ++ queued_tracks (queue_count s) ts ++ upcoming (next_tracks s)) ∧
    prev_tracks s' = prev_tracks s ∧ ps_track (player s') = ps_track (player s).
Proof.
  revert s. induction ts as [|t ts IH]; intros s Hc0 Hc Hq Hn.
  { exists s. simpl. rewrite queued_upcoming, take_ge by done. done. }
  cbn [length] in *.
  destruct (add_to_queue_spec t true s) as (s1 & E & Hnext & Hprev & Hcount & Htrack); [lia|].
  destruct (queued_track_spec (queue_count s) t) as (Hqt & _).
  set (q := queued (next_tracks s)) in *. set (up := upcoming (next_tracks s)) in *.
  assert (∃ k, SPOTIFY_MAX_NEXT_TRACKS_SIZE = length q + S k) as [k Hk].
  { exists (SPOTIFY_MAX_NEXT_TRACKS_SIZE - length q - 1). lia. }
  rewrite Hk in Hnext.
  assert (next_tracks s1 = (q ++ [queued_track (queue_count s) t]) ++ take k up) as Hsplit.
  { rewrite Hnext, take_app_ge by lia. rewrite <- (app_assoc q). f_equal.
    by replace (length q + S k - length q) with (S k) by lia. }
  assert (Forall (λ t, is_queue t = true) (q ++ [queued_track (queue_count s) t])) as Hall.
  { apply Forall_app. split; [apply queued_all|by constructor]. }
  destruct (queued_take_upcoming k (next_tracks s)) as [Hqt0 Hut0].
  assert (queued (next_tracks s1) = q ++ [queued_track (queue_count s) t] ∧
          upcoming (next_tracks s1) = take k up) as [Hq1 Hu1].
  { rewrite Hsplit, queued_app_all, upcoming_app_all by done. unfold up.
    by rewrite Hqt0, Hut0, app_nil_r. }
  destruct (IH s1) as (s2 & E2 & Hnext2 & Hprev2 & Htrack2).
  { lia. } { lia. } { rewrite Hq1, length_app. simpl. lia. } { unfold next_ok. rewrite Hnext, length_take. lia. }
  exists s2. simpl. rewrite E. simpl. split; [done|]. rewrite Hnext2, Hq1, Hu1, Hcount.
  split; [|split; congruence]. rewrite <- !app_assoc, Hk, !(take_app_ge q) by lia. f_equal.
  replace (length q + S k - length q) with (S k) by lia. simpl. f_equal.
  rewrite !take_app, take_take. f_equal. f_equal. lia.
Qed.
End queue_spec.

(** adding tracks to the queue, one call per track, puts them in the
    order of the calls behind the tracks queued before and ahead of the
    context's tracks, whatever the list limit cuts off; previous tracks and
    the playing track are untouched. *)
Lemma queue_fifo `{DefaultHasher} ts s :
  (0 ≤ queue_count s)%Z → (queue_count s + Z.of_nat (length ts) ≤ u64_max)%Z →
  length (queued (next_tracks s)) + length ts ≤ SPOTIFY_MAX_NEXT_TRACKS_SIZE → next_ok s →
  ∃ s', add_all ts s = Val s' ∧
    queued (next_tracks s') = queued (next_tracks s) ++ queued_tracks (queue_count s) ts ∧
    upcoming (next_tracks s') =
      take (SPOTIFY_MAX_NEXT_TRACKS_SIZE - length (queued (next_tracks s')))
        (upcoming (next_tracks s)) ∧
    next_ok s' ∧ prev_tracks s' = prev_tracks s ∧ current_track s' = current_track s.
Proof.
  intros H0 Hc Hq Hn. destruct (add_all_spec ts s H0 Hc Hq Hn) as (s' & E & Hnext & Hprev & Htrack).
  exists s'. split; [done|].
  set (q := queued (next_tracks s) ++ queued_tracks (queue_count s) ts).
  assert (length (queued_tracks (queue_count s) ts) = length ts) as Hlen.
  { generalize (queue_count s). clear. induction ts; intros; simpl; [done|]. by rewrite IHts. }
  assert (length q ≤ SPOTIFY_MAX_NEXT_TRACKS_SIZE) as Hlq by (unfold q; rewrite length_app; lia).
  assert (Forall (λ t, is_queue t = true) q) as Hall.
  { apply Forall_app. split; [apply queued_all|apply queued_tracks_queue]. }
  assert (next_tracks s' = q ++ take (SPOTIFY_MAX_NEXT_TRACKS_SIZE - length q) (upcoming (next_tracks s))) as E'.
  { rewrite Hnext, app_assoc. fold q. by rewrite take_app_ge by lia. }
  destruct (queued_take_upcoming (SPOTIFY_MAX_NEXT_TRACKS_SIZE - length q) (next_tracks s)) as [Hqt Hut].
  assert (queued (next_tracks s') = q) as Hqq.
  { by rewrite E', queued_app_all, Hqt, app_nil_r. }
  split_and!; [done| | |done|by unfold current_track; rewrite Htrack].
  - by rewrite Hqq, E', upcoming_app_all, Hut.
  - unfold next_ok. rewrite Hnext, length_take. lia.
Qed.

(** A concrete hasher and a concrete state for the examples. *)
Definition length_hasher : DefaultHasher := λ l, Z.of_nat (length l).
Definition example_session : SessionInfo := mkSessionInfo "device" "client" "session" "0.8.0".
Definition example_track (u : string) (p : Provider) : ProvidedTrack :=
  mkProvidedTrack u u ∅ (provider_to_string p).
Definition example_state (next : list ProvidedTrack) : ConnectState :=
  next_tracks_mut (λ _, next) (new ConnectConfig_default example_session).

