(* ===== verification/ConnectContext.v ===== *)
(** * Contexts: [connect/src/state/context.rs]

    Loading the tracks of a context (an album, a playlist, an autoplay
    station) into the connect state, switching between the default and the
    autoplay context, and resetting them. *)

From S2P Require Import Prelude Digits Text SpotifyId SpotifyUri Protocol ShuffleVec StateMonad.
From S2P Require Import ConnectData ConnectQueue.

Local Open Scope string_scope.
Local Open Scope list_scope.
Local Open Scope nat_scope.

Definition LOCAL_FILES_IDENTIFIER : string := "spotify:local-files".
Definition SEARCH_IDENTIFIER : string := "spotify:search".

Inductive ResetContext :=
| Completely
| DefaultIndex
| WhenDifferent (ctx : string).

(** The errors of the connect state: its own, and those of URIs and ids. *)
Inductive ConnectError :=
| EState (e : StateError)
| EUri (e : SpotifyUriError)
| EId (e : SpotifyIdError).

Abbreviation M := (st ConnectState ConnectError).

Fixpoint skip_while {A} (f : A → bool) (l : list A) : list A :=
  match l with
  | [] => []
  | x :: l' => if f x then skip_while f l' else l
  end.

Definition page_url_to_uri (page_url : string) : string :=
  let parts := match strip_prefix "hm://" page_url with
               | Some rest => split "/" rest
               | None => split "/" page_url
               end in
  join ":" (take 3 (skip_while (λ s, negb (bool_decide (s = "spotify"))) parts)).

(** [tracks] as the vector it dereferences to. *)
Definition track_list (ctx : StateContext) : list ProvidedTrack := vec (tracks ctx).
Definition track_list_mut (f : list ProvidedTrack → list ProvidedTrack) (ctx : StateContext) : StateContext :=
  ctx <| tracks ::= λ v, with_vec (f (vec v)) v |>.

Definition find_index_in_context (ctx : StateContext) (f : ProvidedTrack → bool) : result nat StateError :=
  ok_or (position f (track_list ctx)) (CanNotFindTrackInContext None (length (track_list ctx))).

Section context.
Context `{DefaultHasher}.
Implicit Types s : ConnectState.

Definition context_of (ty : ContextType) s : option StateContext :=
  match ty with Default => context s | Autoplay => autoplay_context s end.
Definition get_context (ty : ContextType) s : result StateContext StateError :=
  ok_or (context_of ty s) (NoContext ty).
(** Writing through [get_context_mut]. *)
Definition context_mut (ty : ContextType) (f : StateContext → StateContext) s : ConnectState :=
  match ty with
  | Default => s <| context ::= fmap f |>
  | Autoplay => s <| autoplay_context ::= fmap f |>
  end.

Definition context_uri s : string := ps_context_uri (player s).

Definition different_context_uri (u : string) s : bool :=
  negb (bool_decide (context_uri s = u)) || starts_with SEARCH_IDENTIFIER u.

Definition set_active_context (new_context : ContextType) s : ConnectState :=
  let s := s <| active_context := new_context |> in
  let s := player_mut (λ p, p
    <| ps_context_metadata := ∅ |>
    <| ps_context_restrictions := Some PlayerRestrictions_default |>
    <| ps_restrictions := Some PlayerRestrictions_default |>) s in
  match get_context new_context s with
  | Err _ => s
  | Ok ctx =>
      player_mut (λ p,
        let p := match sc_restrictions ctx with
                 | Some restrictions => p <| ps_restrictions := Some (restrictions_into_player restrictions) |>
                 | None => p
                 end in
        p <| ps_context_metadata ::= λ m, sc_metadata ctx ∪ m |>) s
  end.

Definition reset_context (reset_as : ResetContext) s : exec ConnectState :=
  let reset_as := match reset_as with
                  | WhenDifferent ctx => if different_context_uri ctx s then Completely else reset_as
                  | _ => reset_as
                  end in
  s ← (match context s with
       | Some ctx =>
           let ctx := remove_initial_track (remove_shuffle_seed ctx) in
           v ← unshuffle (tracks ctx);
           Val (s <| context := Some (ctx <| tracks := v |>) |>)
       | None => Val s
       end);
  let s := match reset_as with
           | WhenDifferent _ => s
           | Completely =>
               let s := s <| context := None |> <| autoplay_context := None |> in
               player_mut (λ p, p <| ps_context_uri := EmptyString |> <| ps_context_url := EmptyString |>) s
           | DefaultIndex =>
               let zero (ctx : StateContext) := ctx <| index := mkContextIndex 0 0 |> in
               s <| context ::= fmap zero |> <| autoplay_context ::= fmap zero |>
           end in
  let s := s <| fill_up_context := Default |> in
  Val (update_restrictions (set_active_context Default s)).

Definition valid_resolve_uri (u : string) : option string :=
  if bool_decide (u = EmptyString) || starts_with SEARCH_IDENTIFIER u then None else Some u.

Definition find_valid_uri (context_uri : option string) (first_page : option ContextPage) : option string :=
  match context_uri ≫= valid_resolve_uri with
  | Some u => Some u
  | None => p ← first_page; t ← head (page_tracks p); ct_uri t
  end.

Definition is_skip_track (track : ProvidedTrack) (iteration : option Z) s : bool :=
  match context_of (active_context s) s with
  | None => false
  | Some ctx =>
      match get_initial_track ctx with
      | Some u => bool_decide (u = uri track) &&
                  match iteration with None => true | Some i => bool_decide (i = 0%Z) end
      | None => false
      end
  end.

Definition update_context_index (ty : ContextType) (new_index : nat) : M () :=
  s ← st_get;
  match context_of ty s with
  | None => st_throw (EState (NoContext ty))
  | Some _ =>
      st_modify (context_mut ty (λ ctx, ctx <| index ::= λ i, i <| ci_track := wrapu 32 (Z.of_nat new_index) |> |>))
  end.

(** *** Building tracks *)

(** The URI of a context track. *)
Definition context_track_uri (ctx_track : ContextTrack) : result SpotifyUri ConnectError :=
  let from_gid := match ct_gid ctx_track with
    | Some (b :: gid) => match from_raw (b :: gid) with
                         | Ok id => Ok (Track id)
                         | Err e => Err (EId e)
                         end
    | _ => Err (EState (InvalidTrackUri None))
    end in
  match ct_uri ctx_track with
  | Some u =>
      if str_contains "?" u then Err (EState (InvalidTrackUri (Some u)))
      else if decide (u ≠ EmptyString) then
        match from_uri u with Ok id => Ok id | Err e => Err (EUri e) end
      else from_gid
  | None => from_gid
  end.

(** [uuid] is the value of [Uuid::new_v4()]. *)
Definition context_to_provided_track (uuid : string) (ctx_track : ContextTrack)
    (context_uri : option string) (context_index : option nat)
    (page_metadata : option (gmap string string)) (prov : option Provider) s
    : exec (result ProvidedTrack ConnectError) :=
  match context_track_uri ctx_track with
  | Err e => Val (Err e)
  | Ok id =>
      u ← to_uri id;
      let u := replace "unknown" "track" u in
      let prov := if decide (u ∈ unavailable_uri s) then PUnavailable else default PContext prov in
      let uid := match ct_uid ctx_track with
                 | Some i => if decide (i ≠ EmptyString) then i else uuid
                 | None => uuid
                 end in
      let track := {|
        uri := u;
        uid := uid;
        pt_metadata := ct_metadata ctx_track ∪ default ∅ page_metadata;
        provider := provider_to_string prov
      |} in
      let track := match context_uri with
                   | Some c => set_context_uri c (set_entity_uri c track)
                   | None => track
                   end in
      let track := match context_index with Some i => set_context_index i track | None => track end in
      let track := match prov with PAutoplay => set_from_autoplay true track | _ => track end in
      Val (Ok track)
  end.

(** The [flat_map] of [state_context_from_page]: tracks that cannot be
    converted are dropped, but keep their position in the numbering. *)
Fixpoint provided_tracks (uuids : nat → string) (new_context_uri : string) (context_length : option nat)
    (metadata : gmap string string) (prov : option Provider) (i : nat) (l : list ContextTrack) s
    : exec (list ProvidedTrack) :=
  match l with
  | [] => Val []
  | track :: l =>
      r ← context_to_provided_track (uuids i) track (Some new_context_uri) ((λ n, n + i) <$> context_length)
            (Some metadata) prov s;
      ts ← provided_tracks uuids new_context_uri context_length metadata prov (S i) l s;
      Val (match r with Ok t => t :: ts | Err _ => ts end)
  end.

Definition state_context_from_page (uuids : nat → string) (page : ContextPage) (metadata : gmap string string)
    (restrictions : option Restrictions) (new_context_uri : option string) (context_length : option nat)
    (prov : option Provider) s : exec StateContext :=
  let new_context_uri := default (context_uri s) new_context_uri in
  ts ← provided_tracks uuids new_context_uri context_length (page_metadata page) prov 0 (page_tracks page) s;
  Val {| tracks := from_vec ts; sc_metadata := metadata; sc_restrictions := restrictions;
         index := ContextIndex_default |}.

Definition fill_context_from_page (uuids : nat → string) (page : ContextPage) : M () := λ s,
  let ctx_len := (λ c, length (track_list c)) <$> context s in
  new ← state_context_from_page uuids page ∅ None None ctx_len None s;
  match context s with
  | None => Val (s, Err (EState (NoContext Default)))
  | Some ctx =>
      Val (s <| context := Some (track_list_mut (λ l, l ++ track_list new) ctx) |>, Ok ())
  end.

(** *** Updating a context *)

Fixpoint find_first_prev_track_index_loop (prevs : list ProvidedTrack) (ctx : StateContext) : option nat :=
  match prevs with
  | [] => None
  | prev :: prevs =>
      match find_index_in_context ctx (λ t, bool_decide (uri prev = uri t)) with
      | Ok idx => Some idx
      | Err _ => find_first_prev_track_index_loop prevs ctx
      end
  end.
Definition find_first_prev_track_index (ctx : StateContext) s : option nat :=
  find_first_prev_track_index_loop (rev (prev_tracks s)) ctx.

Definition find_last_index_in_new_context (new_context : StateContext) s : exec (option (result Z Z)) :=
  match context s with
  | None => Val None
  | Some ctx =>
      let is_queued_item := is_queue (current_track s) || is_from_queue (current_track s) in
      let track := Z.to_nat (ci_track (index ctx)) in
      let i := if decide (SPOTIFY_MAX_NEXT_TRACKS_SIZE ≤ track) then
                 Some (track - SPOTIFY_MAX_NEXT_TRACKS_SIZE)
               else if is_queued_item then find_first_prev_track_index new_context s
               else result_ok (find_index_in_context new_context
                      (λ current, bool_decide (uri (current_track s) = uri current))) in
      match i with
      | Some i => n ← uadd u32_max (wrapu 32 (Z.of_nat i)) 1; Val (Some (Ok n))
      | None => Val (Some (Err (ci_track (default ContextIndex_default (ps_index (player s))))))
      end
  end.

(** The loop that separates the first page with tracks from the others. *)
Fixpoint split_pages (pages : list ContextPage) : option ContextPage * list ContextPage :=
  match pages with
  | [] => (None, [])
  | page :: pages =>
      if decide (page_tracks page = []) then
        let '(first, next) := split_pages pages in (first, page :: next)
      else (Some page, pages)
  end.

(** Load the remaining pages and collect the URIs still to be resolved. *)
Fixpoint load_pages (uuids : nat → nat → string) (n : nat) (pages : list ContextPage) : M (list string) :=
  match pages with
  | [] => mret []
  | page :: pages => λ s,
      if decide (page_tracks page ≠ []) then
        match fill_context_from_page (uuids n) page s with
        | Val (s', _) => load_pages uuids (S n) pages s'
        | Panic => Panic
        end
      else
        let found := match page_url page with
                     | Some url => if decide (url ≠ EmptyString) then [page_url_to_uri url] else []
                     | None => []
                     end in
        match load_pages uuids (S n) pages s with
        | Val (s', Ok rest) => Val (s', Ok (found ++ rest))
        | other => other
        end
  end.

(** When the same context is loaded again, try to keep the position. *)
Definition keep_position (new_uri : option string) (new_context : StateContext) s
    : exec (StateContext * ConnectState) :=
  if negb (starts_with SEARCH_IDENTIFIER (context_uri s)) && bool_decide (new_uri = Some (context_uri s)) then
    found ← find_last_index_in_new_context new_context s;
    match found with
    | None => Val (new_context, s)
    | Some new_index =>
        let '(i, s) := match new_index with
                       | Ok i => (i, s)
                       | Err i => (i, player_mut (λ p, p <| ps_index := None |>) s)
                       end in
        let s := context_mut Autoplay (λ c, c <| index ::= λ i, i <| ci_track := 0%Z |> |>) s in
        Val (new_context <| index ::= λ x, x <| ci_track := i |> |>, clear_next_tracks s)
    end
  else Val (new_context, s).

(** The [ContextType::Default] arm of [update_context]. *)
Definition update_default_context (uuids : nat → string) (ctx : Context) (page : ContextPage) s
    : exec ConnectState :=
  new_context ← state_context_from_page uuids page (ctx_metadata ctx) (ctx_restrictions ctx) (ctx_uri ctx)
                  (Some 0) None s;
  '(new_context, s) ← keep_position (ctx_uri ctx) new_context s;
  let s := s <| context := Some new_context |> in
  let url := match ctx_url ctx with
             | Some url => if str_contains SEARCH_IDENTIFIER url then EmptyString else url
             | None => EmptyString
             end in
  Val (player_mut (λ p, p <| ps_context_url := url |> <| ps_context_uri := unwrap_or_default (ctx_uri ctx) |>) s).

(** The [ContextType::Autoplay] arm. *)
Definition update_autoplay_context (uuids : nat → string) (ctx : Context) (page : ContextPage) s
    : exec ConnectState :=
  new ← state_context_from_page uuids page (ctx_metadata ctx) (ctx_restrictions ctx) (ctx_uri ctx) None
          (Some PAutoplay) s;
  Val (s <| autoplay_context := Some new |>).

Definition is_local_files (ctx : Context) : bool :=
  match ctx_uri ctx with Some u => starts_with LOCAL_FILES_IDENTIFIER u | None => false end.

Definition update_context (uuids : nat → nat → string) (ctx : Context) (ty : ContextType)
    : M (option (list string)) := λ s,
  if decide (Forall (λ p, page_tracks p = []) (ctx_pages ctx)) then
    Val (s, Err (EState ContextHasNoTracks))
  else if is_local_files ctx then Val (s, Err (EState UnsupportedLocalPlayback))
  else
    let '(first_page, next_contexts) := split_pages (ctx_pages ctx) in
    match first_page with
    | None => Val (s, Err (EState ContextHasNoTracks))
    | Some page =>
        s ← (match ty with
             | Default => update_default_context (uuids 0) ctx page s
             | Autoplay => update_autoplay_context (uuids 0) ctx page s
             end);
        if decide (next_contexts = []) then Val (s, Ok None)
        else
          match load_pages uuids 1 next_contexts s with
          | Val (s, Ok l) => Val (s, Ok (Some l))
          | Val (s, Err e) => Val (s, Err e)
          | Panic => Panic
          end
    end.

(** *** Merging *)

Definition merge_track (new_track : ContextTrack) (ctx : StateContext) : StateContext :=
  let new_track_uri := unwrap_or_default (ct_uri new_track) in
  if decide (new_track_uri = EmptyString) then ctx
  else match find_index_in_context ctx (λ t, bool_decide (uri t = new_track_uri)) with
       | Err _ => ctx
       | Ok position =>
           track_list_mut (alter (λ t,
             let t := metadata_mut (λ m, ct_metadata new_track ∪ m) t in
             match ct_uid new_track with Some uid' => t <| uid := uid' |> | None => t end) position) ctx
       end.

Definition merge_context (new_page : option ContextPage) s : option () * ConnectState :=
  match context s, new_page with
  | Some ctx, Some page =>
      (Some (), s <| context := Some (foldl (λ c t, merge_track t c) ctx (page_tracks page)) |>)
  | _, _ => (None, s)
  end.
End context.
