(* ===== verification/ConnectState.v ===== *)
(** * Playback order: [tracks.rs], [state.rs], [options.rs], [handle.rs], [transfer.rs]

    The operations of the connect state that combine the track lists with the
    contexts: filling up the next tracks, skipping forwards and backwards,
    starting at a position, shuffling, and taking over a playback from another
    device. *)

From S2P Require Import Prelude Digits Text SpotifyId SpotifyUri Protocol ShuffleVec StateMonad.
From S2P Require Import ConnectData ConnectQueue ConnectContext.

Local Open Scope string_scope.
Local Open Scope list_scope.
Local Open Scope nat_scope.

Section ops.
Context `{DefaultHasher}.
Implicit Types s : ConnectState.

Definition lift_state {A} (r : result A StateError) : M A :=
  match r with Ok a => mret a | Err e => st_throw (EState e) end.
Definition get_context_m (ty : ContextType) : M StateContext :=
  s ← st_get; lift_state (get_context ty s).
Definition push_next (t : ProvidedTrack) : M () := st_modify (next_tracks_mut (λ l, l ++ [t])).

(** ** Filling up the next tracks *)

(** The loop of [fill_up_next_tracks]; the result is the final [new_index].
    Running out of fuel is shown not to happen. *)
Fixpoint fill_loop (fuel : nat) (new_index : nat) (iteration : Z) : M nat :=
  match fuel with
  | O => st_panic
  | S fuel =>
      s ← st_get;
      if decide (length (next_tracks s) < SPOTIFY_MAX_NEXT_TRACKS_SIZE) then
        ctx ← get_context_m (fill_up_context s);
        match track_list ctx !! new_index with
        | None =>
            if repeat_context s then
              match uadd u32_max iteration 1 with
              | Val iteration' => _ ← push_next (new_delimiter iteration); fill_loop fuel 0 iteration'
              | Panic => st_panic
              end
            else if decide (fill_up_context s ≠ Autoplay ∧ is_Some (autoplay_context s)) then
              _ ← update_context_index (fill_up_context s) new_index;
              _ ← st_modify (λ s, s <| fill_up_context := Autoplay |>);
              auto ← get_context_m Autoplay;
              _ ← push_next (new_delimiter iteration);
              fill_loop fuel (Z.to_nat (ci_track (index auto))) iteration
            else if decide (is_Some (autoplay_context s)) then
              auto ← get_context_m Autoplay;
              match track_list auto !! new_index with
              | None => mret new_index
              | Some ct => _ ← push_next ct; fill_loop fuel (S new_index) iteration
              end
            else mret new_index
        | Some ct =>
            if is_unavailable ct || is_skip_track ct (Some iteration) s
            then fill_loop fuel (S new_index) iteration
            else _ ← push_next ct; fill_loop fuel (S new_index) iteration
        end
      else mret new_index
  end.

Definition context_len (o : option StateContext) : nat :=
  match o with Some c => length (track_list c) | None => 0 end.
Definition fill_fuel s : nat :=
  (SPOTIFY_MAX_NEXT_TRACKS_SIZE + 2) * (context_len (context s) + context_len (autoplay_context s) + 2).

Definition fill_up_next_tracks : M () :=
  s ← st_get;
  ctx ← get_context_m (fill_up_context s);
  new_index ← fill_loop (fill_fuel s) (Z.to_nat (ci_track (index ctx))) (ci_page (index ctx));
  s ← st_get;
  _ ← update_context_index (fill_up_context s) new_index;
  st_modify update_queue_revision.

(** ** The current track *)

Definition set_current_track (i : nat) : M () :=
  s ← st_get;
  ctx ← get_context_m (active_context s);
  match track_list ctx !! i with
  | None => st_throw (EState (CanNotFindTrackInContext (Some i) (length (track_list ctx))))
  | Some new_track =>
      st_modify (λ s, update_current_index (λ x, x <| ci_track := wrapu 32 (Z.of_nat i) |>) (set_track new_track s))
  end.

(** [random_range] draws from [0..n] and panics on the empty range. *)
Definition set_current_track_random (random_range : nat → nat) : M () :=
  s ← st_get;
  ctx ← get_context_m (active_context s);
  let max_tracks := length (track_list ctx) in
  if decide (max_tracks = 0) then st_panic else set_current_track (random_range max_tracks).

(** The loop of [next_track] that looks for a playable track; [l] is the list
    of next tracks. *)
Fixpoint next_loop (l : list ProvidedTrack) s : option ProvidedTrack * ConnectState :=
  match l with
  | [] => (None, s)
  | next :: l =>
      let s := next_tracks_mut tail s in
      if is_delimiter next then next_loop l (push_prev next s)
      else if is_unavailable next then next_loop l s
      else (Some next, s)
  end.

Definition take_track s : option ProvidedTrack * ConnectState :=
  (ps_track (player s), player_mut (λ p, p <| ps_track := None |>) s).

(** The old track goes to the previous tracks when it comes from a context. *)
Definition retire_track s : ConnectState :=
  let '(old_track, s) := take_track s in
  match old_track with
  | Some old_track => if is_context old_track || is_autoplay old_track then push_prev old_track s else s
  | None => s
  end.

(** The new track becomes the current one. *)
Definition enter_track (new_track : ProvidedTrack) s : ConnectState :=
  let '(update_index, s) :=
    if is_queue new_track then (None, s)
    else if is_autoplay new_track then (None, set_active_context Autoplay s)
    else ((λ i, wrapu 32 (Z.of_nat i)) <$> get_context_index new_track, s) in
  let s := match update_index with
           | Some update_index => update_current_index (λ i, i <| ci_track := update_index |>) s
           | None => player_mut (λ p, p <| ps_index := None |>) s
           end in
  update_restrictions (set_track new_track s).

Definition next_track : M (option Z) :=
  _ ← st_modify (λ s, if repeat_track s then set_repeat_track false s else s);
  _ ← st_modify retire_track;
  s ← st_get;
  let '(new_track, s) := next_loop (next_tracks s) s in
  _ ← st_modify (λ _, s);
  match new_track with
  | None => mret None
  | Some new_track =>
      _ ← fill_up_next_tracks;
      _ ← st_modify (enter_track new_track);
      s ← st_get;
      mret (Some (ci_track (default ContextIndex_default (ps_index (player s)))))
  end.

(** The old track goes back to the next tracks when it comes from a context. *)
Definition return_track s : ConnectState :=
  let '(old_track, s) := take_track s in
  match old_track with
  | Some old_track => if is_context old_track || is_autoplay old_track
                      then next_tracks_mut (cons old_track) s else s
  | None => s
  end.

(** A delimiter at the end of the previous tracks moves to the next tracks. *)
Definition return_delimiter s : ConnectState :=
  match last (prev_tracks s) with
  | Some delimiter =>
      if is_delimiter delimiter then
        let s := prev_tracks_mut (@removelast _) s in
        next_tracks_mut (λ l,
          delimiter :: if decide (SPOTIFY_MAX_NEXT_TRACKS_SIZE ≤ length l) then removelast l else l) s
      else s
  | None => s
  end.

Definition reenter_track (new_track : ProvidedTrack) s : ConnectState :=
  let s := set_track new_track s in
  let s := if decide (ci_track (default ContextIndex_default (ps_index (player s))) = 0%Z) then s
           else update_current_index (λ i, i <| ci_track := (ci_track i - 1)%Z |>) s in
  update_restrictions s.

Definition prev_track : M (option ProvidedTrack) :=
  _ ← st_modify return_track;
  _ ← st_modify return_delimiter;
  _ ← st_modify (next_tracks_mut (pop_while_longer SPOTIFY_MAX_NEXT_TRACKS_SIZE));
  s ← st_get;
  match last (prev_tracks s) with
  | None => mret None
  | Some new_track =>
      _ ← st_modify (prev_tracks_mut (@removelast _));
      _ ← st_modify (λ s,
        if decide (active_context s = Autoplay ∧ is_context new_track = true)
        then set_active_context Default s else s);
      _ ← fill_up_next_tracks;
      _ ← st_modify (reenter_track new_track);
      s ← st_get;
      mret (Some (current_track s))
  end.

(** [mark_unavailable] after the URI is printed. *)
Definition mark_uri_unavailable (u : string) : M () :=
  _ ← st_modify (next_tracks_mut (λ l,
    mark_as_unavailable_for_match u <$> remove_while (λ t, bool_decide (uri t = u)) l));
  _ ← st_modify (prev_tracks_mut (λ l,
    mark_as_unavailable_for_match u <$> remove_while (λ t, bool_decide (uri t = u)) l));
  _ ← st_modify (λ s, s <| unavailable_uri ::= λ l, l ++ [u] |>);
  _ ← fill_up_next_tracks;
  st_modify update_queue_revision.

Definition mark_unavailable (id : SpotifyUri) : M () := λ s,
  match to_uri id with
  | Panic => Panic
  | Val u => mark_uri_unavailable u s
  end.

(** ** Starting at a position *)

(** The tracks before the new position become the previous tracks. *)
Definition load_prev_tracks (new_index : nat) : M () :=
  if decide (0 < new_index) then
    s ← st_get;
    ctx ← get_context_m (active_context s);
    match usub (Z.of_nat (length (track_list ctx))) (Z.of_nat new_index) with
    | Panic => st_panic
    | Val before_new_track =>
        st_modify (prev_tracks_mut (λ _,
          rev (take SPOTIFY_MAX_PREV_TRACKS_SIZE
                 (drop (Z.to_nat before_new_track) (rev (track_list ctx))))))
    end
  else mret ().

Definition reset_playback_to_position (new_index : option nat) : M () :=
  let new_index := default 0 new_index in
  _ ← st_modify (update_current_index (λ i, i <| ci_track := wrapu 32 (Z.of_nat new_index) |>));
  s ← st_get;
  match uadd usize_max (Z.of_nat new_index) 1 with
  | Panic => st_panic
  | Val _ =>
      _ ← update_context_index (active_context s) (new_index + 1);
      _ ← st_modify (λ s, s <| fill_up_context := active_context s |>);
      s ← st_get;
      _ ← (if negb (is_queue (current_track s) || is_skip_track (current_track s) None s)
           then set_current_track new_index else mret ());
      _ ← st_modify clear_prev_track;
      _ ← load_prev_tracks new_index;
      _ ← st_modify clear_next_tracks;
      _ ← fill_up_next_tracks;
      st_modify update_restrictions
  end.

(** ** Shuffling *)

Section shuffle.
Context `{Rng R}.

Definition shuffle (seed : Z) (initial_track : string) : M () :=
  _ ← st_modify clear_prev_track;
  _ ← st_modify clear_next_tracks;
  _ ← st_exec (reset_context DefaultIndex);
  ctx ← get_context_m Default;
  _ ← (λ s, match shuffle_with_seed (R:=R) seed (λ f, bool_decide (uri f = initial_track)) (tracks ctx) with
            | Panic => Panic
            | Val v =>
                let ctx := set_shuffle_seed seed (set_initial_track initial_track (ctx <| tracks := v |>)) in
                Val (s <| context := Some ctx |>, Ok ())
            end);
  fill_up_next_tracks.

Definition shuffle_restore (shuffle_state : ShuffleState) : M () :=
  s ← st_get;
  _ ← lift_state (validate_shuffle_allowed s);
  shuffle (ss_seed shuffle_state) (ss_initial_track shuffle_state).

(** [new_seed] is the random seed drawn. *)
Definition shuffle_new (new_seed : Z) : M () :=
  s ← st_get;
  _ ← lift_state (validate_shuffle_allowed s);
  shuffle new_seed (uri (current_track s)).

(** ** Commands *)

Definition handle_shuffle (new_seed : Z) (on : bool) : M () :=
  _ ← st_modify (set_shuffle on);
  if on then shuffle_new new_seed
  else
    _ ← st_exec (reset_context DefaultIndex);
    s ← st_get;
    match ps_track (player s) with
    | None => mret ()
    | Some t =>
        match get_context_index t with
        | Some current_index => reset_playback_to_position (Some current_index)
        | None =>
            ctx ← get_context_m Default;
            current_index ← lift_state (find_index_in_context ctx (λ c, bool_decide (uri c = uri t)));
            reset_playback_to_position (Some current_index)
        end
    end.

Definition handle_set_repeat_context (repeat : bool) : M () :=
  _ ← st_modify (set_repeat_context repeat);
  _ ← st_modify (λ s, if repeat then
                        if decide (fill_up_context s = Autoplay) then s <| fill_up_context := Default |> else s
                      else s);
  s ← st_get;
  ctx ← get_context_m Default;
  current_index ← lift_state (find_index_in_context ctx (λ t, bool_decide (uri (current_track s) = uri t)));
  reset_playback_to_position (Some current_index).

(** ** Transfers *)

Definition is_playing_queue (transfer : TransferState) : bool :=
  default false (q_is_playing_queue (default Queue_default (tr_queue transfer))).

Definition current_track_from_transfer (uuid : string) (transfer : TransferState) s
    : exec (result ProvidedTrack ConnectError) :=
  let track := if is_playing_queue transfer
               then head (q_tracks (default Queue_default (tr_queue transfer)))
               else pb_current_track (default Playback_default (tr_playback transfer)) in
  match track with
  | None => Val (Err (EState CouldNotResolveTrackFromTransfer))
  | Some track =>
      context_to_provided_track uuid track
        (se ← tr_current_session transfer; c ← se_context se; ctx_uri c) None None
        (if is_playing_queue transfer then Some PQueue else None) s
  end.

Definition UNKNOWN_URI : string := "spotify:unknown".

(** [take()] on the fields of the transfer that are moved out. *)
Definition taken_session (se : Session) : Session := mkSession None None (se_current_uid se) None.

(** The player state after the playback part of a transfer. *)
Definition transfer_playback (transfer : TransferState) (p : PlayerState) : PlayerState :=
  let playback := default Playback_default (tr_playback transfer) in
  let p := p <| ps_is_buffering := false |> in
  let p := match tr_options transfer with
           | Some options => p <| ps_options := Some (options_into_player options) |>
           | None => p
           end in
  let p := p <| ps_is_paused := default false (pb_is_paused playback) |> in
  let p := p <| ps_is_playing := negb (ps_is_paused p) |> in
  match pb_playback_speed playback with
  | Some speed => if f64_nonzero speed then p <| ps_playback_speed := speed |>
                  else p <| ps_playback_speed := f64_one |>
  | None => p <| ps_playback_speed := f64_one |>
  end.

(** The player state after the session part. *)
Definition transfer_session (session : option Session) (p : PlayerState) : PlayerState :=
  match session with
  | Some se =>
      let p := p <| ps_play_origin := play_origin_into_player <$> se_play_origin se |>
                 <| ps_suppressions := suppressions_into_player <$> se_suppressions se |> in
      match se_context se with
      | Some ctx =>
          p <| ps_restrictions := restrictions_into_player <$> ctx_restrictions ctx |>
            <| ps_context_metadata ::= λ m, ctx_metadata ctx ∪ m |>
      | None => p
      end
  | None => p
  end.

Definition handle_initial_transfer (transfer : TransferState) (ctx_uri : option string) s
    : TransferState * ConnectState :=
  let current_context_metadata := sc_metadata <$> context s in
  let session := tr_current_session transfer in
  let session_context := se ← session; se_context se in
  let shuffle_seed := c ← session_context; v ← get_shuffle_seed c; result_ok (parse_uint u64_max v) in
  let initial_track := c ← session_context; get_initial_track c in
  let u := default UNKNOWN_URI ctx_uri in
  let s := player_mut (λ p,
    let p := transfer_session session (transfer_playback transfer p) in
    let p := p <| ps_context_url := "context://" +:+ u |> <| ps_context_uri := u |> in
    match current_context_metadata with
    | Some m => p <| ps_context_metadata ::= λ m', m ∪ m' |>
    | None => p
    end) s in
  let s := s <| transfer_shuffle :=
    match shuffle_seed, initial_track with
    | Some seed, Some initial_track => Some (mkShuffleState seed initial_track)
    | _, _ => None
    end |> in
  (mkTransferState None (tr_playback transfer) (taken_session <$> session) (tr_queue transfer),
   update_queue_revision (clear_next_tracks (clear_prev_track s))).

(** The queue loop of [finish_transfer]. *)
Fixpoint queue_transferred (uuids : nat → string) (playing_queue : bool) (i : nat) (l : list ContextTrack)
    : M () :=
  match l with
  | [] => mret ()
  | track :: l =>
      if decide (playing_queue ∧ i = 0) then queue_transferred uuids playing_queue (S i) l
      else λ s,
        match context_to_provided_track (uuids i) track (Some (context_uri s)) None None (Some PQueue) s with
        | Panic => Panic
        | Val (Err _) => queue_transferred uuids playing_queue (S i) l s
        | Val (Ok queued_track) =>
            match add_to_queue queued_track false s with
            | Panic => Panic
            | Val s => queue_transferred uuids playing_queue (S i) l s
            end
        end
  end.

(** The position of the transferred track in the context. *)
Definition transfer_index (transfer : TransferState) (track : ProvidedTrack) (ctx : StateContext)
    : result nat StateError :=
  let by_track := find_index_in_context ctx
                    (λ c, bool_decide (uri c = uri track) || bool_decide (uid c = uid track)) in
  match (se ← tr_current_session transfer; se_current_uid se) with
  | Some u =>
      if is_queue track then
        match find_index_in_context ctx (λ c, bool_decide (uid c = u)) with
        | Ok i => Ok (if decide (0 < i) then i - 1 else i)
        | Err e => Err e
        end
      else by_track
  | None => by_track
  end.

Definition finish_transfer (uuid : string) (uuids : nat → string) (new_seed : Z) (transfer : TransferState) : M () :=
  s ← st_get;
  track ← (match ps_track (player s) with
           | Some track => mret track
           | None => λ s, match current_track_from_transfer uuid transfer s with
                          | Panic => Panic
                          | Val r => Val (s, r)
                          end
           end);
  let context_ty := if is_from_autoplay (current_track s) then Autoplay else Default in
  _ ← st_modify (set_active_context context_ty);
  _ ← st_modify (λ s, s <| fill_up_context := context_ty |>);
  s ← st_get;
  ctx ← get_context_m (active_context s);
  let current_index := transfer_index transfer track ctx in
  _ ← st_modify (λ s, match ps_track (player s) with None => set_track track s | Some _ => s end);
  let current_index := result_ok current_index in
  _ ← st_modify (λ s, match current_index with
                      | Some i => update_current_index (λ x, x <| ci_track := wrapu 32 (Z.of_nat i) |>) s
                      | None => s
                      end);
  _ ← queue_transferred uuids (is_playing_queue transfer) 0 (q_tracks (default Queue_default (tr_queue transfer)));
  s ← st_get;
  _ ← (if shuffling_context s then
         _ ← set_current_track (default 0 current_index);
         _ ← st_modify (set_shuffle true);
         s ← st_get;
         _ ← st_modify (λ s, s <| transfer_shuffle := None |>);
         match transfer_shuffle s with
         | None => shuffle_new new_seed
         | Some state => shuffle_restore state
         end
       else reset_playback_to_position current_index);
  st_modify update_restrictions.
End shuffle.

(** [became_inactive], up to the network call. *)
Definition became_inactive s : exec ConnectState := reset_context Completely (reset s).
End ops.
