(* ===== verification/ConnectFill.v ===== *)
(** * What [fill_up_next_tracks] appends

    The loop is related to a reference: the sequence of tracks still to be
    played, computed from the contexts alone.  Filling up appends the first
    part of that sequence, as much as the list has room for. *)

From S2P Require Import Prelude Digits Text SpotifyId SpotifyUri Protocol ShuffleVec StateMonad.
From S2P Require Import ConnectData ConnectQueue ConnectContext ConnectState.

Local Open Scope string_scope.
Local Open Scope list_scope.
Local Open Scope nat_scope.

Section fill.
Context `{DefaultHasher}.
Implicit Types (s : ConnectState) (l : list ProvidedTrack).

(** Tracks that the fill-up keeps. *)
Definition kept s (iteration : Z) (t : ProvidedTrack) : Prop :=
  is_unavailable t || is_skip_track t (Some iteration) s = false.
#[global] Instance kept_dec s iteration t : Decision (kept s iteration t).
Proof. unfold kept. apply _. Defined.

Definition kept_tracks s (iteration : Z) l : list ProvidedTrack := filter (kept s iteration) l.

Definition room s : nat := SPOTIFY_MAX_NEXT_TRACKS_SIZE - length (next_tracks s).

(** Appending to the next tracks changes nothing else. *)
Definition push_all l s : ConnectState := next_tracks_mut (λ x, x ++ l) s.

Lemma push_all_nil s : push_all [] s = s.
Proof.
  unfold push_all, next_tracks_mut, player_mut. destruct s as [q]. destruct q as [? ? ? ? ? ? ? p].
  destruct p. simpl. by rewrite app_nil_r.
Qed.
Lemma push_all_app l1 l2 s : push_all l2 (push_all l1 s) = push_all (l1 ++ l2) s.
Proof. unfold push_all, next_tracks_mut, player_mut. simpl. by rewrite app_assoc. Qed.
Lemma push_all_next l s : next_tracks (push_all l s) = next_tracks s ++ l.
Proof. done. Qed.

(** One step of the loop. *)
Lemma fill_loop_full fuel i it s :
  SPOTIFY_MAX_NEXT_TRACKS_SIZE ≤ length (next_tracks s) → fill_loop (S fuel) i it s = Val (s, Ok i).
Proof. intros. cbn [fill_loop]. rewrite st_get_bind, decide_False by lia. done. Qed.

Lemma get_context_m_Some ty s ctx : context_of ty s = Some ctx → get_context_m ty s = Val (s, Ok ctx).
Proof. intros Hctx. unfold get_context_m, get_context. by rewrite st_get_bind, Hctx. Qed.

Lemma get_context_m_None ty s : context_of ty s = None → get_context_m ty s = Val (s, Err (EState (NoContext ty))).
Proof. intros Hctx. unfold get_context_m, get_context. by rewrite st_get_bind, Hctx. Qed.

Lemma fill_loop_track fuel i it s ctx t :
  length (next_tracks s) < SPOTIFY_MAX_NEXT_TRACKS_SIZE →
  context_of (fill_up_context s) s = Some ctx → track_list ctx !! i = Some t →
  fill_loop (S fuel) i it s =
  fill_loop fuel (S i) it (if decide (kept s it t) then push_all [t] s else s).
Proof.
  intros Hroom Hctx Ht. cbn [fill_loop]. rewrite st_get_bind, decide_True by done.
  rewrite (st_bind_Ok _ _ _ _ _ (get_context_m_Some _ _ _ Hctx)), Ht.
  case_decide as Hk; unfold kept in Hk.
  - rewrite Hk. apply st_modify_bind.
  - by destruct (is_unavailable t || is_skip_track t (Some it) s).
Qed.

Lemma kept_tracks_push l' s it l : kept_tracks (push_all l' s) it l = kept_tracks s it l.
Proof. done. Qed.
Lemma kept_tracks_cons s it t l :
  kept_tracks s it (t :: l) = if decide (kept s it t) then t :: kept_tracks s it l else kept_tracks s it l.
Proof. apply filter_cons. Qed.

(** The loop over one context, up to its end or until the list is full. *)
Lemma fill_loop_phase it ctx : ∀ n i fuel s,
  context_of (fill_up_context s) s = Some ctx → length (track_list ctx) - i = n → n < fuel →
  length (next_tracks s) ≤ SPOTIFY_MAX_NEXT_TRACKS_SIZE →
  let todo := kept_tracks s it (drop i (track_list ctx)) in
  (room s ≤ length todo ∧ ∃ i', fill_loop fuel i it s = Val (push_all (take (room s) todo) s, Ok i') ∧
     i ≤ i' ≤ i + n ∧ kept_tracks s it (drop i' (track_list ctx)) = drop (room s) todo) ∨
  (length todo < room s ∧
     fill_loop fuel i it s = fill_loop (fuel - n) (i + n) it (push_all todo s) ∧
     track_list ctx !! (i + n) = None).
Proof.
  induction n as [|n IH]; intros i fuel s Hctx Hn Hfuel Hle todo.
  - assert (todo = []) as Htodo by (unfold todo; rewrite drop_ge by lia; done).
    rewrite Htodo. simpl. destruct (decide (room s = 0)) as [Hr|Hr].
    + left. split; [lia|]. exists i. rewrite Hr. destruct fuel as [|fuel]; [lia|].
      rewrite push_all_nil. split_and!; [|lia|lia|done].
      apply fill_loop_full. unfold room in Hr. lia.
    + right. split; [lia|]. rewrite push_all_nil, Nat.add_0_r, Nat.sub_0_r. split; [done|].
      apply lookup_ge_None. lia.
  - destruct (lookup_lt_is_Some_2 (track_list ctx) i) as [t Ht]; [lia|].
    destruct fuel as [|fuel]; [lia|].
    assert (todo = kept_tracks s it (t :: drop (S i) (track_list ctx))) as Htodo.
    { unfold todo. by rewrite (drop_S _ t i). }
    destruct (decide (room s = 0)) as [Hr|Hr].
    { left. split; [lia|]. exists i. rewrite Hr. simpl.
      rewrite push_all_nil. split_and!; [|lia|lia|done]. apply fill_loop_full. unfold room in Hr. lia. }
    rewrite (fill_loop_track _ _ _ _ ctx t) by (done || unfold room in Hr; lia).
    rewrite kept_tracks_cons in Htodo. destruct (decide (kept s it t)) as [Hk|Hk].
    + destruct (IH (S i) fuel (push_all [t] s)) as [(Hr' & i' & E & Hi & Hrest)|(Hr' & E & Hnone)];
        [done|lia|lia|rewrite push_all_next, length_app; simpl; unfold room in Hr; lia| |];
        rewrite kept_tracks_push in Hr', E;
        assert (room s = S (room (push_all [t] s))) as Hroom
          by (unfold room in *; rewrite push_all_next, length_app; simpl; lia);
        rewrite Htodo, Hroom.
      * left. split; [simpl; lia|]. exists i'. rewrite E, push_all_app. split_and!; [done|lia|lia|].
        by rewrite !kept_tracks_push in Hrest.
      * right. split; [simpl; lia|]. rewrite E, push_all_app. split; [f_equal; lia|].
        by rewrite <- Nat.add_succ_comm.
    + destruct (IH (S i) fuel s) as [(Hr' & i' & E & Hi & Hrest)|(Hr' & E & Hnone)]; [done|lia|lia|done| |];
        rewrite Htodo.
      * left. split; [done|]. exists i'. rewrite E. split_and!; [done|lia|lia|done].
      * right. split; [done|]. rewrite E. split; [f_equal; lia|]. by rewrite <- Nat.add_succ_comm.
Qed.

(** The three ways to go on at the end of a context. *)
Lemma fill_loop_end_plain fuel i it s ctx :
  length (next_tracks s) < SPOTIFY_MAX_NEXT_TRACKS_SIZE →
  context_of (fill_up_context s) s = Some ctx → track_list ctx !! i = None →
  repeat_context s = false → (fill_up_context s = Autoplay ∨ autoplay_context s = None) →
  fill_loop (S fuel) i it s = Val (s, Ok i).
Proof.
  intros Hroom Hctx Hi Hrep Hauto. cbn [fill_loop]. rewrite st_get_bind, decide_True by done.
  rewrite (st_bind_Ok _ _ _ _ _ (get_context_m_Some _ _ _ Hctx)), Hi, Hrep.
  rewrite decide_False by (intros [? [? ?]]; destruct Hauto; congruence).
  case_decide as Hs; [|done]. destruct Hauto as [Hauto|Hauto]; [|rewrite Hauto in Hs; by destruct Hs].
  rewrite Hauto in Hctx. by rewrite (st_bind_Ok _ _ _ _ _ (get_context_m_Some _ _ _ Hctx)), Hi.
Qed.

Definition set_context_track (i : nat) (ctx : StateContext) : StateContext :=
  ctx <| index ::= λ x, x <| ci_track := wrapu 32 (Z.of_nat i) |> |>.

(** The state in which the loop continues with the autoplay context. *)
Definition switch_to_autoplay (i : nat) s : ConnectState :=
  s <| context ::= fmap (set_context_track i) |> <| fill_up_context := Autoplay |>.

Lemma fill_loop_end_switch fuel i it s ctx auto :
  length (next_tracks s) < SPOTIFY_MAX_NEXT_TRACKS_SIZE → fill_up_context s = Default →
  context s = Some ctx → track_list ctx !! i = None → repeat_context s = false →
  autoplay_context s = Some auto →
  fill_loop (S fuel) i it s =
  fill_loop fuel (Z.to_nat (ci_track (index auto))) it (push_all [new_delimiter it] (switch_to_autoplay i s)).
Proof.
  intros Hroom Hf Hctx Hi Hrep Hauto. cbn [fill_loop]. rewrite st_get_bind, decide_True, Hf by done.
  rewrite (st_bind_Ok _ _ _ _ _ (get_context_m_Some Default _ _ Hctx)), Hi, Hrep.
  rewrite decide_True by (split; [done|by eexists]).
  assert (update_context_index Default i s = Val (s <| context ::= fmap (set_context_track i) |>, Ok ())) as E.
  { unfold update_context_index. rewrite st_get_bind. cbn [context_of]. rewrite Hctx. reflexivity. }
  rewrite (st_bind_Ok _ _ _ _ _ E), st_modify_bind.
  assert (context_of Autoplay (switch_to_autoplay i s) = Some auto) as Ha by done.
  rewrite (st_bind_Ok _ _ _ _ _ (get_context_m_Some _ _ _ Ha)). apply st_modify_bind.
Qed.

Lemma fill_loop_end_repeat fuel i it s ctx :
  length (next_tracks s) < SPOTIFY_MAX_NEXT_TRACKS_SIZE →
  context_of (fill_up_context s) s = Some ctx → track_list ctx !! i = None →
  repeat_context s = true → (it < u32_max)%Z →
  fill_loop (S fuel) i it s = fill_loop fuel 0 (it + 1) (push_all [new_delimiter it] s).
Proof.
  intros Hroom Hctx Hi Hrep Hit. cbn [fill_loop]. rewrite st_get_bind, decide_True by done.
  rewrite (st_bind_Ok _ _ _ _ _ (get_context_m_Some _ _ _ Hctx)), Hi, Hrep, uadd_Val by lia.
  apply st_modify_bind.
Qed.

Lemma room_push_all l s : room (push_all l s) = room s - length l.
Proof. unfold room. rewrite push_all_next, length_app. lia. Qed.

Lemma room_pos s : 0 < room s → length (next_tracks s) < SPOTIFY_MAX_NEXT_TRACKS_SIZE.
Proof. unfold room. lia. Qed.

(** A context that is played to its end. *)
Lemma fill_loop_plain fuel i it s ctx :
  context_of (fill_up_context s) s = Some ctx → length (track_list ctx) - i + 1 < fuel →
  length (next_tracks s) ≤ SPOTIFY_MAX_NEXT_TRACKS_SIZE →
  repeat_context s = false → (fill_up_context s = Autoplay ∨ autoplay_context s = None) →
  let todo := kept_tracks s it (drop i (track_list ctx)) in
  ∃ i', fill_loop fuel i it s = Val (push_all (take (room s) todo) s, Ok i') ∧
    i' ≤ i `max` length (track_list ctx) ∧
    kept_tracks s it (drop i' (track_list ctx)) = drop (room s) todo.
Proof.
  intros Hctx Hfuel Hle Hrep Hauto todo.
  destruct (fill_loop_phase it ctx _ i fuel s Hctx eq_refl) as [(Hr & i' & E & Hi & Hrest)|(Hr & E & Hnone)];
    [lia|done| |].
  - exists i'. split_and!; [done|lia|done].
  - fold todo in Hr, E. eexists. rewrite E.
    destruct (fuel - (length (track_list ctx) - i)) as [|fuel'] eqn:Ef; [lia|].
    rewrite (fill_loop_end_plain _ _ _ _ ctx); [|by apply room_pos; rewrite room_push_all; lia|done..].
    split_and!; [by rewrite take_ge by lia|lia|].
    rewrite !drop_ge by lia. done.
Qed.

(** The tracks that repeat mode goes through: the rest of the context, a
    delimiter, the whole context, a delimiter, and so on. *)
Fixpoint repeat_stream s (ts : list ProvidedTrack) (rounds : nat) (it : Z) (i : nat) : list ProvidedTrack :=
  kept_tracks s it (drop i ts) ++ new_delimiter it ::
  match rounds with
  | O => []
  | S rounds => repeat_stream s ts rounds (it + 1) 0
  end.

Lemma repeat_stream_push l s ts rounds it i :
  repeat_stream (push_all l s) ts rounds it i = repeat_stream s ts rounds it i.
Proof. revert it i. induction rounds as [|n IH]; intros it i; simpl; [done|]. by rewrite IH. Qed.

Lemma fill_loop_repeat ctx : ∀ r rounds fuel i it s,
  room s = r → r ≤ rounds → context_of (fill_up_context s) s = Some ctx →
  (r + 1) * (length (track_list ctx) + 2) + (length (track_list ctx) - i) < fuel →
  length (next_tracks s) ≤ SPOTIFY_MAX_NEXT_TRACKS_SIZE →
  repeat_context s = true → (it + Z.of_nat r ≤ u32_max)%Z →
  ∃ i', fill_loop fuel i it s =
      Val (push_all (take (room s) (repeat_stream s (track_list ctx) rounds it i)) s, Ok i') ∧
    i' ≤ i `max` length (track_list ctx).
Proof.
  induction r as [r IH] using lt_wf_ind.
  intros rounds fuel i it s Hroom Hrounds Hctx Hfuel Hle Hrep Hit.
  destruct (fill_loop_phase it ctx _ i fuel s Hctx eq_refl) as [(Hr & i' & E & Hi & _)|(Hr & E & Hnone)];
    [nia|done| |].
  - exists i'. rewrite E. split; [|lia]. destruct rounds; simpl; by rewrite take_app_le by lia.
  - set (todo := kept_tracks s it (drop i (track_list ctx))) in *.
    destruct (fuel - (length (track_list ctx) - i)) as [|fuel'] eqn:Ef; [nia|].
    rewrite E, (fill_loop_end_repeat _ _ _ _ ctx);
      [|apply room_pos; rewrite room_push_all; lia|done|done|done|lia].
    rewrite push_all_app. set (s1 := push_all (todo ++ [new_delimiter it]) s).
    assert (room s1 = room s - length todo - 1) as Hroom1.
    { unfold s1. rewrite room_push_all, length_app. simpl. lia. }
    destruct rounds as [|rounds]; [lia|].
    destruct (IH (room s1) ltac:(lia) rounds fuel' 0 (it + 1)%Z s1) as (i' & E' & Hi');
      [done|lia|done|nia|unfold s1; rewrite push_all_next, length_app, length_app; unfold room in *; simpl; lia
      |done|lia|].
    exists i'. rewrite E'. split; [|lia]. do 2 f_equal. unfold s1 at 3. rewrite push_all_app.
    f_equal. unfold s1. rewrite repeat_stream_push. cbn [repeat_stream]. fold todo.
    rewrite take_app_ge by lia. rewrite <- app_assoc. f_equal. simpl.
    replace (room s - length todo) with (S (room s1)) by lia. simpl. by unfold s1.
Qed.

Lemma kept_tracks_switch i s it l : kept_tracks (switch_to_autoplay i s) it l = kept_tracks s it l.
Proof.
  unfold kept_tracks. apply list_filter_iff. intros t. unfold kept, is_skip_track. simpl.
  destruct (active_context s); simpl; [|done]. by destruct (context s).
Qed.

Lemma room_switch i s : room (switch_to_autoplay i s) = room s.
Proof. done. Qed.

(** The default context, with the autoplay context to follow. *)
Lemma fill_loop_autoplay fuel i it s ctx auto :
  fill_up_context s = Default → context s = Some ctx → autoplay_context s = Some auto →
  repeat_context s = false → length (next_tracks s) ≤ SPOTIFY_MAX_NEXT_TRACKS_SIZE →
  (length (track_list ctx) - i) + length (track_list auto) + 4 < fuel →
  let todo := kept_tracks s it (drop i (track_list ctx)) in
  let auto_todo := kept_tracks s it (drop (Z.to_nat (ci_track (index auto))) (track_list auto)) in
  (∃ i', fill_loop fuel i it s = Val (push_all (take (room s) todo) s, Ok i') ∧ room s ≤ length todo ∧
     i' ≤ i `max` length (track_list ctx) ∧
     kept_tracks s it (drop i' (track_list ctx)) = drop (room s) todo) ∨
  (∃ k i', fill_loop fuel i it s =
       Val (push_all (take (room s) (todo ++ new_delimiter it :: auto_todo)) (switch_to_autoplay k s), Ok i') ∧
     length todo < room s ∧ i' ≤ Z.to_nat (ci_track (index auto)) `max` length (track_list auto) ∧
     kept_tracks s it (drop i' (track_list auto)) = drop (room s) (todo ++ new_delimiter it :: auto_todo)).
Proof.
  intros Hf Hctx Hauto Hrep Hle Hfuel todo auto_todo.
  assert (context_of (fill_up_context s) s = Some ctx) as Hof by by rewrite Hf.
  destruct (fill_loop_phase it ctx _ i fuel s Hof eq_refl) as [(Hr & i' & E & Hi & Hrest)|(Hr & E & Hnone)];
    [lia|done| |].
  { left. exists i'. split_and!; [done|done|lia|done]. }
  right. fold todo in Hr, E. set (n := length (track_list ctx) - i) in *.
  destruct (fuel - n) as [|fuel'] eqn:Ef; [lia|].
  rewrite E, (fill_loop_end_switch _ _ _ _ ctx auto);
    [|apply room_pos; rewrite room_push_all; lia|done..].
  set (s1 := push_all _ _). exists (i + n).
  assert (s1 = push_all (todo ++ [new_delimiter it]) (switch_to_autoplay (i + n) s)) as Hs1.
  { unfold s1. rewrite <- push_all_app. done. }
  assert (room s1 = room s - length todo - 1) as Hroom1.
  { rewrite Hs1, room_push_all, length_app, room_switch. simpl. lia. }
  destruct (fill_loop_plain fuel' (Z.to_nat (ci_track (index auto))) it s1 auto) as (i' & E' & Hi' & Hrest');
    [by rewrite Hs1|lia| |by rewrite Hs1|rewrite Hs1; by left|].
  { rewrite Hs1, push_all_next, !length_app. unfold room in *. simpl. change (next_tracks (switch_to_autoplay _ s)) with (next_tracks s). lia. }
  assert (∀ l, kept_tracks s1 it l = kept_tracks s it l) as Hk.
  { intros l. rewrite Hs1, kept_tracks_push. apply kept_tracks_switch. }
  rewrite Hk in E'. do 2 rewrite Hk in Hrest'. fold auto_todo in E', Hrest'.
  exists i'. rewrite E'. split_and!; [|done|done|].
  - do 2 f_equal. rewrite Hs1 at 2. rewrite push_all_app. f_equal. rewrite take_app_ge by lia.
    rewrite <- app_assoc. f_equal. replace (room s - length todo) with (S (room s1)) by lia. reflexivity.
  - rewrite Hrest', drop_app_ge by lia. replace (room s - length todo) with (S (room s1)) by lia. reflexivity.
Qed.

(** ** The whole operation *)

(** The tracks still to be played after the next tracks. *)
Definition stream s : list ProvidedTrack :=
  match context_of (fill_up_context s) s with
  | None => []
  | Some ctx =>
      let i := Z.to_nat (ci_track (index ctx)) in
      let it := ci_page (index ctx) in
      if repeat_context s then repeat_stream s (track_list ctx) (room s) it i
      else
        let todo := kept_tracks s it (drop i (track_list ctx)) in
        match fill_up_context s, autoplay_context s with
        | Default, Some auto =>
            todo ++ new_delimiter it ::
              kept_tracks s it (drop (Z.to_nat (ci_track (index auto))) (track_list auto))
        | _, _ => todo
        end
  end.

(** What a context keeps, and what the state keeps, in a fill-up. *)
Definition same_context (c c' : StateContext) : Prop :=
  tracks c' = tracks c ∧ sc_metadata c' = sc_metadata c ∧ sc_restrictions c' = sc_restrictions c ∧
  ci_page (index c') = ci_page (index c) ∧
  (ci_track (index c') = ci_track (index c) ∨ (0 ≤ ci_track (index c') ≤ u32_max)%Z).
Definition fill_frame s s' : Prop :=
  ∃ added rev c a f,
    s' = player_mut (λ p, p <| ps_next_tracks ::= λ x, x ++ added |> <| ps_queue_revision := rev |>) s
           <| context := c |> <| autoplay_context := a |> <| fill_up_context := f |> ∧
    option_Forall2 same_context (context s) c ∧ option_Forall2 same_context (autoplay_context s) a ∧
    is_Some (match f with Default => c | Autoplay => a end).

Lemma same_context_refl c : same_context c c.
Proof. unfold same_context. split_and!; auto. Qed.
Lemma same_opt_tracks o o' : option_Forall2 same_context o o' → track_list <$> o' = track_list <$> o.
Proof. destruct 1 as [c c' (Ht & _)|]; [|done]. simpl. unfold track_list. by rewrite Ht. Qed.
Lemma same_opt_refl o : option_Forall2 same_context o o.
Proof. destruct o; constructor. apply same_context_refl. Qed.
Lemma wrapu32_bounds z : (0 ≤ wrapu 32 z ≤ u32_max)%Z.
Proof. unfold wrapu, u32_max. pose proof (Z.mod_pos_bound z (2 ^ 32)). lia. Qed.
Lemma same_context_set i c : same_context c (set_context_track i c).
Proof. unfold same_context. simpl. pose proof (wrapu32_bounds (Z.of_nat i)). split_and!; auto. Qed.
Lemma same_opt_set i o : option_Forall2 same_context o (set_context_track i <$> o).
Proof. destruct o; constructor. apply same_context_set. Qed.

(** Pages are never advanced by the program: they stay zero. *)
Definition context_ok (c : StateContext) : Prop :=
  ci_page (index c) = 0%Z ∧ (0 ≤ ci_track (index c) ≤ u32_max)%Z ∧ sv_safe (tracks c).
Definition contexts_ok s : Prop :=
  (∀ c, context s = Some c → context_ok c) ∧ (∀ c, autoplay_context s = Some c → context_ok c).

Lemma contexts_ok_of ty s c : contexts_ok s → context_of ty s = Some c → context_ok c.
Proof. intros [H1 H2]. destruct ty; simpl; auto. Qed.

Lemma update_context_index_Some ty i s c :
  context_of ty s = Some c →
  update_context_index ty i s = Val (context_mut ty (set_context_track i) s, Ok ()).
Proof.
  intros Hc. unfold update_context_index. rewrite st_get_bind, Hc. destruct ty; reflexivity.
Qed.

(** Storing the index after the loop, and the queue revision. *)
Definition fill_finish (i : nat) s : ConnectState :=
  update_queue_revision (context_mut (fill_up_context s) (set_context_track i) s).

Lemma fill_up_unfold s ctx s1 i c1 :
  context_of (fill_up_context s) s = Some ctx →
  fill_loop (fill_fuel s) (Z.to_nat (ci_track (index ctx))) (ci_page (index ctx)) s = Val (s1, Ok i) →
  context_of (fill_up_context s1) s1 = Some c1 →
  fill_up_next_tracks s = Val (fill_finish i s1, Ok ()).
Proof.
  intros Hctx E Hc1. unfold fill_up_next_tracks. rewrite st_get_bind.
  rewrite (st_bind_Ok _ _ _ _ _ (get_context_m_Some _ _ _ Hctx)), (st_bind_Ok _ _ _ _ _ E), st_get_bind.
  by rewrite (st_bind_Ok _ _ _ _ _ (update_context_index_Some _ i _ _ Hc1)).
Qed.

Lemma fill_frame_push added i s :
  is_Some (context_of (fill_up_context s) s) → fill_frame s (fill_finish i (push_all added s)).
Proof.
  intros Hs. unfold fill_finish. simpl.
  exists added, (ps_queue_revision (player (fill_finish i (push_all added s)))).
  destruct (fill_up_context s) eqn:Ef; simpl in *.
  - exists (set_context_track i <$> context s), (autoplay_context s), Default.
    split_and!; [|apply same_opt_set|apply same_opt_refl|by apply fmap_is_Some].
    destruct s; simpl in *; subst. unfold fill_finish. reflexivity.
  - exists (context s), (set_context_track i <$> autoplay_context s), Autoplay.
    split_and!; [|apply same_opt_refl|apply same_opt_set|by apply fmap_is_Some].
    destruct s; simpl in *; subst. unfold fill_finish. reflexivity.
Qed.

Lemma fill_frame_switch added k i s :
  is_Some (autoplay_context s) → fill_frame s (fill_finish i (push_all added (switch_to_autoplay k s))).
Proof.
  intros Hs. set (s' := fill_finish i _).
  exists added, (ps_queue_revision (player s')), (set_context_track k <$> context s),
    (set_context_track i <$> autoplay_context s), Autoplay.
  split_and!; [|apply same_opt_set|apply same_opt_set|by apply fmap_is_Some].
  destruct s; simpl in *. reflexivity.
Qed.

Lemma next_tracks_finish i s : next_tracks (fill_finish i s) = next_tracks s.
Proof. unfold fill_finish. by destruct (fill_up_context s). Qed.
Lemma repeat_context_finish i s : repeat_context (fill_finish i s) = repeat_context s.
Proof. unfold fill_finish. by destruct (fill_up_context s). Qed.

Lemma kept_tracks_finish i s it l : kept_tracks (fill_finish i s) it l = kept_tracks s it l.
Proof.
  unfold kept_tracks. apply list_filter_iff. intros t. unfold kept, is_skip_track, fill_finish. simpl.
  destruct (fill_up_context s), (active_context s) eqn:Ea; simpl; rewrite ?Ea; simpl; try done;
    [by destruct (context s)|by destruct (autoplay_context s)].
Qed.

Lemma stream_plain s ctx :
  context_of (fill_up_context s) s = Some ctx → repeat_context s = false →
  (fill_up_context s = Autoplay ∨ autoplay_context s = None) →
  stream s = kept_tracks s (ci_page (index ctx)) (drop (Z.to_nat (ci_track (index ctx))) (track_list ctx)).
Proof.
  intros Hctx Hrep Hauto. unfold stream. rewrite Hctx, Hrep.
  destruct (fill_up_context s); [|done]. destruct Hauto as [?| ->]; done.
Qed.

Lemma stream_autoplay s ctx auto :
  context s = Some ctx → fill_up_context s = Default → repeat_context s = false →
  autoplay_context s = Some auto →
  stream s =
  kept_tracks s (ci_page (index ctx)) (drop (Z.to_nat (ci_track (index ctx))) (track_list ctx)) ++
  new_delimiter (ci_page (index ctx)) ::
  kept_tracks s (ci_page (index ctx)) (drop (Z.to_nat (ci_track (index auto))) (track_list auto)).
Proof. intros Hctx Hf Hrep Ha. unfold stream. rewrite Hf. simpl. by rewrite Hctx, Hrep, Ha. Qed.

Lemma stored_index (i : nat) : (Z.of_nat i ≤ u32_max)%Z → Z.to_nat (wrapu 32 (Z.of_nat i)) = i.
Proof. intros Hi. unfold wrapu. rewrite Z.mod_small; [lia|]. unfold u32_max in Hi. lia. Qed.

(** Few enough tracks that a position fits the 32-bit index field. *)
Definition small_contexts s : Prop :=
  (Z.of_nat (context_len (context s)) ≤ u32_max)%Z ∧
  (Z.of_nat (context_len (autoplay_context s)) ≤ u32_max)%Z.

Definition fill_post s s' : Prop :=
  next_tracks s' = next_tracks s ++ take (room s) (stream s) ∧ fill_frame s s' ∧
  (repeat_context s = false → small_contexts s → next_tracks s' ++ stream s' = next_tracks s ++ stream s).

Lemma context_len_of ty s ctx :
  context_of ty s = Some ctx →
  length (track_list ctx) ≤ context_len (context s) + context_len (autoplay_context s).
Proof. destruct ty; simpl; intros ->; simpl; lia. Qed.

Lemma fill_up_repeat s ctx :
  contexts_ok s → next_ok s → context_of (fill_up_context s) s = Some ctx → repeat_context s = true →
  ∃ s', fill_up_next_tracks s = Val (s', Ok ()) ∧ fill_post s s'.
Proof.
  intros Hok Hn Hctx Hrep. destruct (contexts_ok_of _ _ _ Hok Hctx) as (Hpage & _).
  pose proof (context_len_of _ _ _ Hctx).
  destruct (fill_loop_repeat ctx (room s) (room s) (fill_fuel s) (Z.to_nat (ci_track (index ctx)))
    (ci_page (index ctx)) s) as (i' & E & _); [done|done|done| |done|done| |].
  { unfold fill_fuel. assert (room s ≤ SPOTIFY_MAX_NEXT_TRACKS_SIZE) by (unfold room; lia). nia. }
  { rewrite Hpage. unfold room, SPOTIFY_MAX_NEXT_TRACKS_SIZE, u32_max. lia. }
  eexists. split; [by eapply (fill_up_unfold _ ctx _ _ ctx)|].
  unfold fill_post. split_and!.
  - rewrite next_tracks_finish, push_all_next. unfold stream. by rewrite Hctx, Hrep.
  - apply fill_frame_push. by eexists.
  - congruence.
Qed.

Lemma fill_up_plain s ctx :
  contexts_ok s → next_ok s → context_of (fill_up_context s) s = Some ctx → repeat_context s = false →
  (fill_up_context s = Autoplay ∨ autoplay_context s = None) →
  ∃ s', fill_up_next_tracks s = Val (s', Ok ()) ∧ fill_post s s'.
Proof.
  intros Hok Hn Hctx Hrep Hauto. destruct (contexts_ok_of _ _ _ Hok Hctx) as (Hpage & Htrack & _).
  pose proof (context_len_of _ _ _ Hctx).
  destruct (fill_loop_plain (fill_fuel s) (Z.to_nat (ci_track (index ctx))) (ci_page (index ctx)) s ctx)
    as (i' & E & Hi' & Hrest); [done| |done|done|done|].
  { unfold fill_fuel, SPOTIFY_MAX_NEXT_TRACKS_SIZE. lia. }
  eexists. split; [by eapply (fill_up_unfold _ ctx _ _ ctx)|].
  rewrite <- (stream_plain s ctx Hctx Hrep Hauto) in *. unfold fill_post. split_and!.
  - by rewrite next_tracks_finish.
  - apply fill_frame_push. by eexists.
  - intros _ Hsmall. set (s1 := push_all _ s).
    rewrite (stream_plain (fill_finish i' s1) (set_context_track i' ctx)).
    + rewrite kept_tracks_finish, next_tracks_finish. unfold s1. rewrite kept_tracks_push, push_all_next.
      cbn [set_context_track index ci_page ci_track]. simpl.
      rewrite stored_index.
      * change (track_list (set_context_track i' ctx)) with (track_list ctx).
        rewrite Hrest, <- app_assoc. by rewrite take_drop.
      * destruct Hsmall. destruct (fill_up_context s); simpl in Hctx; rewrite Hctx in *; simpl in *; lia.
    + unfold fill_finish, s1. simpl. destruct (fill_up_context s) eqn:Ef; simpl in *; rewrite Ef, Hctx; done.
    + by rewrite repeat_context_finish.
    + unfold fill_finish, s1. simpl. destruct (fill_up_context s) eqn:Ef; simpl; rewrite Ef; [|by left].
      destruct Hauto; [done|by right].
Qed.

Lemma fill_up_autoplay s ctx auto :
  contexts_ok s → next_ok s → context s = Some ctx → autoplay_context s = Some auto →
  fill_up_context s = Default → repeat_context s = false →
  ∃ s', fill_up_next_tracks s = Val (s', Ok ()) ∧ fill_post s s'.
Proof.
  intros Hok Hn Hctx Hauto Hf Hrep. pose proof Hok as [Hokc Hoka].
  destruct (Hokc _ Hctx) as (Hpage & Htrack & _). destruct (Hoka _ Hauto) as (Hpage_a & Htrack_a & _).
  assert (context_of (fill_up_context s) s = Some ctx) as Hof by by rewrite Hf.
  assert (small_contexts s → (Z.of_nat (length (track_list ctx)) ≤ u32_max)%Z ∧
    (Z.of_nat (length (track_list auto)) ≤ u32_max)%Z) as Hsm.
  { unfold small_contexts. by rewrite Hctx, Hauto. }
  destruct (fill_loop_autoplay (fill_fuel s) (Z.to_nat (ci_track (index ctx))) (ci_page (index ctx)) s ctx auto)
    as [(i' & E & Hr & Hi' & Hrest)|(k & i' & E & Hr & Hi' & Hrest)]; [done..| | |].
  { unfold fill_fuel, SPOTIFY_MAX_NEXT_TRACKS_SIZE. rewrite Hctx, Hauto. simpl. lia. }
  - eexists. split; [by eapply (fill_up_unfold _ ctx _ _ ctx)|].
    unfold fill_post. rewrite next_tracks_finish, (stream_autoplay s ctx auto), push_all_next by done. split_and!.
    + by rewrite take_app_le by lia.
    + apply fill_frame_push. by eexists.
    + intros _ Hsmall. set (s1 := push_all _ s).
      rewrite (stream_autoplay (fill_finish i' s1) (set_context_track i' ctx) auto).
      * rewrite !kept_tracks_finish. unfold s1. rewrite !kept_tracks_push. simpl.
        rewrite stored_index by (destruct (Hsm Hsmall); lia).
        change (track_list (set_context_track i' ctx)) with (track_list ctx).
        rewrite Hrest, <- (app_assoc (next_tracks s)). f_equal. rewrite app_assoc. by rewrite take_drop.
      * unfold fill_finish, s1. simpl. rewrite Hf. simpl. by rewrite Hctx.
      * unfold fill_finish, s1. simpl. by rewrite Hf.
      * by rewrite repeat_context_finish.
      * unfold fill_finish, s1. simpl. by rewrite Hf.
  - eexists. split; [eapply (fill_up_unfold _ ctx _ _ auto); [done|exact E|done]|].
    unfold fill_post. rewrite next_tracks_finish, (stream_autoplay s ctx auto), push_all_next by done. split_and!.
    + done.
    + apply fill_frame_switch. by eexists.
    + intros _ Hsmall. set (s1 := push_all _ _).
      rewrite (stream_plain (fill_finish i' s1) (set_context_track i' auto)).
      * rewrite kept_tracks_finish. unfold s1. rewrite kept_tracks_push, kept_tracks_switch. simpl.
        rewrite stored_index by (destruct (Hsm Hsmall); lia).
        change (track_list (set_context_track i' auto)) with (track_list auto).
        rewrite Hpage_a, <- Hpage, Hrest.
        change (next_tracks (switch_to_autoplay k s)) with (next_tracks s).
        rewrite <- (app_assoc (next_tracks s)). f_equal. by rewrite take_drop.
      * unfold fill_finish, s1. simpl. by rewrite Hauto.
      * by rewrite repeat_context_finish.
      * by left.
Qed.

Lemma fill_up_spec s ctx :
  contexts_ok s → next_ok s → context_of (fill_up_context s) s = Some ctx →
  ∃ s', fill_up_next_tracks s = Val (s', Ok ()) ∧ fill_post s s'.
Proof.
  intros Hok Hn Hctx. destruct (repeat_context s) eqn:Hrep; [by eapply fill_up_repeat|].
  destruct (fill_up_context s) eqn:Hf.
  - destruct (autoplay_context s) as [auto|] eqn:Ha; [by eapply fill_up_autoplay|].
    eapply fill_up_plain; rewrite ?Hf; eauto.
  - eapply fill_up_plain; rewrite ?Hf; eauto.
Qed.

Lemma fill_up_no_context s :
  context_of (fill_up_context s) s = None →
  fill_up_next_tracks s = Val (s, Err (EState (NoContext (fill_up_context s)))).
Proof.
  intros Hc. unfold fill_up_next_tracks. rewrite st_get_bind.
  by rewrite (st_bind_Err _ _ _ _ _ (get_context_m_None _ _ Hc)).
Qed.
End fill.

(** ** Properties *)

(** Filling up the next tracks always terminates and returns: it fails,
    changing nothing, exactly when there is no context to fill up from, and
    otherwise appends the first tracks of the reference sequence (the
    available tracks of the context from its index on; in repeat mode a
    delimiter and the context again, over and over; without repeat a delimiter
    and the autoplay context) up to the list limit, leaving previous and
    current track alone. *)
Lemma fill_up_stream `{DefaultHasher} s :
  contexts_ok s → next_ok s →
  (context_of (fill_up_context s) s = None →
     fill_up_next_tracks s = Val (s, Err (EState (NoContext (fill_up_context s))))) ∧
  (is_Some (context_of (fill_up_context s) s) →
     ∃ s', fill_up_next_tracks s = Val (s', Ok ()) ∧
       next_tracks s' = next_tracks s ++ take (room s) (stream s) ∧ next_ok s' ∧
       prev_tracks s' = prev_tracks s ∧ current_track s' = current_track s ∧
       track_list <$> context s' = track_list <$> context s ∧
       track_list <$> autoplay_context s' = track_list <$> autoplay_context s).
Proof.
  intros Hok Hn. split; [apply fill_up_no_context|]. intros [ctx Hctx].
  destruct (fill_up_spec s ctx Hok Hn Hctx) as (s' & E & Hnext & Hframe & _).
  exists s'. split; [done|]. split; [done|].
  destruct Hframe as (added & rev & c & a & f & -> & Hc & Ha & _). split_and!.
  - unfold next_ok, room in *. rewrite Hnext, length_app, length_take. lia.
  - done.
  - done.
  - by apply same_opt_tracks.
  - by apply same_opt_tracks.
Qed.

(** Without repeat mode no track is lost or played twice: what is in the
    list followed by what the contexts still hold is the same before and after
    filling up, however little room the list had. *)
Lemma fill_up_conserves `{DefaultHasher} s :
  contexts_ok s → next_ok s → small_contexts s → repeat_context s = false →
  is_Some (context_of (fill_up_context s) s) →
  ∃ s', fill_up_next_tracks s = Val (s', Ok ()) ∧
    next_tracks s' ++ stream s' = next_tracks s ++ stream s.
Proof.
  intros Hok Hn Hsmall Hrep [ctx Hctx].
  destruct (fill_up_spec s ctx Hok Hn Hctx) as (s' & E & _ & _ & Hcons). exists s'. auto.
Qed.

(** A state with a default context of three tracks, one of them unavailable,
    and an autoplay context of one track. *)
Definition example_context (ts : list ProvidedTrack) : StateContext :=
  {| tracks := from_vec ts; sc_metadata := ∅; sc_restrictions := None; index := ContextIndex_default |}.
Definition example_fill_state (next : list ProvidedTrack) : ConnectState :=
  example_state next
    <| context := Some (example_context
         [example_track "a" PContext; example_track "b" PUnavailable; example_track "c" PContext]) |>
    <| autoplay_context := Some (example_context [example_track "d" PAutoplay]) |>.

Lemma example_fill_ok next : contexts_ok (example_fill_state next).
Proof. split; intros c [= <-]; repeat split; vm_compute; congruence. Qed.

