(* ===== verification/ConnectInv.v ===== *)
(** * An invariant of the connect state

    Every command keeps the two track lists within their limits, where a queue
    that is set by a remote is taken as it is and may be longer, the indices of
    the contexts within 32 bits and the recorded shuffles in range, and no
    command panics in a reachable state. *)

From S2P Require Import Prelude Digits Text SpotifyId SpotifyUri Protocol ShuffleVec StateMonad.
From S2P Require Import ConnectData ConnectQueue ConnectContext ConnectState ConnectFill.

Local Open Scope string_scope.
Local Open Scope list_scope.
Local Open Scope nat_scope.

(** The most tracks there may be: as many as the program keeps, or as many as
    were set. *)
Class Limits := {
  most_prev : nat;
  most_next : nat;
  most_prev_ge : SPOTIFY_MAX_PREV_TRACKS_SIZE ≤ most_prev;
  most_next_ge : SPOTIFY_MAX_NEXT_TRACKS_SIZE ≤ most_next;
}.

Section inv.
Context `{DefaultHasher} `{L : Limits}.
Implicit Types (s : ConnectState).

Definition index_ok s : Prop :=
  ∀ i, ps_index (player s) = Some i → (0 ≤ ci_track i ≤ u32_max)%Z.

Definition prev_within s : Prop := length (prev_tracks s) ≤ most_prev.
Definition next_within s : Prop := length (next_tracks s) ≤ most_next.

Definition inv s : Prop := prev_within s ∧ next_within s ∧ contexts_ok s ∧ index_ok s.

Lemma at_most_next n : n ≤ SPOTIFY_MAX_NEXT_TRACKS_SIZE → n ≤ most_next.
Proof. pose proof most_next_ge. lia. Qed.
Lemma at_most_prev n : n ≤ SPOTIFY_MAX_PREV_TRACKS_SIZE → n ≤ most_prev.
Proof. pose proof most_prev_ge. lia. Qed.

Lemma inv_same s s' :
  inv s → prev_tracks s' = prev_tracks s → next_tracks s' = next_tracks s →
  context s' = context s → autoplay_context s' = autoplay_context s →
  ps_index (player s') = ps_index (player s) → inv s'.
Proof.
  unfold inv, prev_within, next_within, contexts_ok, index_ok. intros H1 Hp Hn Hc Ha Hi.
  by rewrite Hp, Hn, Hc, Ha, Hi.
Qed.

(** ** Pure updates *)

Lemma inv_update_restrictions s : inv s → inv (update_restrictions s).
Proof. intros Hs. destruct (update_restrictions_player s) as [r ->]. by apply (inv_same s). Qed.

Lemma inv_update_queue_revision s : inv s → inv (update_queue_revision s).
Proof. intros Hs. by apply (inv_same s). Qed.

Lemma set_active_context_same ty s :
  prev_tracks (set_active_context ty s) = prev_tracks s ∧
  next_tracks (set_active_context ty s) = next_tracks s ∧
  context (set_active_context ty s) = context s ∧
  autoplay_context (set_active_context ty s) = autoplay_context s ∧
  ps_index (player (set_active_context ty s)) = ps_index (player s) ∧
  ps_track (player (set_active_context ty s)) = ps_track (player s) ∧
  fill_up_context (set_active_context ty s) = fill_up_context s ∧
  queue_count (set_active_context ty s) = queue_count s ∧
  active_context (set_active_context ty s) = ty.
Proof.
  unfold set_active_context. simpl. destruct (get_context _ _) as [c|]; simpl; [|done].
  by destruct (sc_restrictions c).
Qed.

Lemma inv_set_active_context ty s : inv s → inv (set_active_context ty s).
Proof.
  intros Hs. destruct (set_active_context_same ty s) as (? & ? & ? & ? & ? & _). by apply (inv_same s).
Qed.

Lemma inv_options f s : inv s → inv (options_mut f s).
Proof.
  intros Hs. apply (inv_same s); [done|..]; unfold options_mut, add_options_if_empty;
    by destruct (ps_options (player s)).
Qed.

Lemma push_prev_within t s : prev_within s → prev_within (push_prev t s).
Proof.
  unfold prev_within. rewrite push_prev_tracks, length_app. simpl. pose proof most_prev_ge.
  unfold SPOTIFY_MAX_PREV_TRACKS_SIZE in *. case_decide; [|lia]. destruct (prev_tracks s); simpl in *; lia.
Qed.

Lemma inv_push_prev t s : inv s → inv (push_prev t s).
Proof. intros (Hp & Hn & Hc & Hi). split; [by apply push_prev_within|done]. Qed.

(** Operations that shorten or replace one of the lists. *)
Lemma inv_next_mut f s :
  length (f (next_tracks s)) ≤ most_next → inv s → inv (next_tracks_mut f s).
Proof. by intros Hf (Hp & Hn & Hc & Hi). Qed.
Lemma inv_prev_mut f s :
  length (f (prev_tracks s)) ≤ most_prev → inv s → inv (prev_tracks_mut f s).
Proof. by intros Hf (Hp & Hn & Hc & Hi). Qed.

Lemma length_queued l : length (queued l) ≤ length l.
Proof. induction l as [|t l IH]; simpl; [lia|]. destruct (is_queue t); simpl; lia. Qed.

Lemma inv_clear_next s : inv s → inv (clear_next_tracks s).
Proof.
  intros Hs. pose proof (clear_next_tracks_queued s) as Hq. pose proof (length_queued (next_tracks s)).
  unfold clear_next_tracks in *. destruct (position _ _); [|done].
  apply inv_next_mut; [|done]. destruct Hs as (_ & Hn & _). unfold next_within in Hn.
  change (next_tracks (next_tracks_mut ?f s)) with (f (next_tracks s)) in Hq. rewrite Hq. lia.
Qed.

Lemma inv_clear_prev s : inv s → inv (clear_prev_track s).
Proof. intros Hs. apply inv_prev_mut; [simpl; lia|done]. Qed.

Lemma inv_update_current_index f s :
  (∀ i, (0 ≤ ci_track i ≤ u32_max)%Z → (0 ≤ ci_track (f i) ≤ u32_max)%Z) →
  inv s → inv (update_current_index f s).
Proof.
  intros Hf (Hp & Hn & Hc & Hi). split_and!; [done|done|done|]. intros i E.
  assert (i = f (default ContextIndex_default (ps_index (player s)))) as -> by (by injection E). apply Hf.
  clear E. destruct (ps_index (player s)) eqn:E; simpl; [by apply Hi|]. simpl. unfold u32_max. lia.
Qed.

Lemma inv_set_track_index n s :
  inv s → inv (update_current_index (λ i, i <| ci_track := wrapu 32 n |>) s).
Proof. intros Hs. apply inv_update_current_index; [|done]. intros i _. simpl. apply wrapu32_bounds. Qed.

Lemma context_ok_set i c : context_ok c → context_ok (set_context_track i c).
Proof. intros (Hp & _ & Hs). split; [done|]. split; [apply wrapu32_bounds|done]. Qed.

Lemma same_context_ok c c' : context_ok c → same_context c c' → context_ok c'.
Proof.
  intros (Hp & Ht & Hs) (Ht' & _ & _ & Hp' & Hi). split; [congruence|]. split.
  - destruct Hi as [Hi|?]; lia.
  - by rewrite Ht'.
Qed.

Lemma contexts_ok_same s s' :
  contexts_ok s → option_Forall2 same_context (context s) (context s') →
  option_Forall2 same_context (autoplay_context s) (autoplay_context s') → contexts_ok s'.
Proof.
  intros [H1 H2] Hc Ha. split; intros c Hs.
  - rewrite Hs in Hc. inversion Hc as [c0 ? Hsame E|]. subst. symmetry in E.
    by eapply same_context_ok; [apply H1|].
  - rewrite Hs in Ha. inversion Ha as [c0 ? Hsame E|]. subst. symmetry in E.
    by eapply same_context_ok; [apply H2|].
Qed.

Lemma inv_next_loop l s new s' :
  next_loop l s = (new, s') → inv s → inv s' ∧ ps_track (player s') = ps_track (player s).
Proof.
  revert s. induction l as [|t l IH]; intros s; simpl; [by intros [= <- <-]|].
  assert (inv s → inv (next_tracks_mut tail s)) as Htail.
  { intros Hs. apply inv_next_mut; [|done]. destruct Hs as (_ & Hn & _). unfold next_within in Hn.
    destruct (next_tracks s); simpl in *; lia. }
  destruct (is_delimiter t); [|destruct (is_unavailable t)].
  - intros E Hs. destruct (IH _ E) as [? ->]; [by apply inv_push_prev, Htail|done].
  - intros E Hs. destruct (IH _ E) as [? ->]; [by apply Htail|done].
  - intros [= <- <-] Hs. split; [by apply Htail|done].
Qed.

(** ** Operations that run a fill-up *)

Lemma wp_update_context_index ty i s :
  inv s → wp (update_context_index ty i) (λ s' r, inv s' ∧
    ps_track (player s') = ps_track (player s) ∧ active_context s' = active_context s ∧
    (r = Ok () → is_Some (context_of ty s)) ∧
    ∀ ty', track_list <$> context_of ty' s' = track_list <$> context_of ty' s) s.
Proof.
  intros Hs. apply wp_Val. destruct (context_of ty s) as [c|] eqn:Hc.
  - eexists _, _. split; [by eapply update_context_index_Some|].
    destruct Hs as (Hp & Hn & [Hc1 Hc2] & Hi). split_and!.
    + destruct ty; (split_and!; [done|done| |done]); split; simpl; try done;
        intros c' [x [Hx ->]]%fmap_Some_1; apply context_ok_set; auto.
    + by destruct ty.
    + by destruct ty.
    + by eexists.
    + intros ty'. destruct ty, ty'; simpl; try done; [by destruct (context s)|by destruct (autoplay_context s)].
  - exists s, (Err (EState (NoContext ty))). split; [|done].
    unfold update_context_index. by rewrite st_get_bind, Hc.
Qed.

(** A list that is longer is left as it is. *)
Lemma wp_fill_full s ctx :
  inv s → context_of (fill_up_context s) s = Some ctx → SPOTIFY_MAX_NEXT_TRACKS_SIZE ≤ length (next_tracks s) →
  wp fill_up_next_tracks (λ s' _, inv s' ∧
    ps_track (player s') = ps_track (player s) ∧ active_context s' = active_context s) s.
Proof.
  intros Hs Hctx Hfull.
  assert (∃ f, fill_fuel s = S f) as [f Hf] by (exists (Nat.pred (fill_fuel s)); unfold fill_fuel; lia).
  set (i := Z.to_nat (ci_track (index ctx))).
  assert (fill_up_next_tracks s = (_ ← update_context_index (fill_up_context s) i; st_modify update_queue_revision) s) as E.
  { unfold fill_up_next_tracks. rewrite st_get_bind, (st_bind_Ok _ _ _ _ _ (get_context_m_Some _ _ _ Hctx)), Hf.
    by rewrite (st_bind_Ok _ _ _ _ _ (fill_loop_full f i (ci_page (index ctx)) s Hfull)), st_get_bind. }
  unfold wp. rewrite E. change (wp (_ ← update_context_index (fill_up_context s) i; st_modify update_queue_revision) (λ s' _, inv s' ∧
    ps_track (player s') = ps_track (player s) ∧ active_context s' = active_context s) s).
  wp_use wp_update_context_index; [done|]. intros s' [[]|e] (H' & Ht & Ha & _); [|done]. wp_steps.
  split_and!; [by apply inv_update_queue_revision|done|done].
Qed.

Lemma wp_fill s : inv s → wp fill_up_next_tracks (λ s' _, inv s' ∧
  ps_track (player s') = ps_track (player s) ∧ active_context s' = active_context s) s.
Proof.
  intros (Hp & Hn & Hc & Hi). apply wp_Val.
  destruct (context_of (fill_up_context s) s) as [ctx|] eqn:Hctx.
  - destruct (decide (length (next_tracks s) ≤ SPOTIFY_MAX_NEXT_TRACKS_SIZE)) as [Hroom|Hfull].
    2:{ apply wp_Val, (wp_fill_full s ctx); [by split_and!|done|lia]. }
    destruct (fill_up_spec s ctx Hc Hroom Hctx) as (s' & E & Hnext & Hframe & _).
    exists s', (Ok ()). split; [done|].
    assert (next_within s') as Hn'.
    { apply at_most_next. unfold room in *. rewrite Hnext, length_app, length_take. lia. }
    destruct Hframe as (added & rev & c & a & f & -> & Hsc & Hsa & _).
    split_and!; try done. split_and!; [done|done| |done]. by apply (contexts_ok_same s).
  - eexists _, _. split; [by apply fill_up_no_context|]. done.
Qed.

Lemma wp_set_current_track i s :
  inv s → wp (set_current_track i) (λ s' r, inv s' ∧ active_context s' = active_context s ∧
    context s' = context s ∧ autoplay_context s' = autoplay_context s) s.
Proof.
  intros Hs. unfold set_current_track. wp_steps. unfold get_context_m. wp_steps.
  unfold get_context. destruct (context_of (active_context s) s) as [ctx|]; simpl; [|done].
  wp_steps. destruct (track_list ctx !! i) as [t|]; wp_steps; [|done].
  split_and!; [|done..]. by apply inv_set_track_index.
Qed.

(** Forward and backward skips, and removing a track. *)
Lemma inv_take_track s : inv s → inv (take_track s).2.
Proof. intros Hs. by apply (inv_same s). Qed.

Lemma inv_retire_track s : inv s → inv (retire_track s).
Proof.
  intros Hs. pose proof (inv_take_track s Hs). unfold retire_track. simpl.
  destruct (ps_track (player s)) as [t|]; [|done].
  destruct (is_context t || is_autoplay t); [by apply inv_push_prev|done].
Qed.

Lemma inv_enter_track t s : inv s → inv (enter_track t s).
Proof.
  intros Hs. unfold enter_track. destruct (is_queue t); [|destruct (is_autoplay t)].
  - apply inv_update_restrictions. destruct Hs as (? & ? & ? & _). by split_and!.
  - apply inv_update_restrictions. destruct (inv_set_active_context Autoplay s Hs) as (? & ? & ? & _).
    by split_and!.
  - apply inv_update_restrictions. destruct (get_context_index t) as [i|]; simpl.
    + by apply (inv_set_track_index (Z.of_nat i)).
    + destruct Hs as (? & ? & ? & _). by split_and!.
Qed.

Lemma wp_next_track s : inv s → wp next_track (λ s' _, inv s') s.
Proof.
  intros Hs. unfold next_track. wp_steps.
  set (s1 := if repeat_track s then set_repeat_track false s else s).
  assert (inv s1) as H1 by (unfold s1; destruct (repeat_track s); [by apply inv_options|done]).
  apply inv_retire_track in H1. destruct (next_loop _ (retire_track s1)) as [new s3] eqn:E.
  destruct (inv_next_loop _ _ _ _ E H1) as [H3 _]. wp_steps.
  destruct new as [t|]; wp_steps; [|done].
  eapply wp_mono; [by apply wp_fill|]. intros s4 [[]|e] (H4 & _); [|done]. wp_steps.
  by apply inv_enter_track.
Qed.

(** Everything of the invariant but the length of the next tracks. *)
Definition pre_inv s : Prop := prev_within s ∧ contexts_ok s ∧ index_ok s.

Lemma pre_inv_return_track s : pre_inv s → pre_inv (return_track s).
Proof.
  unfold return_track. simpl. destruct (ps_track (player s)) as [t|]; [|done].
  by destruct (is_context t || is_autoplay t).
Qed.

Lemma pre_inv_return_delimiter s : pre_inv s → pre_inv (return_delimiter s).
Proof.
  intros (Hp & Hc & Hi). unfold return_delimiter. destruct (last (prev_tracks s)) as [d|]; [|done].
  destruct (is_delimiter d); [|done]. split_and!; [|done|done]. unfold prev_within in *.
  change (length (removelast (prev_tracks s)) ≤ most_prev).
  rewrite length_removelast. lia.
Qed.

Lemma inv_cut s : pre_inv s → inv (next_tracks_mut (pop_while_longer SPOTIFY_MAX_NEXT_TRACKS_SIZE) s).
Proof.
  intros (Hp & Hc & Hi). split_and!; [done| |done|done]. unfold next_within.
  rewrite next_tracks_next_tracks_mut, pop_while_longer_take, length_take. apply at_most_next. lia.
Qed.

Lemma inv_reenter_track t s : inv s → inv (reenter_track t s).
Proof.
  intros Hs. unfold reenter_track. apply inv_update_restrictions.
  assert (inv (set_track t s)) as Hs' by by apply (inv_same s).
  case_decide as Hz; [done|]. destruct Hs' as (Hp & Hn & Hc & Hi). split_and!; [done..|].
  intros i E. assert (i = (default ContextIndex_default (ps_index (player (set_track t s)))
    <| ci_track ::= λ z, (z - 1)%Z |>)) as -> by (by injection E). clear E.
  destruct (ps_index (player (set_track t s))) as [i|] eqn:Ei; [|done].
  specialize (Hi i Ei). simpl in *. lia.
Qed.

Lemma wp_prev_track s : inv s → wp prev_track (λ s' _, inv s') s.
Proof.
  intros (Hp & Hn & Hc & Hi). unfold prev_track. wp_steps. set (s1 := next_tracks_mut _ _).
  assert (inv s1) as H1 by by apply inv_cut, pre_inv_return_delimiter, pre_inv_return_track.
  clearbody s1. destruct (last (prev_tracks s1)) as [t|]; wp_steps; [|done].
  assert (inv (prev_tracks_mut (@removelast _) s1)) as H1'.
  { apply inv_prev_mut; [|done]. destruct H1 as (Hp1 & _). unfold prev_within in Hp1. rewrite length_removelast. lia. }
  eapply wp_mono; [apply wp_fill|].
  - case_decide; [by apply inv_set_active_context|done].
  - intros s3 [[]|e] (H3 & _); [|done]. wp_steps. by apply inv_reenter_track.
Qed.

Lemma inv_mark u s :
  inv s → inv (next_tracks_mut (λ l,
    mark_as_unavailable_for_match u <$> remove_while (λ t, bool_decide (uri t = u)) l) s).
Proof.
  intros Hs. apply inv_next_mut; [|done]. rewrite length_fmap, remove_while_filter.
  destruct Hs as (_ & Hn & _). unfold next_within in Hn. etransitivity; [apply length_filter|done].
Qed.
Lemma inv_mark_prev u s :
  inv s → inv (prev_tracks_mut (λ l,
    mark_as_unavailable_for_match u <$> remove_while (λ t, bool_decide (uri t = u)) l) s).
Proof.
  intros Hs. apply inv_prev_mut; [|done]. rewrite length_fmap, remove_while_filter.
  destruct Hs as (Hp & _). unfold prev_within in Hp. etransitivity; [apply length_filter|done].
Qed.

Lemma wp_mark_uri_unavailable u s : inv s → wp (mark_uri_unavailable u) (λ s' _, inv s') s.
Proof.
  intros Hs. unfold mark_uri_unavailable. wp_steps. eapply wp_mono; [apply wp_fill|].
  - apply (inv_same (prev_tracks_mut (λ l, mark_as_unavailable_for_match u <$>
      remove_while (λ t, bool_decide (uri t = u)) l) (next_tracks_mut (λ l,
      mark_as_unavailable_for_match u <$> remove_while (λ t, bool_decide (uri t = u)) l) s)));
      [by apply inv_mark_prev, inv_mark|done..].
  - intros s' [[]|e] (H' & _); [|done]. wp_steps. by apply inv_update_queue_revision.
Qed.

Lemma wp_mark_unavailable id s : uri_ok id → inv s → wp (mark_unavailable id) (λ s' _, inv s') s.
Proof.
  intros Hid Hs. pose proof (wp_mark_uri_unavailable (join ":" ("spotify" :: uri_parts id)) s Hs) as Hw.
  unfold wp, mark_unavailable in *. by rewrite (to_uri_parts id Hid).
Qed.

(** ** Resetting and shuffling *)

Lemma context_ok_tracks c v : context_ok c → sv_safe v → context_ok (c <| tracks := v |>).
Proof. intros (Hp & Ht & _) Hv. done. Qed.
Lemma context_ok_metadata (c : StateContext) f : context_ok c → context_ok (metadata_mut f c).
Proof. done. Qed.

Lemma inv_contexts s s' :
  inv s → prev_tracks s' = prev_tracks s → next_tracks s' = next_tracks s →
  ps_index (player s') = ps_index (player s) → contexts_ok s' → inv s'.
Proof.
  unfold inv, prev_within, next_within, index_ok. intros H1 Hp Hn Hi Hc. rewrite Hp, Hn, Hi.
  destruct H1 as (? & ? & ? & ?). by split_and!.
Qed.

(** What [reset_context] leaves behind. *)
Lemma reset_context_spec how s :
  inv s → ∃ s', reset_context how s = Val s' ∧ inv s' ∧
    prev_tracks s' = prev_tracks s ∧ next_tracks s' = next_tracks s ∧
    ps_track (player s') = ps_track (player s) ∧ active_context s' = Default ∧
    fill_up_context s' = Default ∧ queue_count s' = queue_count s ∧
    (∀ c', context s' = Some c' → ∃ c, context s = Some c ∧ unshuffle (tracks c) = Val (tracks c')) ∧
    (how = DefaultIndex → is_Some (context s) → is_Some (context s')) ∧
    (how = DefaultIndex → track_list <$> autoplay_context s' = track_list <$> autoplay_context s).
Proof.
  intros Hs. pose proof Hs as (_ & _ & [Hc1 Hc2] & _). unfold reset_context.
  set (how' := match how with Completely => _ | DefaultIndex => _ | WhenDifferent _ => _ end).
  assert (∃ s1, (match context s with
    | Some ctx => v ← unshuffle (tracks (remove_initial_track (remove_shuffle_seed ctx)));
        Val (s <| context := Some ((remove_initial_track (remove_shuffle_seed ctx)) <| tracks := v |>) |>)
    | None => Val s end) = Val s1 ∧ inv s1 ∧ prev_tracks s1 = prev_tracks s ∧ next_tracks s1 = next_tracks s ∧
    ps_track (player s1) = ps_track (player s) ∧ queue_count s1 = queue_count s ∧
    (∀ c', context s1 = Some c' → ∃ c, context s = Some c ∧ unshuffle (tracks c) = Val (tracks c')) ∧
    (is_Some (context s) → is_Some (context s1)) ∧ autoplay_context s1 = autoplay_context s)
    as (s1 & -> & H1 & Hp1 & Hn1 & Ht1 & Hq1 & Hun1 & Hsome1 & Hauto1).
  { destruct (context s) as [c|] eqn:Ec; [|exists s; split_and!; try done; intros ? ?; congruence].
    destruct (Hc1 c eq_refl) as (Hpage & Htrack & Hsafe).
    destruct (unshuffle_safe (tracks c) Hsafe) as (v & Ev & _ & Hv & _). simpl. rewrite Ev. simpl.
    eexists. split; [done|]. split; [|split_and!; try done; intros c' [= <-]; by exists c].
    apply (inv_contexts s); [done..|]. split; simpl; [|done]. intros c' [= <-]. by split; [|split]. }
  simpl. assert (how = DefaultIndex → how' = DefaultIndex) as Hhow by (by intros ->). clearbody how'.
  set (s2 := match how' with Completely => _ | DefaultIndex => _ | WhenDifferent _ => _ end).
  assert (inv s2 ∧ prev_tracks s2 = prev_tracks s ∧ next_tracks s2 = next_tracks s ∧
    ps_track (player s2) = ps_track (player s) ∧ queue_count s2 = queue_count s ∧
    (∀ c', context s2 = Some c' → ∃ c, context s = Some c ∧ unshuffle (tracks c) = Val (tracks c')) ∧
    (how' = DefaultIndex → is_Some (context s) → is_Some (context s2)) ∧
    (how' = DefaultIndex → track_list <$> autoplay_context s2 = track_list <$> autoplay_context s))
    as (H2 & Hp2 & Hn2 & Ht2 & Hq2 & Hun2 & Hsome2 & Hauto2).
  { pose proof H1 as (_ & _ & [Hd1 Hd2] & _). unfold s2. destruct how'; [| |by split_and!].
    - split_and!; try done. by apply (inv_contexts s1).
    - split_and!; try done.
      + apply (inv_contexts s1); [done..|]. split; simpl; intros c' [x [Hx ->]]%fmap_Some_1;
          [destruct (Hd1 x Hx) as (_ & _ & ?)|destruct (Hd2 x Hx) as (_ & _ & ?)];
          (split; [done|split; [simpl; unfold u32_max; lia|done]]).
      + intros c' [x [Hx ->]]%fmap_Some_1. destruct (Hun1 x Hx) as (c & ? & ?). by exists c.
      + intros _ Hsome. apply fmap_is_Some. by apply Hsome1.
      + intros _. simpl. rewrite Hauto1. by destruct (autoplay_context s). }
  clearbody s2. exists (update_restrictions (set_active_context Default (s2 <| fill_up_context := Default |>))).
  split; [done|]. destruct (set_active_context_same Default (s2 <| fill_up_context := Default |>))
    as (E1 & E2 & E3 & E4 & E5 & E6 & E7 & E8 & E9).
  set (s3 := set_active_context Default (s2 <| fill_up_context := Default |>)) in *.
  assert (inv s3) as H3 by by apply (inv_same s2).
  destruct (update_restrictions_player s3) as [r Hr].
  split; [by apply inv_update_restrictions|]. rewrite Hr.
  split_and!; [exact (eq_trans E1 Hp2)|exact (eq_trans E2 Hn2)|exact (eq_trans E6 Ht2)|exact E9|exact E7
    |exact (eq_trans E8 Hq2)|..].
  - intros c' Hc'. apply Hun2. rewrite <- Hc'. exact (eq_sym E3).
  - intros Heq Hsome. change (is_Some (context s3)). rewrite E3. by apply Hsome2, Hsome; apply Hhow.
  - intros Heq. change (track_list <$> autoplay_context s3 = track_list <$> autoplay_context s).
    rewrite E4. by apply Hauto2, Hhow.
Qed.

Lemma context_of_player_mut ty f s : context_of ty (player_mut f s) = context_of ty s.
Proof. by destruct ty. Qed.

Lemma wp_load_prev_tracks i s :
  inv s → (∀ c, context_of (active_context s) s = Some c → i ≤ length (track_list c)) →
  wp (load_prev_tracks i) (λ s' _, inv s') s.
Proof.
  intros Hs Hlen. unfold load_prev_tracks. case_decide; wp_steps; [|done].
  unfold get_context_m. wp_steps. unfold get_context.
  destruct (context_of (active_context s) s) as [c|] eqn:Hc; simpl; [|done]. wp_steps.
  rewrite usub_Val by (specialize (Hlen c eq_refl); lia). wp_steps. apply inv_prev_mut; [|done].
  rewrite length_rev, length_take. apply at_most_prev. lia.
Qed.

(** The part of [reset_playback_to_position] after the current track is set. *)
Lemma wp_reset_lists i s :
  inv s → (∀ c, context_of (active_context s) s = Some c → i ≤ length (track_list c)) →
  wp (_ ← st_modify clear_prev_track; _ ← load_prev_tracks i; _ ← st_modify clear_next_tracks;
      _ ← fill_up_next_tracks; st_modify update_restrictions) (λ s' _, inv s') s.
Proof.
  intros Hs Hlen. wp_steps. eapply wp_mono; [apply wp_load_prev_tracks; [by apply inv_clear_prev|exact Hlen]|].
  intros s1 [[]|e] H1; [|done]. wp_steps. eapply wp_mono; [by apply wp_fill, inv_clear_next|].
  intros s2 [[]|e] (H2 & _); [|done]. wp_steps. by apply inv_update_restrictions.
Qed.

Lemma wp_reset_playback new_index s (i := default 0 new_index) :
  inv s → (Z.of_nat i < usize_max)%Z →
  (∀ c, context_of (active_context s) s = Some c → i ≤ length (track_list c)) →
  wp (reset_playback_to_position new_index) (λ s' _, inv s') s.
Proof.
  intros Hs Hi Hlen. unfold reset_playback_to_position. fold i. wp_steps. rewrite uadd_Val by lia.
  set (s1 := update_current_index _ s). assert (inv s1) as H1 by by apply inv_set_track_index.
  wp_use (wp_update_context_index (active_context s1) (i + 1) s1 H1).
  intros s2 [[]|e] (H2 & _ & Hact2 & Hsome2 & Htl2); [|done]. wp_steps.
  set (s3 := s2 <| fill_up_context := active_context s2 |>). assert (inv s3) as H3 by by apply (inv_same s2).
  assert (∀ c, context_of (active_context s3) s3 = Some c → i ≤ length (track_list c)) as Hlen3.
  { intros c Hc. destruct (Hsome2 eq_refl) as [c0 Hc0].
    assert (context_of (active_context s1) s2 = Some c) as Hc' by (rewrite <- Hact2; exact Hc).
    specialize (Htl2 (active_context s1)). rewrite Hc0, Hc' in Htl2.
    injection Htl2 as ->. apply Hlen. exact Hc0. }
  clearbody s3. destruct (negb _).
  - eapply wp_mono; [apply (wp_set_current_track i s3 H3)|]. intros s4 [[]|e] (H4 & Ha & Hc & Hx); [|done].
    apply wp_reset_lists; [done|]. intros c. unfold context_of. rewrite Ha, Hc, Hx. apply Hlen3.
  - wp_step. by apply wp_reset_lists.
Qed.

Section shuffle_inv.
Context {R : Type} {rng_R : Rng R} {rng_laws : RngLaws R}.

Lemma wp_shuffle seed init s : inv s → wp (shuffle (R:=R) seed init) (λ s' _, inv s') s.
Proof.
  intros Hs. unfold shuffle. wp_steps.
  destruct (reset_context_spec DefaultIndex (clear_next_tracks (clear_prev_track s)))
    as (s1 & E & H1 & _); [by apply inv_clear_next, inv_clear_prev|].
  eapply wp_exec; [exact E|]. unfold get_context_m. wp_steps. unfold get_context.
  destruct (context_of Default s1) as [c|] eqn:Hc; simpl; [|done]. wp_steps.
  pose proof H1 as (_ & _ & [Hc1 Hc2] & _). simpl in Hc.
  destruct (Hc1 c Hc) as (Hpage & Htrack & Hsafe).
  destruct (shuffle_safe (seed_from_u64 (R:=R) seed) (λ f, bool_decide (uri f = init)) (tracks c) Hsafe)
    as (v & Ev & Hv & _).
  unfold wp at 1. unfold shuffle_with_seed. rewrite Ev. eapply wp_mono; [apply wp_fill|by intros ? ? (? & _)].
  apply (inv_contexts s1); [done..|]. split; [|done]. intros c' [= <-]. by split; [|split].
Qed.

Lemma wp_shuffle_new seed s : inv s → wp (shuffle_new (R:=R) seed) (λ s' _, inv s') s.
Proof.
  intros Hs. unfold shuffle_new. wp_steps. destruct (validate_shuffle_allowed s); wp_steps; [|done].
  by apply wp_shuffle.
Qed.
Lemma wp_shuffle_restore st s : inv s → wp (shuffle_restore (R:=R) st) (λ s' _, inv s') s.
Proof.
  intros Hs. unfold shuffle_restore. wp_steps. destruct (validate_shuffle_allowed s); wp_steps; [|done].
  by apply wp_shuffle.
Qed.

(** A position found in a context is within it. *)
Lemma find_index_lt ctx f i : find_index_in_context ctx f = Ok i → i < length (track_list ctx).
Proof.
  unfold find_index_in_context, ok_or. destruct (position f (track_list ctx)) eqn:E; [|done].
  intros [= <-]. by apply position_Some in E as [? _].
Qed.

Definition lengths_ok s : Prop :=
  ∀ ty c, context_of ty s = Some c → (Z.of_nat (length (track_list c)) < usize_max)%Z.

Lemma unshuffle_length (v w : ShuffleVec ProvidedTrack) :
  sv_safe v → unshuffle v = Val w → length (vec w) = length (vec v).
Proof.
  intros Hv E. destruct (unshuffle_safe v Hv) as (w' & E' & _ & _ & Hp).
  assert (w' = w) as -> by congruence. by apply Permutation_length.
Qed.

Lemma wp_handle_shuffle seed on s :
  inv s → lengths_ok s →
  (on = false → ∀ t i c, ps_track (player s) = Some t → get_context_index t = Some i →
     context s = Some c → i ≤ length (track_list c)) →
  (on = false → ∀ t i, ps_track (player s) = Some t → get_context_index t = Some i →
     (Z.of_nat i < usize_max)%Z) →
  wp (handle_shuffle (R:=R) seed on) (λ s' _, inv s') s.
Proof.
  intros Hs Hlen Hidx Hmax. unfold handle_shuffle. wp_steps.
  set (s0 := set_shuffle on s). assert (inv s0) as H0 by by apply inv_options.
  assert (context s0 = context s ∧ ps_track (player s0) = ps_track (player s)) as [Hc0 Ht0].
  { unfold s0, set_shuffle, options_mut, add_options_if_empty. by destruct (ps_options (player s)). }
  clearbody s0. destruct on; [by apply wp_shuffle_new|]. wp_steps.
  destruct (reset_context_spec DefaultIndex s0 H0) as (s1 & E & H1 & _ & _ & Ht1 & Ha1 & _ & _ & Hun & _).
  eapply wp_exec; [exact E|]. wp_steps. rewrite Ht1, Ht0.
  assert (∀ c', context s1 = Some c' → ∃ c, context s = Some c ∧ length (track_list c') = length (track_list c)) as Hl.
  { intros c' Hc'. destruct (Hun c' Hc') as (c & Hc & Eun). rewrite Hc0 in Hc. exists c. split; [done|].
    apply unshuffle_length; [|done]. destruct Hs as (_ & _ & [Hok _] & _). by apply Hok. }
  destruct (ps_track (player s)) as [t|] eqn:Et; [|done].
  destruct (get_context_index t) as [i|] eqn:Ei.
  - apply wp_reset_playback; [done|by eapply Hmax|]. simpl. rewrite Ha1. intros c' Hc'.
    destruct (Hl c' Hc') as (c & Hc & ->). by eapply Hidx.
  - unfold get_context_m. wp_steps. unfold get_context.
    destruct (context_of Default s1) as [c'|] eqn:Hc'; simpl; [|done]. wp_steps.
    destruct (find_index_in_context c' _) as [i|e] eqn:Ef; simpl; wp_steps; [|done].
    apply find_index_lt in Ef. destruct (Hl c' Hc') as (c & Hc & Hlc).
    specialize (Hlen Default c Hc). apply wp_reset_playback; simpl; [done|lia|].
    rewrite Ha1. intros c'' Hc''. simpl in Hc', Hc''. assert (c'' = c') as -> by congruence. lia.
Qed.

Lemma wp_handle_set_repeat_context b s :
  inv s → lengths_ok s → (∀ c c', context_of (active_context s) s = Some c → context s = Some c' →
    length (track_list c') ≤ length (track_list c)) →
  wp (handle_set_repeat_context b) (λ s' _, inv s') s.
Proof.
  intros Hs Hlen Hact. unfold handle_set_repeat_context. wp_steps.
  set (s0 := set_repeat_context b s). assert (inv s0) as H0 by by apply inv_options.
  assert (context s0 = context s ∧ autoplay_context s0 = autoplay_context s ∧
    active_context s0 = active_context s) as (Hc0 & Hx0 & Ha0).
  { unfold s0, set_repeat_context, options_mut, add_options_if_empty. by destruct (ps_options (player s)). }
  clearbody s0. set (s1 := if b then _ else _).
  assert (inv s1 ∧ context s1 = context s ∧ autoplay_context s1 = autoplay_context s ∧
    active_context s1 = active_context s) as (H1 & Hc1 & Hx1 & Ha1).
  { unfold s1. destruct b; [case_decide|]; split_and!; try done. }
  clearbody s1. unfold get_context_m. wp_steps. unfold get_context.
  destruct (context_of Default s1) as [c'|] eqn:Hc'; simpl; [|done]. wp_steps.
  destruct (find_index_in_context c' _) as [i|e] eqn:Ef; simpl; wp_steps; [|done].
  apply find_index_lt in Ef. simpl in Hc'. rewrite Hc1 in Hc'.
  specialize (Hlen Default c' Hc'). apply wp_reset_playback; simpl; [done|lia|].
  rewrite Ha1. unfold context_of. rewrite Hc1, Hx1. intros c Hc. specialize (Hact c c' Hc Hc'). lia.
Qed.
End shuffle_inv.

(** ** Queue commands *)

Lemma inv_add_to_queue t b s :
  (0 ≤ queue_count s < u64_max)%Z → inv s → ∃ s', add_to_queue t b s = Val s' ∧ inv s' ∧
    queue_count s' = (queue_count s + 1)%Z ∧ active_context s' = active_context s ∧
    context s' = context s ∧ autoplay_context s' = autoplay_context s ∧
    ps_track (player s') = ps_track (player s) ∧ transfer_shuffle s' = transfer_shuffle s.
Proof.
  intros Hq Hs. unfold add_to_queue. rewrite uadd_Val by lia. cbn [mbind exec_bind].
  set (s1 := next_tracks_mut _ _). assert (inv s1) as H1.
  { apply inv_next_mut; [rewrite pop_while_longer_take, length_take; apply at_most_next; lia|by apply (inv_same s)]. }
  eexists. split; [done|]. destruct (update_restrictions_player (if b then update_queue_revision s1 else s1)) as [r Hr].
  split; [apply inv_update_restrictions; destruct b; [by apply inv_update_queue_revision|done]|].
  rewrite Hr. by destruct b.
Qed.

Lemma requeue_spec l n :
  (0 ≤ n)%Z → (n + Z.of_nat (length l) ≤ u64_max)%Z →
  ∃ l' m, requeue n l = Val (l', m) ∧ length l' = length l ∧ (n ≤ m ≤ n + Z.of_nat (length l))%Z.
Proof.
  revert n. induction l as [|t l IH]; intros n Hn Hmax; simpl in *; [exists [], n; split_and!; done || lia|].
  destruct (is_from_queue t).
  - rewrite uadd_Val by lia. simpl. destruct (IH (n + 1)%Z) as (l' & m & -> & Hl & Hm); [lia..|]. simpl.
    eexists _, _. split; [done|]. simpl. rewrite Hl. split; [done|]. lia.
  - destruct (IH n) as (l' & m & -> & Hl & Hm); [lia..|]. simpl.
    eexists _, _. split; [done|]. simpl. rewrite Hl. split; [done|]. lia.
Qed.

Lemma inv_handle_set_queue next prev s :
  inv s → length next ≤ most_next → length prev ≤ most_prev →
  (0 ≤ queue_count s)%Z → (queue_count s + Z.of_nat (length next) ≤ u64_max)%Z →
  ∃ s', handle_set_queue next prev s = Val s' ∧ inv s'.
Proof.
  intros Hs Hnext Hprev Hq Hmax. unfold handle_set_queue, set_next_tracks.
  destruct (requeue_spec next (queue_count s) Hq Hmax) as (l' & m & -> & Hl & _). simpl.
  eexists. split; [done|]. apply inv_update_queue_revision, inv_prev_mut; [done|].
  apply inv_next_mut; [by rewrite length_fmap, Hl|]. by apply (inv_same s).
Qed.

(** ** Loading contexts *)

(** The gid of a context track is a byte string. *)
Definition track_msg_ok (t : ContextTrack) : Prop :=
  match ct_gid t with Some gid => bytes_ok gid | None => True end.

Lemma context_track_uri_ok t id : track_msg_ok t → context_track_uri t = Ok id → uri_ok id.
Proof.
  unfold track_msg_ok, context_track_uri. intros Hgid.
  assert (∀ g, ct_gid t = Some g → ∀ i, from_raw g = Ok i → id_ok i) as Hraw.
  { intros g Hg i. rewrite Hg in Hgid. unfold from_raw. case_decide as Hl; [|done]. intros [= <-].
    pose proof (from_be_bytes_bounds g Hgid) as Hb. rewrite Hl in Hb. unfold id_ok. cbn [SpotifyId.id].
    change (256 ^ Z.of_nat SIZE)%Z with (u128_max + 1)%Z in Hb. lia. }
  destruct (ct_uri t) as [u|].
  - destruct (str_contains "?" u); [done|]. case_decide.
    + destruct (from_uri u) eqn:E; [|done]. intros [= <-]. by eapply from_uri_ok.
    + destruct (ct_gid t) as [[|b gid]|]; [done| |done].
      destruct (from_raw (b :: gid)) eqn:E; [|done]. intros [= <-]. by eapply Hraw.
  - destruct (ct_gid t) as [[|b gid]|]; [done| |done].
    destruct (from_raw (b :: gid)) eqn:E; [|done]. intros [= <-]. by eapply Hraw.
Qed.

Lemma provided_track_total uuid t cu ci pm prov s :
  track_msg_ok t → ∃ r, context_to_provided_track uuid t cu ci pm prov s = Val r.
Proof.
  intros Ht. unfold context_to_provided_track. destruct (context_track_uri t) as [id|e] eqn:E; [|eauto].
  rewrite (to_uri_parts id) by by eapply context_track_uri_ok. simpl. eauto.
Qed.

Lemma provided_tracks_total uuids u cl md prov l s : ∀ i,
  Forall track_msg_ok l → ∃ ts, provided_tracks uuids u cl md prov i l s = Val ts ∧ length ts ≤ length l.
Proof.
  induction l as [|t l IH]; intros i Hl; [by exists []|]. apply Forall_cons in Hl as [Ht Hl]. simpl.
  destruct (provided_track_total (uuids i) t (Some u) ((λ n, n + i) <$> cl) (Some md) prov s Ht) as [r ->].
  destruct (IH (S i) Hl) as (ts & -> & Hlen). simpl. eexists. split; [done|]. destruct r; simpl; lia.
Qed.

Lemma state_context_total uuids page md restr u cl prov s :
  Forall track_msg_ok (page_tracks page) →
  ∃ c, state_context_from_page uuids page md restr u cl prov s = Val c ∧ context_ok c ∧
    length (track_list c) ≤ length (page_tracks page) ∧ index c = ContextIndex_default.
Proof.
  intros Hp. unfold state_context_from_page.
  destruct (provided_tracks_total uuids (default (context_uri s) u) cl (page_metadata page) prov
    (page_tracks page) s 0 Hp) as (ts & -> & Hl). simpl.
  eexists. split; [done|]. split_and!; try done.
Qed.

Lemma fill_context_inv uuids page s :
  Forall track_msg_ok (page_tracks page) → inv s →
  wp (fill_context_from_page uuids page) (λ s' _, inv s') s.
Proof.
  intros Hp Hs. unfold wp, fill_context_from_page.
  destruct (state_context_total uuids page ∅ None None ((λ c, length (track_list c)) <$> context s) None s Hp)
    as (c & -> & _). simpl. pose proof Hs as (_ & _ & [Hc1 Hc2] & _).
  destruct (context s) as [ctx|] eqn:Hctx; [|done]. destruct (Hc1 ctx eq_refl) as (Hpage & Htrack & Hsafe).
  apply (inv_contexts s); [done..|]. split; [|done]. intros c' [= <-].
  split; [done|]. split; [done|]. simpl. apply sv_safe_grow; [done|]. unfold track_list. rewrite length_app. lia.
Qed.

Lemma load_pages_inv uuids pages : ∀ n s,
  Forall (λ p, Forall track_msg_ok (page_tracks p)) pages → inv s →
  wp (load_pages uuids n pages) (λ s' _, inv s') s.
Proof.
  induction pages as [|page pages IH]; intros n s Hp Hs; [done|].
  apply Forall_cons in Hp as [Hpage Hp]. unfold wp. cbn [load_pages]. case_decide.
  - pose proof (fill_context_inv (uuids n) page s Hpage Hs) as Hf. unfold wp in Hf.
    destruct (fill_context_from_page (uuids n) page s) as [[s' r]|]; [|done]. by apply (IH (S n)).
  - pose proof (IH (S n) s Hp Hs) as Hr. unfold wp in Hr.
    by destruct (load_pages uuids (S n) pages s) as [[s' [rest|e]]|].
Qed.

Lemma find_first_prev_lt prevs c i :
  find_first_prev_track_index_loop prevs c = Some i → i < length (track_list c).
Proof.
  induction prevs as [|p prevs IH]; simpl; [done|].
  destruct (find_index_in_context c _) eqn:E; [|done]. intros [= <-]. by eapply find_index_lt.
Qed.

Lemma find_last_index_total c s :
  inv s → (Z.of_nat (length (track_list c)) ≤ u32_max)%Z →
  ∃ o, find_last_index_in_new_context c s = Val o ∧
    match o with Some (Ok i) | Some (Err i) => (0 ≤ i ≤ u32_max)%Z | None => True end.
Proof.
  intros (_ & _ & [Hc1 _] & Hi) Hlen. unfold find_last_index_in_new_context.
  destruct (context s) as [ctx|]; [|by exists None]. destruct (Hc1 ctx eq_refl) as (_ & Htrack & _).
  set (o := if decide _ then _ else _).
  assert (match o with Some i => (Z.of_nat i < u32_max)%Z | None => True end) as Ho.
  { unfold o. case_decide; [unfold SPOTIFY_MAX_NEXT_TRACKS_SIZE in *; lia|].
    destruct (is_queue _ || is_from_queue _).
    - unfold find_first_prev_track_index. destruct (find_first_prev_track_index_loop _ c) eqn:E; [|done].
      apply find_first_prev_lt in E. lia.
    - destruct (find_index_in_context c _) eqn:E; simpl; [|done]. apply find_index_lt in E. lia. }
  destruct o as [i|].
  - rewrite uadd_Val by (unfold wrapu; rewrite Z.mod_small; unfold u32_max in *; lia). simpl.
    eexists. split; [done|]. simpl. unfold wrapu. rewrite Z.mod_small; unfold u32_max in *; lia.
  - eexists. split; [done|]. simpl. destruct (ps_index (player s)) eqn:E; simpl; [by apply Hi|].
    unfold u32_max. lia.
Qed.

Lemma contexts_ok_context s c :
  contexts_ok s → context_ok c → contexts_ok (s <| context := Some c |>).
Proof. intros [_ H2] Hc. split; [|done]. by intros c' [= <-]. Qed.

(** The autoplay context is rewound. *)
Lemma contexts_ok_rewind s :
  contexts_ok s →
  contexts_ok (context_mut Autoplay (λ c, c <| index ::= λ i, i <| ci_track := 0%Z |> |>) s).
Proof.
  intros [Hc1 Hc2]. split; simpl; [done|]. intros x [y [Hy ->]]%fmap_Some_1.
  destruct (Hc2 y Hy) as (? & _ & ?). split; [done|]. split; [unfold u32_max; simpl; lia|done].
Qed.

Lemma keep_position_inv u c s :
  inv s → context_ok c → (Z.of_nat (length (track_list c)) ≤ u32_max)%Z →
  ∃ c' s', keep_position u c s = Val (c', s') ∧ context_ok c' ∧ inv s' ∧ tracks c' = tracks c.
Proof.
  intros Hs Hok Hlen. unfold keep_position. destruct (_ && _); [|by eexists _, _].
  destruct (find_last_index_total c s Hs Hlen) as (o & -> & Ho). cbn [mbind exec_bind].
  destruct o as [[i|i]|]; [| |by eexists _, _]; destruct Hok as (Hpage & _ & Hsafe); eexists _, _;
    (split; [done|]; split; [by split|]; split; [|done]); apply inv_clear_next.
  - apply (inv_contexts s); [done..|]. apply contexts_ok_rewind. apply Hs.
  - destruct Hs as (Hpv & Hn & Hc & _). split_and!; [done|done| |done]. by apply contexts_ok_rewind.
Qed.

Lemma update_default_inv uuids ctx page s :
  Forall track_msg_ok (page_tracks page) → (Z.of_nat (length (page_tracks page)) ≤ u32_max)%Z →
  inv s → ∃ s', update_default_context uuids ctx page s = Val s' ∧ inv s'.
Proof.
  intros Hp Hlen Hs. unfold update_default_context.
  destruct (state_context_total uuids page (ctx_metadata ctx) (ctx_restrictions ctx) (ctx_uri ctx) (Some 0) None s Hp)
    as (c & -> & Hok & Hcl & _). cbn [mbind exec_bind].
  destruct (keep_position_inv (ctx_uri ctx) c s Hs Hok) as (c' & s1 & -> & Hc' & H1 & _); [lia|].
  eexists. split; [done|]. apply (inv_contexts s1); [done..|].
  destruct H1 as (_ & _ & H1 & _). by apply contexts_ok_context.
Qed.

Lemma update_autoplay_inv uuids ctx page s :
  Forall track_msg_ok (page_tracks page) → inv s →
  ∃ s', update_autoplay_context uuids ctx page s = Val s' ∧ inv s'.
Proof.
  intros Hp Hs. unfold update_autoplay_context.
  destruct (state_context_total uuids page (ctx_metadata ctx) (ctx_restrictions ctx) (ctx_uri ctx) None
    (Some PAutoplay) s Hp) as (c & -> & Hok & _). eexists. split; [done|].
  apply (inv_contexts s); [done..|]. destruct Hs as (_ & _ & [Hc1 Hc2] & _). split; [done|].
  by intros c' [= <-].
Qed.

Definition context_msg_ok (ctx : Context) : Prop :=
  Forall (λ p, Forall track_msg_ok (page_tracks p) ∧ (Z.of_nat (length (page_tracks p)) ≤ u32_max)%Z) (ctx_pages ctx).

Lemma split_pages_spec P pages first next :
  split_pages pages = (first, next) → Forall P pages →
  Forall P next ∧ match first with Some p => P p ∧ page_tracks p ≠ [] | None => True end.
Proof.
  revert first next. induction pages as [|p pages IH]; intros first next; simpl; [by intros [= <- <-]|].
  case_decide.
  - destruct (split_pages pages) as [f n]. intros [= <- <-] [HP HPs]%Forall_cons.
    destruct (IH f n eq_refl HPs). split; [by constructor|done].
  - intros [= <- <-] [HP HPs]%Forall_cons. done.
Qed.

Lemma wp_update_context uuids ctx ty s :
  context_msg_ok ctx → inv s → wp (update_context uuids ctx ty) (λ s' _, inv s') s.
Proof.
  intros Hctx Hs. unfold wp, update_context. case_decide; [done|].
  destruct (is_local_files ctx); [done|].
  destruct (split_pages (ctx_pages ctx)) as [first next] eqn:Esp.
  destruct (split_pages_spec _ _ _ _ Esp Hctx) as [Hnext Hfirst].
  destruct first as [page|]; [|done]. destruct Hfirst as [[Hp Hlen] _].
  assert (∃ s1, (match ty with
    | Default => update_default_context (uuids 0) ctx page s
    | Autoplay => update_autoplay_context (uuids 0) ctx page s end) = Val s1 ∧ inv s1) as (s1 & -> & H1).
  { destruct ty; [by apply update_default_inv|by apply update_autoplay_inv]. }
  cbn [mbind exec_bind]. case_decide; [done|].
  assert (Forall (λ p, Forall track_msg_ok (page_tracks p)) next) as Hn.
  { eapply Forall_impl; [exact Hnext|]. by intros ? [? _]. }
  pose proof (load_pages_inv uuids next 1 s1 Hn H1) as Hl. unfold wp in Hl.
  by destruct (load_pages uuids 1 next s1) as [[s' [l|e]]|].
Qed.

(** ** Transfers *)

(** The lists and the index of a player state. *)
Definition lists_of (p : PlayerState) := (ps_prev_tracks p, ps_next_tracks p, ps_index p, ps_track p).

Lemma transfer_playback_lists tr p : lists_of (transfer_playback tr p) = lists_of p.
Proof.
  unfold transfer_playback. destruct (tr_options tr), (pb_playback_speed _) as [sp|]; try done;
    by destruct (f64_nonzero sp).
Qed.
Lemma transfer_session_lists se p : lists_of (transfer_session se p) = lists_of p.
Proof. unfold transfer_session. destruct se as [se|]; [|done]. by destruct (se_context se). Qed.

Lemma inv_player_mut f s : (∀ p, lists_of (f p) = lists_of p) → inv s → inv (player_mut f s).
Proof.
  intros Hf Hs. specialize (Hf (player s)). unfold lists_of in Hf. injection Hf as ? ? ? ?.
  by apply (inv_same s).
Qed.

Lemma inv_handle_initial_transfer tr u s : inv s → inv (handle_initial_transfer tr u s).2.
Proof.
  intros Hs. unfold handle_initial_transfer. cbn [snd].
  apply inv_update_queue_revision, inv_clear_next, inv_clear_prev.
  set (s1 := player_mut _ s). apply (inv_same s1); [|done..]. apply inv_player_mut; [|done].
  intros p. transitivity (lists_of (transfer_session (tr_current_session tr) (transfer_playback tr p))).
  - by destruct (context s).
  - by rewrite transfer_session_lists, transfer_playback_lists.
Qed.

(** Room for the transferred queue in the queue counter. *)
Lemma queue_transferred_inv uuids pq l : ∀ i s,
  Forall track_msg_ok l → inv s → (0 ≤ queue_count s)%Z →
  (queue_count s + Z.of_nat (length l) < u64_max)%Z →
  wp (queue_transferred uuids pq i l) (λ s' r, inv s' ∧ r = Ok () ∧ active_context s' = active_context s ∧
    context s' = context s ∧ autoplay_context s' = autoplay_context s) s.
Proof.
  induction l as [|t l IH]; intros i s Hl Hs Hq Hmax; [done|]. apply Forall_cons in Hl as [Ht Hl].
  cbn [queue_transferred length] in *. case_decide.
  { eapply wp_mono; [apply (IH (S i) s); [done|done|done|lia]|done]. }
  unfold wp. destruct (provided_track_total (uuids i) t (Some (context_uri s)) None None (Some PQueue) s Ht)
    as [[t'|e] ->].
  - destruct (inv_add_to_queue t' false s) as (s1 & -> & H1 & Hq1 & Ha1 & Hc1 & Hx1 & _); [lia|done|].
    eapply wp_mono; [apply (IH (S i) s1); [done|done|lia|lia]|]. simpl. intros s2 r (? & ? & -> & -> & ->). done.
  - eapply wp_mono; [apply (IH (S i) s); [done|done|done|lia]|done].
Qed.

Definition transfer_msg_ok (tr : TransferState) : Prop :=
  Forall track_msg_ok (q_tracks (default Queue_default (tr_queue tr))) ∧
  match pb_current_track (default Playback_default (tr_playback tr)) with
  | Some t => track_msg_ok t
  | None => True
  end.

Lemma current_track_from_transfer_total uuid tr s :
  transfer_msg_ok tr → ∃ r, current_track_from_transfer uuid tr s = Val r.
Proof.
  intros [Hq Hp]. unfold current_track_from_transfer. destruct (is_playing_queue tr).
  - destruct (q_tracks _) as [|t l]; simpl; [eauto|]. apply Forall_cons in Hq as [Ht _].
    by apply provided_track_total.
  - destruct (pb_current_track _) as [t|]; [|eauto]. by apply provided_track_total.
Qed.

Lemma transfer_index_lt tr t c i : transfer_index tr t c = Ok i → i < length (track_list c).
Proof.
  unfold transfer_index. destruct (tr_current_session tr ≫= se_current_uid) as [u|]; [|apply find_index_lt].
  destruct (is_queue t); [|apply find_index_lt].
  destruct (find_index_in_context c _) as [j|e] eqn:E; [|done]. apply find_index_lt in E.
  intros [= <-]. case_decide; lia.
Qed.

Section transfer_inv.
Context {R : Type} {rng_R : Rng R} {rng_laws : RngLaws R}.

(** The last part of [finish_transfer]: shuffle or start at the position. *)
Lemma wp_transfer_start seed index s :
  inv s → (∀ i, index = Some i → (Z.of_nat i < usize_max)%Z ∧
    ∀ c, context_of (active_context s) s = Some c → i ≤ length (track_list c)) →
  wp (s ← st_get;
      _ ← (if shuffling_context s then
             _ ← set_current_track (default 0 index);
             _ ← st_modify (set_shuffle true);
             s ← st_get;
             _ ← st_modify (λ s, s <| transfer_shuffle := None |>);
             match transfer_shuffle s with
             | None => shuffle_new (R:=R) seed
             | Some state => shuffle_restore (R:=R) state
             end
           else reset_playback_to_position index);
      st_modify update_restrictions) (λ s' _, inv s') s.
Proof.
  intros Hs Hidx. wp_step. wp_step. apply wp_bind.
  apply (wp_mono _ (λ s' _, inv s')).
  2:{ intros s' [[]|e] Hs'; [|done]. wp_steps. by apply inv_update_restrictions. }
  destruct (shuffling_context s).
  - wp_use (wp_set_current_track (default 0 index) s Hs). intros s1 [[]|e] (H1 & _); [|done]. wp_steps.
    assert (inv (set_shuffle true s1 <| transfer_shuffle := None |>)) as H2.
    { apply (inv_same (set_shuffle true s1)); [by apply inv_options|done..]. }
    destruct (transfer_shuffle _); [by apply wp_shuffle_restore|by apply wp_shuffle_new].
  - apply wp_reset_playback; [done|..].
    + destruct index as [i|]; simpl; [by apply Hidx|done].
    + destruct index as [i|]; simpl; [by apply Hidx|intros; lia].
Qed.

Lemma wp_finish_transfer uuid uuids seed tr s :
  inv s → lengths_ok s → transfer_msg_ok tr → (0 ≤ queue_count s)%Z →
  (queue_count s + Z.of_nat (length (q_tracks (default Queue_default (tr_queue tr)))) < u64_max)%Z →
  wp (finish_transfer (R:=R) uuid uuids seed tr) (λ s' _, inv s') s.
Proof.
  intros Hs Hlen Htr Hq Hmax. unfold finish_transfer. wp_step. wp_step. apply wp_bind.
  apply (wp_mono _ (λ s' _, s' = s)).
  { destruct (ps_track (player s)); [done|]. unfold wp.
    by destruct (current_track_from_transfer_total uuid tr s Htr) as [r ->]. }
  intros s' [track|e] ->; [|done]. wp_step. wp_step. wp_step. wp_step. wp_step. wp_step.
  set (ty := if is_from_autoplay _ then Autoplay else Default).
  set (s1 := set_active_context ty s <| fill_up_context := ty |>).
  destruct (set_active_context_same ty s) as (Hp & Hn & Hc & Hx & Hi & _ & _ & Hqc & Ha).
  assert (inv s1) as H1 by (apply (inv_same s); done).
  unfold get_context_m. wp_step. wp_step. wp_step. unfold get_context.
  destruct (context_of (active_context s1) s1) as [ctx|] eqn:Hctx; cbn [ok_or lift_state]; wp_step; [|done].
  set (index := result_ok (transfer_index tr track ctx)).
  wp_step. wp_step. wp_step. wp_step. set (s2 := match index with Some _ => _ | None => _ end).
  set (s1' := match ps_track (player s1) with Some _ => s1 | None => set_track track s1 end) in s2.
  assert (inv s2 ∧ queue_count s2 = queue_count s ∧ active_context s2 = active_context s1 ∧
    context s2 = context s1 ∧ autoplay_context s2 = autoplay_context s1) as (H2 & Hq2 & Ha2 & Hc2 & Hx2).
  { assert (inv s1' ∧ queue_count s1' = queue_count s ∧ active_context s1' = active_context s1 ∧
      context s1' = context s1 ∧ autoplay_context s1' = autoplay_context s1) as (H1' & ? & ? & ? & ?).
    { unfold s1'. destruct (ps_track (player s1)); [done|]. split_and!; try done. }
    unfold s2. destruct index; [|done]. split_and!; try done. by apply inv_set_track_index. }
  wp_use (queue_transferred_inv uuids (is_playing_queue tr) _ 0 s2 (proj1 Htr) H2 ltac:(lia) ltac:(lia)).
  intros s3 r (H3 & -> & Ha3 & Hc3 & Hx3). apply wp_transfer_start; [done|].
  intros i Hi'. unfold index in Hi'. destruct (transfer_index tr track ctx) as [j|e] eqn:Ei; [|done].
  injection Hi' as ->. apply transfer_index_lt in Ei.
  assert (∀ c, context_of (active_context s3) s3 = Some c → c = ctx) as Hsame.
  { intros c Hc'. enough (context_of (active_context s1) s1 = Some c) by congruence.
    rewrite <- Hc', Ha3, Ha2. unfold context_of. by rewrite Hc3, Hc2, Hx3, Hx2. }
  split; [|intros c ->%Hsame; lia].
  enough (Z.of_nat (length (track_list ctx)) < usize_max)%Z by lia.
  apply (Hlen (active_context s1)). rewrite <- Hctx. unfold context_of.
  change (context s1) with (context (set_active_context ty s)).
  change (autoplay_context s1) with (autoplay_context (set_active_context ty s)). by rewrite Hc, Hx.
Qed.
End transfer_inv.

(** ** The remaining commands *)

Lemma merge_track_ok t c : context_ok c → context_ok (merge_track t c).
Proof.
  intros Hc. unfold merge_track. case_decide; [done|]. destruct (find_index_in_context c _); [|done].
  destruct Hc as (Hp & Ht & Hs). split; [done|]. split; [done|]. apply sv_safe_grow; [done|].
  by rewrite length_alter.
Qed.

Lemma inv_merge_context page s : inv s → inv (merge_context page s).2.
Proof.
  intros Hs. unfold merge_context. destruct (context s) as [c|] eqn:Hc; [|done]. destruct page as [p|]; [|done].
  apply (inv_contexts s); [done..|]. destruct Hs as (_ & _ & Hok & _). apply contexts_ok_context; [done|].
  destruct Hok as [Hok _]. specialize (Hok c Hc). clear Hc. revert c Hok.
  induction (page_tracks p) as [|t l IH]; intros c Hok; simpl; [done|]. by apply IH, merge_track_ok.
Qed.

Lemma inv_reset s : contexts_ok s → inv (reset s).
Proof. intros Hc. split_and!; [unfold prev_within; simpl; lia|unfold next_within; simpl; lia|done|done]. Qed.

Lemma inv_new cfg session : inv (new cfg session).
Proof. apply inv_reset. by split. Qed.

Lemma inv_set_status st s : inv s → inv (set_status st s).
Proof. intros Hs. apply inv_update_restrictions. by apply (inv_same s). Qed.
End inv.

(** ** Commands and reachable states *)

Inductive command :=
| NextTrack
| PrevTrack
| SetCurrentTrack (i : nat)
| AddToQueue (t : ProvidedTrack) (rev_update : bool)
| SetQueue (next prev : list ProvidedTrack)
| MarkUnavailable (id : SpotifyUri)
| ResetPlayback (new_index : option nat)
| HandleShuffle (new_seed : Z) (on : bool)
| HandleRepeatContext (repeat : bool)
| SetRepeatTrack (repeat : bool)
| ResetContextTo (how : ResetContext)
| UpdateContext (uuids : nat → nat → string) (ctx : Context) (ty : ContextType)
| FillContext (uuids : nat → string) (page : ContextPage)
| MergeContext (page : option ContextPage)
| InitialTransfer (tr : TransferState) (uri : option string)
| FinishTransfer (uuid : string) (uuids : nat → string) (new_seed : Z) (tr : TransferState)
| SetStatus (status : SpircPlayStatus)
| BecomeInactive.

Section commands.
Context `{DefaultHasher} {R : Type} {rng_R : Rng R}.

(** Run a command for its effect on the state; errors are reported to the
    caller and leave the state as the command left it. *)
Definition effect {A} (m : M A) (s : ConnectState) : exec ConnectState := '(s', _) ← m s; Val s'.

Definition run (c : command) (s : ConnectState) : exec ConnectState :=
  match c with
  | NextTrack => effect next_track s
  | PrevTrack => effect prev_track s
  | SetCurrentTrack i => effect (set_current_track i) s
  | AddToQueue t b => add_to_queue t b s
  | SetQueue next prev => handle_set_queue next prev s
  | MarkUnavailable id => effect (mark_unavailable id) s
  | ResetPlayback i => effect (reset_playback_to_position i) s
  | HandleShuffle seed on => effect (handle_shuffle (R:=R) seed on) s
  | HandleRepeatContext b => effect (handle_set_repeat_context b) s
  | SetRepeatTrack b => Val (set_repeat_track b s)
  | ResetContextTo how => reset_context how s
  | UpdateContext uuids ctx ty => effect (update_context uuids ctx ty) s
  | FillContext uuids page => effect (fill_context_from_page uuids page) s
  | MergeContext page => Val (merge_context page s).2
  | InitialTransfer tr u => Val (handle_initial_transfer tr u s).2
  | FinishTransfer uuid uuids seed tr => effect (finish_transfer (R:=R) uuid uuids seed tr) s
  | SetStatus st => Val (set_status st s)
  | BecomeInactive => became_inactive s
  end.

(** The position does not exceed the number of tracks of the active context. *)
Definition position_ok (i : nat) s : Prop :=
  (Z.of_nat i < usize_max)%Z ∧
  ∀ c, context_of (active_context s) s = Some c → i ≤ length (track_list c).

(** What the caller guarantees: counters that do not overflow, messages whose
    byte fields are bytes, and positions within the context. *)
Definition command_pre (c : command) (s : ConnectState) : Prop :=
  match c with
  | AddToQueue _ _ => (0 ≤ queue_count s < u64_max)%Z
  | SetQueue next prev =>
      (0 ≤ queue_count s)%Z ∧ (queue_count s + Z.of_nat (length next) ≤ u64_max)%Z
  | MarkUnavailable id => uri_ok id
  | ResetPlayback i => position_ok (default 0 i) s
  | HandleShuffle _ on =>
      lengths_ok s ∧
      (on = false → ∀ t i, ps_track (player s) = Some t → get_context_index t = Some i →
         (Z.of_nat i < usize_max)%Z ∧ ∀ c, context s = Some c → i ≤ length (track_list c))
  | HandleRepeatContext _ =>
      lengths_ok s ∧ ∀ c c', context_of (active_context s) s = Some c → context s = Some c' →
        length (track_list c') ≤ length (track_list c)
  | UpdateContext _ ctx _ => context_msg_ok ctx
  | FillContext _ page => Forall track_msg_ok (page_tracks page)
  | FinishTransfer _ _ _ tr =>
      lengths_ok s ∧ transfer_msg_ok tr ∧ (0 ≤ queue_count s)%Z ∧
      (queue_count s + Z.of_nat (length (q_tracks (default Queue_default (tr_queue tr)))) < u64_max)%Z
  | _ => True
  end.

(** The tracks a remote sets: previous and next ones. *)
Definition sets (c : command) : nat * nat :=
  match c with SetQueue next prev => (length prev, length next) | _ => (0, 0) end.

(** The states the commands lead to, with the most tracks that were kept or set
    on the way. *)
Inductive reachable : nat → nat → ConnectState → Prop :=
| reachable_new cfg session : reachable SPOTIFY_MAX_PREV_TRACKS_SIZE SPOTIFY_MAX_NEXT_TRACKS_SIZE (new cfg session)
| reachable_run c prev next s s' :
    reachable prev next s → command_pre c s → run c s = Val s' →
    reachable (prev `max` (sets c).1) (next `max` (sets c).2) s'.

Section limits.
Context `{L : Limits}.

Lemma effect_wp {A} (m : M A) s : wp m (λ s' _, inv s') s → ∃ s', effect m s = Val s' ∧ inv s'.
Proof. intros (s' & r & E & Hs')%wp_Val. exists s'. unfold effect. by rewrite E. Qed.

Context {rng_laws : RngLaws R}.

Lemma run_inv c s :
  inv s → command_pre c s → (sets c).1 ≤ most_prev → (sets c).2 ≤ most_next → ∃ s', run c s = Val s' ∧ inv s'.
Proof.
  intros Hs Hpre Hsp Hsn. destruct c; cbn [run command_pre sets fst snd] in *.
  - by apply effect_wp, wp_next_track.
  - by apply effect_wp, wp_prev_track.
  - apply effect_wp. eapply wp_mono; [by apply wp_set_current_track|]. by intros ? ? (? & _).
  - destruct (inv_add_to_queue t rev_update s Hpre Hs) as (s' & ? & ? & _). eauto.
  - apply inv_handle_set_queue; tauto.
  - by apply effect_wp, wp_mark_unavailable.
  - destruct Hpre. by apply effect_wp, wp_reset_playback.
  - destruct Hpre as [Hl Hpre]. apply effect_wp, wp_handle_shuffle; [done|done|..].
    + intros Hon t i c0 Ht Hi Hc. by apply (Hpre Hon t i Ht Hi).
    + intros Hon t i Ht Hi. by apply (Hpre Hon t i Ht Hi).
  - destruct Hpre. by apply effect_wp, wp_handle_set_repeat_context.
  - eexists. split; [done|]. by apply inv_options.
  - destruct (reset_context_spec how s Hs) as (s' & ? & ? & _). eauto.
  - by apply effect_wp, wp_update_context.
  - by apply effect_wp, fill_context_inv.
  - eexists. split; [done|]. by apply inv_merge_context.
  - eexists. split; [done|]. by apply inv_handle_initial_transfer.
  - destruct Hpre as (? & ? & ? & ?). by apply effect_wp, wp_finish_transfer.
  - eexists. split; [done|]. by apply inv_set_status.
  - destruct Hs as (_ & _ & Hc & _). destruct (reset_context_spec Completely (reset s)) as (s' & ? & ? & _);
      [by apply inv_reset|]. eauto.
Qed.
End limits.
End commands.

Definition limits_of (prev next : nat) (Hp : SPOTIFY_MAX_PREV_TRACKS_SIZE ≤ prev) (Hn : SPOTIFY_MAX_NEXT_TRACKS_SIZE ≤ next) : Limits :=
  {| most_prev := prev; most_next := next; most_prev_ge := Hp; most_next_ge := Hn |}.

Lemma inv_more (L L' : Limits) s :
  most_prev (Limits:=L) ≤ most_prev (Limits:=L') → most_next (Limits:=L) ≤ most_next (Limits:=L') → inv (L:=L) s → inv (L:=L') s.
Proof. intros H1 H2 (Hp & Hn & ?). split_and!; [unfold prev_within in *; lia|unfold next_within in *; lia|tauto|tauto]. Qed.

Lemma reachable_inv `{DefaultHasher} {R : Type} {rng_R : Rng R} {rng_laws : RngLaws R} prev next s :
  reachable (R:=R) prev next s → ∃ Hp Hn, inv (L:=limits_of prev next Hp Hn) s.
Proof.
  induction 1 as [cfg session|c prev next s s' _ (Hp & Hn & Hs) Hpre E].
  { exists (le_n _), (le_n _). apply inv_new. }
  assert (SPOTIFY_MAX_PREV_TRACKS_SIZE ≤ prev `max` (sets c).1) as Hp' by lia.
  assert (SPOTIFY_MAX_NEXT_TRACKS_SIZE ≤ next `max` (sets c).2) as Hn' by lia.
  exists Hp', Hn'. destruct (run_inv (R:=R) (L:=limits_of _ _ Hp' Hn') c s) as (s1 & E1 & H1); [|done|simpl; lia|simpl; lia|congruence].
  eapply inv_more; [..|exact Hs]; simpl; lia.
Qed.

(** C30: the connect state may be driven by any commands.  In every state they
    lead to there are at most 10 previous and 80 next tracks, or as many as the
    longest lists a remote has set, which are taken as they are; the indices fit
    32 bits and the recorded shuffles are in range; and every command whose
    precondition holds runs to completion without a panic (errors are returned as
    values). *)
Theorem connect_safety `{DefaultHasher} {R : Type} {rng_R : Rng R} {rng_laws : RngLaws R} prev next s :
  reachable (R:=R) prev next s →
  length (prev_tracks s) ≤ prev ∧ length (next_tracks s) ≤ next ∧ contexts_ok s ∧ index_ok s ∧
  ∀ c, command_pre c s → ∃ s', run (R:=R) c s = Val s' ∧ reachable (R:=R) (prev `max` (sets c).1) (next `max` (sets c).2) s'.
Proof.
  intros Hr. destruct (reachable_inv prev next s Hr) as (Hp & Hn & Hs).
  split_and!; try apply Hs. intros c Hpre.
  destruct (run_inv (R:=R) (L:=limits_of (prev `max` (sets c).1) (next `max` (sets c).2) ltac:(lia) ltac:(lia)) c s)
    as (s' & E & _); [|done|simpl; lia|simpl; lia|].
  { eapply inv_more; [..|exact Hs]; simpl; lia. }
  exists s'. split; [done|]. by eapply reachable_run.
Qed.

(** The limits of the program itself. *)
#[export] Instance spotify_limits : Limits := limits_of _ _ (le_n _) (le_n _).

Lemma connect_safety_witness :
  ∃ s, @reachable length_hasher Z lcg_rng 10 100 s ∧ length (next_tracks s) = 100 ∧ length (prev_tracks s) = 1.
Proof.
  set (s0 := new ConnectConfig_default example_session).
  destruct (@connect_safety length_hasher Z lcg_rng lcg_laws 10 80 s0 (reachable_new _ _))
    as (_ & _ & _ & _ & Hrun).
  destruct (Hrun (SetQueue (replicate 100 (example_track "a" PQueue)) [example_track "b" PContext])) as (s & E & Hs);
    [vm_compute; split; congruence|].
  exists s. split; [exact Hs|]. vm_compute in E. injection E as <-. split; reflexivity.
Defined.
