(* ===== verification/ConnectProps.v ===== *)
(** * What the playback commands do

    Skipping forwards and backwards, removing unavailable tracks, shuffling
    and unshuffling a context, loading a context, and reporting the play
    status. *)

From S2P Require Import Prelude Digits Text SpotifyId SpotifyUri Protocol ShuffleVec StateMonad.
From S2P Require Import ConnectData ConnectQueue ConnectContext ConnectState ConnectFill ConnectInv.

Local Open Scope string_scope.
Local Open Scope list_scope.
Local Open Scope nat_scope.

(** ** Skipping *)

Section skip.
Context `{DefaultHasher}.
Implicit Types (s : ConnectState) (t : ProvidedTrack).

Definition from_context t : bool := is_context t || is_autoplay t.

(** The outcome of a fill-up in a state that satisfies the invariant. *)
Lemma fill_up_prefix s :
  inv s → is_Some (context_of (fill_up_context s) s) →
  ∃ s' added, fill_up_next_tracks s = Val (s', Ok ()) ∧ inv s' ∧
    next_tracks s' = next_tracks s ++ added ∧ prev_tracks s' = prev_tracks s ∧
    is_Some (context_of (fill_up_context s') s').
Proof.
  intros Hs [ctx Hctx]. pose proof (wp_fill s Hs) as Hw. destruct Hs as (Hp & Hn & Hc & Hi).
  destruct (fill_up_spec s ctx Hc Hn Hctx) as (s' & E & Hnext & Hframe & _).
  unfold wp in Hw. rewrite E in Hw. destruct Hw as [H' _]. exists s', (take (room s) (stream s)).
  split_and!; [done..| |].
  - by destruct Hframe as (? & ? & ? & ? & ? & -> & _).
  - destruct Hframe as (? & ? & c & a & f & -> & _ & _ & Hf). by destruct f.
Qed.

Lemma retire_track_context s t :
  ps_track (player s) = Some t → from_context t = true →
  retire_track s = push_prev t (take_track s).2.
Proof. intros Ht Hf. unfold retire_track. simpl. rewrite Ht. unfold from_context in Hf. by rewrite Hf. Qed.

Lemma enter_track_same t s :
  next_tracks (enter_track t s) = next_tracks s ∧ prev_tracks (enter_track t s) = prev_tracks s ∧
  ps_track (player (enter_track t s)) = Some t ∧ fill_up_context (enter_track t s) = fill_up_context s ∧
  context (enter_track t s) = context s ∧ autoplay_context (enter_track t s) = autoplay_context s.
Proof.
  unfold enter_track. destruct (set_active_context_same Autoplay s) as (Hp & Hn & Hc & Hx & _ & _ & Hf & _).
  destruct (is_queue t); [|destruct (is_autoplay t); [|destruct (get_context_index t)]];
    cbn beta iota zeta delta [fmap option_fmap option_map];
    match goal with |- context [update_restrictions ?x] =>
      destruct (update_restrictions_player x) as [r ->] end;
    split_and!; first [reflexivity|exact Hn|exact Hp|exact Hf|exact Hc|exact Hx].
Qed.

Lemma next_track_spec s t n rest :
  inv s → ps_track (player s) = Some t → from_context t = true →
  next_tracks s = n :: rest → is_delimiter n = false → is_unavailable n = false →
  is_Some (context_of (fill_up_context s) s) →
  ∃ s' added r, next_track s = Val (s', Ok (Some r)) ∧ inv s' ∧ ps_track (player s') = Some n ∧
    next_tracks s' = rest ++ added ∧ prev_tracks s' = prev_tracks (push_prev t s) ∧
    is_Some (context_of (fill_up_context s') s').
Proof.
  intros Hs Ht Hfc Hn Hd Hu Hctx. unfold next_track. rewrite st_modify_bind, st_modify_bind, st_get_bind.
  set (s1 := if repeat_track s then set_repeat_track false s else s).
  assert (inv s1 ∧ ps_track (player s1) = Some t ∧ next_tracks s1 = n :: rest ∧ prev_tracks s1 = prev_tracks s ∧
    is_Some (context_of (fill_up_context s1) s1)) as (H1 & Ht1 & Hn1 & Hp1 & Hc1).
  { unfold s1. destruct (repeat_track s); [|done]. split; [by apply inv_options|].
    unfold set_repeat_track, options_mut, add_options_if_empty. by destruct (ps_options (player s)). }
  clearbody s1. pose proof (inv_retire_track s1 H1) as H2. rewrite (retire_track_context s1 t Ht1 Hfc) in *.
  set (s2 := push_prev t (take_track s1).2) in *.
  assert (next_tracks s2 = n :: rest) as -> by done. cbn [next_loop]. rewrite Hd, Hu, st_modify_bind.
  set (s3 := next_tracks_mut tail s2).
  assert (inv s3) as H3.
  { apply inv_next_mut; [|done]. destruct H2 as (_ & Hn2 & _). unfold next_within in Hn2.
    destruct (next_tracks s2); simpl in *; lia. }
  destruct (fill_up_prefix s3 H3 Hc1) as (s4 & added & E & H4 & Hn4 & Hp4 & Hc4).
  rewrite (st_bind_Ok _ _ _ _ _ E), st_modify_bind, st_get_bind.
  destruct (enter_track_same n s4) as (En & Ep & Et & Ef & Ec & Ex).
  eexists _, added, _. split; [done|]. split_and!.
  - by apply inv_enter_track.
  - done.
  - rewrite En, Hn4. unfold s3. rewrite next_tracks_next_tracks_mut.
    by change (next_tracks s2) with (next_tracks s1); rewrite Hn1.
  - rewrite Ep, Hp4. unfold s3. change (prev_tracks (next_tracks_mut tail s2)) with (prev_tracks s2).
    unfold s2. rewrite !push_prev_tracks. by change (prev_tracks (take_track s1).2) with (prev_tracks s1); rewrite Hp1.
  - unfold context_of in *. by rewrite Ef, Ec, Ex.
Qed.

Lemma reenter_track_same t s :
  next_tracks (reenter_track t s) = next_tracks s ∧ prev_tracks (reenter_track t s) = prev_tracks s ∧
  ps_track (player (reenter_track t s)) = Some t.
Proof.
  unfold reenter_track.
  match goal with |- context [update_restrictions ?x] => destruct (update_restrictions_player x) as [r ->] end.
  by case_decide.
Qed.

Lemma last_push_prev t s : last (prev_tracks (push_prev t s)) = Some t.
Proof. rewrite push_prev_tracks. apply last_snoc. Qed.

Lemma prev_track_spec s n t l :
  inv s → ps_track (player s) = Some n → from_context n = true →
  prev_tracks s = l ++ [t] → is_delimiter t = false →
  is_Some (context_of (fill_up_context s) s) →
  ∃ s' added, prev_track s = Val (s', Ok (Some t)) ∧ inv s' ∧ ps_track (player s') = Some t ∧
    next_tracks s' = take SPOTIFY_MAX_NEXT_TRACKS_SIZE (n :: next_tracks s) ++ added ∧ prev_tracks s' = l.
Proof.
  intros Hs Hn Hfc Hp Hd Hctx. unfold prev_track. rewrite !st_modify_bind, st_get_bind.
  set (s1 := return_track s). assert (s1 = next_tracks_mut (cons n) (take_track s).2) as Hs1.
  { unfold s1, return_track. simpl. rewrite Hn. unfold from_context in Hfc. by rewrite Hfc. }
  assert (return_delimiter s1 = s1) as ->.
  { unfold return_delimiter. assert (prev_tracks s1 = l ++ [t]) as -> by by rewrite Hs1.
    by rewrite last_snoc, Hd. }
  set (s2 := next_tracks_mut _ s1).
  assert (inv s2) as H2.
  { apply inv_cut, pre_inv_return_track. destruct Hs as (? & _ & ? & ?). by split_and!. }
  assert (prev_tracks s2 = l ++ [t]) as Hp2 by (unfold s2; by rewrite Hs1).
  assert (next_tracks s2 = take SPOTIFY_MAX_NEXT_TRACKS_SIZE (n :: next_tracks s)) as Hn2.
  { unfold s2. rewrite next_tracks_next_tracks_mut, pop_while_longer_take. by rewrite Hs1. }
  assert (is_Some (context_of (fill_up_context s2) s2)) as Hc2.
  { unfold s2. rewrite Hs1. exact Hctx. }
  clearbody s2. rewrite Hp2, last_snoc. rewrite !st_modify_bind.
  set (s3 := prev_tracks_mut (@removelast _) s2).
  assert (inv s3 ∧ prev_tracks s3 = l ∧ next_tracks s3 = next_tracks s2 ∧
    is_Some (context_of (fill_up_context s3) s3)) as (H3 & Hp3 & Hn3 & Hc3).
  { split_and!; [|unfold s3|done|exact Hc2].
    - apply inv_prev_mut; [|done]. destruct H2 as (Hpo & _). unfold prev_within in Hpo. rewrite length_removelast. lia.
    - change (removelast (prev_tracks s2) = l). rewrite Hp2. apply removelast_last. }
  clearbody s3. set (s4 := if decide _ then _ else _).
  assert (inv s4 ∧ prev_tracks s4 = l ∧ next_tracks s4 = next_tracks s2 ∧
    is_Some (context_of (fill_up_context s4) s4)) as (H4 & Hp4 & Hn4 & Hc4).
  { unfold s4. case_decide; [|done].
    destruct (set_active_context_same Default s3) as (Ep & En & Ec & Ex & _ & _ & Ef & _).
    rewrite Ep, En. split_and!; [by apply inv_set_active_context|done|done|].
    unfold context_of in *. by rewrite Ef, Ec, Ex. }
  clearbody s4. destruct (fill_up_prefix s4 H4 Hc4) as (s5 & added & E & H5 & Hn5 & Hp5 & _).
  rewrite (st_bind_Ok _ _ _ _ _ E), st_modify_bind, st_get_bind.
  destruct (reenter_track_same t s5) as (En & Ep & Et). eexists _, added. split.
  { unfold mret, st_ret, current_track. by rewrite Et. }
  split_and!; [by apply inv_reenter_track|done| |congruence]. by rewrite En, Hn5, Hn4, Hn2.
Qed.
End skip.

(** Skipping forwards and then backwards returns to the same track, with
    the upcoming tracks of before still upcoming in the same order, and the
    previous tracks of before (less the oldest one when the list was full). *)
Lemma next_then_prev `{DefaultHasher} s t n rest :
  inv s → ps_track (player s) = Some t → from_context t = true → is_delimiter t = false →
  next_tracks s = n :: rest → from_context n = true → is_delimiter n = false →
  is_Some (context_of (fill_up_context s) s) →
  ∃ s1 s2 r, next_track s = Val (s1, Ok (Some r)) ∧ current_track s1 = n ∧
    prev_track s1 = Val (s2, Ok (Some t)) ∧ current_track s2 = t ∧
    next_tracks s `prefix_of` next_tracks s2 ∧
    prev_tracks s2 = (if decide (SPOTIFY_MAX_PREV_TRACKS_SIZE ≤ length (prev_tracks s))
                      then tail (prev_tracks s) else prev_tracks s).
Proof.
  intros Hs Ht Hfct Hdt Hn Hfcn Hdn Hctx.
  assert (is_unavailable n = false) as Hun.
  { unfold from_context, is_context, is_autoplay, is_unavailable in *.
    apply bool_decide_eq_false. intros E. rewrite E in Hfcn. discriminate. }
  destruct (next_track_spec s t n rest Hs Ht Hfct Hn Hdn Hun Hctx) as (s1 & a1 & r & E1 & H1 & Ht1 & Hn1 & Hp1 & Hc1).
  rewrite push_prev_tracks in Hp1.
  destruct (prev_track_spec s1 n t _ H1 Ht1 Hfcn Hp1 Hdt Hc1) as (s2 & a2 & E2 & H2 & Ht2 & Hn2 & Hp2).
  exists s1, s2, r. unfold current_track. rewrite Ht1, Ht2. split_and!; [done..| |done].
  rewrite Hn2, Hn1, Hn. destruct Hs as (_ & Hok & _). unfold next_within in Hok. rewrite Hn in Hok.
  apply prefix_app_r. rewrite app_comm_cons. rewrite take_app_ge by done. apply prefix_app_r. done.
Qed.

(** The example state while a track is playing. *)
Definition example_playing (t : ProvidedTrack) (next : list ProvidedTrack) : ConnectState :=
  set_track t (example_fill_state next).

Lemma example_playing_inv t next : length next ≤ 80 → inv (example_playing t next).
Proof.
  intros Hl. split_and!; [vm_compute; lia|exact Hl| |by intros i [=]].
  split; intros c [= <-]; repeat split; vm_compute; congruence.
Qed.

(** ** Unavailable tracks *)

Section unavailable.
Context `{DefaultHasher}.
Implicit Types s : ConnectState.

Lemma mark_filter_id u l :
  mark_as_unavailable_for_match u <$> remove_while (λ t, bool_decide (uri t = u)) l =
  filter (λ t, uri t ≠ u) l.
Proof.
  rewrite remove_while_filter.
  assert (filter (λ x, bool_decide (uri x = u) = false) l = filter (λ t, uri t ≠ u) l) as ->.
  { apply list_filter_iff. intros t. apply bool_decide_eq_false. }
  induction l as [|t l IH]; [done|]. rewrite filter_cons. case_decide as Hd; [|done].
  rewrite fmap_cons, IH. f_equal. unfold mark_as_unavailable_for_match. by rewrite decide_False.
Qed.

(** The state in which the fill-up of [mark_unavailable] runs. *)
Definition without_uri (u : string) s : ConnectState :=
  prev_tracks_mut (filter (λ t, uri t ≠ u)) (next_tracks_mut (filter (λ t, uri t ≠ u)) s)
    <| unavailable_uri ::= λ l, l ++ [u] |>.

Lemma mark_uri_unavailable_spec u s :
  inv s → is_Some (context_of (fill_up_context s) s) →
  ∃ s', mark_uri_unavailable u s = Val (s', Ok ()) ∧ inv s' ∧
    prev_tracks s' = filter (λ t, uri t ≠ u) (prev_tracks s) ∧
    next_tracks s' = filter (λ t, uri t ≠ u) (next_tracks s) ++
                     take (room (without_uri u s)) (stream (without_uri u s)) ∧
    unavailable_uri s' = unavailable_uri s ++ [u].
Proof.
  intros Hs Hctx. pose proof (wp_mark_uri_unavailable u s Hs) as Hw. unfold wp in Hw.
  unfold mark_uri_unavailable in *. rewrite !st_modify_bind in *.
  set (s1 := _ <| unavailable_uri ::= _ |>) in *.
  assert (s1 = without_uri u s) as Hs1.
  { unfold s1, without_uri, prev_tracks_mut, next_tracks_mut, player_mut. simpl. by rewrite !mark_filter_id. }
  rewrite Hs1 in *. assert (inv (without_uri u s)) as Hinv.
  { rewrite <- Hs1. apply (inv_same (prev_tracks_mut (λ l, mark_as_unavailable_for_match u <$>
      remove_while (λ t, bool_decide (uri t = u)) l) (next_tracks_mut (λ l,
      mark_as_unavailable_for_match u <$> remove_while (λ t, bool_decide (uri t = u)) l) s)));
      [by apply inv_mark_prev, inv_mark|done..]. }
  destruct Hctx as [ctx Hctx]. destruct Hinv as (Hp & Hn & Hc & Hi).
  destruct (fill_up_spec (without_uri u s) ctx Hc Hn Hctx) as (s2 & E & Hnext & Hframe & _).
  rewrite (st_bind_Ok _ _ _ _ _ E) in *. eexists. split; [done|]. split; [exact Hw|].
  destruct Hframe as (added & rev & c & a & f & Hs2 & _). clear E Hw.
  destruct (update_queue_revision_lists s2) as [-> ->]. rewrite Hnext. split; [by rewrite Hs2|].
  split; [reflexivity|]. change (unavailable_uri (update_queue_revision s2)) with (unavailable_uri s2).
  by rewrite Hs2.
Qed.
End unavailable.

(** Marking a track as unavailable removes it from both lists, keeps the
    other tracks and their order, and refills the next tracks. *)
Lemma mark_unavailable_removes `{DefaultHasher} id s :
  uri_ok id → inv s → is_Some (context_of (fill_up_context s) s) →
  ∃ u s', to_uri id = Val u ∧ mark_unavailable id s = Val (s', Ok ()) ∧
    prev_tracks s' = filter (λ t, uri t ≠ u) (prev_tracks s) ∧
    (∃ added, next_tracks s' = filter (λ t, uri t ≠ u) (next_tracks s) ++ added) ∧
    prev_ok s' ∧ next_ok s' ∧ u ∈ unavailable_uri s'.
Proof.
  intros Hid Hs Hctx. pose proof (to_uri_parts id Hid) as Hu. eexists _.
  destruct (mark_uri_unavailable_spec (join ":" ("spotify" :: uri_parts id)) s Hs Hctx)
    as (s' & E & (Hp' & Hn' & _) & Hprev & Hnext & Hun).
  exists s'. split; [done|]. split; [unfold mark_unavailable; by rewrite Hu|].
  split_and!; [done|by eexists|done|done|]. rewrite Hun. set_solver.
Qed.

(** ** Shuffling a context and restoring it *)

(** Commands that leave the tracks of the default context as they are. *)
Definition keeps_tracks {A} (m : M A) : Prop :=
  ∀ s s' r, m s = Val (s', r) → tracks <$> context s' = tracks <$> context s.

Create HintDb keeps.

Lemma keeps_bind {A B} (m : M A) (f : A → M B) :
  keeps_tracks m → (∀ a, keeps_tracks (f a)) → keeps_tracks (m ≫= f).
Proof.
  intros Hm Hf s s' r. unfold mbind, st_bind. destruct (m s) as [[s1 [a|e]]|] eqn:E; [| |done].
  - intros E'. rewrite (Hf _ _ _ _ E'). by eapply Hm.
  - intros [= <- <-]. by eapply Hm.
Qed.
Lemma keeps_ret {A} (a : A) : keeps_tracks (mret a).
Proof. by intros s s' r [= <- <-]. Qed.
Lemma keeps_get : keeps_tracks st_get.
Proof. by intros s s' r [= <- <-]. Qed.
Lemma keeps_throw {A} e : keeps_tracks (A:=A) (st_throw e).
Proof. by intros s s' r [= <- <-]. Qed.
Lemma keeps_panic {A} : keeps_tracks (A:=A) st_panic.
Proof. by intros s s' r [=]. Qed.
Lemma keeps_modify f : (∀ s, tracks <$> context (f s) = tracks <$> context s) → keeps_tracks (st_modify f).
Proof. intros Hf s s' r [= <- <-]. apply Hf. Qed.

(** Decompose a command into primitive ones, closing the state updates that
    visibly do not touch the default context. *)
Ltac keeps_step :=
  match goal with
  | |- keeps_tracks (_ ≫= _) => apply keeps_bind; [|intros ?]
  | |- keeps_tracks (mret _) => apply keeps_ret
  | |- keeps_tracks st_get => apply keeps_get
  | |- keeps_tracks (st_throw _) => apply keeps_throw
  | |- keeps_tracks st_panic => apply keeps_panic
  | |- keeps_tracks (st_modify _) => apply keeps_modify; intros ?; try reflexivity
  | |- keeps_tracks (if ?b then _ else _) => destruct b
  | |- keeps_tracks (match ?x with _ => _ end) => destruct x
  | H : ∀ i it, keeps_tracks _ |- keeps_tracks (fill_loop _ _ _) => apply H
  | |- keeps_tracks _ => solve [eauto with keeps]
  end.

Section keeps.
Context `{DefaultHasher}.

Lemma keeps_get_context ty : keeps_tracks (get_context_m ty).
Proof. unfold get_context_m, lift_state. repeat keeps_step. Qed.
Lemma keeps_update_index ty i : keeps_tracks (update_context_index ty i).
Proof.
  unfold update_context_index. repeat keeps_step.
  destruct ty; simpl; [|done]. by match goal with |- context [context ?x] => destruct (context x) end.
Qed.
Lemma keeps_push t : keeps_tracks (push_next t).
Proof. by apply keeps_modify. Qed.
Local Hint Resolve keeps_get_context keeps_update_index keeps_push : keeps.

Lemma keeps_fill_loop fuel : ∀ i it, keeps_tracks (fill_loop fuel i it).
Proof. induction fuel as [|fuel IH]; intros i it; cbn [fill_loop]; repeat keeps_step. Qed.
Local Hint Resolve keeps_fill_loop : keeps.

Lemma keeps_fill_up : keeps_tracks fill_up_next_tracks.
Proof. unfold fill_up_next_tracks. repeat keeps_step. Qed.
Local Hint Resolve keeps_fill_up : keeps.

Lemma update_restrictions_context s : context (update_restrictions s) = context s.
Proof. by destruct (update_restrictions_player s) as [r ->]. Qed.

Lemma keeps_reset_playback i : keeps_tracks (reset_playback_to_position i).
Proof.
  unfold reset_playback_to_position, set_current_track, load_prev_tracks. repeat keeps_step.
  unfold clear_next_tracks. by destruct (position _ _).
Qed.
End keeps.

#[export] Hint Resolve keeps_get_context keeps_fill_up keeps_reset_playback : keeps.

Section shuffle_restore.
Context `{DefaultHasher} {R : Type} {rng_R : Rng R} {rng_laws : RngLaws R}.
Implicit Types (s : ConnectState) (base : list ProvidedTrack).

(** Shuffling from a context that represents [base]. *)
Lemma shuffle_context seed init s c base :
  inv s → context s = Some c → represents base (tracks c) →
  ∃ s' c', shuffle (R:=R) seed init s = Val (s', Ok ()) ∧ inv s' ∧
    ps_track (player s') = ps_track (player s) ∧
    context s' = Some c' ∧ represents base (tracks c') ∧
    (1 < length base → init ∈ uri <$> base → uri <$> head (track_list c') = Some init) ∧
    track_list <$> autoplay_context s' = track_list <$> autoplay_context s.
Proof.
  intros Hs Hc Hbase. unfold shuffle. rewrite !st_modify_bind.
  set (s1 := clear_next_tracks (clear_prev_track s)).
  assert (inv s1) as H1 by by apply inv_clear_next, inv_clear_prev.
  assert (context s1 = Some c ∧ ps_track (player s1) = ps_track (player s) ∧
    autoplay_context s1 = autoplay_context s) as (Hc1 & Ht1 & Hx1).
  { unfold s1, clear_next_tracks. by destruct (position _ _). }
  clearbody s1. destruct (reset_context_spec DefaultIndex s1 H1)
    as (s2 & E & H2 & _ & _ & Ht2 & Ha2 & Hf2 & _ & Hun & Hsome & Hauto).
  assert (st_exec (reset_context DefaultIndex) s1 = Val (s2, Ok () : result () ConnectError)) as E'
    by (unfold st_exec; by rewrite E).
  rewrite (st_bind_Ok _ _ _ _ _ E'). destruct (Hsome eq_refl) as [c2 Hc2]; [by eexists|].
  rewrite (st_bind_Ok _ _ _ _ _ (get_context_m_Some Default s2 c2 Hc2)).
  destruct (Hun c2 Hc2) as (c0 & Hc0 & Eun). assert (c0 = c) as -> by congruence.
  destruct (unshuffle_represents base _ Hbase) as (v2 & Ev2 & _ & Hb2).
  assert (v2 = tracks c2) as -> by congruence.
  destruct (shuffle_represents (seed_from_u64 (R:=R) seed) (λ f, bool_decide (uri f = init)) base _ Hb2)
    as (v & Ev & Hbv & Hfirst).
  set (c3 := set_shuffle_seed seed (set_initial_track init (c2 <| tracks := v |>))).
  set (s3 := s2 <| context := Some c3 |>).
  set (m := λ s0 : ConnectState, match shuffle_with_seed seed _ (tracks c2) with Val v0 => _ | Panic => _ end).
  assert (m s2 = Val (s3, Ok ())) as Em by (unfold m, shuffle_with_seed; by rewrite Ev).
  rewrite (st_bind_Ok _ _ _ _ _ Em). clear Em m.
  assert (inv s3) as H3.
  { apply (inv_contexts s2); [done..|]. destruct H2 as (_ & _ & [Hok1 Hok2] & _). split; [|done].
    intros ? [= <-]. destruct (Hok1 c2 Hc2) as (? & ? & Hsafe). split; [done|]. split; [done|].
    destruct (shuffle_safe (seed_from_u64 (R:=R) seed) (λ f, bool_decide (uri f = init)) _ Hsafe) as (v' & Ev' & Hv' & _).
    assert (v' = v) as -> by congruence. done. }
  assert (context_of (fill_up_context s3) s3 = Some c3) as Hc3.
  { change (fill_up_context s3) with (fill_up_context s2). by rewrite Hf2. }
  pose proof (wp_fill s3 H3) as Hw. destruct H3 as (_ & Hn3 & Hok3 & _).
  destruct (fill_up_spec s3 c3 Hok3 Hn3 Hc3) as (s4 & E4 & _ & Hframe & _).
  unfold wp in Hw. rewrite E4 in Hw. destruct Hw as (H4 & Ht4 & _).
  change (player s3) with (player s2) in Ht4.
  pose proof (keeps_fill_up _ _ _ E4) as Hk. change (context s3) with (Some c3) in Hk.
  destruct (context s4) as [c4|] eqn:Hc4; [|done]. injection Hk as Hk.
  exists s4, c4. split_and!; [done|done|congruence|done| | |].
  - by rewrite Hk.
  - intros Hlen Hin. unfold track_list. rewrite Hk. destruct (Hfirst Hlen) as (x & Hx & Hp).
    { apply Exists_exists. apply list_elem_of_fmap in Hin as (t & -> & Ht). exists t. split; [done|].
      by apply bool_decide_eq_true. }
    change (vec (tracks c3)) with (vec v). rewrite Hx. simpl. f_equal. by apply bool_decide_eq_true in Hp.
  - destruct Hframe as (? & ? & ? & a & ? & -> & _ & Ha & _). apply same_opt_tracks in Ha. simpl in *.
    by rewrite Ha, (Hauto eq_refl), Hx1.
Qed.

Lemma shuffle_on seed s c base :
  inv s → context s = Some c → represents base (tracks c) → validate_shuffle_allowed s = Ok () →
  ∃ s' c', handle_shuffle (R:=R) seed true s = Val (s', Ok ()) ∧ inv s' ∧
    ps_track (player s') = ps_track (player s) ∧
    context s' = Some c' ∧ represents base (tracks c') ∧
    (1 < length base → uri (current_track s) ∈ uri <$> base →
       uri <$> head (track_list c') = Some (uri (current_track s))) ∧
    track_list <$> autoplay_context s' = track_list <$> autoplay_context s.
Proof.
  intros Hs Hc Hb Hv. unfold handle_shuffle, shuffle_new. rewrite st_modify_bind, st_get_bind.
  set (s0 := set_shuffle true s).
  assert (inv s0 ∧ context s0 = Some c ∧ ps_track (player s0) = ps_track (player s) ∧
    autoplay_context s0 = autoplay_context s ∧ validate_shuffle_allowed s0 = Ok ())
    as (H0 & Hc0 & Ht0 & Hx0 & Hv0).
  { split; [by apply inv_options|]. unfold s0, set_shuffle, options_mut, add_options_if_empty.
    by destruct (ps_options (player s)). }
  clearbody s0. rewrite Hv0. cbn [lift_state]. rewrite st_ret_bind.
  destruct (shuffle_context seed (uri (current_track s0)) s0 c base H0 Hc0 Hb)
    as (s' & c' & E & H' & Ht' & Hc' & Hb' & Hf' & Hx').
  unfold current_track in *. rewrite Ht0 in *. rewrite Hx0 in Hx'. exists s', c'. done.
Qed.

Lemma shuffle_off seed s c base :
  inv s → lengths_ok s → context s = Some c → represents base (tracks c) →
  (∀ t i, ps_track (player s) = Some t → get_context_index t = Some i →
     i ≤ length base ∧ (Z.of_nat i < usize_max)%Z) →
  ∃ s' c' r, handle_shuffle (R:=R) seed false s = Val (s', r) ∧ context s' = Some c' ∧ track_list c' = base.
Proof.
  intros Hs Hl Hc Hb Hidx.
  assert (wp (handle_shuffle (R:=R) seed false) (λ s' _, inv s') s) as Hw.
  { apply wp_handle_shuffle; [done|done|..].
    - intros _ t i c0 Ht Hi Hc0. assert (c0 = c) as -> by congruence. destruct Hb as [Hp _].
      unfold track_list. rewrite (Permutation_length Hp). by eapply Hidx.
    - intros _ t i Ht Hi. by eapply Hidx. }
  apply wp_Val in Hw as (s' & r & E & _).
  assert (track_list <$> context s' = Some base) as Hk.
  2:{ destruct (context s') as [c'|] eqn:Hc'; simplify_eq/=. by exists s', c', r. }
  revert E. unfold handle_shuffle. rewrite st_modify_bind. set (s0 := set_shuffle false s).
  assert (inv s0 ∧ context s0 = Some c) as (H0 & Hc0).
  { split; [by apply inv_options|]. unfold s0, set_shuffle, options_mut, add_options_if_empty.
    by destruct (ps_options (player s)). }
  clearbody s0. destruct (reset_context_spec DefaultIndex s0 H0)
    as (s1 & E1 & _ & _ & _ & _ & _ & _ & _ & Hun & Hsome & _).
  assert (st_exec (reset_context DefaultIndex) s0 = Val (s1, Ok () : result () ConnectError)) as E1'
    by (unfold st_exec; by rewrite E1).
  rewrite (st_bind_Ok _ _ _ _ _ E1'), st_get_bind. destruct (Hsome eq_refl) as [c1 Hc1]; [by eexists|].
  destruct (Hun c1 Hc1) as (c0 & Hc0' & Eun). assert (c0 = c) as -> by congruence.
  destruct (unshuffle_represents base _ Hb) as (v & Ev & Hv & _). assert (v = tracks c1) as -> by congruence.
  intros E. transitivity (track_list <$> context s1); [|rewrite Hc1; simpl; unfold track_list; by rewrite Hv].
  set (m := match ps_track (player s1) with Some _ => _ | None => _ end) in E.
  assert (keeps_tracks m) as Hm.
  { unfold m, lift_state. repeat keeps_step. }
  specialize (Hm _ _ _ E). apply (f_equal (fmap vec)) in Hm. by rewrite <- !option_fmap_compose in Hm.
Qed.
End shuffle_restore.

(** Turning shuffle on permutes the context and moves the playing track to
    its front when it is one of its tracks; turning it off afterwards gives the
    context its original order back. *)
Lemma shuffle_then_restore `{DefaultHasher} {R : Type} {rng_R : Rng R} {rng_laws : RngLaws R} seed seed' s c base :
  inv s → lengths_ok s → context s = Some c → represents base (tracks c) →
  validate_shuffle_allowed s = Ok () →
  (∀ t i, ps_track (player s) = Some t → get_context_index t = Some i →
     i ≤ length base ∧ (Z.of_nat i < usize_max)%Z) →
  ∃ s1 c1 s2 c2 r,
    handle_shuffle (R:=R) seed true s = Val (s1, Ok ()) ∧ context s1 = Some c1 ∧ track_list c1 ≡ₚ base ∧
    (1 < length base → uri (current_track s) ∈ uri <$> base →
       uri <$> head (track_list c1) = Some (uri (current_track s))) ∧
    handle_shuffle (R:=R) seed' false s1 = Val (s2, r) ∧ context s2 = Some c2 ∧ track_list c2 = base.
Proof.
  intros Hs Hl Hc Hb Hv Hidx.
  destruct (shuffle_on (R:=R) seed s c base Hs Hc Hb Hv) as (s1 & c1 & E1 & H1 & Ht1 & Hc1 & Hb1 & Hf1 & Hx1).
  destruct (shuffle_off (R:=R) seed' s1 c1 base H1) as (s2 & c2 & r & E2 & Hc2 & Hv2); [|done|done| |].
  - intros ty x Hx. destruct ty; simpl in Hx.
    + assert (x = c1) as -> by congruence. unfold track_list. destruct Hb as [Hp _], Hb1 as [Hp1 _].
      rewrite (Permutation_length Hp1), <- (Permutation_length Hp). by apply (Hl Default).
    + rewrite Hx in Hx1. simpl in Hx1. destruct (autoplay_context s) as [a|] eqn:Ha; [|done].
      injection Hx1 as ->. by apply (Hl Autoplay).
  - by rewrite Ht1.
  - exists s1, c1, s2, c2, r. destruct Hb1 as [Hp1 _]. done.
Qed.

(** ** Loading a context *)

Section load.
Context `{DefaultHasher}.
Implicit Types s : ConnectState.

(** The URI under which a context track is listed, if it has a valid one. *)
Definition track_uri (t : ContextTrack) : option string :=
  id ← result_ok (context_track_uri t);
  match to_uri id with Val u => Some (replace "unknown" "track" u) | Panic => None end.

(** Tracks numbered consecutively from [n]. *)
Definition numbered_from (n : nat) (ts : list ProvidedTrack) : Prop :=
  ∀ k t, ts !! k = Some t → get_context_index t = Some (n + k).

Lemma get_set_context_index (x : ProvidedTrack) i :
  (Z.of_nat i ≤ usize_max)%Z → get_context_index (set_context_index i x) = Some i.
Proof.
  intros Hi. unfold get_context_index, get_usize, set_context_index, set_entry. simpl.
  rewrite lookup_insert_eq. simpl. rewrite parse_display by (unfold usize_max, u64_max, u128_max in *; lia).
  simpl. f_equal. lia.
Qed.
Lemma get_set_from_autoplay (x : ProvidedTrack) b :
  get_context_index (set_from_autoplay b x) = get_context_index x.
Proof. unfold get_context_index, get_usize, set_from_autoplay, set_entry. simpl. by rewrite lookup_insert_ne. Qed.

Lemma provided_track_spec uuid t cu ci pm prov s :
  track_msg_ok t →
  ∃ r, context_to_provided_track uuid t cu ci pm prov s = Val r ∧
    uri <$> result_ok r = track_uri t ∧
    ∀ pt i, r = Ok pt → ci = Some i → (Z.of_nat i ≤ usize_max)%Z → get_context_index pt = Some i.
Proof.
  intros Ht. unfold context_to_provided_track, track_uri. destruct (context_track_uri t) as [id|e] eqn:E.
  2:{ eexists. split; [done|]. split; [done|]. by intros. }
  rewrite (to_uri_parts id) by by eapply context_track_uri_ok. cbn [mbind exec_bind result_ok option_bind].
  eexists. split; [done|]. split.
  - rewrite (to_uri_parts id) by by eapply context_track_uri_ok. cbn [result_ok fmap option_fmap option_map].
    f_equal. by destruct cu, ci, (decide _), prov as [[]|].
  - intros pt i [= <-] -> Hi. set (x := match cu with Some _ => _ | None => _ end).
    assert (∀ b (y : ProvidedTrack), get_context_index (match b with PAutoplay => set_from_autoplay true y | _ => y end) =
      get_context_index y) as Hauto by (intros [] y; try done; apply get_set_from_autoplay).
    etransitivity; [apply Hauto|]. by apply (get_set_context_index x).
Qed.

Lemma numbered_cons n t ts :
  get_context_index t = Some n → numbered_from (S n) ts → numbered_from n (t :: ts).
Proof.
  intros Ht Hts k t' Hk. destruct k as [|k]; simpl in Hk; [by simplify_eq; rewrite Nat.add_0_r|].
  rewrite <- Nat.add_succ_comm. by apply Hts.
Qed.

Lemma provided_tracks_spec uuids u n md prov l s : ∀ i,
  Forall track_msg_ok l →
  ∃ ts, provided_tracks uuids u (Some n) md prov i l s = Val ts ∧ uri <$> ts = omap track_uri l ∧
    (Forall (λ t, is_Some (track_uri t)) l → (Z.of_nat (n + i + length l) ≤ usize_max)%Z →
     numbered_from (n + i) ts).
Proof.
  induction l as [|t l IH]; intros i Hl; [by exists []|]. apply Forall_cons in Hl as [Ht Hl].
  cbn [provided_tracks].
  destruct (provided_track_spec (uuids i) t (Some u) ((λ n, n + i) <$> Some n) (Some md) prov s Ht) as (r & -> & Hu & Hi).
  destruct (IH (S i) Hl) as (ts & -> & Hus & Hn). cbn [mbind exec_bind]. eexists. split; [done|].
  cbn [omap list_omap]. rewrite <- Hu. destruct r as [pt|e]; cbn [result_ok fmap option_fmap option_map].
  - split; [rewrite fmap_cons; by f_equal|]. intros [_ Hall]%Forall_cons Hmax. simpl in Hmax. apply numbered_cons.
    + apply (Hi pt (n + i)); [done..|lia].
    + rewrite plus_n_Sm. apply Hn; [done|lia].
  - split; [done|]. intros [[? Hs] _]%Forall_cons. by rewrite <- Hu in Hs.
Qed.

(** The tracks a context holds after pages were loaded into it. *)
Definition holds (ts0 : list ProvidedTrack) (l : list ContextTrack) (c : StateContext) : Prop :=
  ∃ ts, track_list c = ts0 ++ ts ∧ uri <$> ts = omap track_uri l ∧
    (Forall (λ t, is_Some (track_uri t)) l → (Z.of_nat (length ts0 + length l) ≤ usize_max)%Z →
     numbered_from (length ts0) ts).

Lemma omap_all {A B} (f : A → option B) l : Forall (λ t, is_Some (f t)) l → length (omap f l) = length l.
Proof. induction 1 as [|x l [y Hy] _ IH]; [done|]. cbn [omap list_omap]. rewrite Hy. cbn [length]. f_equal. exact IH. Qed.

Lemma holds_app ts0 l1 l2 c1 c2 :
  holds ts0 l1 c1 → holds (track_list c1) l2 c2 → holds ts0 (l1 ++ l2) c2.
Proof.
  intros (ts1 & E1 & U1 & N1) (ts2 & E2 & U2 & N2). exists (ts1 ++ ts2). rewrite E2, E1. split_and!.
  - by rewrite app_assoc.
  - by rewrite fmap_app, U1, U2, omap_app.
  - intros [H1 H2]%Forall_app Hmax. rewrite length_app in Hmax.
    assert (length ts1 = length l1) as Hl1.
    { rewrite <- (omap_all _ _ H1), <- U1. by rewrite length_fmap. }
    rewrite E1, length_app in N2. intros k t Hk. apply lookup_app_Some in Hk as [Hk|[Hge Hk]].
    + apply N1; [done|lia|done].
    + rewrite (N2 H2 ltac:(lia) _ _ Hk). f_equal. lia.
Qed.

Lemma holds_nil ts c : track_list c = ts → holds ts [] c.
Proof. intros <-. exists []. by rewrite app_nil_r. Qed.

Lemma state_context_holds uuids page md restr u prov s :
  Forall track_msg_ok (page_tracks page) →
  ∃ c, state_context_from_page uuids page md restr u (Some 0) prov s = Val c ∧ holds [] (page_tracks page) c ∧
    indices (tracks c) = None.
Proof.
  intros Hp. unfold state_context_from_page.
  destruct (provided_tracks_spec uuids (default (context_uri s) u) 0 (page_metadata page) prov
    (page_tracks page) s 0 Hp) as (ts & -> & Hu & Hn). cbn [mbind exec_bind].
  eexists. split; [done|]. split; [|done]. by exists ts.
Qed.

Lemma fill_context_holds uuids page s c :
  Forall track_msg_ok (page_tracks page) → context s = Some c →
  ∃ s' c', fill_context_from_page uuids page s = Val (s', Ok ()) ∧ context s' = Some c' ∧
    holds (track_list c) (page_tracks page) c' ∧ indices (tracks c') = indices (tracks c).
Proof.
  intros Hp Hc. unfold fill_context_from_page, state_context_from_page. rewrite Hc.
  cbn [fmap option_fmap option_map].
  destruct (provided_tracks_spec uuids (default (context_uri s) None) (length (track_list c)) (page_metadata page) None
    (page_tracks page) s 0 Hp) as (ts & -> & Hu & Hn). cbn [mbind exec_bind].
  eexists _, _. split; [done|]. split; [done|]. split; [|done]. exists ts. split_and!; [done|done|].
  rewrite Nat.add_0_r in Hn. done.
Qed.

Lemma load_pages_holds uuids pages : ∀ n s c,
  Forall (λ p, Forall track_msg_ok (page_tracks p)) pages → context s = Some c →
  ∃ s' c' found, load_pages uuids n pages s = Val (s', Ok found) ∧ context s' = Some c' ∧
    holds (track_list c) (pages ≫= page_tracks) c' ∧ indices (tracks c') = indices (tracks c).
Proof.
  induction pages as [|page pages IH]; intros n s c Hp Hc.
  { exists s, c, []. split_and!; [done|done|by apply holds_nil|done]. }
  apply Forall_cons in Hp as [Hpage Hp]. cbn [load_pages]. case_decide as Hne.
  - destruct (fill_context_holds (uuids n) page s c Hpage Hc) as (s1 & c1 & -> & Hc1 & Hh1 & Hi1).
    destruct (IH (S n) s1 c1 Hp Hc1) as (s2 & c2 & found & E & Hc2 & Hh2 & Hi2).
    exists s2, c2, found. split_and!; [done|done| |congruence]. rewrite bind_cons. by eapply holds_app.
  - destruct (IH (S n) s c Hp Hc) as (s2 & c2 & found & -> & Hc2 & Hh2 & Hi2).
    eexists s2, c2, _. split_and!; [done|done| |done]. by rewrite bind_cons, Hne.
Qed.

Lemma split_pages_tracks pages first next :
  split_pages pages = (first, next) →
  pages ≫= page_tracks =
    match first with Some p => page_tracks p ++ (next ≫= page_tracks) | None => [] end.
Proof.
  revert first next. induction pages as [|p pages IH]; intros first next; cbn [split_pages]; [by intros [= <- <-]|].
  case_decide as Hp.
  - destruct (split_pages pages) as [f n] eqn:E. intros [= <- <-]. rewrite bind_cons, Hp, (IH f n eq_refl).
    destruct f; [|done]. by rewrite bind_cons, Hp.
  - intros [= <- <-]. done.
Qed.

Lemma split_pages_first pages : ¬ Forall (λ p, page_tracks p = []) pages → is_Some (split_pages pages).1.
Proof.
  induction pages as [|p pages IH]; simpl; [intros []; constructor|]. intros Hn. case_decide as Hp; [|by eexists].
  destruct (split_pages pages) as [f n]. simpl in *. apply IH. intros Hall. apply Hn. by constructor.
Qed.

Lemma keep_position_context u c s :
  inv s → context_ok c → (Z.of_nat (length (track_list c)) ≤ u32_max)%Z →
  ∃ c' s', keep_position u c s = Val (c', s') ∧ tracks c' = tracks c.
Proof.
  intros Hs Hok Hlen. destruct (keep_position_inv u c s Hs Hok Hlen) as (c' & s' & ? & _ & _ & ?). eauto.
Qed.
End load.

(** Loading a default context puts the tracks of all its pages that have a
    valid identifier into the context, in order and unshuffled; when every
    track has one, each carries its own position as its context index. *)
Lemma update_context_loads uuids ctx s :
  inv s → context_msg_ok ctx → is_local_files ctx = false →
  ¬ Forall (λ p, page_tracks p = []) (ctx_pages ctx) →
  let all := ctx_pages ctx ≫= page_tracks in
  ∃ s' r c, update_context uuids ctx Default s = Val (s', Ok r) ∧ context s' = Some c ∧
    uri <$> track_list c = omap track_uri all ∧ indices (tracks c) = None ∧
    (Forall (λ t, is_Some (track_uri t)) all → (Z.of_nat (length all) ≤ usize_max)%Z →
     numbered_from 0 (track_list c)).
Proof.
  intros Hs Hctx Hlocal Hne all. unfold update_context. rewrite decide_False, Hlocal by done.
  destruct (split_pages_first _ Hne) as [page Hpage].
  destruct (split_pages (ctx_pages ctx)) as [first next] eqn:Esp. simpl in Hpage. subst first.
  destruct (split_pages_spec _ _ _ _ Esp Hctx) as [Hnext [[Hp Hlen] _]].
  unfold all. rewrite (split_pages_tracks _ _ _ Esp). unfold update_default_context.
  destruct (state_context_holds (uuids 0) page (ctx_metadata ctx) (ctx_restrictions ctx) (ctx_uri ctx) None s Hp)
    as (c0 & Ec0 & Hh0 & Hi0).
  destruct (state_context_total (uuids 0) page (ctx_metadata ctx) (ctx_restrictions ctx) (ctx_uri ctx) (Some 0) None s Hp)
    as (c0' & Ec0' & Hok0 & Hl0 & _). assert (c0' = c0) as -> by congruence.
  rewrite Ec0. cbn [mbind exec_bind].
  destruct (keep_position_context (ctx_uri ctx) c0 s Hs Hok0 ltac:(lia)) as (c1 & s1 & -> & Ht1).
  cbn [mbind exec_bind].
  assert (holds [] (page_tracks page) c1) as Hh1.
  { destruct Hh0 as (ts & E & ?). exists ts. unfold track_list in *. by rewrite Ht1. }
  set (s2 := player_mut _ _). assert (context s2 = Some c1) as Hc2 by done. clearbody s2.
  case_decide as Hnil.
  - subst next. exists s2, None, c1. rewrite app_nil_r. destruct Hh1 as (ts & E & Hu & Hnum). rewrite E.
    split_and!; [done|done|done|congruence|done].
  - destruct (load_pages_holds uuids next 1 s2 c1) as (s3 & c3 & found & -> & Hc3 & Hh3 & Hi3); [|done|].
    { eapply Forall_impl; [exact Hnext|]. by intros ? [? _]. }
    exists s3, (Some found), c3. destruct (holds_app _ _ _ _ _ Hh1 Hh3) as (ts & E & Hu & Hnum). rewrite E.
    split_and!; [done|done|done|congruence|done].
Qed.

Definition example_ctx_track (u : string) : ContextTrack := mkContextTrack (Some u) None None ∅.
Definition example_pages (pages : list (list string)) : Context :=
  mkContext (Some "spotify:album:x") None ∅ None
    ((λ us, page_from_tracks (example_ctx_track <$> us)) <$> pages).

(** ** Reporting the play status *)

Lemma restrict_tracks_fields no_prev autoplay r :
  p_disallow_skipping_prev_reasons (restrict_tracks no_prev autoplay r) = (if no_prev then [NO_PREV] else []) ∧
  p_disallow_toggling_shuffle_reasons (restrict_tracks no_prev autoplay r) = (if autoplay then [AUTOPLAY] else []) ∧
  p_disallow_pausing_reasons (restrict_tracks no_prev autoplay r) = p_disallow_pausing_reasons r ∧
  p_disallow_resuming_reasons (restrict_tracks no_prev autoplay r) = p_disallow_resuming_reasons r.
Proof. by destruct no_prev, autoplay. Qed.

Lemma update_restrictions_field s :
  ps_restrictions (player (update_restrictions s)) =
  Some (restrict_tracks (bool_decide (prev_tracks s = [])) (is_autoplay (current_track s))
    match ps_restrictions (player s) with
    | Some r => restrict_playback (is_playing s) (is_pause s) r
    | None => PlayerRestrictions_default
    end).
Proof.
  destruct s as [q]. destruct q as [? ? ? ? ? ? ? p]. destruct p as [? ? ? ? ? ? ? ? ? ? ? ? ? ? ? rs ? ? ? ? ? ?].
  by destruct rs.
Qed.

(** after [set_status] the state reports playing exactly for the two
    playing statuses and paused exactly for the three others, the speed is
    zero exactly when paused, pausing and resuming are each allowed in one of
    the two cases, and going back is disallowed exactly when there are no
    previous tracks. *)
Lemma set_status_reports status s :
  let paused := match status with LoadingPause _ | Paused _ _ | Stopped => true | _ => false end in
  let s' := set_status status s in
  is_pause s' = paused ∧ is_playing s' = negb paused ∧
  ps_playback_speed (player s') = (if paused then f64_zero else f64_one) ∧
  ∃ r, ps_restrictions (player s') = Some r ∧
    (is_Some (ps_restrictions (player s)) →
       p_disallow_pausing_reasons r = (if paused then ["not_playing"] else []) ∧
       p_disallow_resuming_reasons r = (if paused then [] else ["not_paused"])) ∧
    p_disallow_skipping_prev_reasons r = (if decide (prev_tracks s = []) then [NO_PREV] else []) ∧
    p_disallow_toggling_shuffle_reasons r = (if is_autoplay (current_track s) then [AUTOPLAY] else []).
Proof.
  intros paused s'. unfold s', set_status. set (s1 := player_mut _ s).
  assert (is_pause s1 = paused ∧ is_playing s1 = negb paused) as [Hpa Hpl] by by destruct status.
  assert (is_pause (update_restrictions s1) = is_pause s1 ∧ is_playing (update_restrictions s1) = is_playing s1 ∧
    ps_playback_speed (player (update_restrictions s1)) = ps_playback_speed (player s1)) as (-> & -> & ->).
  { by destruct (update_restrictions_player s1) as [r ->]. }
  split; [done|]. split; [done|]. split; [by destruct status|].
  eexists. split; [apply update_restrictions_field|]. rewrite Hpa, Hpl.
  edestruct restrict_tracks_fields as (-> & -> & -> & ->).
  change (ps_restrictions (player s1)) with (ps_restrictions (player s)).
  change (prev_tracks s1) with (prev_tracks s). split; [|split; [|done]].
  - intros [r ->]. by destruct paused.
  - destruct (decide (prev_tracks s = [])); [by rewrite bool_decide_eq_true_2|by rewrite bool_decide_eq_false_2].
Qed.

(** ** Corner cases of the code *)

Definition context_uris (o : option StateContext) : list string :=
  match o with Some c => uri <$> track_list c | None => [] end.
Definition context_indices (o : option StateContext) : list (option nat) :=
  match o with Some c => get_context_index <$> track_list c | None => [] end.

(** A context that is already loaded keeps the provider of its tracks, so a
    track marked as unavailable comes back when the context repeats. *)
Lemma unavailable_comes_back :
  let u := "spotify:track:0000000000000000000000" in
  (s ← effect (@mark_unavailable length_hasher (Track (mkSpotifyId 0)))
     (set_repeat_context true (example_playing (example_track "z" PContext) [])
        <| context := Some (example_context [example_track u PContext]) |>);
   Val (bool_decide (u ∈ unavailable_uri s), bool_decide (example_track u PContext ∈ next_tracks s)))
  = Val (true, true).
Proof. by vm_compute. Qed.

(** When a track of a page has no valid identifier, the tracks after it carry
    an index that is not their position. *)
Lemma context_index_gap :
  (s ← effect (update_context (λ _ _, "u")
     (example_pages [["spotify:track:bad"; "spotify:track:0000000000000000000001"]]) Default)
     (new ConnectConfig_default example_session);
   Val (context_uris (context s), context_indices (context s)))
  = Val (["spotify:track:0000000000000000000001"], [Some 1]).
Proof. by vm_compute. Qed.

(** Further pages of an autoplay context are appended to the default one. *)
Lemma autoplay_pages_in_default :
  (s ← effect (update_context (λ _ _, "u")
     (example_pages [["spotify:track:0000000000000000000001"]]) Default)
     (new ConnectConfig_default example_session);
   s ← effect (update_context (λ _ _, "u")
     (example_pages [["spotify:track:0000000000000000000002"]; ["spotify:track:0000000000000000000003"]])
     Autoplay) s;
   Val (context_uris (context s), context_uris (autoplay_context s)))
  = Val (["spotify:track:0000000000000000000001"; "spotify:track:0000000000000000000003"],
         ["spotify:track:0000000000000000000002"]).
Proof. by vm_compute. Qed.

(** The textual replacement of the unknown kind also hits other fields. *)
Lemma unknown_artist_renamed :
  (r ← context_to_provided_track "u" (example_ctx_track "spotify:local:unknown:album:title:10")
         None None None None (new ConnectConfig_default example_session);
   Val (uri <$> result_ok r)) = Val (Some "spotify:local:track:album:title:10").
Proof. by vm_compute. Qed.

(** A queued track with a context index beyond the context makes the position
    arithmetic of [reset_playback_to_position] overflow. *)
Lemma reset_playback_overflow :
  @reset_playback_to_position length_hasher (Some 5) (example_playing (example_track "q" PQueue) []) = Panic.
Proof. by vm_compute. Qed.
