(* ===== verification/ConnectFrame.v ===== *)
(** * What the operations of the connect state keep

    Two facts about every operation that comes back, whatever its arguments:
    the limits of [inv] are kept, and the description of the device that is
    sent with the state (whether it is active, its volume and its name) is left
    alone. *)

From S2P Require Import Prelude Digits Text SpotifyId SpotifyUri Protocol ShuffleVec StateMonad.
From S2P Require Import ConnectData ConnectQueue ConnectContext ConnectState ConnectFill ConnectInv.

Local Open Scope string_scope.
Local Open Scope list_scope.
Local Open Scope nat_scope.

Section weak.
Context `{DefaultHasher} `{L : Limits}.
Implicit Types s : ConnectState.

(** ** The limits *)

Lemma fill_inv : preserves inv fill_up_next_tracks.
Proof. apply preserves_wp. intros s Hs. eapply wp_mono; [by apply wp_fill|]. by intros ? ? []. Qed.
Lemma update_context_index_inv ty i : preserves inv (update_context_index ty i).
Proof. apply preserves_wp. intros s Hs. eapply wp_mono; [by apply wp_update_context_index|]. by intros ? ? []. Qed.
Lemma set_current_track_inv i : preserves inv (set_current_track i).
Proof. apply preserves_wp. intros s Hs. eapply wp_mono; [by apply wp_set_current_track|]. by intros ? ? []. Qed.
Lemma next_track_inv : preserves inv next_track.
Proof. apply preserves_wp, wp_next_track. Qed.
Lemma prev_track_inv : preserves inv prev_track.
Proof. apply preserves_wp, wp_prev_track. Qed.
Lemma mark_unavailable_inv id : preserves inv (mark_unavailable id).
Proof.
  intros s s' r Hs. unfold mark_unavailable. destruct (to_uri id) as [u|]; [|done].
  apply (preserves_wp inv _ (wp_mark_uri_unavailable u)); done.
Qed.
Lemma lift_state_keeps {A} P (r : result A StateError) : preserves P (lift_state r).
Proof. unfold lift_state. preserve. Qed.
Lemma get_context_keeps P ty : preserves P (get_context_m ty).
Proof. unfold get_context_m. apply preserves_get_bind. intros s _. apply lift_state_keeps. Qed.
End weak.

#[export] Hint Resolve fill_inv update_context_index_inv set_current_track_inv next_track_inv prev_track_inv
  mark_unavailable_inv lift_state_keeps get_context_keeps : preserves.

Section playback.
Context `{DefaultHasher} `{L : Limits}.
Implicit Types s : ConnectState.

Lemma set_current_track_random_inv f : preserves inv (set_current_track_random f).
Proof. unfold set_current_track_random. preserve. Qed.

Lemma load_prev_tracks_inv i : preserves inv (load_prev_tracks i).
Proof.
  unfold load_prev_tracks. preserve. apply preserves_modify. intros s1 Hs1. apply inv_prev_mut; [|done].
  rewrite length_rev, length_take. apply at_most_prev. lia.
Qed.

Lemma reset_playback_inv i : preserves inv (reset_playback_to_position i).
Proof.
  unfold reset_playback_to_position. apply preserves_bind.
  { apply preserves_modify. intros s Hs. by apply (inv_set_track_index (Z.of_nat (default 0 i))). }
  intros _. preserve; try (apply preserves_modify; intros ? ?).
  - by eapply inv_same.
  - by apply inv_clear_prev.
  - apply load_prev_tracks_inv.
  - by apply inv_clear_next.
  - by apply inv_update_restrictions.
Qed.
End playback.

#[export] Hint Resolve set_current_track_random_inv load_prev_tracks_inv reset_playback_inv : preserves.

Section shuffle.
Context `{DefaultHasher} `{L : Limits} {R : Type} {rng_R : Rng R} {rng_laws : RngLaws R}.

Lemma shuffle_new_inv seed : preserves inv (shuffle_new (R:=R) seed).
Proof. apply preserves_wp, wp_shuffle_new. Qed.
Lemma shuffle_restore_inv st : preserves inv (shuffle_restore (R:=R) st).
Proof. apply preserves_wp, wp_shuffle_restore. Qed.

Lemma reset_context_inv how s s' : inv s → reset_context how s = Val s' → inv s'.
Proof. intros Hs E. destruct (reset_context_spec how s Hs) as (s1 & E1 & H1 & _). congruence. Qed.

Lemma handle_shuffle_inv seed on : preserves inv (handle_shuffle (R:=R) seed on).
Proof.
  unfold handle_shuffle. apply preserves_bind; [apply preserves_modify, inv_options|intros _].
  destruct on; [apply shuffle_new_inv|]. preserve. apply preserves_exec, reset_context_inv.
Qed.

Lemma handle_set_repeat_context_inv b : preserves inv (handle_set_repeat_context b).
Proof.
  unfold handle_set_repeat_context. preserve; apply preserves_modify; [apply inv_options|].
  intros s Hs. destruct b; [|done]. case_decide; [|done]. by apply (inv_same s).
Qed.

(** ** Contexts *)

Lemma state_context_ok uuids page md restr u cl prov s c :
  state_context_from_page uuids page md restr u cl prov s = Val c → context_ok c.
Proof. unfold state_context_from_page. intros (ts & _ & [= <-])%exec_bind_Val_inv. by split_and!. Qed.

Lemma fill_context_keeps uuids page : preserves inv (fill_context_from_page uuids page).
Proof.
  intros s s' r Hs. unfold fill_context_from_page. intros (new & _ & E)%exec_bind_Val_inv.
  destruct (context s) as [ctx|] eqn:Hctx; injection E as <- <-; [|done].
  pose proof Hs as (_ & _ & [Hc1 Hc2] & _). destruct (Hc1 ctx Hctx) as (Hpage & Htrack & Hsafe).
  apply (inv_contexts s); [done..|]. apply contexts_ok_context; [done|].
  split; [done|]. split; [done|]. simpl. apply sv_safe_grow; [done|]. unfold track_list. rewrite length_app. lia.
Qed.

Lemma load_pages_keeps P uuids pages :
  (∀ n page, preserves P (fill_context_from_page (uuids n) page)) →
  ∀ n, preserves P (load_pages uuids n pages).
Proof.
  intros Hfill. induction pages as [|page pages IH]; intros n; [apply preserves_ret|].
  intros s s' r Hs. cbn [load_pages]. case_decide.
  - destruct (fill_context_from_page (uuids n) page s) as [[s1 r1]|] eqn:E1; [|done].
    apply (IH (S n)). by eapply Hfill.
  - destruct (load_pages uuids (S n) pages s) as [[s1 [l|e]]|] eqn:E1; [..|done];
      intros [= <- <-]; by eapply (IH (S n)).
Qed.

Lemma find_last_index_range c s o :
  inv s → find_last_index_in_new_context c s = Val o →
  match o with Some (Ok i) | Some (Err i) => (0 ≤ i ≤ u32_max)%Z | None => True end.
Proof.
  intros (_ & _ & _ & Hi). unfold find_last_index_in_new_context.
  destruct (context s) as [ctx|]; [|by intros [= <-]].
  match goal with |- match ?o with _ => _ end = _ → _ => destruct o as [i|] end.
  - intros (n & Hn & [= <-])%exec_bind_Val_inv. apply uadd_Val_inv in Hn as [-> ?].
    unfold wrapu in *. pose proof (Z.mod_pos_bound (Z.of_nat i) (2 ^ 32) ltac:(lia)). lia.
  - intros [= <-]. destruct (ps_index (player s)) eqn:E; simpl; [by apply Hi|unfold u32_max; lia].
Qed.

Lemma keep_position_keeps u c s c' s' :
  inv s → context_ok c → keep_position u c s = Val (c', s') → context_ok c' ∧ inv s'.
Proof.
  intros Hs Hok. unfold keep_position. destruct (_ && _); [|by intros [= <- <-]].
  intros (o & Ho%(find_last_index_range _ _ _ Hs) & E)%exec_bind_Val_inv.
  destruct o as [[i|i]|]; injection E as <- <-; [| |done]; destruct Hok as (Hpage & _ & Hsafe);
    (split; [by split|]); apply inv_clear_next.
  - apply (inv_contexts s); [done..|]. apply contexts_ok_rewind. apply Hs.
  - destruct Hs as (Hpv & Hn & Hc & _). split_and!; [done|done| |done]. by apply contexts_ok_rewind.
Qed.

Lemma update_context_inv uuids ctx ty : preserves inv (update_context uuids ctx ty).
Proof.
  intros s s' r Hs. unfold update_context. case_decide; [by intros [= <- <-]|].
  destruct (is_local_files ctx); [by intros [= <- <-]|].
  destruct (split_pages (ctx_pages ctx)) as [[page|] next]; [|by intros [= <- <-]].
  intros (s1 & E1 & E)%exec_bind_Val_inv.
  assert (inv s1) as H1.
  { destruct ty.
    - unfold update_default_context in E1. apply exec_bind_Val_inv in E1 as (c & Hc%state_context_ok & E1).
      apply exec_bind_Val_inv in E1 as ([c' s2] & Hk & [= <-]).
      destruct (keep_position_keeps _ _ _ _ _ Hs Hc Hk) as [Hc' H2]. apply (inv_contexts s2); [done..|].
      destruct H2 as (_ & _ & H2 & _). by apply contexts_ok_context.
    - unfold update_autoplay_context in E1.
      apply exec_bind_Val_inv in E1 as (c & Hc%state_context_ok & [= <-]). apply (inv_contexts s); [done..|].
      destruct Hs as (_ & _ & [? _] & _). split; [done|]. by intros c' [= <-]. }
  case_decide; [by injection E as <- <-|].
  destruct (load_pages uuids 1 next s1) as [[s2 [l|e]]|] eqn:E2; [..|done]; injection E as <- <-;
    by eapply (load_pages_keeps inv); [intros; apply fill_context_keeps|..].
Qed.

(** ** The queue and transfers *)

Lemma add_to_queue_inv t b s s' : inv s → add_to_queue t b s = Val s' → inv s'.
Proof.
  intros Hs. unfold add_to_queue. intros (n & _ & [= <-])%exec_bind_Val_inv. apply inv_update_restrictions.
  match goal with |- inv (if b then update_queue_revision ?x else _) => assert (inv x) as H1 end.
  { apply inv_next_mut; [rewrite pop_while_longer_take, length_take; apply at_most_next; lia|by apply (inv_same s)]. }
  destruct b; [by apply inv_update_queue_revision|done].
Qed.

Lemma requeue_length l : ∀ n l' m, requeue n l = Val (l', m) → length l' = length l.
Proof.
  induction l as [|t l IH]; intros n l' m; simpl; [by intros [= <- <-]|]. destruct (is_from_queue t).
  - intros (n' & _ & ([l1 m1] & E1 & [= <- <-])%exec_bind_Val_inv)%exec_bind_Val_inv. simpl. f_equal. by eapply IH.
  - intros ([l1 m1] & E1 & [= <- <-])%exec_bind_Val_inv. simpl. f_equal. by eapply IH.
Qed.

Lemma handle_set_queue_inv next prev s s' :
  length next ≤ most_next → length prev ≤ most_prev →
  inv s → handle_set_queue next prev s = Val s' → inv s'.
Proof.
  intros Hnext Hprev Hs. unfold handle_set_queue, set_next_tracks.
  intros (s1 & ([l n] & E1 & [= <-])%exec_bind_Val_inv & [= <-])%exec_bind_Val_inv.
  apply inv_update_queue_revision, inv_prev_mut; [done|]. apply inv_next_mut; [|by apply (inv_same s)].
  by rewrite length_fmap, (requeue_length _ _ _ _ E1).
Qed.

Lemma queue_transferred_keeps P uuids pq l :
  (∀ t s s', P s → add_to_queue t false s = Val s' → P s') → ∀ i, preserves P (queue_transferred uuids pq i l).
Proof.
  intros Hadd. induction l as [|t l IH]; intros i; [apply preserves_ret|]. cbn [queue_transferred].
  case_decide; [apply IH|]. intros s s' r Hs.
  destruct (context_to_provided_track _ _ _ _ _ _ _) as [[t'|e]|]; [|by apply IH|done].
  destruct (add_to_queue t' false s) as [s1|] eqn:E; [|done]. apply IH. by eapply Hadd.
Qed.

Lemma finish_transfer_inv uuid uuids seed tr : preserves inv (finish_transfer (R:=R) uuid uuids seed tr).
Proof.
  unfold finish_transfer. apply preserves_get_bind. intros s Hs. apply preserves_bind.
  { destruct (ps_track (player s)); [apply preserves_ret|]. intros s1 s2 r H1.
    destruct (current_track_from_transfer uuid tr s1); [|done]. by intros [= <- <-]. }
  intros track. cbv zeta. apply preserves_bind; [apply preserves_modify, inv_set_active_context|intros _].
  apply preserves_bind; [apply preserves_modify; intros s1 H1; by apply (inv_same s1)|intros _].
  apply preserves_get_bind. intros s1 H1. apply preserves_bind; [apply get_context_keeps|intros c].
  apply preserves_bind.
  { apply preserves_modify. intros s2 H2. destruct (ps_track (player s2)); [done|]. by apply (inv_same s2). }
  intros _. apply preserves_bind.
  { apply preserves_modify. intros s2 H2. destruct (result_ok _) as [i|]; [|done].
    by apply (inv_set_track_index (Z.of_nat i)). }
  intros _. apply preserves_bind; [apply queue_transferred_keeps; intros ???; apply add_to_queue_inv|intros _].
  apply preserves_get_bind. intros s2 H2. apply preserves_bind; [|intros _; apply preserves_modify, inv_update_restrictions].
  destruct (shuffling_context s2); [|apply reset_playback_inv]. preserve; try (apply preserves_modify).
  - apply inv_options.
  - intros s3 H3. by apply (inv_same s3).
  - apply shuffle_restore_inv.
  - apply shuffle_new_inv.
Qed.

Lemma became_inactive_inv s s' : inv s → became_inactive s = Val s' → inv s'.
Proof. intros (_ & _ & Hc & _). apply reset_context_inv. by apply inv_reset. Qed.
End shuffle.

(** ** The device *)

Definition device (s : ConnectState) : bool * DeviceInfo * Z :=
  (is_active s, device_info (request s), volume_step_size s).
Abbreviation same_device d := (λ s, device s = d).

Section device.
Context `{DefaultHasher}.
Implicit Types (s : ConnectState) (d : bool * DeviceInfo * Z).

Lemma modify_device d f : (∀ s, device (f s) = device s) → preserves (same_device d) (st_modify f : M ()).
Proof. intros Hf. apply preserves_modify. intros s <-. apply Hf. Qed.

Lemma clear_next_device s : device (clear_next_tracks s) = device s.
Proof. unfold clear_next_tracks. by destruct (position _ _). Qed.
Lemma set_active_context_device ty s : device (set_active_context ty s) = device s.
Proof. unfold set_active_context. by destruct (get_context _ _). Qed.
Lemma options_device f s : device (options_mut f s) = device s.
Proof. unfold options_mut, add_options_if_empty. by destruct (ps_options (player s)). Qed.
Lemma context_mut_device ty f s : device (context_mut ty f s) = device s.
Proof. by destruct ty. Qed.
Lemma retire_device s : device (retire_track s) = device s.
Proof. unfold retire_track. simpl. destruct (ps_track (player s)) as [t|]; [|done]. by destruct (_ || _). Qed.
Lemma enter_device t s : device (enter_track t s) = device s.
Proof.
  unfold enter_track. destruct (is_queue t); [done|]. destruct (is_autoplay t).
  - apply (set_active_context_device Autoplay s).
  - by destruct (get_context_index t).
Qed.
Lemma next_loop_device l : ∀ s, device (next_loop l s).2 = device s.
Proof.
  induction l as [|t l IH]; intros s; [done|]. cbn [next_loop]. cbv zeta.
  destruct (is_delimiter t); [by rewrite IH|]. destruct (is_unavailable t); [by rewrite IH|done].
Qed.
Lemma return_track_device s : device (return_track s) = device s.
Proof. unfold return_track. simpl. destruct (ps_track (player s)) as [t|]; [|done]. by destruct (_ || _). Qed.
Lemma return_delimiter_device s : device (return_delimiter s) = device s.
Proof. unfold return_delimiter. destruct (last _); [|done]. by destruct (is_delimiter _). Qed.
Lemma reenter_device t s : device (reenter_track t s) = device s.
Proof. unfold reenter_track. cbv zeta. by case_decide. Qed.
Lemma merge_context_device page s : device (merge_context page s).2 = device s.
Proof. unfold merge_context. destruct (context s), page; done. Qed.
Lemma initial_transfer_device tr u s : device (handle_initial_transfer tr u s).2 = device s.
Proof. unfold handle_initial_transfer. simpl. unfold update_queue_revision. etrans; [apply clear_next_device|done]. Qed.

Lemma reset_context_device how s s' : reset_context how s = Val s' → device s' = device s.
Proof.
  unfold reset_context. set (how' := match how with Completely => _ | _ => _ end).
  intros (s1 & E1 & [= <-])%exec_bind_Val_inv.
  trans (device (set_active_context Default
    ((match how' with
      | WhenDifferent _ => s1
      | Completely => player_mut (λ p, p <| ps_context_uri := EmptyString |> <| ps_context_url := EmptyString |>)
          (s1 <| context := None |> <| autoplay_context := None |>)
      | DefaultIndex =>
          s1 <| context ::= fmap (λ c, c <| index := mkContextIndex 0 0 |>) |>
             <| autoplay_context ::= fmap (λ c, c <| index := mkContextIndex 0 0 |>) |>
      end) <| fill_up_context := Default |>))); [done|].
  rewrite set_active_context_device. transitivity (device s1); [by destruct how'|].
  destruct (context s); [|by injection E1 as ->]. by apply exec_bind_Val_inv in E1 as (v & _ & [= <-]).
Qed.
End device.

Create HintDb device.
#[export] Hint Resolve clear_next_device set_active_context_device options_device context_mut_device retire_device
  enter_device return_track_device return_delimiter_device reenter_device : device.
(** A change of the state that is part of a larger program. *)
Ltac device_step :=
  preserve_step ||
  (apply modify_device; intros ?; first [done | solve [auto with device] | solve [repeat case_match; auto with device]]).
Ltac device_steps := repeat device_step.

Section device_ops.
Context `{DefaultHasher}.
Implicit Types (s : ConnectState) (d : bool * DeviceInfo * Z).

Lemma update_context_index_device d ty i : preserves (same_device d) (update_context_index ty i).
Proof. unfold update_context_index. device_steps. Qed.
Hint Resolve update_context_index_device : preserves.

Lemma fill_loop_device d fuel : ∀ i n, preserves (same_device d) (fill_loop fuel i n).
Proof. induction fuel as [|fuel IH]; intros i n; cbn [fill_loop]; unfold push_next; device_steps. Qed.
Hint Resolve fill_loop_device : preserves.

Lemma fill_device d : preserves (same_device d) fill_up_next_tracks.
Proof. unfold fill_up_next_tracks. device_steps. Qed.
Hint Resolve fill_device : preserves.

Lemma set_current_track_device d i : preserves (same_device d) (set_current_track i).
Proof. unfold set_current_track. device_steps. Qed.
Hint Resolve set_current_track_device : preserves.

Lemma set_current_track_random_device d f : preserves (same_device d) (set_current_track_random f).
Proof. unfold set_current_track_random. device_steps. Qed.

Lemma next_track_device d : preserves (same_device d) next_track.
Proof.
  unfold next_track, set_repeat_track. device_steps. apply preserves_modify. intros ? _.
  match goal with E : next_loop ?l ?s = _ |- _ => pose proof (next_loop_device l s) as Hl; rewrite E in Hl end.
  simpl in Hl. congruence.
Qed.

Lemma prev_track_device d : preserves (same_device d) prev_track.
Proof. unfold prev_track. device_steps. Qed.

Lemma mark_unavailable_device d id : preserves (same_device d) (mark_unavailable id).
Proof.
  assert (∀ u, preserves (same_device d) (mark_uri_unavailable u)) as Hm
    by (intros u; unfold mark_uri_unavailable; device_steps).
  intros s s' r Hs. unfold mark_unavailable. destruct (to_uri id) as [u|]; [|done]. by apply Hm.
Qed.

Lemma reset_playback_device d i : preserves (same_device d) (reset_playback_to_position i).
Proof. unfold reset_playback_to_position, load_prev_tracks. device_steps. Qed.
Hint Resolve reset_playback_device : preserves.

Lemma reset_context_keeps_device d how : preserves (same_device d) (st_exec (reset_context how) : M ()).
Proof. apply preserves_exec. intros s s' <- E. by eapply reset_context_device. Qed.
Hint Resolve reset_context_keeps_device : preserves.

Lemma handle_set_repeat_context_device d b : preserves (same_device d) (handle_set_repeat_context b).
Proof. unfold handle_set_repeat_context, set_repeat_context. device_steps. Qed.

Section shuffle.
Context {R : Type} {rng_R : Rng R}.

Lemma shuffle_device d seed t : preserves (same_device d) (shuffle (R:=R) seed t).
Proof.
  unfold shuffle. device_steps. intros s s' r Hs. destruct (shuffle_with_seed _ _ _); [|done]. by intros [= <- <-].
Qed.
Hint Resolve shuffle_device : preserves.
Lemma shuffle_new_device d seed : preserves (same_device d) (shuffle_new (R:=R) seed).
Proof. unfold shuffle_new. device_steps. Qed.
Hint Resolve shuffle_new_device : preserves.
Lemma shuffle_restore_device d st : preserves (same_device d) (shuffle_restore (R:=R) st).
Proof. unfold shuffle_restore. device_steps. Qed.
Hint Resolve shuffle_restore_device : preserves.

Lemma handle_shuffle_device d seed on : preserves (same_device d) (handle_shuffle (R:=R) seed on).
Proof. unfold handle_shuffle, set_shuffle. device_steps. Qed.

Lemma add_to_queue_device t b s s' : add_to_queue t b s = Val s' → device s' = device s.
Proof. unfold add_to_queue. intros (n & _ & [= <-])%exec_bind_Val_inv. by destruct b. Qed.

Lemma finish_transfer_device d uuid uuids seed tr : preserves (same_device d) (finish_transfer (R:=R) uuid uuids seed tr).
Proof.
  unfold finish_transfer, set_shuffle. device_steps.
  - intros s1 s2 r H1. destruct (current_track_from_transfer uuid tr s1); [|done]. by intros [= <- <-].
  - apply queue_transferred_keeps. intros t s1 s2 <-. apply add_to_queue_device.
Qed.
End shuffle.

Lemma fill_context_device d uuids page : preserves (same_device d) (fill_context_from_page uuids page).
Proof.
  intros s s' r Hs. unfold fill_context_from_page. intros (c & _ & E)%exec_bind_Val_inv.
  by destruct (context s); injection E as <- <-.
Qed.

Lemma keep_position_device u c s c' s' : keep_position u c s = Val (c', s') → device s' = device s.
Proof.
  unfold keep_position. destruct (_ && _); [|by intros [= <- <-]].
  intros ([[i|i]|] & _ & [= <- <-])%exec_bind_Val_inv; [| |done];
    (etrans; [apply clear_next_device|done]).
Qed.

Lemma update_context_device d uuids ctx ty : preserves (same_device d) (update_context uuids ctx ty).
Proof.
  intros s s' r <-. unfold update_context. case_decide; [by intros [= <- <-]|].
  destruct (is_local_files ctx); [by intros [= <- <-]|].
  destruct (split_pages (ctx_pages ctx)) as [[page|] next]; [|by intros [= <- <-]].
  intros (s1 & E1 & E)%exec_bind_Val_inv.
  assert (device s1 = device s) as H1.
  { destruct ty.
    - unfold update_default_context in E1. apply exec_bind_Val_inv in E1 as (c & _ & E1).
      apply exec_bind_Val_inv in E1 as ([c' s2] & Hk & [= <-]). by apply keep_position_device in Hk.
    - unfold update_autoplay_context in E1. by apply exec_bind_Val_inv in E1 as (c & _ & [= <-]). }
  case_decide; [by injection E as <- <-|].
  destruct (load_pages uuids 1 next s1) as [[s2 [l|e]]|] eqn:E2; [..|done]; injection E as <- <-;
    by eapply (load_pages_keeps (same_device (device s))); [intros; apply fill_context_device|..].
Qed.

Lemma handle_set_queue_device next prev s s' : handle_set_queue next prev s = Val s' → device s' = device s.
Proof.
  unfold handle_set_queue, set_next_tracks.
  by intros (s1 & ([l n] & E1 & [= <-])%exec_bind_Val_inv & [= <-])%exec_bind_Val_inv.
Qed.

(** Becoming inactive changes nothing else of the device. *)
Lemma became_inactive_device s s' :
  became_inactive s = Val s' → device s' = (false, device_info (request s), volume_step_size s).
Proof. intros E%reset_context_device. by rewrite E. Qed.
End device_ops.
