(* ===== verification/ConnectLoad.v ===== *)
(** * Starting a list of tracks

    What the connect state looks like after a list of tracks was loaded and
    playback was put at one of them: the reference for the load command. *)

From S2P Require Import Prelude Digits Text SpotifyId SpotifyUri Protocol ShuffleVec StateMonad.
From S2P Require Import ConnectData ConnectQueue ConnectContext ConnectState ConnectFill ConnectInv ConnectProps.

Local Open Scope string_scope.
Local Open Scope list_scope.
Local Open Scope nat_scope.

Section load.
Context `{DefaultHasher}.
Implicit Types s : ConnectState.

(** ** The tracks of a list of URIs *)

(** A URI that is kept as it is. *)
Definition plain_uri (u : string) : Prop := track_uri (mkContextTrack (Some u) None None ∅) = Some u.
#[global] Instance plain_uri_dec u : Decision (plain_uri u).
Proof. unfold plain_uri. apply _. Defined.

Lemma provided_track_context uuid t cu ci pm s pt :
  (∀ u, track_uri t = Some u → u ∉ unavailable_uri s) →
  context_to_provided_track uuid t cu ci pm None s = Val (Ok pt) → is_context pt = true.
Proof.
  unfold track_uri, context_to_provided_track. destruct (context_track_uri t) as [id|e]; [|done]. cbn [result_ok mbind option_bind].
  intros Hun (u & Hu & E)%exec_bind_Val_inv. rewrite Hu in Hun. rewrite decide_False in E by by apply Hun.
  cbn [default] in E. injection E as <-. by destruct cu, ci.
Qed.

Lemma provided_tracks_context uuids u cl md l s : ∀ i ts,
  Forall (λ t, ∀ u, track_uri t = Some u → u ∉ unavailable_uri s) l →
  provided_tracks uuids u cl md None i l s = Val ts → Forall (λ t, is_context t = true) ts.
Proof.
  induction l as [|t l IH]; intros i ts Hl; cbn [provided_tracks]; [by intros [= <-]|].
  apply Forall_cons in Hl as [Ht Hl].
  intros (r & Er & (ts' & Ets & [= <-])%exec_bind_Val_inv)%exec_bind_Val_inv. apply IH in Ets; [|done].
  destruct r; [|done]. constructor; [by eapply provided_track_context|done].
Qed.

Lemma plain_omap uris : Forall plain_uri uris →
  omap track_uri ((λ u, mkContextTrack (Some u) None None ∅) <$> uris) = uris.
Proof. induction 1 as [|u uris Hu _ IH]; [done|]. cbn [fmap list_fmap omap list_omap]. by rewrite Hu, IH. Qed.

(** The context of a list of URIs under another URI than the current one. *)
Lemma update_context_uris uuids u url uris s :
  inv s → uris ≠ [] → Forall plain_uri uris → Forall (λ x, x ∉ unavailable_uri s) uris →
  starts_with LOCAL_FILES_IDENTIFIER u = false → context_uri s ≠ u →
  ∃ c p, update_context uuids (mkContext (Some u) (Some url) ∅ None [page_from_uris uris]) Default s =
      Val (player_mut (λ x, x <| ps_context_url := p |> <| ps_context_uri := u |>) (s <| context := Some c |>), Ok None) ∧
    uri <$> track_list c = uris ∧ Forall (λ t, is_context t = true) (track_list c) ∧ context_ok c ∧
    get_initial_track c = None ∧ ci_track (index c) = 0%Z.
Proof.
  intros Hs Hne Hplain Hav Hlocal Hdiff. set (ctx := mkContext _ _ _ _ _). set (page := page_from_uris uris).
  assert (page_tracks page ≠ []) as Hpage by by destruct uris.
  unfold update_context. rewrite decide_False by (intros [? _]%Forall_cons; done).
  change (is_local_files ctx) with (starts_with LOCAL_FILES_IDENTIFIER u). rewrite Hlocal.
  change (split_pages (ctx_pages ctx)) with (split_pages [page]). cbn [split_pages]. rewrite decide_False by done.
  unfold update_default_context.
  destruct (provided_tracks_spec (uuids 0) u 0 ∅ None (page_tracks page) s 0) as (ts & Ets & Huri & _).
  { apply Forall_fmap, Forall_true. done. }
  assert (Forall (λ t, is_context t = true) ts) as Hctx.
  { eapply provided_tracks_context; [|exact Ets]. apply Forall_fmap.
    eapply Forall_impl; [apply Forall_and; split; [exact Hplain|exact Hav]|].
    intros x [Hx Hx'] y. simpl. unfold plain_uri in Hx. by rewrite Hx; intros [= <-]. }
  unfold state_context_from_page.
  match goal with |- context [provided_tracks ?a ?b ?c ?d ?e ?f ?g ?h] =>
    change (provided_tracks a b c d e f g h) with (provided_tracks (uuids 0) u (Some 0) ∅ None 0 (page_tracks page) s) end.
  rewrite Ets. cbn [mbind exec_bind]. unfold keep_position. cbn [ctx_uri].
  rewrite (bool_decide_eq_false_2 (Some u = Some (context_uri s))) by congruence. rewrite andb_false_r. cbn [mbind exec_bind].
  rewrite decide_True by done. eexists _, _. split; [reflexivity|]. split_and!; try done.
  trans (omap track_uri (page_tracks page)); [exact Huri|by apply plain_omap].
Qed.

(** ** Playback at a position *)

Lemma drop_rev_rev {A} (l : list A) n i :
  i ≤ length l → rev (take n (drop (length l - i) (rev l))) = drop (i - n) (take i l).
Proof.
  intros Hi. rewrite skipn_rev, firstn_rev, rev_involutive, length_take.
  replace (length l - (length l - i)) with i by lia. by replace (Nat.min i (length l)) with i by lia.
Qed.

Lemma load_prev_Val s c i :
  context_of (active_context s) s = Some c → i ≤ length (track_list c) →
  load_prev_tracks i (clear_prev_track s) =
    Val (prev_tracks_mut (λ _, drop (i - SPOTIFY_MAX_PREV_TRACKS_SIZE) (take i (track_list c))) s, Ok ()).
Proof.
  intros Hc Hi. unfold load_prev_tracks. case_decide; [|by replace i with 0 by lia].
  rewrite st_get_bind, (st_bind_Ok _ _ _ _ _ (get_context_m_Some _ (clear_prev_track s) c Hc)), usub_Val by lia.
  rewrite Z2Nat.inj_sub, !Nat2Z.id, drop_rev_rev by lia. done.
Qed.

(** Filling up from a context that is played in order. *)
Lemma fill_in_order s c :
  inv s → fill_up_context s = Default → active_context s = Default → context s = Some c → autoplay_context s = None →
  repeat_context s = false → get_initial_track c = None → Forall (λ t, is_context t = true) (track_list c) →
  ∃ s', fill_up_next_tracks s = Val (s', Ok ()) ∧ ps_track (player s') = ps_track (player s) ∧
    prev_tracks s' = prev_tracks s ∧
    next_tracks s' = next_tracks s ++ take (room s) (drop (Z.to_nat (ci_track (index c))) (track_list c)) ∧
    unavailable_uri s' = unavailable_uri s.
Proof.
  intros (_ & Hn & Hok & _) Hf Ha Hc Hx Hr Hinit Hall.
  assert (context_of (fill_up_context s) s = Some c) as Hcf by by rewrite Hf.
  destruct (fill_up_spec s c Hok Hn Hcf) as (s' & E & Hnext & (added & rev & c' & a & f & -> & _) & _).
  eexists. split; [exact E|]. split_and!; try done. rewrite Hnext. f_equal. f_equal.
  unfold stream. rewrite Hf. cbn [context_of]. rewrite Hc, Hr, Hx. apply filter_all.
  apply (Forall_drop _ (Z.to_nat (ci_track (index c)))) in Hall. eapply Forall_impl; [exact Hall|]. intros t Ht. unfold kept.
  assert (is_unavailable t = false) as ->.
  { unfold is_context, is_unavailable in *. apply bool_decide_eq_true in Ht. by rewrite Ht. }
  unfold is_skip_track. rewrite Ha. cbn [context_of]. by rewrite Hc, Hinit.
Qed.

(** The last steps of [reset_playback_to_position]. *)
Lemma line_up s c i :
  inv s → fill_up_context s = Default → active_context s = Default → context s = Some c → autoplay_context s = None →
  repeat_context s = false → get_initial_track c = None → Forall (λ t, is_context t = true) (track_list c) →
  i ≤ length (track_list c) → Z.to_nat (ci_track (index c)) = S i →
  ∃ s', (_ ← st_modify clear_prev_track; _ ← load_prev_tracks i; _ ← st_modify clear_next_tracks;
         _ ← fill_up_next_tracks; st_modify update_restrictions) s = Val (s', Ok ()) ∧
    ps_track (player s') = ps_track (player s) ∧
    prev_tracks s' = drop (i - SPOTIFY_MAX_PREV_TRACKS_SIZE) (take i (track_list c)) ∧
    next_tracks s' = queued (next_tracks s) ++
      take (SPOTIFY_MAX_NEXT_TRACKS_SIZE - length (queued (next_tracks s))) (drop (S i) (track_list c)).
Proof.
  intros Hs Hf Ha Hc Hx Hr Hinit Hall Hi Hci. rewrite st_modify_bind.
  assert (context_of (active_context s) s = Some c) as Hca by by rewrite Ha.
  rewrite (st_bind_Ok _ _ _ _ _ (load_prev_Val s c i Hca Hi)), st_modify_bind. set (s1 := prev_tracks_mut _ s).
  assert (inv s1) as H1 by (apply inv_prev_mut; [rewrite length_drop, length_take; apply at_most_prev; lia|done]).
  set (s2 := clear_next_tracks s1). pose proof (clear_next_tracks_queued s1) as Hn2.
  assert (fill_up_context s2 = Default ∧ active_context s2 = Default ∧ context s2 = Some c ∧ autoplay_context s2 = None ∧
    repeat_context s2 = false ∧ ps_track (player s2) = ps_track (player s) ∧ prev_tracks s2 = prev_tracks s1)
    as (Hf2 & Ha2 & Hc2 & Hx2 & Hr2 & Ht2 & Hp2).
  { unfold s2, clear_next_tracks. destruct (position _ _); split_and!; done. }
  destruct (fill_in_order s2 c) as (s3 & E3 & Ht3 & Hp3 & Hn3 & _); try done; [by apply inv_clear_next|].
  rewrite (st_bind_Ok _ _ _ _ _ E3). destruct (update_restrictions_player s3) as [r Hr3].
  exists (update_restrictions s3). split; [done|]. rewrite Hr3.
  split_and!; [exact (eq_trans Ht3 Ht2)|exact (eq_trans Hp3 Hp2)|].
  trans (next_tracks s3); [done|]. assert (next_tracks s2 = queued (next_tracks s)) as E2 by exact Hn2.
  rewrite Hn3. unfold room. by rewrite E2, Hci.
Qed.

Lemma reset_playback_lines_up s c i t :
  inv s → active_context s = Default → context s = Some c → autoplay_context s = None → repeat_context s = false →
  get_initial_track c = None → Forall (λ t, is_context t = true) (track_list c) →
  (Z.of_nat (length (track_list c)) ≤ u32_max)%Z → track_list c !! i = Some t →
  is_queue (current_track s) = false →
  ∃ s', reset_playback_to_position (Some i) s = Val (s', Ok ()) ∧ ps_track (player s') = Some t ∧
    prev_tracks s' = drop (i - SPOTIFY_MAX_PREV_TRACKS_SIZE) (take i (track_list c)) ∧
    next_tracks s' = queued (next_tracks s) ++
      take (SPOTIFY_MAX_NEXT_TRACKS_SIZE - length (queued (next_tracks s))) (drop (S i) (track_list c)).
Proof.
  intros Hs Hact Hc Hx Hrep Hinit Hall Hlen Ht Hq.
  assert (i < length (track_list c)) as Hi by (by eapply lookup_lt_Some).
  assert (Z.of_nat i < usize_max)%Z by (unfold u32_max in Hlen; unfold usize_max, u64_max; lia).
  unfold reset_playback_to_position. cbv zeta. change (default 0 (Some i)) with i.
  rewrite st_modify_bind, st_get_bind, uadd_Val by lia.
  set (s1 := update_current_index _ s). assert (inv s1) as H1 by by apply inv_set_track_index.
  change (active_context s1) with (active_context s). rewrite Hact.
  rewrite (st_bind_Ok _ _ _ _ _ (update_context_index_Some Default (i + 1) s1 c Hc)), st_modify_bind, st_get_bind.
  set (c1 := set_context_track (i + 1) c). set (s2 := (context_mut Default (set_context_track (i + 1)) s1) <| fill_up_context := _ |>).
  assert (context s2 = Some c1) as Hc2 by (change (set_context_track (i + 1) <$> context s = Some c1); by rewrite Hc).
  assert (inv s2) as H2.
  { apply (inv_same (context_mut Default (set_context_track (i + 1)) s1)); try done.
    apply (inv_contexts s1); try done. destruct H1 as (_ & _ & [Hc1 Hx1] & _). split; [|done]. intros c' Hc'.
    assert (Some c' = Some c1) as [= ->] by exact (eq_trans (eq_sym Hc') Hc2). apply context_ok_set. by apply Hc1. }
  assert (current_track s2 = current_track s ∧ active_context s2 = Default ∧ fill_up_context s2 = Default ∧
    autoplay_context s2 = None ∧ repeat_context s2 = false ∧ next_tracks s2 = next_tracks s)
    as (Hcur2 & Ha2 & Hf2 & Hx2 & Hr2 & Hn2) by done.
  clearbody s2. rewrite Hcur2, Hq. cbn [orb].
  assert (is_skip_track (current_track s) None s2 = false) as ->.
  { unfold is_skip_track. rewrite Ha2. cbn [context_of]. rewrite Hc2.
    change (get_initial_track c1) with (get_initial_track c). by rewrite Hinit. }
  cbn [negb]. set (s3 := update_current_index (λ x, x <| ci_track := wrapu 32 (Z.of_nat i) |>) (set_track t s2)).
  assert (set_current_track i s2 = Val (s3, Ok ())) as E3.
  { unfold set_current_track. rewrite st_get_bind, Ha2, (st_bind_Ok _ _ _ _ _ (get_context_m_Some Default s2 c1 Hc2)).
    change (track_list c1) with (track_list c). by rewrite Ht. }
  rewrite (st_bind_Ok _ _ _ _ _ E3).
  destruct (line_up s3 c1 i) as (s4 & E4 & Ht4 & Hp4 & Hn4); try done.
  - by apply inv_set_track_index.
  - change (track_list c1) with (track_list c). lia.
  - change (ci_track (index c1)) with (wrapu 32 (Z.of_nat (i + 1))). unfold wrapu.
    rewrite Z.mod_small by (unfold u32_max in *; lia). lia.
  - exists s4. split; [exact E4|]. change (next_tracks s3) with (next_tracks s2) in Hn4. rewrite Hn2 in Hn4. done.
Qed.

(** ** The whole load *)

Lemma reset_completely s :
  inv s → ∃ s', reset_context Completely s = Val s' ∧ inv s' ∧ prev_tracks s' = prev_tracks s ∧
    next_tracks s' = next_tracks s ∧ ps_track (player s') = ps_track (player s) ∧ context s' = None ∧
    autoplay_context s' = None ∧ context_uri s' = EmptyString ∧ unavailable_uri s' = unavailable_uri s.
Proof.
  intros Hs. destruct (reset_context_spec Completely s Hs) as (s' & E & Hs' & Hp & Hn & Ht & _).
  exists s'. split; [done|]. do 4 (split; [done|]). unfold reset_context in E.
  apply exec_bind_Val_inv in E as (s1 & E1 & [= <-]).
  assert (unavailable_uri s1 = unavailable_uri s) as <-.
  { destruct (context s); [|by injection E1 as <-]. by apply exec_bind_Val_inv in E1 as (v & _ & [= <-]). }
  match goal with |- context [update_restrictions ?x] => destruct (update_restrictions_player x) as [r ->] end. done.
Qed.

Lemma reset_options_spec s :
  inv s → inv (reset_options s) ∧ prev_tracks (reset_options s) = prev_tracks s ∧
    next_tracks (reset_options s) = next_tracks s ∧ ps_track (player (reset_options s)) = ps_track (player s) ∧
    context (reset_options s) = context s ∧ autoplay_context (reset_options s) = autoplay_context s ∧
    context_uri (reset_options s) = context_uri s ∧ unavailable_uri (reset_options s) = unavailable_uri s ∧
    repeat_context (reset_options s) = false.
Proof.
  intros Hs. split; [by do 3 apply inv_options|].
  unfold reset_options, set_repeat_context, set_repeat_track, set_shuffle, options_mut, add_options_if_empty, repeat_context.
  destruct s as [q]. destruct q as [? ? ? ? ? ? ? p]. destruct p as [? ? ? ? ? ? ? ? ? ? ? ? ? ? o ? ? ? ? ? ? ?].
  by destruct o.
Qed.

(** The state before playback is put at a position. *)
Definition prepared s : ConnectState := clear_restrictions (clear_next_tracks (set_active_context Default s)).

Lemma prepared_spec s :
  inv s → inv (prepared s) ∧ next_tracks (prepared s) = queued (next_tracks s) ∧ context (prepared s) = context s ∧
    autoplay_context (prepared s) = autoplay_context s ∧ active_context (prepared s) = Default ∧
    repeat_context (prepared s) = repeat_context s.
Proof.
  intros Hs. destruct (set_active_context_same Default s) as (_ & Hn & Hc & Hx & _ & _ & _ & _ & Ha).
  assert (repeat_context (set_active_context Default s) = repeat_context s) as Hr.
  { unfold set_active_context. simpl. destruct (get_context _ _) as [c|]; [|done]. by destruct (sc_restrictions c). }
  pose proof (inv_clear_next _ (inv_set_active_context Default s Hs)) as H1.
  pose proof (clear_next_tracks_queued (set_active_context Default s)) as Hq. rewrite Hn in Hq.
  split; [by eapply inv_same; [exact H1|..]|]. split; [exact Hq|].
  unfold prepared, clear_next_tracks. by destruct (position _ _).
Qed.

Lemma queued_idemp l : queued (queued l) = queued l.
Proof. induction l as [|t l IH]; simpl; [done|]. destruct (is_queue t) eqn:E; simpl; [by rewrite E, IH|done]. Qed.

Lemma start_uris s c i t0 :
  inv s → context s = Some c → autoplay_context s = None → repeat_context s = false → get_initial_track c = None →
  Forall (λ t, is_context t = true) (track_list c) → (Z.of_nat (length (track_list c)) ≤ u32_max)%Z →
  uri <$> track_list c !! i = Some t0 →
  ∃ s3 s4 t, set_current_track i (prepared s) = Val (s3, Ok ()) ∧ reset_playback_to_position (Some i) s3 = Val (s4, Ok ()) ∧
    ps_track (player s4) = Some t ∧ uri t = t0 ∧
    prev_tracks s4 = drop (i - SPOTIFY_MAX_PREV_TRACKS_SIZE) (take i (track_list c)) ∧
    next_tracks s4 = queued (next_tracks s) ++
      take (SPOTIFY_MAX_NEXT_TRACKS_SIZE - length (queued (next_tracks s))) (drop (S i) (track_list c)).
Proof.
  intros Hs Hc Hx Hr Hinit Hall Hlen (t & Ht & ->)%fmap_Some_1.
  destruct (prepared_spec s Hs) as (H2 & Hn2 & Hc2 & Hx2 & Ha2 & Hr2). revert H2 Hn2 Hc2 Hx2 Ha2 Hr2.
  generalize (prepared s). intros s2 H2 Hn2 Hc2 Hx2 Ha2 Hr2. rewrite Hc in Hc2. rewrite Hx in Hx2. rewrite Hr in Hr2.
  set (s3 := update_current_index (λ x, x <| ci_track := wrapu 32 (Z.of_nat i) |>) (set_track t s2)).
  assert (set_current_track i s2 = Val (s3, Ok ())) as E3.
  { unfold set_current_track. rewrite st_get_bind, Ha2, (st_bind_Ok _ _ _ _ _ (get_context_m_Some Default _ c Hc2)). by rewrite Ht. }
  assert (inv s3) as H3 by by apply (inv_set_track_index (Z.of_nat i)).
  assert (is_queue (current_track s3) = false) as Hq.
  { assert (is_context t = true) as Hctx by (by eapply (Forall_lookup_1 _ _ _ _ Hall)).
    change (is_queue t = false). unfold is_context, is_queue in *. apply bool_decide_eq_true in Hctx. by rewrite Hctx. }
  destruct (reset_playback_lines_up s3 c i t) as (s4 & E4 & Ht4 & Hp4 & Hn4); try done.
  exists s3, s4, t. split_and!; try done. change (next_tracks s3) with (next_tracks s2) in Hn4.
  by rewrite Hn4, Hn2, queued_idemp.
Qed.

(** A list of URIs is loaded and playback put at the [i]th of them. *)
Lemma load_uris uuids u url uris i t0 s :
  inv s → Forall plain_uri uris → Forall (λ x, x ∉ unavailable_uri s) uris → uris !! i = Some t0 →
  (Z.of_nat (length uris) ≤ u32_max)%Z → starts_with LOCAL_FILES_IDENTIFIER u = false → u ≠ EmptyString →
  ∃ s1 s2 s3 s4 t, reset_context Completely s = Val s1 ∧
    update_context uuids (mkContext (Some u) (Some url) ∅ None [page_from_uris uris]) Default (reset_options s1) =
      Val (s2, Ok None) ∧
    context_uri s2 = u ∧ ps_track (player s2) = ps_track (player s) ∧ next_tracks s2 = next_tracks s ∧
    prev_tracks s2 = prev_tracks s ∧
    set_current_track i (prepared s2) = Val (s3, Ok ()) ∧ reset_playback_to_position (Some i) s3 = Val (s4, Ok ()) ∧
    ps_track (player s4) = Some t ∧ uri t = t0 ∧
    uri <$> prev_tracks s4 = drop (i - SPOTIFY_MAX_PREV_TRACKS_SIZE) (take i uris) ∧
    uri <$> next_tracks s4 = (uri <$> queued (next_tracks s)) ++
      take (SPOTIFY_MAX_NEXT_TRACKS_SIZE - length (queued (next_tracks s))) (drop (S i) uris).
Proof.
  intros Hs Hplain Hav Hi Hlen Hlocal Hu.
  destruct (reset_completely s Hs) as (s1 & E1 & H1 & Hp1 & Hn1 & Ht1 & Hc1 & Hx1 & Hu1 & Hav1).
  destruct (reset_options_spec s1 H1) as (H1' & Hp1' & Hn1' & Ht1' & _ & Hx1' & Hu1' & Hav1' & Hr1').
  remember (reset_options s1) as s1' eqn:Es1.
  destruct (update_context_uris uuids u url uris s1') as (c & p & E2 & Huris & Hall & Hok & Hinit & _);
    [done|by destruct uris|done|by rewrite Hav1', Hav1|done|by rewrite Hu1', Hu1|].
  set (s2 := player_mut _ _) in E2.
  assert (inv s2 ∧ context s2 = Some c ∧ autoplay_context s2 = None ∧ repeat_context s2 = false ∧
    next_tracks s2 = next_tracks s ∧ prev_tracks s2 = prev_tracks s ∧ ps_track (player s2) = ps_track (player s) ∧
    context_uri s2 = u) as (H2 & Hc2 & Hx2 & Hr2 & Hn2 & Hp2 & Ht2 & Hu2).
  { rewrite <- Hn1, <- Hp1, <- Ht1, <- Hn1', <- Hp1', <- Ht1'. split_and!; try done.
    - apply (inv_contexts s1'); [done..|]. destruct H1' as (_ & _ & H1' & _). by apply contexts_ok_context.
    - by rewrite <- Hx1, <- Hx1'. }
  clearbody s2. clear Hav Hplain. destruct (start_uris s2 c i t0) as (s3 & s4 & t & E3 & E4 & Ht4 & Hu4 & Hp4 & Hn4); try done.
  - rewrite <- (length_fmap uri), Huris. done.
  - by rewrite <- list_lookup_fmap, Huris.
  - exists s1, s2, s3, s4, t. subst s1'. rewrite Hp4, Hn4, !fmap_app, !fmap_take, !fmap_drop, !fmap_take, Huris, Hn2. split_and!; done.
Qed.
End load.
