(* ===== verification/SpircData.v ===== *)
(** * Requests and commands of the connect device

    The requests for playback of [connect/src/model.rs], the commands of the
    dealer in [core/src/dealer/protocol/request.rs], the commands of the
    [Spirc] handle and the channel they are sent over. *)

From S2P Require Import Prelude Digits Text SpotifyId SpotifyUri Protocol ShuffleVec StateMonad.
From S2P Require Import ConnectData ConnectQueue ConnectContext ConnectState.

Local Open Scope Z_scope.

(** ** Load requests *)

Inductive PlayContext := CtxUri (uri : string) | CtxTracks (tracks : list string).
Record Options := mkOptions { o_shuffle : bool; o_repeat : bool; o_repeat_track : bool }.
Inductive LoadContextOptions := LoadOptions (o : Options) | LoadAutoplay.
Inductive PlayingTrack := PtIndex (i : Z) | PtUri (uri : string) | PtUid (uid : string).

Record LoadRequestOptions := mkLoadRequestOptions {
  start_playing : bool;
  seek_to : Z;
  context_options : option LoadContextOptions;
  playing_track : option PlayingTrack;
}.
Record LoadRequest := mkLoadRequest { lr_context : PlayContext; lr_options : LoadRequestOptions }.

Definition from_context_uri (context_uri : string) (options : LoadRequestOptions) : LoadRequest :=
  mkLoadRequest (CtxUri context_uri) options.
Definition from_tracks (tracks : list string) (options : LoadRequestOptions) : LoadRequest :=
  mkLoadRequest (CtxTracks tracks) options.

(** ** Commands of the dealer *)

Record TransferOptions := mkTransferOptions {
  restore_paused : option string;
  restore_position : option string;
  restore_track : option string;
  retain_session : option string;
}.
Record TransferRequest := mkTransferRequest { transfer_options : TransferOptions }.

Record SkipTo := mkSkipTo {
  st_track_uid : option string;
  st_track_uri : option string;
  st_track_index : option Z;
}.

(** [TryFrom<SkipTo>]: the index is the last resort. *)
Definition PlayingTrack_try_from (value : SkipTo) : option PlayingTrack :=
  match st_track_uri value, st_track_uid value, st_track_index value with
  | Some uri, _, _ => Some (PtUri uri)
  | None, Some uid, _ => Some (PtUid uid)
  | None, None, Some index => Some (PtIndex index)
  | None, None, None => None
  end.

Record ContextPlayerOptionOverrides := mkOverrides {
  ov_shuffling_context : option bool;
  ov_repeating_context : option bool;
  ov_repeating_track : option bool;
}.
Definition Options_from (value : ContextPlayerOptionOverrides) : Options :=
  mkOptions (default false (ov_shuffling_context value)) (default false (ov_repeating_context value))
    (default false (ov_repeating_track value)).

(** The fields of the play options that are read. *)
Record PlayOptions := mkPlayOptions {
  po_skip_to : option SkipTo;
  po_player_options_override : option ContextPlayerOptionOverrides;
  po_seek_to : option Z;
}.

(** The commands, without the logging parameters and the fields that no handler
    reads; the value of an unknown command is its text. *)
Inductive Command :=
| Transfer (data : option TransferState)
| Play (context : Context) (play_origin : PlayerPlayOrigin) (options : PlayOptions)
| Pause
| SeekTo (value : Z)
| SetShufflingContext (value : bool)
| SetRepeatingTrack (value : bool)
| SetRepeatingContext (value : bool)
| AddToQueue (track : ProvidedTrack)
| SetQueue (next_tracks prev_tracks : list ProvidedTrack)
| SetOptions (shuffling_context repeating_context repeating_track : option bool)
| UpdateContext (context : Context)
| SkipNext (track : option ProvidedTrack)
| SkipPrev
| Resume
| UnknownCommand (value : string).

Record Request := mkRequest { message_id : Z; sent_by_device_id : string; command : Command }.

(** ** The handle *)

Module SpircCommand.
Inductive t :=
| Play | PlayPause | Pause | Prev | Next | VolumeUp | VolumeDown | Shutdown
| Shuffle (on : bool) | Repeat (on : bool) | RepeatTrack (on : bool)
| Disconnect (pause : bool)
| SetPosition (position_ms : Z)
| SetVolume (volume : Z)
| Activate
| Transfer (request : option TransferRequest)
| Load (request : LoadRequest)
| AddToQueue (uri : SpotifyUri).
End SpircCommand.

(** The channel of commands: whether the task still receives, and what is
    waiting. *)
Record Spirc := mkSpirc { receiving : bool; commands : list SpircCommand.t }.
#[export] Instance settable_Spirc : Settable Spirc := λ r, mkSpirc (receiving r) (commands r).

Inductive SpircSendError := ChannelClosed | InvalidArgument.

Definition send (cmd : SpircCommand.t) (self : Spirc) : Spirc * result () SpircSendError :=
  if receiving self then (self <| commands ::= (λ l, l ++ [cmd]) |>, Ok ()) else (self, Err ChannelClosed).

Module Handle.
Definition shutdown : Spirc → Spirc * result () SpircSendError := send SpircCommand.Shutdown.
Definition play : Spirc → Spirc * result () SpircSendError := send SpircCommand.Play.
Definition play_pause : Spirc → Spirc * result () SpircSendError := send SpircCommand.PlayPause.
Definition pause : Spirc → Spirc * result () SpircSendError := send SpircCommand.Pause.
Definition prev : Spirc → Spirc * result () SpircSendError := send SpircCommand.Prev.
Definition next : Spirc → Spirc * result () SpircSendError := send SpircCommand.Next.
Definition volume_up : Spirc → Spirc * result () SpircSendError := send SpircCommand.VolumeUp.
Definition volume_down : Spirc → Spirc * result () SpircSendError := send SpircCommand.VolumeDown.
Definition shuffle (on : bool) : Spirc → Spirc * result () SpircSendError := send (SpircCommand.Shuffle on).
Definition repeat (on : bool) : Spirc → Spirc * result () SpircSendError := send (SpircCommand.Repeat on).
Definition repeat_track (on : bool) : Spirc → Spirc * result () SpircSendError := send (SpircCommand.RepeatTrack on).
Definition set_volume (volume : Z) : Spirc → Spirc * result () SpircSendError := send (SpircCommand.SetVolume volume).
Definition set_position_ms (position_ms : Z) : Spirc → Spirc * result () SpircSendError :=
  send (SpircCommand.SetPosition position_ms).
Definition load (command : LoadRequest) : Spirc → Spirc * result () SpircSendError := send (SpircCommand.Load command).
Definition add_to_queue (uri : SpotifyUri) (self : Spirc) : Spirc * result () SpircSendError :=
  match uri with
  | Track _ | Episode _ | Album _ | Playlist _ _ => send (SpircCommand.AddToQueue uri) self
  | _ => (self, Err InvalidArgument)
  end.
Definition disconnect (pause : bool) : Spirc → Spirc * result () SpircSendError := send (SpircCommand.Disconnect pause).
Definition activate : Spirc → Spirc * result () SpircSendError := send SpircCommand.Activate.
Definition transfer (request : option TransferRequest) : Spirc → Spirc * result () SpircSendError :=
  send (SpircCommand.Transfer request).
End Handle.
