(* ===== verification/ContextResolver.v ===== *)
(** * Resolving contexts: [connect/src/context_resolver.rs]

    A queue of contexts (playlists, albums, stations) to be fetched from the
    service, one at a time, and put into the connect state.  Contexts that could
    not be fetched are remembered and not tried again for an hour. *)

From S2P Require Import Prelude Digits Text SpotifyId SpotifyUri Protocol ShuffleVec StateMonad.
From S2P Require Import ConnectData ConnectQueue ConnectContext ConnectState ConnectFill ConnectInv.

Local Open Scope string_scope.
Local Open Scope list_scope.
Local Open Scope nat_scope.

#[export] Instance RestrictionReasons_eq_dec : EqDecision RestrictionReasons.
Proof. solve_decision. Defined.
#[export] Instance ModeRestrictions_eq_dec : EqDecision ModeRestrictions.
Proof. solve_decision. Defined.
#[export] Instance Restrictions_eq_dec : EqDecision Restrictions.
Proof. solve_decision. Defined.
#[export] Instance ContextTrack_eq_dec : EqDecision ContextTrack.
Proof. solve_decision. Defined.
#[export] Instance ContextPage_eq_dec : EqDecision ContextPage.
Proof. solve_decision. Defined.
#[export] Instance Context_eq_dec : EqDecision Context.
Proof. solve_decision. Defined.

(** ** What is to be resolved *)

Inductive Resolve := ResolveUri (uri : string) | ResolveCtx (context : Context).
#[export] Instance Resolve_eq_dec : EqDecision Resolve.
Proof. solve_decision. Defined.

Inductive ContextAction := Append | Replace.
#[export] Instance ContextAction_eq_dec : EqDecision ContextAction.
Proof. solve_decision. Defined.

Record ResolveContext := mkResolveContext {
  resolve : Resolve;
  fallback : option string;
  update : ContextType;
  action : ContextAction;
}.
#[export] Instance ResolveContext_eq_dec : EqDecision ResolveContext.
Proof. solve_decision. Defined.

Definition append_context (uri : string) : ResolveContext :=
  mkResolveContext (ResolveUri uri) None Default Append.

Definition resolve_from_uri (uri fallback : string) (update : ContextType) (action : ContextAction) : ResolveContext :=
  mkResolveContext (ResolveUri uri) (if decide (fallback = EmptyString) then None else Some fallback) update action.

Definition resolve_from_context (context : Context) (update : ContextType) (action : ContextAction) : ResolveContext :=
  mkResolveContext (ResolveCtx context) None update action.

Definition option_or {A} (a b : option A) : option A := match a with Some _ => a | None => b end.

Definition resolve_uri (self : ResolveContext) : option string :=
  option_or (match resolve self with
             | ResolveUri uri => valid_resolve_uri uri
             | ResolveCtx ctx => find_valid_uri (ctx_uri ctx) (head (ctx_pages ctx))
             end) (fallback self).

Definition resolve_context_uri (self : ResolveContext) : string :=
  match resolve self with
  | ResolveUri uri => uri
  | ResolveCtx ctx => unwrap_or_default (ctx_uri ctx)
  end.

(** ** The resolver *)

(** The map of unavailable contexts is an association list without repeated
    keys; instants are in nanoseconds. *)
Record ContextResolver := mkContextResolver {
  queue : list ResolveContext;
  unavailable_contexts : list (ResolveContext * Z);
}.
#[export] Instance settable_ContextResolver : Settable ContextResolver :=
  λ r, mkContextResolver (queue r) (unavailable_contexts r).

Definition resolver_new : ContextResolver := mkContextResolver [] [].

Definition RETRY_UNAVAILABLE : Z := 3600 * 1000000000.

Fixpoint assoc_get (k : ResolveContext) (l : list (ResolveContext * Z)) : option Z :=
  match l with
  | [] => None
  | (k', v) :: l => if decide (k' = k) then Some v else assoc_get k l
  end.
Definition assoc_remove (k : ResolveContext) (l : list (ResolveContext * Z)) : list (ResolveContext * Z) :=
  filter (λ e, e.1 ≠ k) l.
Definition assoc_insert (k : ResolveContext) (v : Z) (l : list (ResolveContext * Z)) : list (ResolveContext * Z) :=
  (k, v) :: assoc_remove k l.

Definition add (now : Z) (r : ResolveContext) (self : ContextResolver) : ContextResolver :=
  let last_try := (λ t, Z.max 0 (now - t)) <$> assoc_get r (unavailable_contexts self) in
  let '(last_try, self) :=
    match last_try with
    | Some t => if decide (RETRY_UNAVAILABLE < t)%Z
                then (None, self <| unavailable_contexts ::= assoc_remove r |>) else (last_try, self)
    | None => (None, self)
    end in
  match last_try with
  | Some _ => self
  | None => if decide (r ∈ queue self) then self else self <| queue ::= (λ q, q ++ [r]) |>
  end.

Definition add_list (now : Z) (l : list ResolveContext) (self : ContextResolver) : ContextResolver :=
  foldl (λ self r, add now r self) self l.

(** The first entry that can be resolved: itself, its URI, and its place. *)
Fixpoint find_next_from (idx : nat) (q : list ResolveContext) : option (ResolveContext * string * nat) :=
  match q with
  | [] => None
  | next :: q =>
      match resolve_uri next with
      | None => find_next_from (S idx) q
      | Some uri => Some (next, uri, idx)
      end
  end.
Definition find_next (self : ContextResolver) : option (ResolveContext * string * nat) :=
  find_next_from 0 (queue self).

Definition has_next (self : ContextResolver) : bool :=
  match find_next self with Some _ => true | None => false end.

Definition remove_used_and_invalid (self : ContextResolver) : ContextResolver :=
  let self := match find_next self with
              | Some (_, _, remove) => self <| queue ::= drop remove |>
              | None => self
              end in
  self <| queue ::= tail |>.

Definition clear (self : ContextResolver) : ContextResolver := self <| queue := [] |>.

Definition mark_next_unavailable (now : Z) (self : ContextResolver) : ContextResolver :=
  match find_next self with
  | Some (next, _, _) => self <| unavailable_contexts ::= assoc_insert next now |>
  | None => self
  end.

(** ** Fetching *)

Inductive ResolverError :=
| NoNext
| UnexpectedPagesSize (n : nat)
| NotAllowedContext (uri : string)
| ServiceError
| EConnect (e : ConnectError).

(** The service: the context of a URI, and the autoplay context of a URI after
    the tracks played recently. *)
Class ContextService (X : Type) := {
  spclient_get_context : string → X → result Context () * X;
  spclient_get_autoplay_context : string → list string → X → result Context () * X;
}.

Definition service_result (r : result Context ()) : result Context ResolverError :=
  match r with Ok c => Ok c | Err _ => Err ServiceError end.

Definition get_next_context `{ContextService X} (recent_track_uri : list string) (self : ContextResolver) (x : X)
    : result Context ResolverError * X :=
  match find_next self with
  | None => (Err NoNext, x)
  | Some (next, uri, _) =>
      match update next with
      | Default =>
          let '(ctx, x) := spclient_get_context uri x in
          (service_result match ctx with
            | Ok c =>
                let u := resolve_context_uri next in
                Ok (mkContext (Some u) (Some ("context://" +:+ u)) (ctx_metadata c) (ctx_restrictions c) (ctx_pages c))
            | Err e => Err e
            end, x)
      | Autoplay =>
          if str_contains "spotify:show:" uri || str_contains "spotify:episode:" uri
          then (Err (NotAllowedContext uri), x)
          else let '(ctx, x) := spclient_get_autoplay_context uri recent_track_uri x in (service_result ctx, x)
      end
  end.

(** ** Applying a context to the connect state *)

Section apply.
Context `{DefaultHasher}.
Implicit Types s : ConnectState.

Abbreviation RM := (st ConnectState ResolverError).

(** A method of the connect state, with its errors. *)
Definition lift_connect {A} (m : M A) : RM A := λ s,
  match m s with
  | Val (s, Ok a) => Val (s, Ok a)
  | Val (s, Err e) => Val (s, Err (EConnect e))
  | Panic => Panic
  end.

(** The arm for [Replace]: the pages still to be fetched.  The context that came
    with the request is merged even when the update failed. *)
Definition replace_context (uuids : nat → nat → string) (ctx : Context) (next : ResolveContext)
    : RM (option (list string)) := λ s,
  match update_context uuids ctx (update next) s with
  | Panic => Panic
  | Val (s, remaining) =>
      let s := match resolve next with
               | ResolveCtx c => (merge_context (last (ctx_pages c)) s).2
               | ResolveUri _ => s
               end in
      Val (s, match remaining with Ok l => Ok l | Err e => Err (EConnect e) end)
  end.

(** The arms for [Append]. *)
Definition append_pages (uuids : nat → nat → string) (pages : list ContextPage) : RM (option (list string)) :=
  match pages with
  | [page] => _ ← lift_connect (fill_context_from_page (uuids 0) page); mret None
  | _ => st_throw (UnexpectedPagesSize (length pages))
  end.

Definition apply_next_context (uuids : nat → nat → string) (ctx : Context) (self : ContextResolver)
    : RM (option (list ResolveContext)) :=
  match find_next self with
  | None => st_throw NoNext
  | Some (next, _, _) =>
      remaining ← (match action next with
                   | Append => append_pages uuids (ctx_pages ctx)
                   | Replace => replace_context uuids ctx next
                   end);
      mret (option_map (fmap append_context) remaining)
  end.

Section finish.
Context `{Rng R}.

(** The setup of the state when the last context of a kind has arrived; the
    state that is transferred is used up. *)
Definition finish_setup (uuid : string) (uuids : nat → string) (new_seed : Z) (next : ResolveContext)
    (transfer_state : option TransferState) : M () :=
  s ← st_get;
  match transfer_state with
  | Some transfer => finish_transfer (R:=R) uuid uuids new_seed transfer
  | None =>
      if shuffling_context s && bool_decide (update next = Default) then shuffle_new (R:=R) new_seed
      else match get_context (active_context s) s with
           | Ok ctx =>
               if decide (ci_track (index ctx) = 0%Z) then
                 reset_playback_to_position (result_ok (find_index_in_context ctx
                   (λ t, bool_decide (uri t = uri (current_track s)))))
               else fill_up_next_tracks
           | Err _ => fill_up_next_tracks
           end
  end.

(** The new connect state, what is left of the transfer, and whether the setup
    was finished. *)
Definition try_finish (uuid : string) (uuids : nat → string) (new_seed : Z) (self : ContextResolver)
    (transfer_state : option TransferState) s : exec (ConnectState * option TransferState * bool) :=
  match find_next self with
  | None => Val (s, transfer_state, false)
  | Some (next, _, _) =>
      if decide (length (filter (λ r, update r = update next) (queue self)) ≠ 1) then Val (s, transfer_state, false)
      else if decide (update next = Default ∧ active_context s ≠ Default) then Val (s, transfer_state, false)
      else
        match finish_setup uuid uuids new_seed next transfer_state s with
        | Panic => Panic
        | Val (s, _) => Val (update_queue_revision (update_restrictions s), None, true)
        end
  end.
End finish.
End apply.

(** ** Lemmas *)

Section resolver.
Implicit Types self : ContextResolver.

Lemma add_NoDup now r self : NoDup (queue self) → NoDup (queue (add now r self)).
Proof.
  intros Hq. unfold add.
  destruct ((λ t, Z.max 0 (now - t)) <$> assoc_get r (unavailable_contexts self)) as [t|].
  - case_decide; [|done]. simpl. case_decide; [done|]. simpl. apply NoDup_app. split_and!; [done| |apply NoDup_singleton].
    set_solver.
  - case_decide; [done|]. simpl. apply NoDup_app. split_and!; [done| |apply NoDup_singleton]. set_solver.
Qed.

Lemma add_list_NoDup now l : ∀ self, NoDup (queue self) → NoDup (queue (add_list now l self)).
Proof. induction l as [|r l IH]; intros self Hq; [done|]. by apply IH, add_NoDup. Qed.

Lemma NoDup_drop {A} n (l : list A) : NoDup l → NoDup (drop n l).
Proof. intros Hl. rewrite <- (take_drop n l) in Hl. by apply NoDup_app in Hl as (_ & _ & ?). Qed.

Lemma remove_used_NoDup self : NoDup (queue self) → NoDup (queue (remove_used_and_invalid self)).
Proof.
  intros Hq. unfold remove_used_and_invalid.
  assert (∀ l : list ResolveContext, NoDup l → NoDup (tail l)) as Ht by (intros [|x l]; [done|by intros []%NoDup_cons]).
  destruct (find_next self) as [[[r u] n]|]; simpl; apply Ht; [by apply NoDup_drop|done].
Qed.

Lemma find_next_from_spec idx q r u n :
  find_next_from idx q = Some (r, u, n) → (idx ≤ n)%nat ∧ q !! (n - idx) = Some r.
Proof.
  revert idx. induction q as [|x q IH]; intros idx; simpl; [done|]. destruct (resolve_uri x) as [v|].
  - intros [= <- <- <-]. by rewrite Nat.sub_diag.
  - intros [Hle Hn]%IH. split; [lia|]. by replace (n - idx) with (S (n - S idx)) by lia.
Qed.

(** The entry that was handled leaves the queue with those before it. *)
Lemma remove_used_queue self r u n :
  find_next self = Some (r, u, n) → queue (remove_used_and_invalid self) = drop (S n) (queue self).
Proof.
  intros E. unfold remove_used_and_invalid. rewrite E. simpl. rewrite <- (Nat.add_1_r n), <- drop_drop.
  by destruct (drop n (queue self)).
Qed.

Lemma remove_used_gone self r u n :
  NoDup (queue self) → find_next self = Some (r, u, n) → r ∉ queue (remove_used_and_invalid self).
Proof.
  intros Hq E. rewrite (remove_used_queue _ _ _ _ E). apply find_next_from_spec in E as [_ Hn].
  rewrite Nat.sub_0_r in Hn. rewrite <- (take_drop_middle _ _ _ Hn) in Hq.
  apply NoDup_app in Hq as (_ & _ & Hq). by apply NoDup_cons in Hq as [? _].
Qed.

Lemma remove_used_subset self x : x ∈ queue (remove_used_and_invalid self) → x ∈ queue self.
Proof.
  unfold remove_used_and_invalid. destruct (find_next self) as [[[r u] n]|]; simpl.
  - intros Hx. rewrite <- (take_drop n (queue self)). destruct (drop n (queue self)); simpl in Hx; set_solver.
  - destruct (queue self); simpl; set_solver.
Qed.

Lemma remove_used_unavailable self : unavailable_contexts (remove_used_and_invalid self) = unavailable_contexts self.
Proof. unfold remove_used_and_invalid. by destruct (find_next self) as [[[r u] n]|]. Qed.

Lemma assoc_get_remove k k' l : k' ≠ k → assoc_get k (assoc_remove k' l) = assoc_get k l.
Proof.
  intros Hne. induction l as [|[x v] l IH]; [done|]. unfold assoc_remove. rewrite filter_cons. cbn [fst].
  destruct (decide (x ≠ k')) as [Hx|Hx]; simpl; [by rewrite <- IH|].
  apply dec_stable in Hx. subst x. by rewrite decide_False by done.
Qed.
End resolver.

(** ** Properties *)

(** What the task does with its resolver, with the time at which it happens:
    [OpFail] is a context that could not be fetched, [OpDone] one that was
    handled. *)
Inductive ResolverOp := OpAdd (r : ResolveContext) | OpAddList (l : list ResolveContext) | OpClear | OpFail | OpDone.
Definition resolver_step (now : Z) (op : ResolverOp) (self : ContextResolver) : ContextResolver :=
  match op with
  | OpAdd r => add now r self
  | OpAddList l => add_list now l self
  | OpClear => clear self
  | OpFail => remove_used_and_invalid (mark_next_unavailable now self)
  | OpDone => remove_used_and_invalid self
  end.
Definition resolver_run (l : list (Z * ResolverOp)) (self : ContextResolver) : ContextResolver :=
  foldl (λ self e, resolver_step e.1 e.2 self) self l.

Lemma mark_queue now self : queue (mark_next_unavailable now self) = queue self.
Proof. unfold mark_next_unavailable. by destruct (find_next self) as [[[r u] n]|]. Qed.

Lemma resolver_step_NoDup now op self : NoDup (queue self) → NoDup (queue (resolver_step now op self)).
Proof.
  intros Hq. destruct op; simpl.
  - by apply add_NoDup.
  - by apply add_list_NoDup.
  - apply NoDup_nil_2.
  - apply remove_used_NoDup. by rewrite mark_queue.
  - by apply remove_used_NoDup.
Qed.
Lemma resolver_run_NoDup l : ∀ self, NoDup (queue self) → NoDup (queue (resolver_run l self)).
Proof. induction l as [|[now op] l IH]; intros self Hq; [done|]. by apply IH, resolver_step_NoDup. Qed.

(** A context is put off: it is not queued, and known to have failed at [t] or
    later. *)
Definition put_off (t : Z) (r : ResolveContext) (self : ContextResolver) : Prop :=
  (r ∉ queue self) ∧ ∃ t', (t ≤ t')%Z ∧ assoc_get r (unavailable_contexts self) = Some t'.

Lemma put_off_add t r now r' self :
  (now ≤ t + RETRY_UNAVAILABLE)%Z → put_off t r self → put_off t r (add now r' self).
Proof.
  intros Hnow (Hq & t' & Ht & Hr). unfold add. destruct (decide (r' = r)) as [->|Hne].
  { rewrite Hr. cbn [fmap option_fmap option_map].
    rewrite decide_False by (unfold RETRY_UNAVAILABLE in *; lia). split; [done|]. eauto. }
  destruct (_ <$> _) as [d|]; [case_decide|].
  - simpl. case_decide; (split; [simpl; set_solver|exists t'; split; [done|]]); simpl; by rewrite assoc_get_remove.
  - split; [done|]. eauto.
  - case_decide; (split; [simpl; set_solver|by exists t']).
Qed.

Lemma put_off_step t r now op self :
  (t ≤ now ≤ t + RETRY_UNAVAILABLE)%Z → put_off t r self → put_off t r (resolver_step now op self).
Proof.
  intros [_ Hnow] Hput. destruct op as [r'|l| | |]; cbn [resolver_step].
  - by apply put_off_add.
  - revert self Hput. induction l as [|x l IH]; intros self Hput; [done|]. by apply IH, put_off_add.
  - destruct Hput as [_ ?]. split; [apply not_elem_of_nil|done].
  - destruct Hput as (Hq & t' & Ht & Hr). split.
    + intros Hin%remove_used_subset. by rewrite mark_queue in Hin.
    + exists t'. split; [done|]. rewrite remove_used_unavailable. unfold mark_next_unavailable.
      destruct (find_next self) as [[[x u] n]|] eqn:E; [|done].
      assert (x ≠ r) as Hne.
      { intros ->. apply find_next_from_spec in E as [_ E]. by eapply Hq, list_elem_of_lookup_2. }
      simpl. by rewrite decide_False, assoc_get_remove.
  - destruct Hput as (Hq & t' & Ht & Hr). split; [by intros ?%remove_used_subset|].
    exists t'. by rewrite remove_used_unavailable.
Qed.

(** A context that could not be fetched is taken out of the queue and not
    queued again for an hour, whatever is added or handled in between; after
    that it is queued again when it is asked for.  Every context that is handled
    leaves the queue, so one that is fetched is not fetched a second time. *)
Lemma failed_context_waits before r u n t :
  let self := resolver_run before resolver_new in
  find_next self = Some (r, u, n) →
  (∀ after, Forall (λ e, t ≤ e.1 ≤ t + RETRY_UNAVAILABLE)%Z after →
     r ∉ queue (resolver_run after (resolver_step t OpFail self))) ∧
  (∀ now, (t + RETRY_UNAVAILABLE < now)%Z → r ∈ queue (resolver_step now (OpAdd r) (resolver_step t OpFail self))) ∧
  (r ∉ queue (resolver_step t OpDone self)) ∧
  length (queue (resolver_step t OpDone self)) < length (queue self).
Proof.
  intros self E. assert (NoDup (queue self)) as Hnd by apply resolver_run_NoDup, NoDup_nil_2. clearbody self.
  assert (r ∉ queue (resolver_step t OpFail self) ∧
    assoc_get r (unavailable_contexts (resolver_step t OpFail self)) = Some t) as [Hq Hget].
  { cbn [resolver_step]. unfold mark_next_unavailable. rewrite E.
    set (s1 := self <| unavailable_contexts ::= assoc_insert r t |>).
    assert (find_next s1 = Some (r, u, n)) as E1 by done. split; [by eapply remove_used_gone|].
    rewrite remove_used_unavailable. simpl. by rewrite decide_True. }
  assert (put_off t r (resolver_step t OpFail self)) as Hput by (split; [done|by exists t]).
  split_and!.
  - intros after Hafter. revert Hput. generalize (resolver_step t OpFail self). clear - Hafter.
    induction Hafter as [|[now op] after Hnow _ IH]; intros self Hput; [apply Hput|]. by apply IH, put_off_step.
  - intros now Hnow. change (r ∈ queue (add now r (resolver_step t OpFail self))). unfold add. rewrite Hget.
    cbn [fmap option_fmap option_map]. rewrite decide_True by (unfold RETRY_UNAVAILABLE in *; lia).
    simpl. rewrite decide_False by done. simpl. set_solver.
  - by eapply remove_used_gone.
  - cbn [resolver_step]. rewrite (remove_used_queue _ _ _ _ E), length_drop. apply find_next_from_spec in E as [_ E].
    apply lookup_lt_Some in E. lia.
Qed.

