(* ===== verification/AudioFetch.v ===== *)
(** * The streaming audio file: [audio/src/fetch/mod.rs], [audio/src/fetch/receive.rs]

    A streamed file is downloaded by concurrent parties that share a
    bookkeeping structure: the task [audio_file_fetch] that answers commands
    and stores data, one task [receive_data] per request, the reader, and the
    controller the player holds.  [Sys] is their joint state: the shared
    structure, the temporary file, the two channels and the control state of
    every party.  A party goes from one access of what is shared to the next:
    taking the lock, loading or storing an atomic, sending or receiving a
    message, using the file.  Each of these is a step, which leaves behind the
    point the party is at; [run] interleaves the steps of all parties. *)

From S2P Require Import Prelude StdTypes Digits Text RangeSet StateMonad.

Local Open Scope string_scope.
Local Open Scope list_scope.
Local Open Scope Z_scope.

Abbreviation zlength l := (Z.of_nat (Datatypes.length l)).

(** ** Parameters *)

Record AudioFetchParams := mkParams {
  minimum_download_size : Z;
  minimum_throughput : Z;
  initial_ping_time_estimate : Duration;
  maximum_assumed_ping_time : Duration;
  read_ahead_before_playback : Duration;
  read_ahead_during_playback : Duration;
  prefetch_threshold_factor : f32;
  download_timeout : Duration;
}.

Definition AudioFetchParams_default : AudioFetchParams :=
  let minimum_download_size := 64 * 1024 in
  let minimum_throughput := 8 * 1024 in
  {| minimum_download_size := minimum_download_size;
     minimum_throughput := minimum_throughput;
     initial_ping_time_estimate := Duration_from_millis 500;
     maximum_assumed_ping_time := Duration_from_millis 1500;
     read_ahead_before_playback := Duration_from_secs 1;
     read_ahead_during_playback := Duration_from_secs 5;
     prefetch_threshold_factor := f32_of_Z 4;
     download_timeout := Duration_from_secs (minimum_download_size / minimum_throughput) |}.

(** ** State *)

Inductive AudioFileError :=
| Channel | Header | NoData | Output | StatusCode (code : Z) | WaitTimeout.

(** The errors the fetch task ends with: those above, a request that could not
    be made, and the temporary file that cannot be used. *)
Inductive FetchError :=
| EAudioFile (e : AudioFileError)
| ERequest
| EIo.

Inductive StreamLoaderCommand := Fetch (r : Range) | Close.

Record AudioFileDownloadStatus := mkStatus { requested : RangeSet; downloaded : RangeSet }.

(** The condition variable and the mutex have no data of their own: what is done
    while the lock is held is one step. *)
Record AudioFileShared := mkShared {
  cdn_url : string;
  file_size : Z;
  bytes_per_second : Z;
  download_status : AudioFileDownloadStatus;
  download_streaming : bool;
  download_slots : Z;
  ping_time_ms : Z;
  read_position : Z;
  throughput : Z;
}.

Inductive ReceivedData :=
| Throughput (t : Z)
| ResponseTime (d : Duration)
| Data (offset : Z) (data : list Z).

(** A handle on the temporary file: the content is shared, the cursor is not. *)
Record File := mkFile { cursor : Z }.

Record AudioFileFetch := mkFetch {
  output : option File;
  complete_tx : bool;
  network_response_times : list Duration;
  params : AudioFetchParams;
}.

(** Where the fetch task is: at the [select!]; in [download_range], before its
    length is settled and before the lock is taken, for a command or to fetch
    ahead; with data that is to be written, to be marked as downloaded; at the
    end; or, after a message, on its way through the checks of how much is
    pending and the choice of what to fetch ahead. *)
Inductive FetchPhase :=
| Selecting
| Sizing (offset length : Z) (ahead : bool)
| Requesting (offset length : Z) (ahead : bool)
| Storing (offset : Z) (data : list Z)
| Marking (offset : Z) (data : list Z)
| Finishing
| CheckMode
| CheckSlots
| CheckPending
| FindMissing (bytes : Z)
| ChooseRange (missing_data : RangeSet) (bytes : Z).

(** Where a [receive_data] is: waiting for the next response, once it has its
    permit, or for a body; behind the loop, before it reports the throughput
    and before it takes back what is missing; at the end. *)
Inductive ReceivePhase := Streaming | Collecting | Leaving | Returning | Dropping.

(** A running [receive_data]: its request, and its local variables. *)
Record Receiver := mkReceiver {
  rq_offset : Z;
  rq_length : Z;
  initial_response : bool;
  rc_offset : Z;
  actual_length : Z;
  measure_ping_time : bool;
  measure_throughput : bool;
  permit : bool;
  rc_phase : ReceivePhase;
}.

Inductive SeekFrom := SeekStart (p : Z) | SeekEnd (p : Z) | SeekCurrent (p : Z).

(** Where the reader is: in no call; in [read], before it takes the lock, while
    it waits, before it reads the file and before it tells its position; in
    [seek], before it looks up the target, loads and clears the mode, moves in
    the file, tells its position and sets the mode again. *)
Inductive ReadPhase :=
| Idle
| ReadAsk (offset length length_to_request : Z)
| ReadWait (offset length : Z)
| ReadCopy (offset read_len : Z)
| ReadTell (offset : Z) (data : list Z)
| SeekLookup (pos : SeekFrom) (requested_pos : Z)
| SeekMode (pos : SeekFrom)
| SeekPause (pos : SeekFrom)
| SeekMove (pos : SeekFrom) (was_streaming : bool)
| SeekTell (position : Z) (was_streaming : bool)
| SeekResume.

Record AudioFileStreaming := mkStreaming {
  read_file : File;
  position : Z;
}.

(** Where a thread that uses the controller is: in no call; in
    [fetch_next_and_wait], before it sends the first range; in
    [fetch_blocking], before it sends its range, before it first takes the lock,
    and while it waits. *)
Inductive ControlPhase :=
| Free
| SendFirst (request_range wait_range : Range)
| SendRange (range : Range)
| WaitFirst (range : Range)
| WaitMore (range : Range).

Record Sys := mkSys {
  shared : AudioFileShared;
  file : list Z;
  fetch : AudioFileFetch;
  running : bool;
  phase : FetchPhase;
  commands : list StreamLoaderCommand;
  file_data : list ReceivedData;
  receivers : list Receiver;
  complete_rx : bool;
  completed : option File;
  reader : AudioFileStreaming;
  reading : ReadPhase;
  blocking : ControlPhase;
}.

#[export] Instance settable_Status : Settable AudioFileDownloadStatus :=
  λ r, mkStatus (requested r) (downloaded r).
#[export] Instance settable_Shared : Settable AudioFileShared :=
  λ r, mkShared (cdn_url r) (file_size r) (bytes_per_second r) (download_status r) (download_streaming r)
         (download_slots r) (ping_time_ms r) (read_position r) (throughput r).
#[export] Instance settable_Fetch : Settable AudioFileFetch :=
  λ r, mkFetch (output r) (complete_tx r) (network_response_times r) (params r).
#[export] Instance settable_Receiver : Settable Receiver :=
  λ r, mkReceiver (rq_offset r) (rq_length r) (initial_response r) (rc_offset r) (actual_length r)
         (measure_ping_time r) (measure_throughput r) (permit r) (rc_phase r).
#[export] Instance settable_Streaming : Settable AudioFileStreaming :=
  λ r, mkStreaming (read_file r) (position r).
#[export] Instance settable_Sys : Settable Sys :=
  λ r, mkSys (shared r) (file r) (fetch r) (running r) (phase r) (commands r) (file_data r) (receivers r)
         (complete_rx r) (completed r) (reader r) (reading r) (blocking r).

Implicit Types s : Sys.

Definition is_download_streaming s : bool := download_streaming (shared s).
Definition set_download_streaming (b : bool) s : Sys := s <| shared ::= λ h, h <| download_streaming := b |> |>.

Definition ping_time s : Duration :=
  if decide (0 < ping_time_ms (shared s)) then Duration_from_millis (ping_time_ms (shared s))
  else initial_ping_time_estimate (params (fetch s)).
Definition set_ping_time (d : Duration) s : Sys :=
  s <| shared ::= λ h, h <| ping_time_ms := wrapu 64 (as_millis d) |> |>.
Definition set_throughput (t : Z) s : Sys := s <| shared ::= λ h, h <| throughput := t |> |>.
Definition set_read_position (p : Z) s : Sys := s <| shared ::= λ h, h <| read_position := p |> |>.

Definition status s : AudioFileDownloadStatus := download_status (shared s).
Definition set_requested (rs : RangeSet) s : Sys :=
  s <| shared ::= λ h, h <| download_status ::= λ d, d <| requested := rs |> |> |>.
Definition set_downloaded (rs : RangeSet) s : Sys :=
  s <| shared ::= λ h, h <| download_status ::= λ d, d <| downloaded := rs |> |> |>.

(** ** Files *)

(** Writing at an offset extends the file with zeros where needed. *)
Definition write_at (content : list Z) (offset : Z) (data : list Z) : list Z :=
  let o := Z.to_nat offset in
  take o (content ++ replicate (o - Datatypes.length content)%nat 0) ++ data ++
  drop (o + Datatypes.length data) content.

(** Reading up to [n] bytes at an offset. *)
Definition read_at (content : list Z) (offset : Z) (n : Z) : list Z :=
  take (Z.to_nat n) (drop (Z.to_nat offset) content).

(** [File::seek]: a negative position is an error. *)
Definition file_seek (content : list Z) (pos : SeekFrom) (f : File) : option (Z * File) :=
  let p := match pos with
           | SeekStart p => p
           | SeekEnd p => zlength content + p
           | SeekCurrent p => cursor f + p
           end in
  if decide (0 ≤ p) then Some (p, mkFile p) else None.

(** How an operation on the file ends; of a write that fails, some bytes may
    have been written. *)
Inductive Io := IoOk | IoFails (written : nat).

(** ** [audio_file_fetch]: requests *)

Abbreviation M := (st Sys FetchError).

Section fetch.
(** [request_stream url range]: whether the client accepts the request. *)
Context (request_stream : string → string → bool).

(** The [Range] header of [stream_from_cdn]. *)
Definition range_header (offset length : Z) : exec string :=
  e ← uadd usize_max offset length;
  last ← usub e 1;
  Val ("bytes=" +:+ display offset +:+ "-" +:+ display last).

Definition stream_from_cdn (url : string) (offset length : Z) : exec bool :=
  h ← range_header offset length; Val (request_stream url h).

(** A [receive_data] that was just spawned. *)
Definition receive_data (offset length : Z) (initial : bool) : Receiver :=
  mkReceiver offset length initial offset 0 true true false Streaming.

Definition has_download_slots_available s : bool := bool_decide (0 < download_slots (shared s)).

(** The loop of [download_range] over the ranges to request. *)
Fixpoint request_ranges (l : list Range) : M () :=
  match l with
  | [] => mret ()
  | range :: l =>
      s ← st_get;
      ok ← st_lift (stream_from_cdn (cdn_url (shared s)) (start range) (length range));
      if ok : bool then
        rs ← st_lift (add_range (requested (status s)) range);
        _ ← st_modify (set_requested rs);
        _ ← st_modify (λ s, s <| receivers ::= λ l, l ++ [receive_data (start range) (length range) false] |>);
        request_ranges l
      else st_throw ERequest
  end.

(** What is neither downloaded nor requested of a set of ranges. *)
Definition subtract_known (rs : RangeSet) (d : AudioFileDownloadStatus) : exec RangeSet :=
  rs ← subtract_range_set rs (downloaded d);
  subtract_range_set rs (requested d).

(** [download_range] up to the lock: the length that is asked for. *)
Definition download_length (offset length : Z) : M Z :=
  s ← st_get;
  let length := if decide (length < minimum_download_size (params (fetch s)))
                then minimum_download_size (params (fetch s)) else length in
  let length := if is_download_streaming s then Z.max length (throughput (shared s)) else length in
  e ← st_lift (uadd usize_max offset length);
  st_lift (if decide (e > file_size (shared s)) then usub (file_size (shared s)) offset else Val length).

(** What it does under the lock. *)
Definition download_range (offset length : Z) : M () :=
  s ← st_get;
  ranges_to_request ← st_lift (add_range new (mkRange offset length));
  ranges_to_request ← st_lift (subtract_known ranges_to_request (status s));
  request_ranges (ranges ranges_to_request).

(** [pre_fetch_more_data]: what is missing, under the lock. *)
Definition find_missing : M RangeSet :=
  s ← st_get;
  missing_data ← st_lift (add_range new (mkRange 0 (file_size (shared s))));
  st_lift (subtract_known missing_data (status s)).

(** What of it is fetched next, from the read position on if possible. *)
Definition pre_fetch_more_data (missing_data : RangeSet) (bytes : Z) : M (option (Z * Z)) :=
  s ← st_get;
  n ← st_lift (usub (file_size (shared s)) (read_position (shared s)));
  tail_end ← st_lift (add_range new (mkRange (read_position (shared s)) n));
  tail_end ← st_lift (intersection tail_end missing_data);
  if negb (is_empty tail_end) then
    range ← st_lift (get_range tail_end 0);
    mret (Some (start range, Z.min (length range) bytes))
  else if negb (is_empty missing_data) then
    range ← st_lift (get_range missing_data 0);
    mret (Some (start range, Z.min (length range) bytes))
  else mret None.

(** ** [audio_file_fetch]: received data *)

(** [rewind] may fail. *)
Definition finish (io : Io) : M () :=
  s ← st_get;
  _ ← st_modify (λ s, s <| fetch ::= λ f, f <| output := None |> <| complete_tx := false |> |>);
  match output (fetch s) with
  | Some _ =>
      match io with
      | IoFails _ => st_throw EIo
      | IoOk =>
          let output := mkFile 0 in
          if complete_tx (fetch s) then
            if complete_rx s then st_modify (λ s, s <| completed := Some output |>)
            else st_throw (EAudioFile Channel)
          else mret ()
      end
  | None => mret ()
  end.

Definition handle_throughput (t : Z) : M () :=
  s ← st_get;
  let t := if decide (t < minimum_throughput (params (fetch s)))
           then minimum_throughput (params (fetch s)) else t in
  let old_throughput := throughput (shared s) in
  avg_throughput ← st_lift (if decide (0 < old_throughput)
                            then sum ← uadd usize_max old_throughput t; Val (sum / 2) else Val t);
  st_modify (set_throughput avg_throughput).

(** Keep at most two response times. *)
Fixpoint prune_times (l : list Duration) : list Duration :=
  match l with
  | _ :: ((_ :: _ :: _) as l') => prune_times l'
  | _ => l
  end.

(** The median of up to three. *)
Definition median_time (l : list Duration) : exec Duration :=
  match l with
  | [a] => Val a
  | [a; b] => c ← duration_add a b; Val (duration_div c 2)
  | [_; _; _] => match merge_sort duration_le l !! 1%nat with Some t => Val t | None => Panic end
  | _ => Panic
  end.

Definition handle_response_time (response_time : Duration) : M () :=
  s ← st_get;
  let mx := maximum_assumed_ping_time (params (fetch s)) in
  let response_time := if decide (duration_le response_time mx) then response_time else mx in
  _ ← st_modify (λ s, s <| fetch ::= λ f,
        f <| network_response_times ::= λ l, prune_times l ++ [response_time] |> |>);
  s ← st_get;
  ping ← st_lift (median_time (network_response_times (fetch s)));
  st_modify (set_ping_time ping).

(** Seek and write; of a write that fails, a part may be in the file. *)
Definition write_data (offset : Z) (data : list Z) s : Sys :=
  s <| file ::= λ c, write_at c offset data |>
    <| fetch ::= λ x, x <| output := Some (mkFile (offset + zlength data)) |> |>.

Definition store_data (io : Io) (offset : Z) (data : list Z) : M () :=
  s ← st_get;
  match output (fetch s) with
  | Some _ =>
      match io with
      | IoOk => st_modify (write_data offset data)
      | IoFails n => _ ← st_modify (write_data offset (take n data)); st_throw EIo
      end
  | None => st_throw (EAudioFile Output)
  end.

(** Under the lock: whether the file is complete. *)
Definition mark_downloaded (offset : Z) (data : list Z) : M bool :=
  s ← st_get;
  rs ← st_lift (add_range (downloaded (status s)) (mkRange offset (zlength data)));
  _ ← st_modify (set_downloaded rs);
  n ← st_lift (contained_length_from_value rs 0);
  mret (bool_decide (file_size (shared s) ≤ n)).

(** The first step of [handle_file_data], and the point it leads to. *)
Definition handle_file_data (data : ReceivedData) : M FetchPhase :=
  match data with
  | Throughput t => _ ← handle_throughput t; mret CheckMode
  | ResponseTime d => _ ← handle_response_time d; mret CheckMode
  | Data offset data => mret (Storing offset data)
  end.

(** ** [audio_file_fetch]: the loop *)

Definition desired_pending_bytes s : Z :=
  let ping_time_seconds := as_secs_f32 (ping_time s) in
  Z.max
    (f32_to_usize (f32_mul (f32_mul (prefetch_threshold_factor (params (fetch s))) ping_time_seconds)
                     (f32_of_Z (bytes_per_second (shared s)))))
    (f32_to_usize (f32_mul ping_time_seconds (f32_of_Z (throughput (shared s))))).

(** The bytes that are pending, under the lock, and how many more are wanted.
    Only this task changes the ping time and the throughput. *)
Definition pending_bytes : M FetchPhase :=
  s ← st_get;
  pending ← st_lift (minus (requested (status s)) (downloaded (status s)));
  bytes_pending ← st_lift (len pending);
  if decide (bytes_pending < desired_pending_bytes s)
  then mret (FindMissing (desired_pending_bytes s - bytes_pending)) else mret Selecting.

(** A step of the task, and the next point; [None] leaves the loop. *)
Definition fetch_phase (io : Io) (ph : FetchPhase) : M (option FetchPhase) :=
  match ph with
  | Selecting => mret (Some Selecting)
  | Sizing offset length ahead => length ← download_length offset length; mret (Some (Requesting offset length ahead))
  | Requesting offset length ahead =>
      _ ← download_range offset length; mret (Some (if ahead : bool then Selecting else CheckMode))
  | Storing offset data => _ ← store_data io offset data; mret (Some (Marking offset data))
  | Marking offset data =>
      full ← mark_downloaded offset data; mret (Some (if full : bool then Finishing else CheckMode))
  | Finishing => _ ← finish io; mret None
  | CheckMode => s ← st_get; mret (Some (if is_download_streaming s then CheckSlots else Selecting))
  | CheckSlots => s ← st_get; mret (Some (if has_download_slots_available s then CheckPending else Selecting))
  | CheckPending => ph ← pending_bytes; mret (Some ph)
  | FindMissing bytes => missing_data ← find_missing; mret (Some (ChooseRange missing_data bytes))
  | ChooseRange missing_data bytes =>
      r ← pre_fetch_more_data missing_data bytes;
      mret (Some (match r with Some (offset, length) => Sizing offset length true | None => Selecting end))
  end.

(** The end of the task drops its ends of the channels and its file. *)
Definition end_fetch s : Sys :=
  s <| running := false |> <| phase := Selecting |> <| commands := [] |> <| file_data := [] |>
    <| fetch ::= λ f, f <| output := None |> <| complete_tx := false |> |>.

(** An error ends the task, as leaving the loop does. *)
Definition fetch_step (io : Io) s : exec Sys :=
  match fetch_phase io (phase s) s with
  | Panic => Panic
  | Val (s, Ok (Some ph)) => Val (s <| phase := ph |>)
  | Val (s, _) => Val (end_fetch s)
  end.

(** The first step of [handle_stream_loader_command]; [None] leaves the loop. *)
Definition handle_stream_loader_command (cmd : StreamLoaderCommand) : option FetchPhase :=
  match cmd with
  | Fetch request => Some (Sizing (start request) (length request) false)
  | Close => None
  end.

(** The two arms of the [select!]. *)
Definition take_command s : exec Sys :=
  match phase s, commands s with
  | Selecting, cmd :: l =>
      let s := s <| commands := l |> in
      Val (match handle_stream_loader_command cmd with Some ph => s <| phase := ph |> | None => end_fetch s end)
  | _, _ => Val s
  end.
Definition take_data s : exec Sys :=
  match phase s, file_data s with
  | Selecting, d :: l =>
      match handle_file_data d (s <| file_data := l |>) with
      | Panic => Panic
      | Val (s, Ok ph) => Val (s <| phase := ph |>)
      | Val (s, Err _) => Val (end_fetch s)
      end
  | _, _ => Val s
  end.

(** ** [receive_data] *)

(** What the streamer yields. *)
Inductive StreamItem :=
| Response (status : Z)
| StreamErr
| StreamEnd.

Definition PARTIAL_CONTENT : Z := 206.

(** [file_data_tx.send] fails once the fetch task is gone. *)
Definition send_data (d : ReceivedData) s : option Sys :=
  if running s then Some (s <| file_data ::= λ l, l ++ [d] |>) else None.

(** The permit is released when the task ends, in whichever way. *)
Definition release_permit s : Sys := s <| shared ::= λ h, h <| download_slots ::= Z.succ |> |>.

(** Where a step of the task leads: to another point, or out of it. *)
Definition goes_on (i : nat) (next : option (Receiver * Sys)) s : Sys :=
  match next with
  | Some (r, s) => s <| receivers ::= <[i := r]> |>
  | None => release_permit (s <| receivers ::= delete i |>)
  end.

Definition receive_acquire (i : nat) s : Sys :=
  match receivers s !! i with
  | Some r =>
      if negb (permit r) && has_download_slots_available s then
        s <| receivers ::= <[i := r <| permit := true |>]> |>
          <| shared ::= λ h, h <| download_slots ::= Z.pred |> |>
      else s
  | None => s
  end.

(** The ping time is measured at the first response that took a millisecond. *)
Definition report_ping (elapsed : Duration) (r : Receiver) s : option (Receiver * Sys) :=
  if measure_ping_time r && bool_decide (0 < as_millis elapsed) then
    s ← send_data (ResponseTime elapsed) s; Some (r <| measure_ping_time := false |>, s)
  else Some (r, s).

(** The next response, up to its body.  A wait that the server asks for changes
    nothing. *)
Definition receive_response (item : StreamItem) (elapsed : Duration) (r : Receiver) s : option (Receiver * Sys) :=
  match item with
  | StreamErr | StreamEnd => Some (r <| rc_phase := Leaving |>, s)
  | Response code =>
      let r := if initial_response r
               then r <| initial_response := false |> <| measure_ping_time := false |>
                      <| measure_throughput := false |>
               else r in
      '(r, s) ← report_ping elapsed r s;
      Some (r <| rc_phase := if decide (code ≠ PARTIAL_CONTENT) then Leaving else Collecting |>, s)
  end.

(** The body; [None] when it cannot be collected. *)
Definition receive_body (body : option (list Z)) (r : Receiver) s : exec (option (Receiver * Sys)) :=
  match body with
  | None => Val (Some (r <| rc_phase := Leaving |>, s))
  | Some data =>
      match send_data (Data (rc_offset r) data) s with
      | None => Val None
      | Some s =>
          n ← uadd usize_max (actual_length r) (zlength data);
          o ← uadd usize_max (rc_offset r) (zlength data);
          Val (Some (r <| actual_length := n |> <| rc_offset := o |> <| rc_phase := Streaming |>, s))
      end
  end.

Definition report_throughput (total : Duration) (r : Receiver) s : option (Receiver * Sys) :=
  if measure_throughput r && bool_decide (0 < actual_length r) && bool_decide (0 < as_millis total) then
    s ← send_data (Throughput (wrapu 64 (1000 * actual_length r / as_millis total))) s;
    Some (r <| rc_phase := Returning |>, s)
  else Some (r <| rc_phase := Returning |>, s).

(** What was asked for and has not come is not requested any more. *)
Definition return_missing (r : Receiver) s : exec (Receiver * Sys) :=
  bytes_remaining ← usub (rq_length r) (actual_length r);
  if decide (0 < bytes_remaining) then
    rs ← subtract_range (requested (status s)) (mkRange (rc_offset r) bytes_remaining);
    Val (r <| rc_phase := Dropping |>, set_requested rs s)
  else Val (r <| rc_phase := Dropping |>, s).

(** What arrives for a receiver. *)
Inductive Arrival :=
| AItem (item : StreamItem) (elapsed : Duration)
| ABody (body : option (list Z))
| ANothing (total : Duration).

(** A step of the [i]-th receiver. *)
Definition receive_step (i : nat) (a : Arrival) s : exec Sys :=
  match receivers s !! i with
  | Some r =>
      if permit r then
        match rc_phase r, a with
        | Streaming, AItem item elapsed => Val (goes_on i (receive_response item elapsed r s) s)
        | Collecting, ABody body => next ← receive_body body r s; Val (goes_on i next s)
        | Leaving, ANothing total => Val (goes_on i (report_throughput total r s) s)
        | Returning, ANothing _ => '(r, s) ← return_missing r s; Val (goes_on i (Some (r, s)) s)
        | Dropping, ANothing _ => Val (goes_on i None s)
        | _, _ => Val s
        end
      else Val s
  | None => Val s
  end.

(** ** The reader *)

Inductive IoError := BrokenPipe | TimedOut | InvalidInput | DiskError.

(** What a call of the reader returns: for [read], with the offset it read at,
    the bytes. *)
Inductive Returned :=
| ReadReturns (offset : Z) (r : result (list Z) IoError)
| SeekReturns (r : result Z IoError).

(** A step of the reader: the call goes on at another point, or returns. *)
Abbreviation reader_result := (exec (Sys * option Returned)).

Definition continues (ph : ReadPhase) s : Sys * option Returned := (s <| reading := ph |>, None).
Definition returns (r : Returned) s : Sys * option Returned := (s <| reading := Idle |>, Some r).

Definition send_command (c : StreamLoaderCommand) s : option Sys :=
  if running s then Some (s <| commands ::= λ l, l ++ [c] |>) else None.

Fixpoint send_fetches (l : list Range) s : bool * Sys :=
  match l with
  | [] => (true, s)
  | r :: l => match send_command (Fetch r) s with
              | Some s => send_fetches l s
              | None => (false, s)
              end
  end.

Definition read_ahead_bytes s : Z :=
  f32_to_usize (f32_mul (as_secs_f32 (read_ahead_during_playback (params (fetch s))))
                  (f32_of_Z (bytes_per_second (shared s)))).

(** [read], up to the lock. *)
Definition read (output_len : Z) s : reader_result :=
  let offset := position (reader s) in
  if decide (file_size (shared s) ≤ offset) then Val (returns (ReadReturns offset (Ok [])) s)
  else
    let length := Z.min output_len (file_size (shared s) - offset) in
    if decide (length = 0) then Val (returns (ReadReturns offset (Ok [])) s)
    else
      length_to_request ← (if is_download_streaming s then
                             n ← uadd usize_max length (read_ahead_bytes s);
                             Val (Z.min n (file_size (shared s) - offset))
                           else Val length);
      Val (continues (ReadAsk offset length length_to_request) s).

(** The condition of the waiting loop, and, when it is over, the length that can
    be read. *)
Definition read_check (offset length : Z) s : reader_result :=
  c ← contains (downloaded (status s)) offset;
  if c : bool then
    available_length ← contained_length_from_value (downloaded (status s)) offset;
    Val (continues (ReadCopy offset (Z.min length available_length)) s)
  else Val (continues (ReadWait offset length) s).

(** Under the lock, what is missing is asked for. *)
Definition read_ask (offset length length_to_request : Z) s : reader_result :=
  ranges_to_request ← add_range new (mkRange offset length_to_request);
  ranges_to_request ← subtract_known ranges_to_request (status s);
  let '(sent, s) := send_fetches (ranges ranges_to_request) s in
  if sent : bool then read_check offset length s else Val (returns (ReadReturns offset (Err BrokenPipe)) s).

(** The file is read; a failure leaves the position. *)
Definition read_copy (io : Io) (offset read_len : Z) s : Sys * option Returned :=
  match io with
  | IoOk =>
      let data := read_at (file s) offset read_len in
      continues (ReadTell offset data) (s <| reader ::= λ x, x <| read_file := mkFile (offset + zlength data) |> |>)
  | IoFails _ => returns (ReadReturns offset (Err DiskError)) s
  end.

Definition read_tell (offset : Z) (data : list Z) s : Sys * option Returned :=
  returns (ReadReturns offset (Ok data))
    (set_read_position (offset + zlength data) (s <| reader ::= λ x, x <| position := offset + zlength data |> |>)).

(** [seek]; [i64] arithmetic panics on overflow. *)
Definition i64_add (a b : Z) : exec Z :=
  if decide (- 2 ^ 63 ≤ a + b < 2 ^ 63) then Val (a + b) else Panic.
Definition as_i64 (z : Z) : Z := if decide (z < 2 ^ 63) then z else z - 2 ^ 64.

(** [seek], up to the lock. *)
Definition seek (pos : SeekFrom) s : reader_result :=
  let current_position := as_i64 (position (reader s)) in
  requested_pos ← (match pos with
                   | SeekStart p => Val (as_i64 p)
                   | SeekEnd p => n ← i64_add (as_i64 (file_size (shared s))) (- p); i64_add n (- 1)
                   | SeekCurrent p => i64_add current_position p
                   end);
  Val (if decide (requested_pos = current_position)
       then returns (SeekReturns (Ok (position (reader s)))) s
       else continues (SeekLookup pos requested_pos) s).

Definition seek_lookup (pos : SeekFrom) (requested_pos : Z) s : reader_result :=
  available ← contains (downloaded (status s)) (wrapu 64 requested_pos);
  Val (continues (if available : bool then SeekMove pos false else SeekMode pos) s).

(** An error returns at once: the mode is not set again. *)
Definition seek_move (io : Io) (pos : SeekFrom) (was_streaming : bool) s : Sys * option Returned :=
  match io with
  | IoFails _ => returns (SeekReturns (Err DiskError)) s
  | IoOk =>
      match file_seek (file s) pos (read_file (reader s)) with
      | None => returns (SeekReturns (Err InvalidInput)) s
      | Some (p, f) => continues (SeekTell p was_streaming) (s <| reader := mkStreaming f p |>)
      end
  end.

Definition seek_tell (p : Z) (was_streaming : bool) s : Sys * option Returned :=
  let s := set_read_position p s in
  if was_streaming then continues SeekResume s else returns (SeekReturns (Ok p)) s.

(** A step of the reader. *)
Definition reader_step (io : Io) s : reader_result :=
  match reading s with
  | Idle => Val (s, None)
  | ReadAsk offset length length_to_request => read_ask offset length length_to_request s
  | ReadWait offset length => read_check offset length s
  | ReadCopy offset read_len => Val (read_copy io offset read_len s)
  | ReadTell offset data => Val (read_tell offset data s)
  | SeekLookup pos requested_pos => seek_lookup pos requested_pos s
  | SeekMode pos => Val (continues (if is_download_streaming s then SeekPause pos else SeekMove pos false) s)
  | SeekPause pos => Val (continues (SeekMove pos true) (set_download_streaming false s))
  | SeekMove pos was_streaming => Val (seek_move io pos was_streaming s)
  | SeekTell p was_streaming => Val (seek_tell p was_streaming s)
  | SeekResume => Val (returns (SeekReturns (Ok (position (reader s)))) (set_download_streaming true s))
  end.

(** ** [StreamLoaderController] *)

(** A controller of a streamed file shares its state; that of a local file
    only knows the size. *)
Record StreamLoaderController := mkController { streaming : bool; ctl_file_size : Z }.

Definition range_available (c : StreamLoaderController) (range : Range) s : exec bool :=
  if streaming c then
    n ← contained_length_from_value (downloaded (status s)) (start range);
    Val (bool_decide (length range ≤ n))
  else n ← usub (ctl_file_size c) (start range); Val (bool_decide (length range ≤ n)).

Definition range_to_end_available (c : StreamLoaderController) s : exec bool :=
  if streaming c then
    n ← usub (ctl_file_size c) (read_position (shared s));
    range_available c (mkRange (read_position (shared s)) n) s
  else Val true.

(** A command that cannot be sent is dropped. *)
Definition send_stream_loader_command (c : StreamLoaderController) (cmd : StreamLoaderCommand) s : Sys :=
  if streaming c then default s (send_command cmd s) else s.
Definition controller_fetch (c : StreamLoaderController) (range : Range) s : Sys :=
  send_stream_loader_command c (Fetch range) s.

(** The condition of the waiting loop. *)
Definition must_wait (range : Range) s : exec bool :=
  n ← contained_length_from_value (downloaded (status s)) (start range);
  Val (bool_decide (n < length range)).

(** [fetch_blocking] keeps its range inside the file. *)
Definition fit_range (c : StreamLoaderController) (range : Range) : exec Range :=
  if decide (ctl_file_size c ≤ start range) then Val (mkRange (start range) 0)
  else
    e ← range_end range;
    Val (if decide (ctl_file_size c < e) then mkRange (start range) (ctl_file_size c - start range) else range).

(** Its range is sent; then it waits. *)
Definition fetch_blocking (c : StreamLoaderController) (range : Range) s : exec Sys :=
  range ← fit_range c range;
  Val (controller_fetch c range s <| blocking := if streaming c then WaitFirst range else Free |>).

(** The condition of the loop, under the lock. *)
Definition wait_or_return (range : Range) s : exec Sys :=
  w ← must_wait range s; Val (s <| blocking := if w : bool then WaitMore range else Free |>).

(** After a wait, the range is asked for again when it is neither downloaded
    nor requested. *)
Definition fetch_again (c : StreamLoaderController) (range : Range) s : exec Sys :=
  both ← union (downloaded (status s)) (requested (status s));
  n ← contained_length_from_value both (start range);
  wait_or_return range (if decide (n < length range) then controller_fetch c range s else s).

Definition fetch_next_and_wait (c : StreamLoaderController) (request_length wait_length : Z) s : Sys :=
  if streaming c then
    let start := read_position (shared s) in
    s <| blocking := SendFirst (mkRange start request_length) (mkRange start wait_length) |>
  else s.

(** A step of a call that waits. *)
Definition controller_step (c : StreamLoaderController) s : exec Sys :=
  match blocking s with
  | Free => Val s
  | SendFirst request_range wait_range => Val (controller_fetch c request_range s <| blocking := SendRange wait_range |>)
  | SendRange range => fetch_blocking c range s
  | WaitFirst range => wait_or_return range s
  | WaitMore range => fetch_again c range s
  end.

Definition set_random_access_mode (c : StreamLoaderController) s : Sys :=
  if streaming c then set_download_streaming false s else s.
Definition set_stream_mode (c : StreamLoaderController) s : Sys :=
  if streaming c then set_download_streaming true s else s.
Definition close (c : StreamLoaderController) s : Sys := send_stream_loader_command c Close s.
Definition from_local_file (file_size : Z) : StreamLoaderController := mkController false file_size.

(** ** Opening a stream *)

(** [str_value[hyphen_index + 1..slash_index].parse()] and the part after the
    slash. *)
Definition parse_content_range (str : string) : exec (result (Z * Z) ParseIntError) :=
  let hyphen_index := default 0%nat (find "-" str) in
  let slash_index := default 0%nat (find "/" str) in
  u ← slice (hyphen_index + 1) slash_index str;
  match parse_uint usize_max u with
  | Err e => Val (Err e)
  | Ok upper_bound =>
      n ← slice (slash_index + 1) (String.length str) str;
      match parse_uint usize_max n with
      | Err e => Val (Err e)
      | Ok file_size => Val (Ok (upper_bound, file_size))
      end
  end.

Inductive OpenError :=
| RequestRefused
| UrlsFailed (n : nat)
| MissingHeader
| HeaderNotText
| BadHeader (e : ParseIntError)
| TempFile.

(** The first URL that answers with 206 is used; a request that cannot be made
    ends the search. *)
Fixpoint first_partial {A} (size : Z) (respond : string → option (Z * A)) (urls : list string)
    : exec (result (option (string * A)) OpenError) :=
  match urls with
  | [] => Val (Ok None)
  | url :: urls =>
      ok ← stream_from_cdn url 0 size;
      if ok : bool then
        match respond url with
        | Some (status, r) => if decide (status = PARTIAL_CONTENT) then Val (Ok (Some (url, r)))
                              else first_partial size respond urls
        | None => first_partial size respond urls
        end
      else Val (Err RequestRefused)
  end.

(** What [audio_file_fetch] marks as requested for the initial request; the
    end of the range is passed for its length, which is the same at offset 0. *)
Definition initial_requested (offset length : Z) : exec RangeSet :=
  e ← uadd usize_max offset length; add_range new (mkRange offset e).

(** The state after [open] and the start of the fetch task: the first request
    covers the bytes up to the upper bound of the content range. *)
Definition open_stream (p : AudioFetchParams) (url : string) (bytes_per_second upper_bound file_size : Z)
    : exec Sys :=
  length ← uadd usize_max upper_bound 1;
  rs ← initial_requested 0 length;
  Val {| shared := {| cdn_url := url; file_size := file_size; bytes_per_second := bytes_per_second;
                      download_status := mkStatus rs new; download_streaming := false; download_slots := 1;
                      ping_time_ms := 0; read_position := 0; throughput := 0 |};
         file := replicate (Z.to_nat file_size) 0;
         fetch := mkFetch (Some (mkFile 0)) true [] p;
         running := true; phase := Selecting; commands := []; file_data := [];
         receivers := [receive_data 0 length true];
         complete_rx := true; completed := None;
         reader := mkStreaming (mkFile 0) 0; reading := Idle; blocking := Free |}.

(** [respond] is the outcome of the first request at each URL: the status and
    the content range; [None] stands for a timeout or a failed request.  [io] is
    the outcome of creating the temporary file, of setting its length and of
    opening it again. *)
Definition open (p : AudioFetchParams) (respond : string → option (Z * option string)) (urls : list string)
    (bytes_per_second : Z) (io : Io) : exec (result Sys OpenError) :=
  found ← first_partial (minimum_download_size p) respond urls;
  match found with
  | Err e => Val (Err e)
  | Ok None => Val (Err (UrlsFailed (Datatypes.length urls)))
  | Ok (Some (_, None)) => Val (Err MissingHeader)
  | Ok (Some (url, Some content_range)) =>
      if to_str_ok content_range then
        r ← parse_content_range content_range;
        match r with
        | Err e => Val (Err (BadHeader e))
        | Ok (upper_bound, file_size) =>
            s ← open_stream p url bytes_per_second upper_bound file_size;
            Val (match io with IoOk => Ok s | IoFails _ => Err TempFile end)
        end
      else Val (Err HeaderNotText)
  end.

Definition get_stream_loader_controller s : StreamLoaderController := mkController true (file_size (shared s)).

(** ** Interleaving *)

(** A step of one of the parties.  Times, responses, outcomes of file operations
    and the arguments of the calls are inputs. *)
Inductive label :=
| LCommand
| LData
| LHangUp
| LFetchTask (io : Io)
| LAcquire (i : nat)
| LReceive (i : nat) (a : Arrival)
| LRead (output_len : Z)
| LSeek (pos : SeekFrom)
| LReader (io : Io)
| LReadTimeout
| LFetch (range : Range)
| LFetchBlocking (range : Range)
| LFetchNext (request_length wait_length : Z)
| LController
| LFetchTimeout
| LSetMode (streaming : bool)
| LClose.

(** The channel of commands is closed when every sender is gone. *)
Definition hang_up s : Sys :=
  match phase s, commands s with Selecting, [] => end_fetch s | _, _ => s end.

Definition silent (m : exec Sys) : reader_result := s ← m; Val (s, None).

(** The reader and the waiting caller of the controller are in one call at a
    time; a wait that is over time returns. *)
Definition run (l : label) s : reader_result :=
  let c := get_stream_loader_controller s in
  match l with
  | LCommand => silent (if running s then take_command s else Val s)
  | LData => silent (if running s then take_data s else Val s)
  | LHangUp => silent (Val (hang_up s))
  | LFetchTask io => silent (if running s then fetch_step io s else Val s)
  | LAcquire i => silent (Val (receive_acquire i s))
  | LReceive i a => silent (receive_step i a s)
  | LRead n => match reading s with Idle => read n s | _ => Val (s, None) end
  | LSeek pos => match reading s with Idle => seek pos s | _ => Val (s, None) end
  | LReader io => reader_step io s
  | LReadTimeout =>
      match reading s with
      | ReadWait offset _ => Val (returns (ReadReturns offset (Err TimedOut)) s)
      | _ => Val (s, None)
      end
  | LFetch range => Val (controller_fetch c range s, None)
  | LFetchBlocking range =>
      match blocking s with Free => Val (s <| blocking := SendRange range |>, None) | _ => Val (s, None) end
  | LFetchNext request wait =>
      match blocking s with Free => Val (fetch_next_and_wait c request wait s, None) | _ => Val (s, None) end
  | LController => silent (controller_step c s)
  | LFetchTimeout =>
      match blocking s with WaitMore _ => Val (s <| blocking := Free |>, None) | _ => Val (s, None) end
  | LSetMode b => Val ((if b then set_stream_mode c s else set_random_access_mode c s), None)
  | LClose => Val (close c s, None)
  end.
End fetch.
