(* ===== verification/AudioFetchInv.v ===== *)
(** * Invariant of the streaming audio file

    Every byte position is, at any time, either not asked for, or held by
    exactly one party: a running request, a message in the data channel, the
    fetch task, or the downloaded part of the file.  The invariant states this by counting,
    together with the correctness of the bytes on disk, and is preserved by
    every step of every party. *)

From S2P Require Import Prelude StdTypes Digits Text RangeSet StateMonad AudioFetch.

Local Open Scope Z_scope.

(** ** Counting holders *)

#[export] Instance in_range_dec v r : Decision (in_range v r).
Proof. unfold in_range. apply _. Defined.
#[export] Instance in_rangeset_dec (v : Z) (rs : RangeSet) : Decision (v ∈ rs).
Proof. unfold elem_of, rangeset_elem_of, in_ranges. apply _. Defined.

Definition count (v : Z) (l : list Range) : nat := Datatypes.length (filter (in_range v) l).
Definition member (v : Z) (rs : RangeSet) : nat := if decide (v ∈ rs) then 1 else 0.

Lemma count_nil v : count v [] = 0%nat.
Proof. done. Qed.
Lemma count_app v l1 l2 : count v (l1 ++ l2) = (count v l1 + count v l2)%nat.
Proof. unfold count. by rewrite filter_app, length_app. Qed.
Lemma count_cons v r l : count v (r :: l) = (count v [r] + count v l)%nat.
Proof. apply (count_app v [r]). Qed.
Lemma count_middle v l1 r l2 : count v (l1 ++ r :: l2) = (count v l1 + count v [r] + count v l2)%nat.
Proof. rewrite count_app, count_cons. lia. Qed.
Lemma count_one v r : count v [r] = if decide (in_range v r) then 1%nat else 0%nat.
Proof. unfold count. rewrite filter_cons. by case_decide. Qed.
Lemma count_empty v r : length r = 0 → count v [r] = 0%nat.
Proof. intros. rewrite count_one. rewrite decide_False; [done|]. unfold in_range, endz. lia. Qed.

Lemma in_ranges_count v l : in_ranges v l ↔ (0 < count v l)%nat.
Proof.
  induction l as [|r l IH]; [by rewrite in_ranges_nil; split; [|rewrite count_nil; lia]|].
  rewrite in_ranges_cons, count_cons, IH, count_one. case_decide; intuition lia.
Qed.

Lemma count_insert {A} (f : A → Range) v l i x y :
  l !! i = Some x →
  (count v (f <$> <[i:=y]> l) + count v [f x] = count v (f <$> l) + count v [f y])%nat.
Proof.
  intros Hi. rewrite insert_take_drop by by eapply lookup_lt_Some.
  rewrite <- (take_drop_middle l i x Hi) at 3.
  rewrite !fmap_app, !fmap_cons, !count_middle. lia.
Qed.
Lemma count_delete {A} (f : A → Range) v l i x :
  l !! i = Some x → (count v (f <$> delete i l) + count v [f x] = count v (f <$> l))%nat.
Proof.
  intros Hi. rewrite delete_take_drop. rewrite <- (take_drop_middle l i x Hi) at 3.
  rewrite !fmap_app, fmap_cons, count_middle, count_app. lia.
Qed.

(** Splitting a range in two. *)
Lemma count_split v a n m :
  0 ≤ n → 0 ≤ m →
  count v [mkRange a (n + m)] = (count v [mkRange a n] + count v [mkRange (a + n) m])%nat.
Proof.
  intros. rewrite !count_one. unfold in_range, endz. simpl. repeat case_decide; lia.
Qed.

(** ** Invariant *)

(** What a request may still deliver or take back. *)
Definition receiver_range (r : Receiver) : Range :=
  mkRange (rc_offset r) (match rc_phase r with Dropping => 0 | _ => rq_length r - actual_length r end).
Definition data_range (d : ReceivedData) : option Range :=
  match d with Data o l => Some (mkRange o (zlength l)) | _ => None end.

Definition phase_ranges (ph : FetchPhase) : list Range :=
  match ph with Storing o l | Marking o l => [mkRange o (zlength l)] | _ => [] end.

(** What is on its way: the rest of every request, the data received, and the
    data that the fetch task has taken but not marked as downloaded yet. *)
Definition in_flight (s : Sys) : list Range :=
  (receiver_range <$> receivers s) ++ omap data_range (file_data s) ++ phase_ranges (phase s).

Definition held (s : Sys) (v : Z) : nat := (count v (in_flight s) + member v (downloaded (status s)))%nat.

Definition params_ok (p : AudioFetchParams) : Prop :=
  0 ≤ minimum_download_size p ≤ 2 ^ 50 ∧ 0 ≤ minimum_throughput p ≤ 2 ^ 50 ∧
  duration_ok (maximum_assumed_ping_time p) ∧ secs (maximum_assumed_ping_time p) < 2 ^ 50.

Definition fetch_ok (size : Z) (r : Range) : Prop := 0 ≤ start r ≤ size ∧ 0 ≤ length r ≤ 2 ^ 62.
Definition command_ok (size : Z) (c : StreamLoaderCommand) : Prop :=
  match c with Fetch r => fetch_ok size r | Close => True end.

Definition receiver_ok (size : Z) (r : Receiver) : Prop :=
  0 ≤ rq_offset r ∧ rc_offset r = rq_offset r + actual_length r ∧ 0 ≤ actual_length r ≤ rq_length r ∧
  rq_offset r + rq_length r ≤ size.

(** [data] is what the file has at [offset]. *)
Definition is_slice (remote : list Z) (offset : Z) (data : list Z) : Prop :=
  0 ≤ offset ∧ offset + zlength data ≤ zlength remote ∧ data = read_at remote offset (zlength data).

Definition data_ok (remote : list Z) (d : ReceivedData) : Prop :=
  match d with
  | Data o l => is_slice remote o l
  | Throughput t => 0 ≤ t ≤ 2 ^ 60
  | ResponseTime d => duration_ok d
  end.

(** What the fetch task knows at each point. *)
Definition phase_ok (remote : list Z) (s : Sys) : Prop :=
  match phase s with
  | Sizing o n _ => fetch_ok (zlength remote) (mkRange o n)
  | Requesting o n _ => 0 ≤ o ∧ 0 ≤ n ∧ o + n ≤ zlength remote
  | Storing o d => is_slice remote o d
  | Marking o d => is_slice remote o d ∧
      ∀ v, o ≤ v < o + zlength d → file s !! Z.to_nat v = remote !! Z.to_nat v
  | Finishing => ∀ v, 0 ≤ v < zlength remote → v ∈ downloaded (status s)
  | FindMissing bytes => 0 ≤ bytes
  | ChooseRange missing bytes => wf missing ∧ (∀ v, v ∈ missing → 0 ≤ v < zlength remote) ∧ 0 ≤ bytes
  | _ => True
  end.

(** Where a seek leads. *)
Definition seek_target (remote : list Z) (pos : SeekFrom) (s : Sys) : Z :=
  match pos with
  | SeekStart p => p
  | SeekEnd p => zlength remote + p
  | SeekCurrent p => position (reader s) + p
  end.

(** What the reader knows at each point. *)
Definition reading_ok (remote : list Z) (s : Sys) : Prop :=
  match reading s with
  | ReadTell o data =>
      o = position (reader s) ∧ cursor (read_file (reader s)) = o + zlength data ∧
      data = read_at remote o (zlength data) ∧ 0 < zlength data ∧ o + zlength data ≤ zlength remote
  | ph => cursor (read_file (reader s)) = position (reader s) ∧
      match ph with
      | ReadAsk o n m => o = position (reader s) ∧ 0 < n ∧ o + n ≤ zlength remote ∧ 0 ≤ m ∧ o + m ≤ zlength remote
      | ReadWait o n => o = position (reader s) ∧ 0 < n ∧ o + n ≤ zlength remote
      | ReadCopy o k => o = position (reader s) ∧ 0 < k ∧ o + k ≤ zlength remote ∧
          ∀ v, o ≤ v < o + k → v ∈ downloaded (status s)
      | SeekLookup pos _ | SeekMode pos | SeekPause pos | SeekMove pos _ =>
          0 ≤ seek_target remote pos s ≤ zlength remote
      | SeekTell p _ => p = position (reader s)
      | _ => True
      end
  end.

Definition blocking_ok (size : Z) (ph : ControlPhase) : Prop :=
  match ph with
  | Free => True
  | SendFirst r1 r2 => fetch_ok size r1 ∧ fetch_ok size r2
  | SendRange r | WaitFirst r | WaitMore r => fetch_ok size r
  end.

Definition permits (l : list Receiver) : nat := Datatypes.length (filter (λ r, permit r = true) l).

Record inv (remote : list Z) (s : Sys) : Prop := mkInv {
  inv_size : file_size (shared s) = zlength remote ∧ zlength remote ≤ 2 ^ 50;
  inv_params : params_ok (params (fetch s)) ∧ read_ahead_bytes s ≤ 2 ^ 62;
  inv_wf : wf (requested (status s)) ∧ wf (downloaded (status s));
  inv_bounds : ∀ v, v ∈ requested (status s) → 0 ≤ v < zlength remote;
  inv_held : ∀ v, (held s v ≤ member v (requested (status s)))%nat;
  inv_all_held : running s = true → ∀ v, held s v = member v (requested (status s));
  inv_file : Datatypes.length (file s) = Datatypes.length remote ∧
    ∀ v, v ∈ downloaded (status s) → file s !! Z.to_nat v = remote !! Z.to_nat v;
  inv_data : Forall (data_ok remote) (file_data s);
  inv_receivers : Forall (receiver_ok (zlength remote)) (receivers s);
  inv_commands : Forall (command_ok (zlength remote)) (commands s);
  inv_permits : 0 ≤ download_slots (shared s) ∧
    download_slots (shared s) + Z.of_nat (permits (receivers s)) = 1;
  inv_position : 0 ≤ position (reader s) ≤ zlength remote ∧ 0 ≤ read_position (shared s) ≤ zlength remote;
  inv_phase : phase_ok remote s;
  inv_reading : reading_ok remote s;
  inv_blocking : blocking_ok (zlength remote) (blocking s);
  inv_throughput : 0 ≤ throughput (shared s) ≤ 2 ^ 60;
  inv_times : (Datatypes.length (network_response_times (fetch s)) ≤ 3)%nat ∧
    Forall (λ d, duration_ok d ∧ duration_le d (maximum_assumed_ping_time (params (fetch s))))
      (network_response_times (fetch s));
  inv_output : running s = true → is_Some (output (fetch s)) ∧ complete_tx (fetch s) = true ∧
    complete_rx s = true ∧ completed s = None;
  inv_completed : ∀ f, completed s = Some f → f = mkFile 0 ∧
    ∀ v, 0 ≤ v < zlength remote → v ∈ downloaded (status s);
}.

(** Rebuild the invariant, keeping the clauses about what did not change. *)
Ltac inv_keep Hs :=
  constructor;
  [try exact (inv_size _ _ Hs)|try exact (inv_params _ _ Hs)|try exact (inv_wf _ _ Hs)
  |try exact (inv_bounds _ _ Hs)|try exact (inv_held _ _ Hs)|try exact (inv_all_held _ _ Hs)
  |try exact (inv_file _ _ Hs)|try exact (inv_data _ _ Hs)|try exact (inv_receivers _ _ Hs)
  |try exact (inv_commands _ _ Hs)|try exact (inv_permits _ _ Hs)|try exact (inv_position _ _ Hs)
  |try exact (inv_phase _ _ Hs)|try exact (inv_reading _ _ Hs)|try exact (inv_blocking _ _ Hs)
  |try exact (inv_throughput _ _ Hs)|try exact (inv_times _ _ Hs)|try exact (inv_output _ _ Hs)
  |try exact (inv_completed _ _ Hs)].

Lemma member_1 v rs : v ∈ rs → member v rs = 1%nat.
Proof. intros. unfold member. by rewrite decide_True. Qed.
Lemma member_0 v rs : v ∉ rs → member v rs = 0%nat.
Proof. intros. unfold member. by rewrite decide_False. Qed.
Lemma member_pos v rs : (0 < member v rs)%nat → v ∈ rs.
Proof. unfold member. case_decide; [done|lia]. Qed.

Section inv.
Context (remote : list Z).
Implicit Types s : Sys.

Lemma downloaded_requested s v : inv remote s → v ∈ downloaded (status s) → v ∈ requested (status s).
Proof.
  intros Hs Hv. apply member_pos. pose proof (inv_held _ _ Hs v) as H. unfold held in H.
  rewrite (member_1 _ _ Hv) in H. lia.
Qed.

Lemma subtract_known_spec rs d :
  wf rs → wf (requested d) → wf (downloaded d) →
  ∃ rs', subtract_known rs d = Val rs' ∧ wf rs' ∧
    ∀ v, v ∈ rs' ↔ v ∈ rs ∧ (v ∉ downloaded d) ∧ (v ∉ requested d).
Proof.
  intros Hrs Hr Hd. unfold subtract_known, subtract_range_set.
  destruct (subtract_ranges_spec rs (ranges (downloaded d))) as (rs1 & -> & H1 & Hv1); [done|by apply wf_fits|].
  rewrite exec_bind_Val.
  destruct (subtract_ranges_spec rs1 (ranges (requested d))) as (rs2 & -> & H2 & Hv2); [done|by apply wf_fits|].
  exists rs2. split_and!; [done..|]. intros v. rewrite Hv2, Hv1. unfold elem_of, rangeset_elem_of. tauto.
Qed.

Lemma add_range_new r :
  range_fits r → ∃ rs, add_range new r = Val rs ∧ wf rs ∧ ∀ v, v ∈ rs ↔ v ∈ r.
Proof.
  intros Hr. destruct (add_range_spec new r) as (rs & E & H & Hv); [exact I|done|].
  exists rs. split_and!; [done..|]. intros v. rewrite Hv, elem_of_new. tauto.
Qed.

Lemma sum_lengths_spec lo l :
  -1 ≤ lo ≤ usize_max → separated lo l →
  ∃ n, sum_lengths l = Val n ∧ 0 ≤ n ≤ usize_max ∧ n ≤ usize_max - lo.
Proof.
  revert lo. induction l as [|r t IH]; intros lo Hlo; simpl.
  { exists 0. unfold usize_max, u64_max in *. split_and!; try done; lia. }
  intros (? & ? & Hend & Ht). destruct (IH (endz r)) as (n & -> & Hn & Hn'); [unfold endz in *; lia|done|].
  rewrite exec_bind_Val. rewrite uadd_Val by (unfold endz in *; lia).
  eexists. split; [done|]. unfold endz in *. lia.
Qed.

(** ** Requests *)

(** Requesting a range that nobody holds. *)
Definition spawn_request (rs : RangeSet) (range : Range) (s : Sys) : Sys :=
  (set_requested rs s) <| receivers ::= λ l, l ++ [receive_data (start range) (length range) false] |>.

Lemma inv_spawn rs range s :
  inv remote s → 0 ≤ start range → 0 ≤ length range → endz range ≤ zlength remote →
  (∀ v, in_range v range → v ∉ requested (status s)) →
  wf rs → (∀ v, v ∈ rs ↔ v ∈ requested (status s) ∨ v ∈ range) →
  inv remote (spawn_request rs range s).
Proof.
  intros Hs H0 Hl He Hdis Hwf Hrs.
  assert (∀ v, (held (spawn_request rs range s) v = held s v + count v [range])%nat) as Hheld.
  { intros v. unfold held, in_flight, spawn_request. simpl. rewrite fmap_app, !count_app. simpl.
    assert (receiver_range (receive_data (start range) (length range) false) = range) as ->.
    { unfold receiver_range. destruct range; simpl. f_equal. lia. }
    unfold status. simpl. lia. }
  assert (∀ v, (member v rs = member v (requested (status s)) + count v [range])%nat) as Hm.
  { intros v. rewrite count_one. unfold member. specialize (Hrs v). specialize (Hdis v).
    unfold elem_of, range_elem_of in *. repeat case_decide; try tauto; lia. }
  inv_keep Hs.
  - split; [done|apply (inv_wf _ _ Hs)].
  - intros v Hv. apply Hrs in Hv as [Hv|Hv]; [by apply (inv_bounds _ _ Hs)|].
    unfold elem_of, range_elem_of, in_range in Hv. lia.
  - intros v. rewrite Hheld. change (requested (status (spawn_request rs range s))) with rs. rewrite Hm.
    pose proof (inv_held _ _ Hs v). lia.
  - intros Hr v. rewrite Hheld. change (requested (status (spawn_request rs range s))) with rs. rewrite Hm.
    by rewrite (inv_all_held _ _ Hs Hr v).
  - apply Forall_app. split; [apply (inv_receivers _ _ Hs)|]. constructor; [|done].
    unfold receiver_ok, endz in *. simpl. lia.
  - pose proof (inv_permits _ _ Hs). unfold spawn_request, permits in *. simpl. rewrite filter_app, length_app.
    simpl. lia.
Qed.

Lemma set_phase_id s ph : phase s = ph → s <| phase := ph |> = s.
Proof. intros <-. by destruct s. Qed.

(** The task goes to another point with the same data in its hands. *)
Lemma inv_phase_change ph s :
  inv remote s → phase_ranges ph = phase_ranges (phase s) → phase_ok remote (s <| phase := ph |>) →
  inv remote (s <| phase := ph |>).
Proof.
  intros Hs Hr Hok.
  assert (∀ v, held (s <| phase := ph |>) v = held s v) as Hh by (intros v; unfold held, in_flight; simpl; by rewrite Hr).
  inv_keep Hs; [..|done].
  - intros v. rewrite Hh. apply (inv_held _ _ Hs).
  - intros Hrun v. rewrite Hh. by apply (inv_all_held _ _ Hs).
Qed.

Lemma inv_end_fetch s : inv remote s → inv remote (end_fetch s).
Proof.
  intros Hs. inv_keep Hs; try done.
  intros v. pose proof (inv_held _ _ Hs v) as Hb. unfold held, in_flight in *. simpl.
  rewrite app_nil_r, !count_app in *. unfold status in *. simpl. lia.
Qed.

(** What an operation of the task leaves behind: the invariant, at the point it
    was called from. *)
Definition safe (s : Sys) : Prop := inv remote s ∧ running s = true.
Definition post {A} (s0 s : Sys) (r : result A FetchError) : Prop := safe s ∧ phase s = phase s0.

(** What a step of the task leaves behind. *)
Definition stepped (s : Sys) (r : result (option FetchPhase) FetchError) : Prop :=
  match r with
  | Ok (Some ph) => inv remote (s <| phase := ph |>)
  | _ => inv remote (end_fetch s)
  end.

Section requests.
Context (request_stream : string → string → bool).

Lemma stream_from_cdn_ok url offset length :
  0 ≤ offset → 0 < length → offset + length ≤ usize_max →
  ∃ b, stream_from_cdn request_stream url offset length = Val b.
Proof.
  intros. unfold stream_from_cdn, range_header. rewrite uadd_Val by done. rewrite exec_bind_Val.
  rewrite usub_Val by lia. eauto.
Qed.

Lemma request_ranges_safe lo l s :
  safe s → -1 ≤ lo → separated lo l → (∀ v, in_ranges v l → v < zlength remote ∧ v ∉ requested (status s)) →
  wp (request_ranges request_stream l) (post s) s.
Proof.
  revert lo s. induction l as [|r l IH]; intros lo s Hs Hlo Hsep Hl; cbn [request_ranges].
  { by wp_steps. }
  destruct Hs as [Hs Hrun]. destruct Hsep as (Hst & Hlen & Hend & Hsep).
  assert (endz r ≤ zlength remote) as Hin.
  { destruct (Hl (endz r - 1)); [|lia]. left. unfold in_range, endz in *. lia. }
  wp_steps. destruct (stream_from_cdn_ok (cdn_url (shared s)) (start r) (length r)) as [ok E];
    [lia|done|exact Hend|]. eapply wp_lift; [exact E|]. cbn beta iota.
  destruct ok; [|by wp_steps]. wp_steps.
  destruct (add_range_spec (requested (status s)) r) as (rs & Ers & Hwf & Hrs);
    [apply (inv_wf _ _ Hs)|unfold range_fits; lia|].
  eapply wp_lift; [exact Ers|]. cbn beta iota. wp_steps.
  change (wp (request_ranges request_stream l) (post (spawn_request rs r s)) (spawn_request rs r s)).
  apply (IH (endz r)); [split; [|done]|unfold endz; lia|done|].
  - apply inv_spawn; try done; [lia|lia|]. intros v Hv. apply Hl. by left.
  - intros v Hv. destruct (Hl v) as [? Hnr]; [by right|]. split; [done|]. simpl. intros Hvr.
    apply Hrs in Hvr as [?|Hvr]; [done|]. apply (separated_lb _ _ _ Hsep) in Hv.
    unfold elem_of, range_elem_of, in_range in Hvr. lia.
Qed.

Lemma download_length_safe offset n ahead s :
  safe s → fetch_ok (zlength remote) (mkRange offset n) → phase_ranges (phase s) = [] →
  wp (length ← download_length offset n; mret (Some (Requesting offset length ahead))) stepped s.
Proof.
  intros [Hs Hrun] [Ho Hn] Hph. simpl in Ho, Hn. unfold download_length. wp_steps.
  destruct (inv_size _ _ Hs) as [Hsize Hmax].
  set (n1 := if decide (n < minimum_download_size _) then _ else n).
  assert (0 ≤ n1 ≤ 2 ^ 62) as Hn1.
  { destruct (inv_params _ _ Hs) as [(? & _) _]. unfold n1. case_decide; lia. }
  set (n2 := if is_download_streaming s then _ else _).
  assert (0 ≤ n2 ≤ 2 ^ 62) as Hn2.
  { pose proof (inv_throughput _ _ Hs). unfold n2. destruct (is_download_streaming s); lia. }
  eapply wp_lift; [apply uadd_Val; unfold usize_max, u64_max; lia|]. cbn beta iota. wp_steps.
  assert (∃ n3, (if decide (offset + n2 > file_size (shared s)) then usub (file_size (shared s)) offset else Val n2)
                = Val n3 ∧ 0 ≤ n3 ∧ offset + n3 ≤ zlength remote) as (n3 & E3 & Hn3 & Hle).
  { case_decide; [rewrite usub_Val by lia|]; eexists; (split; [done|]); lia. }
  eapply wp_lift; [exact E3|]. cbn beta iota. wp_steps. apply inv_phase_change; [done|by rewrite Hph|].
  unfold phase_ok. simpl. lia.
Qed.

Lemma download_range_safe offset n s :
  safe s → 0 ≤ offset → 0 ≤ n → offset + n ≤ zlength remote →
  wp (download_range request_stream offset n) (post s) s.
Proof.
  intros [Hs Hrun] Ho Hn Hle. unfold download_range. wp_steps. destruct (inv_size _ _ Hs) as [Hsize Hmax].
  destruct (add_range_new (mkRange offset n)) as (rs & Ers & Hwf & Hrs).
  { unfold range_fits, endz. simpl. unfold usize_max, u64_max. lia. }
  eapply wp_lift; [exact Ers|]. cbn beta iota. wp_steps.
  destruct (inv_wf _ _ Hs) as [Hwr Hwd].
  destruct (subtract_known_spec rs (status s)) as (rs' & Ers' & Hwf' & Hrs'); [done..|].
  eapply wp_lift; [exact Ers'|]. cbn beta iota.
  apply (request_ranges_safe (-1)); [done|lia|exact Hwf'|].
  intros v Hv. apply (Hrs' v) in Hv as (Hv & _ & ?). split; [|done].
  apply Hrs in Hv. unfold elem_of, range_elem_of, in_range, endz in Hv. simpl in Hv. lia.
Qed.

Lemma get_range_first rs :
  wf rs → is_empty rs = false →
  ∃ r, get_range rs 0 = Val r ∧ 0 < length r ∧ ∀ v, in_range v r → v ∈ rs.
Proof.
  unfold get_range, is_empty. destruct (ranges rs) as [|r l] eqn:E; [done|]. intros Hwf _.
  unfold wf in Hwf. rewrite E in Hwf. destruct Hwf as (_ & ? & _). exists r. split_and!; [done..|].
  intros v Hv. unfold elem_of, rangeset_elem_of. rewrite E. by left.
Qed.

(** The first range of a set of positions of the file can be fetched. *)
Lemma first_fetch_ok rs bytes :
  wf rs → is_empty rs = false → 0 ≤ bytes → zlength remote ≤ 2 ^ 50 → (∀ v, v ∈ rs → 0 ≤ v < zlength remote) →
  ∃ r, get_range rs 0 = Val r ∧ fetch_ok (zlength remote) (mkRange (start r) (Z.min (length r) bytes)).
Proof.
  intros Hwf He Hb Hmax Hin. destruct (get_range_first rs Hwf He) as (r & E & Hl & Hr). exists r. split; [done|].
  pose proof (Hin (start r)) as Hst. pose proof (Hin (endz r - 1)) as Hend.
  unfold fetch_ok, in_range, endz in *. simpl.
  assert (0 ≤ start r < zlength remote) by (apply Hst, Hr; lia).
  assert (0 ≤ start r + length r - 1 < zlength remote) by (apply Hend, Hr; lia). lia.
Qed.

Lemma find_missing_safe bytes s :
  safe s → phase s = FindMissing bytes →
  wp (missing_data ← find_missing; mret (Some (ChooseRange missing_data bytes))) stepped s.
Proof.
  intros [Hs Hrun] Hph. unfold find_missing. wp_steps.
  destruct (inv_size _ _ Hs) as [Hsize Hmax]. destruct (inv_wf _ _ Hs) as [Hwr Hwd].
  destruct (add_range_new (mkRange 0 (file_size (shared s)))) as (rs & Ers & Hwf & Hrs).
  { unfold range_fits, endz. simpl. unfold usize_max, u64_max. lia. }
  eapply wp_lift; [exact Ers|]. cbn beta iota. wp_steps.
  destruct (subtract_known_spec rs (status s)) as (missing & Em & Hwm & Hm); [done..|].
  eapply wp_lift; [exact Em|]. cbn beta iota. wp_steps.
  apply inv_phase_change; [done|by rewrite Hph|]. pose proof (inv_phase _ _ Hs) as Hok. unfold phase_ok in *.
  rewrite Hph in Hok. simpl. split_and!; [done| |done]. intros v Hv. apply Hm in Hv as [Hv _]. apply Hrs in Hv.
  unfold elem_of, range_elem_of, in_range, endz in Hv. simpl in Hv. lia.
Qed.

Lemma pre_fetch_more_safe missing bytes s :
  safe s → phase s = ChooseRange missing bytes →
  wp (r ← pre_fetch_more_data missing bytes;
      mret (Some (match r with Some (offset, length) => Sizing offset length true | None => Selecting end)))
    stepped s.
Proof.
  intros [Hs Hrun] Hph. unfold pre_fetch_more_data. wp_steps.
  destruct (inv_size _ _ Hs) as [Hsize Hmax]. destruct (inv_position _ _ Hs) as (_ & Hrp).
  pose proof (inv_phase _ _ Hs) as Hok. unfold phase_ok in Hok. rewrite Hph in Hok. destruct Hok as (Hwm & Hm & Hb).
  eapply wp_lift; [apply usub_Val; lia|]. cbn beta iota. wp_steps.
  destruct (add_range_new (mkRange (read_position (shared s)) (file_size (shared s) - read_position (shared s))))
    as (tl & Etl & Hwtl & Htl).
  { unfold range_fits, endz. simpl. unfold usize_max, u64_max. lia. }
  eapply wp_lift; [exact Etl|]. cbn beta iota. wp_steps.
  destruct (intersection_loop_spec (-1) (-1) (ranges tl) (ranges missing) new) as (i & Ei & Hwi & Hi);
    [lia|lia|done|done|exact I|].
  eapply wp_lift; [exact Ei|]. cbn beta iota.
  assert (∀ v, v ∈ i → 0 ≤ v < zlength remote) as Hin.
  { intros v Hv. apply Hi in Hv as [[]%elem_of_new|[_ Hv]]. by apply Hm. }
  destruct (is_empty i) eqn:He; cbn [negb].
  - destruct (is_empty missing) eqn:He'; cbn [negb].
    + wp_steps. apply inv_phase_change; [done|by rewrite Hph|done].
    + destruct (first_fetch_ok missing bytes) as (r & E & Hr); [done..|]. wp_steps.
      eapply wp_lift; [exact E|]. cbn beta iota. wp_steps. apply inv_phase_change; [done|by rewrite Hph|done].
  - destruct (first_fetch_ok i bytes) as (r & E & Hr); [done..|]. wp_steps.
    eapply wp_lift; [exact E|]. cbn beta iota. wp_steps. apply inv_phase_change; [done|by rewrite Hph|done].
Qed.

Lemma pending_bytes_safe s :
  safe s → phase_ranges (phase s) = [] → wp (ph ← pending_bytes; mret (Some ph)) stepped s.
Proof.
  intros [Hs Hrun] Hph. unfold pending_bytes. wp_steps. destruct (inv_wf _ _ Hs) as [Hwr Hwd].
  destruct (subtract_ranges_spec (requested (status s)) (ranges (downloaded (status s)))) as (p & Ep & Hwp & _);
    [done|by apply wf_fits|].
  eapply wp_lift; [exact Ep|]. cbn beta iota. wp_steps.
  destruct (sum_lengths_spec (-1) (ranges p)) as (n & En & Hn & _); [unfold usize_max, u64_max; lia|done|].
  eapply wp_lift; [exact En|]. cbn beta iota.
  case_decide; wp_steps; (apply inv_phase_change; [done|by rewrite Hph|simpl]); [|done]. unfold phase_ok. simpl. lia.
Qed.
End requests.

(** ** Received data *)

(** Taking a message off the channel: its data goes to the fetch task. *)
Definition taken (d : ReceivedData) : FetchPhase :=
  match d with Data o l => Storing o l | _ => CheckMode end.

Lemma inv_pop s d l :
  inv remote s → phase s = Selecting → file_data s = d :: l →
  inv remote (s <| file_data := l |> <| phase := taken d |>).
Proof.
  intros Hs Hph Hd.
  assert (∀ v, held (s <| file_data := l |> <| phase := taken d |>) v = held s v) as Hh.
  { intros v. unfold held, in_flight. rewrite Hd, Hph. simpl. rewrite app_nil_r, !count_app.
    unfold status. simpl. destruct d as [| |o data]; cbn [taken phase_ranges data_range];
      rewrite ?count_nil; change (list_omap ReceivedData Range data_range l) with (omap data_range l); [lia..|].
    rewrite (count_cons v (mkRange o _) (omap _ _)). lia. }
  pose proof (inv_data _ _ Hs) as HD. rewrite Hd in HD. apply Forall_cons in HD as [Hok HD].
  inv_keep Hs.
  - intros v. rewrite Hh. apply (inv_held _ _ Hs).
  - intros Hr v. rewrite Hh. by apply (inv_all_held _ _ Hs).
  - done.
  - by destruct d.
Qed.

Lemma handle_throughput_safe t s :
  safe s → 0 ≤ t ≤ 2 ^ 60 → wp (handle_throughput t) (post s) s.
Proof.
  intros [Hs Hrun] Ht. unfold handle_throughput. wp_steps.
  set (t1 := if decide (t < _) then _ else t).
  assert (0 ≤ t1 ≤ 2 ^ 60) as Ht1.
  { destruct (inv_params _ _ Hs) as [(_ & ? & _) _]. unfold t1. case_decide; lia. }
  pose proof (inv_throughput _ _ Hs) as Hthr.
  assert (∃ a, (if decide (0 < throughput (shared s)) then sum ← uadd usize_max (throughput (shared s)) t1; Val (sum / 2)
                else Val t1) = Val a ∧ 0 ≤ a ≤ 2 ^ 60) as (a & Ea & Ha).
  { case_decide; [|by eauto]. rewrite uadd_Val by (unfold usize_max, u64_max; lia).
    eexists. split; [done|]. split; [apply Z.div_pos; lia|]. apply Z.div_le_upper_bound; lia. }
  eapply wp_lift; [exact Ea|]. cbn beta iota. wp_steps. split; [|done]. split; [|done]. by inv_keep Hs.
Qed.

Lemma prune_times_spec l : (Datatypes.length (prune_times l) ≤ 2)%nat ∧ ∀ x, x ∈ prune_times l → x ∈ l.
Proof.
  induction l as [|a [|b [|c l]] IH]; simpl; try (split; [lia|done]).
  destruct IH as [H1 H2]. split; [exact H1|]. intros x Hx. right. by apply H2.
Qed.

Lemma median_time_spec l mx :
  (1 ≤ Datatypes.length l ≤ 3)%nat → duration_ok mx → secs mx < 2 ^ 50 →
  Forall (λ d, duration_ok d ∧ duration_le d mx) l →
  ∃ d, median_time l = Val d ∧ duration_ok d ∧ duration_le d mx.
Proof.
  intros Hlen Hmx Hs Hl. destruct l as [|a [|b [|c [|? ?]]]]; simpl in Hlen; try lia.
  - apply Forall_cons in Hl as [[??] _]. by exists a.
  - apply Forall_cons in Hl as [[Ha Ha'] [[Hb Hb'] _]%Forall_cons]. unfold median_time.
    assert (secs a < 2 ^ 50) by (unfold duration_le in Ha'; lia).
    assert (secs b < 2 ^ 50) by (unfold duration_le in Hb'; lia).
    destruct (duration_add_spec a b) as (d & -> & Hd & Hdn); [done..|unfold u64_max; lia|].
    rewrite exec_bind_Val. destruct (duration_half_spec d Hd) as [Hh Hhn]. eexists. split; [done|].
    split; [done|]. apply duration_le_nanos in Ha', Hb'; [|done..]. apply duration_le_nanos; [done..|].
    rewrite Hhn, Hdn. apply Z.div_le_upper_bound; lia.
  - unfold median_time. destruct (merge_sort duration_le [a; b; c] !! 1%nat) as [t|] eqn:E.
    + apply list_elem_of_lookup_2 in E. rewrite (merge_sort_Permutation duration_le [a; b; c]) in E.
      rewrite Forall_forall in Hl. destruct (Hl t E). by exists t.
    + apply lookup_ge_None in E. rewrite (Permutation_length (merge_sort_Permutation _ _)) in E. simpl in E. lia.
Qed.

Lemma handle_response_time_safe d s :
  safe s → duration_ok d → wp (handle_response_time d) (post s) s.
Proof.
  intros [Hs Hrun] Hd. unfold handle_response_time. wp_steps.
  destruct (inv_params _ _ Hs) as [Hpar _]. destruct Hpar as (_ & _ & Hmx & Hmxs).
  set (d1 := if decide (duration_le d _) then d else _).
  assert (duration_ok d1 ∧ duration_le d1 (maximum_assumed_ping_time (params (fetch s)))) as Hd1.
  { unfold d1. case_decide; [done|]. split; [done|]. unfold duration_le. lia. }
  destruct (inv_times _ _ Hs) as [_ Hts]. set (l := network_response_times (fetch s)) in *.
  destruct (prune_times_spec l) as [Hlen Hsub].
  assert (Forall (λ d, duration_ok d ∧ duration_le d (maximum_assumed_ping_time (params (fetch s))))
            (prune_times l ++ [d1])) as Hall.
  { apply Forall_app. split; [|by constructor]. apply Forall_forall. intros x Hx.
    rewrite Forall_forall in Hts. apply Hts. by apply Hsub. }
  destruct (median_time_spec (prune_times l ++ [d1]) (maximum_assumed_ping_time (params (fetch s))))
    as (m & Em & Hm & Hmle); [rewrite length_app; simpl; lia|done..|].
  eapply wp_lift; [exact Em|]. cbn beta iota. wp_steps. split; [|done]. split; [|done]. inv_keep Hs.
  split; [|exact Hall]. change (Datatypes.length (prune_times l ++ [d1]) ≤ 3)%nat.
  rewrite length_app. simpl. lia.
Qed.

Lemma length_write_at c o d :
  (Z.to_nat o + Datatypes.length d ≤ Datatypes.length c)%nat → Datatypes.length (write_at c o d) = Datatypes.length c.
Proof.
  intros. unfold write_at. rewrite !length_app, length_take, length_drop, length_app, length_replicate. lia.
Qed.

Lemma write_at_lookup c o d i :
  (Z.to_nat o + Datatypes.length d ≤ Datatypes.length c)%nat →
  write_at c o d !! i =
    if decide (Z.to_nat o ≤ i < Z.to_nat o + Datatypes.length d)%nat then d !! (i - Z.to_nat o)%nat else c !! i.
Proof.
  intros Hle. unfold write_at.
  replace (Z.to_nat o - Datatypes.length c)%nat with 0%nat by lia. simpl. rewrite app_nil_r.
  assert (Datatypes.length (take (Z.to_nat o) c) = Z.to_nat o) as Ht by (rewrite length_take; lia).
  case_decide as Hd.
  - rewrite lookup_app_r by lia. rewrite Ht. apply lookup_app_l. lia.
  - destruct (decide (i < Z.to_nat o)%nat).
    + rewrite lookup_app_l by lia. by rewrite lookup_take_lt.
    + rewrite lookup_app_r by lia. rewrite lookup_app_r by lia. rewrite lookup_drop. f_equal. lia.
Qed.

Lemma is_slice_lookup o d i :
  is_slice remote o d → (i < Datatypes.length d)%nat → d !! i = remote !! (Z.to_nat o + i)%nat.
Proof.
  intros (H0 & Hle & Hd) Hi. rewrite Hd at 1. unfold read_at. rewrite Nat2Z.id.
  rewrite lookup_take_lt by done. by rewrite lookup_drop.
Qed.

(** Writing a prefix of a slice that the task holds. *)
Lemma inv_write_data o d d' s :
  safe s → phase s = Storing o d → d' `prefix_of` d →
  safe (write_data o d' s) ∧
  ∀ v, o ≤ v < o + zlength d' → file (write_data o d' s) !! Z.to_nat v = remote !! Z.to_nat v.
Proof.
  intros [Hs Hrun] Hph [d'' ->]. pose proof (inv_phase _ _ Hs) as Hsl. unfold phase_ok in Hsl. rewrite Hph in Hsl.
  destruct (Hsl) as (H0 & Hle & _). destruct (inv_file _ _ Hs) as [Hlen Hcont]. rewrite length_app in Hle.
  assert (∀ v, 0 ≤ v → file (write_data o d' s) !! Z.to_nat v =
    if decide (o ≤ v < o + zlength d') then remote !! Z.to_nat v else file s !! Z.to_nat v) as Hlook.
  { intros v Hv. cbn. rewrite write_at_lookup by lia. do 2 case_decide; try lia; [|done].
    assert (d' !! (Z.to_nat v - Z.to_nat o)%nat = (d' ++ d'') !! (Z.to_nat v - Z.to_nat o)%nat) as ->.
    { rewrite lookup_app_l by lia. done. }
    rewrite (is_slice_lookup o) by (done || (rewrite length_app; lia)). f_equal. lia. }
  split; [split; [|done]|].
  - inv_keep Hs.
    + split; [cbn; rewrite length_write_at by lia; done|]. intros v Hv.
      assert (0 ≤ v). { eapply (inv_bounds _ _ Hs), downloaded_requested; [done|exact Hv]. }
      rewrite Hlook by done. case_decide; [done|]. by apply Hcont.
    + unfold phase_ok. simpl. by rewrite Hph.
    + intros _. destruct (inv_output _ _ Hs Hrun) as (_ & ? & ? & ?). by split_and!.
  - intros v Hv. rewrite Hlook by lia. by rewrite decide_True.
Qed.

Lemma store_data_safe io o d s :
  safe s → phase s = Storing o d →
  wp (_ ← store_data io o d; mret (Some (Marking o d))) stepped s.
Proof.
  intros Hsafe Hph. destruct (Hsafe) as [Hs Hrun]. unfold store_data. wp_steps.
  destruct (inv_output _ _ Hs Hrun) as ([f ->] & _). destruct io as [|n]; wp_steps.
  - destruct (inv_write_data o d d s Hsafe Hph) as [[Hs' _] Hw]; [done|].
    apply inv_phase_change; [done|by simpl; rewrite Hph|]. split; [|done].
    pose proof (inv_phase _ _ Hs) as Hsl. unfold phase_ok in Hsl. by rewrite Hph in Hsl.
  - apply inv_end_fetch. apply (inv_write_data o d (take n d) s Hsafe Hph). by exists (drop n d); rewrite take_drop.
Qed.

(** Marking the slice that the task holds. *)
Lemma inv_marked ph rs o d s :
  inv remote s → phase s = Marking o d → wf rs →
  (∀ v, v ∈ rs ↔ v ∈ downloaded (status s) ∨ v ∈ mkRange o (zlength d)) → phase_ranges ph = [] →
  phase_ok remote (set_downloaded rs s <| phase := ph |>) →
  inv remote (set_downloaded rs s <| phase := ph |>).
Proof.
  intros Hs Hph Hwf Hrs Hnil Hok. pose proof (inv_phase _ _ Hs) as Hsl. unfold phase_ok in Hsl. rewrite Hph in Hsl.
  destruct Hsl as [(H0 & Hle & _) Hw].
  assert (∀ v, held (set_downloaded rs s <| phase := ph |>) v = held s v) as Hh.
  { intros v. pose proof (inv_held _ _ Hs v) as Hb. unfold held, in_flight in *. rewrite Hph in *.
    change (downloaded (status (set_downloaded rs s <| phase := ph |>))) with rs.
    simpl in Hb |- *. rewrite Hnil, app_nil_r. rewrite !count_app in *. rewrite count_one in *.
    specialize (Hrs v). unfold member in *.
    unfold elem_of at 3 in Hrs. unfold range_elem_of in Hrs. repeat case_decide; try tauto; lia. }
  inv_keep Hs.
  - split; [apply (inv_wf _ _ Hs)|done].
  - intros v. rewrite Hh. apply (inv_held _ _ Hs).
  - intros Hr v. rewrite Hh. by apply (inv_all_held _ _ Hs).
  - destruct (inv_file _ _ Hs) as [Hlen Hcont]. split; [done|]. intros v [Hv|Hv]%Hrs; [by apply Hcont|].
    apply Hw. unfold elem_of, range_elem_of, in_range, endz in Hv. simpl in Hv. lia.
  - done.
  - pose proof (inv_reading _ _ Hs) as Hre. unfold reading_ok in *. simpl. destruct (reading s); try exact Hre.
    destruct Hre as (? & ? & ? & ? & Hin). split_and!; [done..|]. intros v Hv. apply Hrs. left. by apply Hin.
  - intros f Hf. destruct (inv_completed _ _ Hs f Hf) as [? Hall]. split; [done|].
    intros v Hv. apply Hrs. left. by apply Hall.
Qed.

Lemma mark_downloaded_safe o d s :
  safe s → phase s = Marking o d →
  wp (full ← mark_downloaded o d; mret (Some (if full : bool then Finishing else CheckMode))) stepped s.
Proof.
  intros [Hs Hrun] Hph. unfold mark_downloaded. wp_steps. destruct (inv_size _ _ Hs) as [Hsize Hmax].
  pose proof (inv_phase _ _ Hs) as Hsl. unfold phase_ok in Hsl. rewrite Hph in Hsl. destruct Hsl as [(H0 & Hle & _) Hw].
  destruct (add_range_spec (downloaded (status s)) (mkRange o (zlength d))) as (rs & Ers & Hwf & Hrs).
  { apply (inv_wf _ _ Hs). } { unfold range_fits, endz, usize_max, u64_max. simpl. lia. }
  eapply wp_lift; [exact Ers|]. cbn beta iota. wp_steps.
  destruct (contained_length_loop_spec (-1) (ranges rs) 0 Hwf) as (n & En & _ & Hin & _).
  eapply wp_lift; [exact En|]. cbn beta iota. wp_steps.
  case_bool_decide as Hfull; (apply (inv_marked _ rs o d s); [done..|]); [|done].
  intros v Hv. apply (Hin v). lia.
Qed.

Lemma finish_safe io s :
  safe s → phase s = Finishing → wp (_ ← finish io; mret None) stepped s.
Proof.
  intros [Hs Hrun] Hph. pose proof (inv_phase _ _ Hs) as Hall. unfold phase_ok in Hall. rewrite Hph in Hall.
  pose proof (inv_end_fetch _ Hs) as He. destruct (inv_output _ _ Hs Hrun) as ([f Hf] & Htx & Hrx & _).
  unfold finish. wp_steps. rewrite Hf. destruct io; [|wp_steps; by inv_keep He].
  rewrite Htx, Hrx. wp_steps. inv_keep He; [done|]. by intros f' [= <-].
Qed.

Section loop.
Context (request_stream : string → string → bool).

Lemma fetch_phase_safe io s : safe s → wp (fetch_phase request_stream io (phase s)) stepped s.
Proof.
  intros Hsafe. destruct (Hsafe) as [Hs Hrun]. pose proof (inv_phase _ _ Hs) as Hok. unfold phase_ok in Hok.
  destruct (phase s) eqn:Hph; cbn [fetch_phase].
  - wp_steps. apply inv_phase_change; [done|by rewrite Hph|done].
  - by apply download_length_safe; [|destruct Hok|rewrite Hph].
  - apply wp_bind. destruct Hok as (? & ? & ?). eapply wp_mono; [by apply download_range_safe|].
    intros s1 [[]|e] [[Hs1 Hrun1] Hph1]; [|by apply inv_end_fetch]. wp_steps.
    apply inv_phase_change; [done|rewrite Hph1, Hph; by destruct ahead|by destruct ahead].
  - by apply store_data_safe.
  - by apply mark_downloaded_safe.
  - by apply finish_safe.
  - wp_steps. apply inv_phase_change; [done|rewrite Hph|]; by destruct (is_download_streaming s).
  - wp_steps. apply inv_phase_change; [done|rewrite Hph|]; by destruct (has_download_slots_available s).
  - apply pending_bytes_safe; [done|by rewrite Hph].
  - by apply find_missing_safe.
  - by apply pre_fetch_more_safe.
Qed.

Lemma fetch_step_safe io s : safe s → ∃ s', fetch_step request_stream io s = Val s' ∧ inv remote s'.
Proof.
  intros Hsafe. pose proof (fetch_phase_safe io s Hsafe) as Hwp. unfold fetch_step, wp in *.
  destruct (fetch_phase _ _ _ _) as [[s' [[ph|]|e]]|]; [eauto..|done].
Qed.
End loop.

Lemma take_data_safe s : safe s → ∃ s', take_data s = Val s' ∧ inv remote s'.
Proof.
  intros [Hs Hrun]. unfold take_data. destruct (phase s) eqn:Hph; try by exists s.
  destruct (file_data s) as [|d l] eqn:Hd; [by exists s|].
  pose proof (inv_pop s d l Hs Hph Hd) as Hpop.
  pose proof (inv_data _ _ Hs) as HD. rewrite Hd in HD. apply Forall_cons in HD as [Hok _].
  assert (wp (handle_file_data d) (λ s' r, match r with Ok ph => inv remote (s' <| phase := ph |>)
                                           | Err _ => inv remote (end_fetch s') end) (s <| file_data := l |>)) as Hwp.
  { destruct d as [t|t|o data]; simpl in Hok; cbn [handle_file_data].
    3:{ by wp_steps. }
    all: assert (safe (s <| file_data := l |>)) as Hsafe by
      (split; [|done]; rewrite <- (set_phase_id (s <| file_data := l |>) Selecting) by done;
       by apply (inv_phase_change Selecting) in Hpop).
    all: apply wp_bind; eapply wp_mono; [by first [apply handle_throughput_safe|apply handle_response_time_safe]|].
    all: intros s1 [[]|e] [[Hs1 _] Hph1]; [wp_steps; apply inv_phase_change; [done|by rewrite Hph1; simpl; rewrite Hph|done]|].
    all: by apply inv_end_fetch. }
  unfold wp in Hwp. destruct (handle_file_data d _) as [[s' [ph|e]]|]; [eauto..|done].
Qed.

Lemma take_command_safe s : safe s → ∃ s', take_command s = Val s' ∧ inv remote s'.
Proof.
  intros [Hs Hrun]. unfold take_command. destruct (phase s) eqn:Hph; try by exists s.
  destruct (commands s) as [|c l] eqn:Hc; [by exists s|].
  pose proof (inv_commands _ _ Hs) as HC. rewrite Hc in HC. apply Forall_cons in HC as [Hok HC].
  eexists. split; [done|]. assert (inv remote (s <| commands := l |>)) as Hs' by by inv_keep Hs.
  destruct c as [r|]; cbn [handle_stream_loader_command]; [|by apply inv_end_fetch]. apply inv_phase_change; [done|by simpl; rewrite Hph|by destruct r].
Qed.

Lemma hang_up_inv s : inv remote s → inv remote (hang_up s).
Proof.
  intros Hs. unfold hang_up. destruct (phase s); try done. destruct (commands s); [|done]. by apply inv_end_fetch.
Qed.
End inv.
