(* ===== verification/AudioFetchProps.v ===== *)
(** * The streaming audio file: what the reader gets

    The remaining steps of the streamed file (requests in progress, the
    reader, the controller) preserve the invariant.  From it follow, for every
    interleaving, that nothing panics, that reads return the bytes of the
    file, that no byte is asked for twice, and that the file handed over for
    caching is complete. *)

From S2P Require Import Prelude StdTypes Digits Text RangeSet StateMonad AudioFetch AudioFetchInv.

Local Open Scope Z_scope.

Section receivers.
Context (remote : list Z).
Implicit Types s : Sys.

Lemma permits_middle l1 r l2 :
  permits (l1 ++ r :: l2) = (permits l1 + (if permit r then 1 else 0) + permits l2)%nat.
Proof.
  unfold permits. rewrite filter_app, length_app, filter_cons. destruct (permit r); case_decide; simpl; lia || done.
Qed.
Lemma permits_insert l i r r' :
  l !! i = Some r → permit r = true → permit r' = true → permits (<[i:=r']> l) = permits l.
Proof.
  intros Hi Hp Hp'. rewrite insert_take_drop by by eapply lookup_lt_Some.
  rewrite <- (take_drop_middle l i r Hi) at 3. by rewrite !permits_middle, Hp, Hp'.
Qed.
Lemma permits_delete l i r :
  l !! i = Some r → permit r = true → permits l = S (permits (delete i l)).
Proof.
  intros Hi Hp. rewrite delete_take_drop. rewrite <- (take_drop_middle l i r Hi) at 1.
  rewrite permits_middle, Hp. unfold permits. rewrite filter_app, length_app. lia.
Qed.

(** ** Messages from a receiver *)

Lemma count_send s d v :
  count v (in_flight (s <| file_data ::= λ l, l ++ [d] |>)) = (count v (in_flight s) + count v (omap data_range [d]))%nat.
Proof. unfold in_flight. simpl. rewrite omap_app, !count_app. simpl. lia. Qed.

Lemma inv_send_meta d s :
  inv remote s → data_range d = None → data_ok remote d → inv remote (s <| file_data ::= λ l, l ++ [d] |>).
Proof.
  intros Hs Hd Hok.
  assert (∀ v, held (s <| file_data ::= λ l, l ++ [d] |>) v = held s v) as Hh.
  { intros v. unfold held. rewrite count_send. simpl. by rewrite Hd, Nat.add_0_r. }
  inv_keep Hs.
  - intros v. rewrite Hh. apply (inv_held _ _ Hs).
  - intros Hr v. rewrite Hh. by apply (inv_all_held _ _ Hs).
  - apply Forall_app. split; [apply (inv_data _ _ Hs)|by constructor].
Qed.

Lemma receiver_at_ok i r s : inv remote s → receivers s !! i = Some r → receiver_ok (zlength remote) r.
Proof. intros Hs Hi. pose proof (inv_receivers _ _ Hs) as HR. rewrite Forall_lookup in HR. exact (HR _ _ Hi). Qed.

(** The receiver at another point, or with other measuring flags. *)
Definition same_request (r r' : Receiver) : Prop :=
  rq_offset r' = rq_offset r ∧ rq_length r' = rq_length r ∧ rc_offset r' = rc_offset r ∧
  actual_length r' = actual_length r ∧ permit r' = permit r ∧ receiver_range r' = receiver_range r.

Lemma inv_set_receiver i r r' s :
  inv remote s → receivers s !! i = Some r → permit r = true → same_request r r' →
  inv remote (s <| receivers ::= <[i := r']> |>).
Proof.
  intros Hs Hi Hp (E1 & E2 & E3 & E4 & E5 & E6).
  assert (∀ v, held (s <| receivers ::= <[i := r']> |>) v = held s v) as Hh.
  { intros v. unfold held, in_flight. simpl. rewrite !count_app.
    pose proof (count_insert receiver_range v _ _ _ r' Hi) as Hc. rewrite E6 in Hc. unfold status. simpl. lia. }
  inv_keep Hs.
  - intros v. rewrite Hh. apply (inv_held _ _ Hs).
  - intros Hr v. rewrite Hh. by apply (inv_all_held _ _ Hs).
  - apply Forall_insert; [apply (inv_receivers _ _ Hs)|]. pose proof (receiver_at_ok _ _ _ Hs Hi).
    unfold receiver_ok in *. by rewrite E1, E2, E3, E4.
  - pose proof (inv_permits _ _ Hs). simpl. by rewrite (permits_insert _ _ r) by congruence.
Qed.

(** A receiver hands over the next part of its range. *)
Definition advanced (i : nat) (r : Receiver) (o : Z) (data : list Z) s : Sys :=
  s <| file_data ::= λ l, l ++ [Data o data] |> <| receivers ::= <[i := r]> |>.

Lemma inv_advanced i r r' data s :
  inv remote s → receivers s !! i = Some r → permit r = true → permit r' = true →
  rc_phase r = Collecting → rc_phase r' = Streaming →
  is_slice remote (rc_offset r) data → zlength data ≤ rq_length r - actual_length r →
  rq_offset r' = rq_offset r → rq_length r' = rq_length r →
  actual_length r' = actual_length r + zlength data → rc_offset r' = rc_offset r + zlength data →
  inv remote (advanced i r' (rc_offset r) data s).
Proof.
  intros Hs Hi Hp Hp' Hph Hph' Hsl Hk Hqo Hql Hal Hrc.
  assert (∀ v, held (advanced i r' (rc_offset r) data s) v = held s v) as Hh.
  { intros v. unfold held, in_flight, advanced. simpl. rewrite omap_app, !count_app. simpl.
    pose proof (count_insert receiver_range v _ _ _ r' Hi) as Hc.
    assert (count v [receiver_range r] = (count v [mkRange (rc_offset r) (zlength data)] + count v [receiver_range r'])%nat).
    { unfold receiver_range. rewrite Hph, Hph', Hrc, Hql, Hal. rewrite <- count_split by lia. do 3 f_equal. lia. }
    unfold status. simpl. lia. }
  inv_keep Hs.
  - intros v. rewrite Hh. apply (inv_held _ _ Hs).
  - intros Hr v. rewrite Hh. by apply (inv_all_held _ _ Hs).
  - apply Forall_app. split; [apply (inv_data _ _ Hs)|by constructor].
  - apply Forall_insert; [apply (inv_receivers _ _ Hs)|].
    pose proof (receiver_at_ok _ _ _ Hs Hi).
    unfold receiver_ok in *. rewrite Hqo, Hql, Hal, Hrc. lia.
  - pose proof (inv_permits _ _ Hs). simpl. by rewrite (permits_insert _ _ r).
Qed.

(** A receiver that ends takes the rest of its range back. *)
Definition given_back (i : nat) (r : Receiver) (rs : RangeSet) s : Sys :=
  set_requested rs s <| receivers ::= <[i := r]> |>.

Lemma set_requested_id s : set_requested (requested (status s)) s = s.
Proof. by destruct s as [[? ? ? [] ? ? ? ? ?] ? ? ? ? ? ? ? ? ? ? ? ?]. Qed.

Lemma inv_given_back i r r' rs s :
  inv remote s → receivers s !! i = Some r → permit r = true → permit r' = true → rc_phase r' = Dropping →
  receiver_ok (zlength remote) r' → wf rs →
  (∀ v, v ∈ rs ↔ v ∈ requested (status s) ∧ ¬ in_range v (receiver_range r)) →
  inv remote (given_back i r' rs s).
Proof.
  intros Hs Hi Hp Hp' Hph Hok Hwf Hrs.
  assert (∀ v, (held (given_back i r' rs s) v + count v [receiver_range r] = held s v)%nat) as Hh.
  { intros v. unfold held, in_flight. simpl. rewrite !count_app.
    pose proof (count_insert receiver_range v _ _ _ r' Hi) as Hc.
    rewrite (count_empty v (receiver_range r')) in Hc by (unfold receiver_range; by rewrite Hph).
    unfold status. simpl in *. lia. }
  assert (∀ v, (held s v ≤ member v (requested (status s)))%nat →
    (member v rs + count v [receiver_range r] = member v (requested (status s)))%nat) as Hm.
  { intros v Hle. specialize (Hh v). rewrite count_one in *. specialize (Hrs v). unfold member in *.
    repeat case_decide; try tauto; lia. }
  inv_keep Hs.
  - split; [done|apply (inv_wf _ _ Hs)].
  - intros v Hv. apply Hrs in Hv as [Hv _]. by apply (inv_bounds _ _ Hs).
  - intros v. change (requested (status (given_back i r' rs s))) with rs.
    pose proof (inv_held _ _ Hs v) as Hb. pose proof (Hm v Hb). specialize (Hh v). lia.
  - intros Hr v. change (requested (status (given_back i r' rs s))) with rs.
    pose proof (inv_held _ _ Hs v) as Hb. pose proof (Hm v Hb). specialize (Hh v).
    pose proof (inv_all_held _ _ Hs Hr v). lia.
  - by apply Forall_insert; [apply (inv_receivers _ _ Hs)|].
  - pose proof (inv_permits _ _ Hs). simpl. by rewrite (permits_insert _ _ r).
Qed.

(** The end of a receiver: nothing is left of its range, or, when the fetch task
    is gone, the rest is just given up. *)
Lemma inv_dropped i r s :
  inv remote s → receivers s !! i = Some r → permit r = true → running s = false ∨ rc_phase r = Dropping →
  inv remote (release_permit (s <| receivers ::= delete i |>)).
Proof.
  intros Hs Hi Hp Hor.
  assert (∀ v, (held (release_permit (s <| receivers ::= delete i |>)) v + count v [receiver_range r] = held s v)%nat) as Hh.
  { intros v. unfold held, in_flight. simpl. rewrite !count_app.
    pose proof (count_delete receiver_range v _ _ _ Hi). unfold status. simpl. lia. }
  inv_keep Hs.
  - intros v. specialize (Hh v). pose proof (inv_held _ _ Hs v).
    change (requested (status (release_permit (s <| receivers ::= delete i |>)))) with (requested (status s)). lia.
  - intros Hrun v. simpl in Hrun. destruct Hor as [?|Hph]; [congruence|]. specialize (Hh v).
    rewrite (count_empty v (receiver_range r)) in Hh by (unfold receiver_range; by rewrite Hph).
    pose proof (inv_all_held _ _ Hs Hrun v).
    change (requested (status (release_permit (s <| receivers ::= delete i |>)))) with (requested (status s)). lia.
  - apply Forall_delete, (inv_receivers _ _ Hs).
  - destruct (inv_permits _ _ Hs) as [? Hsum]. rewrite (permits_delete _ _ _ Hi Hp) in Hsum. simpl. lia.
Qed.

(** ** A step of a receiver *)

(** What the server promises of its responses to a range request: the body of a
    partial response is the part of the file from the requested offset on, at
    most as long as asked for; the first response of the initial request has
    already arrived. *)
Definition arrival_ok (r : Receiver) (a : Arrival) : Prop :=
  match a with
  | AItem (Response _) elapsed => duration_ok elapsed
  | AItem _ elapsed => duration_ok elapsed ∧ initial_response r = false
  | ABody (Some data) =>
      rc_phase r = Collecting →
      zlength data ≤ rq_length r - actual_length r ∧ is_slice remote (rc_offset r) data
  | _ => True
  end.

(** What a step that keeps the range of the receiver leaves behind. *)
Definition received (r : Receiver) s (next : option (Receiver * Sys)) : Prop :=
  match next with
  | None => running s = false ∨ rc_phase r = Dropping
  | Some (r', s') => inv remote s' ∧ receivers s' = receivers s ∧ same_request r r'
  end.

Lemma goes_on_inv i r next s :
  inv remote s → receivers s !! i = Some r → permit r = true → received r s next → inv remote (goes_on i next s).
Proof.
  intros Hs Hi Hp. destruct next as [[r' s']|]; simpl.
  - intros (Hs' & Hr & Hsame). rewrite <- Hr in Hi. by eapply inv_set_receiver.
  - intros Hor. by eapply inv_dropped.
Qed.

Lemma receive_response_inv item elapsed r s :
  inv remote s → duration_ok elapsed → rc_phase r = Streaming → received r s (receive_response item elapsed r s).
Proof.
  intros Hs Hd Hph.
  assert (∀ r' ph, same_request r r' → rc_phase r' = Streaming → ph ≠ Dropping → same_request r (r' <| rc_phase := ph |>)) as Hsame.
  { intros r' ph (? & ? & ? & ? & ? & ?) Hph' Hne. unfold same_request, receiver_range in *. simpl.
    rewrite Hph, Hph' in *. split_and!; try done. by destruct ph. }
  destruct item as [code| |]; cbn [receive_response];
    [|split_and!; [done..|]; by apply (Hsame r Leaving)..].
  set (r1 := if initial_response r then _ else r).
  assert (same_request r r1 ∧ rc_phase r1 = Streaming) as [Hr1 Hph1].
  { unfold r1, same_request. by destruct (initial_response r). }
  unfold report_ping, send_data. destruct (measure_ping_time r1 && _).
  - destruct (running s) eqn:Hrun; [|by left]. split_and!; [by apply inv_send_meta|done|].
    apply Hsame; [done|done|by case_decide].
  - split_and!; [done..|]. apply Hsame; [done|done|by case_decide].
Qed.

Lemma report_throughput_inv total r s :
  inv remote s → 0 ≤ actual_length r ≤ 2 ^ 50 → rc_phase r = Leaving → received r s (report_throughput total r s).
Proof.
  intros Hs Ha Hph.
  assert (same_request r (r <| rc_phase := Returning |>)) as Hsame.
  { unfold same_request, receiver_range. simpl. by rewrite Hph. }
  unfold report_throughput, send_data.
  destruct (measure_throughput r && _ && _) eqn:Hm; [|done].
  destruct (running s) eqn:Hrun; [|by left]. split; [|done]. apply inv_send_meta; [done..|]. simpl.
  apply andb_true_iff in Hm as [_ Hms%bool_decide_eq_true].
  assert (0 ≤ 1000 * actual_length r / as_millis total ≤ 2 ^ 60) as Hb.
  { split; [apply Z.div_pos; lia|]. apply Z.div_le_upper_bound; [done|]. nia. }
  unfold wrapu. split; [apply Z.mod_pos_bound; lia|]. etrans; [apply Z.mod_le; lia|lia].
Qed.

Lemma receive_body_inv i body r s :
  inv remote s → receivers s !! i = Some r → permit r = true → rc_phase r = Collecting → arrival_ok r (ABody body) →
  ∃ next, receive_body body r s = Val next ∧ inv remote (goes_on i next s).
Proof.
  intros Hs Hi Hp Hph Hok. pose proof (receiver_at_ok _ _ _ Hs Hi) as (? & ? & ? & ?).
  destruct (inv_size _ _ Hs) as [_ Hmax]. destruct body as [data|]; cbn [receive_body].
  - destruct (Hok Hph) as [Hlen Hsl]. unfold send_data. destruct (running s) eqn:Hrun.
    + rewrite !uadd_Val by (unfold usize_max, u64_max; lia). eexists. split; [done|].
      by apply (inv_advanced i r (r <| actual_length := actual_length r + zlength data |>
                      <| rc_offset := rc_offset r + zlength data |> <| rc_phase := Streaming |>) data s).
    + eexists. split; [done|]. eapply goes_on_inv; [done..|]. by left.
  - eexists. split; [done|]. eapply goes_on_inv; [done..|]. split_and!; [done..|].
    unfold same_request, receiver_range. simpl. by rewrite Hph.
Qed.

Lemma return_missing_inv i r s :
  inv remote s → receivers s !! i = Some r → permit r = true → rc_phase r = Returning →
  ∃ r' s', return_missing r s = Val (r', s') ∧ inv remote (goes_on i (Some (r', s')) s).
Proof.
  intros Hs Hi Hp Hph. pose proof (receiver_at_ok _ _ _ Hs Hi) as Hok. destruct (Hok) as (? & ? & ? & ?).
  destruct (inv_size _ _ Hs) as [_ Hmax]. unfold return_missing. rewrite usub_Val by lia. rewrite exec_bind_Val.
  assert (receiver_range r = mkRange (rc_offset r) (rq_length r - actual_length r)) as Hrange.
  { unfold receiver_range. by rewrite Hph. }
  destruct (subtract_range_spec (requested (status s)) (receiver_range r)) as (rs & Ers & Hwf & Hrs).
  { apply (inv_wf _ _ Hs). }
  { rewrite Hrange. unfold range_fits, endz, usize_max, u64_max. simpl. lia. }
  case_decide as Hrem.
  - rewrite <- Hrange, Ers. eexists _, _. split; [done|].
    by apply (inv_given_back i r (r <| rc_phase := Dropping |>) rs s).
  - eexists _, _. split; [done|]. cbn [goes_on]. rewrite <- (set_requested_id s) at 1.
    apply (inv_given_back i r (r <| rc_phase := Dropping |>)); try done; [apply (inv_wf _ _ Hs)|].
    intros v. rewrite Hrange. unfold in_range, endz. simpl. split; [|tauto]. intros ?. split; [done|lia].
Qed.

Lemma receive_step_inv i a s :
  inv remote s → (∀ r, receivers s !! i = Some r → arrival_ok r a) →
  ∃ s', receive_step i a s = Val s' ∧ inv remote s'.
Proof.
  intros Hs Ha. unfold receive_step. destruct (receivers s !! i) as [r|] eqn:Hi; [|by exists s].
  destruct (permit r) eqn:Hp; [|by exists s]. specialize (Ha r eq_refl).
  destruct (inv_size _ _ Hs) as [_ Hmax]. pose proof (receiver_at_ok _ _ _ Hs Hi) as (? & ? & ? & ?).
  destruct (rc_phase r) eqn:Hph, a as [item elapsed|body|total]; try by exists s.
  - eexists. split; [done|]. eapply goes_on_inv; [done..|]. apply receive_response_inv; [done| |done].
    destruct item; simpl in Ha; tauto.
  - destruct (receive_body_inv i body r s) as (next & -> & ?); [done..|]. eauto.
  - eexists. split; [done|]. eapply goes_on_inv; [done..|]. apply report_throughput_inv; [done|lia|done].
  - destruct (return_missing_inv i r s) as (r' & s' & -> & ?); [done..|]. eauto.
  - eexists. split; [done|]. eapply goes_on_inv; [done..|]. by right.
Qed.

Lemma receive_acquire_inv i s : inv remote s → inv remote (receive_acquire i s).
Proof.
  intros Hs. unfold receive_acquire. destruct (receivers s !! i) as [r|] eqn:Hi; [|done].
  destruct (negb (permit r) && has_download_slots_available s) eqn:Hc; [|done].
  apply andb_true_iff in Hc as [Hp%negb_true_iff Hav%bool_decide_eq_true].
  assert (∀ v, held (s <| receivers ::= <[i := r <| permit := true |>]> |>
          <| shared ::= λ h, h <| download_slots ::= Z.pred |> |>) v = held s v) as Hh.
  { intros v. unfold held, in_flight. simpl. rewrite !count_app.
    pose proof (count_insert receiver_range v _ _ _ (r <| permit := true |>) Hi) as Hc.
    change (receiver_range (r <| permit := true |>)) with (receiver_range r) in Hc. unfold status. simpl in Hc |- *. lia. }
  inv_keep Hs.
  - intros v. rewrite Hh. apply (inv_held _ _ Hs).
  - intros Hr v. rewrite Hh. by apply (inv_all_held _ _ Hs).
  - apply Forall_insert; [apply (inv_receivers _ _ Hs)|].
    exact (receiver_at_ok _ _ _ Hs Hi).
  - destruct (inv_permits _ _ Hs) as [? Hsum].
    rewrite <- (take_drop_middle _ _ _ Hi), permits_middle, Hp in Hsum. simpl.
    rewrite insert_take_drop by by eapply lookup_lt_Some. rewrite permits_middle. simpl. lia.
Qed.

(** ** Commands *)

Lemma inv_send_command c s :
  inv remote s → command_ok (zlength remote) c → inv remote (default s (send_command c s)).
Proof.
  intros Hs Hc. unfold send_command. destruct (running s); [|done]. simpl. inv_keep Hs.
  apply Forall_app. split; [apply (inv_commands _ _ Hs)|by constructor].
Qed.

Lemma send_fetches_inv l s :
  inv remote s → Forall (fetch_ok (zlength remote)) l → inv remote (send_fetches l s).2 ∧
  shared (send_fetches l s).2 = shared s ∧ reader (send_fetches l s).2 = reader s.
Proof.
  intros Hs Hl. revert s Hs. induction Hl as [|r l Hr Hl IH]; intros s Hs; simpl; [done|].
  pose proof (inv_send_command (Fetch r) s Hs Hr) as Hs1.
  assert (shared (default s (send_command (Fetch r) s)) = shared s ∧
          reader (default s (send_command (Fetch r) s)) = reader s) as [Hsh Hre].
  { unfold send_command. by destruct (running s). }
  destruct (send_command (Fetch r) s) as [s1|]; simpl in *; [|done].
  destruct (IH s1 Hs1) as (? & -> & ->). done.
Qed.

(** ** Reading *)

(** The ranges of a set of positions of the file can be fetched. *)
Lemma separated_fetch_ok size lo l :
  -1 ≤ lo → separated lo l → size ≤ 2 ^ 62 → (∀ v, in_ranges v l → v < size) → Forall (fetch_ok size) l.
Proof.
  intros Hlo Hsep Hmax. revert lo Hlo Hsep. induction l as [|r l IH]; intros lo Hlo; [by constructor|].
  intros (? & ? & ? & Ht) Hin. constructor.
  - pose proof (Hin (start r)) as H1'. pose proof (Hin (endz r - 1)) as H2'.
    rewrite !in_ranges_cons in *. unfold in_range, endz, fetch_ok in *. lia.
  - apply (IH (endz r)); [unfold endz; lia|done|]. intros v Hv. apply Hin. by right.
Qed.
Lemma ranges_fetch_ok size rs :
  wf rs → size ≤ 2 ^ 62 → (∀ v, v ∈ rs → v < size) → Forall (fetch_ok size) (ranges rs).
Proof. intros. by apply (separated_fetch_ok size (-1)). Qed.

Lemma send_fetches_fails l s s' : send_fetches l s = (false, s') → running s = false.
Proof.
  revert s. induction l as [|r l IH]; intros s E; simpl in E; [done|].
  unfold send_command in E. destruct (running s) eqn:Hr; [|done]. apply IH in E. simpl in E. congruence.
Qed.

(** A call goes on at another point, or returns. *)
Lemma inv_reading_change ph s :
  inv remote s → reading_ok remote (s <| reading := ph |>) → inv remote (s <| reading := ph |>).
Proof. intros Hs Hok. by inv_keep Hs. Qed.

Lemma reading_cursor s :
  inv remote s → (∀ o d, reading s ≠ ReadTell o d) → cursor (read_file (reader s)) = position (reader s).
Proof.
  intros Hs Hne. pose proof (inv_reading _ _ Hs) as Hre. unfold reading_ok in Hre.
  destruct (reading s); try apply Hre. by edestruct Hne.
Qed.

Lemma read_inv n s :
  inv remote s → 0 ≤ n → reading s = Idle →
  ∃ s' out, read n s = Val (s', out) ∧ inv remote s' ∧
    match out with
    | Some (ReadReturns o r) => o = position (reader s) ∧ reader s' = reader s ∧ r = Ok [] ∧ (n = 0 ∨ o = zlength remote)
    | Some (SeekReturns _) => False
    | None => True
    end.
Proof.
  intros Hs Hn Hb. unfold read. destruct (inv_size _ _ Hs) as [Hsize Hmax].
  destruct (inv_position _ _ Hs) as (Hpos & _). rewrite Hsize.
  assert (cursor (read_file (reader s)) = position (reader s)) as Hcur by (apply reading_cursor; [done|by rewrite Hb]).
  assert (inv remote (s <| reading := Idle |>)) as Hidle by by apply inv_reading_change.
  case_decide; [eexists _, _; split; [done|]; split; [done|]; split_and!; [done..|lia]|].
  set (len := Z.min n _). case_decide; [eexists _, _; split; [done|]; split; [done|]; split_and!; [done..|lia]|].
  assert (∃ m, (if is_download_streaming s then n ← uadd usize_max len (read_ahead_bytes s);
                  Val (Z.min n (zlength remote - position (reader s))) else Val len) = Val m ∧
    0 ≤ m ∧ position (reader s) + m ≤ zlength remote) as (m & -> & Hm & Hle).
  { destruct (inv_params _ _ Hs) as [_ Hra].
    assert (0 ≤ read_ahead_bytes s) by apply f32_to_usize_bounds.
    destruct (is_download_streaming s); [rewrite uadd_Val by (unfold usize_max, u64_max; lia)|];
      (eexists; split; [done|]); lia. }
  eexists _, None. split; [done|]. split; [|done]. apply inv_reading_change; [done|].
  unfold reading_ok. simpl. split_and!; [done|done|lia..].
Qed.

Lemma read_check_inv o n s :
  inv remote s → cursor (read_file (reader s)) = position (reader s) → o = position (reader s) → 0 < n →
  o + n ≤ zlength remote →
  ∃ s', read_check o n s = Val (s', None) ∧ inv remote s'.
Proof.
  intros Hs Hcur Ho Hn Hle. destruct (inv_wf _ _ Hs) as [_ Hwd]. unfold read_check, contains.
  destruct (contains_loop_spec (-1) (ranges (downloaded (status s))) o Hwd) as (b & -> & Hbv).
  rewrite exec_bind_Val. destruct b.
  - assert (o ∈ downloaded (status s)) as Hod by by apply Hbv. unfold contained_length_from_value.
    destruct (contained_length_loop_spec (-1) (ranges (downloaded (status s))) o Hwd) as (a & -> & Ha & Hin & Hout).
    assert (0 < a) by (destruct (decide (a = 0)) as [->|]; [rewrite Z.add_0_r in Hout; done|lia]).
    eexists. split; [done|]. apply inv_reading_change; [done|]. unfold reading_ok. simpl. split_and!; [done|done|lia..|].
    intros v Hv. apply (Hin v). lia.
  - eexists. split; [done|]. by apply inv_reading_change.
Qed.

Lemma read_ask_inv o n m s :
  inv remote s → reading s = ReadAsk o n m →
  ∃ s' out, read_ask o n m s = Val (s', out) ∧ inv remote s' ∧
    (out = None ∨ out = Some (ReadReturns o (Err BrokenPipe)) ∧ running s = false).
Proof.
  intros Hs Hph. pose proof (inv_reading _ _ Hs) as Hre. unfold reading_ok in Hre. rewrite Hph in Hre.
  destruct Hre as (Hcur & Ho & Hn & Hle & Hm & Hlem). destruct (inv_size _ _ Hs) as [_ Hmax].
  destruct (inv_wf _ _ Hs) as [Hwr Hwd]. destruct (inv_position _ _ Hs) as (Hpos & _). unfold read_ask.
  destruct (add_range_new (mkRange o m)) as (rs & -> & Hwf & Hrs).
  { unfold range_fits, endz, usize_max, u64_max. simpl. lia. }
  rewrite exec_bind_Val.
  destruct (subtract_known_spec rs (status s)) as (rs' & -> & Hwf' & Hrs'); [done..|]. rewrite exec_bind_Val.
  assert (Forall (fetch_ok (zlength remote)) (ranges rs')) as Hall.
  { apply ranges_fetch_ok; [done|lia|]. intros v [Hv _]%Hrs'. apply Hrs in Hv.
    unfold elem_of, range_elem_of, in_range, endz in Hv. simpl in Hv. lia. }
  destruct (send_fetches_inv _ _ Hs Hall) as (Hs' & Hsh & Hr).
  destruct (send_fetches (ranges rs') s) as [sent s1] eqn:Es. simpl in *. rewrite <- Hr in Hcur, Ho.
  destruct sent.
  - destruct (read_check_inv o n s1) as (s' & -> & ?); [done..|]. eexists _, _. split; [done|]. auto.
  - eexists _, _. split; [done|]. split; [by apply inv_reading_change|]. right. split; [done|].
    by eapply send_fetches_fails.
Qed.

(** The part of a file that is there is read from it. *)
Lemma read_downloaded s o n :
  inv remote s → 0 ≤ o → 0 ≤ n → o + n ≤ zlength remote →
  (∀ v, o ≤ v < o + n → v ∈ downloaded (status s)) →
  read_at (file s) o n = read_at remote o n.
Proof.
  intros Hs Ho Hn Hle Hin. destruct (inv_file _ _ Hs) as [Hlen Hf]. unfold read_at. apply list_eq. intros i.
  destruct (decide (i < Z.to_nat n)%nat).
  - rewrite !lookup_take_lt, !lookup_drop by done.
    replace (Z.to_nat o + i)%nat with (Z.to_nat (o + Z.of_nat i)) by lia. apply Hf, Hin. lia.
  - by rewrite !lookup_take_ge by lia.
Qed.

Lemma length_read_at (c : list Z) o n :
  0 ≤ o → 0 ≤ n → o + n ≤ zlength c → zlength (read_at c o n) = n.
Proof. intros. unfold read_at. rewrite length_take, length_drop. lia. Qed.

Lemma read_copy_inv io o k s :
  inv remote s → reading s = ReadCopy o k →
  inv remote (read_copy io o k s).1 ∧
  ((read_copy io o k s).2 = None ∨
   (read_copy io o k s).2 = Some (ReadReturns o (Err DiskError)) ∧ ∃ n, io = IoFails n).
Proof.
  intros Hs Hph. pose proof (inv_reading _ _ Hs) as Hre. unfold reading_ok in Hre. rewrite Hph in Hre.
  destruct Hre as (Hcur & Ho & Hk & Hle & Hin). destruct (inv_position _ _ Hs) as (Hpos & _).
  destruct io as [|n]; simpl; [|split; [by apply inv_reading_change|by eauto]]. split; [|by left].
  assert (read_at (file s) o k = read_at remote o k) as -> by (apply read_downloaded; [done|lia..|done]).
  assert (zlength (read_at remote o k) = k) as Hlen by (apply length_read_at; lia).
  inv_keep Hs. unfold reading_ok. simpl. rewrite Hlen. by split_and!.
Qed.

Lemma read_tell_inv o data s :
  inv remote s → reading s = ReadTell o data → inv remote (read_tell o data s).1.
Proof.
  intros Hs Hph. pose proof (inv_reading _ _ Hs) as Hre. unfold reading_ok in Hre. rewrite Hph in Hre.
  destruct Hre as (-> & Hcur & Hdata & Hlen & Hle). destruct (inv_position _ _ Hs) as (Hpos & _).
  inv_keep Hs; [simpl; lia|]. by split.
Qed.

(** ** Seeking and the controller *)

Lemma i64_add_Val a b : - 2 ^ 63 ≤ a + b < 2 ^ 63 → i64_add a b = Val (a + b).
Proof. intros. unfold i64_add. by rewrite decide_True. Qed.
Lemma as_i64_small z : z < 2 ^ 63 → as_i64 z = z.
Proof. intros. unfold as_i64. by rewrite decide_True. Qed.

Lemma seek_inv pos s :
  inv remote s → 0 ≤ seek_target remote pos s ≤ zlength remote → reading s = Idle →
  ∃ s' out, seek pos s = Val (s', out) ∧ inv remote s' ∧ reader s' = reader s ∧
    (out = None ∨ ∃ r, out = Some (SeekReturns r)).
Proof.
  intros Hs Ht Hb. unfold seek. destruct (inv_size _ _ Hs) as [Hsize Hmax].
  destruct (inv_position _ _ Hs) as (Hpos & _).
  assert (cursor (read_file (reader s)) = position (reader s)) as Hcur by (apply reading_cursor; [done|by rewrite Hb]).
  rewrite (as_i64_small (position (reader s))) by lia.
  assert (∃ q, (match pos with
                | SeekStart p => Val (as_i64 p)
                | SeekEnd p => n ← i64_add (as_i64 (file_size (shared s))) (- p); i64_add n (- 1)
                | SeekCurrent p => i64_add (position (reader s)) p
                end) = Val q) as [q ->].
  { unfold seek_target in *. rewrite Hsize, (as_i64_small (zlength remote)) by lia.
    destruct pos; [eauto| |rewrite i64_add_Val by lia; eauto].
    rewrite i64_add_Val by lia. rewrite exec_bind_Val, i64_add_Val by lia. eauto. }
  rewrite exec_bind_Val. case_decide; (eexists _, _; split; [done|]; split; [|by eauto]); by apply inv_reading_change.
Qed.

Lemma seek_lookup_inv pos q s :
  inv remote s → reading s = SeekLookup pos q → ∃ s', seek_lookup pos q s = Val (s', None) ∧ inv remote s'.
Proof.
  intros Hs Hph. pose proof (inv_reading _ _ Hs) as Hre. unfold reading_ok in Hre. rewrite Hph in Hre.
  destruct (inv_wf _ _ Hs) as [_ Hwd]. unfold seek_lookup, contains.
  destruct (contains_loop_spec (-1) (ranges (downloaded (status s))) (wrapu 64 q) Hwd) as (b & -> & _).
  rewrite exec_bind_Val. eexists. split; [done|]. apply inv_reading_change; [done|]. by destruct b.
Qed.

Lemma seek_move_inv io pos b s :
  inv remote s → reading s = SeekMove pos b → inv remote (seek_move io pos b s).1.
Proof.
  intros Hs Hph. pose proof (inv_reading _ _ Hs) as Hre. unfold reading_ok in Hre. rewrite Hph in Hre.
  destruct Hre as [Hcur Ht]. destruct (inv_file _ _ Hs) as [Hlen _]. unfold seek_move.
  destruct io as [|n]; [|by apply inv_reading_change].
  unfold file_seek. rewrite Hcur, Hlen. fold (seek_target remote pos s). rewrite decide_True by lia.
  destruct (inv_position _ _ Hs) as (_ & Hrp). inv_keep Hs; [by split|]. by split.
Qed.

Lemma seek_tell_inv p b s : inv remote s → reading s = SeekTell p b → inv remote (seek_tell p b s).1.
Proof.
  intros Hs Hph. pose proof (inv_reading _ _ Hs) as Hre. unfold reading_ok in Hre. rewrite Hph in Hre.
  destruct Hre as [Hcur ->]. destruct (inv_position _ _ Hs) as (Hpos & _).
  assert (inv remote (set_read_position (position (reader s)) s)) as Hs'.
  { by inv_keep Hs. }
  unfold seek_tell. destruct b; by apply inv_reading_change.
Qed.

Lemma inv_set_mode b s : inv remote s → inv remote (set_download_streaming b s).
Proof. intros Hs. by inv_keep Hs. Qed.

(** A step of the reader, and what a read that is over returns. *)
Lemma reader_step_inv io s :
  inv remote s →
  ∃ s' out, reader_step io s = Val (s', out) ∧ inv remote s' ∧
    match out with
    | Some (ReadReturns o r) => o = position (reader s) ∧
        match r with
        | Ok data => data = read_at remote o (zlength data) ∧ 0 < zlength data ∧ position (reader s') = o + zlength data
        | Err e => e = BrokenPipe ∧ running s = false ∨ e = DiskError ∧ ∃ n, io = IoFails n
        end
    | _ => True
    end.
Proof.
  intros Hs. pose proof (inv_reading _ _ Hs) as Hre. unfold reader_step, reading_ok in *.
  destruct (reading s) as [|o n m|o n|o k|o d|pos q|pos|pos|pos b|p b|] eqn:Hph.
  - by eexists _, _.
  - destruct (read_ask_inv o n m s Hs Hph) as (s' & out & -> & ? & Hout). eexists _, _. split; [done|]. split; [done|].
    destruct Hre as (_ & Ho & _). destruct Hout as [->|[-> ?]]; [done|]. auto.
  - destruct (read_check_inv o n s) as (s' & -> & ?); [tauto..|]. by eexists _, _.
  - destruct (read_copy_inv io o k s Hs Hph) as [? Hout]. destruct (read_copy io o k s) as [s' out]. simpl in *.
    eexists _, _. split; [done|]. split; [done|].
    destruct Hre as (_ & Ho & _). destruct Hout as [->|[-> ?]]; [done|]. auto.
  - pose proof (read_tell_inv o d s Hs Hph). eexists _, _. split; [done|]. split; [done|].
    destruct Hre as (Ho & _ & Hdata & Hlen & _). by split.
  - destruct (seek_lookup_inv pos q s Hs Hph) as (s' & -> & ?). by eexists _, _.
  - eexists _, _. split; [done|]. split; [|done]. apply inv_reading_change; [done|].
    by destruct (is_download_streaming s).
  - eexists _, _. split; [done|]. split; [|done]. by apply inv_reading_change; [apply inv_set_mode|].
  - pose proof (seek_move_inv io pos b s Hs Hph) as Hs'. unfold seek_move in *.
    destruct io; [destruct (file_seek _ _ _) as [[]|]|]; by eexists _, _.
  - pose proof (seek_tell_inv p b s Hs Hph) as Hs'. unfold seek_tell in *. destruct b; by eexists _, _.
  - eexists _, _. split; [done|]. split; [|done]. by apply inv_reading_change; [apply inv_set_mode|].
Qed.

Lemma controller_fetch_inv c r s :
  inv remote s → fetch_ok (zlength remote) r → inv remote (controller_fetch c r s).
Proof.
  intros Hs Hr. unfold controller_fetch, send_stream_loader_command. destruct (streaming c); [|done].
  by apply inv_send_command.
Qed.

Lemma controller_fetch_running r s :
  running s = true →
  controller_fetch (get_stream_loader_controller s) r s = s <| commands ::= λ l, l ++ [Fetch r] |>.
Proof. intros Hrun. unfold controller_fetch, send_stream_loader_command, send_command. simpl. by rewrite Hrun. Qed.

Lemma must_wait_ok r s : inv remote s → ∃ b, must_wait r s = Val b.
Proof.
  intros Hs. unfold must_wait, contained_length_from_value. destruct (inv_wf _ _ Hs) as [_ Hwd].
  destruct (contained_length_loop_spec (-1) _ (start r) Hwd) as (a & -> & _). eauto.
Qed.

Lemma inv_blocking_change ph s :
  inv remote s → blocking_ok (zlength remote) ph → inv remote (s <| blocking := ph |>).
Proof. intros Hs Hok. by inv_keep Hs. Qed.

Lemma fetch_blocking_inv r s :
  inv remote s → fetch_ok (zlength remote) r →
  ∃ s', fetch_blocking (get_stream_loader_controller s) r s = Val s' ∧ inv remote s'.
Proof.
  intros Hs [Hst Hlen]. unfold fetch_blocking, fit_range. destruct (inv_size _ _ Hs) as [Hsize Hmax].
  cbn [get_stream_loader_controller ctl_file_size streaming]. rewrite Hsize.
  assert (∃ r', (if decide (zlength remote ≤ start r) then Val (mkRange (start r) 0)
     else e ← range_end r; Val (if decide (zlength remote < e) then mkRange (start r) (zlength remote - start r) else r))
     = Val r' ∧ fetch_ok (zlength remote) r') as (r' & -> & Hr').
  { unfold fetch_ok. case_decide; [eexists; split; [done|]; simpl; lia|].
    rewrite range_end_fits by (unfold endz, usize_max, u64_max; lia). rewrite exec_bind_Val.
    eexists. split; [done|]. case_decide; simpl; lia. }
  eexists. split; [done|]. apply inv_blocking_change; [by apply controller_fetch_inv|done].
Qed.

Lemma wait_or_return_inv r s :
  inv remote s → fetch_ok (zlength remote) r → ∃ s', wait_or_return r s = Val s' ∧ inv remote s'.
Proof.
  intros Hs Hr. unfold wait_or_return. destruct (must_wait_ok r s Hs) as [b ->]. eexists. split; [done|].
  apply inv_blocking_change; [done|]. by destruct b.
Qed.

Lemma fetch_again_inv r s :
  inv remote s → fetch_ok (zlength remote) r →
  ∃ s', fetch_again (get_stream_loader_controller s) r s = Val s' ∧ inv remote s'.
Proof.
  intros Hs Hr. unfold fetch_again. destruct (inv_wf _ _ Hs) as [Hwr Hwd].
  destruct (add_ranges_spec (downloaded (status s)) (ranges (requested (status s)))) as (u & Eu & Hwu & _);
    [done|by apply wf_fits|].
  unfold union, add_range_set. rewrite Eu, exec_bind_Val. unfold contained_length_from_value.
  destruct (contained_length_loop_spec (-1) _ (start r) Hwu) as (a & -> & _). rewrite exec_bind_Val.
  apply wait_or_return_inv; [|done]. case_decide; [|done]. by apply controller_fetch_inv.
Qed.

Lemma controller_step_inv s :
  inv remote s → ∃ s', controller_step (get_stream_loader_controller s) s = Val s' ∧ inv remote s'.
Proof.
  intros Hs. pose proof (inv_blocking _ _ Hs) as Hb. unfold controller_step.
  destruct (blocking s) as [|r1 r2|r|r|r]; simpl in Hb.
  - by exists s.
  - eexists. split; [done|]. apply inv_blocking_change; [apply controller_fetch_inv; [done|]|]; apply Hb.
  - by apply fetch_blocking_inv.
  - by apply wait_or_return_inv.
  - by apply fetch_again_inv.
Qed.
End receivers.

(** ** Reachable states *)

(** What the callers and the server promise: times are durations, the server
    answers range requests with the bytes of the file, seeks stay inside the
    file, and ranges to fetch start inside it. *)
Definition label_ok (remote : list Z) (l : label) (s : Sys) : Prop :=
  match l with
  | LReceive i a => ∀ r, receivers s !! i = Some r → arrival_ok remote r a
  | LRead n => 0 ≤ n
  | LSeek pos => 0 ≤ seek_target remote pos s ≤ zlength remote
  | LFetch r | LFetchBlocking r => fetch_ok (zlength remote) r
  | LFetchNext a b => 0 ≤ a ≤ 2 ^ 62 ∧ 0 ≤ b ≤ 2 ^ 62
  | _ => True
  end.

(** Parameters and file sizes for which the arithmetic stays in range. *)
Definition config_ok (remote : list Z) (p : AudioFetchParams) (bytes_per_second : Z) : Prop :=
  params_ok p ∧ zlength remote ≤ 2 ^ 50 ∧
  f32_to_usize (f32_mul (as_secs_f32 (read_ahead_during_playback p)) (f32_of_Z bytes_per_second)) ≤ 2 ^ 62.

Inductive reachable (request_stream : string → string → bool) (remote : list Z) (p : AudioFetchParams) (bps : Z)
    : Sys → Prop :=
| reachable_open url upper s :
    0 ≤ upper < zlength remote →
    open_stream p url bps upper (zlength remote) = Val s → reachable request_stream remote p bps s
| reachable_step l s s' out :
    reachable request_stream remote p bps s → label_ok remote l s →
    run request_stream l s = Val (s', out) → reachable request_stream remote p bps s'.

Section reachable.
Context (request_stream : string → string → bool) (remote : list Z) (p : AudioFetchParams) (bps : Z).
Implicit Types s : Sys.

Lemma inv_open url upper s :
  config_ok remote p bps → 0 ≤ upper < zlength remote →
  open_stream p url bps upper (zlength remote) = Val s → inv remote s.
Proof.
  intros Hcfg Hu. destruct Hcfg as (Hp & Hmax & Hra). unfold open_stream, initial_requested.
  rewrite uadd_Val, exec_bind_Val by (unfold usize_max, u64_max; lia).
  rewrite uadd_Val, exec_bind_Val by (unfold usize_max, u64_max; lia).
  destruct (add_range_new (mkRange 0 (0 + (upper + 1)))) as (rs & -> & Hwf & Hrs).
  { unfold range_fits, endz, usize_max, u64_max. simpl. lia. }
  rewrite exec_bind_Val. intros [= <-].
  assert (∀ v, count v [receiver_range (receive_data 0 (upper + 1) true)] = member v rs) as Hh.
  { intros v. rewrite count_one. unfold member. specialize (Hrs v).
    assert (v ∈ mkRange 0 (0 + (upper + 1)) ↔ in_range v (receiver_range (receive_data 0 (upper + 1) true))) as Hv.
    { unfold elem_of, range_elem_of, receiver_range, in_range, endz. simpl. lia. }
    repeat case_decide; tauto. }
  constructor; try done; try (simpl; lia); simpl.
  - intros v Hv%Hrs. unfold elem_of, range_elem_of, in_range, endz in Hv. simpl in Hv. lia.
  - intros v. unfold held, in_flight. simpl. rewrite Hh. rewrite (member_0 v new); [lia|]. by intros []%elem_of_new.
  - intros _ v. unfold held, in_flight. simpl. rewrite Hh. rewrite (member_0 v new); [lia|]. by intros []%elem_of_new.
  - rewrite length_replicate, Nat2Z.id. split; [done|]. intros v []%elem_of_new.
  - constructor; [|done]. unfold receiver_ok. simpl. lia.
  - split; [lia|by constructor].
Qed.

Lemma run_preserves l s :
  inv remote s → label_ok remote l s →
  ∃ s' out, run request_stream l s = Val (s', out) ∧ inv remote s'.
Proof.
  intros Hs Hl. destruct l; cbn [run].
  - destruct (running s) eqn:Hr; [|by eexists _, _].
    destruct (take_command_safe remote s) as (s' & -> & ?); [done|]. by eexists _, _.
  - destruct (running s) eqn:Hr; [|by eexists _, _].
    destruct (take_data_safe remote s) as (s' & -> & ?); [done|]. by eexists _, _.
  - eexists _, _. split; [done|]. by apply hang_up_inv.
  - destruct (running s) eqn:Hr; [|by eexists _, _].
    destruct (fetch_step_safe remote request_stream io s) as (s' & -> & ?); [done|]. by eexists _, _.
  - eexists _, _. split; [done|]. by apply receive_acquire_inv.
  - destruct (receive_step_inv remote i a s) as (s' & -> & ?); [done..|]. by eexists _, _.
  - destruct (reading s) eqn:Hb; try by eexists _, _.
    destruct (read_inv remote output_len s) as (s' & out & -> & ? & _); [done..|]. by eexists _, _.
  - destruct (reading s) eqn:Hb; try by eexists _, _.
    destruct (seek_inv remote pos s) as (s' & out & -> & ? & _); [done..|]. by eexists _, _.
  - destruct (reader_step_inv remote io s) as (s' & out & -> & ? & _); [done..|]. by eexists _, _.
  - destruct (reading s) as [| |o n| | | | | | | |] eqn:Hb; try by eexists _, _.
    eexists _, _. split; [done|]. apply inv_reading_change; [done|]. split; [|done].
    apply (reading_cursor remote s); [done|]. by rewrite Hb.
  - eexists _, _. split; [done|]. by apply controller_fetch_inv.
  - destruct (blocking s); eexists _, _; (split; [done|]); try done. by apply inv_blocking_change.
  - destruct (inv_position _ _ Hs) as (_ & Hrp). destruct Hl as [Ha Hb].
    destruct (blocking s); eexists _, _; (split; [done|]); try done.
    apply inv_blocking_change; [done|]. unfold blocking_ok, fetch_ok. simpl. lia.
  - destruct (controller_step_inv remote s) as (s' & -> & ?); [done|]. by eexists _, _.
  - destruct (blocking s); eexists _, _; (split; [done|]); try done. by apply inv_blocking_change.
  - eexists _, _. split; [done|]. destruct streaming; by apply inv_set_mode.
  - eexists _, _. split; [done|]. by apply inv_send_command.
Qed.

Lemma fetch_reachable_inv s : config_ok remote p bps → reachable request_stream remote p bps s → inv remote s.
Proof.
  intros Hcfg. induction 1 as [|l s s' out _ IH Hl E]; [by eapply inv_open|].
  destruct (run_preserves l s IH Hl) as (s1 & out1 & E1 & H1). congruence.
Qed.
End reachable.

(** ** The theorems *)

(** C1: the fetch task, the requests, the reader and the controller go on in any
    order, one access of the lock, an atomic, a channel or the file at a time,
    and operations on the file may fail.  If the server answers a range request
    with bytes of that range, seeks lead to positions inside the file, ranges to
    fetch start inside it, and the parameters and the size keep the arithmetic
    in range, then no step panics, the bytes marked as downloaded are those of
    the remote file, and at most one request is served at a time. *)
Theorem fetch_safety request_stream remote p bps s :
  config_ok remote p bps → reachable request_stream remote p bps s →
  (∀ v, v ∈ downloaded (status s) → 0 ≤ v < zlength remote ∧ file s !! Z.to_nat v = remote !! Z.to_nat v) ∧
  (permits (receivers s) ≤ 1)%nat ∧
  ∀ l, label_ok remote l s → ∃ s' out, run request_stream l s = Val (s', out) ∧
    reachable request_stream remote p bps s'.
Proof.
  intros Hcfg Hr. pose proof (fetch_reachable_inv _ _ _ _ _ Hcfg Hr) as Hs. split_and!.
  - intros v Hv. split; [|by apply (inv_file _ _ Hs)].
    by eapply (inv_bounds _ _ Hs), downloaded_requested.
  - pose proof (inv_permits _ _ Hs). lia.
  - intros l Hl. destruct (run_preserves request_stream remote l s Hs Hl) as (s' & out & E & _).
    exists s', out. split; [done|]. by eapply reachable_step.
Qed.

(** C32: what [read] returns.  The bytes are those of the remote file at the
    position of the reader, which moves behind them; nothing is returned only
    at the end of the file or for an empty buffer; the errors are a timeout, a
    fetch task that has ended, and a failure of the temporary file. *)
Theorem read_returns_file request_stream remote p bps s l s' o r :
  config_ok remote p bps → reachable request_stream remote p bps s → label_ok remote l s →
  run request_stream l s = Val (s', Some (ReadReturns o r)) →
  o = position (reader s) ∧
  match r with
  | Ok data => data = read_at remote o (zlength data) ∧ position (reader s') = o + zlength data ∧
               (data = [] → l = LRead 0 ∨ o = zlength remote)
  | Err e => e = TimedOut ∧ l = LReadTimeout ∨ e = BrokenPipe ∧ running s = false ∨
             e = DiskError ∧ ∃ n, l = LReader (IoFails n)
  end.
Proof.
  intros Hcfg Hr Hl E. pose proof (fetch_reachable_inv _ _ _ _ _ Hcfg Hr) as Hs.
  destruct l; cbn [run] in E; try (unfold silent in E; repeat case_match; invert_exec; done).
  - destruct (reading s) eqn:Hb; try done. destruct (read_inv remote output_len s Hs Hl Hb) as (s1 & out & E1 & _ & Hout).
    rewrite E in E1. injection E1 as <- <-. destruct Hout as (-> & Hre & -> & Hn). rewrite Hre. split; [done|].
    split_and!; [done|simpl; lia|]. intros _. destruct Hn as [->|?]; auto.
  - destruct (reading s) eqn:Hb; try done. destruct (seek_inv remote pos s Hs Hl Hb) as (s1 & out & E1 & _ & _ & Hout).
    rewrite E in E1. injection E1 as <- <-. destruct Hout as [|[? ?]]; done.
  - destruct (reader_step_inv remote io s Hs) as (s1 & out & E1 & _ & Hout).
    rewrite E in E1. injection E1 as <- <-. destruct Hout as [-> Hout]. split; [done|]. destruct r as [data|e].
    + destruct Hout as (? & Hlen & ?). split_and!; [done..|]. intros ->. simpl in Hlen. lia.
    + destruct Hout as [?|[? [n ->]]]; eauto.
  - destruct (reading s) as [| |o' n| | | | | | | |] eqn:Hb; try done. injection E as <- <- <-.
    pose proof (inv_reading _ _ Hs) as Hre. unfold reading_ok in Hre. rewrite Hb in Hre.
    destruct Hre as (_ & -> & _). auto.
Qed.

(** No byte is asked for twice.  At any time a byte is in at most one
    place (the rest of one request, one message, the fetch task, or the file), and only when it
    has been requested; while the fetch task runs, every requested byte is in
    one, so that once nothing is on its way the requested bytes are exactly
    the downloaded ones. *)
Lemma requested_once request_stream remote p bps s :
  config_ok remote p bps → reachable request_stream remote p bps s →
  (∀ v, (count v (in_flight s) + member v (downloaded (status s)) ≤ member v (requested (status s)))%nat) ∧
  (running s = true →
     (∀ v, v ∈ requested (status s) ↔ v ∈ downloaded (status s) ∨ in_ranges v (in_flight s)) ∧
     (in_flight s = [] → requested (status s) = downloaded (status s))).
Proof.
  intros Hcfg Hr. pose proof (fetch_reachable_inv _ _ _ _ _ Hcfg Hr) as Hs. split; [apply (inv_held _ _ Hs)|].
  intros Hrun. pose proof (inv_all_held _ _ Hs Hrun) as Hall. unfold held in Hall.
  assert (∀ v, v ∈ requested (status s) ↔ v ∈ downloaded (status s) ∨ in_ranges v (in_flight s)) as Hiff.
  { intros v. specialize (Hall v). rewrite in_ranges_count. unfold member in Hall. repeat case_decide;
      intuition lia. }
  split; [done|]. intros Hnil. destruct (inv_wf _ _ Hs) as [Hwr Hwd].
  destruct (requested (status s)) as [l1] eqn:E1, (downloaded (status s)) as [l2] eqn:E2. f_equal.
  apply (separated_ext (-1) (-1)); [done..|]. intros v. specialize (Hiff v). rewrite Hnil in Hiff.
  rewrite in_ranges_nil in Hiff. unfold elem_of, rangeset_elem_of in Hiff. simpl in Hiff. tauto.
Qed.

(** The file that is handed over for caching is the whole remote file,
    from its start. *)
Lemma completed_file request_stream remote p bps s f :
  config_ok remote p bps → reachable request_stream remote p bps s → completed s = Some f →
  cursor f = 0 ∧ file s = remote ∧ read_at (file s) (cursor f) (file_size (shared s)) = remote.
Proof.
  intros Hcfg Hr Hf. pose proof (fetch_reachable_inv _ _ _ _ _ Hcfg Hr) as Hs.
  destruct (inv_completed _ _ Hs _ Hf) as [-> Hall]. destruct (inv_file _ _ Hs) as [Hlen Hcont].
  destruct (inv_size _ _ Hs) as [Hsize _].
  assert (file s = remote) as Heq.
  { apply list_eq. intros i. destruct (decide (i < Datatypes.length remote)%nat).
    - rewrite <- (Nat2Z.id i). apply Hcont, Hall. lia.
    - rewrite !lookup_ge_None_2 by lia. done. }
  split_and!; [done..|]. simpl. rewrite Heq, Hsize. unfold read_at. simpl. rewrite Nat2Z.id. apply take_ge. lia.
Qed.

(** A thread that waits in [fetch_blocking] does not wait in vain: when it
    is woken while the fetch task runs, every byte of its range is downloaded
    or on its way, or the range is in the command channel. *)
Lemma fetch_blocking_progress request_stream remote p bps s range :
  config_ok remote p bps → reachable request_stream remote p bps s →
  blocking s = WaitMore range → running s = true →
  ∃ s', run request_stream LController s = Val (s', None) ∧
    ∀ v, in_range v range →
      v ∈ downloaded (status s') ∨ in_ranges v (in_flight s') ∨ Fetch range ∈ commands s'.
Proof.
  intros Hcfg Hr Hb Hrun. pose proof (fetch_reachable_inv _ _ _ _ _ Hcfg Hr) as Hs.
  cbn [run]. unfold controller_step, fetch_again. rewrite Hb. destruct (inv_wf _ _ Hs) as [Hwr Hwd].
  destruct (add_ranges_spec (downloaded (status s)) (ranges (requested (status s)))) as (u & Eu & Hwu & Hu);
    [done|by apply wf_fits|].
  unfold union, add_range_set. rewrite Eu. unfold silent. rewrite exec_bind_Val. unfold contained_length_from_value.
  destruct (contained_length_loop_spec (-1) _ (start range) Hwu) as (a & Ea & Ha & Hin & _).
  rewrite Ea, exec_bind_Val. unfold wait_or_return.
  assert (fetch_ok (zlength remote) range) as Hok by (pose proof (inv_blocking _ _ Hs) as H; by rewrite Hb in H).
  case_decide as Hlt.
  - pose proof (controller_fetch_inv remote (get_stream_loader_controller s) range s Hs Hok) as Hs1.
    rewrite (controller_fetch_running range s Hrun) in *.
    destruct (must_wait_ok remote range _ Hs1) as [b ->].
    rewrite !exec_bind_Val. eexists. split; [done|]. intros v _. right. right. simpl. set_solver.
  - destruct (must_wait_ok remote range s) as [b ->]; [done|]. rewrite !exec_bind_Val.
    eexists. split; [done|]. intros v Hv.
    assert (v ∈ downloaded (status s) ∨ in_ranges v (in_flight s)) as Hor; [|tauto].
    assert (v ∈ u) as [?|Hreq]%Hu; [apply Hin; unfold in_range, endz in Hv; lia|by left|].
    pose proof (inv_all_held _ _ Hs Hrun v) as Hall. unfold held in Hall. rewrite in_ranges_count.
    unfold member in Hall. repeat case_decide; intuition lia.
Qed.

(** ** Opening *)

Lemma display_no_slash n : no_char "/" (display n).
Proof. apply display_char. left. done. Qed.
Lemma display_no_hyphen n : no_char "-" (display n).
Proof. apply display_char. left. done. Qed.

(** The header of a response that carries the bytes from [a] to [u] of [n]. *)
Definition content_range (a u n : Z) : string :=
  "bytes " +:+ (display a +:+ ("-" +:+ (display u +:+ ("/" +:+ display n)))).

Lemma parse_content_range_ok a u n :
  0 ≤ u ≤ usize_max → 0 ≤ n ≤ usize_max → parse_content_range (content_range a u n) = Val (Ok (u, n)).
Proof.
  intros Hu Hn. unfold parse_content_range.
  assert (no_char "-" ("bytes " +:+ display a)) as Ha.
  { apply no_char_app. split; [by apply (bool_decide_unpack _)|apply display_no_hyphen]. }
  assert (no_char "/" ("bytes " +:+ (display a +:+ ("-" +:+ display u)))) as Hb.
  { rewrite !no_char_app. split_and!; [by apply (bool_decide_unpack _)|apply display_no_slash
      |by apply (bool_decide_unpack _)|apply display_no_slash]. }
  assert (find "-" (content_range a u n) = Some (String.length ("bytes " +:+ display a))) as ->.
  { unfold content_range. rewrite string_app_assoc. by apply find_app. }
  assert (find "/" (content_range a u n) = Some (String.length ("bytes " +:+ (display a +:+ ("-" +:+ display u))))) as ->.
  { rewrite <- (find_app "/" _ (display n) Hb). f_equal. unfold content_range.
    change (String "/" (display n)) with ("/" +:+ display n). by rewrite !string_app_assoc. }
  cbn [default from_option id].
  assert (content_range a u n = ("bytes " +:+ (display a +:+ "-")) +:+ (display u +:+ ("/" +:+ display n))) as E1.
  { unfold content_range. by rewrite !string_app_assoc. }
  rewrite E1 at 1. rewrite slice_middle; [|rewrite !string_length_app; simpl; lia..].
  rewrite exec_bind_Val, parse_display by (unfold usize_max, u64_max, u128_max in *; lia).
  assert (content_range a u n = ("bytes " +:+ (display a +:+ ("-" +:+ (display u +:+ "/")))) +:+ (display n +:+ EmptyString)) as E2.
  { unfold content_range. rewrite !string_app_assoc. by rewrite string_app_nil. }
  rewrite E2. rewrite slice_middle; [|rewrite !string_length_app; simpl; lia..].
  by rewrite exec_bind_Val, parse_display by (unfold usize_max, u64_max, u128_max in *; lia).
Qed.

Lemma content_range_text a u n : to_str_ok (content_range a u n) = true.
Proof.
  unfold content_range, to_str_ok. rewrite !all_chars_app. fold (to_str_ok (display a)) (to_str_ok (display u))
    (to_str_ok (display n)). by rewrite !to_str_ok_display.
Qed.

Section opening.
Context (request_stream : string → string → bool).
(** The client accepts the requests. *)
Hypothesis accepted : ∀ url h, request_stream url h = true.

Lemma stream_from_cdn_accepted url size :
  0 < size ≤ usize_max → stream_from_cdn request_stream url 0 size = Val true.
Proof.
  intros. unfold stream_from_cdn, range_header. rewrite uadd_Val by lia. rewrite exec_bind_Val, usub_Val by lia.
  rewrite !exec_bind_Val. by rewrite accepted.
Qed.

Lemma first_partial_spec {A} size (respond : string → option (Z * A)) urls :
  0 < size ≤ usize_max →
  ∃ found, first_partial request_stream size respond urls = Val (Ok found) ∧
  match found with
  | Some (url, r) => ∃ before after, urls = before ++ url :: after ∧ respond url = Some (PARTIAL_CONTENT, r) ∧
      Forall (λ u, ∀ x, respond u ≠ Some (PARTIAL_CONTENT, x)) before
  | None => Forall (λ u, ∀ x, respond u ≠ Some (PARTIAL_CONTENT, x)) urls
  end.
Proof.
  intros Hsize. induction urls as [|u urls IH]; cbn [first_partial]; [by exists None|].
  rewrite stream_from_cdn_accepted by done. rewrite exec_bind_Val.
  assert (∀ found, (∀ x, respond u ≠ Some (PARTIAL_CONTENT, x)) →
    match found : option (string * A) with
    | Some (url, r) => ∃ before after, urls = before ++ url :: after ∧ respond url = Some (PARTIAL_CONTENT, r) ∧
        Forall (λ u, ∀ x, respond u ≠ Some (PARTIAL_CONTENT, x)) before
    | None => Forall (λ u, ∀ x, respond u ≠ Some (PARTIAL_CONTENT, x)) urls
    end →
    match found with
    | Some (url, r) => ∃ before after, u :: urls = before ++ url :: after ∧ respond url = Some (PARTIAL_CONTENT, r) ∧
        Forall (λ u, ∀ x, respond u ≠ Some (PARTIAL_CONTENT, x)) before
    | None => Forall (λ u, ∀ x, respond u ≠ Some (PARTIAL_CONTENT, x)) (u :: urls)
    end) as Hskip.
  { intros [[url x]|] Hu; [|by constructor]. intros (b & a & -> & ? & ?). exists (u :: b), a. by split_and!; [..|constructor]. }
  destruct (respond u) as [[st r]|] eqn:E; [case_decide as Hst|].
  - subst. eexists. split; [done|]. exists [], urls. by rewrite E.
  - destruct IH as (found & -> & IH). eexists. split; [done|]. apply Hskip; [congruence|done].
  - destruct IH as (found & -> & IH). eexists. split; [done|]. by apply Hskip.
Qed.

(** Opening a stream takes the first URL that answers with a partial
    response, reads the size of the file and the end of the first part from
    its content range, and starts with exactly that part requested; without
    such a URL it fails. *)
Lemma open_content_range p respond urls bps a u n :
  0 < minimum_download_size p ≤ usize_max → 0 ≤ u < usize_max → 0 ≤ n ≤ usize_max →
  (∀ url r, respond url = Some (PARTIAL_CONTENT, r) → r = Some (content_range a u n)) →
  (Forall (λ url, ∀ r, respond url ≠ Some (PARTIAL_CONTENT, r)) urls ∧
   open request_stream p respond urls bps IoOk = Val (Err (UrlsFailed (Datatypes.length urls)))) ∨
  ∃ before url after s,
    urls = before ++ url :: after ∧ Forall (λ url, ∀ r, respond url ≠ Some (PARTIAL_CONTENT, r)) before ∧
    open request_stream p respond urls bps IoOk = Val (Ok s) ∧ cdn_url (shared s) = url ∧ file_size (shared s) = n ∧
    zlength (file s) = n ∧ receivers s = [receive_data 0 (u + 1) true] ∧
    ∀ v, v ∈ requested (status s) ↔ 0 ≤ v ≤ u.
Proof.
  intros Hp Hu Hn Hresp. unfold open.
  destruct (first_partial_spec (minimum_download_size p) respond urls Hp) as (found & -> & Hf).
  rewrite exec_bind_Val. destruct found as [[url r]|]; [right|by left].
  destruct Hf as (before & after & -> & Hr & Hb). rewrite (Hresp _ _ Hr), content_range_text.
  rewrite parse_content_range_ok, exec_bind_Val by (unfold usize_max in *; lia). unfold open_stream, initial_requested.
  rewrite uadd_Val, exec_bind_Val by lia. rewrite uadd_Val, exec_bind_Val by lia.
  destruct (add_range_new (mkRange 0 (0 + (u + 1)))) as (rs & -> & Hwf & Hrs).
  { unfold range_fits, endz. simpl. lia. }
  rewrite !exec_bind_Val. eexists before, url, after, _. split_and!; try done.
  - simpl. rewrite length_replicate. lia.
  - intros v. unfold status. simpl. rewrite Hrs. unfold elem_of, range_elem_of, in_range, endz. simpl. lia.
Qed.
End opening.

(** ** Examples *)

Fixpoint run_trace (ls : list label) (s : Sys) : exec Sys :=
  match ls with
  | [] => Val s
  | l :: ls => '(s, _) ← run (λ _ _, true) l s; run_trace ls s
  end.

Fixpoint trace_ok (remote : list Z) (ls : list label) (s : Sys) : Prop :=
  match ls with
  | [] => True
  | l :: ls => label_ok remote l s ∧
      match run (λ _ _, true) l s with Val (s, _) => trace_ok remote ls s | Panic => False end
  end.

Lemma reachable_trace remote p bps ls : ∀ s s',
  reachable (λ _ _, true) remote p bps s → trace_ok remote ls s → run_trace ls s = Val s' →
  reachable (λ _ _, true) remote p bps s'.
Proof.
  induction ls as [|l ls IH]; intros s s' Hr Hok E; simpl in *; [by injection E as <-|].
  destruct Hok as [Hl Hok]. destruct (run (λ _ _, true) l s) as [[s1 out]|] eqn:E1; [|done].
  rewrite exec_bind_Val in E. apply (IH s1); [by eapply reachable_step|done|done].
Qed.

(** A file of five bytes of which the server delivers three at first. *)
Definition example_remote : list Z := [10; 20; 30; 40; 50].
Definition example_open : exec Sys := open_stream AudioFetchParams_default "cdn" 40000 2 5.
Definition millis (n : Z) : Duration := Duration_from_millis n.
Definition task (n : nat) : list label := replicate n (LFetchTask IoOk).
(** A read waits until the first response is stored and marked. *)
Definition example_first : list label :=
  [LRead 2; LReader IoOk; LAcquire 0; LReceive 0 (AItem (Response 206) (millis 1));
   LReceive 0 (ABody (Some [10; 20; 30])); LData] ++ task 3 ++ [LReader IoOk; LReader IoOk].
(** The rest is fetched and stored while the first request ends. *)
Definition example_rest : list label :=
  [LReader IoOk; LReceive 0 (AItem StreamEnd (millis 1)); LFetchBlocking (mkRange 3 2); LController;
   LReceive 0 (ANothing (millis 1)); LReceive 0 (ANothing (millis 1)); LReceive 0 (ANothing (millis 1));
   LCommand] ++ task 3 ++
  [LAcquire 0; LReceive 0 (AItem (Response 206) (millis 2)); LReceive 0 (ABody (Some [40; 50])); LData] ++ task 1 ++
  [LData] ++ task 3.

Lemma example_config : config_ok example_remote AudioFetchParams_default 40000.
Proof. repeat split; vm_compute; congruence. Qed.

Lemma example_reachable ls s s' :
  example_open = Val s → trace_ok example_remote ls s → run_trace ls s = Val s' →
  reachable (λ _ _, true) example_remote AudioFetchParams_default 40000 s'.
Proof.
  intros E Hok Hrun. eapply reachable_trace; [|done|done]. eapply (reachable_open _ _ _ _ "cdn" 2); [|exact E].
  vm_compute. split; congruence.
Qed.

Lemma trace_ok_cons remote l ls s s' out :
  label_ok remote l s → run (λ _ _, true) l s = Val (s', out) → trace_ok remote ls s' →
  trace_ok remote (l :: ls) s.
Proof. intros Hl E Hok. split; [done|]. by rewrite E. Qed.

(** Check the labels of a concrete trace one after the other. *)
Ltac check_label :=
  match goal with
  | |- label_ok _ (LReceive _ _) _ =>
      intros ? Hr; vm_compute in Hr; injection Hr as <-;
      first [exact I|intros _; repeat split; vm_compute; congruence|repeat split; vm_compute; congruence]
  | |- label_ok _ _ _ => repeat split; vm_compute; congruence
  end.
Ltac check_trace :=
  repeat first [exact I|eapply trace_ok_cons; [check_label|vm_compute; reflexivity|]].

Definition example_sys (ls : list label) : Sys :=
  match (s ← example_open; run_trace ls s) with
  | Val s => s
  | Panic => mkSys (mkShared EmptyString 0 0 (mkStatus new new) false 0 0 0 0) [] (mkFetch None false [] AudioFetchParams_default)
               false Selecting [] [] [] false None (mkStreaming (mkFile 0) 0) Idle Free
  end.

Lemma example_first_reachable :
  reachable (λ _ _, true) example_remote AudioFetchParams_default 40000 (example_sys example_first).
Proof.
  eapply (example_reachable example_first); [vm_compute; reflexivity| |vm_compute; reflexivity].
  unfold example_first, task, replicate, app. check_trace.
Qed.

Lemma example_all_reachable :
  reachable (λ _ _, true) example_remote AudioFetchParams_default 40000 (example_sys (example_first ++ example_rest)).
Proof.
  eapply (example_reachable (example_first ++ example_rest)); [vm_compute; reflexivity| |vm_compute; reflexivity].
  unfold example_first, example_rest, task, replicate, app. check_trace.
Qed.

Lemma fetch_safety_witness :
  file (example_sys example_first) !! 1%nat = Some 20 ∧
  ∃ s' out, run (λ _ _, true) (LReader IoOk) (example_sys example_first) = Val (s', out).
Proof.
  destruct (fetch_safety _ _ _ _ _ example_config example_first_reachable) as (Hd & _ & Hrun). split.
  - destruct (Hd 1) as [_ H1]; [left; vm_compute; split; congruence|]. exact H1.
  - destruct (Hrun (LReader IoOk) I) as (s' & out & E & _). eauto.
Defined.

Lemma read_returns_file_witness :
  [10; 20] = read_at example_remote 0 2 ∧
  ∃ s', run (λ _ _, true) (LReader IoOk) (example_sys example_first) = Val (s', Some (ReadReturns 0 (Ok [10; 20]))) ∧
    position (reader s') = 2.
Proof.
  destruct (run (λ _ _, true) (LReader IoOk) (example_sys example_first)) as [[s' out]|] eqn:E; [|vm_compute in E; done].
  assert (out = Some (ReadReturns 0 (Ok [10; 20]))) as Hout by (vm_compute in E; congruence). rewrite Hout in *.
  destruct (read_returns_file _ _ _ _ _ (LReader IoOk) s' 0 (Ok [10; 20]) example_config example_first_reachable I E)
    as (_ & Hdata & Hpos & _).
  split; [exact Hdata|]. exists s'. split; [reflexivity|exact Hpos].
Defined.

(** The file of the example is complete in the end. *)
Lemma example_completed :
  completed (example_sys (example_first ++ example_rest)) = Some (mkFile 0) ∧
  file (example_sys (example_first ++ example_rest)) = example_remote.
Proof. by vm_compute. Qed.

(** *** Corner cases *)

(** When the request for the byte a reader waits for fails, the byte is no
    longer requested, and neither [read] nor anyone else asks for it again. *)
Lemma read_waits_in_vain :
  (s ← example_open;
   s ← run_trace [LRead 2; LReader IoOk; LAcquire 0; LReceive 0 (AItem (Response 503) (millis 1));
                  LReceive 0 (ANothing (millis 1)); LReceive 0 (ANothing (millis 1)); LReceive 0 (ANothing (millis 1));
                  LReader IoOk] s;
   Val (reading s, in_flight s, commands s, requested (status s)))
  = Val (ReadWait 0 2, [], [], new).
Proof. by vm_compute. Qed.

(** A range that starts behind the end of the file makes the fetch task panic,
    also when [fetch_blocking] has cut its length to zero. *)
Lemma fetch_beyond_end :
  (s ← example_open; run_trace [LFetchBlocking (mkRange 6 1); LController; LCommand; LFetchTask IoOk] s) = Panic.
Proof. by vm_compute. Qed.

(** A server that sends more than the range it was asked for makes the request
    panic. *)
Lemma delivery_beyond_range :
  (s ← example_open;
   run_trace [LAcquire 0; LReceive 0 (AItem (Response 206) (millis 1)); LReceive 0 (ABody (Some [10; 20; 30; 40]));
              LReceive 0 (AItem StreamEnd (millis 1)); LReceive 0 (ANothing (millis 1));
              LReceive 0 (ANothing (millis 1))] s) = Panic.
Proof. by vm_compute. Qed.

(** A write that fails ends the fetch task; a read of what was stored before
    still succeeds, and what is missing cannot be asked for any more. *)
Lemma write_failure_ends_task :
  (s ← example_open;
   s ← run_trace ([LAcquire 0; LReceive 0 (AItem (Response 206) (millis 1)); LReceive 0 (ABody (Some [10; 20]));
                   LData] ++ task 3 ++
                  [LReceive 0 (AItem (Response 206) (millis 1)); LReceive 0 (ABody (Some [30])); LData;
                   LFetchTask (IoFails 0)]) s;
   '(s, r1) ← run (λ _ _, true) (LRead 5) s;
   '(s, r2) ← run (λ _ _, true) (LReader IoOk) s;
   Val (running s, file s, r1, r2))
  = Val (false, [10; 20; 0; 0; 0], None, Some (ReadReturns 0 (Err BrokenPipe))).
Proof. by vm_compute. Qed.

(** A change to random access while a seek is under way is undone by it. *)
Lemma seek_undoes_mode :
  (s ← example_open;
   s ← run_trace ([LSetMode true; LSeek (SeekStart 4)] ++ replicate 5 (LReader IoOk)) s;
   s' ← run_trace [LSetMode false] s; s'' ← run_trace [LReader IoOk] s';
   Val (is_download_streaming s', reading s', is_download_streaming s''))
  = Val (false, SeekResume, true).
Proof. by vm_compute. Qed.

(** A content range without a slash makes [open] panic. *)
Lemma content_range_panics : parse_content_range "bytes 0-5" = Panic.
Proof. by vm_compute. Qed.
