(* ===== verification/AudioReader.v ===== *)
(** * Readers over the audio file: [decrypt.rs], [Subfile] of [player.rs]

    A decoder reads through a stack of wrappers: the file, its decryption, and
    the part of it behind the header.  [ReadSeek] is the interface they share
    (Rust's [Read + Seek]), [ReadSeekLaws] what each promises: it behaves like
    a cursor in some fixed content, and panics at most on a seek to outside
    it.  Each wrapper meets the promise when what
    it wraps does; the content is decrypted, or cut. *)

From S2P Require Import Prelude StdTypes RangeSet AudioFetch.

Local Open Scope Z_scope.

(** ** The interface *)

Class ReadSeek (T : Type) := {
  io_read : Z → T → exec (T * result (list Z) IoError);
  io_seek : SeekFrom → T → exec (T * result Z IoError);
}.

(** The position a seek asks for. *)
Definition target (content : list Z) (pos : Z) (p : SeekFrom) : Z :=
  match p with
  | SeekStart p => p
  | SeekEnd p => zlength content + p
  | SeekCurrent p => pos + p
  end.

Class ReadSeekLaws (T : Type) `{ReadSeek T} := {
  rs_valid : T → Prop;
  rs_content : T → list Z;
  rs_pos : T → Z;
  rs_pos_nonneg t : rs_valid t → 0 ≤ rs_pos t;
  rs_small t : rs_valid t → zlength (rs_content t) ≤ 2 ^ 61;
  law_read n t : rs_valid t → 0 ≤ n →
    ∃ t' r, io_read n t = Val (t', r) ∧ rs_valid t' ∧ rs_content t' = rs_content t ∧
      match r with
      | Ok data => data = read_at (rs_content t) (rs_pos t) (zlength data) ∧ zlength data ≤ n ∧
                   rs_pos t' = rs_pos t + zlength data ∧
                   (data = [] → n = 0 ∨ zlength (rs_content t) ≤ rs_pos t)
      | Err _ => rs_pos t' = rs_pos t
      end;
  law_seek p t : rs_valid t →
    match io_seek p t with
    | Val (t', r) =>
        rs_valid t' ∧ rs_content t' = rs_content t ∧
        match r with
        | Ok q => q = target (rs_content t) (rs_pos t) p ∧ rs_pos t' = q
        | Err _ => rs_pos t' = rs_pos t
        end
    | Panic => ¬ 0 ≤ target (rs_content t) (rs_pos t) p ≤ zlength (rs_content t)
    end;
}.

(** ** A file on disk *)

Record DiskFile := mkDiskFile { df_content : list Z; df_file : File }.

#[export] Instance DiskFile_io : ReadSeek DiskFile := {|
  io_read n t :=
    let data := read_at (df_content t) (cursor (df_file t)) n in
    Val (mkDiskFile (df_content t) (mkFile (cursor (df_file t) + zlength data)), Ok data);
  io_seek p t :=
    match file_seek (df_content t) p (df_file t) with
    | Some (q, f) => Val (mkDiskFile (df_content t) f, Ok q)
    | None => Val (t, Err InvalidInput)
    end;
|}.

(** ** Decryption *)

(** The cipher of the [ctr] crate. *)
Class StreamCipher (C : Type) := {
  new_from_slices : list Z → list Z → option C;
  apply_keystream : list Z → C → list Z * C;
  cipher_seek : Z → C → C;
}.

(** What it documents: data is combined by exclusive or with a key stream that
    depends on the key only, from the current position on. *)
Class StreamCipherLaws (C : Type) `{StreamCipher C} := {
  keystream : C → Z → Z;
  cipher_pos : C → Z;
  law_new key iv c : new_from_slices key iv = Some c → cipher_pos c = 0;
  law_apply data c :
    let '(data', c') := apply_keystream data c in
    data' = imap (λ i b, Z.lxor b (keystream c (cipher_pos c + Z.of_nat i))) data ∧
    cipher_pos c' = cipher_pos c + zlength data ∧ keystream c' = keystream c;
  law_cipher_seek p c : cipher_pos (cipher_seek p c) = p ∧ keystream (cipher_seek p c) = keystream c;
}.

Definition AUDIO_AESIV : list Z :=
  [0x72; 0xe0; 0x67; 0xfb; 0xdd; 0xcb; 0xcf; 0x77; 0xeb; 0xe8; 0xbc; 0x64; 0x3f; 0x63; 0x0d; 0x93].

Section decrypt.
Context {C : Type} `{StreamCipher C} {T : Type} `{ReadSeek T}.

(** A [None] cipher passes files unaltered. *)
Record AudioDecrypt := mkDecrypt { cipher : option C; reader : T }.

Definition AudioDecrypt_new (key : option (list Z)) (reader : T) : AudioDecrypt :=
  mkDecrypt (match key with Some key => new_from_slices key AUDIO_AESIV | None => None end) reader.

Definition decrypt_read (n : Z) (self : AudioDecrypt) : exec (AudioDecrypt * result (list Z) IoError) :=
  '(t, r) ← io_read n (reader self);
  match r with
  | Err e => Val (mkDecrypt (cipher self) t, Err e)
  | Ok output =>
      match cipher self with
      | Some c => let '(output, c) := apply_keystream output c in Val (mkDecrypt (Some c) t, Ok output)
      | None => Val (mkDecrypt None t, Ok output)
      end
  end.

Definition decrypt_seek (pos : SeekFrom) (self : AudioDecrypt) : exec (AudioDecrypt * result Z IoError) :=
  '(t, r) ← io_seek pos (reader self);
  match r with
  | Err e => Val (mkDecrypt (cipher self) t, Err e)
  | Ok newpos => Val (mkDecrypt (cipher_seek newpos <$> cipher self) t, Ok newpos)
  end.

#[export] Instance AudioDecrypt_io : ReadSeek AudioDecrypt := {| io_read := decrypt_read; io_seek := decrypt_seek |}.
End decrypt.
Arguments AudioDecrypt : clear implicits.

(** ** A part of a file *)

Section subfile.
Context {T : Type} `{ReadSeek T}.

Record Subfile := mkSubfile { stream : T; sf_offset : Z; sf_length : Z }.

Definition Subfile_new (stream : T) (offset length : Z) : exec (result Subfile IoError) :=
  '(t, r) ← io_seek (SeekStart offset) stream;
  Val (match r with Ok _ => Ok (mkSubfile t offset length) | Err e => Err e end).

Definition subfile_read (n : Z) (self : Subfile) : exec (Subfile * result (list Z) IoError) :=
  '(t, r) ← io_read n (stream self); Val (mkSubfile t (sf_offset self) (sf_length self), r).

Definition subfile_seek (pos : SeekFrom) (self : Subfile) : exec (Subfile * result Z IoError) :=
  pos ← (match pos with
         | SeekStart p => p ← uadd u64_max p (sf_offset self); Val (Ok (SeekStart p))
         | SeekEnd p =>
             d ← i64_add (as_i64 (sf_length self)) (- p);
             Val (if decide (d < as_i64 (sf_offset self)) then Err InvalidInput else Ok (SeekEnd p))
         | SeekCurrent _ => Val (Ok pos)
         end);
  match pos with
  | Err e => Val (self, Err e)
  | Ok pos =>
      '(t, r) ← io_seek pos (stream self);
      match r with
      | Err e => Val (mkSubfile t (sf_offset self) (sf_length self), Err e)
      | Ok newpos =>
          q ← usub newpos (sf_offset self);
          Val (mkSubfile t (sf_offset self) (sf_length self), Ok q)
      end
  end.

#[export] Instance Subfile_io : ReadSeek Subfile := {| io_read := subfile_read; io_seek := subfile_seek |}.

Definition byte_len (self : Subfile) : option Z := Some (sf_length self).
End subfile.
Arguments Subfile : clear implicits.

(** ** The laws *)

Lemma length_read_at' (c : list Z) o n :
  zlength (read_at c o n) = Z.max 0 (Z.min n (zlength c - Z.max 0 o)) ∨ n < 0.
Proof. unfold read_at. rewrite length_take, length_drop. lia. Qed.

Lemma read_at_length (c : list Z) o n : read_at c o (zlength (read_at c o n)) = read_at c o n.
Proof.
  unfold read_at. rewrite Nat2Z.id, length_take, length_drop. rewrite Nat.min_comm.
  destruct (decide (Datatypes.length c - Z.to_nat o ≤ Z.to_nat n)%nat) as [Hl|Hl].
  - rewrite Nat.min_l by lia. rewrite !take_ge by (rewrite length_drop; lia). done.
  - by rewrite Nat.min_r by lia.
Qed.

#[export] Program Instance DiskFile_laws : ReadSeekLaws DiskFile := {|
  rs_valid t := 0 ≤ cursor (df_file t) ∧ zlength (df_content t) ≤ 2 ^ 61;
  rs_content := df_content;
  rs_pos t := cursor (df_file t);
|}.
Next Obligation. by intros t []. Qed.
Next Obligation. by intros t []. Qed.
Next Obligation.
  intros n t [Hc Hs] Hn. eexists _, _. split; [done|]. split; [simpl; lia|]. split; [done|].
  rewrite read_at_length. split_and!; [done| |done|].
  - destruct (length_read_at' (df_content t) (cursor (df_file t)) n); lia.
  - intros Hnil. pose proof (length_read_at' (df_content t) (cursor (df_file t)) n) as Hl.
    rewrite Hnil in Hl. simpl in Hl. lia.
Qed.
Next Obligation.
  intros p t [Hc Hs]. simpl in *. unfold file_seek.
  assert (match p with SeekStart p => p | SeekEnd p => zlength (df_content t) + p
          | SeekCurrent p => cursor (df_file t) + p end = target (df_content t) (cursor (df_file t)) p) as -> by done.
  case_decide; simpl; split_and!; lia || done.
Qed.

Section decrypt_laws.
Context {C : Type} `{StreamCipherLaws C} {T : Type} `{ReadSeekLaws T}.

(** The content behind the decryption. *)
Definition plain (c : option C) (content : list Z) : list Z :=
  match c with
  | Some c => imap (λ i b, Z.lxor b (keystream c (Z.of_nat i))) content
  | None => content
  end.

Lemma length_plain c content : zlength (plain c content) = zlength content.
Proof. destruct c; simpl; [|done]. by rewrite length_imap. Qed.

Lemma plain_read_at c content o k :
  0 ≤ o →
  read_at (plain (Some c) content) o k =
  imap (λ i b, Z.lxor b (keystream c (o + Z.of_nat i))) (read_at content o k).
Proof.
  intros Ho. unfold read_at. apply list_eq. intros i. rewrite list_lookup_imap.
  destruct (decide (i < Z.to_nat k)%nat).
  - rewrite !lookup_take_lt, !lookup_drop by done. simpl. rewrite list_lookup_imap.
    destruct (content !! _); simpl; [|done]. do 3 f_equal. lia.
  - by rewrite !lookup_take_ge by lia.
Qed.

Lemma plain_same_key c c' content : keystream c' = keystream c → plain (Some c') content = plain (Some c) content.
Proof. intros E. simpl. by rewrite E. Qed.

#[export] Program Instance AudioDecrypt_laws : ReadSeekLaws (AudioDecrypt C T) := {|
  rs_valid t := rs_valid (reader t) ∧ match cipher t with Some c => cipher_pos c = rs_pos (reader t) | None => True end;
  rs_content t := plain (cipher t) (rs_content (reader t));
  rs_pos t := rs_pos (reader t);
|}.
Next Obligation. intros t [? _]. by apply rs_pos_nonneg. Qed.
Next Obligation. intros t [? _]. rewrite length_plain. by apply rs_small. Qed.
Next Obligation.
  intros n t [Hv Hc] Hn. cbn [io_read AudioDecrypt_io]. unfold decrypt_read.
  destruct (law_read n (reader t) Hv Hn) as (t' & r & -> & Hv' & Hcont & Hr). rewrite exec_bind_Val.
  destruct r as [data|e].
  2:{ eexists _, _. split; [done|]. simpl. rewrite Hcont. split_and!; try done. by rewrite Hr. }
  destruct Hr as (Hdata & Hlen & Hpos & Hnil). pose proof (rs_pos_nonneg _ Hv) as Hp0.
  destruct (cipher t) as [c|] eqn:Ec.
  2:{ eexists _, _. split; [done|]. simpl. by rewrite Hcont. }
  pose proof (law_apply data c) as Ha. destruct (apply_keystream data c) as [data' c'].
  destruct Ha as (Hd & Hcp & Hk).
  assert (zlength data' = zlength data) as Hl by (rewrite Hd; by rewrite length_imap).
  eexists _, _. split; [done|]. cbn [reader cipher]. rewrite Hcont, (plain_same_key _ _ _ Hk).
  rewrite Hl, length_plain. split_and!; try done.
  - rewrite Hcp, Hpos, Hc. done.
  - rewrite plain_read_at, <- Hdata by done. rewrite Hd, Hc. done.
  - intros ->. apply Hnil. destruct data; [done|]. simpl in Hl. lia.
Qed.
Next Obligation.
  intros p t [Hv Hc]. cbn [io_seek AudioDecrypt_io]. unfold decrypt_seek.
  assert (target (plain (cipher t) (rs_content (reader t))) (rs_pos (reader t)) p =
          target (rs_content (reader t)) (rs_pos (reader t)) p) as Htgt.
  { unfold target. by rewrite length_plain. }
  rewrite Htgt, length_plain. pose proof (law_seek p (reader t) Hv) as Hl.
  destruct (io_seek p (reader t)) as [[t' [q|e]]|]; cbn [mbind exec_bind reader cipher]; [| |done].
  - destruct Hl as (Hv' & -> & Hq & Hpos). destruct (cipher t) as [c|]; simpl in *; [|done].
    destruct (law_cipher_seek q c) as [Hcp Hk]. rewrite Hk. split_and!; try done. congruence.
  - destruct Hl as (Hv' & -> & Hr). split_and!; try done. by rewrite Hr.
Qed.

Lemma AudioDecrypt_new_valid key t :
  rs_valid t → rs_pos t = 0 → rs_valid (AudioDecrypt_new (C:=C) key t).
Proof.
  intros Hv Hp. split; [done|]. simpl. destruct key as [key|]; [|done].
  destruct (new_from_slices key AUDIO_AESIV) as [c|] eqn:E; [|done]. rewrite Hp. by eapply law_new.
Qed.
End decrypt_laws.

Section subfile_laws.
Context {T : Type} `{ReadSeekLaws T}.

Lemma read_at_drop content off o k :
  0 ≤ off → 0 ≤ o → read_at (drop (Z.to_nat off) content) o k = read_at content (off + o) k.
Proof. intros. unfold read_at. rewrite drop_drop. do 2 f_equal. lia. Qed.

#[export] Program Instance Subfile_laws : ReadSeekLaws (Subfile T) := {|
  rs_valid t := rs_valid (stream t) ∧ 0 ≤ sf_offset t ≤ rs_pos (stream t) ∧
    sf_offset t ≤ sf_length t ∧ sf_length t = zlength (rs_content (stream t));
  rs_content t := drop (Z.to_nat (sf_offset t)) (rs_content (stream t));
  rs_pos t := rs_pos (stream t) - sf_offset t;
|}.
Next Obligation. intros t (Hv & ? & _). lia. Qed.
Next Obligation. intros t (Hv & ? & _). pose proof (rs_small _ Hv). rewrite length_drop. lia. Qed.
Next Obligation.
  intros n t (Hv & Ho & Hl & Hlen) Hn. cbn [io_read Subfile_io]. unfold subfile_read.
  destruct (law_read n (stream t) Hv Hn) as (t' & r & -> & Hv' & Hcont & Hr). rewrite exec_bind_Val.
  eexists _, _. split; [done|]. cbn [stream sf_offset sf_length]. rewrite Hcont.
  destruct r as [data|e].
  - destruct Hr as (Hdata & Hdl & Hpos & Hnil). split_and!; try done; try lia.
    + rewrite read_at_drop by lia. by replace (sf_offset t + (rs_pos (stream t) - sf_offset t)) with (rs_pos (stream t)) by lia.
    + intros Hd. rewrite length_drop. destruct (Hnil Hd); lia.
  - split_and!; try done; lia.
Qed.
Next Obligation.
  intros p t (Hv & Ho & Hl & Hlen). cbn [io_seek Subfile_io]. unfold subfile_seek.
  pose proof (rs_small _ Hv) as Hsm. rewrite length_drop.
  set (tgt := target (drop (Z.to_nat (sf_offset t)) (rs_content (stream t))) (rs_pos (stream t) - sf_offset t) p) in *.
  assert (match (match p with
     | SeekStart p => p ← uadd u64_max p (sf_offset t); Val (Ok (SeekStart p))
     | SeekEnd p => d ← i64_add (as_i64 (sf_length t)) (- p);
         Val (if decide (d < as_i64 (sf_offset t)) then Err InvalidInput else Ok (SeekEnd p))
     | SeekCurrent _ => Val (Ok p)
     end) with
     | Val (Ok p') => target (rs_content (stream t)) (rs_pos (stream t)) p' = tgt + sf_offset t
     | Val (Err _) => True
     | Panic => ¬ 0 ≤ tgt ≤ zlength (rs_content (stream t)) - sf_offset t
     end) as Hp.
  { unfold target in tgt. destruct p as [q|q|q]; unfold tgt in *; clear tgt.
    - unfold uadd, u64_max. case_decide; simpl; lia.
    - rewrite length_drop. unfold as_i64, i64_add. rewrite (decide_True (P:=sf_length t < 2 ^ 63)) by lia.
      rewrite (decide_True (P:=sf_offset t < 2 ^ 63)) by lia. case_decide; simpl; [|lia]. case_decide; [done|]. simpl. lia.
    - simpl. lia. }
  destruct (match p with SeekStart _ => _ | SeekEnd _ => _ | SeekCurrent _ => _ end) as [[p'|e]|]; cbn [mbind exec_bind]; cycle 1.
  { split_and!; try done; simpl; lia. }
  { lia. }
  pose proof (law_seek p' (stream t) Hv) as Hls. rewrite Hp in Hls.
  destruct (io_seek p' (stream t)) as [[t' [q|e]]|]; cbn [mbind exec_bind]; [| |lia].
  - destruct Hls as (Hv' & Hcont & -> & Hpos). unfold usub. case_decide; simpl; [|lia].
    rewrite Hcont. split_and!; try done; lia.
  - destruct Hls as (Hv' & Hcont & Hpos). cbn [stream sf_offset sf_length]. rewrite Hcont. split_and!; try done; lia.
Qed.

(** Positions before the part are not refused. *)
Lemma subfile_seek_before p (t : Subfile T) s' q :
  rs_valid t → target (rs_content t) (rs_pos t) p < 0 → (∀ start, p ≠ SeekStart start) →
  io_seek p (stream t) = Val (s', Ok q) → io_seek p t = Panic.
Proof.
  intros (Hv & Ho & Hl & Hlen) Ht Hp Es. cbn [io_seek Subfile_io]. unfold subfile_seek.
  pose proof (law_seek p (stream t) Hv) as Hls. rewrite Es in Hls. destruct Hls as (_ & _ & -> & _).
  cbn [rs_content rs_pos Subfile_laws] in Ht. pose proof (rs_small _ Hv) as Hsm.
  destruct p as [start|d|d]; [by destruct (Hp start)|..]; cbn [target] in *.
  - rewrite length_drop in Ht. unfold as_i64, i64_add. rewrite (decide_True (P:=sf_length t < 2 ^ 63)) by lia.
    rewrite (decide_True (P:=sf_offset t < 2 ^ 63)) by lia. case_decide; [|done]. cbn [mbind exec_bind].
    rewrite decide_False by lia. rewrite Es. cbn [mbind exec_bind]. unfold usub. by rewrite decide_False by lia.
  - rewrite exec_bind_Val, Es. cbn [mbind exec_bind]. unfold usub. by rewrite decide_False by lia.
Qed.

Lemma Subfile_new_valid t offset :
  rs_valid t → 0 ≤ offset ≤ zlength (rs_content t) →
  ∃ r, Subfile_new t offset (zlength (rs_content t)) = Val r ∧
    match r with
    | Ok sub => rs_valid sub ∧ rs_pos sub = 0 ∧ rs_content sub = drop (Z.to_nat offset) (rs_content t)
    | Err _ => True
    end.
Proof.
  intros Hv Ho. unfold Subfile_new. pose proof (law_seek (SeekStart offset) t Hv) as Hl.
  destruct (io_seek (SeekStart offset) t) as [[t' [q|e]]|]; cbn [mbind exec_bind]; [|by eexists|simpl in Hl; lia].
  eexists. split; [done|]. destruct Hl as (Hv' & Hcont & Hq & Hpos). simpl in *. rewrite Hcont. split_and!; try done; lia.
Qed.
End subfile_laws.

(** ** What the decoder sees *)

(** A session of reads and seeks, with the position that follows from what
    they returned; an operation that panics ends it. *)
Inductive session {T} `{ReadSeek T} (t0 : T) : Z → T → Prop :=
| session_start : session t0 0 t0
| session_read pos t n t' r :
    session t0 pos t → 0 ≤ n → io_read n t = Val (t', r) →
    session t0 (match r with Ok data => pos + zlength data | Err _ => pos end) t'
| session_seek pos t p t' r :
    session t0 pos t → io_seek p t = Val (t', r) →
    session t0 (match r with Ok q => q | Err _ => pos end) t'.

Lemma session_laws {T} `{ReadSeekLaws T} t0 pos t :
  rs_valid t0 → rs_pos t0 = 0 → session t0 pos t →
  rs_valid t ∧ rs_content t = rs_content t0 ∧ rs_pos t = pos.
Proof.
  intros Hv Hp. induction 1 as [|pos t n t' r _ IH Hn E|pos t p t' r _ IH E]; [done|..];
    destruct IH as (IHv & IHc & <-).
  - destruct (law_read n t IHv Hn) as (t1 & r1 & E1 & Hv1 & Hc1 & Hr).
    assert (t1 = t' ∧ r1 = r) as [-> ->] by (split; congruence).
    split_and!; [done|congruence|]. destruct r; [by destruct Hr as (_ & _ & -> & _)|done].
  - pose proof (law_seek p t IHv) as Hl. rewrite E in Hl. destruct Hl as (Hv1 & Hc1 & Hr).
    split_and!; [done|congruence|]. destruct r; [by destruct Hr as [_ ->]|done].
Qed.

(** What a track is played from: the part behind [offset] of the decrypted
    file. *)
Definition open_track {C} `{StreamCipher C} {T} `{ReadSeek T} (key : option (list Z)) (file : T) (offset length : Z)
    : exec (result (Subfile (AudioDecrypt C T)) IoError) :=
  Subfile_new (AudioDecrypt_new (C:=C) key file) offset length.

(** C33: through any reads, and any seeks that return, the decoder sees the
    decrypted bytes of the file from [offset] on: no read panics, and it returns
    the bytes at the current position (none only at the end); a seek goes where
    it was asked to or is an error.  A seek panics only when its target is
    outside that content, and does when the target is in the file but before
    [offset] (relative to the end or to the position). *)
Theorem track_is_plain {C} `{StreamCipherLaws C} {T} `{ReadSeekLaws T} key (f : T) offset sub pos t :
  rs_valid f → rs_pos f = 0 → 0 ≤ offset ≤ zlength (rs_content f) →
  open_track (C:=C) key f offset (zlength (rs_content f)) = Val (Ok sub) →
  let content := drop (Z.to_nat offset) (plain (cipher (AudioDecrypt_new (C:=C) key f)) (rs_content f)) in
  session sub pos t →
  (∀ n, 0 ≤ n → ∃ t' r, io_read n t = Val (t', r) ∧
     match r with
     | Ok data => data = read_at content pos (zlength data) ∧ zlength data ≤ n ∧
                  (data = [] → n = 0 ∨ zlength content ≤ pos)
     | Err _ => True
     end) ∧
  (∀ p, match io_seek p t with
        | Val (_, Ok q) => q = target content pos p ∧ 0 ≤ q
        | Val (_, Err _) => True
        | Panic => ¬ 0 ≤ target content pos p ≤ zlength content
        end) ∧
  (∀ p s' q, target content pos p < 0 → (∀ start, p ≠ SeekStart start) → io_seek p (stream t) = Val (s', Ok q) →
     io_seek p t = Panic).
Proof.
  intros Hv Hp Ho E content Hs. unfold open_track in E.
  pose proof (AudioDecrypt_new_valid (C:=C) key f Hv Hp) as Hd.
  assert (zlength (rs_content (AudioDecrypt_new (C:=C) key f)) = zlength (rs_content f)) as Hlen by apply length_plain.
  destruct (Subfile_new_valid (AudioDecrypt_new (C:=C) key f) offset Hd) as (r & Er & Hr); [by rewrite Hlen|].
  rewrite Hlen, E in Er. injection Er as <-. destruct Hr as (Hsv & Hsp & Hsc).
  change (rs_content sub = content) in Hsc. rewrite <- Hsc in *.
  destruct (session_laws sub pos t Hsv Hsp Hs) as (Htv & Htc & <-). rewrite <- Htc. split_and!.
  - intros n Hn. destruct (law_read n t Htv Hn) as (t' & r & Et & _ & _ & Hr). exists t', r. split; [done|].
    destruct r; [|done]. tauto.
  - intros q. pose proof (law_seek q t Htv) as Hl. destruct (io_seek q t) as [[t' [q'|e]]|]; [|done|done].
    destruct Hl as (Hv' & _ & Hq & Hpos). split; [done|]. rewrite <- Hpos. by apply rs_pos_nonneg.
  - intros p s' q. by apply subfile_seek_before.
Qed.

(** *** An example cipher: the key stream is the position. *)

#[export] Instance counter_cipher : StreamCipher Z := {|
  new_from_slices _ _ := Some 0;
  apply_keystream data c := (imap (λ i b, Z.lxor b (c + Z.of_nat i)) data, c + zlength data);
  cipher_seek p _ := p;
|}.
#[export] Program Instance counter_cipher_laws : StreamCipherLaws Z := {|
  keystream _ p := p;
  cipher_pos c := c;
|}.
Next Obligation. by intros _ _ c [= <-]. Qed.
Next Obligation. done. Qed.
Next Obligation. done. Qed.

Lemma track_is_plain_witness :
  ∃ sub t' r, open_track (C:=Z) (Some []) (mkDiskFile [7; 7; 7; 7; 7] (mkFile 0)) 2 5 = Val (Ok sub) ∧
    io_read 2 sub = Val (t', r) ∧ r = Ok [5; 4] ∧
    match r with Ok data => data = read_at [5; 4; 3] 0 (zlength data) | Err _ => True end.
Proof.
  eexists (mkSubfile (mkDecrypt (Some 2) (mkDiskFile [7; 7; 7; 7; 7] (mkFile 2))) 2 5), _, _.
  split; [reflexivity|]. split; [reflexivity|]. split; [reflexivity|].
  destruct (track_is_plain (C:=Z) (Some []) (mkDiskFile [7; 7; 7; 7; 7] (mkFile 0)) 2
    (mkSubfile (mkDecrypt (Some 2) (mkDiskFile [7; 7; 7; 7; 7] (mkFile 2))) 2 5) 0
    (mkSubfile (mkDecrypt (Some 2) (mkDiskFile [7; 7; 7; 7; 7] (mkFile 2))) 2 5)) as [H _].
  - vm_compute. split; congruence.
  - reflexivity.
  - vm_compute. split; congruence.
  - reflexivity.
  - constructor.
  - destruct (H 2) as (t' & r & E & Hr); [lia|]. vm_compute in E. injection E as <- <-. exact (proj1 Hr).
Defined.

(** *** Corner cases *)

(** The check of a seek from the end has the wrong sign, so that a position
    before the part makes the subtraction underflow instead of an error. *)
Lemma subfile_seek_underflow :
  subfile_seek (SeekEnd (-4)) (mkSubfile (mkDiskFile [7; 7; 7; 7; 7] (mkFile 2)) 2 5) = Panic.
Proof. reflexivity. Qed.

(** The reported length is that of the whole file. *)
Lemma byte_len_whole : byte_len (mkSubfile (mkDiskFile [7; 7; 7; 7; 7] (mkFile 2)) 2 5) = Some 5.
Proof. reflexivity. Qed.
