(* ===== verification/Wire.v ===== *)
(** * Packets and byte buffers

    The buffer operations of the [bytes] and [byteorder] crates the packet
    handlers use (taking a prefix and reading a number panic when the buffer is
    too short), the packet types of [core/src/packet.rs], the sequence numbers of
    [core/src/util.rs], the queue of packets to send, and UTF-8. *)

From S2P Require Import Prelude Digits.

Local Open Scope Z_scope.

(** ** Buffers *)

(** [Bytes::split_to]: the first [n] bytes and the rest. *)
Definition split_to (n : nat) (data : list Z) : exec (list Z * list Z) :=
  if decide (n ≤ length data)%nat then Val (take n data, drop n data) else Panic.

(** [BigEndian::read_u16] and the like read the first bytes of a slice. *)
Definition read_be (k : nat) (data : list Z) : exec Z :=
  if decide (k ≤ length data)%nat then Val (from_be_bytes (take k data)) else Panic.

(** Take a big-endian number off the front. *)
Definition take_be (k : nat) (data : list Z) : exec (Z * list Z) :=
  '(head, data) ← split_to k data; n ← read_be k head; Val (n, data).

(** [write_u16::<BigEndian>] of a cast value. *)
Definition put_u16 (n : Z) : list Z := to_be_bytes 2 (wrapu 16 n).
Definition put_u32 (n : Z) : list Z := to_be_bytes 4 n.
Definition put_u64 (n : Z) : list Z := to_be_bytes 8 n.

Lemma split_to_app a b n : n = length a → split_to n (a ++ b) = Val (a, b).
Proof.
  intros ->. unfold split_to. rewrite decide_True by (rewrite length_app; lia).
  by rewrite take_app_length, drop_app_length.
Qed.

Lemma take_be_app (k : nat) n b :
  0 ≤ n < 256 ^ Z.of_nat k → take_be k (to_be_bytes k n ++ b) = Val (n, b).
Proof.
  intros Hn. unfold take_be. rewrite split_to_app by by rewrite length_to_be_bytes.
  rewrite exec_bind_Val. unfold read_be. rewrite length_to_be_bytes, decide_True by lia.
  rewrite take_ge by by rewrite length_to_be_bytes. by rewrite exec_bind_Val, from_to_be_bytes.
Qed.

Lemma length_put_u16 n : length (put_u16 n) = 2%nat.
Proof. apply length_to_be_bytes. Qed.

Lemma read_put_u16 n : 0 ≤ n ≤ 65535 → read_be 2 (put_u16 n) = Val n.
Proof.
  intros Hn. unfold read_be. rewrite length_put_u16, decide_True by lia.
  rewrite take_ge by by rewrite length_put_u16. unfold put_u16, wrapu. rewrite Z.mod_small by lia.
  by rewrite from_to_be_bytes by (simpl; lia).
Qed.

Lemma take_put_u16 n b : 0 ≤ n ≤ 65535 → take_be 2 (put_u16 n ++ b) = Val (n, b).
Proof.
  intros Hn. unfold put_u16, wrapu. rewrite Z.mod_small by lia. apply take_be_app. simpl. lia.
Qed.

(** ** Packet types *)

Inductive PacketType :=
| SecretBlock | Ping | StreamChunk | StreamChunkRes | ChannelError_ | ChannelAbort | RequestKey | AesKey
| AesKeyError | Image | CountryCode | Pong | PongAck | Pause | ProductInfo | LegacyWelcome | LicenseVersion
| Login | APWelcome | AuthFailure | MercuryReq | MercurySub | MercuryUnsub | MercuryEvent | TrackEndedTime
| UnknownDataAllZeros | PreferredLocale | Unknown0x0f | Unknown0x10 | Unknown0x4f | Unknown0xb6.

#[export] Instance PacketType_eq_dec : EqDecision PacketType.
Proof. solve_decision. Defined.

Definition packet_code (p : PacketType) : Z :=
  match p with
  | SecretBlock => 0x02 | Ping => 0x04 | StreamChunk => 0x08 | StreamChunkRes => 0x09
  | ChannelError_ => 0x0a | ChannelAbort => 0x0b | RequestKey => 0x0c | AesKey => 0x0d
  | AesKeyError => 0x0e | Image => 0x19 | CountryCode => 0x1b | Pong => 0x49 | PongAck => 0x4a
  | Pause => 0x4b | ProductInfo => 0x50 | LegacyWelcome => 0x69 | LicenseVersion => 0x76
  | Login => 0xab | APWelcome => 0xac | AuthFailure => 0xad | MercuryReq => 0xb2
  | MercurySub => 0xb3 | MercuryUnsub => 0xb4 | MercuryEvent => 0xb5 | TrackEndedTime => 0x82
  | UnknownDataAllZeros => 0x1f | PreferredLocale => 0x74 | Unknown0x0f => 0x0f
  | Unknown0x10 => 0x10 | Unknown0x4f => 0x4f | Unknown0xb6 => 0xb6
  end.

Definition all_packet_types : list PacketType :=
  [SecretBlock; Ping; StreamChunk; StreamChunkRes; ChannelError_; ChannelAbort; RequestKey; AesKey;
   AesKeyError; Image; CountryCode; Pong; PongAck; Pause; ProductInfo; LegacyWelcome; LicenseVersion;
   Login; APWelcome; AuthFailure; MercuryReq; MercurySub; MercuryUnsub; MercuryEvent; TrackEndedTime;
   UnknownDataAllZeros; PreferredLocale; Unknown0x0f; Unknown0x10; Unknown0x4f; Unknown0xb6].

(** The derived [FromPrimitive::from_u8]. *)
Definition packet_from_u8 (n : Z) : option PacketType :=
  snd <$> list_find (λ p, packet_code p = n) all_packet_types.

Lemma packet_from_code p : packet_from_u8 (packet_code p) = Some p.
Proof. by destruct p. Qed.

Lemma packet_from_u8_Some n p : packet_from_u8 n = Some p → packet_code p = n.
Proof.
  unfold packet_from_u8. intros (ip & H & ->)%fmap_Some. destruct ip as [i q].
  by apply list_find_Some in H as (_ & ? & _).
Qed.

(** ** Sequence numbers *)

(** [SeqGenerator::get] on a [w]-bit number: the current value, and the next. *)
Definition seq_get (w : Z) (value : Z) : Z * Z := (value, wrapu w (value + 1)).

(** ** Sending *)

(** The queue to the connection: whether there is one and its receiving end is
    still there, and what was put in it. *)
Record Conn := mkConn { tx_connection : option bool; sent : list (Z * list Z) }.

#[export] Instance settable_Conn : Settable Conn := λ r, mkConn (tx_connection r) (sent r).

Inductive SendError := NotConnected | ConnectionClosed.

(** [Session::send_packet]. *)
Definition send_packet (cmd : PacketType) (data : list Z) (conn : Conn) : Conn * result unit SendError :=
  match tx_connection conn with
  | Some true => (conn <| sent ::= (λ l, l ++ [(packet_code cmd, data)]) |>, Ok ())
  | Some false => (conn, Err ConnectionClosed)
  | None => (conn, Err NotConnected)
  end.

(** ** Text in packets *)

(** The well-formed byte sequences of [std::str::from_utf8]. *)
Definition is_cont (b : Z) : bool := bool_decide (0x80 ≤ b ≤ 0xBF).

Fixpoint utf8_ok (l : list Z) : bool :=
  match l with
  | [] => true
  | b0 :: l =>
      if decide (b0 < 0x80) then utf8_ok l
      else match l with
      | [] => false
      | b1 :: l =>
          if decide (0xC2 ≤ b0 ≤ 0xDF) then is_cont b1 && utf8_ok l
          else match l with
          | [] => false
          | b2 :: l =>
              let second := is_cont b1 && (if decide (b0 = 0xE0) then bool_decide (0xA0 ≤ b1)
                                           else if decide (b0 = 0xED) then bool_decide (b1 ≤ 0x9F)
                                           else if decide (b0 = 0xF0) then bool_decide (0x90 ≤ b1)
                                           else if decide (b0 = 0xF4) then bool_decide (b1 ≤ 0x8F)
                                           else true) in
              if decide (0xE0 ≤ b0 ≤ 0xEF) then second && is_cont b2 && utf8_ok l
              else match l with
              | [] => false
              | b3 :: l =>
                  bool_decide (0xF0 ≤ b0 ≤ 0xF4) && second && is_cont b2 && is_cont b3 && utf8_ok l
              end
          end
      end
  end.

Definition from_utf8 (l : list Z) : option string :=
  if utf8_ok l then Some (String.string_of_list_ascii (chr <$> l)) else None.

Lemma utf8_examples :
  utf8_ok [0x41; 0xC3; 0xA9; 0xE2; 0x82; 0xAC; 0xF0; 0x9F; 0x8E; 0xB5] = true ∧
  utf8_ok [0xC0; 0x80] = false ∧ utf8_ok [0xED; 0xA0; 0x80] = false ∧ utf8_ok [0xF4; 0x90; 0x80; 0x80] = false.
Proof. vm_compute. done. Qed.

(** [Result::and_then], and [?] in a function that returns a [Result]. *)
Definition and_then {A B E} (r : result A E) (f : A → result B E) : result B E :=
  match r with Ok a => f a | Err e => Err e end.
