(* ===== verification/ApCodec.v ===== *)
(** * The access point connection: [core/src/connection/codec.rs]

    Packets are framed with a three byte header, encrypted with a stream
    cipher that is keyed per packet, and followed by a message authentication
    code.  The cipher is the [shannon] crate's; what is used of it is the class
    [Shannon], what it documents are the laws. *)

From S2P Require Import Prelude Digits Wire.

Local Open Scope Z_scope.

Class Shannon (C : Type) := {
  shannon_new : list Z → C;
  nonce_u32 : Z → C → C;
  encrypt : list Z → C → list Z * C;
  decrypt : list Z → C → list Z * C;
  mac_finish : C → list Z * C;
  check_mac : list Z → C → bool * C;
}.

(** Setting the nonce starts over with the key; decryption inverts encryption
    from the same state and can be done in parts; the code is determined by
    the state, which both directions share. *)
Class ShannonLaws (C : Type) `{Shannon C} := {
  same_key : C → C → Prop;
  same_key_equiv : Equivalence same_key;
  same_key_nonce n c : same_key c (nonce_u32 n c);
  same_key_encrypt x c : same_key c (encrypt x c).2;
  same_key_decrypt x c : same_key c (decrypt x c).2;
  same_key_finish c : same_key c (mac_finish c).2;
  same_key_check m c : same_key c (check_mac m c).2;
  nonce_restarts n c c' : same_key c c' → nonce_u32 n c = nonce_u32 n c';
  length_encrypt x c : length (encrypt x c).1 = length x;
  decrypt_encrypt x c : decrypt (encrypt x c).1 c = (x, (encrypt x c).2);
  decrypt_app x y c :
    decrypt (x ++ y) c = ((decrypt x c).1 ++ (decrypt y (decrypt x c).2).1, (decrypt y (decrypt x c).2).2);
  length_decrypt x c : length (decrypt x c).1 = length x;
  length_mac c : length (mac_finish c).1 = 4%nat;
  check_mac_spec m c : (check_mac m c).1 = bool_decide (m = (mac_finish c).1);
}.
#[export] Existing Instance same_key_equiv.

Definition HEADER_SIZE : nat := 3.
Definition MAC_SIZE : nat := 4.

Inductive DecodeState := DHeader | DPayload (cmd : Z) (size : nat).

Inductive DecodeError := BadMac | BadPayload.

Section codec.
Context {C : Type} `{Shannon C}.

Record ApCodec := mkCodec {
  encode_nonce : Z;
  encode_cipher : C;
  decode_nonce : Z;
  decode_cipher : C;
  decode_state : DecodeState;
}.

#[export] Instance settable_ApCodec : Settable ApCodec :=
  λ r, mkCodec (encode_nonce r) (encode_cipher r) (decode_nonce r) (decode_cipher r) (decode_state r).

Definition codec_new (send_key recv_key : list Z) : ApCodec :=
  mkCodec 0 (shannon_new send_key) 0 (shannon_new recv_key) DHeader.

Definition encode (item : Z * list Z) (buf : list Z) (self : ApCodec) : exec (list Z * ApCodec) :=
  let '(cmd, payload) := item in
  let plain := [cmd] ++ put_u16 (Z.of_nat (length payload)) ++ payload in
  let c := nonce_u32 (encode_nonce self) (encode_cipher self) in
  n ← uadd u32_max (encode_nonce self) 1;
  let '(data, c) := encrypt plain c in
  let '(mac, c) := mac_finish c in
  Val (buf ++ data ++ mac, self <| encode_nonce := n |> <| encode_cipher := c |>).

(** The first part of [decode]: read a header when there is one. *)
Definition decode_header (buf : list Z) (self : ApCodec) : exec (list Z * ApCodec) :=
  match decode_state self with
  | DHeader =>
      if decide (HEADER_SIZE ≤ length buf)%nat then
        '(header, buf) ← split_to HEADER_SIZE buf;
        let c := nonce_u32 (decode_nonce self) (decode_cipher self) in
        n ← uadd u32_max (decode_nonce self) 1;
        let '(header, c) := decrypt header c in
        cmd ← read_be 1 header;
        size ← read_be 2 (drop 1 header);
        Val (buf, self <| decode_nonce := n |> <| decode_cipher := c |>
                       <| decode_state := DPayload cmd (Z.to_nat size) |>)
      else Val (buf, self)
  | DPayload _ _ => Val (buf, self)
  end.

(** The second part: the payload and its code. *)
Definition decode_payload (buf : list Z) (self : ApCodec)
    : exec (list Z * ApCodec * result (option (Z * list Z)) DecodeError) :=
  match decode_state self with
  | DPayload cmd size =>
      if decide (size + MAC_SIZE ≤ length buf)%nat then
        let self := self <| decode_state := DHeader |> in
        '(payload, buf) ← split_to (size + MAC_SIZE) buf;
        let '(plain, c) := decrypt (take size payload) (decode_cipher self) in
        let '(ok, c) := check_mac (drop size payload) c in
        let self := self <| decode_cipher := c |> in
        Val (buf, self, if ok then Ok (Some (cmd, plain)) else Err BadMac)
      else Val (buf, self, Ok None)
  | DHeader => Val (buf, self, Ok None)
  end.

Definition decode (buf : list Z) (self : ApCodec)
    : exec (list Z * ApCodec * result (option (Z * list Z)) DecodeError) :=
  '(buf, self) ← decode_header buf self; decode_payload buf self.

(** The framed transport appends what arrives to the buffer and decodes until
    no packet is complete.  [fuel] bounds the number of packets a buffer can
    hold. *)
Fixpoint decode_all (fuel : nat) (buf : list Z) (self : ApCodec)
    : exec (list Z * ApCodec * result (list (Z * list Z)) DecodeError) :=
  match fuel with
  | O => Panic
  | S fuel =>
      '(buf, self, r) ← decode buf self;
      match r with
      | Err e => Val (buf, self, Err e)
      | Ok None => Val (buf, self, Ok [])
      | Ok (Some item) =>
          '(buf, self, r) ← decode_all fuel buf self;
          Val (buf, self, match r with Ok l => Ok (item :: l) | Err e => Err e end)
      end
  end.

Fixpoint receive (chunks : list (list Z)) (buf : list Z) (self : ApCodec)
    : exec (list Z * ApCodec * result (list (Z * list Z)) DecodeError) :=
  match chunks with
  | [] => Val (buf, self, Ok [])
  | chunk :: chunks =>
      '(buf, self, r) ← decode_all (S (length (buf ++ chunk))) (buf ++ chunk) self;
      match r with
      | Err e => Val (buf, self, Err e)
      | Ok items =>
          '(buf, self, r) ← receive chunks buf self;
          Val (buf, self, match r with Ok l => Ok (items ++ l) | Err e => Err e end)
      end
  end.

Fixpoint encode_all (items : list (Z * list Z)) (buf : list Z) (self : ApCodec) : exec (list Z * ApCodec) :=
  match items with
  | [] => Val (buf, self)
  | item :: items => '(buf, self) ← encode item buf self; encode_all items buf self
  end.
End codec.
Arguments ApCodec : clear implicits.

(** ** Frames *)

Section laws.
Context {C : Type} `{ShannonLaws C}.

Definition header_of (item : Z * list Z) : list Z := [item.1] ++ put_u16 (Z.of_nat (length item.2)).

(** The encrypted frame of a packet with nonce [n]. *)
Definition frame (key : C) (n : Z) (item : Z * list Z) : list Z :=
  let '(data, c) := encrypt (header_of item ++ item.2) (nonce_u32 n key) in data ++ (mac_finish c).1.

Fixpoint frames (key : C) (n : Z) (items : list (Z * list Z)) : list Z :=
  match items with
  | [] => []
  | item :: items => frame key n item ++ frames key (n + 1) items
  end.

Definition item_ok (item : Z * list Z) : Prop := Z.of_nat (length item.2) ≤ 65535 ∧ 0 ≤ item.1 < 256.

Lemma encode_frame item buf (self : ApCodec C) key :
  same_key key (encode_cipher self) → encode_nonce self < u32_max →
  ∃ self', encode item buf self = Val (buf ++ frame key (encode_nonce self) item, self') ∧
    same_key key (encode_cipher self') ∧ encode_nonce self' = encode_nonce self + 1.
Proof.
  intros Hk Hn. destruct item as [cmd payload]. unfold encode, frame, header_of. simpl.
  rewrite uadd_Val by lia. rewrite exec_bind_Val.
  rewrite (nonce_restarts _ _ _ Hk). 
  pose proof (same_key_encrypt (cmd :: put_u16 (Z.of_nat (length payload)) ++ payload)
    (nonce_u32 (encode_nonce self) (encode_cipher self))) as Hk2.
  destruct (encrypt _ _) as [data c]. simpl in Hk2. pose proof (same_key_finish c) as Hk3.
  destruct (mac_finish c) as [mac c']. simpl in *. eexists. split; [done|]. split; [|done]. simpl.
  rewrite Hk, <- Hk3, <- Hk2. apply same_key_nonce.
Qed.

Lemma encode_all_frames items : ∀ buf (self : ApCodec C) key,
  same_key key (encode_cipher self) → encode_nonce self + Z.of_nat (length items) ≤ u32_max →
  ∃ self', encode_all items buf self = Val (buf ++ frames key (encode_nonce self) items, self').
Proof.
  induction items as [|item items IH]; intros buf self key Hk Hn; simpl.
  { exists self. by rewrite app_nil_r. }
  simpl in Hn. destruct (encode_frame item buf self key Hk) as (s1 & -> & Hk1 & Hn1); [lia|]. rewrite exec_bind_Val.
  destruct (IH (buf ++ frame key (encode_nonce self) item) s1 key Hk1) as (s2 & ->); [lia|].
  exists s2. by rewrite Hn1, <- app_assoc.
Qed.

(** ** Decoding *)

(** [stream] is what the decoder has yet to see of the packets [items]. *)
Inductive decoding (key : C) (d : ApCodec C) : list Z → list (Z * list Z) → Prop :=
| decoding_header items :
    decode_state d = DHeader → same_key key (decode_cipher d) →
    decode_nonce d + Z.of_nat (length items) ≤ u32_max → Forall item_ok items →
    decoding key d (frames key (decode_nonce d) items) items
| decoding_payload cmd payload ct c items :
    decode_state d = DPayload cmd (length payload) → same_key key (decode_cipher d) →
    decrypt ct (decode_cipher d) = (payload, c) →
    decode_nonce d + Z.of_nat (length items) ≤ u32_max → Forall item_ok items →
    decoding key d (ct ++ (mac_finish c).1 ++ frames key (decode_nonce d) items) ((cmd, payload) :: items).

Lemma same_key_decrypted key (c c' : C) x y : same_key key c → decrypt x c = (y, c') → same_key key c'.
Proof. intros Hk E. pose proof (same_key_decrypt x c) as Hd. rewrite E in Hd. by rewrite Hk. Qed.

Lemma decrypted_length (c c' : C) x y : decrypt x c = (y, c') → length y = length x.
Proof. intros E. pose proof (length_decrypt x c) as Hl. by rewrite E in Hl. Qed.

Lemma length_header item : length (header_of item) = HEADER_SIZE.
Proof. unfold header_of. rewrite length_app, length_put_u16. done. Qed.

(** A frame is a header and a payload, each of which can be decrypted when it
    has arrived. *)
Lemma frame_split key n item :
  ∃ hd ct c1 c2, frame key n item = hd ++ ct ++ (mac_finish c2).1 ∧ length hd = HEADER_SIZE ∧
    decrypt hd (nonce_u32 n key) = (header_of item, c1) ∧ decrypt ct c1 = (item.2, c2).
Proof.
  unfold frame. pose proof (decrypt_encrypt (header_of item ++ item.2) (nonce_u32 n key)) as Hde.
  pose proof (length_encrypt (header_of item ++ item.2) (nonce_u32 n key)) as Hle.
  destruct (encrypt _ _) as [data c2]. cbn [fst snd] in *.
  rewrite <- (take_drop HEADER_SIZE data) in Hde. rewrite decrypt_app in Hde.
  pose proof (f_equal fst Hde) as Hplain. pose proof (f_equal snd Hde) as Hc. cbn [fst snd] in Hplain, Hc.
  rewrite length_app, length_header in Hle.
  assert (length (take HEADER_SIZE data) = HEADER_SIZE) as Hhd by (rewrite length_take; lia).
  apply app_inj_1 in Hplain as [Hh Hp]; [|by rewrite length_decrypt, length_header].
  exists (take HEADER_SIZE data), (drop HEADER_SIZE data), (decrypt (take HEADER_SIZE data) (nonce_u32 n key)).2, c2.
  split_and!; [|done|..].
  - by rewrite app_assoc, take_drop.
  - by rewrite <- Hh, <- surjective_pairing.
  - by rewrite <- Hp, <- Hc, <- surjective_pairing.
Qed.

Lemma decode_header_reads key d buf rest item items :
  decode_state d = DHeader → same_key key (decode_cipher d) →
  decode_nonce d + Z.of_nat (length (item :: items)) ≤ u32_max → Forall item_ok (item :: items) →
  (HEADER_SIZE ≤ length buf)%nat → buf ++ rest = frames key (decode_nonce d) (item :: items) →
  ∃ buf' d', decode_header buf d = Val (buf', d') ∧ (length buf' < length buf)%nat ∧
    decode_state d' = DPayload item.1 (length item.2) ∧
    decoding key d' (buf' ++ rest) (item :: items).
Proof.
  intros Hst Hk Hn Hok Hbuf E. apply Forall_cons in Hok as [[Hlen Hcmd] Hok]. simpl in Hn. unfold decode_header. rewrite Hst, decide_True by done.
  simpl in E. destruct (frame_split key (decode_nonce d) item) as (hd & ct & c1 & c2 & Ef & Hhd & Hd1 & Hd2).
  rewrite Ef in E.
  assert (∃ buf', buf = hd ++ buf' ∧ buf' ++ rest = ct ++ (mac_finish c2).1 ++ frames key (decode_nonce d + 1) items)
    as (buf' & -> & E').
  { exists (drop HEADER_SIZE buf). rewrite <- (take_drop HEADER_SIZE buf) in E. rewrite <- !app_assoc in E.
    apply app_inj_1 in E as [E1 E2]; [|rewrite length_take; lia]. by rewrite <- E1, take_drop. }
  rewrite split_to_app by done. rewrite exec_bind_Val, uadd_Val, exec_bind_Val by lia.
  rewrite <- (nonce_restarts _ _ _ Hk), Hd1. destruct item as [cmd payload]. cbn [header_of fst snd] in *.
  assert (read_be 1 (header_of (cmd, payload)) = Val cmd) as ->.
  { unfold read_be, header_of. done. }
  assert (read_be 2 (drop 1 (header_of (cmd, payload))) = Val (Z.of_nat (length payload))) as ->.
  { apply (read_put_u16 (Z.of_nat (length payload))). lia. }
  rewrite !exec_bind_Val, Nat2Z.id. eexists _, _. split; [done|].
  split; [rewrite length_app; unfold HEADER_SIZE in *; lia|]. split_and!; [done..|]. rewrite E'.
  match goal with |- decoding _ ?d' _ _ => apply (decoding_payload key d' cmd payload ct c2 items) end;
    [done| |done|simpl; lia|done].
  simpl. eapply same_key_decrypted; [|exact Hd1]. apply same_key_nonce.
Qed.

Lemma decode_payload_reads key d buf rest cmd payload items :
  decode_state d = DPayload cmd (length payload) → decoding key d (buf ++ rest) ((cmd, payload) :: items) →
  (length payload + MAC_SIZE ≤ length buf)%nat →
  ∃ buf' d', decode_payload buf d = Val (buf', d', Ok (Some (cmd, payload))) ∧ (length buf' < length buf)%nat ∧
    decoding key d' (buf' ++ rest) items.
Proof.
  intros Hst Hdec Hbuf. unfold decode_payload. rewrite Hst, decide_True by done.
  inversion Hdec as [items' Hst' Hk|cmd' payload' ct c items' Hst' Hk Hd Hn Hok E]; simplify_eq; [congruence|].
  pose proof (decrypted_length _ _ _ _ Hd) as Hl. pose proof (length_mac c) as Hm.
  assert (∃ buf', buf = (ct ++ (mac_finish c).1) ++ buf' ∧ buf' ++ rest = frames key (decode_nonce d) items)
    as (buf' & -> & E').
  { exists (drop (length payload + MAC_SIZE) buf).
    rewrite (app_assoc ct) in E. symmetry in E.
    rewrite <- (take_drop (length payload + MAC_SIZE) buf), <- (app_assoc (take _ _)) in E.
    apply app_inj_1 in E as [E1 E2]; [|rewrite length_take, length_app; unfold MAC_SIZE in *; lia].
    rewrite <- E1, take_drop. auto. }
  rewrite split_to_app by (rewrite length_app; unfold MAC_SIZE; lia). rewrite exec_bind_Val.
  rewrite Hl, take_app_length, drop_app_length. cbn [decode_cipher set_field]. rewrite Hd.
  pose proof (check_mac_spec (mac_finish c).1 c) as Hc. pose proof (same_key_check (mac_finish c).1 c) as Hkc.
  destruct (check_mac (mac_finish c).1 c) as [ok c']. simpl in *. rewrite Hc, bool_decide_true by done.
  eexists _, _. split; [done|]. split; [rewrite !length_app; lia|]. rewrite E'.
  match goal with |- decoding _ ?d' _ _ => apply (decoding_header key d' items) end; [done| |done|done]. simpl. rewrite <- Hkc. by eapply same_key_decrypted.
Qed.

Lemma frame_length key n item : (HEADER_SIZE + length item.2 + MAC_SIZE ≤ length (frame key n item))%nat.
Proof.
  destruct (frame_split key n item) as (hd & ct & c1 & c2 & -> & Hhd & _ & Hd).
  rewrite !length_app, Hhd, length_mac, (decrypted_length _ _ _ _ Hd). done.
Qed.

(** What a call of [decode] leaves: a complete packet comes out, otherwise the
    decoder waits for more, which only happens when something is missing. *)
Definition decoded key (buf rest : list Z) (items : list (Z * list Z))
    (o : list Z * ApCodec C * result (option (Z * list Z)) DecodeError) : Prop :=
  match o with
  | (buf', d', Ok (Some item)) =>
      ∃ items', items = item :: items' ∧ decoding key d' (buf' ++ rest) items' ∧ (length buf' < length buf)%nat
  | (buf', d', Ok None) => decoding key d' (buf' ++ rest) items ∧ (rest = [] → items = [])
  | (_, _, Err _) => False
  end.

Lemma decode_payload_spec key d buf0 buf rest cmd payload items :
  decode_state d = DPayload cmd (length payload) → decoding key d (buf ++ rest) ((cmd, payload) :: items) →
  (length buf ≤ length buf0)%nat →
  ∃ o, decode_payload buf d = Val o ∧ decoded key buf0 rest ((cmd, payload) :: items) o.
Proof.
  intros Hst Hdec Hl. destruct (decide (length payload + MAC_SIZE ≤ length buf)%nat) as [Hle|Hle].
  - destruct (decode_payload_reads key d buf rest cmd payload items Hst Hdec Hle) as (buf' & d' & -> & Hlt & Hdec').
    eexists. split; [done|]. exists items. split_and!; [done..|lia].
  - unfold decode_payload. rewrite Hst, decide_False by done. eexists. split; [done|]. split; [done|].
    intros ->. exfalso. rewrite app_nil_r in Hdec.
    inversion Hdec as [? ?|? ? ct c ? ? ? Hd _ _ E]; simplify_eq; [congruence|].
    rewrite !length_app, length_mac, <- (decrypted_length _ _ _ _ Hd) in Hle. unfold MAC_SIZE in Hle. lia.
Qed.

Lemma decode_spec key d buf rest items :
  decoding key d (buf ++ rest) items → ∃ o, decode buf d = Val o ∧ decoded key buf rest items o.
Proof.
  intros Hdec. unfold decode.
  inversion Hdec as [items' Hst Hk Hn Hok E|cmd payload ct c items1 Hst Hk Hd Hn Hok E]; subst.
  2:{ unfold decode_header. rewrite Hst, exec_bind_Val. by apply decode_payload_spec. }
  destruct (decide (HEADER_SIZE ≤ length buf)%nat) as [Hle|Hle].
  - destruct items as [|item items].
    { exfalso. simpl in E. symmetry in E. apply app_eq_nil in E as [-> ->]. simpl in Hle. unfold HEADER_SIZE in Hle. lia. }
    destruct (decode_header_reads key d buf rest item items Hst Hk Hn Hok Hle) as (buf1 & d1 & -> & Hlt & Hst1 & Hdec1);
      [done|]. rewrite exec_bind_Val. destruct item as [cmd payload]. apply decode_payload_spec; [done..|lia].
  - unfold decode_header. rewrite Hst, decide_False by done. rewrite exec_bind_Val. unfold decode_payload. rewrite Hst.
    eexists. split; [done|]. split; [by rewrite <- E; apply decoding_header|].
    intros ->. destruct items as [|item items]; [done|]. exfalso. rewrite app_nil_r in E. subst buf.
    pose proof (frame_length key (decode_nonce d) item). simpl in Hle. rewrite length_app in Hle. lia.
Qed.

Lemma decode_all_spec key fuel : ∀ d buf rest items,
  decoding key d (buf ++ rest) items → (length buf < fuel)%nat →
  ∃ buf' d' l items', decode_all fuel buf d = Val (buf', d', Ok l) ∧ items = l ++ items' ∧
    decoding key d' (buf' ++ rest) items' ∧ (rest = [] → items' = []).
Proof.
  induction fuel as [|fuel IH]; intros d buf rest items Hdec Hf; [lia|]. cbn [decode_all].
  destruct (decode_spec key d buf rest items Hdec) as ([[buf1 d1] [[item|]|]] & -> & Ho); rewrite exec_bind_Val; [..|done].
  - destruct Ho as (items1 & -> & Hdec1 & Hlt).
    destruct (IH d1 buf1 rest items1 Hdec1) as (buf' & d' & l & items' & -> & -> & Hdec' & Hend); [lia|].
    rewrite exec_bind_Val. by eexists _, _, (item :: l), items'.
  - destruct Ho as [Hdec1 Hend]. by eexists _, _, [], items.
Qed.

Lemma receive_spec key chunks : ∀ d buf items,
  decoding key d (buf ++ concat chunks) items → (chunks = [] → items = []) →
  ∃ buf' d', receive chunks buf d = Val (buf', d', Ok items).
Proof.
  induction chunks as [|chunk chunks IH]; intros d buf items Hdec Hend; cbn [receive].
  { rewrite (Hend eq_refl). eauto. }
  simpl in Hdec. rewrite app_assoc in Hdec.
  destruct (decode_all_spec key (S (length (buf ++ chunk))) d (buf ++ chunk) (concat chunks) items Hdec)
    as (buf1 & d1 & l & items1 & -> & -> & Hdec1 & Hend1); [lia|].
  rewrite exec_bind_Val. destruct (IH d1 buf1 items1 Hdec1) as (buf2 & d2 & ->).
  { intros ->. by apply Hend1. }
  rewrite exec_bind_Val. eauto.
Qed.
End laws.

(** C7: what one side sends the other receives, as long as every payload has at
    most 65535 bytes, which the length in the header can tell, and there are no
    more packets than the 32-bit nonce counts.  However the bytes of a sequence
    of encoded packets are cut into pieces on the way, the decoder gives the
    packets back in order, and never an error. *)
Theorem codec_roundtrip {C} `{ShannonLaws C} key key' items chunks :
  Forall item_ok items → Z.of_nat (length items) ≤ u32_max →
  ∃ bytes sender, encode_all items [] (codec_new (C:=C) key key') = Val (bytes, sender) ∧
    (concat chunks = bytes →
     ∃ buf receiver, receive chunks [] (codec_new (C:=C) key' key) = Val (buf, receiver, Ok items)).
Proof.
  intros Hok Hn.
  destruct (encode_all_frames items [] (codec_new (C:=C) key key') (shannon_new key)) as (sender & ->);
    [reflexivity|simpl; lia|].
  eexists _, _. split; [done|]. intros Hc. apply (receive_spec (shannon_new key)).
  - rewrite Hc. simpl. by apply (decoding_header (shannon_new key) (codec_new (C:=C) key' key)).
  - intros ->. simpl in Hc. destruct items as [|item items]; [done|]. exfalso.
    pose proof (frame_length (shannon_new key) 0 item) as Hl. apply (f_equal length) in Hc.
    simpl in Hc. rewrite length_app in Hc. unfold HEADER_SIZE in Hl. lia.
Qed.

(** *** An example cipher *)

Record toy := mkToy { toy_key : Z; toy_nonce : Z; toy_pos : Z; toy_acc : Z }.

(** Each byte is combined with the position; the code sums the plain bytes. *)
Fixpoint toy_run (decrypting : bool) (x : list Z) (c : toy) : list Z * toy :=
  match x with
  | [] => ([], c)
  | b :: x =>
      let y := Z.lxor b (toy_key c + toy_nonce c + toy_pos c) in
      let c := mkToy (toy_key c) (toy_nonce c) (toy_pos c + 1) (toy_acc c + if decrypting then y else b) in
      let '(x, c) := toy_run decrypting x c in (y :: x, c)
  end.

#[export] Instance toy_shannon : Shannon toy := {|
  shannon_new key := mkToy (foldr Z.add 0 key) 0 0 0;
  nonce_u32 n c := mkToy (toy_key c) n 0 0;
  encrypt := toy_run false;
  decrypt := toy_run true;
  mac_finish c := (to_be_bytes 4 (toy_acc c), c);
  check_mac m c := (bool_decide (m = to_be_bytes 4 (toy_acc c)), c);
|}.

Lemma toy_run_key b x : ∀ c, toy_key (toy_run b x c).2 = toy_key c.
Proof. induction x as [|a x IH]; intros c; [done|]. simpl. specialize (IH (mkToy (toy_key c) (toy_nonce c) (toy_pos c + 1)
  (toy_acc c + if b then Z.lxor a (toy_key c + toy_nonce c + toy_pos c) else a))). by destruct (toy_run b x _). Qed.
Lemma toy_run_length b x : ∀ c, length (toy_run b x c).1 = length x.
Proof. induction x as [|a x IH]; intros c; [done|]. simpl. specialize (IH (mkToy (toy_key c) (toy_nonce c) (toy_pos c + 1)
  (toy_acc c + if b then Z.lxor a (toy_key c + toy_nonce c + toy_pos c) else a))).
  destruct (toy_run b x _). simpl in *. by f_equal. Qed.
Lemma toy_decrypt_encrypt x : ∀ c, toy_run true (toy_run false x c).1 c = (x, (toy_run false x c).2).
Proof.
  induction x as [|a x IH]; intros c; [done|]. simpl.
  specialize (IH (mkToy (toy_key c) (toy_nonce c) (toy_pos c + 1) (toy_acc c + a))).
  destruct (toy_run false x _) as [y c'] eqn:E. simpl in *. rewrite Z.lxor_assoc, Z.lxor_nilpotent, Z.lxor_0_r.
  by rewrite IH.
Qed.
Lemma toy_decrypt_app x y : ∀ c,
  toy_run true (x ++ y) c =
    ((toy_run true x c).1 ++ (toy_run true y (toy_run true x c).2).1, (toy_run true y (toy_run true x c).2).2).
Proof.
  induction x as [|a x IH]; intros c; [simpl; by destruct (toy_run true y c)|]. simpl. rewrite IH.
  by destruct (toy_run true x _).
Qed.

#[export] Program Instance toy_laws : ShannonLaws toy := {| same_key c c' := toy_key c = toy_key c' |}.
Next Obligation. split; congruence. Qed.
Next Obligation. done. Qed.
Next Obligation. intros. symmetry. apply toy_run_key. Qed.
Next Obligation. intros. symmetry. apply toy_run_key. Qed.
Next Obligation. done. Qed.
Next Obligation. done. Qed.
Next Obligation. intros n c c' E. simpl in *. by rewrite E. Qed.
Next Obligation. intros. apply toy_run_length. Qed.
Next Obligation. intros. apply toy_decrypt_encrypt. Qed.
Next Obligation. intros. apply toy_decrypt_app. Qed.
Next Obligation. intros. apply toy_run_length. Qed.
Next Obligation. done. Qed.
Next Obligation. done. Qed.

Lemma codec_roundtrip_witness :
  ∃ bytes sender, encode_all [(4, [1; 2]); (9, [])] [] (codec_new (C:=toy) [7] [8]) = Val (bytes, sender) ∧
    ∃ buf receiver, receive [take 5 bytes; drop 5 bytes] [] (codec_new (C:=toy) [8] [7])
      = Val (buf, receiver, Ok [(4, [1; 2]); (9, [])]).
Proof.
  destruct (encode_all [(4, [1; 2]); (9, [])] [] (codec_new (C:=toy) [7] [8])) as [[bytes sender]|] eqn:E;
    [|vm_compute in E; discriminate].
  exists bytes, sender. split; [reflexivity|].
  destruct (codec_roundtrip (C:=toy) [7] [8] [(4, [1; 2]); (9, [])] [take 5 bytes; drop 5 bytes])
    as (bytes' & sender' & E' & H).
  - repeat constructor; vm_compute; congruence.
  - vm_compute. congruence.
  - rewrite E in E'. injection E' as <- <-. apply H. simpl. rewrite app_nil_r. apply take_drop.
Defined.

(** *** Corner cases *)

(** The length field has 16 bits: a longer payload is cut off at the receiver,
    which then fails to authenticate it. *)
Lemma long_payload_header : header_of (4, replicate (Z.to_nat 65537) 0) = [4; 0; 1].
Proof. vm_compute. reflexivity. Qed.
