(* ===== verification/Channel.v ===== *)
(** * Channels: [core/src/channel.rs]

    A channel carries the answer to one request: headers in one or more
    packets, then data packets, ended by an empty one.  The manager routes the
    packets by their identifier; the consumer reads events off its mailbox. *)

From S2P Require Import Prelude StdTypes Digits Wire.

Local Open Scope Z_scope.

(** ** The consumer *)

Inductive ChannelState := CHeader (data : list Z) | CData | CClosed.

Inductive ChannelEvent := EvHeader (id : Z) (data : list Z) | EvData (data : list Z).

(** [receiver]: the packets that arrived and whether more may come. *)
Record Channel := mkChannel {
  receiver : list (Z * list Z);
  open : bool;
  state : ChannelState;
}.

#[export] Instance settable_Channel : Settable Channel := λ r, mkChannel (receiver r) (open r) (state r).

(** Outcomes of a poll: nothing yet, the end, an event, or a channel error. *)
Inductive polled (A : Type) := Pending | Ready (a : A).
Arguments Pending {A}.
Arguments Ready {A} a.

Definition recv_packet (self : Channel) : exec (polled (option (list Z)) * Channel) :=
  match receiver self with
  | [] => Val (if open self then (Pending, self) else (Ready None, self))
  | (cmd, packet) :: l =>
      let self := self <| receiver := l |> in
      if decide (packet_from_u8 cmd = Some ChannelError_) then
        _ ← read_be 2 packet;
        Val (Ready None, self <| state := CClosed |>)
      else Val (Ready (Some packet), self)
  end.

(** An item of the stream: [None] is its end, [Some (Err ())] a channel error. *)
Abbreviation item := (option (result ChannelEvent unit)).

(** The [Data] state. *)
Definition poll_data (self : Channel) : exec (polled item * Channel) :=
  '(r, self) ← recv_packet self;
  match r with
  | Pending => Val (Pending, self)
  | Ready None => Val (Ready (Some (Err ())), self)
  | Ready (Some []) => Val (Ready None, self <| open := false |> <| state := CClosed |>)
  | Ready (Some data) => Val (Ready (Some (Ok (EvData data))), self)
  end.

(** The [Header] state, with the bytes of the current packet. *)
Definition poll_header (data : list Z) (self : Channel) : exec (polled item * Channel) :=
  '(length, data) ← take_be 2 data;
  if decide (length = 0) then poll_data (self <| state := CData |>)
  else
    '(header_id, data) ← take_be 1 data;
    '(header_data, data) ← split_to (Z.to_nat (length - 1)) data;
    Val (Ready (Some (Ok (EvHeader header_id header_data))), self <| state := CHeader data |>).

Definition poll_next (self : Channel) : exec (polled item * Channel) :=
  match state self with
  | CClosed => Val (Ready None, self)
  | CData => poll_data self
  | CHeader [] =>
      '(r, self) ← recv_packet self;
      match r with
      | Pending => Val (Pending, self)
      | Ready None => Val (Ready (Some (Err ())), self)
      | Ready (Some data) => poll_header data self
      end
  | CHeader data => poll_header data self
  end.

(** *** The two halves of a channel *)

(** [ChannelHeaders] ends at the first event that is not a header. *)
Definition headers_poll_next (self : Channel) : exec (polled (option (result (Z * list Z) unit)) * Channel) :=
  '(r, self) ← poll_next self;
  Val (match r with
       | Pending => Pending
       | Ready (Some (Err e)) => Ready (Some (Err e))
       | Ready (Some (Ok (EvHeader id data))) => Ready (Some (Ok (id, data)))
       | Ready _ => Ready None
       end, self).

(** [ChannelData] skips headers; [fuel] bounds their number. *)
Fixpoint data_poll_next (fuel : nat) (self : Channel)
    : exec (polled (option (result (list Z) unit)) * Channel) :=
  match fuel with
  | O => Panic
  | S fuel =>
      '(r, self) ← poll_next self;
      match r with
      | Pending => Val (Pending, self)
      | Ready None => Val (Ready None, self)
      | Ready (Some (Err e)) => Val (Ready (Some (Err e)), self)
      | Ready (Some (Ok (EvHeader _ _))) => data_poll_next fuel self
      | Ready (Some (Ok (EvData data))) => Val (Ready (Some (Ok data)), self)
      end
  end.

(** ** The manager *)

(** Channels are named by numbers; [mailbox] holds what was sent to each. *)
Record ChannelManager := mkManager {
  sequence : Z;
  channels : gmap Z nat;
  download_rate_estimate : Z;
  download_measurement_start : option Z;
  download_measurement_bytes : Z;
  invalid : bool;
  next_channel : nat;
  mailbox : gmap nat (list (Z * list Z));
}.

#[export] Instance settable_ChannelManager : Settable ChannelManager :=
  λ r, mkManager (sequence r) (channels r) (download_rate_estimate r) (download_measurement_start r)
         (download_measurement_bytes r) (invalid r) (next_channel r) (mailbox r).

Definition manager_new : ChannelManager := mkManager 0 ∅ 0 None 0 false 0 ∅.

Definition channel_new : Channel := mkChannel [] true (CHeader []).

Definition allocate (self : ChannelManager) : Z * nat * ChannelManager :=
  let c := next_channel self in
  let '(seq, next) := seq_get 16 (sequence self) in
  let self := self <| sequence := next |> <| next_channel := S c |> in
  (seq, c, if invalid self then self
           else self <| channels ::= <[seq := c]> |> <| mailbox ::= <[c := []]> |>).

(** Times are in nanoseconds. *)
Definition measure (now : Z) (self : ChannelManager) : exec ChannelManager :=
  match download_measurement_start self with
  | Some start =>
      if decide (NANOS_PER_SEC < now - start) then
        n ← umul usize_max 1000 (download_measurement_bytes self);
        Val (self <| download_rate_estimate := n / ((now - start) / 1000000) |>
                  <| download_measurement_start := Some now |> <| download_measurement_bytes := 0 |>)
      else Val self
  | None => Val (self <| download_measurement_start := Some now |>)
  end.

(** [alive c] tells whether the consumer of [c] still listens. *)
Definition channel_dispatch (now : Z) (alive : nat → bool) (cmd : PacketType) (data : list Z) (self : ChannelManager)
    : exec (ChannelManager * result unit unit) :=
  '(id, data) ← take_be 2 data;
  self ← measure now self;
  bytes ← uadd usize_max (download_measurement_bytes self) (Z.of_nat (length data));
  let self := self <| download_measurement_bytes := bytes |> in
  match channels self !! id with
  | Some c =>
      if alive c then Val (self <| mailbox ::= alter (λ l, l ++ [(packet_code cmd, data)]) c |>, Ok ())
      else Val (self, Err ())
  | None => Val (self, Ok ())
  end.

Definition channel_shutdown (self : ChannelManager) : ChannelManager :=
  self <| invalid := true |> <| channels := ∅ |>.

(** ** Reading an answer *)

Definition header_bytes (h : Z * list Z) : list Z :=
  put_u16 (Z.of_nat (length h.2) + 1) ++ to_be_bytes 1 h.1 ++ h.2.
Definition headers_bytes (hs : list (Z * list Z)) : list Z := hs ≫= header_bytes.
Definition header_ok (h : Z * list Z) : Prop := Z.of_nat (length h.2) < 65535 ∧ 0 ≤ h.1 < 256.

(** An answer: groups of headers, the last of which also has the end marker,
    then data, then an empty packet. *)
Definition answer (groups : list (list (Z * list Z))) (final : list (Z * list Z)) (data : list (list Z))
    : list (list Z) :=
  (headers_bytes <$> groups) ++ [headers_bytes final ++ put_u16 0] ++ data ++ [[]].

(** Poll until the stream ends; [fuel] is a bound on the number of events. *)
Fixpoint poll_all (fuel : nat) (self : Channel) : exec (list ChannelEvent * bool * Channel) :=
  match fuel with
  | O => Val ([], false, self)
  | S fuel =>
      '(r, self) ← poll_next self;
      match r with
      | Ready (Some (Ok e)) => '(es, fin, self) ← poll_all fuel self; Val (e :: es, fin, self)
      | Ready None => Val ([], true, self)
      | Pending | Ready (Some (Err _)) => Val ([], false, self)
      end
  end.

Definition ok_packet (p : list Z) : Z * list Z := (packet_code StreamChunkRes, p).

Definition listening (ps : list (list Z)) (st : ChannelState) : Channel := mkChannel (ok_packet <$> ps) true st.
Definition header_event (h : Z * list Z) : ChannelEvent := EvHeader h.1 h.2.

Lemma poll_header_reads h rest ps st :
  header_ok h →
  poll_header (header_bytes h ++ rest) (listening ps st) =
    Val (Ready (Some (Ok (header_event h))), listening ps (CHeader rest)).
Proof.
  intros [Hl Hid]. unfold poll_header, header_bytes. rewrite <- !app_assoc.
  rewrite take_put_u16 by lia. rewrite exec_bind_Val, decide_False by lia.
  rewrite take_be_app by (simpl; lia). rewrite exec_bind_Val.
  rewrite split_to_app by lia. done.
Qed.

(** A non-empty packet is as good in the mailbox as in the state. *)
Lemma poll_next_packet d ps :
  d ≠ [] → poll_next (listening (d :: ps) (CHeader [])) = poll_next (listening ps (CHeader d)).
Proof. destruct d as [|b d]; [done|]. intros _. unfold poll_next. simpl. done. Qed.

Lemma poll_all_packet fuel d ps :
  d ≠ [] → poll_all (S fuel) (listening (d :: ps) (CHeader [])) = poll_all (S fuel) (listening ps (CHeader d)).
Proof. intros Hd. cbn [poll_all]. by rewrite poll_next_packet. Qed.

(** The outcome of polling on, with events put in front. *)
Definition after (es : list ChannelEvent) (m : exec (list ChannelEvent * bool * Channel)) :=
  '(es', fin, c) ← m; Val (es ++ es', fin, c).

Lemma after_nil m : after [] m = m.
Proof. by destruct m as [[[]]|]. Qed.
Lemma after_app es1 es2 m : after (es1 ++ es2) m = after es1 (after es2 m).
Proof. destruct m as [[[]]|]; [|done]. simpl. by rewrite app_assoc. Qed.

Lemma poll_next_header h rest ps :
  header_ok h →
  poll_next (listening ps (CHeader (header_bytes h ++ rest))) =
    Val (Ready (Some (Ok (header_event h))), listening ps (CHeader rest)).
Proof. intros Hh. rewrite <- (poll_header_reads h rest ps (CHeader (header_bytes h ++ rest)) Hh). done. Qed.

Lemma poll_all_headers fuel hs rest ps :
  Forall header_ok hs →
  poll_all (length hs + fuel) (listening ps (CHeader (headers_bytes hs ++ rest))) =
    after (header_event <$> hs) (poll_all fuel (listening ps (CHeader rest))).
Proof.
  induction 1 as [|h hs Hh Hhs IH]; [by rewrite after_nil|].
  change (headers_bytes (h :: hs)) with (header_bytes h ++ headers_bytes hs). rewrite <- app_assoc.
  cbn [length Nat.add poll_all].
  rewrite poll_next_header by done.
  rewrite exec_bind_Val, IH. change (header_event <$> h :: hs) with ([header_event h] ++ (header_event <$> hs)).
  rewrite after_app. by destruct (after (header_event <$> hs) _) as [[[]]|].
Qed.

Lemma poll_all_groups fuel groups ps :
  Forall (λ g, g ≠ [] ∧ Forall header_ok g) groups →
  poll_all (length (concat groups) + S fuel) (listening ((headers_bytes <$> groups) ++ ps) (CHeader [])) =
    after (header_event <$> concat groups) (poll_all (S fuel) (listening ps (CHeader []))).
Proof.
  induction 1 as [|g groups [Hne Hg] Hgs IH]; [by rewrite after_nil|].
  change (concat (g :: groups)) with (g ++ concat groups).
  change (headers_bytes <$> g :: groups) with (headers_bytes g :: (headers_bytes <$> groups)). cbn [app].
  rewrite length_app, fmap_app, after_app, <- IH, <- Nat.add_assoc.
  replace (length g + (length (concat groups) + S fuel))%nat
    with (S (length g + (length (concat groups) + fuel))) by lia.
  rewrite poll_all_packet; [|by destruct g]. rewrite <- (app_nil_r (headers_bytes g)).
  replace (S (length g + (length (concat groups) + fuel)))%nat
    with (length g + (length (concat groups) + S fuel))%nat by lia.
  by rewrite poll_all_headers.
Qed.

Lemma poll_all_data fuel data :
  Forall (λ d, d ≠ []) data →
  poll_all (length data + S fuel) (listening (data ++ [[]]) CData) =
    Val (EvData <$> data, true, mkChannel [] false CClosed).
Proof.
  induction 1 as [|d data Hd Hds IH]; [done|]. cbn [length Nat.add poll_all].
  assert (poll_next (listening ((d :: data) ++ [[]]) CData) =
    Val (Ready (Some (Ok (EvData d))), listening (data ++ [[]]) CData)) as -> by by destruct d.
  rewrite exec_bind_Val, IH. done.
Qed.

(** A consumer that polls its channel gets the headers of the answer in
    order, however they are distributed over packets, then the data packets,
    and then the end of the stream. *)
Lemma channel_answer groups final data :
  Forall (λ g, g ≠ [] ∧ Forall header_ok g) groups → Forall header_ok final → Forall (λ d, d ≠ []) data →
  poll_all (S (length (concat groups ++ final) + length data)) (listening (answer groups final data) (CHeader [])) =
    Val ((header_event <$> concat groups ++ final) ++ (EvData <$> data), true, mkChannel [] false CClosed).
Proof.
  intros Hg Hf Hd. unfold answer. rewrite length_app.
  replace (S (length (concat groups) + length final + length data))%nat
    with (length (concat groups) + S (length final + length data))%nat by lia.
  rewrite poll_all_groups by done. simpl app. rewrite poll_all_packet by by destruct final.
  rewrite plus_n_Sm, poll_all_headers by done. rewrite fmap_app, <- app_assoc.
  assert (poll_all (S (length data)) (listening (data ++ [[]]) (CHeader (put_u16 0))) =
          poll_all (S (length data)) (listening (data ++ [[]]) CData)) as -> by done.
  pose proof (poll_all_data 0 data Hd) as Hp. rewrite Nat.add_1_r in Hp. by rewrite Hp.
Qed.

(** The data half steps over the headers of a packet. *)
Lemma data_skips_headers fuel hs rest ps :
  Forall header_ok hs →
  data_poll_next (length hs + fuel) (listening ps (CHeader (headers_bytes hs ++ rest))) =
    data_poll_next fuel (listening ps (CHeader rest)).
Proof.
  induction 1 as [|h hs Hh Hhs IH]; [done|].
  change (headers_bytes (h :: hs)) with (header_bytes h ++ headers_bytes hs). rewrite <- app_assoc.
  cbn [length Nat.add data_poll_next]. by rewrite poll_next_header by done.
Qed.

(** ** Routing *)

(** A packet goes to the mailbox of the channel allocated last under its
    identifier, with the identifier removed; other mailboxes are unchanged. *)
Lemma dispatch_routes now alive cmd id data m c :
  0 ≤ id < 65536 → channels m !! id = Some c → alive c = true →
  (∀ m', measure now m = Val m' → download_measurement_bytes m' + Z.of_nat (length data) ≤ usize_max) →
  is_Some (mailbox m !! c) → (∃ m', measure now m = Val m') →
  ∃ m', channel_dispatch now alive cmd (to_be_bytes 2 id ++ data) m = Val (m', Ok ()) ∧
    mailbox m' = alter (λ l, l ++ [(packet_code cmd, data)]) c (mailbox m) ∧ channels m' = channels m.
Proof.
  intros Hid Hc Ha Hb Hm [m' Em]. unfold channel_dispatch. rewrite take_be_app by (simpl; lia).
  rewrite exec_bind_Val, Em, exec_bind_Val. rewrite uadd_Val by by apply Hb. rewrite exec_bind_Val.
  assert (channels m' = channels m ∧ mailbox m' = mailbox m) as [Hch Hmb].
  { unfold measure in Em. destruct (download_measurement_start m); [case_decide|]; invert_exec; done. }
  simpl. rewrite Hch, Hc, Ha. eexists. split; [done|]. simpl. by rewrite Hmb.
Qed.

Lemma allocate_sequence m : sequence (allocate m).2 = (sequence m + 1) `mod` 65536.
Proof. unfold allocate. simpl. by destruct (invalid m). Qed.

(** Identifiers come back only after 65536 allocations. *)
Lemma allocate_fresh (n : nat) m :
  0 ≤ sequence m < 65536 →
  sequence (Nat.iter n (λ m, (allocate m).2) m) = (sequence m + Z.of_nat n) `mod` 65536.
Proof.
  intros Hs. induction n as [|n IH]; [rewrite Z.add_0_r, Z.mod_small; simpl; lia|].
  rewrite Nat.iter_succ, allocate_sequence, IH, Zplus_mod_idemp_l. f_equal. lia.
Qed.
