(* ===== verification/AudioKey.v ===== *)
(** * Audio keys: [core/src/audio_key.rs]

    A key request is numbered, sent, and waited for; a response carries the
    number and is passed to the request that has it. *)

From S2P Require Import Prelude Digits SpotifyId Wire.

Local Open Scope Z_scope.

Inductive AudioKeyError :=
| KAesKey | KChannel | KPacket (cmd : Z) | KSequence (seq : Z) | KTimeout
| KSend (e : SendError) | KDropped.

(** Requests are named by the order in which they are made.  [pending] has the
    sending half of each request's channel, [waiting] the requests whose
    receiving half is still there, [answers] what was sent. *)
Record AudioKeyManager := mkKeys {
  sequence : Z;
  pending : gmap Z nat;
  next_request : nat;
  waiting : gset nat;
  answers : gmap nat (result (list Z) AudioKeyError);
}.

#[export] Instance settable_AudioKeyManager : Settable AudioKeyManager :=
  λ r, mkKeys (sequence r) (pending r) (next_request r) (waiting r) (answers r).

Definition keys_new : AudioKeyManager := mkKeys 0 ∅ 0 ∅ ∅.

(** [oneshot::Sender::send] fails when the receiver is gone. *)
Definition send_answer (n : nat) (r : result (list Z) AudioKeyError) (self : AudioKeyManager)
    : AudioKeyManager * result unit AudioKeyError :=
  if decide (n ∈ waiting self) then (self <| answers ::= <[n := r]> |>, Ok ()) else (self, Err KChannel).

(** The error code of a refusal is logged, which reads two bytes. *)
Definition dispatch (cmd : PacketType) (data : list Z) (self : AudioKeyManager)
    : exec (AudioKeyManager * result unit AudioKeyError) :=
  '(seq, data) ← take_be 4 data;
  match pending self !! seq with
  | None => Val (self, Err (KSequence seq))
  | Some n =>
      let self := self <| pending ::= delete seq |> in
      match cmd with
      | AesKey => if decide (length data = 16%nat) then Val (send_answer n (Ok data) self) else Panic
      | AesKeyError => if decide (2 ≤ length data)%nat then Val (send_answer n (Err KAesKey) self) else Panic
      | _ => Val (self, Err (KPacket (packet_code cmd)))
      end
  end.

Definition key_request (seq : Z) (track : SpotifyId) (file : FileId) : list Z :=
  file_bytes file ++ to_raw track ++ put_u32 seq ++ put_u16 0.

Definition send_key_request (seq : Z) (track : SpotifyId) (file : FileId) (conn : Conn) : Conn * result unit SendError :=
  send_packet RequestKey (key_request seq track file) conn.

(** [request] up to the point where it waits. *)
Definition request (track : SpotifyId) (file : FileId) (self : AudioKeyManager) (conn : Conn)
    : AudioKeyManager * Conn * result nat AudioKeyError :=
  let n := next_request self in
  let '(seq, next) := seq_get 32 (sequence self) in
  let self := self <| sequence := next |> <| pending ::= <[seq := n]> |> <| next_request := S n |> in
  let '(conn, r) := send_key_request seq track file conn in
  match r with
  | Ok _ => (self <| waiting ::= ({[n]} ∪.) |>, conn, Ok n)
  | Err e => (self, conn, Err (KSend e))
  end.

(** The rest of [request], polled: the answer, the end of the channel when its
    sender was dropped, or the timeout; then the receiver is gone. *)
Definition request_poll (timed_out : bool) (n : nat) (self : AudioKeyManager)
    : AudioKeyManager * option (result (list Z) AudioKeyError) :=
  let r := match answers self !! n with
           | Some r => Some r
           | None =>
               if decide (map_Exists (λ _ m, m = n) (pending self)) then
                 if timed_out then Some (Err KTimeout) else None
               else Some (Err KDropped)
           end in
  (if r is Some _ then self <| waiting ::= (.∖ {[n]}) |> else self, r).

(** ** Histories *)

Inductive KeyEvent :=
| KRequest (track : SpotifyId) (file : FileId)
| KDispatch (cmd : PacketType) (data : list Z)
| KPoll (timed_out : bool) (n : nat).

Definition key_step (e : KeyEvent) (s : AudioKeyManager * Conn) : exec (AudioKeyManager * Conn) :=
  let '(self, conn) := s in
  match e with
  | KRequest track file => Val (request track file self conn).1
  | KDispatch cmd data => '(self, _) ← dispatch cmd data self; Val (self, conn)
  | KPoll timed_out n => Val ((request_poll timed_out n self).1, conn)
  end.

Fixpoint key_run (evs : list KeyEvent) (s : AudioKeyManager * Conn) : exec (AudioKeyManager * Conn) :=
  match evs with
  | [] => Val s
  | e :: evs => s ← key_step e s; key_run evs s
  end.

Definition is_request (e : KeyEvent) : bool := if e is KRequest _ _ then true else false.
Definition requests (evs : list KeyEvent) : nat := length (filter is_request evs).

(** What a response says. *)
Definition response (cmd : PacketType) (body : list Z) : option (result (list Z) AudioKeyError) :=
  match cmd with AesKey => Some (Ok body) | AesKeyError => Some (Err KAesKey) | _ => None end.

(** A packet with the number of request [n] came after the request, and said
    [r]; a packet of an unexpected type says nothing. *)
Definition came (evs : list KeyEvent) (n : nat) (r : option (result (list Z) AudioKeyError)) : Prop :=
  ∃ pre cmd data body post, evs = pre ++ KDispatch cmd data :: post ∧ (n < requests pre)%nat ∧
    take_be 4 data = Val (Z.of_nat n, body) ∧ response cmd body = r.
Definition justified (evs : list KeyEvent) (n : nat) (r : result (list Z) AudioKeyError) : Prop := came evs n (Some r).

Lemma key_run_app evs1 evs2 s : key_run (evs1 ++ evs2) s = s ← key_run evs1 s; key_run evs2 s.
Proof.
  revert s. induction evs1 as [|e evs1 IH]; intros s; [done|]. simpl.
  destruct (key_step e s) as [s'|]; [|done]. simpl. apply IH.
Qed.

Lemma requests_app a b : requests (a ++ b) = (requests a + requests b)%nat.
Proof. unfold requests. by rewrite filter_app, length_app. Qed.

Record keys_inv (evs : list KeyEvent) (self : AudioKeyManager) : Prop := {
  inv_next : next_request self = requests evs;
  inv_sequence : sequence self = wrapu 32 (Z.of_nat (requests evs));
  inv_pending s n : pending self !! s = Some n → s = Z.of_nat n ∧ (n < requests evs)%nat ∧ answers self !! n = None;
  inv_answers n r : answers self !! n = Some r → justified evs n r;
  inv_waiting n : n ∈ waiting self →
    (n < requests evs)%nat ∧ (pending self !! Z.of_nat n = Some n ∨ is_Some (answers self !! n) ∨ came evs n None);
}.

Lemma came_more evs e n r : came evs n r → came (evs ++ [e]) n r.
Proof.
  intros (pre & cmd & data & body & post & -> & H). exists pre, cmd, data, body, (post ++ [e]).
  by rewrite <- app_assoc.
Qed.

Lemma came_bound evs n r : came evs n r → (n < requests evs)%nat.
Proof. intros (pre & cmd & data & body & post & -> & ? & _). rewrite requests_app. lia. Qed.

Lemma request_inv evs self conn track file :
  keys_inv evs self → Z.of_nat (requests evs) < 2 ^ 32 →
  keys_inv (evs ++ [KRequest track file]) (request track file self conn).1.1.
Proof.
  intros [Hn Hs Hp Ha Hw] Hlt.
  assert (requests (evs ++ [KRequest track file]) = S (requests evs)) as Hr by (rewrite requests_app; simpl; unfold requests; simpl; lia).
  assert (Hseq : sequence self = Z.of_nat (requests evs)) by (rewrite Hs; unfold wrapu; rewrite Z.mod_small; lia).
  assert (keys_inv (evs ++ [KRequest track file])
    (self <| sequence := wrapu 32 (sequence self + 1) |> <| pending ::= <[sequence self := next_request self]> |>
          <| next_request := S (next_request self) |>)) as [H1 H2 H3 H4 H5].
  { split; simpl; rewrite ?Hr.
    - lia.
    - rewrite Hseq. f_equal. lia.
    - intros s n [[<- <-]|[? E]]%lookup_insert_Some.
      + split_and!; [lia|lia|]. destruct (answers self !! _) as [r|] eqn:E; [|done].
        apply Ha, came_bound in E. lia.
      + destruct (Hp s n E) as (? & ? & ?). split_and!; [done|lia|done].
    - intros n r E. by apply came_more, Ha.
    - intros n [Hb [Hpn|[?|?]]]%Hw; (split; [lia|]); [|by auto|by auto using came_more].
      left. rewrite lookup_insert_ne by lia. done. }
  unfold request, seq_get. destruct (send_key_request _ _ _ _) as [? [|]]; [|by split]. split; [done..|]. simpl in *.
  intros n [->%elem_of_singleton|Hin]%elem_of_union; [|by auto]. rewrite Hr, Hseq, Hn. split; [lia|]. left.
  by rewrite lookup_insert_eq.
Qed.

Lemma dispatch_inv evs self cmd data self' r :
  keys_inv evs self → dispatch cmd data self = Val (self', r) → keys_inv (evs ++ [KDispatch cmd data]) self'.
Proof.
  intros [Hn Hs Hp Ha Hw] E.
  assert (requests (evs ++ [KDispatch cmd data]) = requests evs) as Hr by (rewrite requests_app; unfold requests; simpl; lia).
  assert (keys_inv (evs ++ [KDispatch cmd data]) self) as Hself.
  { split; rewrite ?Hr; [done..| |].
    - intros n r' ?. by apply came_more, Ha.
    - intros n [Hb Hor]%Hw. split; [done|]. naive_solver auto using came_more. }
  unfold dispatch in E. destruct (take_be 4 data) as [[seq body]|] eqn:Eb; [|done]. rewrite exec_bind_Val in E.
  destruct (pending self !! seq) as [n|] eqn:En; [|by simplify_eq].
  destruct (Hp _ _ En) as (-> & Hlt & Hnone).
  assert (came (evs ++ [KDispatch cmd data]) n (response cmd body)) as Hcame by (by exists evs, cmd, data, body, []).
  destruct Hself as [H1 H2 H3 H4 H5].
  assert (∀ l, (∀ m, m ≠ n → l !! m = answers self !! m) →
    match response cmd body with
    | Some a => n ∈ waiting self → l !! n = Some a
    | None => True
    end → (∀ r, l !! n = Some r → response cmd body = Some r) →
    keys_inv (evs ++ [KDispatch cmd data]) (self <| pending ::= delete (Z.of_nat n) |> <| answers := l |>)) as Hgo.
  { intros l Hl Hln Hlr. split; simpl; [done..| | |].
    - intros s n' [? E']%lookup_delete_Some. destruct (H3 s n' E') as (-> & ? & ?). split_and!; [done..|].
      rewrite Hl by congruence. done.
    - intros m r'. destruct (decide (m = n)) as [->|]; [|rewrite Hl by done; apply H4]. intros Hm. unfold justified. by rewrite <- (Hlr _ Hm).
    - intros m Hm. destruct (H5 m Hm) as [? Hor]. split; [done|]. destruct (decide (m = n)) as [->|Hne].
      + destruct (response cmd body) as [a|] eqn:Ea; [|by auto]. right. left. by rewrite (Hln Hm).
      + rewrite lookup_delete_ne, Hl by (congruence || lia). done. }
  assert (∀ ans self'' r', response cmd body = Some ans →
    send_answer n ans (self <| pending ::= delete (Z.of_nat n) |>) = (self'', r') →
    keys_inv (evs ++ [KDispatch cmd data]) self'') as Hsend.
  { intros ans self'' r' Hresp Es. unfold send_answer in Es. simpl in Es. case_decide; simplify_eq.
    - apply (Hgo (<[n := ans]> (answers self))); rewrite ?Hresp; intros; rewrite ?lookup_insert_eq, ?lookup_insert_ne in *; congruence.
    - apply (Hgo (answers self)); rewrite ?Hresp; [done|done|congruence]. }
  assert (response cmd body = None → keys_inv (evs ++ [KDispatch cmd data]) (self <| pending ::= delete (Z.of_nat n) |>)) as Hstray.
  { intros Hresp. apply (Hgo (answers self)); rewrite ?Hresp; [done|done|congruence]. }
  destruct cmd; try case_decide; simplify_eq; try (by apply Hstray); try done;
    (destruct (send_answer _ _ _) eqn:Es in E; simplify_eq; by eapply Hsend).
Qed.

Lemma poll_inv evs self timed_out n :
  keys_inv evs self → keys_inv (evs ++ [KPoll timed_out n]) (request_poll timed_out n self).1.
Proof.
  intros [Hn Hs Hp Ha Hw].
  assert (requests (evs ++ [KPoll timed_out n]) = requests evs) as Hr by (rewrite requests_app; unfold requests; simpl; lia).
  assert (∀ m, m ∈ waiting self → (m < requests evs)%nat ∧
    (pending self !! Z.of_nat m = Some m ∨ is_Some (answers self !! m) ∨ came (evs ++ [KPoll timed_out n]) m None)) as Hw'
    by (intros m [? Hor]%Hw; split; [done|]; naive_solver auto using came_more).
  unfold request_poll. simpl.
  destruct (match answers self !! n with Some _ => _ | None => _ end);
    (split; simpl; rewrite ?Hr; [done..|by intros ???; apply came_more, Ha|]; set_solver).
Qed.

Lemma key_run_inv evs : ∀ conn self conn',
  Z.of_nat (requests evs) ≤ 2 ^ 32 → key_run evs (keys_new, conn) = Val (self, conn') → keys_inv evs self.
Proof.
  induction evs as [|e evs IH] using rev_ind; intros conn self conn' Hle E.
  { simpl in E. simplify_eq. split; simpl; [done|done|by intros ??|by intros ??|set_solver]. }
  rewrite key_run_app in E. apply exec_bind_Val_inv in E as ([s1 c1] & E1 & E2). rewrite requests_app in Hle.
  assert (keys_inv evs s1) as Hinv by (eapply IH; [|exact E1]; lia).
  cbn [key_run key_step] in E2. destruct e as [track file|cmd data|timed_out n].
  - rewrite exec_bind_Val in E2. injection E2 as E2. apply (f_equal fst) in E2. cbn [fst] in E2. subst self.
    apply request_inv; [done|]. unfold requests in Hle at 2. simpl in Hle. lia.
  - destruct (dispatch cmd data s1) as [[s2 r]|] eqn:Ed; [|done]. rewrite !exec_bind_Val in E2. simplify_eq.
    by eapply dispatch_inv.
  - rewrite exec_bind_Val in E2. simplify_eq. by apply poll_inv.
Qed.

(** An answer is never replaced. *)
Lemma answers_stay evs evs' conn self conn1 self' conn2 n r :
  Z.of_nat (requests (evs ++ evs')) ≤ 2 ^ 32 →
  key_run evs (keys_new, conn) = Val (self, conn1) → key_run evs' (self, conn1) = Val (self', conn2) →
  answers self !! n = Some r → answers self' !! n = Some r.
Proof.
  revert evs self conn1. induction evs' as [|e evs' IH]; intros evs self conn1 Hle E1 E2 Hr; [by simplify_eq/=|].
  cbn [key_run] in E2. apply exec_bind_Val_inv in E2 as ([s1 c1] & Es & E2).
  assert (key_run (evs ++ [e]) (keys_new, conn) = Val (s1, c1)) as E1'.
  { rewrite key_run_app, E1, exec_bind_Val. cbn [key_run]. by rewrite Es. }
  apply (IH (evs ++ [e]) s1 c1); [by rewrite <- app_assoc|done|done|].
  assert (keys_inv evs self) as [_ _ Hp _ _].
  { eapply key_run_inv; [|exact E1]. rewrite requests_app in Hle. lia. }
  destruct e as [track file|cmd data|timed_out m]; simpl in Es.
  - unfold request, seq_get in Es. destruct (send_key_request _ _ _ _) as [? [|]]; by simplify_eq/=.
  - destruct (dispatch cmd data self) as [[s2 r2]|] eqn:Ed; [|done]. rewrite exec_bind_Val in Es. simplify_eq.
    unfold dispatch in Ed. destruct (take_be 4 data) as [[seq body]|]; [|done]. rewrite exec_bind_Val in Ed.
    destruct (pending self !! seq) as [m|] eqn:Em; [|by simplify_eq]. destruct (Hp _ _ Em) as (_ & _ & Hnone).
    destruct cmd; unfold send_answer in Ed; simpl in Ed; repeat case_decide; simplify_eq; simpl; try done;
      by (rewrite lookup_insert_ne by congruence).
  - unfold request_poll in Es. simplify_eq. by destruct (match answers self !! m with Some _ => _ | None => _ end).
Qed.

(** What a packet with the number of the pending request [n] does: it is a
    panic exactly when it is too short or a key of another length; else the
    request is no longer pending, and if it still waits its next poll gives
    what the packet says, or an error for a packet of an unexpected type. *)
Definition delivers (self : AudioKeyManager) (n : nat) (cmd : PacketType) (body : list Z) : Prop :=
  match dispatch cmd (put_u32 (Z.of_nat n) ++ body) self with
  | Panic => cmd = AesKey ∧ length body ≠ 16%nat ∨ cmd = AesKeyError ∧ (length body < 2)%nat
  | Val (self', _) =>
      (cmd = AesKey → length body = 16%nat) ∧ (cmd = AesKeyError → 2 ≤ length body)%nat ∧
      pending self' !! Z.of_nat n = None ∧
      (n ∈ waiting self → ∀ timed_out,
         (request_poll timed_out n self').2 = Some (default (Err KDropped) (response cmd body)))
  end.

Lemma pending_delivers evs self n cmd body :
  keys_inv evs self → Z.of_nat (requests evs) ≤ 2 ^ 32 → pending self !! Z.of_nat n = Some n → delivers self n cmd body.
Proof.
  intros Hinv Hle Hn. destruct (inv_pending _ _ Hinv _ _ Hn) as (_ & Hb & Hnone).
  unfold delivers, dispatch, put_u32. rewrite take_be_app by (simpl; lia). rewrite exec_bind_Val, Hn.
  assert (∀ self', pending self' = delete (Z.of_nat n) (pending self) →
    (n ∈ waiting self → answers self' !! n = response cmd body) → pending self' !! Z.of_nat n = None ∧
    (n ∈ waiting self → ∀ timed_out, (request_poll timed_out n self').2 = Some (default (Err KDropped) (response cmd body)))) as Hpoll.
  { intros self' Ep Ea. rewrite Ep, lookup_delete_eq. split; [done|]. intros Hw timed_out. unfold request_poll.
    rewrite (Ea Hw). destruct (response cmd body); [done|].
    rewrite decide_False; [done|]. rewrite Ep. intros (s & m & [? Hm]%lookup_delete_Some & ->).
    destruct (inv_pending _ _ Hinv _ _ Hm) as (-> & _). done. }
  assert (∀ a, response cmd body = Some a → (cmd = AesKey → length body = 16%nat) → (cmd = AesKeyError → 2 ≤ length body)%nat →
    let '(self', _) := send_answer n a (self <| pending ::= delete (Z.of_nat n) |>) in
    (cmd = AesKey → length body = 16%nat) ∧ (cmd = AesKeyError → 2 ≤ length body)%nat ∧ pending self' !! Z.of_nat n = None ∧
    (n ∈ waiting self → ∀ timed_out, (request_poll timed_out n self').2 = Some (default (Err KDropped) (response cmd body)))) as Hsend.
  { intros a Ha H1 H2. unfold send_answer. case_decide as Hw; (split; [done|]; split; [done|]; apply Hpoll); [done| |done|done].
    intros _. by rewrite Ha, <- (lookup_insert_eq (answers self) n a). }
  destruct cmd; try (by split; [|split; [|apply Hpoll]]);
    (case_decide; [by apply Hsend|first [by left | right; split; [done|lia]]]).
Qed.

(** C39: every key goes to the request it is for.  Over any history of up to
    2^32 requests with the responses and polls between them, a request's answer
    is the content of a response with its own number that came after it, and
    is never replaced.  A request that waits has its answer, or is pending, or
    lost its turn to a packet of an unexpected type with its number.  A packet
    with the number of a pending request, a key, a refusal or another, settles
    that request: if it still waits, its next poll gives what the packet says. *)
Theorem audio_keys evs evs' conn self conn1 self' conn2 :
  Z.of_nat (requests (evs ++ evs')) ≤ 2 ^ 32 →
  key_run evs (keys_new, conn) = Val (self, conn1) → key_run evs' (self, conn1) = Val (self', conn2) →
  (∀ n r, answers self !! n = Some r → justified evs n r ∧ answers self' !! n = Some r) ∧
  (∀ n, n ∈ waiting self → is_Some (answers self !! n) ∨ pending self !! Z.of_nat n = Some n ∨ came evs n None) ∧
  (∀ n cmd body, pending self !! Z.of_nat n = Some n → delivers self n cmd body).
Proof.
  intros Hle E1 E2.
  assert (Z.of_nat (requests evs) ≤ 2 ^ 32) as Hle1 by (rewrite requests_app in Hle; lia).
  assert (keys_inv evs self) as Hinv by (by eapply key_run_inv).
  split_and!.
  - intros n r Hr. split; [by eapply inv_answers|]. by eapply (answers_stay evs evs' conn self conn1 self' conn2).
  - intros n Hn. apply (inv_waiting _ _ Hinv) in Hn as [_ Hor]. tauto.
  - intros n cmd body. by apply (pending_delivers evs).
Qed.

Lemma audio_keys_witness :
  let conn := mkConn (Some true) [] in
  let evs := [KRequest (mkSpotifyId 5) (mkFileId (replicate 20 1)); KRequest (mkSpotifyId 6) (mkFileId (replicate 20 2));
              KDispatch AesKey (put_u32 1 ++ replicate 16 9)] in
  match key_run evs (keys_new, conn) with
  | Val (self, _) =>
      answers self !! 1%nat = Some (Ok (replicate 16 9)) ∧ justified evs 1 (Ok (replicate 16 9))
  | Panic => False
  end.
Proof.
  intros conn evs. destruct (key_run evs (keys_new, conn)) as [[self conn1]|] eqn:E; [|vm_compute in E; discriminate].
  assert (answers self !! 1%nat = Some (Ok (replicate 16 9))) as Ha.
  { vm_compute in E. injection E as <- <-. vm_compute. reflexivity. }
  split; [exact Ha|].
  apply (audio_keys evs [] conn self conn1 self conn1); [vm_compute; congruence|exact E|reflexivity|exact Ha].
Defined.

(** *** Corner cases *)

(** A request that timed out stays in the table. *)
Lemma timed_out_stays :
  (λ s : AudioKeyManager * Conn, map_to_list (pending s.1)) <$>
    key_run [KRequest (mkSpotifyId 5) (mkFileId (replicate 20 1)); KPoll true 0] (keys_new, mkConn (Some true) []) = Val [(0, 0%nat)].
Proof. vm_compute. reflexivity. Qed.
