(* ===== verification/DealerMaps.v ===== *)
(** * Routing tables of the dealer: [core/src/dealer/maps.rs]

    Request handlers and message subscribers are kept in trees whose edges are
    the components of a URI.  A request goes to the handler registered at a
    prefix of its path; a message to subscribers along its path. *)

From S2P Require Import Prelude.

Local Set Warnings "-register-all".

(** ** Request handlers *)

Inductive HandlerMap (T : Type) :=
| Leaf (t : T)
| Branch (children : gmap string (HandlerMap T)).
Arguments Leaf {T} t.
Arguments Branch {T} children.

Inductive HandlerMapError := AlreadyHandled.

Section handler_map.
Context {T : Type}.
Implicit Types (self : HandlerMap T) (path : list string).

Definition handler_default : HandlerMap T := Branch ∅.

Definition handler_contains (path : string) self : bool :=
  match self with Branch map => bool_decide (is_Some (map !! path)) | Leaf _ => false end.

Fixpoint handler_insert path (handler : T) self : HandlerMap T * result unit HandlerMapError :=
  match self with
  | Leaf _ => (self, Err AlreadyHandled)
  | Branch children =>
      match path with
      | component :: path =>
          let '(node, r) := handler_insert path handler (default handler_default (children !! component)) in
          (Branch (<[component := node]> children), r)
      | [] => if decide (children = ∅) then (Leaf handler, Ok ()) else (self, Err AlreadyHandled)
      end
  end.

Fixpoint handler_get path self : option T :=
  match self with
  | Leaf t => Some t
  | Branch m =>
      match path with
      | [] => None
      | component :: path => m !! component ≫= handler_get path
      end
  end.

Definition is_empty_branch self : bool :=
  match self with Branch b => bool_decide (b = ∅) | Leaf _ => false end.

Fixpoint handler_remove path self : HandlerMap T * option T :=
  match self with
  | Leaf t => (handler_default, Some t)
  | Branch map =>
      match path with
      | [] => (self, None)
      | component :: path =>
          match map !! component with
          | None => (self, None)
          | Some next =>
              let '(next, result) := handler_remove path next in
              (Branch (if is_empty_branch next then delete component map else <[component := next]> map), result)
          end
      end
  end.

(** *** What the tree stands for: the handler registered at exactly a path *)

Fixpoint registered self path : option T :=
  match self, path with
  | Leaf t, [] => Some t
  | Leaf _, _ :: _ => None
  | Branch _, [] => None
  | Branch m, component :: path => m !! component ≫= λ node, registered node path
  end.

(** Every child has a handler below it: no branch is kept for nothing. *)
Fixpoint tidy_along path self : Prop :=
  match self, path with
  | Branch m, component :: path =>
      ∀ node, m !! component = Some node → (∃ p, is_Some (registered node p)) ∧ tidy_along path node
  | _, _ => True
  end.
Definition tidy self : Prop := ∀ path, tidy_along path self.

Lemma tidy_default : tidy handler_default.
Proof. intros [|c path]; simpl; [done|]. by intros node [=]. Qed.

Lemma tidy_child m c node : tidy (Branch m) → m !! c = Some node → tidy node ∧ ∃ p, is_Some (registered node p).
Proof.
  intros Ht E. split; [|by destruct (Ht [c] node E)].
  intros path. by destruct (Ht (c :: path) node E).
Qed.

Lemma tidy_Branch m :
  (∀ c node, m !! c = Some node → tidy node ∧ ∃ p, is_Some (registered node p)) → tidy (Branch m).
Proof. intros Hm [|c path]; simpl; [done|]. intros node E. destruct (Hm c node E) as [Ht Hp]. split; [done|apply Ht]. Qed.

Lemma tidy_Leaf t : tidy (Leaf t).
Proof. by intros [|c path]. Qed.

(** A tree with nothing registered is empty. *)
Lemma tidy_nonempty m : tidy (Branch m) → m ≠ ∅ → ∃ p, is_Some (registered (Branch m) p).
Proof.
  intros Ht Hne. destruct (map_choose m Hne) as (c & node & E).
  destruct (tidy_child m c node Ht E) as (_ & p & Hp). exists (c :: p). simpl. by rewrite E.
Qed.

(** *** The operations on the registered handlers *)

Lemma handler_get_spec path : ∀ self t,
  handler_get path self = Some t ↔ ∃ p q, path = p ++ q ∧ registered self p = Some t.
Proof.
  induction path as [|c path IH]; intros [t'|m] t; simpl.
  - split; [intros [= ->]; by exists [], []|]. intros (p & q & E & Hp). symmetry in E.
    apply app_eq_nil in E as [-> ->]. done.
  - split; [done|]. intros (p & q & E & Hp). symmetry in E. by apply app_eq_nil in E as [-> ->].
  - split; [intros [= ->]; by exists [], (c :: path)|]. intros ([|c' p] & q & E & Hp); done.
  - split.
    + intros E. apply bind_Some in E as (node & En & E). apply IH in E as (p & q & -> & Hp).
      exists (c :: p), q. split; [done|]. simpl. by rewrite En.
    + intros ([|c' p] & q & E & Hp); [done|]. simplify_eq/=. apply bind_Some in Hp as (node & En & Hp).
      rewrite En. simpl. apply IH. eauto.
Qed.

(** Two paths conflict when one is a prefix of the other. *)
Definition conflict (p q : list string) : Prop := p `prefix_of` q ∨ q `prefix_of` p.

Lemma conflict_cons c c' p q : conflict (c' :: p) (c :: q) ↔ c' = c ∧ conflict p q.
Proof.
  unfold conflict. split.
  - intros [E|E]; pose proof (prefix_cons_inv_1 _ _ _ _ E); apply prefix_cons_inv_2 in E; auto.
  - intros [-> [E|E]]; [left|right]; by apply prefix_cons.
Qed.

(** An accepted handler is registered and nothing else changes; it is refused
    exactly when a registered path conflicts, and then nothing changes. *)
Lemma handler_insert_spec path h : ∀ self, tidy self →
  tidy (handler_insert path h self).1 ∧
  match handler_insert path h self with
  | (self', Ok _) =>
      (∀ p, registered self' p = if decide (p = path) then Some h else registered self p) ∧
      (∀ p, is_Some (registered self p) → ¬ conflict p path)
  | (self', Err _) => self' = self ∧ ∃ p, is_Some (registered self p) ∧ conflict p path
  end.
Proof.
  induction path as [|c path IH]; intros [t|m] Ht; simpl.
  - split; [done|]. split; [done|]. exists []. split; [by eexists|]. left. apply prefix_nil.
  - case_decide as Hm; simpl.
    + split; [apply tidy_Leaf|]. subst m. split; intros [|c p]; simpl; try done; by destruct 1.
    + split; [done|]. split; [done|]. destruct (tidy_nonempty m Ht Hm) as [p Hp]. exists p.
      split; [done|]. right. apply prefix_nil.
  - split; [done|]. split; [done|]. exists []. split; [by eexists|]. left. apply prefix_nil.
  - set (node := default handler_default (m !! c)).
    assert (tidy node) as Hn.
    { unfold node. destruct (m !! c) as [n|] eqn:E; [by apply (tidy_child m c n)|apply tidy_default]. }
    specialize (IH node Hn). destruct (handler_insert path h node) as [node' [[]|[]]]; simpl in *.
    + destruct IH as (Ht' & Hreg & Hno). split; [|split].
      * apply tidy_Branch. intros c' n [[<- <-]|[? E]]%lookup_insert_Some; [|by apply (tidy_child m c' n)].
        split; [done|]. exists path. rewrite Hreg, decide_True by done. by eexists.
      * intros [|c' p]; simpl; [done|]. destruct (decide (c = c')) as [<-|Hc].
        -- rewrite lookup_insert_eq. simpl. rewrite Hreg. unfold node.
           destruct (decide (p = path)) as [->|Hp]; [by rewrite decide_True|]. rewrite decide_False by congruence.
           destruct (m !! c); [done|]. by destruct p.
        -- rewrite lookup_insert_ne, decide_False by congruence. done.
      * intros [|c' p]; simpl; [by intros [? ?]|]. intros [t E] [-> Hcf]%conflict_cons.
        apply bind_Some in E as (n & En & E). apply (Hno p); [|done]. unfold node. rewrite En. by eexists.
    + destruct IH as (Ht' & -> & p & Hp & Hcf). 
      assert (m !! c = Some node) as Ec.
      { unfold node in *. destruct (m !! c) as [n|]; [done|]. by destruct Hp as [? Hp], p. }
      rewrite insert_id by done. split; [done|]. split; [done|]. exists (c :: p). simpl. rewrite Ec. split; [done|].
      by apply conflict_cons.
Qed.

Lemma registered_default t path p :
  registered handler_default p = if decide (p `prefix_of` path) then None else registered (Leaf t) p.
Proof. destruct p as [|c p]; [by rewrite decide_True by apply prefix_nil|by case_decide]. Qed.

(** What is registered at a prefix of the path is removed, nothing else. *)
Lemma handler_remove_spec path : ∀ self, tidy self →
  tidy (handler_remove path self).1 ∧
  (∀ p, registered (handler_remove path self).1 p =
        if decide (p `prefix_of` path) then None else registered self p) ∧
  (handler_remove path self).2 = handler_get path self.
Proof.
  induction path as [|c path IH]; intros [t|m] Ht; simpl.
  - split; [apply tidy_default|]. split; [|done]. apply registered_default.
  - split; [done|]. split; [|done]. intros [|c p]; [by rewrite decide_True|]. rewrite decide_False; [done|].
    by intros E%prefix_nil_inv.
  - split; [apply tidy_default|]. split; [|done]. apply registered_default.
  - destruct (m !! c) as [node|] eqn:En; simpl.
    2:{ split; [done|]. split; [|done]. intros [|c' p]; [by rewrite decide_True by apply prefix_nil|]. case_decide as E; [|done].
        apply prefix_cons_inv_1 in E as <-. cbn [registered]. by rewrite En. }
    destruct (tidy_child m c node Ht En) as [Hn _]. destruct (IH node Hn) as (Ht' & Hreg & Hget).
    destruct (handler_remove path node) as [node' r]. simpl in *. split_and!; [| |done].
    + apply tidy_Branch. intros c' n E. destruct (is_empty_branch node') eqn:Eb.
      * apply lookup_delete_Some in E as [_ E]. by apply (tidy_child m c' n).
      * apply lookup_insert_Some in E as [[<- <-]|[_ E]]; [|by apply (tidy_child m c' n)]. split; [done|].
        destruct node' as [t|b]; [exists []; by eexists|]. apply tidy_nonempty; [done|].
        simpl in Eb. by apply bool_decide_eq_false in Eb.
    + intros [|c' p]; [by case_decide|]. cbn [registered]. destruct (decide (c = c')) as [<-|Hc].
      * assert ((if is_empty_branch node' then delete c m else <[c:=node']> m) !! c ≫= (λ n, registered n p)
                = registered node' p) as ->.
        { destruct (is_empty_branch node') eqn:Eb; [|by rewrite lookup_insert_eq]. rewrite lookup_delete_eq. simpl.
          destruct node' as [|b]; [done|]. simpl in Eb. apply bool_decide_eq_true in Eb as ->. by destruct p. }
        rewrite Hreg, En. simpl. case_decide as E1; case_decide as E2; try done.
        -- destruct E2. by apply prefix_cons.
        -- destruct E1. by eapply prefix_cons_inv_2.
      * rewrite decide_False by (intros E%prefix_cons_inv_1; congruence).
        destruct (is_empty_branch node'); [by rewrite lookup_delete_ne|by rewrite lookup_insert_ne].
Qed.

(** Built by insertions and removals. *)
Inductive handler_op := HInsert (path : list string) (h : T) | HRemove (path : list string).

Definition handler_apply (o : handler_op) (m : HandlerMap T) : HandlerMap T :=
  match o with HInsert path h => (handler_insert path h m).1 | HRemove path => (handler_remove path m).1 end.

Definition handler_run (l : list handler_op) : HandlerMap T := foldl (λ m o, handler_apply o m) handler_default l.

Lemma handler_run_tidy l : tidy (handler_run l).
Proof.
  unfold handler_run. induction l as [|o l IH] using rev_ind; [apply tidy_default|]. rewrite foldl_app. simpl.
  destruct o as [path h|path]; simpl; [by apply handler_insert_spec|by apply handler_remove_spec].
Qed.
End handler_map.

(** The tree of request handlers is a table of paths no one of which is
    a prefix of another.  Over any sequence of insertions and removals, a
    lookup finds the handler registered at a prefix of the path, an insertion
    is refused exactly when the path conflicts with a registered one, and a
    removal takes out what the lookup finds. *)
Lemma handler_map_table {T} (l : list (handler_op (T:=T))) path h :
  let m := handler_run l in
  (∀ t, handler_get path m = Some t ↔ ∃ p q, path = p ++ q ∧ registered m p = Some t) ∧
  match handler_insert path h m with
  | (m', Ok _) =>
      (∀ p, registered m' p = if decide (p = path) then Some h else registered m p) ∧
      (∀ p, is_Some (registered m p) → ¬ conflict p path)
  | (m', Err _) => m' = m ∧ ∃ p, is_Some (registered m p) ∧ conflict p path
  end ∧
  (handler_remove path m).2 = handler_get path m ∧
  (∀ p, registered (handler_remove path m).1 p = if decide (p `prefix_of` path) then None else registered m p).
Proof.
  intros m. pose proof (handler_run_tidy l) as Ht. split_and!.
  - apply handler_get_spec.
  - by apply handler_insert_spec.
  - by apply handler_remove_spec.
  - by apply handler_remove_spec.
Qed.

(** ** Message subscribers *)

Inductive SubscriberMap (T : Type) := Node (subscribed : list T) (children : gmap string (SubscriberMap T)).
Arguments Node {T} subscribed children.

Section subscriber_map.
Context {T : Type}.
Implicit Types (self : SubscriberMap T) (path : list string).

Definition subscribed self : list T := match self with Node l _ => l end.
Definition children self : gmap string (SubscriberMap T) := match self with Node _ m => m end.

Definition subscriber_default : SubscriberMap T := Node [] ∅.

Fixpoint subscriber_insert path (handler : T) self : SubscriberMap T :=
  match path with
  | component :: path =>
      Node (subscribed self)
        (<[component := subscriber_insert path handler (default subscriber_default (children self !! component))]>
           (children self))
  | [] => Node (subscribed self ++ [handler]) (children self)
  end.

Definition subscriber_is_empty self : bool :=
  bool_decide (children self = ∅) && match subscribed self with [] => true | _ => false end.

Fixpoint subscriber_contains path self : bool :=
  match subscribed self with
  | _ :: _ => true
  | [] =>
      match path with
      | next :: path =>
          match children self !! next with Some next_map => subscriber_contains path next_map | None => false end
      | [] => negb (subscriber_is_empty self)
      end
  end.

(** [fun] is given the subscribers one after the other and tells which to keep;
    the result has those it was given, in order. *)
Fixpoint subscriber_retain path (keep : T → bool) self : SubscriberMap T * bool * list T :=
  let handled := match subscribed self with [] => false | _ => true end in
  let kept := filter keep (subscribed self) in
  match path with
  | [] => (Node kept (children self), handled, subscribed self)
  | next :: path =>
      match children self !! next with
      | None => (Node kept (children self), handled, subscribed self)
      | Some y =>
          let '(y, handled, called) :=
            if handled then (y, true, []) else subscriber_retain path keep y in
          (Node kept (if subscriber_is_empty y then delete next (children self)
                      else <[next := y]> (children self)),
           handled, subscribed self ++ called)
      end
  end.

(** *** What the tree stands for: the subscribers at exactly a path *)

Fixpoint subscribers_at self path : list T :=
  match path with
  | [] => subscribed self
  | component :: path =>
      match children self !! component with Some node => subscribers_at node path | None => [] end
  end.

Lemma subscriber_insert_at path h : ∀ self p,
  subscribers_at (subscriber_insert path h self) p =
    subscribers_at self p ++ (if decide (p = path) then [h] else []).
Proof.
  induction path as [|c path IH]; intros self [|c' p]; cbn [subscriber_insert subscribers_at subscribed children].
  - by rewrite decide_True.
  - by rewrite decide_False, app_nil_r by done.
  - by rewrite decide_False, app_nil_r by done.
  - destruct (decide (c = c')) as [<-|Hc].
    + rewrite lookup_insert_eq, IH. destruct (decide (p = path)) as [->|Hp].
      * rewrite decide_True by done. destruct (children self !! c); [done|]. by destruct path.
      * rewrite decide_False by congruence. destruct (children self !! c); [done|]. by destruct p.
    + by rewrite lookup_insert_ne, decide_False, app_nil_r by congruence.
Qed.

Lemma subscriber_empty_at self p : subscriber_is_empty self = true → subscribers_at self p = [].
Proof.
  unfold subscriber_is_empty. intros [E%bool_decide_eq_true Hs]%andb_true_iff.
  destruct p as [|c p]; simpl; [by destruct (subscribed self)|]. by rewrite E.
Qed.

(** Replacing a child, or dropping it when it has become empty. *)
Lemma subscriber_replace_at l m c y c' p :
  subscribers_at (Node l (if subscriber_is_empty y then delete c m else <[c:=y]> m)) (c' :: p) =
    if decide (c = c') then subscribers_at y p else subscribers_at (Node l m) (c' :: p).
Proof.
  cbn [subscribers_at children]. destruct (decide (c = c')) as [<-|Hc].
  - destruct (subscriber_is_empty y) eqn:Ee; [|by rewrite lookup_insert_eq].
    rewrite lookup_delete_eq. by rewrite subscriber_empty_at.
  - destruct (subscriber_is_empty y); [by rewrite lookup_delete_ne|by rewrite lookup_insert_ne].
Qed.

(** The shortest prefix of [path] that has subscribers. *)
Fixpoint first_prefix self path : option (list string) :=
  match subscribed self with
  | _ :: _ => Some []
  | [] =>
      match path with
      | [] => None
      | c :: path =>
          match children self !! c with
          | Some node => (c ::.) <$> first_prefix node path
          | None => None
          end
      end
  end.

Definition called_at self path : list T :=
  match first_prefix self path with Some p => subscribers_at self p | None => [] end.

(** A message is offered to the subscribers of the first prefix that has any,
    and to no others; those that refuse are dropped. *)
Lemma subscriber_retain_spec path keep : ∀ self,
  let '(self', handled, called) := subscriber_retain path keep self in
  called = called_at self path ∧ handled = bool_decide (is_Some (first_prefix self path)) ∧
  (∀ p, subscribers_at self' p =
        if decide (first_prefix self path = Some p) then filter keep (subscribers_at self p) else subscribers_at self p).
Proof.
  unfold called_at. induction path as [|c path IH]; intros [l m]; cbn [subscriber_retain first_prefix subscribed children].
  { destruct l as [|t l]; (split; [done|split; [done|]]); intros [|c p];
      cbn [subscribers_at subscribed children]; by rewrite ?decide_True, ?decide_False by done. }
  destruct l as [|t l].
  - destruct (m !! c) as [y|] eqn:Ey; [|split; [done|split; [done|]]; intros p; by rewrite decide_False by done].
    specialize (IH y). destruct (subscriber_retain path keep y) as [[y' handled] called].
    destruct IH as (-> & -> & IH). split_and!.
    + destruct (first_prefix y path); [|done]. cbn [fmap option_fmap option_map subscribers_at children]. by rewrite Ey.
    + apply bool_decide_ext. by rewrite fmap_is_Some.
    + intros [|c' p]; [cbn [subscribers_at subscribed children];
        rewrite decide_False; [done|]; by destruct (first_prefix y path)|].
      rewrite subscriber_replace_at. destruct (decide (c = c')) as [<-|Hc].
      * assert (subscribers_at (Node [] m) (c :: p) = subscribers_at y p) as -> by (simpl; by rewrite Ey).
        rewrite IH. destruct (first_prefix y path) as [q|]; [|done]. cbn [fmap option_fmap option_map].
        destruct (decide (q = p)) as [->|Hq]; [by rewrite !decide_True|by rewrite !decide_False by congruence].
      * by rewrite decide_False by (destruct (first_prefix y path); simpl; congruence).
  - destruct (m !! c) as [y|] eqn:Ey; (split; [by rewrite ?app_nil_r|split; [done|]]); intros [|c' p];
      rewrite ?decide_True, ?decide_False by done; [done| |done..].
    rewrite subscriber_replace_at. destruct (decide (c = c')) as [<-|Hc]; [|done].
    cbn [subscribers_at children]. by rewrite Ey.
Qed.
End subscriber_map.
