(* ===== verification/Dealer.v ===== *)
(** * The dealer: [core/src/dealer]

    Messages and requests that arrive over the web socket are decoded and
    passed to subscribers and handlers by the components of their URI; each
    request is replied to. *)

From S2P Require Import Prelude Digits Text Wire DealerMaps.

(** ** URIs: [split_uri] of [mod.rs] *)

Fixpoint trim_end_matches (c : ascii) (s : string) : string :=
  match s with
  | EmptyString => EmptyString
  | String d s =>
      match trim_end_matches c s with
      | EmptyString => if ascii_dec d c then EmptyString else String d EmptyString
      | t => String d t
      end
  end.

Definition split_uri (s : string) : option (list string) :=
  match strip_prefix "hm://" s with
  | Some rest => Some ("hm"%string :: split "/" (trim_end_matches "/" rest))
  | None =>
      match strip_prefix "spotify:" s with
      | Some rest => Some ("spotify"%string :: split ":" (trim_end_matches ":" rest))
      | None =>
          if str_contains "/" s then Some (EmptyString :: split "/" (trim_end_matches "/" s)) else None
      end
  end.

(** ** Payloads: [protocol.rs] *)

(** Base64 and gzip are library formats, and requests are parsed from JSON by
    derived code. *)
Class DealerFormat := {
  Request : Type;
  base64_decode : string → option (list Z);
  gunzip : list Z → option (list Z);
  request_parse : string → option Request;
}.

Inductive ProtocolError := Base64 | GZip | Deserialization | MoreThenOneValue (n : nat) | NotUtf8.

Inductive MessagePayloadValue := PString (s : string) | PBytes (l : list Z) | PJson (json : string).

Inductive PayloadValue := Empty | Raw (l : list Z) | Json (json : string).

Record WebsocketMessage := mkWsMessage {
  ws_headers : gmap string string;
  payloads : list MessagePayloadValue;
  ws_uri : string;
}.

Record WebsocketRequest := mkWsRequest {
  req_headers : gmap string string;
  message_ident : string;
  key : string;
  compressed : string;
}.

Record Message := mkMessage { headers : gmap string string; payload : PayloadValue; uri : string }.

Section payloads.
Context `{DealerFormat}.

Definition handle_transfer_encoding (headers : gmap string string) (data : list Z) : result (list Z) ProtocolError :=
  if decide (headers !! "Transfer-Encoding"%string = Some "gzip"%string) then
    match gunzip data with Some bytes => Ok bytes | None => Err GZip end
  else Ok data.

Definition message_payload (self : WebsocketMessage) : result PayloadValue ProtocolError :=
  match payloads self with
  | [] => Ok Empty
  | [p] =>
      match p with
      | PJson json => Ok (Json json)
      | PBytes bytes => and_then (handle_transfer_encoding (ws_headers self) bytes) (λ bytes, Ok (Raw bytes))
      | PString s =>
          and_then (ok_or (base64_decode s) Base64) (λ bytes,
          and_then (handle_transfer_encoding (ws_headers self) bytes) (λ bytes, Ok (Raw bytes)))
      end
  | l => Err (MoreThenOneValue (length l))
  end.

Definition request_payload (self : WebsocketRequest) : result Request ProtocolError :=
  and_then (ok_or (base64_decode (compressed self)) Base64) (λ bytes,
  and_then (handle_transfer_encoding (req_headers self) bytes) (λ bytes,
  and_then (ok_or (from_utf8 bytes) NotUtf8) (λ s,
  ok_or (request_parse s) Deserialization))).
End payloads.

(** ** Handlers and subscribers: [mod.rs] *)

Inductive DealerError := AddAlreadyHandled | InvalidUri (u : string) | BuilderNotAvailable | LaunchFailure
| CouldNotSetDealer.

(** The tables of the builder and of the running dealer. *)
Record Tables := mkTables {
  message_handlers : SubscriberMap nat;
  request_handlers : HandlerMap nat;
}.

#[export] Instance settable_Tables : Settable Tables := λ r, mkTables (message_handlers r) (request_handlers r).

Definition tables_new : Tables := mkTables subscriber_default handler_default.

Definition add_handler (u : string) (h : nat) (self : Tables) : Tables * result unit DealerError :=
  match split_uri u with
  | None => (self, Err (InvalidUri u))
  | Some path =>
      let '(m, r) := handler_insert path h (request_handlers self) in
      (self <| request_handlers := m |>, match r with Ok _ => Ok () | Err _ => Err AddAlreadyHandled end)
  end.

Definition remove_handler (u : string) (self : Tables) : Tables * option nat :=
  match split_uri u with
  | None => (self, None)
  | Some path => let '(m, r) := handler_remove path (request_handlers self) in (self <| request_handlers := m |>, r)
  end.

(** The URIs before an invalid one stay subscribed. *)
Fixpoint subscribe (uris : list string) (h : nat) (self : Tables) : Tables * result unit DealerError :=
  match uris with
  | [] => (self, Ok ())
  | u :: uris =>
      match split_uri u with
      | None => (self, Err (InvalidUri u))
      | Some path => subscribe uris h (self <| message_handlers ::= subscriber_insert path h |>)
      end
  end.

Definition handles (self : Tables) (u : string) : bool :=
  handler_contains u (request_handlers self) ||
  match split_uri u with None => false | Some path => subscriber_contains path (message_handlers self) end.

(** ** Dispatch *)

Section dispatch.
Context `{DealerFormat}.

(** [listening] has the subscribers and [serving] the handlers whose receiving
    half is still there, [delivered] and [asked] what they were sent; each
    request asked has a number, under which [responders] has the key to reply
    with.  [replies] is what was put in the queue to the web socket. *)
Record Dealer := mkDealer {
  tables : Tables;
  listening : gset nat;
  serving : gset nat;
  delivered : list (nat * Message);
  asked : list (nat * Request);
  responders : gmap nat string;
  replies : list (string * bool);
}.

#[export] Instance settable_Dealer : Settable Dealer :=
  λ r, mkDealer (tables r) (listening r) (serving r) (delivered r) (asked r) (responders r) (replies r).

Definition dealer_new (t : Tables) (listening serving : gset nat) : Dealer := mkDealer t listening serving [] [] ∅ [].

Definition send_reply (k : string) (success : bool) (self : Dealer) : Dealer :=
  self <| replies ::= (λ l, l ++ [(k, success)]) |>.

Definition dispatch_message (msg : WebsocketMessage) (self : Dealer) : Dealer :=
  match message_payload msg with
  | Err _ => self
  | Ok value =>
      let m := mkMessage (ws_headers msg) value (ws_uri msg) in
      match split_uri (ws_uri msg) with
      | None => self
      | Some path =>
          let '(t, _, called) := subscriber_retain path (λ s, bool_decide (s ∈ listening self))
                                   (message_handlers (tables self)) in
          self <| tables ::= (λ r, r <| message_handlers := t |>) |>
               <| delivered ::= (λ l, l ++ ((λ s, (s, m)) <$> filter (λ s, s ∈ listening self) called)) |>
      end
  end.

(** [DealerRequestHandler::handle_request]. *)
Definition handle_request (h : nat) (request : Request) (k : string) (self : Dealer) : Dealer :=
  if decide (h ∈ serving self) then
    self <| responders ::= <[length (asked self) := k]> |> <| asked ::= (λ l, l ++ [(h, request)]) |>
  else send_reply k false self.

Definition dispatch_request (request : WebsocketRequest) (self : Dealer) : Dealer :=
  match request_payload request with
  | Err _ => self
  | Ok payload_request =>
      match split_uri (message_ident request) with
      | None => send_reply (key request) false self
      | Some path =>
          match handler_get path (request_handlers (tables self)) with
          | Some h => handle_request h payload_request (key request) self
          | None => send_reply (key request) false self
          end
      end
  end.

Inductive Reply := Success | Failure | Unanswered.

(** The task that waits for the handler's reply, [None] when the handler
    dropped its end. *)
Definition reply (n : nat) (r : option Reply) (self : Dealer) : Dealer :=
  match responders self !! n with
  | None => self
  | Some k =>
      let self := self <| responders ::= delete n |> in
      match default Failure r with
      | Unanswered => self
      | Success => send_reply k true self
      | Failure => send_reply k false self
      end
  end.

Inductive dealer_event :=
| DMessage (m : WebsocketMessage) | DRequest (r : WebsocketRequest) | DReply (n : nat) (r : option Reply).

Definition dealer_step (e : dealer_event) (self : Dealer) : Dealer :=
  match e with
  | DMessage m => dispatch_message m self
  | DRequest r => dispatch_request r self
  | DReply n r => reply n r self
  end.

Definition dealer_run (l : list dealer_event) (self : Dealer) : Dealer := foldl (λ s e, dealer_step e s) self l.
End dispatch.
Arguments Dealer : clear implicits.
Arguments Dealer {H}.

(** ** [DealerManager]: [manager.rs] *)

Record DealerManager := mkManager { builder : option Tables; dealer : option Tables }.

#[export] Instance settable_DealerManager : Settable DealerManager := λ r, mkManager (builder r) (dealer r).

Definition manager_new : DealerManager := mkManager (Some tables_new) None.

(** What acts on the dealer when there is one, else on the builder. *)
Definition on_tables (f : Tables → Tables * result unit DealerError) (self : DealerManager)
    : DealerManager * result unit DealerError :=
  match dealer self, builder self with
  | Some t, _ => let '(t, r) := f t in (self <| dealer := Some t |>, r)
  | None, Some t => let '(t, r) := f t in (self <| builder := Some t |>, r)
  | None, None => (self, Err BuilderNotAvailable)
  end.

Definition add_listen_for (u : string) (h : nat) : DealerManager → DealerManager * result unit DealerError :=
  on_tables (subscribe [u] h).
Definition add_handle_for (u : string) (h : nat) : DealerManager → DealerManager * result unit DealerError :=
  on_tables (add_handler u h).

Definition manager_handles (self : DealerManager) (u : string) : bool :=
  match dealer self, builder self with
  | Some t, _ => handles t u
  | None, Some t => handles t u
  | None, None => false
  end.

(** [launched] is whether the first connection could be made. *)
Definition start (launched : bool) (self : DealerManager) : DealerManager * result unit DealerError :=
  match builder self with
  | None => (self, Err BuilderNotAvailable)
  | Some t =>
      let self := self <| builder := None |> in
      if launched then
        match dealer self with
        | Some _ => (self, Err CouldNotSetDealer)
        | None => (self <| dealer := Some t |>, Ok ())
        end
      else (self, Err LaunchFailure)
  end.

Definition close (self : DealerManager) : DealerManager := self <| dealer := None |>.

(** ** Every request is replied to *)

Section replies.
Context `{DealerFormat}.
Implicit Types (self : Dealer) (k : string).

Definition is_request_for k (e : dealer_event) : bool :=
  match e with
  | DRequest r => bool_decide (key r = k) && match request_payload r with Ok _ => true | Err _ => false end
  | _ => false
  end.

Definition gives_answer (e : dealer_event) : bool :=
  match e with DReply _ (Some Unanswered) => false | _ => true end.

Definition requests_for k (l : list dealer_event) : nat := length (filter (is_request_for k) l).
Definition replies_for k self : nat := length (filter (λ x, x.1 = k) (replies self)).
Definition outstanding k self : nat := size (filter (λ x : nat * string, x.2 = k) (responders self)).

Definition numbered self : Prop := ∀ n k, responders self !! n = Some k → n < length (asked self).

Lemma replies_for_send k k' b self :
  replies_for k (send_reply k' b self) = replies_for k self + (if decide (k' = k) then 1 else 0).
Proof.
  unfold replies_for, send_reply. simpl. rewrite filter_app, length_app, filter_cons. simpl.
  f_equal. by destruct (decide (k' = k)).
Qed.

Lemma outstanding_insert k k' n self :
  responders self !! n = None →
  size (filter (λ x : nat * string, x.2 = k) (<[n := k']> (responders self))) =
    outstanding k self + (if decide (k' = k) then 1 else 0).
Proof.
  intros Hn. unfold outstanding. rewrite map_filter_insert. simpl. case_decide.
  - rewrite map_size_insert_None; [lia|]. apply map_lookup_filter_None. by left.
  - rewrite delete_id by done. lia.
Qed.

Lemma outstanding_delete k k' n self :
  responders self !! n = Some k' →
  outstanding k self =
    size (filter (λ x : nat * string, x.2 = k) (delete n (responders self))) + (if decide (k' = k) then 1 else 0).
Proof.
  intros Hn. unfold outstanding. rewrite map_filter_delete. case_decide.
  - rewrite <- (insert_delete_id (filter _ (responders self)) n k') at 1 by by apply map_lookup_filter_Some.
    rewrite map_size_insert_None by apply lookup_delete_eq. lia.
  - rewrite delete_id; [lia|]. apply map_lookup_filter_None. right. intros x E. by simplify_eq.
Qed.

Lemma request_counts r self k :
  numbered self →
  numbered (dispatch_request r self) ∧
  replies_for k (dispatch_request r self) + outstanding k (dispatch_request r self) =
    replies_for k self + outstanding k self + (if is_request_for k (DRequest r) then 1 else 0).
Proof.
  intros Hn. unfold dispatch_request. simpl. destruct (request_payload r) as [req|].
  2:{ rewrite andb_false_r. split; [done|lia]. }
  rewrite andb_true_r.
  assert (∀ b, numbered (send_reply (key r) b self) ∧
    replies_for k (send_reply (key r) b self) + outstanding k (send_reply (key r) b self) =
    replies_for k self + outstanding k self + (if bool_decide (key r = k) then 1 else 0)) as Hsend.
  { intros b. split; [done|]. rewrite replies_for_send. change (outstanding k (send_reply _ _ _)) with (outstanding k self).
    case_bool_decide; [rewrite decide_True by done|rewrite decide_False by done]; lia. }
  destruct (split_uri _) as [path|]; [|apply Hsend]. destruct (handler_get _ _) as [h|]; [|apply Hsend].
  unfold handle_request. destruct (decide (h ∈ serving self)) as [Hs|Hs]; [|apply Hsend]. clear Hsend.
  assert (responders self !! length (asked self) = None) as Hfresh.
  { destruct (responders self !! _) as [k'|] eqn:E; [|done]. apply Hn in E. lia. }
  split.
  - intros n k'. simpl. rewrite length_app. simpl. intros [[<- <-]|[_ E]]%lookup_insert_Some; [lia|].
    apply Hn in E. lia.
  - unfold outstanding at 1. simpl. rewrite outstanding_insert by done.
    change (replies_for k (mkDealer _ _ _ _ _ _ (replies self))) with (replies_for k self).
    case_bool_decide; [rewrite decide_True by done|rewrite decide_False by done]; lia.
Qed.

Lemma reply_counts n r self k :
  numbered self → gives_answer (DReply n r) = true →
  numbered (reply n r self) ∧ replies_for k (reply n r self) + outstanding k (reply n r self) =
    replies_for k self + outstanding k self.
Proof.
  intros Hn Ha. unfold reply. destruct (responders self !! n) as [k'|] eqn:E; [|done].
  assert (numbered (self <| responders ::= delete n |>)) as Hn'.
  { intros m k''. simpl. intros [_ E']%lookup_delete_Some. by eapply Hn. }
  pose proof (outstanding_delete k k' n self E) as E2.
  change (size _) with (outstanding k (self <| responders ::= delete n |>)) in E2.
  assert (replies_for k (self <| responders ::= delete n |>) = replies_for k self) as E1 by done.
  assert (∀ b s, outstanding k (send_reply k' b s) = outstanding k s) as E3 by done.
  generalize dependent (self <| responders ::= delete n |>). intros s1 Hn' E2 E1.
  destruct r as [[]|]; try done; (split; [exact Hn'|]);
    cbn [from_option id]; rewrite replies_for_send, E3; lia.
Qed.

Lemma message_counts m self k :
  numbered self →
  numbered (dispatch_message m self) ∧
  replies_for k (dispatch_message m self) = replies_for k self ∧
  outstanding k (dispatch_message m self) = outstanding k self.
Proof.
  intros Hn. unfold dispatch_message. destruct (message_payload m); [|done]. destruct (split_uri _); [|done].
  by destruct (subscriber_retain _ _ _) as [[t b] called].
Qed.

Lemma run_counts l self k :
  numbered self → Forall (λ e, gives_answer e = true) l →
  replies_for k (dealer_run l self) + outstanding k (dealer_run l self) =
    replies_for k self + outstanding k self + requests_for k l.
Proof.
  intros Hn Hl. revert self Hn. induction Hl as [|e l He Hl IH]; intros self Hn; [unfold requests_for; simpl; lia|].
  unfold requests_for. rewrite filter_cons. cbn [dealer_run foldl]. fold (dealer_run l (dealer_step e self)).
  destruct e as [m|r|n r]; cbn [dealer_step].
  - destruct (message_counts m self k Hn) as (Hn' & E1 & E2). rewrite IH, E1, E2 by done. done.
  - destruct (request_counts r self k Hn) as (Hn' & E). rewrite IH, E by done. unfold requests_for.
    destruct (is_request_for k (DRequest r)); simpl; lia.
  - destruct (reply_counts n r self k Hn He) as (Hn' & E). rewrite IH, E by done. done.
Qed.
End replies.

(** Every request gets exactly one reply.  Over any sequence of messages,
    requests and handlers' replies none of which asks to leave a request
    unanswered, the replies under a key together with the requests still with
    a handler are as many as the requests under that key. *)
Lemma dealer_replies `{DealerFormat} (t : Tables) listening serving l k :
  Forall (λ e, gives_answer e = true) l →
  replies_for k (dealer_run l (dealer_new t listening serving)) +
    outstanding k (dealer_run l (dealer_new t listening serving)) = requests_for k l.
Proof.
  intros Hl. rewrite run_counts; [|by intros n k'|done]. unfold replies_for, outstanding. simpl.
  by rewrite map_filter_empty.
Qed.

(** A format with plain text requests. *)
Definition plain_format : DealerFormat := {|
  Request := string;
  base64_decode s := Some (code <$> String.list_ascii_of_string s);
  gunzip l := Some l;
  request_parse s := Some s;
|}.

Lemma dealer_example :
  let F := plain_format in
  replies (dealer_run [DRequest (mkWsRequest ∅ "hm://connect-state/v1/player" "k1" "play");
                       DRequest (mkWsRequest ∅ "hm://nobody" "k2" "play"); DReply 0 (Some Success)]
    (dealer_new (add_handler "hm://connect-state/v1" 7 tables_new).1 ∅ {[7]})) = [("k2", false); ("k1", true)]%string.
Proof. vm_compute. reflexivity. Qed.

(** *** Corner cases *)

(** [handles] looks for the whole URI among the first components of the
    handlers' paths, so it does not see request handlers. *)
Lemma handles_misses_requests :
  (λ t, (handles t "hm://connect-state/v1", handler_get ["hm"; "connect-state"; "v1"]%string (request_handlers t)))
    (add_handler "hm://connect-state/v1" 7 tables_new).1 = (false, Some 7).
Proof. vm_compute. reflexivity. Qed.

(** A subscriber of a longer prefix gets nothing when a shorter one has
    subscribers. *)
Lemma longer_prefix_starves :
  (subscriber_retain ["hm"; "a"; "b"]%string (λ _, true)
    (message_handlers (subscribe ["hm://a"; "hm://a/b"]%string 1 tables_new).1)).2 = [1].
Proof. vm_compute. reflexivity. Qed.

(** A failed start loses the handlers, and starting again is refused. *)
Lemma failed_start_loses :
  let m := (start false (add_handle_for "hm://x" 1 manager_new).1).1 in
  m = mkManager None None ∧ (start true m).2 = Err BuilderNotAvailable.
Proof. vm_compute. done. Qed.
