(* ===== verification/Mercury.v ===== *)
(** * Mercury: [core/src/mercury]

    Requests and subscriptions over the access point connection.  A response
    is a header and payload parts, which the server may spread over several
    packets, cutting a part in two where it likes; the packets of different
    requests may be interleaved. *)

From S2P Require Import Prelude Digits Text Wire.

Local Open Scope Z_scope.

Inductive MercuryMethod := Get | Sub | Unsub | Send.

Record MercuryRequest := mkRequest {
  method : MercuryMethod;
  uri : string;
  content_type : option string;
  payload : list (list Z);
}.

Record MercuryResponse := mkResponse {
  response_uri : string;
  status_code : Z;
  response_payload : list (list Z);
}.

Inductive MercuryError :=
| MChannel | MCommand (cmd : PacketType) | MResponse (r : MercuryResponse)
| MProtobuf | MSend (e : SendError) | MDropped.

(** The messages of the protobuf schema and the percent-encoding of the
    [form_urlencoded] crate. *)
Class MercuryFormat := {
  header_write : string → string → option string → list Z;
  header_parse : list Z → option (string * Z);
  subscription_parse : list Z → option string;
  byte_serialize : string → string;
}.

Definition method_string (m : MercuryMethod) : string :=
  match m with Get => "GET" | Sub => "SUB" | Unsub => "UNSUB" | Send => "SEND" end.

Definition command (m : MercuryMethod) : PacketType :=
  match m with Get | Send => MercuryReq | Sub => MercurySub | Unsub => MercuryUnsub end.

Record MercuryPending := mkPending {
  parts : list (list Z);
  partial : option (list Z);
  callback : option nat;
}.

#[export] Instance settable_MercuryPending : Settable MercuryPending :=
  λ r, mkPending (parts r) (partial r) (callback r).

(** Futures and subscribers are numbered in the order of their creation.
    [waiting] and [subscribers] have those whose receiving half is still there;
    [answers] and [pushed] record what was sent to them. *)
Record MercuryManager := mkMercury {
  sequence : Z;
  pending : gmap (list Z) MercuryPending;
  subscriptions : list (string * nat);
  invalid : bool;
  next_future : nat;
  waiting : gset nat;
  answers : gmap nat (result MercuryResponse MercuryError);
  next_subscriber : nat;
  subscribers : gset nat;
  pushed : list (nat * MercuryResponse);
}.

#[export] Instance settable_MercuryManager : Settable MercuryManager :=
  λ r, mkMercury (sequence r) (pending r) (subscriptions r) (invalid r) (next_future r) (waiting r) (answers r)
         (next_subscriber r) (subscribers r) (pushed r).

Definition mercury_new : MercuryManager := mkMercury 0 ∅ [] false 0 ∅ ∅ 0 ∅ [].

Definition part_bytes (p : list Z) : list Z := put_u16 (Z.of_nat (length p)) ++ p.

(** [dealer_handles] is the dealer's claim to a URI. *)
Section mercury.
Context `{MercuryFormat} (dealer_handles : string → bool).

(** ** Requests *)

Definition encode (self : MercuryRequest) (seq : list Z) : exec (list Z) :=
  count ← uadd u16_max 1 (wrapu 16 (Z.of_nat (length (payload self))));
  let header := header_write (uri self) (method_string (method self)) (content_type self) in
  Val (put_u16 (Z.of_nat (length seq)) ++ seq ++ to_be_bytes 1 1 ++ put_u16 count ++
       part_bytes header ++ (payload self ≫= part_bytes)).

Definition next_seq (self : MercuryManager) : list Z * MercuryManager :=
  let '(seq, next) := seq_get 64 (sequence self) in (put_u64 seq, self <| sequence := next |>).

Definition request (req : MercuryRequest) (self : MercuryManager) (conn : Conn)
    : exec (MercuryManager * Conn * result nat MercuryError) :=
  let n := next_future self in
  let '(seq, self) := next_seq (self <| next_future := S n |>) in
  let self := if invalid self then self
              else self <| pending ::= <[seq := mkPending [] None (Some n)]> |> in
  data ← encode req seq;
  let '(conn, r) := send_packet (command (method req)) data conn in
  match r with
  | Ok _ => Val (self <| waiting ::= ({[n]} ∪.) |>, conn, Ok n)
  | Err e => Val (self, conn, Err (MSend e))
  end.

Definition get (u : string) : MercuryManager → Conn → exec (MercuryManager * Conn * result nat MercuryError) :=
  request (mkRequest Get u None []).
Definition send (u : string) (data : list Z)
    : MercuryManager → Conn → exec (MercuryManager * Conn * result nat MercuryError) :=
  request (mkRequest Send u None [data]).

(** [MercuryFuture::poll]: the answer, or an error once the sender is gone. *)
Definition future_poll (n : nat) (self : MercuryManager) : option (result MercuryResponse MercuryError) :=
  match answers self !! n with
  | Some r => Some r
  | None => if decide (map_Exists (λ _ p, callback p = Some n) (pending self)) then None else Some (Err MDropped)
  end.

(** ** Subscriptions *)

Definition subscribe_request (u : string) : MercuryManager → Conn → exec (MercuryManager * Conn * result nat MercuryError) :=
  request (mkRequest Sub u None []).

(** What [subscribe] does with the response. *)
Definition subscribe_response (u : string) (response : MercuryResponse) (self : MercuryManager) : nat * MercuryManager :=
  let c := next_subscriber self in
  let self := self <| next_subscriber := S c |> <| subscribers ::= ({[c]} ∪.) |> in
  (c, if invalid self then self
      else match response_payload response with
           | [] => self <| subscriptions ::= (λ l, l ++ [(u, c)]) |>
           | subs => self <| subscriptions ::= (λ l, l ++ ((λ sub_uri, (sub_uri, c)) <$> omap subscription_parse subs)) |>
           end).

Definition listen_for (u : string) (self : MercuryManager) : nat * MercuryManager :=
  let c := next_subscriber self in
  let self := self <| next_subscriber := S c |> <| subscribers ::= ({[c]} ∪.) |> in
  (c, if invalid self then self else self <| subscriptions ::= (λ l, l ++ [(u, c)]) |>).

(** ** Packets *)

Definition send_answer (n : nat) (r : result MercuryResponse MercuryError) (self : MercuryManager)
    : MercuryManager * result unit MercuryError :=
  if decide (n ∈ waiting self) then (self <| answers ::= <[n := r]> |>, Ok ()) else (self, Err MChannel).

Definition encode_uri (u : string) : string :=
  match split "/" u with
  | [] => EmptyString
  | first :: rest => join "/" (first :: (byte_serialize <$> rest))
  end.

(** Pass an event to the subscriptions whose prefix it has; those whose
    receiver is gone are dropped. *)
Definition push_event (response : MercuryResponse) (self : MercuryManager) : MercuryManager * bool :=
  let u := encode_uri (response_uri response) in
  let matching := filter (λ s : string * nat, starts_with (fst s) u = true) (subscriptions self) in
  (self <| subscriptions ::=
             filter (λ s : string * nat, starts_with (fst s) u = true → snd s ∈ subscribers self) |>
        <| pushed ::= (λ l, l ++ ((λ s : string * nat, (snd s, response)) <$>
             filter (λ s : string * nat, snd s ∈ subscribers self) matching)) |>,
   match matching with [] => false | _ => true end).

Definition complete_request (cmd : PacketType) (p : MercuryPending) (self : MercuryManager)
    : exec (MercuryManager * result unit MercuryError) :=
  match parts p with
  | [] => Panic
  | header_data :: rest =>
      match header_parse header_data with
      | None => Val (self, Err MProtobuf)
      | Some (u, status) =>
          let response := mkResponse u status rest in
          if decide (500 ≤ status) then Val (self, Err (MResponse response))
          else if decide (400 ≤ status) then
            match callback p with
            | Some n =>
                let '(self, r) := send_answer n (Err (MResponse response)) self in
                Val (self, match r with Ok _ => Err (MResponse response) | Err e => Err e end)
            | None => Val (self, Err (MResponse response))
            end
          else if decide (cmd = MercuryEvent) then
            let '(self, found) := push_event response self in
            Val (self, if found then Ok ()
                       else if dealer_handles u then Ok () else Err (MResponse response))
          else
            match callback p with
            | Some n => Val (send_answer n (Ok response) self)
            | None => Val (self, Err (MResponse response))
            end
      end
  end.

Definition parse_part (data : list Z) : exec (list Z * list Z) :=
  '(size, data) ← take_be 2 data; split_to (Z.to_nat size) data.

(** One turn of the loop over the parts; [is_last] is [i == count - 1]. *)
Definition add_part (is_last : bool) (flags : Z) (part : list Z) (p : MercuryPending) : MercuryPending :=
  let part := match partial p with Some partial => partial ++ part | None => part end in
  let p := p <| partial := None |> in
  if is_last && bool_decide (flags = 2) then p <| partial := Some part |> else p <| parts ::= (λ l, l ++ [part]) |>.

Fixpoint read_parts (count : nat) (flags : Z) (data : list Z) (p : MercuryPending) : exec MercuryPending :=
  match count with
  | O => Val p
  | S k =>
      '(part, data) ← parse_part data;
      read_parts k flags data (add_part (bool_decide (k = O)) flags part p)
  end.

Definition dispatch (cmd : PacketType) (data : list Z) (self : MercuryManager)
    : exec (MercuryManager * result unit MercuryError) :=
  '(seq_len, data) ← take_be 2 data;
  '(seq, data) ← split_to (Z.to_nat seq_len) data;
  '(flags, data) ← take_be 1 data;
  '(count, data) ← take_be 2 data;
  let removed := pending self !! seq in
  let self := self <| pending ::= delete seq |> in
  match match removed with
        | Some p => Some p
        | None => if decide (cmd = MercuryEvent) then Some (mkPending [] None None) else None
        end with
  | None => Val (self, Err (MCommand cmd))
  | Some p =>
      p ← read_parts (Z.to_nat count) flags data p;
      if decide (flags = 1) then complete_request cmd p self
      else Val (self <| pending ::= <[seq := p]> |>, Ok ())
  end.

Definition shutdown (self : MercuryManager) : MercuryManager :=
  self <| invalid := true |> <| pending := ∅ |> <| subscriptions := [] |>.
End mercury.

(** ** [MercurySender] *)

Record MercurySender := mkSender {
  sender_uri : string;
  sender_pending : list nat;
  buffered_future : option nat;
}.

#[export] Instance settable_MercurySender : Settable MercurySender :=
  λ r, mkSender (sender_uri r) (sender_pending r) (buffered_future r).

Definition sender_new (u : string) : MercurySender := mkSender u [] None.

Definition is_flushed (self : MercurySender) : bool :=
  match buffered_future self, sender_pending self with None, [] => true | _, _ => false end.

Definition sender_send `{MercuryFormat} (item : list Z) (self : MercurySender) (m : MercuryManager) (conn : Conn)
    : exec (MercurySender * MercuryManager * Conn * result unit MercuryError) :=
  '(m, conn, r) ← send (sender_uri self) item m conn;
  Val (match r with
       | Ok task => (self <| sender_pending ::= (λ l, l ++ [task]) |>, m, conn, Ok ())
       | Err e => (self, m, conn, Err e)
       end).

(** The loop of [flush]; [await] is what a future resolves to. *)
Fixpoint flush_loop {E} (await : nat → result unit E) (fut : nat) (queue : list nat)
    : option nat * list nat * result unit E :=
  match await fut with
  | Err e => (Some fut, queue, Err e)
  | Ok _ => match queue with
            | [] => (None, [], Ok ())
            | next :: queue => flush_loop await next queue
            end
  end.

Definition flush {E} (await : nat → result unit E) (self : MercurySender) : MercurySender * result unit E :=
  let '(buffered, queue) :=
    match buffered_future self, sender_pending self with
    | None, fut :: queue => (Some fut, queue)
    | b, queue => (b, queue)
    end in
  match buffered with
  | None => (self <| buffered_future := None |> <| sender_pending := queue |>, Ok ())
  | Some fut =>
      let '(b, queue, r) := flush_loop await fut queue in
      (self <| buffered_future := b |> <| sender_pending := queue |>, r)
  end.

Definition sender_clone (self : MercurySender) : MercurySender := mkSender (sender_uri self) [] None.

(** A flush that succeeds leaves nothing behind, one that fails stops at the
    future that failed. *)
Lemma flush_loop_spec {E} (await : nat → result unit E) fut queue b q r :
  flush_loop await fut queue = (b, q, r) →
  match r with
  | Ok _ => b = None ∧ q = []
  | Err e => ∃ g, b = Some g ∧ await g = Err e
  end.
Proof.
  revert fut. induction queue as [|next queue IH]; intros fut; simpl; destruct (await fut) eqn:Ea; intros E';
    simplify_eq; first [done | by eapply IH | eauto].
Qed.

Lemma flush_flushes {E} (await : nat → result unit E) self self' :
  flush await self = (self', Ok ()) → is_flushed self' = true.
Proof.
  unfold flush, is_flushed. destruct (buffered_future self) as [f|], (sender_pending self) as [|g q];
    intros E'; try (destruct (flush_loop _ _ _) as [[b q'] r] eqn:El; simplify_eq;
                    destruct (flush_loop_spec _ _ _ _ _ _ El) as [-> ->]); by simplify_eq/=.
Qed.

(** ** Reassembly *)

(** A packet on the wire. *)
Record message := mkMessage { m_cmd : PacketType; m_seq : list Z; m_flags : Z; m_pieces : list (list Z) }.

Definition message_bytes (m : message) : list Z :=
  put_u16 (Z.of_nat (length (m_seq m))) ++ m_seq m ++ to_be_bytes 1 (m_flags m) ++
  put_u16 (Z.of_nat (length (m_pieces m))) ++ (m_pieces m ≫= part_bytes).

Record message_ok (m : message) : Prop := {
  ok_seq : Z.of_nat (length (m_seq m)) ≤ 65535;
  ok_flags : 0 ≤ m_flags m < 256;
  ok_count : Z.of_nat (length (m_pieces m)) ≤ 65535;
  ok_pieces : Forall (λ p : list Z, Z.of_nat (length p) ≤ 65535) (m_pieces m);
}.

(** The ways to spread parts over packets: the last packet has flag 1; a
    packet with flag 2 ends in the middle of a part; any other flag ends
    between parts. *)
Inductive fragments : list (list Z) → list (Z * list (list Z)) → Prop :=
| frag_final ps : fragments ps [(1, ps)]
| frag_more f ps qs pkts : f ≠ 1 → f ≠ 2 → fragments qs pkts → fragments (ps ++ qs) ((f, ps) :: pkts)
| frag_split ps a b qs pkts :
    fragments (b :: qs) pkts → fragments (ps ++ (a ++ b) :: qs) ((2, ps ++ [a]) :: pkts).

Fixpoint add_parts (flags : Z) (pieces : list (list Z)) (p : MercuryPending) : MercuryPending :=
  match pieces with
  | [] => p
  | part :: pieces => add_parts flags pieces (add_part (bool_decide (length pieces = O)) flags part p)
  end.

(** The parts there will be when [ps] follows. *)
Definition resume (p : MercuryPending) (ps : list (list Z)) : list (list Z) :=
  match partial p, ps with
  | None, _ => parts p ++ ps
  | Some _, [] => parts p
  | Some a, b :: ps => parts p ++ (a ++ b) :: ps
  end.

Lemma add_part_callback l f part p : callback (add_part l f part p) = callback p.
Proof. unfold add_part. by destruct (l && _). Qed.

Lemma add_parts_callback f ps p : callback (add_parts f ps p) = callback p.
Proof. revert p. induction ps as [|part ps IH]; intros p; [done|]. simpl. by rewrite IH, add_part_callback. Qed.

(** Away from the end of a flag 2 packet, a part is complete. *)
Lemma add_part_resume l f part p qs :
  l && bool_decide (f = 2) = false →
  resume (add_part l f part p) qs = resume p (part :: qs) ∧ partial (add_part l f part p) = None.
Proof.
  intros E. unfold add_part, resume. rewrite E. simpl. destruct (partial p); by rewrite <- app_assoc.
Qed.

Lemma add_parts_more f ps p qs : f ≠ 2 → resume (add_parts f ps p) qs = resume p (ps ++ qs).
Proof.
  intros Hf. revert p. induction ps as [|part ps IH]; intros p; [done|]. simpl. rewrite IH.
  apply add_part_resume. rewrite (bool_decide_false (f = 2)) by done. by rewrite andb_false_r.
Qed.

Lemma add_parts_split ps a b qs p :
  resume (add_parts 2 (ps ++ [a]) p) (b :: qs) = resume p (ps ++ (a ++ b) :: qs).
Proof.
  revert p. induction ps as [|part ps IH]; intros p; simpl.
  - unfold resume, add_part. simpl. destruct (partial p); simpl; by rewrite <- ?app_assoc.
  - rewrite IH. apply add_part_resume. rewrite (bool_decide_false (length (ps ++ [a]) = O)); [done|].
    rewrite length_app. simpl. lia.
Qed.

Lemma add_parts_partial f ps p :
  f ≠ 2 → partial (add_parts f ps p) = match ps with [] => partial p | _ => None end.
Proof.
  intros Hf. destruct ps as [|part ps]; [done|]. revert part p.
  induction ps as [|part' ps IH]; intros part p; [|by rewrite <- (IH part' (add_part false f part p))].
  simpl. unfold add_part. by rewrite (bool_decide_false (f = 2)).
Qed.

(** The last packet completes everything. *)
Lemma add_parts_final ps p : (partial p = None ∨ ps ≠ []) → parts (add_parts 1 ps p) = resume p ps.
Proof.
  intros Hp. pose proof (add_parts_more 1 ps p [] ltac:(done)) as E. rewrite app_nil_r in E. rewrite <- E.
  unfold resume. rewrite add_parts_partial by done. destruct ps; [destruct Hp as [->|]|]; by rewrite ?app_nil_r.
Qed.

Section reassembly.
Context `{MercuryFormat} (dealer_handles : string → bool).
Local Abbreviation complete_request := (complete_request dealer_handles).
Local Abbreviation dispatch := (dispatch dealer_handles).

Lemma read_parts_bytes flags pieces p :
  Forall (λ q : list Z, Z.of_nat (length q) ≤ 65535) pieces →
  read_parts (length pieces) flags (pieces ≫= part_bytes) p = Val (add_parts flags pieces p).
Proof.
  intros Hok. revert p. induction Hok as [|q pieces Hq Hok IH]; intros p; [done|].
  assert ((q :: pieces) ≫= part_bytes = put_u16 (Z.of_nat (length q)) ++ q ++ (pieces ≫= part_bytes)) as ->.
  { by rewrite app_assoc. }
  cbn [length read_parts]. unfold parse_part. rewrite take_put_u16 by lia.
  rewrite exec_bind_Val, Nat2Z.id, split_to_app by done. rewrite exec_bind_Val. apply IH.
Qed.

(** [dispatch] on a well-formed packet. *)
Definition dispatch_message (m : message) (self : MercuryManager) : exec (MercuryManager * result unit MercuryError) :=
  let removed := pending self !! m_seq m in
  let self := self <| pending ::= delete (m_seq m) |> in
  match match removed with
        | Some p => Some p
        | None => if decide (m_cmd m = MercuryEvent) then Some (mkPending [] None None) else None
        end with
  | None => Val (self, Err (MCommand (m_cmd m)))
  | Some p =>
      let p := add_parts (m_flags m) (m_pieces m) p in
      if decide (m_flags m = 1) then complete_request (m_cmd m) p self
      else Val (self <| pending ::= <[m_seq m := p]> |>, Ok ())
  end.

Lemma dispatch_bytes m self : message_ok m → dispatch (m_cmd m) (message_bytes m) self = dispatch_message m self.
Proof.
  intros [Hs Hf Hc Hp]. unfold dispatch, message_bytes. rewrite take_put_u16 by lia.
  rewrite exec_bind_Val, Nat2Z.id, split_to_app by done. rewrite exec_bind_Val, take_be_app by (simpl; lia).
  rewrite exec_bind_Val, take_put_u16 by lia. rewrite exec_bind_Val, Nat2Z.id. unfold dispatch_message.
  destruct (match pending self !! m_seq m with Some _ => _ | None => _ end) as [p|]; [|done].
  by rewrite read_parts_bytes.
Qed.

(** A request is sent as one final packet with its header and payload. *)
Lemma encode_message req seq data :
  encode req seq = Val data → Z.of_nat (length (payload req)) ≤ 65535 →
  data = message_bytes (mkMessage (command (method req)) seq 1
    (header_write (uri req) (method_string (method req)) (content_type req) :: payload req)).
Proof.
  unfold encode. intros E Hl. apply exec_bind_Val_inv in E as (c & Ec & E). simplify_eq.
  assert (wrapu 16 (Z.of_nat (length (payload req))) = Z.of_nat (length (payload req))) as Ew.
  { unfold wrapu. rewrite Z.mod_small; lia. }
  rewrite Ew in Ec. apply uadd_Val_inv in Ec as [-> Hc].
  unfold message_bytes. simpl m_pieces. cbn [length]. rewrite Nat2Z.inj_succ, Z.add_1_l. done.
Qed.

(** The packets that arrive, with what could not be handled only logged. *)
Fixpoint mercury_run (l : list (PacketType * list Z)) (self : MercuryManager) : exec MercuryManager :=
  match l with
  | [] => Val self
  | (cmd, data) :: l => '(self, _) ← dispatch cmd data self; mercury_run l self
  end.

Definition wire (m : message) : PacketType * list Z := (m_cmd m, message_bytes m).

(** [n] waits and is called back by no request but [seq]. *)
Record only_seq (n : nat) (seq : list Z) (self : MercuryManager) : Prop := {
  only_waits : n ∈ waiting self;
  only_callback s p : pending self !! s = Some p → callback p = Some n → s = seq;
}.

Definition untouched (n : nat) (self self' : MercuryManager) : Prop :=
  waiting self' = waiting self ∧ pending self' = pending self ∧ answers self' !! n = answers self !! n.

Lemma complete_request_frame n cmd p self :
  parts p ≠ [] → callback p ≠ Some n →
  ∃ self' r, complete_request cmd p self = Val (self', r) ∧ untouched n self self'.
Proof.
  intros Hp Hc. unfold complete_request. destruct (parts p) as [|hd rest]; [done|].
  assert (∀ n' a, callback p = Some n' → untouched n self (send_answer n' a self).1) as Hsend.
  { intros n' a E. unfold send_answer, untouched. case_decide; [|done]. simpl.
    rewrite lookup_insert_ne by congruence. done. }
  destruct (header_parse hd) as [[u status]|]; [|by eexists _, _]. repeat case_decide; [by eexists _, _|..].
  - destruct (callback p) as [n'|]; [|by eexists _, _].
    specialize (Hsend n' (Err (MResponse (mkResponse u status rest))) eq_refl).
    destruct (send_answer _ _ _) as [s r]. by eexists _, _.
  - by eexists _, _.
  - destruct (callback p) as [n'|]; [|by eexists _, _].
    specialize (Hsend n' (Ok (mkResponse u status rest)) eq_refl).
    destruct (send_answer _ _ _) as [s r]. by eexists _, _.
Qed.

(** A final packet of another request must bring a part, or [complete_request]
    would have no header. *)
Definition complete_ok (m : message) : Prop := m_flags m = 1 → m_pieces m ≠ [].

Lemma add_parts_final_nonempty ps p : ps ≠ [] → parts (add_parts 1 ps p) ≠ [].
Proof.
  intros Hps. rewrite add_parts_final by auto. destruct ps as [|q ps]; [done|]. unfold resume.
  destruct (partial p); intros [? ?]%app_eq_nil; done.
Qed.

Lemma dispatch_other n seq m self :
  only_seq n seq self → m_seq m ≠ seq → complete_ok m →
  ∃ self' r, dispatch_message m self = Val (self', r) ∧ only_seq n seq self' ∧
    pending self' !! seq = pending self !! seq ∧ answers self' !! n = answers self !! n.
Proof.
  intros [Hw Ho] Hne Hc. unfold dispatch_message.
  set (p0 := match pending self !! m_seq m with Some p => Some p | None => _ end).
  assert (∀ p, p0 = Some p → callback p ≠ Some n) as Hcb.
  { intros p E Hcb. unfold p0 in E. destruct (pending self !! m_seq m) as [q|] eqn:Eq.
    - simplify_eq. by apply Hne, (Ho _ p).
    - case_decide; by simplify_eq. }
  assert (only_seq n seq (self <| pending ::= delete (m_seq m) |>)) as [Hw' Ho'].
  { split; [done|]. intros s p E. simpl in E. apply lookup_delete_Some in E as [_ E]. by eapply Ho. }
  destruct p0 as [p|]; cbv beta iota zeta.
  2:{ eexists _, _. split; [done|]. split; [by split|]. simpl. by rewrite lookup_delete_ne by done. }
  case_decide as Hf.
  - destruct (complete_request_frame n (m_cmd m) (add_parts (m_flags m) (m_pieces m) p)
      (self <| pending ::= delete (m_seq m) |>)) as (self' & r & -> & (E1 & E2 & E3)).
    { rewrite Hf. by apply add_parts_final_nonempty, Hc. }
    { rewrite add_parts_callback. by apply Hcb. }
    eexists _, _. split; [done|]. split; [split; rewrite ?E1, ?E2; [done|exact Ho']|].
    rewrite E2, E3. simpl. by rewrite lookup_delete_ne by done.
  - eexists _, _. split; [done|]. simpl. split; [split; simpl; [done|]|].
    + intros s q [[<- <-]|[_ E]]%lookup_insert_Some; [|by apply (Ho' s q)].
      rewrite add_parts_callback. intros E. by destruct (Hcb p eq_refl E).
    + by rewrite lookup_insert_ne, lookup_delete_ne by done.
Qed.

Lemma run_others n seq l self :
  only_seq n seq self → Forall message_ok l → Forall (λ m, m_seq m ≠ seq) l → Forall complete_ok l →
  ∃ self', mercury_run (wire <$> l) self = Val self' ∧ answers self' !! n = answers self !! n ∧
    only_seq n seq self' ∧ pending self' !! seq = pending self !! seq.
Proof.
  revert self. induction l as [|m l IH]; intros self Ho Hok Hne Hc; [by eexists|].
  apply Forall_cons in Hok as [Hm Hok]. apply Forall_cons in Hne as [Hs Hne]. apply Forall_cons in Hc as [Hcm Hc].
  cbn [fmap list_fmap mercury_run wire]. rewrite dispatch_bytes by done.
  destruct (dispatch_other n seq m self Ho Hs Hcm) as (s1 & r & -> & Ho1 & Hp1 & Ha). rewrite exec_bind_Val.
  destruct (IH s1) as (s2 & -> & E2 & Ho2 & Hp2); [done..|]. exists s2. by rewrite E2, Hp2.
Qed.

(** The packets of one request among those of others. *)
Definition for_seq (seq : list Z) (l : list message) : list (Z * list (list Z)) :=
  (λ m, (m_flags m, m_pieces m)) <$> filter (λ m, m_seq m = seq) l.

Definition well_formed (seq : list Z) (m : message) : Prop :=
  message_ok m ∧ (m_seq m = seq → m_cmd m ≠ MercuryEvent) ∧ (m_seq m ≠ seq → complete_ok m).

(** What the requester of a response is sent, if anything: nothing when the
    header does not parse or the server failed. *)
Definition sent_back (header : list Z) (body : list (list Z)) : option (result MercuryResponse MercuryError) :=
  match header_parse header with
  | None => None
  | Some (u, status) =>
      if decide (500 ≤ status) then None
      else if decide (400 ≤ status) then Some (Err (MResponse (mkResponse u status body)))
      else Some (Ok (mkResponse u status body))
  end.

(** The final packet calls the requester back. *)
Lemma complete_request_answers n cmd p self header body :
  n ∈ waiting self → callback p = Some n → parts p = header :: body → cmd ≠ MercuryEvent →
  ∃ r, complete_request cmd p self =
    Val (match sent_back header body with Some a => self <| answers ::= <[n := a]> |> | None => self end, r).
Proof.
  intros Hw Hc Hp Hcmd. unfold complete_request, sent_back, send_answer. rewrite Hp, Hc.
  destruct (header_parse header) as [[u status]|]; [|by eexists].
  repeat case_decide; try lia; try done; by eexists.
Qed.

Lemma for_seq_nil seq l : for_seq seq l = [] → Forall (λ m, m_seq m ≠ seq) l.
Proof.
  intros E%fmap_nil_inv. apply Forall_forall. intros x Hx Hxs.
  assert (x ∈ filter (λ m, m_seq m = seq) l) as Hin by by apply list_elem_of_filter.
  rewrite E in Hin. by apply not_elem_of_nil in Hin.
Qed.

(** The request's last packet, and the packets of others after it. *)
Lemma run_completes n m header body l self p :
  only_seq n (m_seq m) self → pending self !! m_seq m = Some p → callback p = Some n → answers self !! n = None →
  Forall (well_formed (m_seq m)) (m :: l) → for_seq (m_seq m) l = [] → m_flags m = 1 →
  parts (add_parts 1 (m_pieces m) p) = header :: body →
  ∃ self', mercury_run (wire <$> m :: l) self = Val self' ∧ future_poll n self' = Some (default (Err MDropped) (sent_back header body)).
Proof.
  intros [Hw Ho] Hp Hcb Ha [(Hok & Hcmd & _) Hwf]%Forall_cons Hl%for_seq_nil Hf Hparts.
  cbn [fmap list_fmap mercury_run wire]. rewrite dispatch_bytes by done.
  unfold dispatch_message. rewrite Hp, Hf. cbv beta iota zeta. rewrite decide_True by done.
  destruct (complete_request_answers n (m_cmd m) (add_parts 1 (m_pieces m) p) (self <| pending ::= delete (m_seq m) |>) header body)
    as [r ->]; [done|by rewrite add_parts_callback|done|by apply Hcmd|].
  rewrite exec_bind_Val. set (s1 := match sent_back header body with Some a => _ | None => _ end).
  assert (answers s1 !! n = sent_back header body ∧ waiting s1 = waiting self ∧ pending s1 = delete (m_seq m) (pending self)) as (Es & Ew & Ep).
  { subst s1. destruct (sent_back header body); simpl; by rewrite ?lookup_insert_eq. }
  destruct (run_others n (m_seq m) l s1) as (s2 & -> & E2 & Ho2 & Hp2).
  - split; [by rewrite Ew|]. rewrite Ep. intros s q E. apply lookup_delete_Some in E as [_ E]. by apply (Ho s q).
  - by eapply Forall_impl; [exact Hwf|intros x (? & _)].
  - exact Hl.
  - apply Forall_forall. intros x Hx. rewrite Forall_forall in Hwf, Hl. apply Hwf; auto.
  - exists s2. split; [done|]. unfold future_poll. rewrite E2, Es. destruct (sent_back header body); [done|].
    rewrite decide_False; [done|]. intros (s & q & Hs & Hq). rewrite (only_callback _ _ _ Ho2 _ _ Hs Hq), Hp2, Ep in Hs.
    by rewrite lookup_delete_eq in Hs.
Qed.

(** Any other packet of the request is kept for the next. *)
Lemma dispatch_keeps n m self p :
  only_seq n (m_seq m) self → pending self !! m_seq m = Some p → m_flags m ≠ 1 →
  ∃ self', dispatch_message m self = Val (self', Ok ()) ∧ only_seq n (m_seq m) self' ∧
    pending self' !! m_seq m = Some (add_parts (m_flags m) (m_pieces m) p) ∧ answers self' = answers self.
Proof.
  intros [Hw Ho] Hp Hf. unfold dispatch_message. rewrite Hp. cbv beta iota zeta. rewrite decide_False by done.
  eexists. split; [done|]. split; [split; [done|]|]; simpl; [|by rewrite lookup_insert_eq].
  intros s q [[<- _]|[_ [_ E]%lookup_delete_Some]]%lookup_insert_Some; [done|]. by apply Ho.
Qed.

Lemma run_reassembles n seq header body l : ∀ self p rest,
  only_seq n seq self → pending self !! seq = Some p → callback p = Some n → answers self !! n = None →
  Forall (well_formed seq) l → fragments rest (for_seq seq l) → (partial p = None ∨ rest ≠ []) →
  resume p rest = header :: body →
  ∃ self', mercury_run (wire <$> l) self = Val self' ∧ future_poll n self' = Some (default (Err MDropped) (sent_back header body)).
Proof.
  induction l as [|m l IH]; intros self p rest Ho Hp Hcb Ha Hwf Hfr Hpart Hres; [by inversion Hfr|].
  pose proof Hwf as [(Hok & Hcmd & Hco) Hwf']%Forall_cons.
  unfold for_seq in Hfr. rewrite filter_cons in Hfr. case_decide as Hseq.
  2:{ cbn [fmap list_fmap mercury_run wire]. rewrite dispatch_bytes by done.
      destruct (dispatch_other n seq m self Ho Hseq (Hco Hseq)) as (s1 & r & -> & Ho1 & Hp1 & Ha1).
      rewrite exec_bind_Val. apply (IH s1 p rest); try done; [by rewrite Hp1|by rewrite Ha1]. }
  subst seq. rewrite fmap_cons in Hfr. fold (for_seq (m_seq m) l) in Hfr.
  assert (Hnext : m_flags m ≠ 1 → ∀ rest', fragments rest' (for_seq (m_seq m) l) →
    (partial (add_parts (m_flags m) (m_pieces m) p) = None ∨ rest' ≠ []) →
    resume (add_parts (m_flags m) (m_pieces m) p) rest' = header :: body →
    ∃ self', mercury_run (wire <$> m :: l) self = Val self' ∧
      future_poll n self' = Some (default (Err MDropped) (sent_back header body))).
  { intros Hf rest' Hfr' Hpart' Hres'. cbn [fmap list_fmap mercury_run wire]. rewrite dispatch_bytes by done.
    destruct (dispatch_keeps n m self p Ho Hp Hf) as (s1 & -> & Ho1 & Hp1 & Ha1). rewrite exec_bind_Val.
    apply (IH s1 _ rest' Ho1 Hp1); try done; [by rewrite add_parts_callback|by rewrite Ha1]. }
  inversion Hfr as [ps E1 [Ef Eps El]|f ps qs pkts Hf1 Hf2 Hq E1 [Ef Eps El]|ps a b qs pkts Hq E1 [Ef Eps El]]; subst.
  - apply (run_completes n m header body l self p); try done. by rewrite add_parts_final.
  - apply (Hnext Hf1 qs); [done| |by rewrite add_parts_more].
    rewrite add_parts_partial by done. destruct (m_pieces m); [done|by left].
  - apply (Hnext ltac:(by rewrite <- Ef) (b :: qs)); [done|by right|]. by rewrite <- Ef, <- Eps, add_parts_split.
Qed.
End reassembly.

(** C6: a response is put together from its packets.  Whatever way the header
    and the payload of a response are spread over packets, and whatever
    well-formed packets of other requests come in between, the future of the
    request resolves once they are all there: to exactly that response when its
    status is below 400, to an error that carries it when the status is in the
    400s, and to an error without it when the server failed (500 and above) or
    the header does not parse. *)
Theorem mercury_reassembly `{MercuryFormat} dealer_handles n seq header body l self :
  only_seq n seq self → pending self !! seq = Some (mkPending [] None (Some n)) → answers self !! n = None →
  Forall (well_formed seq) l → fragments (header :: body) (for_seq seq l) →
  ∃ self', mercury_run dealer_handles (wire <$> l) self = Val self' ∧
    future_poll n self' =
      Some (match header_parse header with
            | Some (u, status) =>
                let response := mkResponse u status body in
                if decide (status < 400) then Ok response
                else if decide (status < 500) then Err (MResponse response) else Err MDropped
            | None => Err MDropped
            end).
Proof.
  intros Ho Hp Ha Hwf Hfr.
  destruct (run_reassembles dealer_handles n seq header body l self (mkPending [] None (Some n)) (header :: body))
    as (self' & E & Hf); try done; [by left|]. exists self'. split; [done|]. rewrite Hf. f_equal. unfold sent_back.
  destruct (header_parse header) as [[u status]|]; [|done]. cbv zeta. repeat case_decide; (done || lia).
Qed.

(** A format whose header is the status code in bytes. *)
Definition byte_format : MercuryFormat := {|
  header_write _ _ _ := [];
  header_parse l := Some ("hm://x"%string, from_be_bytes l);
  subscription_parse _ := None;
  byte_serialize s := s;
|}.

Definition two_requests : exec (MercuryManager * Conn) :=
  let F := byte_format in
  '(m, conn, _) ← get "hm://x" mercury_new (mkConn (Some true) []);
  '(m, conn, _) ← get "hm://y" m conn;
  Val (m, conn).

(** The parts [[200]] and [[1;2;3]], the latter cut in two, with a packet of
    another request in between. *)
Lemma mercury_reassembly_witness :
  let F := byte_format in
  match two_requests with
  | Val (m, _) =>
      ∃ self', mercury_run (λ _, false) (wire <$> [mkMessage MercuryReq (put_u64 0) 2 [[200]; [1; 2]];
                                     mkMessage MercuryReq (put_u64 1) 1 [[200]; [7]];
                                     mkMessage MercuryReq (put_u64 0) 1 [[3]; [4]]]) m = Val self' ∧
        future_poll 0 self' = Some (Ok (mkResponse "hm://x" 200 [[1; 2; 3]; [4]]))
  | Panic => False
  end.
Proof.
  intros F. destruct two_requests as [[m conn]|] eqn:E; [|vm_compute in E; discriminate].
  vm_compute in E. injection E as <- <-.
  match goal with |- context [mercury_run (λ _, false) (wire <$> ?l) ?m = _] =>
    destruct (mercury_reassembly (λ _, false) 0 (put_u64 0) [200] [[1; 2; 3]; [4]] l m) as (self' & E & Hf)
  end.
  - split; [vm_compute; reflexivity|].
    apply (bool_decide_unpack (map_Forall (λ s p, callback p = Some 0%nat → s = put_u64 0) _)). vm_compute. exact I.
  - vm_compute. reflexivity.
  - vm_compute. reflexivity.
  - repeat constructor; simpl; (lia || done || discriminate).
  - vm_compute for_seq. apply (frag_split [[200]] [1; 2] [3] [[4]]). apply (frag_final [[3]; [4]]).
  - exists self'. split; [exact E|]. rewrite Hf. vm_compute. reflexivity.
Defined.

(** *** Corner cases *)

(** A server error is not passed to the requester, whose future ends with a
    closed channel instead. *)
Lemma server_error_dropped :
  let F := byte_format in
  ('(m, _) ← two_requests;
   m ← mercury_run (λ _, false) (wire <$> [mkMessage MercuryReq (put_u64 0) 1 [[1; 244]]]) m; Val (future_poll 0 m))
  = Val (Some (Err MDropped)).
Proof. vm_compute. reflexivity. Qed.
