(* ===== verification/Handshake.v ===== *)
(** * Connecting to an access point: [core/src/diffie_hellman.rs] and
    [core/src/connection/handshake.rs]

    The client sends its Diffie-Hellman key, the server answers with its own,
    signed; both derive the keys of the encrypted connection from the shared
    secret and from everything that was sent so far. *)

From Stdlib Require Import Zpow_facts.
From S2P Require Import Prelude Digits Wire ApCodec.

Local Open Scope Z_scope.

(** ** Diffie-Hellman *)

Definition DH_GENERATOR : Z := from_be_bytes [0x02].
Definition DH_PRIME : Z := from_be_bytes
  [0xff; 0xff; 0xff; 0xff; 0xff; 0xff; 0xff; 0xff; 0xc9; 0x0f; 0xda; 0xa2; 0x21; 0x68; 0xc2;
   0x34; 0xc4; 0xc6; 0x62; 0x8b; 0x80; 0xdc; 0x1c; 0xd1; 0x29; 0x02; 0x4e; 0x08; 0x8a; 0x67;
   0xcc; 0x74; 0x02; 0x0b; 0xbe; 0xa6; 0x3b; 0x13; 0x9b; 0x22; 0x51; 0x4a; 0x08; 0x79; 0x8e;
   0x34; 0x04; 0xdd; 0xef; 0x95; 0x19; 0xb3; 0xcd; 0x3a; 0x43; 0x1b; 0x30; 0x2b; 0x0a; 0x6d;
   0xf2; 0x5f; 0x14; 0x37; 0x4f; 0xe1; 0x35; 0x6d; 0x6d; 0x51; 0xc2; 0x45; 0xe4; 0x85; 0xb5;
   0x76; 0x62; 0x5e; 0x7e; 0xc6; 0xf4; 0x4c; 0x42; 0xe9; 0xa6; 0x3a; 0x36; 0x20; 0xff; 0xff;
   0xff; 0xff; 0xff; 0xff; 0xff; 0xff].

(** Square and multiply; the exponent halves in each round, so that as many
    rounds as it has bits are enough. *)
Fixpoint powm_loop (fuel : nat) (base exp modulus result : Z) : Z :=
  match fuel with
  | O => result
  | S fuel =>
      if decide (exp = 0) then result
      else
        let result := if Z.odd exp then (result * base) `mod` modulus else result in
        powm_loop fuel ((base * base) `mod` modulus) (Z.shiftr exp 1) modulus result
  end.

Definition bits (n : Z) : nat := Z.to_nat (Z.log2 n + 1).

Definition powm (base exp modulus : Z) : Z := powm_loop (bits exp) base exp modulus 1.

(** [BigUint]'s bytes, most significant first and without leading zeros. *)
Definition to_bytes_be (n : Z) : list Z := to_be_bytes (num_digits 256 (bits n) n) n.
Definition from_bytes_le (l : list Z) : Z := eval_le 256 l.

Record DhLocalKeys := mkKeys { private_key : Z; public : Z }.

(** [random], with the bytes drawn. *)
Definition dh_random (bytes : list Z) : DhLocalKeys :=
  let private_key := from_bytes_le bytes in mkKeys private_key (powm DH_GENERATOR private_key DH_PRIME).

Definition public_key (self : DhLocalKeys) : list Z := to_bytes_be (public self).
Definition shared_secret (self : DhLocalKeys) (remote_key : list Z) : list Z :=
  to_bytes_be (powm (from_be_bytes remote_key) (private_key self) DH_PRIME).

(** *** Correctness *)

Lemma bits_enough n : 0 ≤ n → n < 2 ^ Z.of_nat (bits n).
Proof.
  intros Hn. unfold bits. rewrite Z2Nat.id by (pose proof (Z.log2_nonneg n); lia).
  destruct (decide (n = 0)) as [->|]; [done|]. rewrite Z.add_1_r. apply Z.log2_spec. lia.
Qed.

Lemma powm_loop_spec fuel : ∀ base exp modulus result,
  1 < modulus → 0 ≤ exp < 2 ^ Z.of_nat fuel → 0 ≤ result < modulus →
  powm_loop fuel base exp modulus result = (result * base ^ exp) `mod` modulus.
Proof.
  induction fuel as [|fuel IH]; intros base exp modulus result Hm He Hr.
  - assert (exp = 0) as -> by (simpl in He; lia). cbn [powm_loop]. rewrite Z.pow_0_r, Z.mul_1_r, Z.mod_small; lia.
  - cbn [powm_loop]. case_decide as H0; [subst; rewrite Z.pow_0_r, Z.mul_1_r, Z.mod_small; lia|].
    rewrite Z.shiftr_div_pow2 by lia. change (2 ^ 1) with 2.
    assert (Hh : 0 ≤ exp / 2 < 2 ^ Z.of_nat fuel).
    { rewrite Nat2Z.inj_succ, Z.pow_succ_r in He by lia. split; [apply Z.div_pos; lia|apply Z.div_lt_upper_bound; lia]. }
    rewrite IH; [|lia|done|destruct (Z.odd exp); [apply Z.mod_pos_bound|]; lia].
    rewrite (Z.div_mod exp 2) at 3 by lia. rewrite Z.pow_add_r, Z.pow_mul_r by (try apply Z.mod_pos_bound; lia).
    rewrite Zmod_odd, Z.pow_2_r.
    assert (∀ r, (r * ((base * base) `mod` modulus) ^ (exp / 2)) `mod` modulus
                 = (r * (base * base) ^ (exp / 2)) `mod` modulus) as Hbase.
    { intros r. rewrite Z.mul_mod, Zpower_mod, Z.mod_mod, <- Zpower_mod, <- Z.mul_mod by lia. done. }
    rewrite Hbase. destruct (Z.odd exp).
    + rewrite Z.mul_mod_idemp_l by lia. f_equal. rewrite Z.pow_1_r. ring.
    + f_equal. rewrite Z.pow_0_r. ring.
Qed.

Lemma powm_spec base exp modulus : 1 < modulus → 0 ≤ exp → powm base exp modulus = base ^ exp `mod` modulus.
Proof.
  intros Hm He. unfold powm. rewrite powm_loop_spec by (try split; try lia; by apply bits_enough).
  by rewrite Z.mul_1_l.
Qed.

Lemma prime_gt_1 : 1 < DH_PRIME.
Proof. vm_compute. reflexivity. Qed.

Lemma from_to_bytes_be n : 0 ≤ n → from_be_bytes (to_bytes_be n) = n.
Proof.
  intros Hn. unfold to_bytes_be. apply from_to_be_bytes. split; [done|]. apply num_digits_enough; [lia|].
  split; [done|]. pose proof (bits_enough n Hn) as Hb. eapply Z.lt_le_trans; [exact Hb|].
  transitivity (256 ^ Z.of_nat (bits n)); [apply Z.pow_le_mono_l; lia|apply Z.pow_le_mono_r; lia].
Qed.

(** Both sides compute the same secret. *)
Lemma dh_agreement a b :
  bytes_ok a → bytes_ok b →
  shared_secret (dh_random a) (public_key (dh_random b)) = shared_secret (dh_random b) (public_key (dh_random a)).
Proof.
  intros Ha Hb. pose proof prime_gt_1 as Hp.
  assert (0 ≤ from_bytes_le a ∧ 0 ≤ from_bytes_le b) as [Ha0 Hb0] by (split; by apply eval_le_bounds).
  unfold shared_secret, public_key, dh_random. cbn [private_key public]. f_equal.
  rewrite !(powm_spec DH_GENERATOR), !from_to_bytes_be by (done || apply Z.mod_pos_bound; lia).
  rewrite !powm_spec by done. rewrite <- !Zpower_mod by lia. rewrite <- !Z.pow_mul_r by done. by rewrite Z.mul_comm.
Qed.

(** ** The handshake *)

Definition SERVER_KEY : list Z :=
  [0xac; 0xe0; 0x46; 0x0b; 0xff; 0xc2; 0x30; 0xaf; 0xf4; 0x6b; 0xfe; 0xc3; 0xbf; 0xbf; 0x86; 0x3d;
   0xa1; 0x91; 0xc6; 0xcc; 0x33; 0x6c; 0x93; 0xa1; 0x4f; 0xb3; 0xb0; 0x16; 0x12; 0xac; 0xac; 0x6a;
   0xf1; 0x80; 0xe7; 0xf6; 0x14; 0xd9; 0x42; 0x9d; 0xbe; 0x2e; 0x34; 0x66; 0x43; 0xe3; 0x62; 0xd2;
   0x32; 0x7a; 0x1a; 0x0d; 0x92; 0x3b; 0xae; 0xdd; 0x14; 0x02; 0xb1; 0x81; 0x55; 0x05; 0x61; 0x04;
   0xd5; 0x2c; 0x96; 0xa4; 0x4c; 0x1e; 0xcc; 0x02; 0x4a; 0xd4; 0xb2; 0x0c; 0x00; 0x1f; 0x17; 0xed;
   0xc2; 0x2f; 0xc4; 0x35; 0x21; 0xc8; 0xf0; 0xcb; 0xae; 0xd2; 0xad; 0xd7; 0x2b; 0x0f; 0x9d; 0xb3;
   0xc5; 0x32; 0x1a; 0x2a; 0xfe; 0x59; 0xf3; 0x5a; 0x0d; 0xac; 0x68; 0xf1; 0xfa; 0x62; 0x1e; 0xfb;
   0x2c; 0x8d; 0x0c; 0xb7; 0x39; 0x2d; 0x92; 0x47; 0xe3; 0xd7; 0x35; 0x1a; 0x6d; 0xbd; 0x24; 0xc2;
   0xae; 0x25; 0x5b; 0x88; 0xff; 0xab; 0x73; 0x29; 0x8a; 0x0b; 0xcc; 0xcd; 0x0c; 0x58; 0x67; 0x31;
   0x89; 0xe8; 0xbd; 0x34; 0x80; 0x78; 0x4a; 0x5f; 0xc9; 0x6b; 0x89; 0x9d; 0x95; 0x6b; 0xfc; 0x86;
   0xd7; 0x4f; 0x33; 0xa6; 0x78; 0x17; 0x96; 0xc9; 0xc3; 0x2d; 0x0d; 0x32; 0xa5; 0xab; 0xcd; 0x05;
   0x27; 0xe2; 0xf7; 0x10; 0xa3; 0x96; 0x13; 0xc4; 0x2f; 0x99; 0xc0; 0x27; 0xbf; 0xed; 0x04; 0x9c;
   0x3c; 0x27; 0x58; 0x04; 0xb6; 0xb2; 0x19; 0xf9; 0xc1; 0x2f; 0x02; 0xe9; 0x48; 0x63; 0xec; 0xa1;
   0xb6; 0x42; 0xa0; 0x9d; 0x48; 0x25; 0xf8; 0xb3; 0x9d; 0xd0; 0xe8; 0x6a; 0xf9; 0x48; 0x4d; 0xa1;
   0xc2; 0xba; 0x86; 0x30; 0x42; 0xea; 0x9d; 0xb3; 0x08; 0x6c; 0x19; 0x0e; 0x48; 0xb3; 0x9d; 0x66;
   0xeb; 0x00; 0x06; 0xa2; 0x5a; 0xee; 0xa1; 0x1b; 0x13; 0x87; 0x3c; 0xd7; 0x19; 0xe6; 0x55; 0xbd].

Inductive HandshakeError := InvalidLength | VerificationFailed | UnexpectedEof | InvalidMessage.

Inductive Platform :=
| PLATFORM_WIN32_X86 | PLATFORM_OSX_X86 | PLATFORM_LINUX_X86 | PLATFORM_IPHONE_ARM | PLATFORM_OSX_PPC
| PLATFORM_WINDOWS_CE_ARM | PLATFORM_LINUX_X86_64 | PLATFORM_OSX_X86_64 | PLATFORM_LINUX_ARM
| PLATFORM_LINUX_BLACKFIN | PLATFORM_LINUX_SH | PLATFORM_FREEBSD_X86 | PLATFORM_FREEBSD_X86_64
| PLATFORM_LINUX_MIPS | PLATFORM_WIN32_X86_64 | PLATFORM_IPHONE_ARM64.

(** The platform reported for an operating system and an architecture. *)
Definition platform (os arch : string) : Platform :=
  if decide (os ∈ ["freebsd"; "netbsd"; "openbsd"]%string) then
    if decide (arch = "x86_64"%string) then PLATFORM_FREEBSD_X86_64 else PLATFORM_FREEBSD_X86
  else if decide (os = "ios"%string) then
    if decide (arch = "aarch64"%string) then PLATFORM_IPHONE_ARM64 else PLATFORM_IPHONE_ARM
  else if decide (os ∈ ["linux"; "android"]%string) then
    if decide (arch ∈ ["arm"; "aarch64"]%string) then PLATFORM_LINUX_ARM
    else if decide (arch = "blackfin"%string) then PLATFORM_LINUX_BLACKFIN
    else if decide (arch = "mips"%string) then PLATFORM_LINUX_MIPS
    else if decide (arch = "sh"%string) then PLATFORM_LINUX_SH
    else if decide (arch = "x86_64"%string) then PLATFORM_LINUX_X86_64
    else PLATFORM_LINUX_X86
  else if decide (os = "macos"%string) then
    if decide (arch ∈ ["ppc"; "ppc64"]%string) then PLATFORM_OSX_PPC
    else if decide (arch = "x86_64"%string) then PLATFORM_OSX_X86_64
    else PLATFORM_OSX_X86
  else if decide (os = "windows"%string) then
    if decide (arch ∈ ["arm"; "aarch64"]%string) then PLATFORM_WINDOWS_CE_ARM
    else if decide (arch = "x86_64"%string) then PLATFORM_WIN32_X86_64
    else PLATFORM_WIN32_X86
  else PLATFORM_LINUX_X86.

Definition SPOTIFY_VERSION : Z := 124200290.

(** The fields that are set of the protobuf message; [dev_build] is the
    product flag of a debug build. *)
Record ClientHello := mkHello {
  hello_dev_build : bool;
  hello_platform : Platform;
  hello_version : Z;
  hello_gc : list Z;
  hello_server_keys_known : Z;
  hello_client_nonce : list Z;
  hello_padding : list Z;
}.

(** The protobuf messages, hashes and signatures of the libraries. *)
Class HandshakeFormat := {
  client_hello_write : ClientHello → list Z;
  ap_response_parse : list Z → option (list Z * list Z);
  client_response_write : list Z → list Z;
  sha1 : list Z → list Z;
  rsa_verify : Z → Z → list Z → list Z → bool;
  hmac_sha1 : list Z → list Z → list Z;
}.

Class HandshakeLaws `{HandshakeFormat} := {
  length_hmac k m : length (hmac_sha1 k m) = 20%nat;
}.

(** What is there to read, and what was written. *)
Record Socket := mkSocket { incoming : list Z; written : list Z }.

#[export] Instance settable_Socket : Settable Socket := λ r, mkSocket (incoming r) (written r).

Record Host := mkHost { os : string; arch : string; debug_assertions : bool; drawn_key : list Z; drawn_nonce : list Z }.

Section handshake.
Context `{HandshakeFormat}.

(** A length prefix of 32 bits that counts [extra] bytes more than the packet. *)
Definition size_prefix (extra : Z) (packet : list Z) : exec (list Z) :=
  size ← uadd u64_max extra (Z.of_nat (length packet));
  if decide (size ≤ u32_max) then Val (put_u32 size) else Panic.

Definition client_hello (h : Host) (gc : list Z) (conn : Socket) : exec (Socket * list Z) :=
  let packet := client_hello_write
    (mkHello (debug_assertions h) (platform (os h) (arch h)) SPOTIFY_VERSION gc 1 (drawn_nonce h) [0x1e]) in
  size ← size_prefix 6 packet;
  let buffer := [0; 4] ++ size ++ packet in
  Val (conn <| written ::= (λ l, l ++ buffer) |>, buffer).

Definition client_response (challenge : list Z) (conn : Socket) : exec Socket :=
  let packet := client_response_write challenge in
  size ← size_prefix 4 packet;
  Val (conn <| written ::= (λ l, l ++ (size ++ packet)) |>).

Definition read_into_accumulator (size : nat) (conn : Socket) (acc : list Z)
    : Socket * list Z * result (list Z) HandshakeError :=
  if decide (size ≤ length (incoming conn))%nat then
    let data := take size (incoming conn) in
    (conn <| incoming ::= drop size |>, acc ++ data, Ok data)
  else (conn <| incoming := [] |>, acc, Err UnexpectedEof).

Definition recv_packet (conn : Socket) (acc : list Z)
    : exec (Socket * list Z * result (list Z * list Z) HandshakeError) :=
  let '(conn, acc, r) := read_into_accumulator 4 conn acc in
  match r with
  | Err e => Val (conn, acc, Err e)
  | Ok header =>
      size ← read_be 4 header;
      n ← usub size 4;
      let '(conn, acc, r) := read_into_accumulator (Z.to_nat n) conn acc in
      match r with
      | Err e => Val (conn, acc, Err e)
      | Ok data => Val (conn, acc, ok_or (ap_response_parse data) InvalidMessage)
      end
  end.

(** [[data[a..b]]]; out of range panics. *)
Definition slice_bytes (a b : nat) (data : list Z) : exec (list Z) :=
  if decide (b ≤ length data)%nat then Val (take (b - a) (drop a data)) else Panic.

Definition compute_keys (secret packets : list Z) : exec (list Z * list Z * list Z) :=
  let data := [1; 2; 3; 4; 5] ≫= (λ i, hmac_sha1 secret (packets ++ [i])) in
  k ← slice_bytes 0 0x14 data;
  send_key ← slice_bytes 0x14 0x34 data;
  recv_key ← slice_bytes 0x34 0x54 data;
  Val (hmac_sha1 k packets, send_key, recv_key).

(** [handshake] up to the choice of the codec's keys. *)
Definition handshake_keys (h : Host) (conn : Socket) : exec (Socket * result (list Z * list Z) HandshakeError) :=
  let local_keys := dh_random (drawn_key h) in
  '(conn, accumulator) ← client_hello h (public_key local_keys) conn;
  '(conn, accumulator, r) ← recv_packet conn accumulator;
  match r with
  | Err e => Val (conn, Err e)
  | Ok (remote_key, remote_signature) =>
      if rsa_verify (from_be_bytes SERVER_KEY) 65537 (sha1 remote_key) remote_signature then
        '(challenge, send_key, recv_key) ← compute_keys (shared_secret local_keys remote_key) accumulator;
        conn ← client_response challenge conn;
        Val (conn, Ok (send_key, recv_key))
      else Val (conn, Err VerificationFailed)
  end.

Definition handshake {C} `{Shannon C} (h : Host) (conn : Socket)
    : exec (Socket * result (ApCodec C) HandshakeError) :=
  '(conn, r) ← handshake_keys h conn;
  Val (conn, match r with Ok (send_key, recv_key) => Ok (codec_new send_key recv_key) | Err e => Err e end).
End handshake.

(** ** Both sides have the same keys *)

Section agreement.
Context `{HandshakeLaws} {C : Type} `{Shannon C}.

(** The server's answer on the wire. *)
Definition ap_response (message : list Z) : list Z := put_u32 (Z.of_nat (length message) + 4) ++ message.

Lemma size_prefix_Val extra packet :
  0 ≤ extra → Z.of_nat (length packet) + extra ≤ u32_max →
  size_prefix extra packet = Val (put_u32 (extra + Z.of_nat (length packet))).
Proof.
  intros He Hl. unfold size_prefix. rewrite uadd_Val by (unfold u32_max, u64_max in *; lia).
  by rewrite exec_bind_Val, decide_True by lia.
Qed.

Lemma compute_keys_Val secret packets :
  ∃ challenge send_key recv_key, compute_keys secret packets = Val (challenge, send_key, recv_key) ∧
    length send_key = 32%nat ∧ length recv_key = 32%nat.
Proof.
  unfold compute_keys.
  assert (length ([1; 2; 3; 4; 5] ≫= (λ i, hmac_sha1 secret (packets ++ [i]))) = 100%nat) as Hl.
  { simpl. rewrite !length_app, !length_hmac. done. }
  generalize dependent ([1; 2; 3; 4; 5] ≫= (λ i, hmac_sha1 secret (packets ++ [i]))). intros data Hl.
  unfold slice_bytes. rewrite !decide_True, !exec_bind_Val by lia.
  eexists _, _, _. split; [done|]. by rewrite !length_take, !length_drop, Hl.
Qed.

Lemma read_exactly (data rest : list Z) out acc n :
  n = length data →
  read_into_accumulator n (mkSocket (data ++ rest) out) acc = (mkSocket rest out, acc ++ data, Ok data).
Proof.
  intros ->. unfold read_into_accumulator. simpl. rewrite decide_True by (rewrite length_app; lia).
  unfold set_field. simpl. by rewrite take_app_length, drop_app_length.
Qed.

Lemma recv_response message rest out acc :
  Z.of_nat (length message) + 4 ≤ u32_max →
  recv_packet (mkSocket (ap_response message ++ rest) out) acc =
    Val (mkSocket rest out, acc ++ ap_response message, ok_or (ap_response_parse message) InvalidMessage).
Proof.
  intros Hl. unfold recv_packet, ap_response, put_u32. rewrite <- app_assoc.
  rewrite read_exactly by by rewrite length_to_be_bytes.
  unfold read_be. rewrite length_to_be_bytes, decide_True by lia.
  rewrite take_ge by by rewrite length_to_be_bytes.
  rewrite exec_bind_Val, from_to_be_bytes by (unfold u32_max in Hl; simpl; lia). rewrite usub_Val by lia.
  rewrite exec_bind_Val, read_exactly by lia. by rewrite <- app_assoc.
Qed.
End agreement.

(** C34: the handshake gives both sides the same keys.  The client, answered
    with the server's signed Diffie-Hellman key, ends up with the codec whose
    keys the server computes from its own private key and the bytes exchanged,
    and proves it by the challenge it sends; an answer with a wrong signature
    is refused before anything more is sent. *)
Theorem handshake_agreement `{HandshakeLaws} {C} `{Shannon C} h server message signature rest :
  let gc := public_key (dh_random (drawn_key h)) in
  let gs := public_key (dh_random server) in
  bytes_ok (drawn_key h) → bytes_ok server →
  ap_response_parse message = Some (gs, signature) → Z.of_nat (length message) + 4 ≤ u32_max →
  (∀ hello, Z.of_nat (length (client_hello_write hello)) + 6 ≤ u32_max) →
  (∀ challenge, Z.of_nat (length (client_response_write challenge)) + 4 ≤ u32_max) →
  ∃ hello challenge send_key recv_key response,
    compute_keys (shared_secret (dh_random server) gc) (hello ++ ap_response message)
      = Val (challenge, send_key, recv_key) ∧
    client_response challenge (mkSocket rest hello) = Val (mkSocket rest (hello ++ response)) ∧
    handshake (C:=C) h (mkSocket (ap_response message ++ rest) []) =
      if rsa_verify (from_be_bytes SERVER_KEY) 65537 (sha1 gs) signature
      then Val (mkSocket rest (hello ++ response), Ok (codec_new send_key recv_key))
      else Val (mkSocket rest hello, Err VerificationFailed).
Proof.
  intros gc gs Hk Hs Hparse Hlen Hhello Hresp.
  set (packet := client_hello_write (mkHello (debug_assertions h) (platform (os h) (arch h)) SPOTIFY_VERSION gc 1
    (drawn_nonce h) [0x1e])).
  set (hello := [0; 4] ++ put_u32 (6 + Z.of_nat (length packet)) ++ packet).
  destruct (compute_keys_Val (shared_secret (dh_random server) gc) (hello ++ ap_response message))
    as (challenge & send_key & recv_key & Ek & _).
  exists hello, challenge, send_key, recv_key,
    (put_u32 (4 + Z.of_nat (length (client_response_write challenge))) ++ client_response_write challenge).
  assert (∀ conn, client_response challenge conn = Val (conn <| written ::= (λ l, l ++
    (put_u32 (4 + Z.of_nat (length (client_response_write challenge))) ++ client_response_write challenge)) |>)) as Er.
  { intros conn. unfold client_response. rewrite size_prefix_Val by (done || apply Hresp). done. }
  split; [done|]. split; [by rewrite Er|]. unfold handshake, handshake_keys, client_hello. fold gc packet.
  rewrite size_prefix_Val by (done || apply Hhello). rewrite !exec_bind_Val. fold hello.
  change (mkSocket (ap_response message ++ rest) [] <| written ::= (λ l, l ++ hello) |>)
    with (mkSocket (ap_response message ++ rest) hello).
  rewrite recv_response, Hparse by done. rewrite exec_bind_Val. cbn [ok_or].
  destruct (rsa_verify _ _ _ _); [|done].
  rewrite (dh_agreement (drawn_key h) server Hk Hs : shared_secret _ gs = _). fold gc.
  by rewrite Ek, !exec_bind_Val, Er.
Qed.

(** Formats that write the key and accept any signature. *)
Definition plain_handshake : HandshakeFormat := {|
  client_hello_write hello := take 96 (hello_gc hello);
  ap_response_parse l := Some (l, []);
  client_response_write challenge := take 20 challenge;
  sha1 l := l;
  rsa_verify _ _ _ _ := true;
  hmac_sha1 k m := take 20 (k ++ m ++ replicate 20 0);
|}.

Lemma plain_handshake_laws : @HandshakeLaws plain_handshake.
Proof. constructor. intros k m. cbn [hmac_sha1 plain_handshake].
  rewrite length_take, !length_app, length_replicate. lia. Qed.

Definition example_host : Host := mkHost "linux" "x86_64" false [3; 1] (replicate 16 7).

Lemma handshake_agreement_witness :
  let F := plain_handshake in
  let message := public_key (dh_random [5; 2]) in
  ∃ hello challenge send_key recv_key response,
    compute_keys (shared_secret (dh_random [5; 2]) (public_key (dh_random [3; 1])))
      (hello ++ ap_response message) = Val (challenge, send_key, recv_key) ∧
    client_response challenge (mkSocket [] hello) = Val (mkSocket [] (hello ++ response)) ∧
    handshake (C:=toy) example_host (mkSocket (ap_response message ++ []) []) =
      Val (mkSocket [] (hello ++ response), Ok (codec_new send_key recv_key)).
Proof.
  intros F message.
  apply (handshake_agreement (H0:=plain_handshake_laws) (C:=toy) example_host [5; 2] message []).
  - repeat constructor; lia.
  - repeat constructor; lia.
  - reflexivity.
  - vm_compute. congruence.
  - intros hello. simpl. rewrite length_take. unfold u32_max. lia.
  - intros challenge. simpl. rewrite length_take. unfold u32_max. lia.
Defined.
