(* ===== verification/Connection.v ===== *)
(** * Logging in: [core/src/apresolve.rs], [core/src/connection/mod.rs] and
    [Session::connect] of [core/src/session.rs]

    Access points are looked up and tried in turn until one accepts the
    credentials. *)

From S2P Require Import Prelude Digits Text Wire.

Local Open Scope Z_scope.

(** ** Access points *)

Abbreviation SocketAddress := (string * Z)%type.

Record AccessPoints := mkPoints {
  accesspoint : list SocketAddress;
  dealer : list SocketAddress;
  spclient : list SocketAddress;
}.

#[export] Instance settable_AccessPoints : Settable AccessPoints :=
  λ r, mkPoints (accesspoint r) (dealer r) (spclient r).

Record ApResolveData := mkResolveData {
  data_accesspoint : list string;
  data_dealer : list string;
  data_spclient : list string;
}.

Definition fallback : ApResolveData :=
  mkResolveData ["ap.spotify.com:443"] ["dealer.spotify.com:443"] ["spclient.wg.spotify.com:443"].

Definition is_nil {A} (l : list A) : bool := match l with [] => true | _ => false end.

Definition is_any_empty (self : AccessPoints) : bool :=
  is_nil (accesspoint self) || is_nil (dealer self) || is_nil (spclient self).

Definition port_config (proxy : bool) (ap_port : option Z) : option Z :=
  if proxy || (if ap_port is Some _ then true else false) then Some (default 443 ap_port) else None.

(** The text before and after the last [c]: [rsplitn(2, c)]. *)
Fixpoint rsplit_once (c : ascii) (s : string) : option (string * string) :=
  match s with
  | EmptyString => None
  | String d s =>
      match rsplit_once c s with
      | Some (a, b) => Some (String d a, b)
      | None => if ascii_dec d c then Some (EmptyString, s) else None
      end
  end.

Definition process_ap_string (filter_port : option Z) (ap : string) : option SocketAddress :=
  match rsplit_once ":" ap with
  | None => None
  | Some (host, port) =>
      match parse_uint u16_max port with
      | Err _ => None
      | Ok port =>
          match filter_port with
          | Some fp => if decide (fp ≠ port) then None else Some (host, port)
          | None => Some (host, port)
          end
      end
  end.

Definition process_ap_strings (filter_port : option Z) (data : list string) : list SocketAddress :=
  omap (process_ap_string filter_port) data.

Definition parse_resolve_to_access_points (filter_port : option Z) (resolve : ApResolveData) : AccessPoints :=
  mkPoints (process_ap_strings filter_port (data_accesspoint resolve))
           (process_ap_strings filter_port (data_dealer resolve))
           (process_ap_strings filter_port (data_spclient resolve)).

(** [fetched] is the service's answer, if any. *)
Definition apresolve (filter_port : option Z) (fetched : option ApResolveData) : AccessPoints :=
  let data := parse_resolve_to_access_points filter_port (default (mkResolveData [] [] []) fetched) in
  if is_any_empty data then
    let fb := parse_resolve_to_access_points filter_port fallback in
    mkPoints (accesspoint data ++ accesspoint fb) (dealer data ++ dealer fb) (spclient data ++ spclient fb)
  else data.

Inductive ResolveError := NoAccessPoint | NoEndpoint.

Definition pop_front {A} (l : list A) : option A * list A :=
  match l with [] => (None, []) | x :: l => (Some x, l) end.

(** [fetched] is only asked for when a list has run empty. *)
Definition resolve (filter_port : option Z) (fetched : option ApResolveData) (endpoint : string) (self : AccessPoints)
    : AccessPoints * result SocketAddress ResolveError :=
  let self := if is_any_empty self then apresolve filter_port fetched else self in
  if decide (endpoint = "accesspoint"%string) then
    let '(ap, l) := pop_front (accesspoint self) in (self <| accesspoint := l |>, ok_or ap NoAccessPoint)
  else if decide (endpoint = "dealer"%string) then
    let '(ap, l) := pop_front (dealer self) in (self <| dealer := l |>, ok_or ap NoAccessPoint)
  else if decide (endpoint = "spclient"%string) then
    let '(ap, l) := pop_front (spclient self) in (self <| spclient := l |>, ok_or ap NoAccessPoint)
  else (self, Err NoEndpoint).

Lemma fallback_points fp :
  fp = None ∨ fp = Some 443 →
  parse_resolve_to_access_points fp fallback =
    mkPoints [("ap.spotify.com"%string, 443)] [("dealer.spotify.com"%string, 443)]
             [("spclient.wg.spotify.com"%string, 443)].
Proof. by intros [->| ->]. Qed.

Lemma nonempty_points self :
  is_any_empty self = false → ∃ a1 l1 a2 l2 a3 l3, self = mkPoints (a1 :: l1) (a2 :: l2) (a3 :: l3).
Proof. destruct self as [[|a1 l1] [|a2 l2] [|a3 l3]]; try done. intros _. repeat eexists. Qed.

Lemma apresolve_nonempty fp fetched : fp = None ∨ fp = Some 443 → is_any_empty (apresolve fp fetched) = false.
Proof.
  intros Hfp. unfold apresolve. rewrite fallback_points by done.
  destruct (parse_resolve_to_access_points fp _) as [u v w]. destruct (is_any_empty _) eqn:E; [|done].
  by destruct u, v, w.
Qed.

(** Without a port restriction, or with the usual port, there is always an
    access point to try. *)
Lemma resolve_available fp fetched endpoint self :
  fp = None ∨ fp = Some 443 → endpoint ∈ ["accesspoint"; "dealer"; "spclient"]%string →
  ∃ self' ap, resolve fp fetched endpoint self = (self', Ok ap).
Proof.
  intros Hfp He. unfold resolve.
  assert (is_any_empty (if is_any_empty self then apresolve fp fetched else self) = false) as Hs.
  { destruct (is_any_empty self) eqn:E; [by apply apresolve_nonempty|done]. }
  destruct (nonempty_points _ Hs) as (a1 & l1 & a2 & l2 & a3 & l3 & ->).
  apply elem_of_cons in He as [->|He]; [by repeat eexists|]. apply elem_of_cons in He as [->|He]; [by repeat eexists|].
  apply list_elem_of_singleton in He as ->. by repeat eexists.
Qed.

(** ** Credentials and login *)

Inductive AuthenticationType :=
| AUTHENTICATION_USER_PASS | AUTHENTICATION_STORED_SPOTIFY_CREDENTIALS | AUTHENTICATION_STORED_FACEBOOK_CREDENTIALS
| AUTHENTICATION_SPOTIFY_TOKEN | AUTHENTICATION_FACEBOOK_TOKEN.

#[export] Instance AuthenticationType_eq_dec : EqDecision AuthenticationType.
Proof. solve_decision. Defined.

Record Credentials := mkCredentials {
  username : option string;
  auth_type : AuthenticationType;
  auth_data : list Z;
}.

#[export] Instance Credentials_eq_dec : EqDecision Credentials.
Proof. solve_decision. Defined.

Definition as_bytes (s : string) : list Z := code <$> String.list_ascii_of_string s.

Definition with_password (user password : string) : Credentials :=
  mkCredentials (Some user) AUTHENTICATION_USER_PASS (as_bytes password).
Definition with_access_token (token : string) : Credentials :=
  mkCredentials None AUTHENTICATION_SPOTIFY_TOKEN (as_bytes token).

Inductive ErrorCode :=
| ProtocolError | TryAnotherAP | BadConnectionId | TravelRestriction | PremiumAccountRequired | BadCredentials
| CouldNotValidateCredentials | AccountExists | ExtraVerificationRequired | InvalidAppKey | ApplicationBanned.

#[export] Instance ErrorCode_eq_dec : EqDecision ErrorCode.
Proof. solve_decision. Defined.

Definition login_error_message (c : ErrorCode) : string :=
  match c with
  | ProtocolError => "Protocol error" | TryAnotherAP => "Try another access point"
  | BadConnectionId => "Bad connection ID" | TravelRestriction => "Travel restriction"
  | PremiumAccountRequired => "Premium account required" | BadCredentials => "Bad credentials"
  | CouldNotValidateCredentials => "Could not validate credentials" | AccountExists => "Account exists"
  | ExtraVerificationRequired => "Extra verification required" | InvalidAppKey => "Invalid app key"
  | ApplicationBanned => "Application banned"
  end.

Inductive ConnectError :=
| CResolve (e : ResolveError) | CIo | CProtobuf | CLoginFailed (c : ErrorCode) | CPacket (cmd : Z) | CTransport
| CNotConnected.

Inductive CpuFamily :=
| CPU_UNKNOWN | CPU_X86 | CPU_X86_64 | CPU_PPC | CPU_PPC_64 | CPU_ARM | CPU_IA64 | CPU_SH | CPU_MIPS | CPU_BLACKFIN.
Inductive Os := OS_UNKNOWN | OS_WINDOWS | OS_OSX | OS_IPHONE | OS_LINUX | OS_FREEBSD | OS_ANDROID.

Definition cpu_family (arch : string) : CpuFamily :=
  if decide (arch = "blackfin"%string) then CPU_BLACKFIN
  else if decide (arch ∈ ["arm"; "aarch64"]%string) then CPU_ARM
  else if decide (arch = "ia64"%string) then CPU_IA64
  else if decide (arch = "mips"%string) then CPU_MIPS
  else if decide (arch = "ppc"%string) then CPU_PPC
  else if decide (arch = "ppc64"%string) then CPU_PPC_64
  else if decide (arch = "sh"%string) then CPU_SH
  else if decide (arch = "x86"%string) then CPU_X86
  else if decide (arch = "x86_64"%string) then CPU_X86_64
  else CPU_UNKNOWN.

Definition os_of (os : string) : Os :=
  if decide (os = "android"%string) then OS_ANDROID
  else if decide (os ∈ ["freebsd"; "netbsd"; "openbsd"]%string) then OS_FREEBSD
  else if decide (os = "ios"%string) then OS_IPHONE
  else if decide (os = "linux"%string) then OS_LINUX
  else if decide (os = "macos"%string) then OS_OSX
  else if decide (os = "windows"%string) then OS_WINDOWS
  else OS_UNKNOWN.

(** The fields that are set of the login message. *)
Record ClientResponseEncrypted := mkLogin {
  login_username : option string;
  login_typ : AuthenticationType;
  login_auth_data : list Z;
  login_cpu_family : CpuFamily;
  login_os : Os;
  login_system_information : string;
  login_device_id : string;
  login_version : string;
}.

(** The machine and build that logs in. *)
Record Client := mkClient {
  client_arch : string; client_os : string; sha_short : string; build_id : string; semver : string; device_id : string;
}.

(** The network [N] with its connections [T], and the protobuf messages.
    [dial] is the socket connection with the handshake. *)
Class ApNetwork (N T : Type) := {
  fetch_access_points : N → N * option ApResolveData;
  dial : SocketAddress → N → N * option T;
  transport_send : T → Z * list Z → N → N * bool;
  transport_next : T → N → N * option (option (Z * list Z));
  login_write : ClientResponseEncrypted → option (list Z);
  welcome_parse : list Z → option (string * AuthenticationType * list Z);
  failed_parse : list Z → option ErrorCode;
}.

Section login.
Context {N T : Type} `{ApNetwork N T} (client : Client) (filter_port : option Z).

Fixpoint connect_with_retry (ap : SocketAddress) (max_retries : nat) (net : N) : N * option T :=
  match dial ap net with
  | (net, Some t) => (net, Some t)
  | (net, None) => match max_retries with O => (net, None) | S k => connect_with_retry ap k net end
  end.

Definition login_packet (c : Credentials) : ClientResponseEncrypted :=
  mkLogin (username c) (auth_type c) (auth_data c) (cpu_family (client_arch client)) (os_of (client_os client))
    ("librespot-" +:+ sha_short client +:+ "-" +:+ build_id client) (device_id client)
    ("librespot " +:+ semver client).

(** The server's answer. *)
Definition login_answer (cmd : Z) (data : list Z) : result Credentials ConnectError :=
  match packet_from_u8 cmd with
  | Some APWelcome =>
      match welcome_parse data with
      | Some (canonical, typ, auth) => Ok (mkCredentials (Some canonical) typ auth)
      | None => Err CProtobuf
      end
  | Some AuthFailure =>
      match failed_parse data with Some c => Err (CLoginFailed c) | None => Err CProtobuf end
  | _ => Err (CPacket cmd)
  end.

Definition authenticate (t : T) (c : Credentials) (net : N) : N * result Credentials ConnectError :=
  match login_write (login_packet c) with
  | None => (net, Err CProtobuf)
  | Some data =>
      let '(net, ok) := transport_send t (packet_code Login, data) net in
      if ok then
        match transport_next t net with
        | (net, None) => (net, Err CTransport)
        | (net, Some None) => (net, Err CIo)
        | (net, Some (Some (cmd, data))) => (net, login_answer cmd data)
        end
      else (net, Err CIo)
  end.

Definition MAX_RETRIES : nat := 1.

(** Connect and log in once. *)
Definition login_once (ap : SocketAddress) (c : Credentials) (net : N) : N * result (Credentials * T) ConnectError :=
  match connect_with_retry ap MAX_RETRIES net with
  | (net, None) => (net, Err CIo)
  | (net, Some t) =>
      match authenticate t c net with
      | (net, Ok c) => (net, Ok (c, t))
      | (net, Err e) => (net, Err e)
      end
  end.

Definition connect_inner (ap : SocketAddress) (c : Credentials) (net : N)
    : N * result (Credentials * T) ConnectError :=
  match login_once ap c net with
  | (net, Ok (reusable, t)) =>
      if decide (auth_type c = AUTHENTICATION_SPOTIFY_TOKEN) then login_once ap reusable net
      else (net, Ok (reusable, t))
  | (net, Err e) => (net, Err e)
  end.

Definition MAX_AP_TRIES : nat := 6.

(** One turn of the loop: take an access point and try it. *)
Definition try_ap (c : Credentials) (s : AccessPoints * N)
    : (AccessPoints * N) * result (Credentials * T) ConnectError :=
  let '(points, net) := s in
  let '(net, fetched) := if is_any_empty points then fetch_access_points net else (net, None) in
  let '(points, r) := resolve filter_port fetched "accesspoint" points in
  match r with
  | Err e => ((points, net), Err (CResolve e))
  | Ok ap => let '(net, r) := connect_inner ap c net in ((points, net), r)
  end.

(** Errors after which another access point is tried. *)
Definition try_another (e : ConnectError) : bool :=
  match e with
  | CResolve _ => false
  | CLoginFailed c => bool_decide (c = TryAnotherAP)
  | _ => true
  end.

(** The loop of [connect]; a [try_ap] that fails to resolve returns at once.
    [tries] is [num_ap_tries], [fuel] a bound on the turns. *)
Fixpoint connect_loop (fuel : nat) (tries : nat) (c : Credentials) (s : AccessPoints * N)
    : exec ((AccessPoints * N) * result (Credentials * T) ConnectError) :=
  match fuel with
  | O => Panic
  | S fuel =>
      match try_ap c s with
      | (s, Ok ct) => Val (s, Ok ct)
      | (s, Err (CResolve e)) => Val (s, Err (CResolve e))
      | (s, Err e) =>
          let tries := S tries in
          if decide (MAX_AP_TRIES = tries) then Val (s, Err e)
          else match e with
               | CLoginFailed TryAnotherAP => connect_loop fuel tries c s
               | CLoginFailed _ => Val (s, Err e)
               | _ => connect_loop fuel tries c s
               end
      end
  end.

Definition connect_ap (c : Credentials) (s : AccessPoints * N)
    : exec ((AccessPoints * N) * result (Credentials * T) ConnectError) :=
  connect_loop MAX_AP_TRIES 0 c s.

(** The state before the [k]-th try. *)
Definition after_tries (c : Credentials) (k : nat) (s : AccessPoints * N) : AccessPoints * N :=
  Nat.iter k (λ s, (try_ap c s).1) s.

Definition fails_softly (c : Credentials) (s : AccessPoints * N) : Prop :=
  ∃ e, (try_ap c s).2 = Err e ∧ try_another e = true.

Lemma after_tries_S c k s : after_tries c k (try_ap c s).1 = after_tries c (S k) s.
Proof. unfold after_tries. by rewrite Nat.iter_succ_r. Qed.

(** The outcome is that of the [k]-th try, before which all failed softly. *)
Definition decided_by (c : Credentials) (s : AccessPoints * N) (fuel k : nat)
    (o : exec ((AccessPoints * N) * result (Credentials * T) ConnectError)) : Prop :=
  (k < fuel)%nat ∧ o = Val (try_ap c (after_tries c k s)) ∧
  (∀ i, (i < k)%nat → fails_softly c (after_tries c i s)) ∧
  (fails_softly c (after_tries c k s) → S k = fuel).

Lemma decided_now c s fuel :
  (fails_softly c s → fuel = O) → decided_by c s (S fuel) 0 (Val (try_ap c s)).
Proof. intros Hs. split_and!; [lia|done|lia|]. intros Hf%Hs. by rewrite Hf. Qed.

Lemma decided_later c s fuel k o :
  fails_softly c s → decided_by c (try_ap c s).1 fuel k o → decided_by c s (S fuel) (S k) o.
Proof.
  intros Hs (Hk & Ho & Hi & Hlast). rewrite after_tries_S in Ho, Hlast. split_and!; [lia|done| |].
  - intros [|i] Hlt; [done|]. rewrite <- after_tries_S. apply Hi. lia.
  - intros Hf. f_equal. by apply Hlast.
Qed.

Lemma connect_loop_spec c fuel : ∀ tries s,
  (tries + fuel = MAX_AP_TRIES)%nat → (0 < fuel)%nat → ∃ k, decided_by c s fuel k (connect_loop fuel tries c s).
Proof.
  induction fuel as [|fuel IH]; intros tries s Hsum Hpos; [lia|]. cbn [connect_loop].
  destruct (try_ap c s) as [s1 r] eqn:Et.
  assert (Hnow : (∀ e, r = Err e → try_another e = true → fuel = O) →
    ∃ k, decided_by c s (S fuel) k (Val (s1, r))).
  { intros Hr. exists O. rewrite <- Et. apply decided_now. intros (e & E & He). rewrite Et in E. simpl in E. eauto. }
  assert (Hlater : ∀ e, r = Err e → try_another e = true → MAX_AP_TRIES ≠ S tries →
    ∃ k, decided_by c s (S fuel) k (connect_loop fuel (S tries) c s1)).
  { intros e -> He Hne. destruct (IH (S tries) s1) as [k Hk]; [lia|lia|]. exists (S k).
    apply decided_later; [|by rewrite Et]. exists e. by rewrite Et. }
  destruct r as [ct|e]; [by apply Hnow|].
  destruct e as [re| | |code| | |]; try (case_decide; [apply Hnow; intros; lia|by eapply Hlater]).
  - apply Hnow. by intros ? [= <-].
  - case_decide; [apply Hnow; intros; lia|].
    destruct code; try (apply Hnow; by intros ? [= <-]). by eapply Hlater.
Qed.
End login.

(** Connecting ends after at most six access points.  The outcome is that
    of the first try that succeeds or fails for good (a refused login, or no
    access point), or of the sixth; every try before it failed in a way that
    another access point may not. *)
Lemma connect_tries {N T} `{ApNetwork N T} client filter_port c s :
  ∃ k, decided_by client filter_port c s MAX_AP_TRIES k (connect_ap client filter_port c s).
Proof. apply connect_loop_spec; unfold MAX_AP_TRIES; lia. Qed.
