(* ===== verification/Session.v ===== *)
(** * The session: [core/src/session.rs]

    The session owns the connection and the managers; the dispatch task reads
    packets, hands them to the managers, and keeps the connection alive. *)

From S2P Require Import Prelude StdTypes Digits Text Wire Channel AudioKey Dealer Mercury Connection.

Local Open Scope Z_scope.

(** ** State *)

Abbreviation UserAttributes := (gmap string string).

Record UserData := mkUserData {
  country : string;
  canonical_username : string;
  attributes : UserAttributes;
}.

#[export] Instance settable_UserData : Settable UserData :=
  λ r, mkUserData (country r) (canonical_username r) (attributes r).

Record SessionData := mkSessionData {
  session_id : string;
  client_id : string;
  client_name : string;
  client_brand_name : string;
  client_model_name : string;
  connection_id : string;
  auth_data : list Z;
  time_delta : Z;
  invalid : bool;
  user_data : UserData;
}.

#[export] Instance settable_SessionData : Settable SessionData :=
  λ r, mkSessionData (session_id r) (client_id r) (client_name r) (client_brand_name r) (client_model_name r)
         (connection_id r) (auth_data r) (time_delta r) (invalid r) (user_data r).

Record Session := mkSession {
  config_autoplay : option bool;
  data : SessionData;
  conn : Conn;
  audio_key : AudioKeyManager;
  channel : ChannelManager;
  mercury : MercuryManager;
  dealer : DealerManager;
}.

#[export] Instance settable_Session : Settable Session :=
  λ r, mkSession (config_autoplay r) (data r) (conn r) (audio_key r) (channel r) (mercury r) (dealer r).

Definition session_new (autoplay : option bool) (client_id session_id : string) : Session :=
  mkSession autoplay
    (mkSessionData session_id client_id EmptyString EmptyString EmptyString EmptyString [] 0 false
      (mkUserData EmptyString EmptyString ∅))
    (mkConn None []) keys_new Channel.manager_new mercury_new Dealer.manager_new.

Inductive SessionError :=
| SPacket (cmd : Z) | SUtf8 | SXml | SChannel | SAudioKey (e : AudioKeyError) | SMercury (e : MercuryError).

Definition map_err {A E F} (f : E → F) (r : result A E) : result A F :=
  match r with Ok a => Ok a | Err e => Err (f e) end.

(** ** Accessors *)

Definition set_session_id (s : string) (self : Session) : Session := self <| data ::= (λ d, d <| session_id := s |>) |>.
Definition set_client_id (s : string) (self : Session) : Session := self <| data ::= (λ d, d <| client_id := s |>) |>.
Definition set_client_name (s : string) (self : Session) : Session := self <| data ::= (λ d, d <| client_name := s |>) |>.
Definition set_client_brand_name (s : string) (self : Session) : Session :=
  self <| data ::= (λ d, d <| client_brand_name := s |>) |>.
Definition set_client_model_name (s : string) (self : Session) : Session :=
  self <| data ::= (λ d, d <| client_model_name := s |>) |>.
Definition set_connection_id (s : string) (self : Session) : Session :=
  self <| data ::= (λ d, d <| connection_id := s |>) |>.
Definition set_auth_data (l : list Z) (self : Session) : Session := self <| data ::= (λ d, d <| auth_data := l |>) |>.
Definition set_username (s : string) (self : Session) : Session :=
  self <| data ::= (λ d, d <| user_data ::= (λ u, u <| canonical_username := s |>) |>) |>.
Definition set_country (s : string) (self : Session) : Session :=
  self <| data ::= (λ d, d <| user_data ::= (λ u, u <| country := s |>) |>) |>.

(** Attributes that name an account other than premium end the process. *)
Definition check_catalogue (attributes : UserAttributes) : bool :=
  match attributes !! "type"%string with
  | Some account_type => bool_decide (account_type = "premium"%string)
  | None => true
  end.

Definition get_user_attribute (key : string) (self : Session) : option string :=
  attributes (user_data (data self)) !! key.

(** [None] when the process exits. *)
Definition set_user_attribute (key value : string) (self : Session) : option (Session * option string) :=
  if check_catalogue {[key := value]} then
    Some (self <| data ::= (λ d, d <| user_data ::= (λ u, u <| attributes ::= <[key := value]> |>) |>) |>,
          get_user_attribute key self)
  else None.

Definition set_user_attributes (l : UserAttributes) (self : Session) : option Session :=
  if check_catalogue l then
    Some (self <| data ::= (λ d, d <| user_data ::= (λ u, u <| attributes ::= (λ m, l ∪ m) |>) |>) |>)
  else None.

Definition is_one (v : option string) : bool := bool_decide (v = Some "1"%string).

Definition filter_explicit_content (self : Session) : bool :=
  is_one (get_user_attribute "filter-explicit-content" self).

Definition autoplay (self : Session) : bool :=
  match config_autoplay self with
  | Some b => b
  | None => is_one (get_user_attribute "autoplay" self)
  end.

Definition is_invalid (self : Session) : bool := invalid (data self).

Definition shutdown (self : Session) : Session :=
  self <| data ::= (λ d, d <| invalid := true |>) |>
       <| mercury ::= Mercury.shutdown |> <| channel ::= channel_shutdown |>.

Definition send (cmd : PacketType) (packet : list Z) (self : Session) : Session * result unit SendError :=
  let '(c, r) := send_packet cmd packet (conn self) in (self <| conn := c |>, r).

(** What [connect] puts into the cache: new credentials, if wanted.  [cached]
    has what the cache holds, when there is a cache. *)
Definition saved_credentials (store : bool) (cached : option (option Credentials)) (reusable : Credentials)
    : option Credentials :=
  match cached with
  | Some old => if store && bool_decide (old ≠ Some reusable) then Some reusable else None
  | None => None
  end.

(** [connect] after the login; a session can be connected once. *)
Definition connected (store : bool) (cached : option (option Credentials)) (reusable : Credentials) (self : Session)
    : Session * option Credentials * result unit SendError :=
  let self := set_username (default "UNKNOWN"%string (username reusable)) self in
  let self := set_auth_data (Connection.auth_data reusable) self in
  let saved := saved_credentials store cached reusable in
  match tx_connection (conn self) with
  | Some _ => (self, saved, Err NotConnected)
  | None => (self <| conn := mkConn (Some true) [] |>, saved, Ok ())
  end.

(** ** Product information *)

(** The events of the XML reader up to the end of the document.  The text of
    an element may fail to decode. *)
Inductive XmlEvent := XStart (name : list Z) | XEnd | XText (content : option string) | XOther | XError.

Fixpoint read_product_info (events : list XmlEvent) (current : string) (attrs : UserAttributes)
    : result UserAttributes SessionError :=
  match events with
  | [] => Ok attrs
  | XStart name :: events =>
      match from_utf8 name with
      | Some s => read_product_info events s attrs
      | None => Err SUtf8
      end
  | XEnd :: events => read_product_info events EmptyString attrs
  | XText content :: events =>
      if decide (current = EmptyString) then read_product_info events current attrs
      else match content with
           | Some text => read_product_info events current (<[current := text]> attrs)
           | None => Err SXml
           end
  | XOther :: events | XError :: events => read_product_info events current attrs
  end.

(** ** The dispatch task *)

Inductive KeepAliveState := ExpectingPing | PendingPong | ExpectingPongAck.

Definition seconds (n : Z) : Z := n * NANOS_PER_SEC.

Definition INITIAL_PING_TIMEOUT : Z := seconds 20.
Definition PING_TIMEOUT : Z := seconds 80.
Definition PONG_DELAY : Z := seconds 60.
Definition PONG_ACK_TIMEOUT : Z := seconds 20.

(** Instants are nanoseconds; [timeout] is the deadline of the timer. *)
Record DispatchTask := mkTask { keep_alive_state : KeepAliveState; timeout : Z }.

#[export] Instance settable_DispatchTask : Settable DispatchTask := λ r, mkTask (keep_alive_state r) (timeout r).

Definition task_new (now : Z) : DispatchTask := mkTask ExpectingPing (now + INITIAL_PING_TIMEOUT).

Definition i64_max : Z := 9223372036854775807.
Definition saturating_sub_i64 (a b : Z) : Z := Z.max (- i64_max - 1) (Z.min i64_max (a - b)).

(** The clocks, whether anybody still holds the session, the channels whose
    consumer still listens, and the XML reader. *)
Record Env := mkEnv {
  now : Z;
  unix_secs : Z;
  session_held : bool;
  alive : nat → bool;
  xml_events : string → list XmlEvent;
}.

Inductive outcome A := Done (a : A) | Exit.
Arguments Done {A} a.
Arguments Exit {A}.

Section task.
Context `{MercuryFormat}.

Definition dispatch_ping (env : Env) (packet : list Z) (task : DispatchTask) (session : Session)
    : exec (DispatchTask * Session) :=
  server_timestamp ← read_be 4 packet;
  Val (mkTask PendingPong (now env + PONG_DELAY),
       session <| data ::= (λ d, d <| time_delta := saturating_sub_i64 server_timestamp (unix_secs env) |>) |>).

Definition dispatch_product_info (env : Env) (packet : list Z) (session : Session)
    : outcome (Session * result unit SessionError) :=
  match from_utf8 packet with
  | None => Done (session, Err SUtf8)
  | Some text =>
      match read_product_info (xml_events env text) EmptyString ∅ with
      | Err e => Done (session, Err e)
      | Ok attrs =>
          if check_catalogue attrs then
            Done (session <| data ::= (λ d, d <| user_data ::= (λ u, u <| attributes := attrs |>) |>) |>, Ok ())
          else Exit
      end
  end.

Definition dispatch (env : Env) (cmd : Z) (packet : list Z) (task : DispatchTask) (session : Session)
    : exec (outcome (DispatchTask * Session * result unit SessionError)) :=
  match packet_from_u8 cmd with
  | None => Val (Done (task, session, Err (SPacket cmd)))
  | Some t =>
      match t with
      | Ping => '(task, session) ← dispatch_ping env packet task session; Val (Done (task, session, Ok ()))
      | PongAck => Val (Done (mkTask ExpectingPing (now env + PING_TIMEOUT), session, Ok ()))
      | CountryCode =>
          Val (Done (match from_utf8 packet with
                     | Some s => (task, set_country s session, Ok ())
                     | None => (task, session, Err SUtf8)
                     end))
      | StreamChunkRes | ChannelError_ =>
          '(c, r) ← channel_dispatch (now env) (alive env) t packet (channel session);
          Val (Done (task, session <| channel := c |>, map_err (λ _, SChannel) r))
      | AesKey | AesKeyError =>
          '(k, r) ← AudioKey.dispatch t packet (audio_key session);
          Val (Done (task, session <| audio_key := k |>, map_err SAudioKey r))
      | MercuryReq | MercurySub | MercuryUnsub | MercuryEvent =>
          '(m, r) ← Mercury.dispatch (manager_handles (dealer session)) t packet (mercury session);
          Val (Done (task, session <| mercury := m |>, map_err SMercury r))
      | ProductInfo =>
          Val (match dispatch_product_info env packet session with
               | Done (session, r) => Done (task, session, r)
               | Exit => Exit
               end)
      | SecretBlock | LegacyWelcome | UnknownDataAllZeros | LicenseVersion => Val (Done (task, session, Ok ()))
      | _ => Val (Done (task, session, Err (SPacket (packet_code t))))
      end
  end.

(** What the stream has ready: packets, then possibly its end. *)
Inductive stream_item := SItem (cmd : Z) (packet : list Z) | SError.

Inductive io_error := StreamError | TimedOut.

(** What a poll of the task gives. *)
Inductive poll_result := PollPending | PollReady (r : result unit io_error) | PollExit.

(** The loop over what is ready; [closed] when the stream ends after it. *)
Fixpoint process (env : Env) (items : list stream_item) (closed : bool) (task : DispatchTask) (session : Session)
    : exec (DispatchTask * Session * poll_result) :=
  match items with
  | [] => Val (if closed then (task, shutdown session, PollReady (Ok ())) else (task, session, PollPending))
  | SError :: _ => Val (task, shutdown session, PollReady (Err StreamError))
  | SItem cmd packet :: items =>
      o ← dispatch env cmd packet task session;
      match o with
      | Done (task, session, _) => process env items closed task session
      | Exit => Val (task, session, PollExit)
      end
  end.

(** The timer, polled after the packets. *)
Definition keep_alive (env : Env) (task : DispatchTask) (session : Session) : DispatchTask * Session * poll_result :=
  if decide (timeout task ≤ now env) then
    match keep_alive_state task with
    | ExpectingPing | ExpectingPongAck =>
        (task, if is_invalid session then session else shutdown session, PollReady (Err TimedOut))
    | PendingPong =>
        (mkTask ExpectingPongAck (now env + PONG_ACK_TIMEOUT), (send Pong [0; 0; 0; 0] session).1, PollPending)
    end
  else (task, session, PollPending).

(** The task has a weak reference to the session, and ends when it is gone. *)
Definition poll (env : Env) (items : list stream_item) (closed : bool) (task : DispatchTask) (session : Session)
    : exec (DispatchTask * Session * poll_result) :=
  if negb (session_held env) then Val (task, session, PollReady (Ok ()))
  else
    '(task, session, r) ← process env items closed task session;
    match r with
    | PollPending => Val (keep_alive env task session)
    | _ => Val (task, session, r)
    end.
End task.

(** ** Keeping the connection alive *)

Section keep_alive.
Context `{MercuryFormat}.

Definition is_keep_alive (i : stream_item) : bool :=
  match i with
  | SItem cmd _ => bool_decide (packet_from_u8 cmd ∈ [Some Ping; Some PongAck])
  | SError => false
  end.

(** A history of polls, with what was ready at each. *)
Fixpoint poll_run (l : list (Env * list stream_item)) (task : DispatchTask) (session : Session)
    : exec (DispatchTask * Session * poll_result) :=
  match l with
  | [] => Val (task, session, PollPending)
  | (env, items) :: l =>
      '(task, session, r) ← poll env items false task session;
      match r with PollPending => poll_run l task session | _ => Val (task, session, r) end
  end.

(** When the server was last heard of, and how long it may then be silent. *)
Fixpoint last_heard (heard : Z * Z) (l : list (Env * list stream_item)) : Z * Z :=
  match l with
  | [] => heard
  | (env, items) :: l => last_heard (if existsb is_keep_alive items then (now env, PING_TIMEOUT) else heard) l
  end.

(** The polls are at times that do not decrease. *)
Fixpoint timely (t : Z) (l : list (Env * list stream_item)) : Prop :=
  match l with [] => True | (env, _) :: l => t ≤ now env ∧ timely (now env) l end.

Fixpoint last_time (t : Z) (l : list (Env * list stream_item)) : Z :=
  match l with [] => t | (env, _) :: l => last_time (now env) l end.

(** A keep-alive packet restarts the timer; nothing else touches it. *)
Lemma dispatch_task env cmd packet task session task' session' r :
  dispatch env cmd packet task session = Val (Done (task', session', r)) →
  if is_keep_alive (SItem cmd packet)
  then task' = mkTask PendingPong (now env + PONG_DELAY) ∨ task' = mkTask ExpectingPing (now env + PING_TIMEOUT)
  else task' = task.
Proof.
  unfold dispatch, is_keep_alive. intros E. destruct (packet_from_u8 cmd) as [t|]; [|by simplify_eq].
  destruct t; simplify_eq; try done.
  - unfold dispatch_ping in E. destruct (read_be 4 packet); [|done]. simpl in E. simplify_eq. by left.
  - destruct (channel_dispatch _ _ _ _ _) as [[]|]; [|done]. by simplify_eq/=.
  - destruct (channel_dispatch _ _ _ _ _) as [[]|]; [|done]. by simplify_eq/=.
  - destruct (AudioKey.dispatch _ _ _) as [[]|]; [|done]. by simplify_eq/=.
  - destruct (AudioKey.dispatch _ _ _) as [[]|]; [|done]. by simplify_eq/=.
  - destruct (from_utf8 packet); by simplify_eq.
  - by right.
  - destruct (dispatch_product_info env packet session) as [[]|]; by simplify_eq.
  - destruct (Mercury.dispatch _ _ _ _) as [[]|]; [|done]. by simplify_eq/=.
  - destruct (Mercury.dispatch _ _ _ _) as [[]|]; [|done]. by simplify_eq/=.
  - destruct (Mercury.dispatch _ _ _ _) as [[]|]; [|done]. by simplify_eq/=.
  - destruct (Mercury.dispatch _ _ _ _) as [[]|]; [|done]. by simplify_eq/=.
Qed.

Lemma process_task env items task session task' session' :
  process env items false task session = Val (task', session', PollPending) →
  if existsb is_keep_alive items
  then task' = mkTask PendingPong (now env + PONG_DELAY) ∨ task' = mkTask ExpectingPing (now env + PING_TIMEOUT)
  else task' = task.
Proof.
  revert task session. induction items as [|[cmd packet|] items IH]; intros task session E; [by simplify_eq/=| |done].
  cbn [process] in E. apply exec_bind_Val_inv in E as ([[[t1 s1] r]|] & Ed & E); [|done].
  apply dispatch_task in Ed. apply IH in E. cbn [existsb]. destruct (existsb is_keep_alive items); [by destruct (is_keep_alive _)|].
  subst t1. by destruct (is_keep_alive _).
Qed.

(** The process ends only for other reasons than the timer. *)
Lemma process_not_timed_out env items task session task' session' :
  process env items false task session ≠ Val (task', session', PollReady (Err TimedOut)).
Proof.
  revert task session. induction items as [|[cmd packet|] items IH]; intros task session E; [done| |done].
  cbn [process] in E. apply exec_bind_Val_inv in E as ([[[t1 s1] r]|] & Ed & E); [by apply IH in E|done].
Qed.

(** The deadline, from the time the server was last heard of. *)
Definition keeps (heard : Z * Z) (t : Z) (task : DispatchTask) : Prop :=
  let '(h, allowance) := heard in
  h ≤ t ∧ INITIAL_PING_TIMEOUT ≤ allowance ≤ PING_TIMEOUT ∧
  match keep_alive_state task with
  | ExpectingPing => timeout task = h + allowance
  | PendingPong => allowance = PING_TIMEOUT ∧ timeout task = h + PONG_DELAY
  | ExpectingPongAck => h + allowance ≤ timeout task ≤ t + PONG_ACK_TIMEOUT
  end.

Lemma keeps_later heard t t' task : keeps heard t task → t ≤ t' → keeps heard t' task.
Proof. destruct heard as [h a]. unfold keeps. intros (? & ? & Hk) Ht. destruct (keep_alive_state task); split_and!; lia. Qed.

Ltac unfold_times :=
  unfold PING_TIMEOUT, PONG_DELAY, PONG_ACK_TIMEOUT, INITIAL_PING_TIMEOUT, seconds, NANOS_PER_SEC in *.

Lemma process_keeps env items heard t task session task' session' :
  process env items false task session = Val (task', session', PollPending) →
  keeps heard t task → t ≤ now env →
  keeps (if existsb is_keep_alive items then (now env, PING_TIMEOUT) else heard) (now env) task'.
Proof.
  intros E%process_task Hk Ht. destruct (existsb is_keep_alive items); [|subst; by eapply keeps_later].
  destruct E as [->| ->]; unfold keeps; simpl; unfold_times; lia.
Qed.

Lemma keep_alive_keeps env heard task session task' session' :
  keep_alive env task session = (task', session', PollPending) → keeps heard (now env) task →
  keeps heard (now env) task'.
Proof.
  unfold keep_alive. case_decide as Hd; [|by intros; simplify_eq].
  destruct heard as [h a]. unfold keeps. destruct (keep_alive_state task) eqn:Es; intros E (? & ? & Hk); simplify_eq.
  simpl. unfold_times. lia.
Qed.

Lemma poll_keeps env items heard t task session task' session' :
  poll env items false task session = Val (task', session', PollPending) →
  keeps heard t task → t ≤ now env →
  keeps (if existsb is_keep_alive items then (now env, PING_TIMEOUT) else heard) (now env) task'.
Proof.
  unfold poll. intros E Hk Ht. destruct (session_held env); [|done]. apply exec_bind_Val_inv in E as ([[t1 s1] r] & Ep & E).
  destruct r; simplify_eq. eapply keep_alive_keeps; [exact E|]. by eapply process_keeps.
Qed.

Lemma run_keeps l : ∀ heard t task session task' session',
  poll_run l task session = Val (task', session', PollPending) → keeps heard t task → timely t l →
  keeps (last_heard heard l) (last_time t l) task'.
Proof.
  induction l as [|[env items] l IH]; intros heard t task session task' session' E Hk Ht; [by simplify_eq/=|].
  destruct Ht as [Ht Htl]. cbn [poll_run] in E. apply exec_bind_Val_inv in E as ([[t1 s1] r] & Ep & E).
  destruct r; simplify_eq. cbn [last_heard last_time]. eapply IH; [exact E| |done]. by eapply poll_keeps.
Qed.

Lemma task_new_keeps t : keeps (t, INITIAL_PING_TIMEOUT) t (task_new t).
Proof. unfold keeps, task_new. simpl. unfold_times. lia. Qed.

(** Giving up means that the time is over. *)
Lemma poll_timed_out env items heard t task session task' session' :
  poll env items false task session = Val (task', session', PollReady (Err TimedOut)) →
  keeps heard t task → t ≤ now env →
  let heard' := if existsb is_keep_alive items then (now env, PING_TIMEOUT) else heard in
  heard'.1 + heard'.2 ≤ now env.
Proof.
  unfold poll. intros E Hk Ht. destruct (session_held env); [|done]. apply exec_bind_Val_inv in E as ([[t1 s1] r] & Ep & E).
  destruct r as [|r|]; [|simplify_eq; by apply process_not_timed_out in Ep|done].
  pose proof (process_keeps _ _ _ _ _ _ _ _ Ep Hk Ht) as Hk1. injection E as E. unfold keep_alive in E.
  case_decide as Hd; [|done].
  destruct (if existsb is_keep_alive items then _ else heard) as [h a]. destruct Hk1 as (? & ? & Hk1).
  destruct (keep_alive_state t1); simplify_eq; simpl; lia.
Qed.

Lemma last_heard_app heard l env items :
  last_heard heard (l ++ [(env, items)]) =
    if existsb is_keep_alive items then (now env, PING_TIMEOUT) else last_heard heard l.
Proof. revert heard. induction l as [|[e i] l IH]; intros heard; [done|]. apply IH. Qed.

Lemma timely_app t l env items : timely t (l ++ [(env, items)]) → timely t l ∧ last_time t l ≤ now env.
Proof. revert t. induction l as [|[e i] l IH]; intros t Ht; [simpl in *; tauto|]. destruct Ht as [? Ht%IH]. simpl. tauto. Qed.

(** However it got there, the timer fires within 80 seconds. *)
Lemma keeps_bound heard t task : keeps heard t task → timeout task ≤ t + PING_TIMEOUT.
Proof.
  destruct heard as [h a]. unfold keeps. intros (? & ? & Hk). unfold_times. destruct (keep_alive_state task); lia.
Qed.

Lemma poll_silent env task session :
  poll env [] false task session =
    Val (if session_held env then keep_alive env task session else (task, session, PollReady (Ok ()))).
Proof. unfold poll. by destruct (session_held env). Qed.

Lemma keep_alive_gives_up env task session :
  timeout task ≤ now env → keep_alive_state task ≠ PendingPong →
  ∃ session', keep_alive env task session = (task, session', PollReady (Err TimedOut)) ∧ is_invalid session' = true.
Proof.
  intros Ht Hs. unfold keep_alive. rewrite decide_True by done.
  destruct (keep_alive_state task); [|done|]; destruct (is_invalid session) eqn:Ei; by eexists.
Qed.
End keep_alive.

(** The session gives the connection up only after silence.  When the
    timer ends a task that was started at [t0], the server has sent no
    keep-alive packet for 80 seconds, or, if it never sent one, for 20 seconds
    from the start. *)
Lemma keep_alive_patient `{MercuryFormat} t0 l env items session task1 session1 task2 session2 :
  timely t0 (l ++ [(env, items)]) →
  poll_run l (task_new t0) session = Val (task1, session1, PollPending) →
  poll env items false task1 session1 = Val (task2, session2, PollReady (Err TimedOut)) →
  let '(heard, allowance) := last_heard (t0, INITIAL_PING_TIMEOUT) (l ++ [(env, items)]) in
  heard + allowance ≤ now env.
Proof.
  intros [Ht Hl]%timely_app E1 E2.
  pose proof (run_keeps l _ _ _ _ _ _ E1 (task_new_keeps t0) Ht) as Hk.
  pose proof (poll_timed_out _ _ _ _ _ _ _ _ E2 Hk Hl) as Hto. cbv zeta in Hto. rewrite last_heard_app.
  by destruct (if existsb is_keep_alive items then _ else _).
Qed.

(** C35: a lost connection is noticed.  Whatever happened before, if nothing
    arrives any more, the task polled 80 seconds later either ends and leaves
    the session invalid, or sends a pong, and then ends when it is polled
    another 20 seconds later.  It ends at once when nobody holds the session
    any more. *)
Theorem silence_detected `{MercuryFormat} t0 l session task session1 env1 env2 :
  timely t0 l → poll_run l (task_new t0) session = Val (task, session1, PollPending) →
  last_time t0 l + PING_TIMEOUT ≤ now env1 → now env1 + PONG_ACK_TIMEOUT ≤ now env2 →
  ∃ task2 session2 r, poll env1 [] false task session1 = Val (task2, session2, r) ∧
    if session_held env1 then
      r = PollReady (Err TimedOut) ∧ is_invalid session2 = true ∨
      r = PollPending ∧ session2 = (send Pong [0; 0; 0; 0] session1).1 ∧
      ∃ session3 r2, poll env2 [] false task2 session2 = Val (task2, session3, PollReady r2) ∧
        if session_held env2 then r2 = Err TimedOut ∧ is_invalid session3 = true else r2 = Ok ()
    else r = PollReady (Ok ()).
Proof.
  intros Ht E H1 H2. pose proof (run_keeps l _ _ _ _ _ _ E (task_new_keeps t0) Ht) as Hk%keeps_bound.
  rewrite poll_silent. destruct (session_held env1); [|by eexists _, _, _]. destruct (keep_alive_state task) eqn:Es.
  - destruct (keep_alive_gives_up env1 task session1) as (s2 & -> & Hi); [lia|congruence|]. eexists _, _, _. eauto.
  - unfold keep_alive. rewrite decide_True, Es by lia. eexists _, _, _. split; [done|]. right. split_and!; [done..|].
    rewrite poll_silent. destruct (session_held env2); [|by eexists _, _].
    match goal with |- ∃ s r, Val (keep_alive _ ?t ?s1) = _ ∧ _ =>
      destruct (keep_alive_gives_up env2 t s1) as (s3 & -> & Hi); [done|done|] end. eauto.
  - destruct (keep_alive_gives_up env1 task session1) as (s2 & -> & Hi); [lia|congruence|]. eexists _, _, _. eauto.
Qed.

Definition at_second (t : Z) : Env := mkEnv (seconds t) t true (λ _, true) (λ _, []).
Definition example_session : Session := (connected false None (with_access_token "t") (session_new None "c" "s")).1.1.

Lemma silence_detected_witness :
  let F := byte_format in
  match poll_run [(at_second 10, [SItem 4 [0; 0; 0; 9]])] (task_new 0) example_session with
  | Val (task, session, _) =>
      ∃ task2 session2 r, poll (at_second 90) [] false task session = Val (task2, session2, r) ∧
        (r = PollReady (Err TimedOut) ∧ is_invalid session2 = true ∨
         r = PollPending ∧ session2 = (send Pong [0; 0; 0; 0] session).1 ∧
         ∃ session3 r2, poll (at_second 110) [] false task2 session2 = Val (task2, session3, PollReady r2) ∧
           r2 = Err TimedOut ∧ is_invalid session3 = true)
  | Panic => False
  end.
Proof.
  intros F. destruct (poll_run _ _ _) as [[[task session] r]|] eqn:E; [|vm_compute in E; discriminate].
  assert (r = PollPending) as -> by (vm_compute in E; congruence).
  apply (silence_detected 0 [(at_second 10, [SItem 4 [0; 0; 0; 9]])] example_session task session
    (at_second 90) (at_second 110)); 
    [split; [vm_compute; congruence|exact I]|exact E|vm_compute; congruence|vm_compute; congruence].
Defined.
