(* ===== verification/Cache.v ===== *)
(** * The cache: [core/src/cache.rs]

    Audio files are kept on disk up to a size limit; the least recently used
    ones are removed first.  The priority queue is a library's: the class
    [PriorityQueue] has its operations, [PriorityQueueLaws] what they do to the
    set of items. *)

From S2P Require Import Prelude Digits SpotifyId.

Local Open Scope Z_scope.

(** A path as its components. *)
Abbreviation Path := (list string).

(** [Reverse<SystemTime>]: earlier times have higher priority. *)
Record Reverse := mkReverse { time : Z }.
Definition priority_le (p q : Reverse) : Prop := time q ≤ time p.

Class PriorityQueue (Q : Type) := {
  pq_new : Q;
  pq_push : Path → Reverse → Q → Q;
  pq_pop : Q → option (Path * Reverse) * Q;
  pq_change_priority : Path → Reverse → Q → option Reverse * Q;
  pq_remove : Path → Q → option Reverse * Q;
}.

Class PriorityQueueLaws (Q : Type) `{PriorityQueue Q} := {
  items : Q → gmap Path Reverse;
  items_new : items pq_new = ∅;
  items_push f p q : items (pq_push f p q) = <[f := p]> (items q);
  items_pop q :
    match pq_pop q with
    | (None, q') => items q = ∅ ∧ items q' = ∅
    | (Some (f, p), q') =>
        items q !! f = Some p ∧ items q' = delete f (items q) ∧
        (∀ f' p', items q !! f' = Some p' → priority_le p' p)
    end;
  items_change f p q :
    (pq_change_priority f p q).1 = items q !! f ∧
    items (pq_change_priority f p q).2 = alter (λ _, p) f (items q);
  items_remove f q :
    (pq_remove f q).1 = items q !! f ∧ items (pq_remove f q).2 = delete f (items q);
}.

(** ** [SizeLimiter] *)

Section limiter.
Context {Q : Type} `{PriorityQueue Q}.

Record SizeLimiter := mkLimiter {
  queue : Q;
  sizes : gmap Path Z;
  size_limit : Z;
  in_use : Z;
}.

#[export] Instance settable_SizeLimiter : Settable SizeLimiter :=
  λ r, mkLimiter (queue r) (sizes r) (size_limit r) (in_use r).

Definition limiter_new (limit : Z) : SizeLimiter := mkLimiter pq_new ∅ limit 0.

Definition limiter_add (file : Path) (size : Z) (accessed : Z) (self : SizeLimiter) : exec SizeLimiter :=
  n ← uadd u64_max (in_use self) size;
  let old := sizes self !! file in
  let self := self <| queue ::= pq_push file (mkReverse accessed) |> <| sizes ::= <[file := size]> |> in
  match old with
  | Some old_size => n ← usub n old_size; Val (self <| in_use := n |>)
  | None => Val (self <| in_use := n |>)
  end.

Definition exceeds_limit (self : SizeLimiter) : bool := bool_decide (size_limit self < in_use self).

Definition limiter_pop (self : SizeLimiter) : exec (option Path * SizeLimiter) :=
  if exceeds_limit self then
    match pq_pop (queue self) with
    | (Some (next, _), q) =>
        let self := self <| queue := q |> in
        match sizes self !! next with
        | Some size =>
            n ← usub (in_use self) size;
            Val (Some next, self <| sizes ::= delete next |> <| in_use := n |>)
        | None => Val (Some next, self)
        end
    | (None, q) => Val (None, self <| queue := q |>)
    end
  else Val (None, self).

Definition limiter_update (file : Path) (access_time : Z) (self : SizeLimiter) : bool * SizeLimiter :=
  let '(r, q) := pq_change_priority file (mkReverse access_time) (queue self) in
  (if r is Some _ then true else false, self <| queue := q |>).

Definition limiter_remove (file : Path) (self : SizeLimiter) : exec (bool * SizeLimiter) :=
  let '(r, q) := pq_remove file (queue self) in
  let self := self <| queue := q |> in
  match r with
  | None => Val (false, self)
  | Some _ =>
      match sizes self !! file with
      | Some size =>
          n ← usub (in_use self) size;
          Val (true, self <| sizes ::= delete file |> <| in_use := n |>)
      | None => Val (true, self)
      end
  end.

(** ** The files *)

(** The disk below the cache directory, and which operations the file system
    refuses. *)
Record Disk := mkDisk { files : gmap Path (list Z); locked : gset Path }.

#[export] Instance settable_Disk : Settable Disk := λ r, mkDisk (files r) (locked r).

Inductive CacheError := CPath | CIo.

(** [fs::remove_file] *)
Definition fs_remove (file : Path) (disk : Disk) : bool * Disk :=
  if decide (is_Some (files disk !! file) ∧ file ∉ locked disk) then (true, disk <| files ::= delete file |>)
  else (false, disk).

(** [prune_internal]; [fuel] bounds the number of files. *)
Fixpoint prune_loop (fuel : nat) (last_error : bool) (self : SizeLimiter) (disk : Disk)
    : exec (SizeLimiter * Disk * result unit CacheError) :=
  match fuel with
  | O => Panic
  | S fuel =>
      '(file, self) ← limiter_pop self;
      match file with
      | None => Val (self, disk, if last_error then Err CIo else Ok ())
      | Some file =>
          let '(ok, disk) := fs_remove file disk in
          prune_loop fuel (last_error || negb ok) self disk
      end
  end.

Definition prune (self : SizeLimiter) (disk : Disk) : exec (SizeLimiter * Disk * result unit CacheError) :=
  prune_loop (S (size (sizes self))) false self disk.

(** [init_dir], with the files the directory has and their times and sizes. *)
Fixpoint init_dir (entries : list (Path * Z * Z)) (self : SizeLimiter) : exec SizeLimiter :=
  match entries with
  | [] => Val self
  | (file, accessed, len) :: entries => self ← limiter_add file len accessed self; init_dir entries self
  end.

(** [FsSizeLimiter::new]. *)
Definition fs_limiter_new (entries : list (Path * Z * Z)) (limit : Z) (disk : Disk)
    : exec (SizeLimiter * Disk * result unit CacheError) :=
  self ← init_dir entries (limiter_new limit);
  prune self disk.

(** ** [Cache] *)

Record Cache := mkCache {
  audio_location : option Path;
  size_limiter : option SizeLimiter;
  disk : Disk;
}.

#[export] Instance settable_Cache : Settable Cache := λ r, mkCache (audio_location r) (size_limiter r) (disk r).

(** The first two digits of the name are a directory. *)
Definition path_in (location : Path) (file : FileId) : Path :=
  let name := FileId_to_base16 file in
  location ++ [String.substring 0 2 name; String.substring 2 (String.length name - 2) name].
Definition file_path (file : FileId) (self : Cache) : option Path :=
  (λ location, path_in location file) <$> audio_location self.

Definition cached_file (now : Z) (file : FileId) (self : Cache) : Cache * option (list Z) :=
  match file_path file self with
  | None => (self, None)
  | Some path =>
      match files (disk self) !! path with
      | Some contents =>
          (match size_limiter self with
           | Some limiter => self <| size_limiter := Some (limiter_update path now limiter).2 |>
           | None => self
           end, Some contents)
      | None => (self, None)
      end
  end.

(** How writing a file ends: it may fail after part of it was written. *)
Inductive write_outcome := Written | WriteFailed (partial : option (list Z)).

Definition save_file (now : Z) (w : write_outcome) (file : FileId) (contents : list Z) (self : Cache)
    : exec (Cache * result Path CacheError) :=
  match file_path file self with
  | Some path =>
      match w with
      | Written =>
          let self := self <| disk ::= (λ d, d <| files ::= <[path := contents]> |>) |> in
          match size_limiter self with
          | Some limiter =>
              limiter ← limiter_add path (Z.of_nat (length contents)) now limiter;
              '(limiter, d, r) ← prune limiter (disk self);
              Val (self <| size_limiter := Some limiter |> <| disk := d |>,
                   match r with Ok _ => Ok path | Err e => Err e end)
          | None => Val (self, Ok path)
          end
      | WriteFailed partial =>
          Val (match partial with
               | Some part => self <| disk ::= (λ d, d <| files ::= <[path := part]> |>) |>
               | None => self
               end, Err CPath)
      end
  | None => Val (self, Err CPath)
  end.

Definition remove_file (file : FileId) (self : Cache) : exec (Cache * result unit CacheError) :=
  match file_path file self with
  | None => Val (self, Err CPath)
  | Some path =>
      let '(ok, d) := fs_remove path (disk self) in
      let self := self <| disk := d |> in
      if ok then
        match size_limiter self with
        | Some limiter => '(_, limiter) ← limiter_remove path limiter; Val (self <| size_limiter := Some limiter |>, Ok ())
        | None => Val (self, Ok ())
        end
      else Val (self, Err CIo)
  end.
End limiter.
Arguments SizeLimiter : clear implicits.
Arguments Cache : clear implicits.

(** ** The bookkeeping *)

Definition total (m : gmap Path Z) : Z := map_fold (λ _ n acc, n + acc) 0 m.

Lemma total_empty : total ∅ = 0.
Proof. apply map_fold_empty. Qed.

Lemma total_insert m f n : m !! f = None → total (<[f := n]> m) = n + total m.
Proof. intros Hf. unfold total. apply map_fold_insert_L; [intros; lia|done]. Qed.

Lemma total_delete m f n : m !! f = Some n → total m = n + total (delete f m).
Proof. intros Hf. rewrite <- (insert_delete_id m f n Hf) at 1. apply total_insert, lookup_delete_eq. Qed.

Lemma total_replace m f n o : m !! f = Some o → total (<[f := n]> m) = n + total m - o.
Proof.
  intros Hf. rewrite (total_delete m f o Hf), <- insert_delete_eq, total_insert by apply lookup_delete_eq. lia.
Qed.

Definition sizes_ok (m : gmap Path Z) : Prop := map_Forall (λ _ n, 0 ≤ n) m.

Lemma total_nonneg m : sizes_ok m → 0 ≤ total m.
Proof.
  unfold sizes_ok. induction m as [|f n m Hf IH] using map_ind; intros Hm; [rewrite total_empty; lia|].
  rewrite total_insert by done. apply map_Forall_insert in Hm as [? ?]; [|done]. specialize (IH H0). lia.
Qed.

Section limiter_laws.
Context {Q : Type} `{PriorityQueueLaws Q}.
Implicit Types self : SizeLimiter Q.

Record limiter_ok self : Prop := {
  ok_keys f : is_Some (items (queue self) !! f) ↔ is_Some (sizes self !! f);
  ok_total : in_use self = total (sizes self);
  ok_sizes : sizes_ok (sizes self);
}.

Lemma limiter_new_ok limit : limiter_ok (limiter_new limit).
Proof.
  split; simpl; [|by rewrite total_empty|by apply map_Forall_empty]. intros f. by rewrite items_new, !lookup_empty.
Qed.

Lemma limiter_add_ok file n t self :
  limiter_ok self → 0 ≤ n → in_use self + n ≤ u64_max →
  ∃ self', limiter_add file n t self = Val self' ∧ limiter_ok self' ∧ sizes self' = <[file := n]> (sizes self) ∧
    size_limit self' = size_limit self ∧ items (queue self') = <[file := mkReverse t]> (items (queue self)).
Proof.
  intros [Hk Ht Hs] Hn Hmax. unfold limiter_add. rewrite uadd_Val by done. rewrite exec_bind_Val.
  assert (∀ m, m = total (<[file := n]> (sizes self)) →
    limiter_ok (self <| queue ::= pq_push file (mkReverse t) |> <| sizes ::= <[file := n]> |> <| in_use := m |>)) as Hok.
  { intros m ->. split; simpl; [|done|by apply map_Forall_insert_2]. intros f. rewrite items_push.
    destruct (decide (file = f)) as [->|]; [rewrite !lookup_insert_eq; split; by eexists|by rewrite !lookup_insert_ne]. }
  destruct (sizes self !! file) as [o|] eqn:Eo.
  - pose proof (total_replace _ _ n _ Eo) as Htot. pose proof (total_delete _ _ _ Eo) as Hdel.
    pose proof (total_nonneg (delete file (sizes self)) (map_Forall_delete _ _ _ Hs)).
    rewrite usub_Val by lia. rewrite exec_bind_Val. eexists. split; [done|]. split; [apply Hok; lia|].
    simpl. by rewrite items_push.
  - eexists. split; [done|]. split; [apply Hok; rewrite total_insert; [lia|done]|]. simpl. by rewrite items_push.
Qed.

(** A file is dropped from the books. *)
Lemma limiter_drop_ok self file q n :
  limiter_ok self → sizes self !! file = Some n → items q = delete file (items (queue self)) →
  usub (in_use self) n = Val (in_use self - n) ∧
  limiter_ok (self <| queue := q |> <| sizes ::= delete file |> <| in_use := in_use self - n |>).
Proof.
  intros [Hk Ht Hs] En Hq. pose proof (total_delete _ _ _ En) as Hdel.
  pose proof (total_nonneg (delete file (sizes self)) (map_Forall_delete _ _ _ Hs)).
  split; [apply usub_Val; lia|]. split; simpl; [|lia|by apply map_Forall_delete].
  intros f. rewrite Hq. destruct (decide (file = f)) as [->|]; [by rewrite !lookup_delete_eq|by rewrite !lookup_delete_ne].
Qed.

(** [pop] takes out a least recently used file, as long as the limit is
    exceeded. *)
Lemma limiter_pop_ok self :
  limiter_ok self → 0 ≤ size_limit self →
  if exceeds_limit self then
    ∃ file n self', limiter_pop self = Val (Some file, self') ∧ limiter_ok self' ∧
      sizes self !! file = Some n ∧ sizes self' = delete file (sizes self) ∧ size_limit self' = size_limit self ∧
      items (queue self') = delete file (items (queue self)) ∧
      ∃ p, items (queue self) !! file = Some p ∧
        ∀ f' p', items (queue self) !! f' = Some p' → time p ≤ time p'
  else limiter_pop self = Val (None, self).
Proof.
  intros Hok Hlim. pose proof Hok as [Hk Ht Hs]. unfold limiter_pop. destruct (exceeds_limit self) eqn:Ee; [|done].
  apply bool_decide_eq_true in Ee. pose proof (items_pop (queue self)) as Hpop.
  destruct (pq_pop (queue self)) as [[[file p]|] q].
  - destruct Hpop as (Hf & Hq & Hmin).
    assert (is_Some (sizes self !! file)) as [n En] by (apply Hk; by eexists).
    destruct (limiter_drop_ok self file q n Hok En Hq) as [Eu Hok'].
    cbv beta iota zeta. change (sizes (self <| queue := q |>)) with (sizes self). rewrite En.
    change (in_use (self <| queue := q |>)) with (in_use self). rewrite Eu, exec_bind_Val.
    eexists file, n, _. split; [done|]. split; [done|]. split; [done|]. split; [done|]. split; [done|].
    split; [done|]. exists p. split; [done|]. intros f' p' E'. by apply (Hmin f' p').
  - destruct Hpop as [He _]. exfalso.
    assert (sizes self = ∅) as E0.
    { apply map_empty. intros f. destruct (sizes self !! f) as [n|] eqn:En; [|done].
      assert (is_Some (items (queue self) !! f)) as [p Hp] by (apply Hk; by eexists). by rewrite He, lookup_empty in Hp. }
    rewrite E0, total_empty in Ht. lia.
Qed.

Lemma limiter_update_ok file t self :
  limiter_ok self → limiter_ok (limiter_update file t self).2 ∧
  sizes (limiter_update file t self).2 = sizes self ∧ size_limit (limiter_update file t self).2 = size_limit self ∧
  (limiter_update file t self).1 = bool_decide (is_Some (sizes self !! file)).
Proof.
  intros [Hk Ht Hs]. unfold limiter_update. destruct (items_change file (mkReverse t) (queue self)) as [E1 E2].
  destruct (pq_change_priority _ _ _) as [r q]. simpl in *. split_and!; [|done|done|].
  - split; simpl; [|done|done]. intros f. rewrite E2. rewrite lookup_alter_is_Some. apply Hk.
  - subst r. specialize (Hk file). destruct (items (queue self) !! file) as [p|].
    + rewrite bool_decide_true; [done|]. by apply Hk.
    + rewrite bool_decide_false; [done|]. intros Hc%Hk. by destruct Hc.
Qed.

Lemma limiter_remove_ok file self :
  limiter_ok self →
  ∃ self', limiter_remove file self = Val (bool_decide (is_Some (sizes self !! file)), self') ∧ limiter_ok self' ∧
    sizes self' = delete file (sizes self) ∧ size_limit self' = size_limit self.
Proof.
  intros Hok. pose proof Hok as [Hk Ht Hs]. unfold limiter_remove. destruct (items_remove file (queue self)) as [E1 E2].
  destruct (pq_remove file (queue self)) as [r q]. cbn [fst snd] in *. subst r.
  destruct (items (queue self) !! file) as [p|] eqn:Ep.
  - assert (is_Some (sizes self !! file)) as [n En] by (apply Hk; by eexists).
    destruct (limiter_drop_ok self file q n Hok En E2) as [Eu Hok'].
    cbv beta iota zeta. change (sizes (self <| queue := q |>)) with (sizes self). rewrite En.
    change (in_use (self <| queue := q |>)) with (in_use self). rewrite Eu, exec_bind_Val.
    eexists. split; [by rewrite bool_decide_true by by eexists|]. done.
  - assert (sizes self !! file = None) as En.
    { destruct (sizes self !! file) eqn:En; [|done]. destruct (proj2 (Hk file)) as [p Hp]; [by eexists|]. congruence. }
    eexists. split; [by rewrite bool_decide_false by (rewrite En; by intros [])|].
    split; [|split; [|done]]; [|simpl; by rewrite delete_id]. split; simpl; [|done|done].
    intros f. rewrite E2, delete_id by done. apply Hk.
Qed.

(** *** The books and the disk *)

Definition disk_sizes (d : Disk) : gmap Path Z := (λ c, Z.of_nat (length c)) <$> files d.

(** The books have exactly the files on disk, with their sizes, but for a set
    of paths, where all the paths are that the file system protects. *)
Record synced (but : gset Path) self (d : Disk) : Prop := {
  synced_ok : limiter_ok self;
  synced_limit : 0 ≤ size_limit self;
  synced_files f : f ∉ but → sizes self !! f = disk_sizes d !! f;
  synced_locked : locked d ⊆ but;
}.

Lemma synced_more but but' self d : but ⊆ but' → synced but self d → synced but' self d.
Proof. intros Hb [Hok Hl Hf Hk]. split; [done|done| |set_solver]. intros f Hn. apply Hf. set_solver. Qed.

(** What pruning leaves: older files went first. *)
Definition kept_newest self self' : Prop :=
  ∀ f p f' p', items (queue self) !! f = Some p → sizes self' !! f = None →
    is_Some (sizes self' !! f') → items (queue self) !! f' = Some p' → time p ≤ time p'.

Lemma fs_remove_synced but file n self self' d :
  synced but self d → sizes self !! file = Some n → limiter_ok self' → sizes self' = delete file (sizes self) →
  size_limit self' = size_limit self →
  ∃ ok d', fs_remove file d = (ok, d') ∧ synced but self' d' ∧ (ok = false → file ∈ but).
Proof.
  intros [Hok Hlim Hf Hl] En Hok' Hs' Hlim'. unfold fs_remove. case_decide as Hd.
  - eexists _, _. split; [done|]. split; [|done]. split; [done|lia| |done]. intros f Hn. unfold disk_sizes. simpl.
    rewrite Hs', fmap_delete. destruct (decide (f = file)) as [->|]; [by rewrite !lookup_delete_eq|].
    rewrite !lookup_delete_ne by done. by apply Hf.
  - assert (file ∈ but) as Hin.
    { destruct (decide (file ∈ but)) as [|Hn]; [done|]. destruct Hd. split; [|set_solver].
      rewrite (Hf file Hn) in En. unfold disk_sizes in En. rewrite lookup_fmap_Some in En. destruct En as (c & _ & E). by eexists. }
    eexists _, _. split; [done|]. split; [|done]. split; [done|lia| |done]. intros f Hn.
    rewrite Hs', lookup_delete_ne by set_solver. by apply Hf.
Qed.

Lemma prune_loop_spec but fuel : ∀ e self d,
  synced but self d → (size (sizes self) < fuel)%nat →
  ∃ self' d' r, prune_loop fuel e self d = Val (self', d', r) ∧ synced but self' d' ∧
    in_use self' ≤ size_limit self' ∧ size_limit self' = size_limit self ∧ sizes self' ⊆ sizes self ∧
    kept_newest self self' ∧ (r = Ok () ∨ e = true ∨ but ≠ ∅).
Proof.
  induction fuel as [|fuel IH]; intros e self d Hsync Hf; [lia|]. cbn [prune_loop].
  pose proof (limiter_pop_ok self (synced_ok _ _ _ Hsync) (synced_limit _ _ _ Hsync)) as Hpop.
  destruct (exceeds_limit self) eqn:Ee.
  - destruct Hpop as (file & n & s1 & -> & Hok1 & En & Es1 & El1 & Eq1 & p & Ep & Hmin). rewrite exec_bind_Val.
    destruct (fs_remove_synced but file n self s1 d Hsync En Hok1 Es1 El1) as (ok & d1 & -> & Hsync1 & Hbut).
    destruct (IH (e || negb ok) s1 d1 Hsync1) as (s2 & d2 & r & -> & Hsync2 & Hle & El2 & Hsub & Hnew & Hr).
    { rewrite Es1, map_size_delete_Some by (by eexists).
      assert (size (sizes self) ≠ O); [|lia]. intros E0%map_size_empty_inv. by rewrite E0 in En. }
    exists s2, d2, r. split_and!; [done|done|done|congruence| | |].
    + etransitivity; [done|]. rewrite Es1. apply delete_subseteq.
    + intros f q f' q' Eqf Hgone Hkept Eqf'. destruct (decide (f = file)) as [->|Hne].
      { assert (q = p) as -> by congruence. by apply (Hmin f'). }
      assert (f' ≠ file) as Hne'.
      { intros ->. destruct Hkept as [m Em]. pose proof (lookup_weaken _ _ _ _ Em Hsub) as Ec.
        by rewrite Es1, lookup_delete_eq in Ec. }
      apply (Hnew f q f' q'); [by rewrite Eq1, lookup_delete_ne|done|done|by rewrite Eq1, lookup_delete_ne].
    + destruct Hr as [?|[?|?]]; [by auto| |by auto]. destruct e; [by auto|]. destruct ok; [done|]. set_solver.
  - rewrite Hpop, exec_bind_Val. exists self, d, (if e then Err CIo else Ok ()). apply bool_decide_eq_false in Ee.
    split_and!; try done; [lia| |destruct e; auto].
    intros f q f' q' Eqf Hgone _ _. exfalso.
    destruct (proj1 (ok_keys _ (synced_ok _ _ _ Hsync) f)) as [m Em]; [by eexists|]. congruence.
Qed.

(** The directory is read into empty books. *)
Definition entry_sizes (entries : list (Path * Z * Z)) : list (Path * Z) := (λ e, (e.1.1, e.2)) <$> entries.
Fixpoint listed (entries : list (Path * Z * Z)) : Z :=
  match entries with [] => 0 | (_, n) :: entries => n + listed entries end.

Lemma init_dir_ok entries : ∀ self,
  limiter_ok self → Forall (λ e, 0 ≤ e.2) entries →
  in_use self + listed entries ≤ u64_max → NoDup (entry_sizes entries).*1 →
  ∃ self', init_dir entries self = Val self' ∧ limiter_ok self' ∧ size_limit self' = size_limit self ∧
    sizes self' = list_to_map (entry_sizes entries) ∪ sizes self.
Proof.
  induction entries as [|[[file t] n] entries IH]; intros self Hok Hpos Hsum Hnd.
  { eexists. split; [done|]. split_and!; [done|done|]. simpl. by rewrite (left_id_L ∅ (∪)). }
  apply Forall_cons in Hpos as [Hn Hpos]. cbn [listed] in Hsum. simpl in Hn, Hnd. apply NoDup_cons in Hnd as [Hni Hnd].
  assert (0 ≤ listed entries) as Hge.
  { clear -Hpos. induction Hpos as [|[[??]?] l Hx _ IH]; simpl in *; lia. }
  cbn [init_dir].
  destruct (limiter_add_ok file n t self Hok) as (s1 & -> & Hok1 & Es1 & El1 & _); [done|lia|].
  rewrite exec_bind_Val.
  assert (in_use s1 ≤ in_use self + n) as Hu.
  { rewrite (ok_total _ Hok1), (ok_total _ Hok), Es1. destruct (sizes self !! file) as [o|] eqn:Eo.
    - rewrite (total_replace _ _ _ _ Eo). pose proof (ok_sizes _ Hok _ _ Eo). simpl in *. lia.
    - rewrite total_insert by done. lia. }
  destruct (IH s1 Hok1 Hpos) as (s2 & -> & Hok2 & El2 & Es2); [lia|done|].
  eexists. split; [done|]. split_and!; [done|congruence|]. rewrite Es2, Es1.
  change (entry_sizes ((file, t, n) :: entries)) with ((file, n) :: entry_sizes entries). cbn [list_to_map foldr].
  apply map_eq. intros f. rewrite !lookup_union. destruct (decide (f = file)) as [->|Hne].
  - rewrite !lookup_insert_eq. apply not_elem_of_list_to_map_1 in Hni. simpl. by rewrite Hni, (left_id_L None (∪)), (union_Some_l n).
  - by rewrite !lookup_insert_ne by done.
Qed.
End limiter_laws.

(** ** The cache over time *)

(** Besides its operations, the file system may begin to protect other files. *)
Inductive cache_op :=
| CSave (now : Z) (w : write_outcome) (file : FileId) (contents : list Z)
| CRead (now : Z) (file : FileId)
| CRemove (file : FileId)
| CProtect (paths : gset Path).

(** The paths an operation may leave out of the books: of a save that fails
    half way, and those that cannot be removed. *)
Definition astray (location : Path) (o : cache_op) : gset Path :=
  match o with
  | CSave _ (WriteFailed (Some _)) file _ => {[path_in location file]}
  | CProtect paths => paths
  | _ => ∅
  end.
Definition all_astray (location : Path) (l : list cache_op) : gset Path := foldr (λ o acc, astray location o ∪ acc) ∅ l.

Section cache_run.
Context {Q : Type} `{PriorityQueueLaws Q}.

Definition cache_step (o : cache_op) (self : Cache Q) : exec (Cache Q) :=
  match o with
  | CSave now w file contents => '(self, _) ← save_file now w file contents self; Val self
  | CRead now file => Val (cached_file now file self).1
  | CRemove file => '(self, _) ← remove_file file self; Val self
  | CProtect paths => Val (self <| disk ::= (λ d, d <| locked := paths |>) |>)
  end.

Fixpoint cache_run (l : list cache_op) (self : Cache Q) : exec (Cache Q) :=
  match l with
  | [] => Val self
  | o :: l => self ← cache_step o self; cache_run l self
  end.

Record cache_ok (location : Path) (limit : Z) (but : gset Path) (self : Cache Q) (limiter : SizeLimiter Q) : Prop := {
  co_location : audio_location self = Some location;
  co_limiter : size_limiter self = Some limiter;
  co_synced : synced but limiter (disk self);
  co_limit : size_limit limiter = limit;
  co_use : in_use limiter ≤ limit;
}.

Definition fits (limit : Z) (o : cache_op) : Prop :=
  match o with CSave _ _ _ contents => limit + Z.of_nat (length contents) ≤ u64_max | _ => True end.

Lemma save_file_ok location limit but now file contents self limiter :
  cache_ok location limit but self limiter → limit + Z.of_nat (length contents) ≤ u64_max →
  ∃ self' r limiter', save_file now Written file contents self = Val (self', r) ∧ cache_ok location limit but self' limiter'.
Proof.
  intros [Hloc El Hsync Hlim Hle] Hmax. unfold save_file, file_path. rewrite Hloc. cbn [fmap option_fmap option_map].
  set (path := path_in location file).
  cbv beta iota zeta. change (size_limiter (self <| disk ::= _ |>)) with (size_limiter self). rewrite El.
  destruct Hsync as [Hok Hl0 Hf Hlk].
  destruct (limiter_add_ok path (Z.of_nat (length contents)) now limiter Hok) as (l1 & -> & Hok1 & Es1 & El1 & _); [lia|lia|].
  rewrite exec_bind_Val.
  destruct (prune_loop_spec but (S (size (sizes l1))) false l1 (disk (self <| disk ::= (λ d, d <| files ::= <[path := contents]> |>) |>)))
    as (l2 & d2 & r & Ep & Hsync2 & Hle2 & El2 & _); [|lia|].
  { split; [done|lia| |done]. intros f Hn. rewrite Es1. unfold disk_sizes. simpl. rewrite fmap_insert.
    destruct (decide (f = path)) as [->|]; [by rewrite !lookup_insert_eq|]. rewrite !lookup_insert_ne by done. by apply Hf. }
  unfold prune. rewrite Ep, exec_bind_Val. eexists _, _, l2. split; [done|]. split; [done|done|done|congruence|lia].
Qed.

(** A half-written file is on disk only. *)
Lemma partial_ok location limit but file part self limiter :
  cache_ok location limit but self limiter →
  cache_ok location limit ({[path_in location file]} ∪ but)
    (self <| disk ::= (λ d, d <| files ::= <[path_in location file := part]> |>) |>) limiter.
Proof.
  intros [Hloc El [Hok Hl0 Hf Hlk] Hlim Hle]. split; [done|done| |done|done]. split; [done|done| |set_solver].
  intros f Hn. unfold disk_sizes. simpl. rewrite fmap_insert, lookup_insert_ne by set_solver. apply Hf. set_solver.
Qed.

Lemma remove_file_ok location limit but file self limiter :
  cache_ok location limit but self limiter →
  ∃ self' r limiter', remove_file file self = Val (self', r) ∧ cache_ok location limit but self' limiter'.
Proof.
  intros Hco. pose proof Hco as [Hloc El [Hok Hl0 Hf Hlk] Hlim Hle]. unfold remove_file, file_path. rewrite Hloc.
  cbn [fmap option_fmap option_map]. set (path := path_in location file). unfold fs_remove. case_decide as Hd; cycle 1.
  { eexists _, _, limiter. split; [done|]. by destruct self. }
  cbv beta iota zeta. change (size_limiter (self <| disk := _ |>)) with (size_limiter self). rewrite El.
  destruct (limiter_remove_ok path limiter Hok) as (l1 & -> & Hok1 & Es1 & El1). rewrite !exec_bind_Val.
  eexists _, _, l1. split; [done|]. split; [done|done| |congruence|].
  - split; [done|lia| |done]. intros f Hn. rewrite Es1. unfold disk_sizes. simpl. rewrite fmap_delete.
    destruct (decide (f = path)) as [->|]; [by rewrite !lookup_delete_eq|]. rewrite !lookup_delete_ne by done. by apply Hf.
  - rewrite (ok_total _ Hok1), Es1. rewrite (ok_total _ Hok) in Hle. destruct (sizes limiter !! path) as [n|] eqn:En.
    + pose proof (total_delete _ _ _ En). pose proof (ok_sizes _ Hok _ _ En). simpl in *. lia.
    + by rewrite delete_id.
Qed.

Lemma cache_step_ok location limit but o self limiter :
  cache_ok location limit but self limiter → fits limit o →
  ∃ self' limiter', cache_step o self = Val self' ∧ cache_ok location limit (astray location o ∪ but) self' limiter'.
Proof.
  intros Hco Hfit. pose proof Hco as [Hloc El Hsync Hlim Hle].
  assert (∀ s lim, cache_ok location limit but s lim → cache_ok location limit (∅ ∪ but) s lim) as Hsame
    by (intros s lim; by rewrite (left_id_L ∅ (∪))).
  destruct o as [now w file contents|now file|file|paths]; cbn [cache_step astray].
  - destruct w as [|[part|]].
    + destruct (save_file_ok location limit but now file contents self limiter Hco Hfit) as (s' & r & lim' & -> & Hok').
      eexists _, lim'. split; [done|]. by apply Hsame.
    + unfold save_file, file_path. rewrite Hloc. eexists _, limiter. split; [done|]. by apply partial_ok.
    + unfold save_file, file_path. rewrite Hloc. eexists _, limiter. split; [done|]. by apply Hsame.
  - unfold cached_file, file_path. rewrite Hloc. cbn [fmap option_fmap option_map].
    destruct (files (disk self) !! path_in location file); [|eexists _, limiter; split; [done|by apply Hsame]].
    rewrite El. destruct (limiter_update_ok (path_in location file) now limiter (synced_ok _ _ _ Hsync)) as (Hok' & Es & El' & _).
    eexists _, _. split; [done|]. apply Hsame. destruct Hsync as [Hlok Hl0 Hf Hlk].
    split; [done|done| |simpl; congruence|].
    + split; [done|simpl; lia| |done]. intros f Hn. simpl. rewrite Es. by apply Hf.
    + simpl. rewrite (ok_total _ Hok'), Es, <- (ok_total limiter); done.
  - destruct (remove_file_ok location limit but file self limiter Hco) as (s' & r & lim' & -> & Hok').
    eexists _, lim'. split; [done|]. by apply Hsame.
  - eexists _, limiter. split; [done|]. destruct Hsync as [Hok Hl0 Hf Hlk]. split; [done|done| |done|done].
    split; [done|done| |simpl; set_solver]. intros f Hn. apply Hf. set_solver.
Qed.

Lemma cache_run_ok location limit l : ∀ but self limiter,
  cache_ok location limit but self limiter → Forall (fits limit) l →
  ∃ self' limiter', cache_run l self = Val self' ∧ cache_ok location limit (all_astray location l ∪ but) self' limiter'.
Proof.
  induction l as [|o l IH]; intros but self limiter Hok Hfit; cbn [cache_run all_astray foldr].
  { exists self, limiter. by rewrite (left_id_L ∅ (∪)). }
  apply Forall_cons in Hfit as [Hfo Hfit].
  destruct (cache_step_ok location limit but o self limiter Hok Hfo) as (s1 & lim1 & -> & Hok1). rewrite exec_bind_Val.
  destruct (IH _ _ _ Hok1 Hfit) as (s2 & lim2 & -> & Hok2). exists s2, lim2. split; [done|].
  by replace (astray location o ∪ foldr (λ o acc, astray location o ∪ acc) ∅ l ∪ but)
    with (all_astray location l ∪ (astray location o ∪ but)) by (unfold all_astray; set_solver).
Qed.

(** The directory listing is that of the disk. *)
Definition lists (entries : list (Path * Z * Z)) (d : Disk) : Prop :=
  NoDup (entry_sizes entries).*1 ∧ list_to_map (entry_sizes entries) = disk_sizes d ∧
  listed entries ≤ u64_max.

Lemma fs_limiter_new_ok entries limit d :
  0 ≤ limit → lists entries d →
  ∃ limiter d' r, fs_limiter_new entries limit d = Val (limiter, d', r) ∧ synced (Q:=Q) (locked d) limiter d' ∧
    size_limit limiter = limit ∧ in_use limiter ≤ limit ∧ (r = Ok () ∨ locked d ≠ ∅).
Proof.
  intros Hl (Hnd & Hm & Hsum). unfold fs_limiter_new.
  destruct (init_dir_ok entries (limiter_new limit) (limiter_new_ok limit)) as (s1 & -> & Hok1 & El1 & Es1); [|done|done|].
  { apply Forall_forall. intros [[f t] n] Hin. apply (list_elem_of_fmap_2 (λ e, (e.1.1, e.2))) in Hin. assert (disk_sizes d !! f = Some n) as E by (rewrite <- Hm; by apply elem_of_list_to_map).
    unfold disk_sizes in E. rewrite lookup_fmap_Some in E. destruct E as (c & <- & _). simpl. lia. }
  rewrite exec_bind_Val.
  destruct (prune_loop_spec (locked d) (S (size (sizes s1))) false s1 d) as (s2 & d2 & r & Ep & Hsync & Hle & El2 & _ & _ & Hr); [|lia|].
  { split; [done|by rewrite El1| |done]. intros f _. rewrite Es1, Hm. simpl. by rewrite (right_id_L ∅ (∪)). }
  unfold prune. exists s2, d2, r. rewrite Ep. split; [done|]. rewrite El2, El1 in Hle. simpl in Hle.
  split_and!; [done|by rewrite El2, El1|done|]. destruct Hr as [?|[?|?]]; [by left|done|by right].
Qed.
End cache_run.

Lemma total_subseteq m1 m2 : m1 ⊆ m2 → sizes_ok m2 → total m1 ≤ total m2.
Proof.
  revert m2. induction m1 as [|f n m1 Hf IH] using map_ind; intros m2 Hsub Hok.
  { rewrite total_empty. by apply total_nonneg. }
  assert (m2 !! f = Some n) as E by (apply (lookup_weaken _ _ _ _ (lookup_insert_eq m1 f n) Hsub)).
  rewrite total_insert, (total_delete m2 f n E) by done.
  assert (total m1 ≤ total (delete f m2)); [|lia]. apply IH; [|by apply map_Forall_delete].
  rewrite <- (delete_insert_id m1 f n Hf). by apply delete_mono.
Qed.

(** The bytes on disk, but for the files at some paths. *)
Definition disk_usage_but {Q : Type} (but : gset Path) (self : Cache Q) : Z :=
  total (filter (λ e, e.1 ∉ but) (disk_sizes (disk self))).

(** C9: the cache stays within its limit.  It is set up over a directory with
    any files in it: this does not panic, and fails only where a file cannot be
    removed.  After any sequence of saves, reads and removals from then on, in
    which saves may fail, at once or half way, and the file system may protect
    any files from being removed, nothing has panicked and the files in the
    books are together at most as large as the limit.  On every path but those
    of the saves that failed half way and of the protected files the books have
    what is on disk, with its size; so the files on disk, but for these, are
    within the limit too. *)
Theorem cache_within_limit {Q} `{PriorityQueueLaws Q} location limit entries d l :
  0 ≤ limit → lists entries d → Forall (fits limit) l →
  ∃ limiter0 d0 r, fs_limiter_new (Q:=Q) entries limit d = Val (limiter0, d0, r) ∧
    (r = Ok () ∨ locked d ≠ ∅) ∧
    ∃ self limiter, cache_run l (mkCache (Some location) (Some limiter0) d0) = Val self ∧
      size_limiter self = Some limiter ∧ in_use limiter = total (sizes limiter) ∧ in_use limiter ≤ limit ∧
      let but := locked d ∪ all_astray location l in
      (∀ f, f ∉ but → sizes limiter !! f = disk_sizes (disk self) !! f) ∧ disk_usage_but but self ≤ limit.
Proof.
  intros Hl Hd Hfit. destruct (fs_limiter_new_ok (Q:=Q) entries limit d Hl Hd) as (lim0 & d0 & r & -> & Hsync & El & Hle & Hr).
  exists lim0, d0, r. split_and!; [done|done|].
  destruct (cache_run_ok location limit l (locked d) (mkCache (Some location) (Some lim0) d0) lim0) as (self & lim & E & Hco);
    [by split|done|].
  destruct Hco as [_ Elim [Hok _ Hf _] _ Hu]. exists self, lim. rewrite (union_comm_L (all_astray location l)) in Hf.
  split_and!; [done|done|apply Hok|done|]. intros but. split; [done|]. etransitivity; [|exact Hu].
  rewrite (ok_total _ Hok). apply total_subseteq; [|apply Hok]. apply map_subseteq_spec. intros f n [En Hn]%map_lookup_filter_Some.
  by rewrite Hf.
Qed.

(** The oldest files go first.  Pruning ends with the limit kept, and
    every file it took off the books was accessed no later than every file it
    left; where no file is protected it succeeds. *)
Lemma prune_least_recent {Q} `{PriorityQueueLaws Q} but (self : SizeLimiter Q) d :
  synced but self d →
  ∃ self' d' r, prune self d = Val (self', d', r) ∧ in_use self' ≤ size_limit self' ∧ sizes self' ⊆ sizes self ∧
    kept_newest self self' ∧ (but = ∅ → r = Ok ()) ∧ (in_use self ≤ size_limit self → self' = self ∧ d' = d).
Proof.
  intros Hsync. destruct (prune_loop_spec but (S (size (sizes self))) false self d Hsync)
    as (s' & d' & r & E & _ & Hle & _ & Hsub & Hnew & Hr); [lia|]. exists s', d', r. split_and!; [done..|by destruct Hr as [?|[?|?]]|].
  intros Hu. cbn [prune_loop] in E.
  pose proof (limiter_pop_ok self (synced_ok _ _ _ Hsync) (synced_limit _ _ _ Hsync)) as Hpop.
  assert (exceeds_limit self = false) as Ee by (apply bool_decide_eq_false; lia). rewrite Ee in Hpop.
  rewrite Hpop, exec_bind_Val in E. by simplify_eq.
Qed.

(** *** A queue as a map of times *)

Definition oldest (m : gmap Path Reverse) : option (Path * Reverse) :=
  map_fold (λ f p acc, match acc with
                       | None => Some (f, p)
                       | Some (g, q) => if decide (time p < time q) then Some (f, p) else acc
                       end) None m.

#[export] Instance map_queue : PriorityQueue (gmap Path Reverse) := {|
  pq_new := ∅;
  pq_push f p q := <[f := p]> q;
  pq_pop q := match oldest q with Some (f, p) => (Some (f, p), delete f q) | None => (None, q) end;
  pq_change_priority f p q := (q !! f, alter (λ _, p) f q);
  pq_remove f q := (q !! f, delete f q);
|}.

Lemma oldest_spec m :
  match oldest m with
  | None => m = ∅
  | Some (f, p) => m !! f = Some p ∧ ∀ f' p', m !! f' = Some p' → time p ≤ time p'
  end.
Proof.
  unfold oldest. apply (map_fold_weak_ind (λ o m, match o with
    | None => m = ∅
    | Some (f, p) => m !! f = Some p ∧ ∀ f' p', m !! f' = Some p' → time p ≤ time p' end)); [done|].
  intros f p m' o Hf IH. destruct o as [[g q]|].
  - destruct IH as [Eg Hmin]. case_decide as Ht; (split; [by rewrite ?lookup_insert_eq, ?lookup_insert_ne by congruence|]);
      intros f' p' [[<- <-]|[_ E]]%lookup_insert_Some; try (apply Hmin in E); lia.
  - subst m'. split; [by rewrite lookup_insert_eq|]. intros f' p' [[<- <-]|[_ E]]%lookup_insert_Some; [lia|done].
Qed.

#[export] Program Instance map_queue_laws : PriorityQueueLaws (gmap Path Reverse) := {| items q := q |}.
Next Obligation. done. Qed.
Next Obligation. done. Qed.
Next Obligation.
  intros q. simpl. pose proof (oldest_spec q) as Ho. destruct (oldest q) as [[f p]|]; [|done].
  destruct Ho as [Hf Hmin]. split_and!; [done|done|]. intros f' p' E. by apply (Hmin f').
Qed.
Next Obligation. done. Qed.
Next Obligation. done. Qed.

(** A file already there, a save that fails half way, and a file that cannot be
    removed when its turn comes. *)
Definition small_disk : Disk := mkDisk {[ path_in [] (mkFileId (replicate 20 9)) := [7] ]} ∅.
Definition small_files : list cache_op :=
  [CSave 1 Written (mkFileId (replicate 20 1)) [0; 0; 0]; CSave 2 Written (mkFileId (replicate 20 2)) [0; 0; 0];
   CRead 3 (mkFileId (replicate 20 1)); CSave 4 (WriteFailed (Some [0])) (mkFileId (replicate 20 4)) [0; 0];
   CProtect {[ path_in [] (mkFileId (replicate 20 2)) ]}; CSave 5 Written (mkFileId (replicate 20 3)) [0; 0]].

Lemma one_file_listed path t contents :
  Z.of_nat (length contents) ≤ u64_max → lists [(path, t, Z.of_nat (length contents))] (mkDisk {[ path := contents ]} ∅).
Proof.
  intros Hn. split_and!; [apply NoDup_singleton| |unfold listed; lia].
  unfold disk_sizes. simpl. by rewrite map_fmap_singleton.
Qed.

Lemma cache_within_limit_witness :
  ∃ limiter0 d0 r,
    fs_limiter_new (Q:=gmap Path Reverse) [(path_in [] (mkFileId (replicate 20 9)), 0, 1)] 6 small_disk = Val (limiter0, d0, r) ∧
    (r = Ok () ∨ locked small_disk ≠ ∅) ∧
    ∃ self limiter, cache_run small_files (mkCache (Some []) (Some limiter0) d0) = Val self ∧
      size_limiter self = Some limiter ∧ in_use limiter = total (sizes limiter) ∧ in_use limiter ≤ 6 ∧
      let but := locked small_disk ∪ all_astray [] small_files in
      (∀ f, f ∉ but → sizes limiter !! f = disk_sizes (disk self) !! f) ∧ disk_usage_but but self ≤ 6.
Proof.
  apply (cache_within_limit [] 6 _ small_disk small_files); [lia|by apply (one_file_listed _ 0 [7])|].
  repeat constructor; vm_compute; congruence.
Defined.

(** *** Corner cases *)

(** A save that fails half way leaves a file that is served afterwards, and
    that the limiter does not know of. *)
Lemma partial_file_served :
  let f := mkFileId (replicate 20 1) in
  (self ← cache_run (Q:=gmap Path Reverse) [CSave 1 (WriteFailed (Some [1])) f [1; 2; 3]]
     (mkCache (Some []) (Some (limiter_new 100)) (mkDisk ∅ ∅));
   Val ((cached_file 2 f self).2, (λ l, map_to_list (sizes l)) <$> size_limiter self)) = Val (Some [1], Some []).
Proof. vm_compute. reflexivity. Qed.
