(* ===== verification/Float64.v ===== *)
(** * Double-precision floats

    [f64] arithmetic as IEEE 754 has it (round to nearest, ties to even), on
    the executable floats of the Standard Library, with the casts and the
    reading of the bits of a float.  The transcendental functions, whose
    results Rust leaves to the platform, are a class. *)

From S2P Require Import Prelude StdTypes.
From Stdlib Require Import SpecFloat.

Local Open Scope Z_scope.

Definition f64 : Type := spec_float.

Module F64.
Definition of_Z (z : Z) : f64 := binary_normalize 53 1024 z 0 false.
Definition add : f64 → f64 → f64 := SFadd 53 1024.
Definition sub : f64 → f64 → f64 := SFsub 53 1024.
Definition mul : f64 → f64 → f64 := SFmul 53 1024.
Definition div : f64 → f64 → f64 := SFdiv 53 1024.
Definition opp : f64 → f64 := SFopp.
Definition abs : f64 → f64 := SFabs.
Definition ltb : f64 → f64 → bool := SFltb.
Definition leb : f64 → f64 → bool := SFleb.
Definition gtb (x y : f64) : bool := ltb y x.

(** [f64::max] and [f64::min] ignore a NaN when the other one is not. *)
Definition is_nan (x : f64) : bool := match x with S754_nan => true | _ => false end.
Definition max (x y : f64) : f64 :=
  if is_nan x then y else if is_nan y then x else if ltb x y then y else x.
Definition min (x y : f64) : f64 :=
  if is_nan x then y else if is_nan y then x else if ltb y x then y else x.

Definition zero : f64 := of_Z 0.
Definition one : f64 := of_Z 1.
Definition two : f64 := of_Z 2.
Definition half : f64 := div one two.
(** [f64::MIN_POSITIVE], the smallest normal number, and [f64::EPSILON]. *)
Definition MIN_POSITIVE : f64 := S754_finite false 4503599627370496 (-1074).
Definition EPSILON : f64 := S754_finite false 4503599627370496 (-104).

(** The value rounded towards zero, and the cast to an integer type with
    bounds [lo] and [hi]: saturating, 0 for a NaN. *)
Definition trunc (f : f64) : option Z :=
  match f with
  | S754_zero _ => Some 0
  | S754_finite s m e =>
      let v := if decide (0 ≤ e) then Z.pos m * 2 ^ e else Z.pos m / 2 ^ (- e) in
      Some (if s then - v else v)
  | _ => None
  end.
Definition to_int (lo hi : Z) (f : f64) : Z :=
  match f with
  | S754_infinity s => if s then lo else hi
  | S754_nan => 0
  | _ => Z.max lo (Z.min hi (default 0 (trunc f)))
  end.

(** [f64::round], halves away from zero. *)
Definition round (f : f64) : f64 :=
  match f with
  | S754_finite s m e =>
      if decide (0 ≤ e) then f
      else let r := (2 * Z.pos m + 2 ^ (- e)) / 2 ^ (1 - e) in
           binary_normalize 53 1024 (if s then - r else r) 0 s
  | f => f
  end.

(** [f64::clamp], for bounds that are in order. *)
Definition clamp (lo hi f : f64) : f64 := if ltb f lo then lo else if gtb f hi then hi else f.

(** The conversion to a single. *)
Definition to_f32 (f : f64) : f32 :=
  match f with
  | S754_finite s m e => binary_normalize 24 128 (if s then Z.neg m else Z.pos m) e s
  | f => f
  end.

(** The exact conversion of a single. *)
Definition of_f32 (f : f32) : f64 :=
  match f with
  | S754_finite s m e => binary_normalize 53 1024 (if s then Z.neg m else Z.pos m) e s
  | f => f
  end.
End F64.

(** [f32::from_bits]: sign, eight bits of exponent, 23 bits of fraction. *)
Definition f32_of_bits (bits : Z) : f32 :=
  let s := Z.testbit bits 31 in
  let e := Z.land (Z.shiftr bits 23) 255 in
  let m := Z.land bits 8388607 in
  if decide (e = 255) then if decide (m = 0) then S754_infinity s else S754_nan
  else if decide (e = 0) then
    match m with Z.pos p => S754_finite s p (-149) | _ => S754_zero s end
  else match m + 8388608 with Z.pos p => S754_finite s p (e - 150) | _ => S754_nan end.

(** [to_bits], of floats in their canonical form. *)
Definition sign_bit (w : Z) (s : bool) : Z := if s then 2 ^ (w - 1) else 0.
Definition bits_of (w mbits bias : Z) (f : spec_float) : Z :=
  match f with
  | S754_zero s => sign_bit w s
  | S754_infinity s => sign_bit w s + (2 ^ (w - 1 - mbits) - 1) * 2 ^ mbits
  | S754_nan => (2 ^ (w - 1 - mbits) - 1) * 2 ^ mbits + 2 ^ (mbits - 1)
  | S754_finite s m e =>
      sign_bit w s + (if decide (Z.pos m < 2 ^ mbits) then Z.pos m else (e + bias) * 2 ^ mbits + (Z.pos m - 2 ^ mbits))
  end.
Definition f64_to_bits : f64 → Z := bits_of 64 52 1075.
Definition f32_to_bits : f32 → Z := bits_of 32 23 150.

(** What Rust takes from the mathematical library of the platform. *)
Class Libm := {
  powf : f64 → f64 → f64;
  powi : f64 → Z → f64;
  log10 : f64 → f64;
  exp : f64 → f64;
  ln : f64 → f64;
}.

Lemma to_int_bounds lo hi f : lo ≤ 0 ≤ hi → lo ≤ F64.to_int lo hi f ≤ hi.
Proof. intros. destruct f as [[]|[]| |[] m e]; simpl; lia. Qed.

Lemma f64_examples :
  F64.add (F64.of_Z 1) F64.EPSILON ≠ F64.one ∧
  F64.add (F64.of_Z 1) (F64.mul F64.EPSILON F64.half) = F64.one ∧
  F64.of_f32 (f32_of_bits 1069547520) = F64.div (F64.of_Z 3) F64.two ∧
  f64_to_bits F64.one = 4607182418800017408 ∧ f64_to_bits F64.MIN_POSITIVE = 4503599627370496 ∧
  f32_of_bits (f32_to_bits (F64.to_f32 F64.half)) = f32_div (f32_of_Z 1) (f32_of_Z 2) ∧
  F64.round (F64.div (F64.of_Z (-5)) F64.two) = F64.of_Z (-3) ∧
  F64.to_int 0 65535 (F64.mul (F64.div (F64.of_Z 49151) (F64.of_Z 65535)) (F64.of_Z 65535)) = 49151.
Proof. by vm_compute. Qed.
