(* ===== verification/Metadata.v ===== *)
(** * Audio items: [metadata/src/audio], [restriction.rs] and [availability.rs]

    What is known about a track or episode before it is played: its files, and
    whether the account may play it. *)

From S2P Require Import Prelude StdTypes Digits Text SpotifyId SpotifyUri Session.

Local Open Scope Z_scope.

(** ** File formats *)

Inductive AudioFileFormat :=
| OGG_VORBIS_96 | OGG_VORBIS_160 | OGG_VORBIS_320 | MP3_256 | MP3_320 | MP3_160 | MP3_96 | MP3_160_ENC
| AAC_24 | AAC_48 | FLAC_FLAC | XHE_AAC_24 | XHE_AAC_16 | XHE_AAC_12 | FLAC_FLAC_24BIT
| AAC_160 | AAC_320 | MP4_128 | OTHER5.

#[export] Instance AudioFileFormat_eq_dec : EqDecision AudioFileFormat.
Proof. solve_decision. Defined.

(** The values of [AudioFile.Format] in [metadata.proto], as the formats they
    are converted to. *)
Definition Format_from_i32 (value : Z) : option AudioFileFormat :=
  match value with
  | 0 => Some OGG_VORBIS_96 | 1 => Some OGG_VORBIS_160 | 2 => Some OGG_VORBIS_320
  | 3 => Some MP3_256 | 4 => Some MP3_320 | 5 => Some MP3_160 | 6 => Some MP3_96 | 7 => Some MP3_160_ENC
  | 8 => Some AAC_24 | 9 => Some AAC_48 | 16 => Some FLAC_FLAC
  | 18 => Some XHE_AAC_24 | 19 => Some XHE_AAC_16 | 20 => Some XHE_AAC_12 | 22 => Some FLAC_FLAC_24BIT
  | _ => None
  end.

Definition AudioFileFormat_try_from (value : Z) : result AudioFileFormat Z :=
  match value with
  | 10 => Ok AAC_160
  | 11 => Ok AAC_320
  | 12 => Ok MP4_128
  | 13 => Ok OTHER5
  | _ => ok_or (Format_from_i32 value) value
  end.

Definition AudioFileFormat_number (format : AudioFileFormat) : Z :=
  match format with
  | OGG_VORBIS_96 => 0 | OGG_VORBIS_160 => 1 | OGG_VORBIS_320 => 2 | MP3_256 => 3 | MP3_320 => 4
  | MP3_160 => 5 | MP3_96 => 6 | MP3_160_ENC => 7 | AAC_24 => 8 | AAC_48 => 9
  | AAC_160 => 10 | AAC_320 => 11 | MP4_128 => 12 | OTHER5 => 13
  | FLAC_FLAC => 16 | XHE_AAC_24 => 18 | XHE_AAC_16 => 19 | XHE_AAC_12 => 20 | FLAC_FLAC_24BIT => 22
  end.

Lemma AudioFileFormat_number_spec value format :
  AudioFileFormat_try_from value = Ok format ↔ AudioFileFormat_number format = value.
Proof.
  split; [|by intros <-; destruct format].
  unfold AudioFileFormat_try_from, ok_or, Format_from_i32. intros H. by repeat case_match; simplify_eq.
Qed.

#[export] Instance AudioFileFormat_countable : Countable AudioFileFormat.
Proof.
  refine (inj_countable AudioFileFormat_number (λ n, result_ok (AudioFileFormat_try_from n)) _).
  by intros [].
Defined.

Abbreviation AudioFiles := (gmap AudioFileFormat FileId).

Definition is_ogg_vorbis (format : AudioFileFormat) : bool :=
  match format with OGG_VORBIS_320 | OGG_VORBIS_160 | OGG_VORBIS_96 => true | _ => false end.
Definition is_mp3 (format : AudioFileFormat) : bool :=
  match format with MP3_320 | MP3_256 | MP3_160 | MP3_96 | MP3_160_ENC => true | _ => false end.
Definition is_flac (format : AudioFileFormat) : bool :=
  match format with FLAC_FLAC => true | _ => false end.

Definition mime_type (format : AudioFileFormat) : option string :=
  if is_ogg_vorbis format then Some "audio/ogg"%string
  else if is_mp3 format then Some "audio/mpeg"%string
  else if is_flac format then Some "audio/flac"%string
  else None.

(** The files of a message: the identifier, by default empty, and the number of
    the format. *)
Record AudioFileMessage := mkAudioFileMessage { afm_file_id : option (list Z); afm_format : option Z }.

Definition file_entry (file : AudioFileMessage) : option (AudioFileFormat * FileId) :=
  let file_id := FileId_from_raw (default [] (afm_file_id file)) in
  format ← afm_format file; f ← Format_from_i32 format; Some (f, file_id).

(** Collecting into the map inserts the entries in order. *)
Definition AudioFiles_from (files : list AudioFileMessage) : AudioFiles :=
  foldl (λ m e, <[e.1 := e.2]> m) ∅ (omap file_entry files).

(** ** Restrictions and availability *)

(** [StrChunks]: the slice [data[..size]] panics when less is left. *)
Fixpoint str_chunks (fuel size : nat) (data : string) : exec (list string) :=
  match data, fuel with
  | EmptyString, _ => Val []
  | _, O => Panic
  | _, S fuel =>
      ret ← slice 0 size data;
      rest ← slice size (String.length data) data;
      tl ← str_chunks fuel size rest;
      Val (ret :: tl)
  end.
Definition parse_country_codes (country_codes : string) : exec (list string) :=
  str_chunks (String.length country_codes) 2 country_codes.

Record Restriction := mkRestriction {
  catalogues : list Z;
  restriction_type : Z;
  catalogue_strs : list string;
  countries_allowed : option (list string);
  countries_forbidden : option (list string);
}.

(** The message, with the numbers of the known enumeration values. *)
Record RestrictionMessage := mkRestrictionMessage {
  rm_catalogue : list Z;
  rm_type : option Z;
  rm_catalogue_str : list string;
  rm_countries_allowed : option string;
  rm_countries_forbidden : option string;
}.

Definition optional_codes (codes : option string) : exec (option (list string)) :=
  match codes with Some codes => l ← parse_country_codes codes; Val (Some l) | None => Val None end.

(** [enum_value_or_default]: the catalogues are 0 to 4, the only type is 0. *)
Definition known_or_default (n v : Z) : Z := if decide (0 ≤ v ≤ n) then v else 0.

Definition Restriction_from (restriction : RestrictionMessage) : exec Restriction :=
  countries_allowed ← optional_codes (rm_countries_allowed restriction);
  countries_forbidden ← optional_codes (rm_countries_forbidden restriction);
  Val (mkRestriction (known_or_default 4 <$> rm_catalogue restriction)
         (known_or_default 0 (default 0 (rm_type restriction)))
         (rm_catalogue_str restriction) countries_allowed countries_forbidden).

(** Times are nanoseconds since the epoch. *)
Abbreviation Date := Z.

Record Availability := mkAvailability { av_catalogue_strs : list string; av_start : Date }.

Inductive UnavailabilityReason := Blacklisted | Embargo | NoData | NotWhitelisted.
#[export] Instance UnavailabilityReason_eq_dec : EqDecision UnavailabilityReason.
Proof. solve_decision. Defined.

Abbreviation AudioItemAvailability := (result () UnavailabilityReason).

(** The loop over the restrictions of the user's catalogue returns at the first
    that has a list of countries. *)
Fixpoint allowed_loop (country : string) (restrictions : list Restriction) : AudioItemAvailability :=
  match restrictions with
  | [] => Ok ()
  | premium_restriction :: restrictions =>
      match countries_allowed premium_restriction, countries_forbidden premium_restriction with
      | Some allowed_countries, _ =>
          if bool_decide (country ∈ allowed_countries) then Ok () else Err NotWhitelisted
      | None, Some forbidden_countries =>
          if bool_decide (country ∈ forbidden_countries) then Err Blacklisted else Ok ()
      | None, None => allowed_loop country restrictions
      end
  end.
Definition allowed_for_user (user_data : UserData) (restrictions : list Restriction) : AudioItemAvailability :=
  let user_catalogue := default "premium"%string (attributes user_data !! "catalogue"%string) in
  allowed_loop (country user_data) (filter (λ r, user_catalogue ∈ catalogue_strs r) restrictions).

Definition available (now : Date) (availability : list Availability) : AudioItemAvailability :=
  match availability with
  | [] => Ok ()
  | _ => if existsb (λ a, bool_decide (av_start a ≤ now)) availability then Ok () else Err Embargo
  end.

Definition available_for_user (now : Date) (user_data : UserData) (availability : list Availability)
    (restrictions : list Restriction) : AudioItemAvailability :=
  match available now availability with
  | Err e => Err e
  | Ok _ => allowed_for_user user_data restrictions
  end.

(** ** Audio items *)

Record Image := mkImage { image_id : FileId; image_size : Z; image_width : Z; image_height : Z }.
Record CoverImage := mkCoverImage { url : string; cover_size : Z; cover_width : Z; cover_height : Z }.

(** [sort_by_key] is stable; [Reverse] puts the widest first. *)
Definition wider (a b : Image) : Prop := image_width b ≤ image_width a.
#[export] Instance wider_dec a b : Decision (wider a b).
Proof. unfold wider. apply _. Defined.

Definition get_covers (covers : list Image) (image_url : string) : list CoverImage :=
  omap (λ cover,
    let cover_id := FileId_to_base16 (image_id cover) in
    if decide (cover_id = EmptyString) then None
    else Some (mkCoverImage (replace "{file_id}" cover_id image_url)
                 (image_size cover) (image_width cover) (image_height cover)))
    (merge_sort wider covers).

Inductive UniqueFields :=
| UTrack (artists : list (SpotifyUri * string * Z)) (album : string) (album_artists : list string)
    (popularity number disc_number : Z)
| ULocal (artists album album_artists : option string) (number disc_number : option Z) (path : string)
| UEpisode (description : string) (publish_time : Date) (show_name : string).

Record AudioItem := mkAudioItem {
  ai_track_id : SpotifyUri;
  ai_uri : string;
  ai_files : AudioFiles;
  ai_name : string;
  ai_covers : list CoverImage;
  ai_language : list string;
  ai_duration_ms : Z;
  ai_is_explicit : bool;
  ai_availability : AudioItemAvailability;
  ai_alternatives : option (list SpotifyUri);
  ai_unique_fields : UniqueFields;
}.

(** The fields of [Track], its album, and [Episode] that an audio item is made
    from. *)
Record TrackMeta := mkTrackMeta {
  t_name : string;
  t_album_name : string;
  t_album_artists : list string;
  t_album_covers : list Image;
  t_number : Z; t_disc_number : Z; t_duration : Z; t_popularity : Z;
  t_is_explicit : bool;
  t_restrictions : list Restriction;
  t_files : AudioFiles;
  t_alternatives : list SpotifyUri;
  t_earliest_live_timestamp : Date;
  t_availability : list Availability;
  t_language_of_performance : list string;
  t_artists_with_role : list (SpotifyUri * string * Z);
}.

Record EpisodeMeta := mkEpisodeMeta {
  e_name : string; e_duration : Z; e_audio : AudioFiles; e_description : string;
  e_publish_time : Date; e_covers : list Image; e_language : string; e_is_explicit : bool;
  e_show_name : string; e_restrictions : list Restriction; e_availability : list Availability;
}.

Inductive MetadataError := MEmpty | MNonPlayable | MInvalidDuration (d : Z) | MExplicitContentFiltered | MRequest.

Definition clamp (lo hi v : Z) : Z := Z.max lo (Z.min hi v).

(** [popularity.clamp(0, 100) as u8], [number.max(0) as u32]; a positive [i32]
    duration is itself as [u32]. *)
Definition track_item (now : Date) (session : Session) (image_url : string) (uri : SpotifyUri) (track : TrackMeta)
    : exec (result AudioItem MetadataError) :=
  if decide (t_duration track ≤ 0) then Val (Err (MInvalidDuration (t_duration track)))
  else if t_is_explicit track && filter_explicit_content session then Val (Err MExplicitContentFiltered)
  else
    uri_string ← to_uri uri;
    let availability :=
      if decide (now < t_earliest_live_timestamp track) then Err Embargo
      else available_for_user now (user_data (data session)) (t_availability track) (t_restrictions track) in
    Val (Ok (mkAudioItem uri uri_string (t_files track) (t_name track)
      (get_covers (t_album_covers track) image_url) (t_language_of_performance track)
      (wrapu 32 (t_duration track)) (t_is_explicit track) availability
      (match t_alternatives track with [] => None | l => Some l end)
      (UTrack (t_artists_with_role track) (t_album_name track) (t_album_artists track)
        (wrapu 8 (clamp 0 100 (t_popularity track))) (wrapu 32 (Z.max 0 (t_number track)))
        (wrapu 32 (Z.max 0 (t_disc_number track)))))).

Definition episode_item (now : Date) (session : Session) (image_url : string) (uri : SpotifyUri) (episode : EpisodeMeta)
    : exec (result AudioItem MetadataError) :=
  if decide (e_duration episode ≤ 0) then Val (Err (MInvalidDuration (e_duration episode)))
  else if e_is_explicit episode && filter_explicit_content session then Val (Err MExplicitContentFiltered)
  else
    uri_string ← to_uri uri;
    Val (Ok (mkAudioItem uri uri_string (e_audio episode) (e_name episode)
      (get_covers (e_covers episode) image_url) [e_language episode]
      (wrapu 32 (e_duration episode)) (e_is_explicit episode)
      (available_for_user now (user_data (data session)) (e_availability episode) (e_restrictions episode))
      None (UEpisode (e_description episode) (e_publish_time episode) (e_show_name episode)))).

(** [track_get] and [episode_get] are the requests to the service, which fail or
    return the parsed message. *)
Definition get_file (track_get : SpotifyUri → result TrackMeta MetadataError)
    (episode_get : SpotifyUri → result EpisodeMeta MetadataError)
    (now : Date) (session : Session) (uri : SpotifyUri) : exec (result AudioItem MetadataError) :=
  let image_url := default "https://i.scdn.co/image/{file_id}"%string (get_user_attribute "image-url" session) in
  match uri with
  | Track _ =>
      match track_get uri with
      | Err e => Val (Err e)
      | Ok track => track_item now session image_url uri track
      end
  | Episode _ =>
      match episode_get uri with
      | Err e => Val (Err e)
      | Ok episode => episode_item now session image_url uri episode
      end
  | _ => Val (Err MNonPlayable)
  end.

(** ** Lemmas *)

Lemma str_chunks_spec fuel size data :
  (0 < size)%nat → (String.length data ≤ fuel)%nat →
  match str_chunks fuel size data with
  | Val l => join EmptyString l = data ∧ Forall (λ c, String.length c = size) l
  | Panic => ¬ ∃ k, String.length data = (k * size)%nat
  end.
Proof.
  intros Hsize. revert data. induction fuel as [|fuel IH]; intros [|c data]; intros Hf; [done|simpl in Hf; lia|done|].
  set (s := String c data) in *. cbn [str_chunks]. unfold s at 1. fold s.
  unfold slice. destruct (decide (0 ≤ size ≤ String.length s)%nat) as [Hle|Hgt].
  2:{ change (¬ ∃ k, String.length s = (k * size)%nat). intros [[|k] Hk]; [done|]. apply Hgt. rewrite Hk. nia. }
  rewrite exec_bind_Val. rewrite decide_True by lia. rewrite exec_bind_Val.
  set (a := String.substring 0 (size - 0) s). set (b := String.substring size (String.length s - size) s).
  destruct (substring_split size s) as (Happ & Ha & Hb); [lia|].
  subst a. rewrite Nat.sub_0_r. fold b in Happ, Hb.
  pose proof (IH b ltac:(lia)) as IHb. destruct (str_chunks fuel size b) as [l|]; simpl.
  - destruct IHb as [Hj Hl]. split; [|by constructor]. rewrite <- Happ, <- Hj at 1. by destruct l; [rewrite string_app_nil|].
  - intros [[|k] Hk]; [done|]. apply IHb. exists k. rewrite Hb. unfold s. cbn [String.length]. rewrite Hk. simpl. lia.
Qed.

(** A list of country codes is cut into codes of two bytes; a code that is cut
    short panics. *)
Lemma parse_country_codes_spec codes :
  match parse_country_codes codes with
  | Val l => join EmptyString l = codes ∧ Forall (λ c, String.length c = 2%nat) l
  | Panic => Nat.Odd (String.length codes)
  end.
Proof.
  pose proof (str_chunks_spec (String.length codes) 2 codes ltac:(lia) ltac:(lia)) as H.
  unfold parse_country_codes. destruct (str_chunks _ _ _); [done|].
  destruct (Nat.Even_or_Odd (String.length codes)) as [[k Hk]|]; [|done].
  destruct H. exists k. lia.
Qed.

Lemma AudioFiles_from_app files file :
  AudioFiles_from (files ++ [file]) =
  match file_entry file with
  | Some (format, id) => <[format := id]> (AudioFiles_from files)
  | None => AudioFiles_from files
  end.
Proof.
  unfold AudioFiles_from. rewrite omap_app, foldl_app. cbn [omap list_omap].
  by destruct (file_entry file) as [[format id]|].
Qed.

(** A restriction of the user's catalogue without lists of countries does not
    count; the first one with a list decides. *)
Definition decides (r : Restriction) : Prop := is_Some (countries_allowed r) ∨ is_Some (countries_forbidden r).

Lemma allowed_loop_skip country rs rs' :
  Forall (λ r, ¬ decides r) rs → allowed_loop country (rs ++ rs') = allowed_loop country rs'.
Proof.
  unfold decides. induction 1 as [|r rs Hr _ IH]; [done|]. simpl. rewrite IH.
  destruct (countries_allowed r), (countries_forbidden r); [..|done]; exfalso; eauto.
Qed.

(** The first restriction of the user's catalogue that has a list lets the
    user's country through. *)
Definition permitted (user : UserData) (restrictions : list Restriction) : Prop :=
  ∀ before r after,
    filter (λ r, default "premium"%string (attributes user !! "catalogue"%string) ∈ catalogue_strs r) restrictions
      = before ++ r :: after →
    Forall (λ r, ¬ decides r) before → decides r →
    match countries_allowed r, countries_forbidden r with
    | Some l, _ => country user ∈ l
    | None, Some l => country user ∉ l
    | None, None => True
    end.

Lemma allowed_permitted user restrictions : allowed_for_user user restrictions = Ok () → permitted user restrictions.
Proof.
  unfold allowed_for_user, permitted. intros H before r after E Hb Hd. rewrite E, allowed_loop_skip in H by done.
  simpl in H. destruct (countries_allowed r) as [l|], (countries_forbidden r) as [l'|]; try case_bool_decide; done.
Qed.

(** The availability was computed for this user: no embargo is on, and the
    country is let through. *)
Definition released (now : Date) (user : UserData) (availability : list Availability) (restrictions : list Restriction) : Prop :=
  (availability = [] ∨ ∃ a, a ∈ availability ∧ av_start a ≤ now) ∧ permitted user restrictions.

Lemma available_for_user_released now user av rs : available_for_user now user av rs = Ok () → released now user av rs.
Proof.
  unfold available_for_user, released. destruct (available now av) as [[]|] eqn:E; [|done]. intros H. split; [|by apply allowed_permitted].
  destruct av as [|a av]; [by left|right]. unfold available in E.
  destruct (existsb _ _) eqn:Ex; [|done]. apply existsb_exists in Ex as (b & Hb & Hn).
  exists b. split; [by apply list_elem_of_In|]. by case_bool_decide.
Qed.

Section get_file.
Context (track_get : SpotifyUri → result TrackMeta MetadataError) (episode_get : SpotifyUri → result EpisodeMeta MetadataError).

(** An audio item that is obtained has a positive duration, is not explicit
    when explicit content is filtered, and is marked available only when it has
    been released and the first restriction for the user's catalogue that lists
    countries lets the user's country through. *)
Lemma get_file_permitted now session uri item :
  (∀ t, track_get uri = Ok t → t_duration t < 2 ^ 31) → (∀ e, episode_get uri = Ok e → e_duration e < 2 ^ 31) →
  get_file track_get episode_get now session uri = Val (Ok item) →
  ai_track_id item = uri ∧ 0 < ai_duration_ms item < 2 ^ 31 ∧
  (filter_explicit_content session = true → ai_is_explicit item = false) ∧
  (ai_availability item = Ok () →
    (∃ t, track_get uri = Ok t ∧ t_earliest_live_timestamp t ≤ now ∧
       released now (user_data (data session)) (t_availability t) (t_restrictions t)) ∨
    (∃ e, episode_get uri = Ok e ∧ released now (user_data (data session)) (e_availability e) (e_restrictions e))).
Proof.
  intros Ht He. unfold get_file. destruct uri; try done.
  - destruct (episode_get _) as [e|] eqn:Eg; [|done]. specialize (He e eq_refl). unfold episode_item.
    case_decide; [done|]. destruct (_ && _) eqn:Ex; [done|]. intros (u & _ & [= <-])%exec_bind_Val_inv. cbn [ai_track_id ai_duration_ms ai_is_explicit ai_availability].
    split_and!; [done|unfold wrapu; rewrite Z.mod_small by lia; lia..| |].
    + intros Hf. rewrite Hf, andb_true_r in Ex. done.
    + intros Ha. right. exists e. split; [done|]. by apply available_for_user_released.
  - destruct (track_get _) as [t|] eqn:Eg; [|done]. specialize (Ht t eq_refl). unfold track_item.
    case_decide; [done|]. destruct (_ && _) eqn:Ex; [done|]. intros (u & _ & [= <-])%exec_bind_Val_inv. cbn [ai_track_id ai_duration_ms ai_is_explicit ai_availability].
    split_and!; [done|unfold wrapu; rewrite Z.mod_small by lia; lia..| |].
    + intros Hf. rewrite Hf, andb_true_r in Ex. done.
    + case_decide; [done|]. intros Ha. left. exists t. split; [done|]. split; [lia|]. by apply available_for_user_released.
Qed.
End get_file.

Definition example_restriction : Restriction := mkRestriction [] 0 ["premium"%string] (Some ["DE"%string; "SE"%string]) None.
Definition example_meta : TrackMeta :=
  mkTrackMeta "name" "album" [] [] 1 1 200000 50 false [example_restriction] ∅ [] 0 [mkAvailability [] 5] [] [].
Definition example_session : Session := set_country "SE" (session_new None "client" "session").

(** ** Corner cases *)

(** The numbers 10 to 13, which [AudioFileFormat] knows as formats that are sent
    although they are not in the protocol, are ignored in the list of files. *)
Lemma extra_formats_ignored :
  AudioFileFormat_try_from 10 = Ok AAC_160 ∧ AudioFiles_from [mkAudioFileMessage (Some (replicate 20 1)) (Some 10)] = ∅.
Proof. by vm_compute. Qed.
