(* ===== verification/Player.v ===== *)
(** * The player task: [playback/src/player.rs]

    One task owns the state of playback.  It takes commands from a queue, waits
    for tracks to load, decodes and writes packets to the sink, and sends events
    to its listeners.  [turn] is one turn of the loop of [PlayerInternal::poll].

    Objects behind a [Box] or an [Arc] (decoders, stream controllers, event
    senders, callbacks, sessions) are handles; what they do is a class of
    operations on an external state.  The log has what the task did, the latest
    first. *)

From S2P Require Import Prelude StdTypes Float64 Wire SpotifyId SpotifyUri Metadata.

Local Open Scope Z_scope.

(** ** Data *)

Definition PRELOAD_NEXT_TRACK_BEFORE_END_DURATION_MS : Z := 30000.

Inductive SinkStatus := Running | Closed | TemporarilyClosed.
#[export] Instance SinkStatus_eq_dec : EqDecision SinkStatus.
Proof. solve_decision. Defined.

Inductive NormalisationType := NAlbum | NTrack | NAuto.
#[export] Instance NormalisationType_eq_dec : EqDecision NormalisationType.
Proof. solve_decision. Defined.
Inductive NormalisationMethod := Basic | Dynamic.
#[export] Instance NormalisationMethod_eq_dec : EqDecision NormalisationMethod.
Proof. solve_decision. Defined.
Inductive Bitrate := Bitrate96 | Bitrate160 | Bitrate320.

(** Durations and points in time are in nanoseconds. *)
Record PlayerConfig := mkConfig {
  bitrate : Bitrate;
  gapless : bool;
  passthrough : bool;
  normalisation : bool;
  normalisation_type : NormalisationType;
  normalisation_method : NormalisationMethod;
  normalisation_pregain_db : f64;
  normalisation_threshold_dbfs : f64;
  normalisation_attack_cf : f64;
  normalisation_release_cf : f64;
  normalisation_knee_db : f64;
  position_update_interval : option Z;
}.
#[export] Instance settable_PlayerConfig : Settable PlayerConfig :=
  λ r, mkConfig (bitrate r) (gapless r) (passthrough r) (normalisation r) (normalisation_type r) (normalisation_method r)
         (normalisation_pregain_db r) (normalisation_threshold_dbfs r) (normalisation_attack_cf r)
         (normalisation_release_cf r) (normalisation_knee_db r) (position_update_interval r).

Abbreviation SessionHandle := nat.
Abbreviation Decoder := nat.
Abbreviation StreamLoaderController := nat.
Abbreviation EventSender := nat.
Abbreviation SinkEventCallback := nat.
Abbreviation ThreadId := nat.

Record QueueTrack := mkQueueTrack { qt_uri : string; qt_provider : string }.

Inductive PlayerCommand :=
| Load (track_id : SpotifyUri) (play : bool) (position_ms : Z)
| Preload (track_id : SpotifyUri)
| Play
| Pause
| Stop
| Seek (position_ms : Z)
| SetSession (session : SessionHandle)
| AddEventSender (sender : EventSender)
| SetSinkEventCallback (callback : option SinkEventCallback)
| EmitVolumeChangedEvent (volume : Z)
| SetAutoNormaliseAsAlbum (setting : bool)
| EmitSessionDisconnectedEvent (connection_id user_name : string)
| EmitSessionConnectedEvent (connection_id user_name : string)
| EmitSessionClientChangedEvent (client_id client_name client_brand_name client_model_name : string)
| EmitFilterExplicitContentChangedEvent (filter : bool)
| EmitShuffleChangedEvent (shuffle : bool)
| EmitRepeatChangedEvent (context track : bool)
| EmitAutoPlayChangedEvent (auto_play : bool)
| EmitSetQueueEvent (context_uri : string) (current_track : option QueueTrack) (next_tracks prev_tracks : list QueueTrack).

Inductive PlayerEvent :=
| EvPlayRequestIdChanged (play_request_id : Z)
| EvStopped (play_request_id : Z) (track_id : SpotifyUri)
| EvLoading (play_request_id : Z) (track_id : SpotifyUri) (position_ms : Z)
| EvPreloading (track_id : SpotifyUri)
| EvPlaying (play_request_id : Z) (track_id : SpotifyUri) (position_ms : Z)
| EvPaused (play_request_id : Z) (track_id : SpotifyUri) (position_ms : Z)
| EvTimeToPreloadNextTrack (play_request_id : Z) (track_id : SpotifyUri)
| EvEndOfTrack (play_request_id : Z) (track_id : SpotifyUri)
| EvUnavailable (play_request_id : Z) (track_id : SpotifyUri)
| EvVolumeChanged (volume : Z)
| EvPositionCorrection (play_request_id : Z) (track_id : SpotifyUri) (position_ms : Z)
| EvPositionChanged (play_request_id : Z) (track_id : SpotifyUri) (position_ms : Z)
| EvSeeked (play_request_id : Z) (track_id : SpotifyUri) (position_ms : Z)
| EvTrackChanged (audio_item : AudioItem)
| EvSessionConnected (connection_id user_name : string)
| EvSessionDisconnected (connection_id user_name : string)
| EvSessionClientChanged (client_id client_name client_brand_name client_model_name : string)
| EvShuffleChanged (shuffle : bool)
| EvRepeatChanged (context track : bool)
| EvAutoPlayChanged (auto_play : bool)
| EvFilterExplicitContentChanged (filter : bool)
| EvSetQueue (context_uri : string) (current_track : option QueueTrack) (next_tracks prev_tracks : list QueueTrack).

Definition get_play_request_id (e : PlayerEvent) : option Z :=
  match e with
  | EvLoading play_request_id _ _
  | EvUnavailable play_request_id _
  | EvPlaying play_request_id _ _
  | EvTimeToPreloadNextTrack play_request_id _
  | EvEndOfTrack play_request_id _
  | EvPaused play_request_id _ _
  | EvStopped play_request_id _
  | EvPositionCorrection play_request_id _ _
  | EvSeeked play_request_id _ _ => Some play_request_id
  | _ => None
  end.

Record NormalisationData := mkNormalisationData {
  track_gain_db : f64;
  track_peak : f64;
  album_gain_db : f64;
  album_peak : f64;
}.
Definition NormalisationData_default : NormalisationData :=
  mkNormalisationData F64.zero F64.one F64.zero F64.one.

Record PlayerLoadedTrackData := mkLoaded {
  lt_decoder : Decoder;
  lt_normalisation_data : NormalisationData;
  lt_stream_loader_controller : StreamLoaderController;
  lt_audio_item : AudioItem;
  lt_bytes_per_second : Z;
  lt_duration_ms : Z;
  lt_stream_position_ms : Z;
  lt_is_explicit : bool;
}.
#[export] Instance settable_Loaded : Settable PlayerLoadedTrackData :=
  λ r, mkLoaded (lt_decoder r) (lt_normalisation_data r) (lt_stream_loader_controller r) (lt_audio_item r)
         (lt_bytes_per_second r) (lt_duration_ms r) (lt_stream_position_ms r) (lt_is_explicit r).

(** A loader is the future of the answer of a loading thread; it remembers
    that it has completed. *)
Record Loader := mkLoader { thread : ThreadId; terminated : bool }.

Inductive PlayerPreload :=
| PreloadNone
| PreloadLoading (track_id : SpotifyUri) (loader : Loader)
| PreloadReady (track_id : SpotifyUri) (loaded_track : PlayerLoadedTrackData).

(** The fields [Paused] and [Playing] have in common. *)
Record Current := mkCurrent {
  track_id : SpotifyUri;
  play_request_id : Z;
  decoder : Decoder;
  audio_item : AudioItem;
  normalisation_data : NormalisationData;
  normalisation_factor : f64;
  stream_loader_controller : StreamLoaderController;
  bytes_per_second : Z;
  duration_ms : Z;
  stream_position_ms : Z;
  suggested_to_preload_next_track : bool;
  is_explicit : bool;
}.
#[export] Instance settable_Current : Settable Current :=
  λ r, mkCurrent (track_id r) (play_request_id r) (decoder r) (audio_item r) (normalisation_data r)
         (normalisation_factor r) (stream_loader_controller r) (bytes_per_second r) (duration_ms r)
         (stream_position_ms r) (suggested_to_preload_next_track r) (is_explicit r).

Inductive PlayerState :=
| Stopped
| Loading (track_id : SpotifyUri) (play_request_id : Z) (start_playback : bool) (loader : Loader)
| Paused (c : Current)
| Playing (c : Current) (reported_nominal_start_time : option Z)
| EndOfTrack (track_id : SpotifyUri) (play_request_id : Z) (loaded_track : PlayerLoadedTrackData)
| Invalid.

Definition is_stopped (self : PlayerState) : bool := match self with Stopped => true | _ => false end.
Definition is_loading (self : PlayerState) : bool := match self with Loading _ _ _ _ => true | _ => false end.

Record PlayerInternal := mkPlayer {
  session : SessionHandle;
  config : PlayerConfig;
  load_handles : gset ThreadId;
  state : PlayerState;
  preload : PlayerPreload;
  sink_status : SinkStatus;
  sink_event_callback : option SinkEventCallback;
  event_senders : list EventSender;
  normalisation_integrators : list f64;
  normalisation_peaks : list f64;
  normalisation_channel : nat;
  normalisation_knee_factor : f64;
  auto_normalise_as_album : bool;
  play_request_id_generator : Z;
  last_progress_update : Z;
}.
#[export] Instance settable_PlayerInternal : Settable PlayerInternal :=
  λ r, mkPlayer (session r) (config r) (load_handles r) (state r) (preload r) (sink_status r) (sink_event_callback r)
         (event_senders r) (normalisation_integrators r) (normalisation_peaks r) (normalisation_channel r)
         (normalisation_knee_factor r) (auto_normalise_as_album r) (play_request_id_generator r) (last_progress_update r).

(** ** Packets: [decoder/mod.rs] *)

Inductive AudioPacket := Samples (data : list f64) | Raw (data : list Z).
Record AudioPacketPosition := mkPosition { position_ms : Z; skipped : bool }.
Inductive AudioPacketError := ERaw | ESamples.

Definition samples (self : AudioPacket) : result (list f64) AudioPacketError :=
  match self with Samples s => Ok s | Raw _ => Err ERaw end.
Definition raw (self : AudioPacket) : result (list Z) AudioPacketError :=
  match self with Raw d => Ok d | Samples _ => Err ESamples end.
Definition is_empty (self : AudioPacket) : bool :=
  match self with
  | Samples s => bool_decide (s = [])
  | Raw d => bool_decide (d = [])
  end.

Inductive PlayerError := EInternal | EDecoder | EFetch.
Abbreviation PlayerResult := (result () PlayerError).

(** ** Effects *)

(** What the task uses of the rest of the program and of the system: the
    clock, the sink, the decoders, the stream controllers, the volume, the
    listeners, and the loading threads.  A thread's answer is [None] while it
    works, and an error when it ended without one. *)
Class PlayerEnv (X : Type) := {
  now : X → Z * X;
  sink_start : X → result () () * X;
  sink_stop : X → result () () * X;
  sink_write : AudioPacket → X → result () () * X;
  decoder_seek : Decoder → Z → X → result Z () * X;
  decoder_next_packet : Decoder → X → result (option (AudioPacketPosition * AudioPacket)) () * X;
  attenuation_factor : X → f64 * X;
  range_to_end_available : StreamLoaderController → X → bool * X;
  fetch_next_and_wait : StreamLoaderController → Z → Z → X → result () () * X;
  read_ahead_during_playback : Duration;
  event_send : EventSender → PlayerEvent → X → bool * X;
  run_callback : SinkEventCallback → SinkStatus → X → X;
  spawn_loader : SessionHandle → PlayerConfig → SpotifyUri → Z → X → ThreadId * X;
  thread_answer : ThreadId → X → option (result PlayerLoadedTrackData ()) * X;
}.

Inductive Entry :=
| LEvent (e : PlayerEvent)
| LStart (ok : bool)
| LStop (ok : bool)
| LWrite (packet : AudioPacket)
| LLoad (track_id : SpotifyUri) (position_ms : Z)
| LError (e : PlayerError).

Record World (X : Type) := mkWorld {
  pl : PlayerInternal;
  commands : list PlayerCommand;
  disconnected : bool;
  ext : X;
  log : list Entry;
}.
Arguments mkWorld {X} _ _ _ _ _.
Arguments pl {X} _.
Arguments commands {X} _.
Arguments disconnected {X} _.
Arguments ext {X} _.
Arguments log {X} _.
#[export] Instance settable_World {X} : Settable (World X) :=
  λ r, mkWorld (pl r) (commands r) (disconnected r) (ext r) (log r).

(** A method: the world it leaves, and its result unless the process ended by
    [exit] or a panic. *)
Definition io (X A : Type) : Type := World X → World X * option A.

#[export] Instance io_ret {X} : MRet (io X) := λ A a w, (w, Some a).
#[export] Instance io_bind {X} : MBind (io X) := λ A B f m w,
  match m w with
  | (w', Some a) => f a w'
  | (w', None) => (w', None)
  end.

Definition is_ok {A E} (r : result A E) : bool := match r with Ok _ => true | Err _ => false end.

Section player.
Context {X : Type} {env : PlayerEnv X} {libm : Libm}.

Definition get : io X PlayerInternal := λ w, (w, Some (pl w)).
Definition modify (f : PlayerInternal → PlayerInternal) : io X () := λ w, (w <| pl ::= f |>, Some ()).
Definition set_state (s : PlayerState) : io X () := modify (λ p, p <| state := s |>).
Definition call {A} (f : X → A * X) : io X A := λ w, let (a, x) := f (ext w) in (w <| ext := x |>, Some a).
Definition record (e : Entry) : io X () := λ w, (w <| log ::= cons e |>, Some ()).
(** [process::exit(1)], and panics. *)
Definition exit {A} : io X A := λ w, (w, None).

(** ** Levels *)

Definition DB_VOLTAGE_RATIO : f64 := F64.of_Z 20.
Definition PCM_AT_0DBFS : f64 := F64.one.

Definition db_to_ratio (db : f64) : f64 := powf (F64.of_Z 10) (F64.div db DB_VOLTAGE_RATIO).
Definition ratio_to_db (ratio : f64) : f64 := F64.mul (log10 ratio) DB_VOLTAGE_RATIO.

Definition get_factor (config : PlayerConfig) (data : NormalisationData) : f64 :=
  if negb (normalisation config) then F64.one
  else
    let '(gain_db, gain_peak) :=
      if decide (normalisation_type config = NAlbum) then (album_gain_db data, album_peak data)
      else (track_gain_db data, track_peak data) in
    if decide (normalisation_method config = Basic) then
      let factor := F64.min (db_to_ratio (F64.add gain_db (normalisation_pregain_db config)))
                            (F64.div PCM_AT_0DBFS gain_peak) in
      if F64.gtb factor PCM_AT_0DBFS then PCM_AT_0DBFS else factor
    else db_to_ratio (F64.add gain_db (normalisation_pregain_db config)).

(** The part of the limiter that looks at the level of one sample. *)
Definition limiter_db (knee_factor threshold_db knee_db sample : f64) : f64 :=
  let bias_db := F64.sub (ratio_to_db (F64.abs sample)) threshold_db in
  let knee_boundary_db := F64.mul bias_db F64.two in
  if F64.ltb knee_boundary_db (F64.opp knee_db) then F64.zero
  else if F64.leb (F64.abs knee_boundary_db) knee_db then
    let term := F64.add knee_boundary_db knee_db in F64.mul (F64.mul term term) knee_factor
  else bias_db.

(** One sample through the limiter: indexing the arrays of the two channels
    panics out of range. *)
Definition limit_sample (factor volume : f64) (p : PlayerInternal) (sample : f64) : option (f64 * PlayerInternal) :=
  let cfg := config p in
  let sample := F64.add (F64.mul sample factor) F64.MIN_POSITIVE in
  let db := limiter_db (normalisation_knee_factor p) (normalisation_threshold_dbfs cfg) (normalisation_knee_db cfg) sample in
  let channel := normalisation_channel p in
  let p := p <| normalisation_channel ::= Nat.lxor 1 |> in
  integrator ← normalisation_integrators p !! channel;
  peak ← normalisation_peaks p !! channel;
  let release_cf := normalisation_release_cf cfg in
  let attack_cf := normalisation_attack_cf cfg in
  let integrator := F64.max db (F64.add (F64.mul release_cf integrator) (F64.mul (F64.sub F64.one release_cf) db)) in
  let peak := F64.add (F64.mul attack_cf peak) (F64.mul (F64.sub F64.one attack_cf) integrator) in
  let p := p <| normalisation_integrators ::= <[channel := integrator]> |> <| normalisation_peaks ::= <[channel := peak]> |> in
  peak0 ← normalisation_peaks p !! 0%nat;
  peak1 ← normalisation_peaks p !! 1%nat;
  let max_peak := F64.max peak0 peak1 in
  Some (F64.mul sample (F64.mul (db_to_ratio (F64.opp max_peak)) volume), p).

Fixpoint limit_samples (factor volume : f64) (p : PlayerInternal) (data : list f64) : option (list f64 * PlayerInternal) :=
  match data with
  | [] => Some ([], p)
  | sample :: data =>
      '(sample, p) ← limit_sample factor volume p sample;
      '(data, p) ← limit_samples factor volume p data;
      Some (sample :: data, p)
  end.

(** The samples of a packet, with normalisation and volume applied. *)
Definition process_samples (factor volume : f64) (p : PlayerInternal) (data : list f64) : option (list f64 * PlayerInternal) :=
  match normalisation (config p), normalisation_method (config p) with
  | false, _ => Some (if F64.ltb volume F64.one then (λ s, F64.mul s volume) <$> data else data, p)
  | true, Dynamic => limit_samples factor volume p data
  | true, Basic =>
      Some (if F64.ltb factor F64.one || F64.ltb volume F64.one then (λ s, F64.mul s (F64.mul factor volume)) <$> data
            else data, p)
  end.

(** ** Events and the sink *)

(** A listener whose receiver is gone is dropped. *)
Fixpoint send_all (e : PlayerEvent) (senders : list EventSender) (x : X) : list EventSender * X :=
  match senders with
  | [] => ([], x)
  | sender :: senders =>
      let '(ok, x) := event_send sender e x in
      let '(senders, x) := send_all e senders x in
      (if ok then sender :: senders else senders, x)
  end.
Definition send_event (e : PlayerEvent) : io X () :=
  record (LEvent e);;
  p ← get;
  senders ← call (send_all e (event_senders p));
  modify (λ p, p <| event_senders := senders |>).

Definition callback (s : SinkStatus) : io X () :=
  p ← get;
  match sink_event_callback p with
  | Some f => call (λ x, ((), run_callback f s x))
  | None => mret ()
  end.

Definition ensure_sink_stopped (temporarily : bool) : io X () :=
  p ← get;
  match sink_status p with
  | Running =>
      r ← call sink_stop;
      record (LStop (is_ok r));;
      match r with
      | Ok _ =>
          let status := if temporarily then TemporarilyClosed else Closed in
          modify (λ p, p <| sink_status := status |>);;
          callback status
      | Err _ => exit
      end
  | TemporarilyClosed =>
      if temporarily then mret ()
      else modify (λ p, p <| sink_status := Closed |>);; callback Closed
  | Closed => mret ()
  end.

(** ** Transitions of the state *)

(** [Instant] arithmetic: [checked_sub] fails before the smallest instant of
    the platform, [i64::MIN] seconds. *)
Definition millis (ms : Z) : Z := ms * 1000000.
Definition instant_min : Z := - 2 ^ 63 * 1000000000.
Definition instant_checked_sub (i d : Z) : option Z := if decide (instant_min ≤ i - d) then Some (i - d) else None.
Definition checked_duration_since (i j : Z) : option Z := if decide (j ≤ i) then Some (i - j) else None.
Definition duration_since (i j : Z) : Z := Z.max 0 (i - j).
Definition duration_checked_sub (d e : Z) : option Z := if decide (e ≤ d) then Some (d - e) else None.

Definition is_playing (s : PlayerState) : io X bool :=
  match s with
  | Stopped | EndOfTrack _ _ _ | Paused _ | Loading _ _ _ _ => mret false
  | Playing _ _ => mret true
  | Invalid => exit
  end.

Definition state_decoder (s : PlayerState) : io X (option Decoder) :=
  match s with
  | Stopped | EndOfTrack _ _ _ | Loading _ _ _ _ => mret None
  | Paused c | Playing c _ => mret (Some (decoder c))
  | Invalid => exit
  end.

Definition loaded_of (c : Current) : PlayerLoadedTrackData :=
  mkLoaded (decoder c) (normalisation_data c) (stream_loader_controller c) (audio_item c) (bytes_per_second c)
    (duration_ms c) (stream_position_ms c) (is_explicit c).

Definition playing_to_end_of_track : io X () :=
  p ← get;
  set_state Invalid;;
  match state p with
  | Playing c _ => set_state (EndOfTrack (track_id c) (play_request_id c) (loaded_of c))
  | _ => exit
  end.

Definition paused_to_playing : io X () :=
  p ← get;
  set_state Invalid;;
  match state p with
  | Paused c => t ← call now; set_state (Playing c (instant_checked_sub t (millis (stream_position_ms c))))
  | _ => exit
  end.

Definition playing_to_paused : io X () :=
  p ← get;
  set_state Invalid;;
  match state p with
  | Playing c _ => set_state (Paused c)
  | _ => exit
  end.

Definition handle_pause : io X () :=
  p ← get;
  match state p with
  | Paused _ => ensure_sink_stopped false
  | Playing c _ =>
      playing_to_paused;;
      ensure_sink_stopped false;;
      send_event (EvPaused (play_request_id c) (track_id c) (stream_position_ms c))
  | Loading track_id play_request_id _ loader => set_state (Loading track_id play_request_id false loader)
  | _ => mret ()
  end.

Definition ensure_sink_running : io X () :=
  p ← get;
  if decide (sink_status p = Running) then mret ()
  else
    callback Running;;
    r ← call sink_start;
    record (LStart (is_ok r));;
    match r with
    | Ok _ => modify (λ p, p <| sink_status := Running |>)
    | Err _ => handle_pause
    end.

Definition handle_play : io X () :=
  p ← get;
  match state p with
  | Paused c =>
      paused_to_playing;;
      send_event (EvPlaying (play_request_id c) (track_id c) (stream_position_ms c));;
      ensure_sink_running
  | Loading track_id play_request_id _ loader => set_state (Loading track_id play_request_id true loader)
  | _ => mret ()
  end.

(** The track and request of a state that has one. *)
Definition state_request (s : PlayerState) : option (Z * SpotifyUri) :=
  match s with
  | Playing c _ | Paused c => Some (play_request_id c, track_id c)
  | EndOfTrack track_id play_request_id _ | Loading track_id play_request_id _ _ => Some (play_request_id, track_id)
  | Stopped | Invalid => None
  end.

Definition handle_player_stop : io X () :=
  p ← get;
  match state p with
  | Playing _ _ | Paused _ | EndOfTrack _ _ _ | Loading _ _ _ _ =>
      ensure_sink_stopped false;;
      (match state_request (state p) with
       | Some (play_request_id, track_id) => send_event (EvStopped play_request_id track_id)
       | None => mret ()
       end);;
      set_state Stopped
  | Stopped => mret ()
  | Invalid => exit
  end.

(** ** Playing a packet *)

Definition handle_packet (packet : option (AudioPacketPosition * AudioPacket)) (normalisation_factor : f64) : io X () :=
  match packet with
  | Some (_, packet) =>
      if is_empty packet then mret ()
      else
        packet ← (match packet with
          | Samples data =>
              volume ← call attenuation_factor;
              p ← get;
              match process_samples normalisation_factor volume p data with
              | Some (data, p) => modify (λ _, p);; mret (Samples data)
              | None => exit
              end
          | Raw data => mret (Raw data)
          end);
        record (LWrite packet);;
        r ← call (sink_write packet);
        match r with Ok _ => mret () | Err _ => handle_pause end
  | None =>
      playing_to_end_of_track;;
      p ← get;
      match state p with
      | EndOfTrack track_id play_request_id _ => send_event (EvEndOfTrack play_request_id track_id)
      | _ => exit
      end
  end.

Definition start_playback (track_id : SpotifyUri) (play_request_id : Z) (loaded_track : PlayerLoadedTrackData)
    (start_playback : bool) : io X () :=
  send_event (EvTrackChanged (lt_audio_item loaded_track));;
  let position_ms := lt_stream_position_ms loaded_track in
  p ← get;
  let config :=
    if decide (normalisation_type (config p) = NAuto) then
      config p <| normalisation_type := if auto_normalise_as_album p then NAlbum else NTrack |>
    else config p in
  let normalisation_factor := get_factor config (lt_normalisation_data loaded_track) in
  let current := mkCurrent track_id play_request_id (lt_decoder loaded_track) (lt_audio_item loaded_track)
    (lt_normalisation_data loaded_track) normalisation_factor (lt_stream_loader_controller loaded_track)
    (lt_bytes_per_second loaded_track) (lt_duration_ms loaded_track) (lt_stream_position_ms loaded_track)
    false (lt_is_explicit loaded_track) in
  if start_playback then
    ensure_sink_running;;
    send_event (EvPlaying play_request_id track_id position_ms);;
    t ← call now;
    set_state (Playing current (instant_checked_sub t (millis position_ms)))
  else
    ensure_sink_stopped false;;
    set_state (Paused current);;
    send_event (EvPaused play_request_id track_id position_ms).

(** ** Loading *)

(** [PlayerInternal::load_track] starts a thread, whose handle is kept. *)
Definition load_track (spotify_uri : SpotifyUri) (position_ms : Z) : io X Loader :=
  p ← get;
  record (LLoad spotify_uri position_ms);;
  id ← call (spawn_loader (session p) (config p) spotify_uri position_ms);
  modify (λ p, p <| load_handles ::= union {[id]} |>);;
  mret (mkLoader id false).

(** [seek(position_ms)?] unless the position is right already. *)
Definition seek_if_needed (d : Decoder) (position_ms stream_position_ms : Z) : io X (result Z PlayerError) :=
  if decide (position_ms = stream_position_ms) then mret (Ok stream_position_ms)
  else
    r ← call (decoder_seek d position_ms);
    mret (match r with Ok n => Ok n | Err _ => Err EDecoder end).

(** The checks that [start_playback] left a valid state. *)
Definition check_valid : io X PlayerResult :=
  p ← get;
  mret (match state p with Invalid => Err EInternal | _ => Ok () end).

(** Repeating the track that has just ended. *)
Definition load_repeat (track_id : SpotifyUri) (play_request_id : Z) (play : bool) (position_ms : Z)
    (loaded_track : PlayerLoadedTrackData) : io X PlayerResult :=
  set_state Invalid;;
  r ← seek_if_needed (lt_decoder loaded_track) position_ms (lt_stream_position_ms loaded_track);
  match r with
  | Err e => mret (Err e)
  | Ok pos =>
      modify (λ p, p <| preload := PreloadNone |>);;
      start_playback track_id play_request_id (loaded_track <| lt_stream_position_ms := pos |>) play;;
      check_valid
  end.

(** Loading the track that is playing or paused. *)
Definition load_current (track_id : SpotifyUri) (play_request_id : Z) (play : bool) (position_ms : Z)
    (c : Current) : io X PlayerResult :=
  r ← seek_if_needed (decoder c) position_ms (stream_position_ms c);
  match r with
  | Err e => mret (Err e)
  | Ok pos =>
      set_state Invalid;;
      modify (λ p, p <| preload := PreloadNone |>);;
      start_playback track_id play_request_id (loaded_of (c <| stream_position_ms := pos |>)) play;;
      check_valid
  end.

Definition load_preloaded (track_id : SpotifyUri) (play_request_id : Z) (play : bool) (position_ms : Z)
    (loaded_track : PlayerLoadedTrackData) : io X PlayerResult :=
  modify (λ p, p <| preload := PreloadNone |>);;
  r ← seek_if_needed (lt_decoder loaded_track) position_ms (lt_stream_position_ms loaded_track);
  match r with
  | Err e => mret (Err e)
  | Ok pos =>
      start_playback track_id play_request_id (loaded_track <| lt_stream_position_ms := pos |>) play;;
      mret (Ok ())
  end.

(** The loader of a preload that is under way, when it loads from the start. *)
Definition pending_loader (track_id : SpotifyUri) (position_ms : Z) (preload : PlayerPreload) : option Loader :=
  match preload with
  | PreloadLoading loaded_track_id loader =>
      if decide (track_id = loaded_track_id ∧ position_ms = 0) then Some loader else None
  | _ => None
  end.

Definition load_fresh (track_id : SpotifyUri) (play_request_id : Z) (play : bool) (position_ms : Z) : io X PlayerResult :=
  send_event (EvLoading play_request_id track_id position_ms);;
  p ← get;
  let loader := pending_loader track_id position_ms (preload p) in
  modify (λ p, p <| preload := PreloadNone |>);;
  loader ← (match loader with Some loader => mret loader | None => load_track track_id position_ms end);
  set_state (Loading track_id play_request_id play loader);;
  mret (Ok ()).

Definition load_other (track_id : SpotifyUri) (play_request_id : Z) (play : bool) (position_ms : Z) : io X PlayerResult :=
  p ← get;
  match preload p with
  | PreloadReady loaded_track_id loaded_track =>
      if decide (track_id = loaded_track_id) then load_preloaded track_id play_request_id play position_ms loaded_track
      else load_fresh track_id play_request_id play position_ms
  | _ => load_fresh track_id play_request_id play position_ms
  end.

(** Where the track may already be: ended, playing or paused, or preloaded. *)
Definition load_dispatch (track_id : SpotifyUri) (play_request_id : Z) (play : bool) (position_ms : Z) : io X PlayerResult :=
  p ← get;
  match state p with
  | Invalid => mret (Err EInternal)
  | EndOfTrack previous_track_id _ loaded_track =>
      if decide (previous_track_id = track_id) then load_repeat track_id play_request_id play position_ms loaded_track
      else load_other track_id play_request_id play position_ms
  | Playing c _ | Paused c =>
      if decide (Player.track_id c = track_id) then load_current track_id play_request_id play position_ms c
      else load_other track_id play_request_id play position_ms
  | Stopped | Loading _ _ _ _ => load_other track_id play_request_id play position_ms
  end.

(** [unwrap_or(generator.get())] draws a number also when it is not needed. *)
Definition handle_command_load (track_id : SpotifyUri) (play_request_id_option : option Z) (play : bool)
    (position_ms : Z) : io X PlayerResult :=
  p ← get;
  let '(next, generator) := seq_get 64 (play_request_id_generator p) in
  modify (λ p, p <| play_request_id_generator := generator |>);;
  let play_request_id := default next play_request_id_option in
  send_event (EvPlayRequestIdChanged play_request_id);;
  (if gapless (config p) then mret () else ensure_sink_stopped play);;
  load_dispatch track_id play_request_id play position_ms.

(** A preload of the same track stays, another one is cancelled. *)
Definition handle_command_preload (track_id : SpotifyUri) : io X () :=
  p ← get;
  let already :=
    match preload p with
    | PreloadLoading currently_loading _ | PreloadReady currently_loading _ => bool_decide (currently_loading = track_id)
    | PreloadNone => false
    end in
  (if already then mret () else modify (λ p, p <| preload := PreloadNone |>));;
  let loaded :=
    match state p with
    | Playing c _ | Paused c => bool_decide (Player.track_id c = track_id)
    | EndOfTrack current_track_id _ _ => bool_decide (current_track_id = track_id)
    | _ => false
    end in
  if already || loaded then mret ()
  else
    loader ← load_track track_id 0;
    modify (λ p, p <| preload := PreloadLoading track_id loader |>).

(** ** Seeking *)

Definition preload_data_before_playback : io X PlayerResult :=
  p ← get;
  match state p with
  | Playing c _ =>
      let length := f32_to_usize (f32_mul (as_secs_f32 read_ahead_during_playback) (f32_of_Z (bytes_per_second c))) in
      r ← call (fetch_next_and_wait (stream_loader_controller c) length length);
      mret (match r with Ok _ => Ok () | Err _ => Err EFetch end)
  | _ => mret (Ok ())
  end.

Definition set_stream_position (pos : Z) (s : PlayerState) : PlayerState :=
  match s with
  | Playing c t => Playing (c <| stream_position_ms := pos |>) t
  | Paused c => Paused (c <| stream_position_ms := pos |>)
  | s => s
  end.

Definition seek_decoder (d : Decoder) (position_ms : Z) : io X () :=
  r ← call (decoder_seek d position_ms);
  match r with
  | Ok new_position_ms =>
      p ← get;
      match state p with
      | Playing c _ | Paused c =>
          modify (λ p, p <| state ::= set_stream_position new_position_ms |>);;
          send_event (EvSeeked (play_request_id c) (track_id c) new_position_ms)
      | _ => mret ()
      end
  | Err _ => mret ()
  end.

Definition set_nominal_start (t : Z) (position_ms : Z) (s : PlayerState) : PlayerState :=
  match s with
  | Playing c _ => Playing c (instant_checked_sub t (millis position_ms))
  | s => s
  end.

(** Seeking once the track is loaded. *)
Definition seek_loaded (position_ms : Z) : io X PlayerResult :=
  p ← get;
  d ← state_decoder (state p);
  (match d with Some d => seek_decoder d position_ms | None => mret () end);;
  r ← preload_data_before_playback;
  match r with
  | Err e => mret (Err e)
  | Ok _ =>
      p ← get;
      (match state p with
       | Playing _ _ => t ← call now; modify (λ p, p <| state ::= set_nominal_start t position_ms |>)
       | _ => mret ()
       end);;
      mret (Ok ())
  end.

Definition handle_command_seek (position_ms : Z) : io X PlayerResult :=
  p ← get;
  match state p with
  | Loading track_id play_request_id start_playback _ =>
      handle_command_load track_id (Some play_request_id) start_playback position_ms
  | _ => seek_loaded position_ms
  end.

(** ** Commands *)

Definition handle_filter_explicit (filter : bool) : io X () :=
  send_event (EvFilterExplicitContentChanged filter);;
  if filter then
    p ← get;
    match state p with
    | Playing c _ | Paused c =>
        if is_explicit c then send_event (EvEndOfTrack (play_request_id c) (track_id c)) else mret ()
    | _ => mret ()
    end
  else mret ().

Definition returns (m : io X ()) : io X PlayerResult := m;; mret (Ok ()).

Definition handle_command (cmd : PlayerCommand) : io X PlayerResult :=
  match cmd with
  | Load track_id play position_ms => handle_command_load track_id None play position_ms
  | Preload track_id => returns (handle_command_preload track_id)
  | Seek position_ms => handle_command_seek position_ms
  | Play => returns handle_play
  | Pause => returns handle_pause
  | Stop => returns handle_player_stop
  | SetSession s => returns (modify (λ p, p <| session := s |>))
  | AddEventSender sender => returns (modify (λ p, p <| event_senders ::= (λ l, l ++ [sender]) |>))
  | SetSinkEventCallback callback => returns (modify (λ p, p <| sink_event_callback := callback |>))
  | EmitVolumeChangedEvent volume => returns (send_event (EvVolumeChanged volume))
  | EmitRepeatChangedEvent context track => returns (send_event (EvRepeatChanged context track))
  | EmitShuffleChangedEvent shuffle => returns (send_event (EvShuffleChanged shuffle))
  | EmitAutoPlayChangedEvent auto_play => returns (send_event (EvAutoPlayChanged auto_play))
  | EmitSessionClientChangedEvent client_id client_name client_brand_name client_model_name =>
      returns (send_event (EvSessionClientChanged client_id client_name client_brand_name client_model_name))
  | EmitSessionConnectedEvent connection_id user_name => returns (send_event (EvSessionConnected connection_id user_name))
  | EmitSessionDisconnectedEvent connection_id user_name => returns (send_event (EvSessionDisconnected connection_id user_name))
  | SetAutoNormaliseAsAlbum setting => returns (modify (λ p, p <| auto_normalise_as_album := setting |>))
  | EmitSetQueueEvent context_uri current_track next_tracks prev_tracks =>
      returns (send_event (EvSetQueue context_uri current_track next_tracks prev_tracks))
  | EmitFilterExplicitContentChangedEvent filter => returns (handle_filter_explicit filter)
  end.

(** ** The loop *)

Inductive Recv := RecvPending | RecvClosed | RecvCommand (cmd : PlayerCommand).

Definition poll_recv : io X Recv := λ w,
  match commands w with
  | cmd :: rest => (w <| commands := rest |>, Some (RecvCommand cmd))
  | [] => (w, Some (if disconnected w then RecvClosed else RecvPending))
  end.

(** Polling a loader that has completed panics. *)
Definition poll_loader (loader : Loader) : io X (option (result PlayerLoadedTrackData ()) * Loader) :=
  if terminated loader then exit
  else
    r ← call (thread_answer (thread loader));
    mret (r, mkLoader (thread loader) (bool_decide (is_Some r))).

Definition poll_loading : io X () :=
  p ← get;
  match state p with
  | Loading track_id play_request_id start loader =>
      if terminated loader then mret ()
      else
        '(r, loader) ← poll_loader loader;
        set_state (Loading track_id play_request_id start loader);;
        match r with
        | Some (Ok loaded_track) =>
            start_playback track_id play_request_id loaded_track start;;
            p ← get;
            match state p with Loading _ _ _ _ => exit | _ => mret () end
        | Some (Err _) => send_event (EvUnavailable play_request_id track_id)
        | None => mret ()
        end
  | _ => mret ()
  end.

Definition poll_preload : io X () :=
  p ← get;
  match preload p with
  | PreloadLoading track_id loader =>
      '(r, loader) ← poll_loader loader;
      modify (λ p, p <| preload := PreloadLoading track_id loader |>);;
      match r with
      | Some (Ok loaded_track) =>
          send_event (EvPreloading track_id);;
          modify (λ p, p <| preload := PreloadReady track_id loaded_track |>)
      | Some (Err _) =>
          modify (λ p, p <| preload := PreloadNone |>);;
          match state p with
          | Playing c _ | Paused c => send_event (EvUnavailable (play_request_id c) track_id)
          | _ => mret ()
          end
      | None => mret ()
      end
  | _ => mret ()
  end.

(** Whether the position is reported: the first time, when packets were
    skipped, or when playback is late by a second. *)
Definition notify_about_position (reported : option Z) (now new_stream_position_ms expected_position_ms : Z)
    (skipped : bool) : bool :=
  match reported with
  | None => true
  | Some reported_nominal_start_time =>
      (skipped &&
        match duration_checked_sub (millis new_stream_position_ms) (millis expected_position_ms) with
        | Some ahead => bool_decide (1000000000 ≤ ahead)
        | None => false
        end)
      || match checked_duration_since now reported_nominal_start_time with
         | Some lag =>
             match duration_checked_sub lag (millis new_stream_position_ms) with
             | Some lag => bool_decide (1000000000 ≤ lag)
             | None => false
             end
         | None => false
         end
  end.

Definition set_playing_times (reported : option Z) (s : PlayerState) : PlayerState :=
  match s with Playing c _ => Playing c reported | s => s end.

(** The position of a decoded packet. *)
Definition report_position (c : Current) (reported : option Z) (pos : AudioPacketPosition) : io X () :=
  t ← call now;
  (if notify_about_position reported t (position_ms pos) (stream_position_ms c) (skipped pos) then
     modify (λ p, p <| state ::= set_playing_times (instant_checked_sub t (millis (position_ms pos))) |>);;
     send_event (EvPositionCorrection (play_request_id c) (track_id c) (position_ms pos))
   else mret ());;
  p ← get;
  match position_update_interval (config p) with
  | Some interval =>
      if decide (interval < duration_since t (last_progress_update p)) then
        modify (λ p, p <| last_progress_update := t |>);;
        send_event (EvPositionChanged (play_request_id c) (track_id c) (position_ms pos))
      else mret ()
  | None => mret ()
  end.

Definition poll_playing : io X () :=
  p ← get;
  playing ← is_playing (state p);
  if (playing : bool) then
    ensure_sink_running;;
    p ← get;
    match state p with
    | Playing c reported =>
        r ← call (decoder_next_packet (decoder c));
        match r with
        | Ok result =>
            (match result with
             | Some (pos, packet) =>
                 modify (λ p, p <| state ::= set_stream_position (position_ms pos) |>);;
                 if passthrough (config p) then mret ()
                 else
                   match samples packet with
                   | Ok _ => report_position c reported pos
                   | Err _ => send_event (EvEndOfTrack (play_request_id c) (track_id c))
                   end
             | None => mret ()
             end);;
            handle_packet result (normalisation_factor c)
        | Err _ => send_event (EvEndOfTrack (play_request_id c) (track_id c))
        end
    | _ => exit
    end
  else mret ().

Definition set_suggested (s : PlayerState) : PlayerState :=
  match s with
  | Playing c t => Playing (c <| suggested_to_preload_next_track := true |>) t
  | Paused c => Paused (c <| suggested_to_preload_next_track := true |>)
  | s => s
  end.

Definition poll_suggest : io X () :=
  p ← get;
  match state p with
  | Playing c _ | Paused c =>
      if negb (suggested_to_preload_next_track c) &&
         bool_decide (duration_ms c - stream_position_ms c < PRELOAD_NEXT_TRACK_BEFORE_END_DURATION_MS) then
        available ← call (range_to_end_available (stream_loader_controller c));
        if (available : bool) then
          modify (λ p, p <| state ::= set_suggested |>);;
          send_event (EvTimeToPreloadNextTrack (play_request_id c) (track_id c))
        else mret ()
      else mret ()
  | _ => mret ()
  end.

Inductive Turn := Again | Waiting | Finished.

(** The turn after the commands; the loop goes on while a track plays and after
    a command. *)
Definition poll_rest (all_futures_completed_or_not_ready : bool) : io X Turn :=
  poll_loading;;
  poll_preload;;
  poll_playing;;
  poll_suggest;;
  p ← get;
  playing ← is_playing (state p);
  mret (if negb playing && all_futures_completed_or_not_ready then Waiting else Again).

Definition turn : io X Turn :=
  cmd ← poll_recv;
  match cmd with
  | RecvClosed => mret Finished
  | RecvCommand cmd =>
      r ← handle_command cmd;
      (match r with Ok _ => mret () | Err e => record (LError e) end);;
      poll_rest false
  | RecvPending => poll_rest true
  end.

(** ** The system: the task, its clients, and the ends of loading threads *)

Inductive Label :=
| LTurn
| LCommand (cmd : PlayerCommand)
| LDisconnect
| LThreadEnd (id : ThreadId).

(** [Player::command]: sending does nothing when the handle has been dropped. *)
Definition command (cmd : PlayerCommand) (w : World X) : World X :=
  if disconnected w then w else w <| commands ::= (λ q, q ++ [cmd]) |>.

Definition step (l : Label) : io X () :=
  match l with
  | LTurn => turn;; mret ()
  | LCommand cmd => λ w, (command cmd w, Some ())
  | LDisconnect => λ w, (w <| disconnected := true |>, Some ())
  | LThreadEnd id => modify (λ p, p <| load_handles ::= (.∖ {[id]}) |>)
  end.

Fixpoint run (ls : list Label) : io X () :=
  match ls with
  | [] => mret ()
  | l :: ls => step l;; run ls
  end.

(** [PlayerInternal] as [Player::new] makes it. *)
Definition player_new (session : SessionHandle) (config : PlayerConfig) (t : Z) : PlayerInternal :=
  mkPlayer session config ∅ Stopped PreloadNone Closed None [] [F64.zero; F64.zero] [F64.zero; F64.zero] 0
    (F64.div F64.one (F64.mul (F64.of_Z 8) (normalisation_knee_db config))) false 0 t.

Definition world_new (session : SessionHandle) (config : PlayerConfig) (t : Z) (x : X) : World X :=
  mkWorld (player_new session config t) [] false x [].
End player.
