(* ===== verification/PlayerInv.v ===== *)
(** * The invariant of the player task

    The log of the task is read as a history: when the sink is open, which
    request was announced last, whether its track has been shown and whether
    the next track has been asked for.  An invariant relates the history to
    the state, for every sequence of commands and every behaviour of the sink,
    the decoders and the loading threads. *)

From S2P Require Import Prelude StdTypes Float64 Wire SpotifyId SpotifyUri Metadata Player.

Local Open Scope Z_scope.

(** ** Reading the log *)

(** The sink failed, or a command was given up because the decoder failed to
    seek. *)
Definition failed (e : Entry) : bool :=
  match e with LStart false | LStop false | LError EDecoder => true | _ => false end.
Definition healthy (l : list Entry) : Prop := Forall (λ e, failed e = false) l.

Fixpoint sink_open (l : list Entry) : bool :=
  match l with
  | [] => false
  | LStart true :: _ => true
  | LStop _ :: _ => false
  | _ :: l => sink_open l
  end.

(** The sink is started only when it is closed, and stopped and written to only
    when it is open. *)
Fixpoint sink_proper (l : list Entry) : Prop :=
  match l with
  | [] => True
  | e :: l =>
      sink_proper l ∧
      match e with
      | LStart _ => sink_open l = false
      | LStop _ | LWrite _ => sink_open l = true
      | _ => True
      end
  end.

(** The request announced last, and the number of announcements. *)
Fixpoint announced (l : list Entry) : option Z :=
  match l with
  | [] => None
  | LEvent (EvPlayRequestIdChanged id) :: _ => Some id
  | _ :: l => announced l
  end.
Fixpoint announcements (l : list Entry) : Z :=
  match l with
  | [] => 0
  | LEvent (EvPlayRequestIdChanged _) :: l => announcements l + 1
  | _ :: l => announcements l
  end.

(** The track has been shown since the last announcement; the next one has been
    asked for since a track was shown. *)
Fixpoint track_shown (l : list Entry) : bool :=
  match l with
  | [] => false
  | LEvent (EvTrackChanged _) :: _ => true
  | LEvent (EvPlayRequestIdChanged _) :: _ => false
  | _ :: l => track_shown l
  end.
Fixpoint next_suggested (l : list Entry) : bool :=
  match l with
  | [] => false
  | LEvent (EvTrackChanged _) :: _ => false
  | LEvent (EvTimeToPreloadNextTrack _ _) :: _ => true
  | _ :: l => next_suggested l
  end.

Definition event_request (e : PlayerEvent) : option Z :=
  match e with
  | EvPositionChanged id _ _ => Some id
  | e => get_play_request_id e
  end.

(** The events about a track that is playing or paused. *)
Definition about_track (e : PlayerEvent) : bool :=
  match e with
  | EvPlaying _ _ _ | EvPaused _ _ _ | EvTimeToPreloadNextTrack _ _ | EvEndOfTrack _ _
  | EvPositionCorrection _ _ _ | EvPositionChanged _ _ _ | EvSeeked _ _ _ => true
  | _ => false
  end.

(** An event fits the events before it: it carries the request that was
    announced last; it is about a track that was shown for this request; the
    next track is asked for once; and an announced request is the next number,
    or repeats the announcement. *)
Definition event_fits (e : PlayerEvent) (l : list Entry) : Prop :=
  (∀ id, event_request e = Some id → announced l = Some id) ∧
  (about_track e = true → track_shown l = true) ∧
  match e with
  | EvTimeToPreloadNextTrack _ _ => next_suggested l = false
  | EvPlayRequestIdChanged id => id = wrapu 64 (announcements l) ∨ announced l = Some id
  | _ => True
  end.
Fixpoint events_proper (l : list Entry) : Prop :=
  match l with
  | [] => True
  | e :: l => events_proper l ∧ match e with LEvent e => event_fits e l | _ => True end
  end.

(** ** The part of the state the invariant is about *)

Record View := mkView {
  v_state : PlayerState;
  v_preload : PlayerPreload;
  v_sink : SinkStatus;
  v_gen : Z;
  v_integrators : list f64;
  v_peaks : list f64;
  v_channel : nat;
  v_log : list Entry;
}.
#[export] Instance settable_View : Settable View :=
  λ r, mkView (v_state r) (v_preload r) (v_sink r) (v_gen r) (v_integrators r) (v_peaks r) (v_channel r) (v_log r).

Definition pview (p : PlayerInternal) (l : list Entry) : View :=
  mkView (state p) (preload p) (sink_status p) (play_request_id_generator p)
    (normalisation_integrators p) (normalisation_peaks p) (normalisation_channel p) l.
Definition view {X} (w : World X) : View := pview (pl w) (log w).

(** Adding an entry to the log. *)
Definition logs (e : Entry) (v : View) : View := v <| v_log ::= cons e |>.

Definition current (s : PlayerState) : option Current :=
  match s with Playing c _ | Paused c => Some c | _ => None end.

Definition preload_fresh (p : PlayerPreload) : Prop :=
  match p with PreloadLoading _ loader => terminated loader = false | _ => True end.
Definition limiter_ok (v : View) : Prop :=
  length (v_integrators v) = 2%nat ∧ length (v_peaks v) = 2%nat ∧ (v_channel v < 2)%nat.

(** The state agrees with the events sent. *)
Record linked (v : View) : Prop := {
  linked_valid : v_state v ≠ Invalid;
  linked_request : ∀ r, state_request (v_state v) = Some r → announced (v_log v) = Some r.1;
  linked_shown : ∀ c, current (v_state v) = Some c → track_shown (v_log v) = true;
  linked_suggested : ∀ c, current (v_state v) = Some c → next_suggested (v_log v) = true →
    suggested_to_preload_next_track c = true;
}.

Record base (v : View) : Prop := {
  base_sink : sink_proper (v_log v);
  base_open : v_sink v = Running ↔ sink_open (v_log v) = true;
  base_preload : preload_fresh (v_preload v);
  base_limiter : limiter_ok v;
  base_gen : v_gen v = wrapu 64 (announcements (v_log v));
  base_events : healthy (v_log v) → events_proper (v_log v);
}.

(** When nothing plays and nothing is loading, the sink is closed. *)
Definition idle_closed (v : View) : Prop :=
  match v_state v with Paused _ | Stopped => v_sink v = Closed | _ => True end.

Definition core (v : View) : Prop := base v ∧ (healthy (v_log v) → linked v).
Definition inv (v : View) : Prop := core v ∧ idle_closed v.

(** ** The invariant under single changes *)

Lemma healthy_cons e l : healthy (e :: l) ↔ failed e = false ∧ healthy l.
Proof. unfold healthy. by rewrite Forall_cons. Qed.

Lemma unhealthy_head e l : failed e = true → ¬ healthy (e :: l).
Proof. rewrite healthy_cons. intros -> [? _]. done. Qed.

(** The events after which nothing that [linked] reads has changed. *)
Definition neutral (e : PlayerEvent) : bool :=
  match e with
  | EvPlayRequestIdChanged _ | EvTrackChanged _ | EvTimeToPreloadNextTrack _ _ => false
  | _ => true
  end.

(** Between the views, no event that matters was sent. *)
Record calm (v v' : View) : Prop := {
  calm_state : v_state v' = v_state v;
  calm_preload : v_preload v' = v_preload v;
  calm_announced : announced (v_log v') = announced (v_log v);
  calm_shown : track_shown (v_log v') = track_shown (v_log v);
  calm_suggested : next_suggested (v_log v') = next_suggested (v_log v);
  calm_healthy : healthy (v_log v') → healthy (v_log v);
}.

#[export] Instance calm_refl : Reflexive calm.
Proof. by intros v. Qed.
#[export] Instance calm_trans : Transitive calm.
Proof. intros v1 v2 v3 [] []. split; (congruence || auto). Qed.

Lemma linked_calm v v' : calm v v' → linked v → linked v'.
Proof. intros [Hs _ Ha Hh Hn _] [H1 H2 H3 H4]. split; rewrite Hs, ?Ha, ?Hh, ?Hn; auto. Qed.

Lemma core_calm v v' : core v → calm v v' → base v' → core v'.
Proof. intros [_ Hl] Hc Hb. split; [done|]. intros Hh. eapply linked_calm; [done|]. by apply Hl, (calm_healthy _ _ Hc). Qed.

Lemma base_event e v :
  base v → announcements (LEvent e :: v_log v) = announcements (v_log v) →
  (healthy (v_log v) → event_fits e (v_log v)) → base (logs (LEvent e) v).
Proof.
  intros [H1 H2 H3 H4 H5 H6] Ha He. split; cbn [v_sink v_preload v_gen v_log logs set_field]; try done.
  - by rewrite Ha.
  - intros [_ Hl]%healthy_cons. split; auto.
Qed.

Lemma calm_event e v : neutral e = true → calm v (logs (LEvent e) v).
Proof. destruct e; intros [=]; split; try done; by intros [_ ?]%healthy_cons. Qed.

Lemma core_event e v :
  neutral e = true → core v → (healthy (v_log v) → linked v → event_fits e (v_log v)) → core (logs (LEvent e) v).
Proof.
  intros He Hc Hf. apply (core_calm v); [done|by apply calm_event|]. destruct Hc as [Hb Hl].
  apply base_event; [done|by destruct e|auto].
Qed.

(** Events that carry no request, and events about the current track. *)
Lemma fits_plain e l : event_request e = None → neutral e = true → event_fits e l.
Proof. intros Hr Hn. split_and!; [by rewrite Hr|by destruct e|by destruct e]. Qed.

Lemma fits_current e c v :
  linked v → current (v_state v) = Some c → event_request e = Some (play_request_id c) → neutral e = true →
  event_fits e (v_log v).
Proof.
  intros [_ Hr Hs _] Hc He Hn. split_and!; [|by intros _; eapply Hs|by destruct e].
  intros id. rewrite He. intros [= <-]. destruct (v_state v); simplify_eq/=; by apply (Hr _ eq_refl).
Qed.

Lemma fits_request e r v :
  linked v → state_request (v_state v) = Some r → event_request e = Some r.1 → neutral e = true →
  about_track e = false → event_fits e (v_log v).
Proof.
  intros [_ Hr _ _] Hs He Hn Ha. split_and!; [|by rewrite Ha|by destruct e].
  intros id. rewrite He. intros [= <-]. by apply Hr.
Qed.

(** ** Running a method on views *)

Section props.
Context {X : Type} {env : PlayerEnv X} {libm : Libm}.
Implicit Types (v : View) (w : World X).

(** From a world with view [v], the method returns a result and a view that
    satisfy [Q], or the process ends and the log has a failure.  Failures stay
    in the log. *)
Definition wpv {A} (m : io X A) (Q : A → View → Prop) (v : View) : Prop :=
  ∀ w, view w = v →
  match m w with
  | (w', Some a) => (healthy (log w') → healthy (log w)) ∧ Q a (view w')
  | (w', None) => ¬ healthy (log w')
  end.

Lemma wpv_mono {A} (m : io X A) (Q Q' : A → View → Prop) v :
  wpv m Q v → (∀ a v', (healthy (v_log v') → healthy (v_log v)) → Q a v' → Q' a v') → wpv m Q' v.
Proof. intros Hm HQ w <-. specialize (Hm w eq_refl). destruct (m w) as [w' [a|]]; [|done]. destruct Hm. auto. Qed.
Lemma wpv_ret {A} (a : A) (Q : A → View → Prop) v : Q a v → wpv (mret a) Q v.
Proof. intros H w <-. by split. Qed.
Lemma wpv_bind {A B} (m : io X A) (f : A → io X B) Q v :
  wpv m (λ a v', wpv (f a) Q v') v → wpv (m ≫= f) Q v.
Proof.
  intros H w Hw. specialize (H w Hw). unfold mbind, io_bind. destruct (m w) as [w' [a|]]; [|done].
  destruct H as [Hg H]. specialize (H w' eq_refl). destruct (f a w') as [w'' [b|]]; [|done]. destruct H. auto.
Qed.
Lemma wpv_exit {A} (Q : A → View → Prop) v : ¬ healthy (v_log v) → wpv exit Q v.
Proof. intros H w <-. exact H. Qed.
Lemma wpv_get Q v :
  (∀ p, state p = v_state v → preload p = v_preload v → sink_status p = v_sink v →
        play_request_id_generator p = v_gen v → normalisation_integrators p = v_integrators v →
        normalisation_peaks p = v_peaks v → normalisation_channel p = v_channel v → Q p v) →
  wpv get Q v.
Proof. intros H w <-. split; [done|]. by apply H. Qed.
Lemma wpv_call {A} (f : X → A * X) Q v : (∀ a, Q a v) → wpv (call f) Q v.
Proof. intros H w <-. unfold call. destruct (f (ext w)) as [a x]. split; [done|]. apply H. Qed.
Lemma wpv_record e Q v : Q () (logs e v) → wpv (record e) Q v.
Proof. intros H w <-. split; [by intros [_ ?]%healthy_cons|]. exact H. Qed.
Lemma wpv_modify f (g : View → View) Q v :
  (∀ p l, pview (f p) l = g (pview p l)) → Q () (g v) → wpv (modify f) Q v.
Proof. intros Hg H w <-. split; [done|]. unfold view. cbn. by rewrite Hg. Qed.
Lemma wpv_set_state s Q v : Q () (v <| v_state := s |>) → wpv (set_state s) Q v.
Proof. intros H. by eapply (wpv_modify _ (λ v, v <| v_state := s |>)). Qed.

Lemma wpv_send_event e Q v : Q () (logs (LEvent e) v) → wpv (send_event e) Q v.
Proof.
  intros H. unfold send_event. apply wpv_bind, wpv_record, wpv_bind, wpv_get. intros p _ _ _ _ _ _ _.
  apply wpv_bind, wpv_call. intros senders. by apply (wpv_modify _ (λ v, v)).
Qed.
Lemma wpv_callback s Q v : Q () v → wpv (callback s) Q v.
Proof.
  intros H. unfold callback. apply wpv_bind, wpv_get. intros p _ _ _ _ _ _ _.
  destruct (sink_event_callback p); [by apply wpv_call; intros []|by apply wpv_ret].
Qed.

Ltac vget := apply wpv_bind, wpv_get; intros ?p ?Hst ?Hpre ?Hsink ?Hgen ?Hint ?Hpk ?Hch.

(** ** Specifications of the methods *)

Lemma sink_stopped_spec t v :
  base v →
  wpv (ensure_sink_stopped t) (λ _ v', base v' ∧ calm v v' ∧ (t = false ∨ v_sink v = Closed → v_sink v' = Closed)) v.
Proof.
  intros Hb. pose proof Hb as [H1 H2 H3 H4 H5 H6]. unfold ensure_sink_stopped.
  apply wpv_bind, wpv_get. intros p _ _ Hs _ _ _ _. destruct (sink_status p).
  - apply wpv_bind, wpv_call. intros r. apply wpv_bind, wpv_record. destruct r; [|by apply wpv_exit, unhealthy_head].
    apply wpv_bind, (wpv_modify _ (λ v, v <| v_sink := if t then TemporarilyClosed else Closed |>)); [done|].
    apply wpv_callback. split_and!; [split|split|]; try done; cbn -[healthy]; rewrite <- ?Hs in *.
    + split; [done|]. by apply H2.
    + by destruct t.
    + intros [_ ?]%healthy_cons. split; auto.
    + by intros [_ ?]%healthy_cons.
    + by intros [->| ]; [|].
  - by apply wpv_ret.
  - destruct t; [apply wpv_ret; split_and!; try done; by rewrite <- Hs; intros []|].
    apply wpv_bind, (wpv_modify _ (λ v, v <| v_sink := Closed |>)); [done|]. apply wpv_callback.
    split_and!; [split| |]; try done. cbn. rewrite <- H2, <- Hs. done.
Qed.
(** Changing only the state keeps the base. *)
Lemma base_state s v : base v → base (v <| v_state := s |>).
Proof. by intros []. Qed.

Lemma handle_pause_spec v :
  core v →
  wpv handle_pause (λ _ v', core v' ∧ (idle_closed v → idle_closed v') ∧ v_preload v' = v_preload v ∧
    (∀ c t, v_state v' ≠ Playing c t)) v.
Proof.
  intros [Hb Hl]. unfold handle_pause. vget. rewrite Hst.
  destruct (v_state v) as [|id rid st ld|c|c t|id rid lt|] eqn:Ev; try (apply wpv_ret; split_and!; [done|done|done|congruence]).
  - apply wpv_set_state. split_and!; [split; [by apply base_state|]|done|done|done].
    intros Hh. destruct (Hl Hh) as [? H2 _ _]. rewrite Ev in H2. by split.
  - eapply wpv_mono; [by apply sink_stopped_spec|]. intros _ v' Hgr (Hb' & Hc & Hcl). split_and!.
    + by apply (core_calm v).
    + unfold idle_closed. rewrite (calm_state _ _ Hc), Ev. auto.
    + apply Hc.
    + intros ? ?. by rewrite (calm_state _ _ Hc), Ev.
  - apply wpv_bind. unfold playing_to_paused. vget. apply wpv_bind, wpv_set_state. rewrite Hst0, Ev. apply wpv_set_state.
    set (v1 := set_field v_state _ _). apply wpv_bind. eapply wpv_mono; [apply sink_stopped_spec; by repeat apply base_state|].
    intros _ v2 Hgr (Hb2 & Hc2 & Hcl). apply wpv_send_event.
    assert (Hcore : core v2).
    { apply (core_calm v1); [|done|done]. split; [by repeat apply base_state|]. intros Hh. destruct (Hl Hh) as [? H2 H3 H4].
      rewrite Ev in H2, H3, H4. by split. }
    assert (Hv2 : v_state v2 = Paused c) by apply Hc2. split_and!.
    + apply core_event; [done|done|]. intros _ Hk. by apply (fits_current _ c); rewrite ?Hv2.
    + unfold idle_closed. cbn. rewrite Hv2. auto.
    + apply Hc2.
    + intros ? ?. cbn. by rewrite Hv2.
Qed.

Lemma sink_running_spec v :
  base v →
  wpv ensure_sink_running (λ _ v', base v' ∧ v_preload v' = v_preload v ∧
    (calm v v' ∧ v_sink v' = Running ∨
     ¬ healthy (v_log v') ∧ (idle_closed v → idle_closed v') ∧ ∀ c t, v_state v' ≠ Playing c t)) v.
Proof.
  intros Hb. pose proof Hb as [H1 H2 H3 H4 H5 H6]. unfold ensure_sink_running. vget.
  destruct (decide (sink_status p = Running)) as [E|E].
  { apply wpv_ret. split_and!; [done|done|]. left. by rewrite <- Hsink. }
  assert (sink_open (v_log v) = false) by (destruct (sink_open _); [|done]; rewrite Hsink in E; by destruct E; apply H2).
  apply wpv_bind, wpv_callback, wpv_bind, wpv_call. intros r. apply wpv_bind, wpv_record. destruct r.
  - apply (wpv_modify _ (λ v, v <| v_sink := Running |>)); [done|]. split_and!; [split|done|left; split]; try done.
    + intros [_ ?]%healthy_cons. split; auto.
    + split; try done. by intros [_ ?]%healthy_cons.
  - set (v1 := logs _ _). assert (Hu : ¬ healthy (v_log v1)) by by apply unhealthy_head.
    eapply wpv_mono; [apply handle_pause_spec|].
    + split; [split|]; try done.
    + intros _ v' Hgr ([Hb' _] & Hi & Hp & Hn). split_and!; [done|done|]. right. split_and!; [tauto|done|done].
Qed.

(** After the track was shown, a calm step keeps what was announced. *)
Lemma calm_after_shown item rid v v' :
  (healthy (v_log v) → announced (v_log v) = Some rid) → calm (logs (LEvent (EvTrackChanged item)) v) v' →
  healthy (v_log v') →
  announced (v_log v') = Some rid ∧ track_shown (v_log v') = true ∧ next_suggested (v_log v') = false.
Proof.
  intros Ha [_ _ -> -> -> Hh] H. split_and!; [|done|done]. apply Ha. by apply Hh, healthy_cons in H as [_ ?].
Qed.

(** Entering [Playing] or [Paused] with a track that was announced and shown. *)
Lemma enter_current s c v :
  base v → current s = Some c →
  (healthy (v_log v) → announced (v_log v) = Some (play_request_id c) ∧ track_shown (v_log v) = true ∧ next_suggested (v_log v) = false) →
  core (v <| v_state := s |>).
Proof.
  intros Hb Hc Ha. split; [by apply base_state|]. intros (Ha1 & Hs & Hn)%Ha. destruct s; simplify_eq/=;
    split; try done; cbn; try (by intros; congruence); by intros r [= <-].
Qed.

Lemma start_playback_spec id rid lt start v :
  base v → (healthy (v_log v) → announced (v_log v) = Some rid) →
  wpv (start_playback id rid lt start)
    (λ _ v', inv v' ∧ v_preload v' = v_preload v ∧ ∃ c, current (v_state v') = Some c) v.
Proof.
  intros Hb Ha. unfold start_playback. apply wpv_bind, wpv_send_event.
  assert (Hb1 : base (logs (LEvent (EvTrackChanged (lt_audio_item lt))) v)) by by apply base_event.
  set (v1 := logs _ _) in *. vget. destruct start; apply wpv_bind.
  - eapply wpv_mono; [by apply sink_running_spec|]. intros _ v2 Hgr (Hb2 & Hp2 & Hor).
    apply wpv_bind, wpv_send_event, wpv_bind, wpv_call. intros t. apply wpv_set_state.
    assert (Hev : healthy (v_log v2) → announced (v_log v2) = Some rid ∧ track_shown (v_log v2) = true ∧ next_suggested (v_log v2) = false).
    { intros Hh. destruct Hor as [[Hc _]|[Hu _]]; [by eapply calm_after_shown|done]. }
    split_and!; [split; [|done]|done|eexists; done]. eapply enter_current; [|done|].
    + apply base_event; [done|done|]. intros (? & ? & ?)%Hev. split_and!; [|done|done]. by intros ? [= <-].
    + by intros [_ (? & ? & ?)%Hev]%healthy_cons.
  - eapply wpv_mono; [by apply sink_stopped_spec|]. intros _ v2 Hgr (Hb2 & Hc2 & Hcl).
    apply wpv_bind, wpv_set_state, wpv_send_event. split_and!; [|apply Hc2|eexists; done].
    split; [|unfold idle_closed; cbn; auto]. apply core_event; [done| |].
    + eapply enter_current; [done|done|]. by apply (calm_after_shown (lt_audio_item lt) rid v).
    + intros _ Hk. by eapply fits_current.
Qed.

(** What loading leaves: after a failed seek only the base. *)
Definition load_post (r : PlayerResult) (v : View) : Prop :=
  match r with Err EDecoder => base v ∧ idle_closed v | _ => inv v end.

Lemma base_preload_none v : base v → base (v <| v_preload := PreloadNone |>).
Proof. by intros []. Qed.

Lemma check_valid_spec v :
  inv v → (∃ c, current (v_state v) = Some c) → wpv check_valid load_post v.
Proof.
  intros Hi [c Hc]. unfold check_valid. vget. apply wpv_ret. rewrite Hst. by destruct (v_state v).
Qed.

Lemma seek_if_needed_spec d pos cur v (Q : result Z PlayerError → View → Prop) :
  (∀ n, Q (Ok n) v) → Q (Err EDecoder) v → wpv (seek_if_needed d pos cur) Q v.
Proof.
  intros Hok Herr. unfold seek_if_needed. case_decide; [by apply wpv_ret|].
  apply wpv_bind, wpv_call. intros []; by apply wpv_ret.
Qed.

Ltac base_updates := repeat (apply base_state || apply base_preload_none); done.
Ltac vpreload_none := apply wpv_bind, (wpv_modify _ (λ v, v <| v_preload := PreloadNone |>)); [done|].

Section load.
Context (id : SpotifyUri) (rid : Z) (play : bool) (pos : Z).
Implicit Types (lt : PlayerLoadedTrackData).

Lemma load_repeat_spec lt v :
  base v → (healthy (v_log v) → announced (v_log v) = Some rid) → wpv (load_repeat id rid play pos lt) load_post v.
Proof.
  intros Hb Ha. unfold load_repeat. apply wpv_bind, wpv_set_state, wpv_bind, seek_if_needed_spec.
  - intros n. vpreload_none. apply wpv_bind. eapply wpv_mono; [apply start_playback_spec; [base_updates|done]|].
    intros _ v' _ (? & _ & ?). by apply check_valid_spec.
  - apply wpv_ret. split; [base_updates|done].
Qed.

Lemma load_current_spec c v :
  base v → idle_closed v → (healthy (v_log v) → announced (v_log v) = Some rid) →
  wpv (load_current id rid play pos c) load_post v.
Proof.
  intros Hb Hi Ha. unfold load_current. apply wpv_bind, seek_if_needed_spec.
  - intros n. apply wpv_bind, wpv_set_state. vpreload_none. apply wpv_bind. eapply wpv_mono; [apply start_playback_spec; [base_updates|done]|].
    intros _ v' _ (? & _ & ?). by apply check_valid_spec.
  - by apply wpv_ret.
Qed.

Lemma load_preloaded_spec lt v :
  base v → idle_closed v → (healthy (v_log v) → announced (v_log v) = Some rid) →
  wpv (load_preloaded id rid play pos lt) load_post v.
Proof.
  intros Hb Hi Ha. unfold load_preloaded. vpreload_none. apply wpv_bind, seek_if_needed_spec.
  - intros n. apply wpv_bind. eapply wpv_mono; [apply start_playback_spec; [base_updates|done]|].
    intros _ v' _ (? & _ & _). by apply wpv_ret.
  - apply wpv_ret. split; [base_updates|done].
Qed.

Lemma load_track_spec uri pos' v (Q : Loader → View → Prop) :
  (∀ ld, terminated ld = false → Q ld (logs (LLoad uri pos') v)) → wpv (load_track uri pos') Q v.
Proof.
  intros H. unfold load_track. vget. apply wpv_bind, wpv_record, wpv_bind, wpv_call. intros t.
  apply wpv_bind, (wpv_modify _ (λ v, v)); [done|]. apply wpv_ret. by apply H.
Qed.

Lemma calm_load uri pos' v : calm v (logs (LLoad uri pos') v).
Proof. split; try done. by intros [_ ?]%healthy_cons. Qed.
Lemma base_load uri pos' v : base v → base (logs (LLoad uri pos') v).
Proof. intros []. split; try done. intros [_ ?]%healthy_cons. split; auto. Qed.

(** Entering [Loading] with the announced request. *)
Lemma enter_loading ld v :
  base v → (healthy (v_log v) → announced (v_log v) = Some rid) → inv (v <| v_state := Loading id rid play ld |>).
Proof.
  intros Hb Ha. split; [|done]. split; [by apply base_state|]. intros Hh%Ha. split; try done. by intros r [= <-].
Qed.

Lemma load_fresh_spec v :
  base v → (healthy (v_log v) → announced (v_log v) = Some rid) → wpv (load_fresh id rid play pos) load_post v.
Proof.
  intros Hb Ha. unfold load_fresh. apply wpv_bind, wpv_send_event.
  assert (Hb1 : base (logs (LEvent (EvLoading rid id pos)) v)).
  { apply base_event; [done..|]. intros Hh. split_and!; [|done|done]. intros ? [= <-]. by apply Ha. }
  assert (Ha1 : healthy (v_log (logs (LEvent (EvLoading rid id pos)) v)) → announced (v_log v) = Some rid).
  { by intros [_ ?%Ha]%healthy_cons. }
  vget. vpreload_none. apply wpv_bind. destruct (pending_loader _ _ _) as [ld|].
  - apply wpv_ret, wpv_bind, wpv_set_state, wpv_ret. by apply enter_loading; [apply base_preload_none|].
  - apply load_track_spec. intros ld _. apply wpv_bind, wpv_set_state, wpv_ret.
    apply enter_loading; [by apply base_load, base_preload_none|]. by intros [_ ?%Ha1]%healthy_cons.
Qed.

Lemma load_other_spec v :
  base v → idle_closed v → (healthy (v_log v) → announced (v_log v) = Some rid) → wpv (load_other id rid play pos) load_post v.
Proof.
  intros Hb Hi Ha. unfold load_other. vget. repeat case_match; auto using load_fresh_spec, load_preloaded_spec.
Qed.

Lemma load_dispatch_spec v :
  base v → idle_closed v → (healthy (v_log v) → announced (v_log v) = Some rid ∧ v_state v ≠ Invalid) →
  wpv (load_dispatch id rid play pos) load_post v.
Proof.
  intros Hb Hi Ha. assert (healthy (v_log v) → announced (v_log v) = Some rid) by (intros []%Ha; done).
  unfold load_dispatch. vget. destruct (state p) eqn:Ep; repeat case_decide;
    auto using load_other_spec, load_current_spec, load_repeat_spec.
  apply wpv_ret. split; [split|]; [done| |done]. intros [_ []]%Ha. congruence.
Qed.
End load.

Lemma command_load_spec id opt play pos v :
  inv v → (∀ rid, opt = Some rid → healthy (v_log v) → announced (v_log v) = Some rid) →
  wpv (handle_command_load id opt play pos) load_post v.
Proof.
  intros [[Hb Hl] Hi] Hopt. unfold handle_command_load. vget. cbn [seq_get].
  apply wpv_bind, (wpv_modify _ (λ v, v <| v_gen := wrapu 64 (play_request_id_generator p + 1) |>)); [done|].
  set (rid := default _ opt). apply wpv_bind, wpv_send_event.
  assert (Hb1 : base (logs (LEvent (EvPlayRequestIdChanged rid)) (v <| v_gen := wrapu 64 (play_request_id_generator p + 1) |>))).
  { destruct Hb as [H1 H2 H3 H4 H5 H6]. split; try done.
    - cbn. rewrite Hgen, H5. unfold wrapu. by rewrite Zplus_mod_idemp_l.
    - intros [_ Hh]%healthy_cons. split; [by apply H6|]. split_and!; [done|done|]. subst rid.
      destruct opt as [r|]; [right; by apply Hopt|left]. cbn. by rewrite Hgen, H5. }
  set (v1 := logs _ _) in *. assert (Hi1 : idle_closed v1) by done.
  assert (Hl1 : healthy (v_log v1) → announced (v_log v1) = Some rid ∧ v_state v1 ≠ Invalid)
    by by intros [_ []%Hl]%healthy_cons.
  clearbody v1. apply wpv_bind. destruct (gapless _); [by apply wpv_ret, load_dispatch_spec|].
  eapply wpv_mono; [by apply sink_stopped_spec|]. intros _ v2 Hgr (Hb2 & Hc2 & Hcl). apply load_dispatch_spec; [done| |].
  - unfold idle_closed in *. rewrite (calm_state _ _ Hc2). destruct (v_state v1); auto.
  - rewrite (calm_announced _ _ Hc2), (calm_state _ _ Hc2). auto.
Qed.

(** ** The other commands *)

Lemma inv_event e v :
  neutral e = true → inv v → (healthy (v_log v) → linked v → event_fits e (v_log v)) → inv (logs (LEvent e) v).
Proof. intros ? [? ?] ?. split; [by apply core_event|done]. Qed.

Lemma inv_plain e v : event_request e = None → neutral e = true → inv v → inv (logs (LEvent e) v).
Proof. intros. apply inv_event; [done..|]. intros _ _. by apply fits_plain. Qed.

(** Replacing the current track data by data of the same request. *)
Definition same_track (c c' : Current) : Prop :=
  play_request_id c' = play_request_id c ∧
  (suggested_to_preload_next_track c = true → suggested_to_preload_next_track c' = true).

Definition same_kind (s s' : PlayerState) : Prop :=
  match s, s' with
  | Playing c _, Playing c' _ | Paused c, Paused c' => same_track c c'
  | s, s' => s = s' ∧ current s = None
  end.

Lemma inv_same_kind s v : same_kind (v_state v) s → inv v → inv (v <| v_state := s |>).
Proof.
  intros Hk [[Hb Hl] Hi]. split.
  - split; [by apply base_state|]. intros [H1 H2 H3 H4]%Hl.
    destruct (v_state v) eqn:E, s; simpl in Hk; destruct Hk as [Hk1 Hk2]; simplify_eq; split; cbn; try done;
      try (intros r [= <-]; cbn; rewrite Hk1; by apply (H2 _ eq_refl)); try (by intros ? _; eapply H3);
      intros ? [= <-] Hn; by eapply Hk2, H4.
  - unfold idle_closed in *. cbn. destruct (v_state v) eqn:E, s; simpl in Hk; destruct Hk; by simplify_eq.
Qed.

Lemma handle_pause_inv v : inv v → wpv handle_pause (λ _, inv) v.
Proof. intros [Hc Hi]. eapply wpv_mono; [by apply handle_pause_spec|]. intros _ v' _ (? & ? & _ & _). split; auto. Qed.

(** Running the sink in the playing state. *)
Lemma sink_running_inv c t v :
  inv v → v_state v = Playing c t →
  wpv ensure_sink_running (λ _ v', inv v' ∧ 
    (v_state v' = Playing c t ∧ v_sink v' = Running ∨ ¬ healthy (v_log v') ∧ ∀ c t, v_state v' ≠ Playing c t)) v.
Proof.
  intros [[Hb Hl] Hi] Hv. eapply wpv_mono; [by apply sink_running_spec|].
  intros _ v' Hgr (Hb' & _ & [[Hc Hr]|(Hu & Hi' & Hn)]).
  - split; [|left; split; [by rewrite (calm_state _ _ Hc)|done]]. split; [by apply (core_calm v)|].
    unfold idle_closed. by rewrite (calm_state _ _ Hc), Hv.
  - split; [|by right]. split; [by split|auto].
Qed.

Lemma handle_play_inv v : inv v → wpv handle_play (λ _, inv) v.
Proof.
  intros Hv. pose proof Hv as [[Hb Hl] Hi]. unfold handle_play. vget. rewrite Hst.
  destruct (v_state v) as [|id rid st ld|c|c t|id rid lt|] eqn:Ev; try by apply wpv_ret.
  - apply wpv_set_state. split; [|done]. split; [by apply base_state|]. intros [? H2 _ _]%Hl. rewrite Ev in H2. by split.
  - apply wpv_bind. unfold paused_to_playing. vget. apply wpv_bind, wpv_set_state. rewrite Hst0, Ev.
    apply wpv_bind, wpv_call. intros t. apply wpv_set_state, wpv_bind, wpv_send_event.
    set (v1 := v <| v_state := Invalid |> <| v_state := Playing c _ |>).
    assert (Hv1 : inv v1).
    { split; [|done]. split; [by repeat apply base_state|]. intros [? H2 H3 H4]%Hl. rewrite Ev in H2, H3, H4. by split. }
    eapply wpv_mono; [eapply sink_running_inv; [|done]|by intros _ v' _ [? _]].
    apply inv_event; [done..|]. intros _ Hk. by eapply fits_current.
Qed.

Lemma handle_stop_inv v : inv v → wpv handle_player_stop (λ _, inv) v.
Proof.
  intros Hv. pose proof Hv as [[Hb Hl] Hi]. unfold handle_player_stop. vget. rewrite Hst.
  assert (Hstop : ∀ r, state_request (v_state v) = Some r →
    wpv (ensure_sink_stopped false;; send_event (EvStopped r.1 r.2);; set_state Stopped) (λ _, inv) v).
  { intros r Hr. apply wpv_bind. eapply wpv_mono; [by apply sink_stopped_spec|]. intros _ v' _ (Hb' & Hc & Hcl).
    apply wpv_bind, wpv_send_event, wpv_set_state. split; [|unfold idle_closed; cbn; auto].
    split; [|by intros ?; split]. apply base_state, core_event; [done|by apply (core_calm v)|].
    intros _ Hk. eapply fits_request; [done| |done..]. by rewrite (calm_state _ _ Hc). }
  destruct (v_state v) eqn:Ev; [by apply wpv_ret|by apply (Hstop (_, _))..|].
  apply wpv_exit. intros []%Hl. done.
Qed.

Lemma inv_preload_none v : inv v → inv (v <| v_preload := PreloadNone |>).
Proof. intros [[Hb Hl] Hi]. split; [|done]. split; [by apply base_preload_none|]. by intros []%Hl. Qed.

Lemma inv_load uri pos v : inv v → inv (logs (LLoad uri pos) v).
Proof. intros [Hc Hi]. split; [|done]. apply (core_calm v); [done|apply calm_load|]. by apply base_load, Hc. Qed.

Lemma inv_preload q v : preload_fresh q → inv v → inv (v <| v_preload := q |>).
Proof. intros Hq [[[] Hl] Hi]. split; [|done]. split; [by split|]. by intros []%Hl. Qed.

Lemma handle_preload_inv id v : inv v → wpv (handle_command_preload id) (λ _, inv) v.
Proof.
  intros Hv. unfold handle_command_preload. vget.
  match goal with |- wpv ((if ?a then _ else _) ≫= _) _ _ => destruct a end; apply wpv_bind.
  { by apply wpv_ret, wpv_ret. }
  apply (wpv_modify _ (λ v, v <| v_preload := PreloadNone |>)); [done|]. apply inv_preload_none in Hv. cbn [orb].
  match goal with |- wpv (if ?a then _ else _) _ _ => destruct a end; [by apply wpv_ret|].
  apply wpv_bind, load_track_spec. intros ld Hld.
  apply (wpv_modify _ (λ v, v <| v_preload := PreloadLoading id ld |>)); [done|]. by apply inv_preload, inv_load.
Qed.

Lemma same_kind_refl s : same_kind s s.
Proof. by destruct s. Qed.

Lemma preload_data_inv v : inv v → wpv preload_data_before_playback (λ r v', inv v' ∧ r ≠ Err EDecoder) v.
Proof.
  intros Hv. unfold preload_data_before_playback. vget. destruct (state p); try by apply wpv_ret.
  apply wpv_bind, wpv_call. intros []; by apply wpv_ret.
Qed.

Lemma current_set_stream n s :
  current (set_stream_position n s) = (λ c, c <| stream_position_ms := n |>) <$> current s.
Proof. by destruct s. Qed.

Lemma seek_decoder_inv d pos v : inv v → wpv (seek_decoder d pos) (λ _, inv) v.
Proof.
  intros Hv. unfold seek_decoder. apply wpv_bind, wpv_call. intros [n|]; [|by apply wpv_ret]. vget.
  assert (Hgo : ∀ c, current (v_state v) = Some c →
    wpv (modify (λ p, p <| state ::= set_stream_position n |>);; send_event (EvSeeked (play_request_id c) (track_id c) n)) (λ _, inv) v).
  { intros c Hc. apply wpv_bind, (wpv_modify _ (λ v, v <| v_state ::= set_stream_position n |>)); [done|]. apply wpv_send_event.
    apply inv_event; [done| |].
    - apply inv_same_kind; [|done]. by destruct (v_state v).
    - intros _ Hk. apply (fits_current _ (c <| stream_position_ms := n |>)); [done| |done..].
      cbn. by rewrite current_set_stream, Hc. }
  rewrite Hst. destruct (v_state v) eqn:E; first [by apply wpv_ret | by apply Hgo].
Qed.

Lemma state_decoder_spec s Q v :
  (healthy (v_log v) → s ≠ Invalid) → (∀ d, Q d v) → wpv (state_decoder s) Q v.
Proof. intros Hs HQ. destruct s; try by apply wpv_ret. apply wpv_exit. intros Hh. by destruct (Hs Hh). Qed.

Lemma is_playing_spec s Q v :
  (healthy (v_log v) → s ≠ Invalid) → (∀ c t, s = Playing c t → Q true v) → Q false v → wpv (is_playing s) Q v.
Proof.
  intros Hs Ht Hf. destruct s; try by apply wpv_ret; eauto. apply wpv_exit. intros Hh. by destruct (Hs Hh).
Qed.

Lemma inv_valid v : inv v → healthy (v_log v) → v_state v ≠ Invalid.
Proof. by intros [[_ Hl] _] []%Hl. Qed.

Lemma seek_loaded_inv pos v : inv v → wpv (seek_loaded pos) load_post v.
Proof.
  intros Hv. unfold seek_loaded. vget. apply wpv_bind, state_decoder_spec.
  { rewrite Hst. by apply inv_valid. }
  intros d. apply wpv_bind. apply (wpv_mono _ (λ _, inv)).
  { destruct d; [by apply seek_decoder_inv|by apply wpv_ret]. }
  intros _ v1 _ Hv1. apply wpv_bind. eapply wpv_mono; [by apply preload_data_inv|].
  intros r v2 _ [Hv2 Hr]. destruct r as [|[]]; try by apply wpv_ret. vget. apply wpv_bind.
  destruct (state p0); try by apply wpv_ret, wpv_ret. apply wpv_bind, wpv_call. intros t'.
  apply (wpv_modify _ (λ v, v <| v_state ::= set_nominal_start t' pos |>)); [done|]. apply wpv_ret.
  apply inv_same_kind; [|done]. by destruct (v_state v2).
Qed.

Lemma handle_seek_spec pos v : inv v → wpv (handle_command_seek pos) load_post v.
Proof.
  intros Hv. pose proof Hv as [[Hb Hl] Hi]. unfold handle_command_seek. vget. rewrite Hst.
  destruct (v_state v) eqn:Ev; try by apply seek_loaded_inv.
  apply command_load_spec; [done|]. intros r [= <-] [_ H2 _ _]%Hl. rewrite Ev in H2. by apply (H2 _ eq_refl).
Qed.

Lemma handle_filter_inv filter v : inv v → wpv (handle_filter_explicit filter) (λ _, inv) v.
Proof.
  intros Hv. unfold handle_filter_explicit. apply wpv_bind, wpv_send_event.
  set (v1 := logs _ _). assert (Hv1 : inv v1) by by apply inv_plain. clearbody v1.
  destruct filter; [|by apply wpv_ret]. vget. rewrite Hst.
  destruct (v_state v1) eqn:E; try by apply wpv_ret.
  all: destruct (is_explicit c); [|by apply wpv_ret]; apply wpv_send_event, inv_event; [done..|];
    intros _ Hk; eapply fits_current; [done|by rewrite E|done..].
Qed.

Lemma wpv_returns (m : io X ()) v : wpv m (λ _, inv) v → wpv (returns m) load_post v.
Proof. intros H. unfold returns. apply wpv_bind. eapply wpv_mono; [exact H|]. intros [] v' _ Hv. by apply wpv_ret. Qed.

Lemma handle_command_spec cmd v : inv v → wpv (handle_command cmd) load_post v.
Proof.
  intros Hv. destruct cmd; cbn [handle_command];
    try (apply wpv_returns; first
      [by apply wpv_send_event, inv_plain | by apply (wpv_modify _ (λ v, v))
      |by apply handle_preload_inv | by apply handle_play_inv | by apply handle_pause_inv
      |by apply handle_stop_inv | by apply handle_filter_inv]).
  - by apply command_load_spec.
  - by apply handle_seek_spec.
Qed.

(** ** The parts of a turn *)

Lemma poll_loader_spec ld v (Q : option (result PlayerLoadedTrackData ()) * Loader → View → Prop) :
  terminated ld = false → (∀ r, Q (r, mkLoader (thread ld) (bool_decide (is_Some r))) v) → wpv (poll_loader ld) Q v.
Proof. intros Hl H. unfold poll_loader. rewrite Hl. apply wpv_bind, wpv_call. intros r. by apply wpv_ret. Qed.

Lemma poll_loading_inv v : inv v → wpv poll_loading (λ _, inv) v.
Proof.
  intros Hv. pose proof Hv as [[Hb Hl] Hi]. unfold poll_loading. vget. rewrite Hst.
  destruct (v_state v) as [|id rid st ld|c|c t|id rid lt|] eqn:Ev; try by apply wpv_ret.
  destruct (terminated ld) eqn:Et; [by apply wpv_ret|].
  assert (Ha : healthy (v_log v) → announced (v_log v) = Some rid).
  { intros [_ H2 _ _]%Hl. rewrite Ev in H2. by apply (H2 _ eq_refl). }
  apply wpv_bind, poll_loader_spec; [done|]. intros r. apply wpv_bind, wpv_set_state.
  destruct r as [[lt|]|]; [| |by apply wpv_ret, enter_loading].
  - apply wpv_bind. eapply wpv_mono; [by apply start_playback_spec; [apply base_state|]|].
    intros _ v' _ (Hv' & _ & c & Hc). vget. rewrite Hst0. destruct (v_state v'); simplify_eq/=; by apply wpv_ret.
  - apply wpv_send_event, inv_event; [done|by apply enter_loading|].
    intros _ Hk. by apply (fits_request _ (rid, id)).
Qed.

Lemma poll_preload_inv v : inv v → wpv poll_preload (λ _, inv) v.
Proof.
  intros Hv. pose proof Hv as [[Hb Hl] Hi]. unfold poll_preload. vget. rewrite Hpre.
  pose proof (base_preload _ Hb) as Hf. destruct (v_preload v) as [|id ld|] eqn:Ev; try by apply wpv_ret.
  apply wpv_bind, poll_loader_spec; [done|]. intros r.
  apply wpv_bind, (wpv_modify _ (λ v, v <| v_preload := PreloadLoading id (mkLoader (thread ld) (bool_decide (is_Some r))) |>)); [done|].
  destruct r as [[lt|]|].
  - apply wpv_bind, wpv_send_event, (wpv_modify _ (λ v, v <| v_preload := PreloadReady id lt |>)); [done|].
    change (inv (logs (LEvent (EvPreloading id)) (v <| v_preload := PreloadReady id lt |>))).
    by apply inv_plain, inv_preload.
  - apply wpv_bind, (wpv_modify _ (λ v, v <| v_preload := PreloadNone |>)); [done|].
    change (v <| v_preload := _ |> <| v_preload := PreloadNone |>) with (v <| v_preload := PreloadNone |>).
    assert (Hv1 : inv (v <| v_preload := PreloadNone |>)) by by apply inv_preload.
    rewrite Hst. destruct (v_state v) eqn:Es; try by apply wpv_ret.
    all: apply wpv_send_event, inv_event; [done..|]; intros _ Hk; eapply fits_current; [done|by cbn; rewrite Es|done..].
  - apply wpv_ret. by apply inv_preload.
Qed.

(** The playing state is the same up to the position and the time. *)
Definition plays (c : Current) (v : View) : Prop :=
  v_sink v = Running ∧ ∃ c' t, v_state v = Playing c' t ∧ play_request_id c' = play_request_id c ∧
    track_id c' = track_id c.

Lemma plays_event e c v :
  neutral e = true → event_request e = Some (play_request_id c) → inv v → plays c v →
  inv (logs (LEvent e) v) ∧ plays c (logs (LEvent e) v).
Proof.
  intros Hn He Hv (Hr & c' & t & Hs & Hid & Ht). split; [|split; [done|by exists c', t]].
  apply inv_event; [done..|]. intros _ Hk. eapply fits_current; [done|by rewrite Hs|congruence|done].
Qed.

Lemma report_position_inv c reported pos v :
  inv v → plays c v → wpv (report_position c reported pos) (λ _ v', inv v' ∧ plays c v') v.
Proof.
  intros Hv Hp. unfold report_position. apply wpv_bind, wpv_call. intros t. apply wpv_bind.
  apply (wpv_mono _ (λ _ v', inv v' ∧ plays c v')).
  - case_match; [|by apply wpv_ret].
    apply wpv_bind, (wpv_modify _ (λ v, v <| v_state ::= set_playing_times (instant_checked_sub t (millis (position_ms pos))) |>)); [done|].
    apply wpv_send_event, plays_event; [done|done| |].
    + apply inv_same_kind; [|done]. by destruct (v_state v).
    + destruct Hp as (Hr & c' & t' & Hs & ? & ?). split; [done|]. exists c'. cbn. rewrite Hs. eauto.
  - intros _ v1 _ [Hv1 Hp1]. vget. case_match; [|by apply wpv_ret]. case_decide; [|by apply wpv_ret].
    apply wpv_bind, (wpv_modify _ (λ v, v)); [done|]. by apply wpv_send_event, plays_event.
Qed.

Lemma limit_sample_ok factor volume p sample l :
  limiter_ok (pview p l) →
  ∃ s p', limit_sample factor volume p sample = Some (s, p') ∧
    limiter_ok (pview p' l) ∧ state p' = state p ∧ preload p' = preload p ∧ sink_status p' = sink_status p ∧
    play_request_id_generator p' = play_request_id_generator p.
Proof.
  intros (H1 & H2 & H3). cbn [v_integrators v_peaks v_channel pview] in *. unfold limit_sample.
  destruct (normalisation_integrators p) as [|i0 [|i1 []]] eqn:E1; try done.
  destruct (normalisation_peaks p) as [|p0 [|p1 []]] eqn:E2; try done.
  assert (normalisation_channel p = 0%nat ∨ normalisation_channel p = 1%nat) as [Ec|Ec] by lia;
    cbn; rewrite E1, E2, Ec; cbn; (eexists _, _; split; [reflexivity|]);
    unfold limiter_ok; cbn; rewrite ?E1, ?E2, ?Ec; cbn; split_and!; try done; lia.
Qed.

Lemma limit_samples_ok factor volume data p l :
  limiter_ok (pview p l) →
  ∃ d p', limit_samples factor volume p data = Some (d, p') ∧
    limiter_ok (pview p' l) ∧ state p' = state p ∧ preload p' = preload p ∧ sink_status p' = sink_status p ∧
    play_request_id_generator p' = play_request_id_generator p.
Proof.
  revert p. induction data as [|s data IH]; intros p Hp; [by eexists _, _|]. cbn [limit_samples].
  destruct (limit_sample_ok factor volume p s l Hp) as (s' & p1 & -> & Hp1 & ? & ? & ? & ?). cbn.
  destruct (IH p1 Hp1) as (d & p2 & -> & Hp2 & ? & ? & ? & ?). cbn.
  eexists _, _. split; [done|]. split_and!; [done|congruence..].
Qed.

Lemma process_samples_ok factor volume p data l :
  limiter_ok (pview p l) →
  ∃ d p', process_samples factor volume p data = Some (d, p') ∧
    limiter_ok (pview p' l) ∧ state p' = state p ∧ preload p' = preload p ∧ sink_status p' = sink_status p ∧
    play_request_id_generator p' = play_request_id_generator p.
Proof.
  intros Hp. unfold process_samples. destruct (normalisation _); [destruct (normalisation_method _)|].
  - by eexists _, _.
  - by apply limit_samples_ok.
  - by eexists _, _.
Qed.

Lemma inv_write packet v : v_sink v = Running → inv v → inv (logs (LWrite packet) v).
Proof.
  intros Hr [[[H1 H2 H3 H4 H5 H6] Hl] Hi]. split; [|done]. split; [split|]; try done.
  - split; [done|]. by apply H2.
  - intros [_ ?]%healthy_cons. split; auto.
  - intros [_ []%Hl]%healthy_cons. by split.
Qed.

(** Writing a packet, which may end in a pause. *)
Lemma write_inv packet v :
  v_sink v = Running → inv v →
  wpv (record (LWrite packet);; r ← call (sink_write packet); match r with Ok _ => mret () | Err _ => handle_pause end)
    (λ _, inv) v.
Proof.
  intros Hr Hv. apply wpv_bind, wpv_record, wpv_bind, wpv_call. pose proof (inv_write packet v Hr Hv).
  intros []; [by apply wpv_ret|by apply handle_pause_inv].
Qed.

Lemma handle_packet_inv c result factor v :
  inv v → plays c v → wpv (handle_packet result factor) (λ _, inv) v.
Proof.
  intros Hv (Hr & c' & t & Hs & Hid & Htr). pose proof Hv as [[Hb Hl] Hi]. destruct result as [[pos packet]|]; cbn [handle_packet].
  - destruct (is_empty packet); [by apply wpv_ret|]. destruct packet as [data|data]; apply wpv_bind.
    + apply wpv_bind, wpv_call. intros volume. vget.
      destruct (process_samples_ok factor volume p data (v_log v)) as (d & p' & -> & H1 & H2 & H3 & H4 & H5).
      { unfold limiter_ok. cbn. rewrite Hint, Hpk, Hch. apply Hb. }
      apply wpv_bind, (wpv_modify _ (λ v, pview p' (v_log v))); [done|]. apply wpv_ret.
      apply write_inv; [cbn; congruence|]. split; [|unfold idle_closed; cbn; rewrite H2, Hst, Hs; done].
      split; [split; cbn; try apply Hb; rewrite ?H3, ?H4, ?H5, ?Hpre, ?Hsink, ?Hgen; try apply Hb; done|].
      intros [L1 L2 L3 L4]%Hl. split; cbn; rewrite H2, Hst; done.
    + apply wpv_ret. by apply write_inv.
  - apply wpv_bind. unfold playing_to_end_of_track. vget. apply wpv_bind, wpv_set_state. rewrite Hst, Hs. apply wpv_set_state.
    vget. rewrite Hst0. cbn [v_state set_field]. apply wpv_send_event. split; [|done].
    assert (Hfit : healthy (v_log v) → event_fits (EvEndOfTrack (play_request_id c') (track_id c')) (v_log v)).
    { intros Hk%Hl. eapply fits_current; [done|by rewrite Hs|done..]. }
    apply core_event; [done| |intros Hh _; by apply Hfit]. split; [by repeat apply base_state|].
    intros [? L2 _ _]%Hl. rewrite Hs in L2. by split.
Qed.

Lemma poll_playing_inv v : inv v → wpv poll_playing (λ _, inv) v.
Proof.
  intros Hv. unfold poll_playing. vget. apply wpv_bind, is_playing_spec; [rewrite Hst; by apply inv_valid| |by apply wpv_ret].
  intros c t Hp. apply wpv_bind. eapply wpv_mono; [eapply (sink_running_inv c t); [done|by rewrite <- Hst]|].
  intros _ v1 Hgr [Hv1 Hor]. vget. destruct Hor as [[Hs1 Hr1]|[Hu Hn]].
  2:{ rewrite Hst0. destruct (v_state v1) eqn:E; try by apply wpv_exit. by destruct (Hn c0 reported_nominal_start_time). }
  rewrite Hst0, Hs1. assert (Hpl : plays c v1) by (split; [done|by exists c, t]).
  apply wpv_bind, wpv_call. intros [result|]; [|by apply wpv_send_event, (plays_event _ c)].
  apply wpv_bind. apply (wpv_mono _ (λ _ v', inv v' ∧ plays c v')).
  2:{ intros _ v2 _ [? ?]. by eapply handle_packet_inv. }
  destruct result as [[pos packet]|]; [|by apply wpv_ret].
  apply wpv_bind, (wpv_modify _ (λ v, v <| v_state ::= set_stream_position (position_ms pos) |>)); [done|].
  assert (Hv2 : inv (v1 <| v_state ::= set_stream_position (position_ms pos) |>)).
  { apply inv_same_kind; [|done]. by destruct (v_state v1). }
  assert (Hp2 : plays c (v1 <| v_state ::= set_stream_position (position_ms pos) |>)).
  { split; [done|]. cbn. rewrite Hs1. by eexists _, _. }
  destruct (passthrough _); [by apply wpv_ret|].
  destruct (samples packet); [by apply report_position_inv|by apply wpv_send_event, plays_event].
Qed.

Lemma poll_suggest_inv v : inv v → wpv poll_suggest (λ _, inv) v.
Proof.
  intros Hv. unfold poll_suggest. vget. rewrite Hst.
  assert (Hgo : ∀ c, current (v_state v) = Some c → suggested_to_preload_next_track c = false →
    wpv (modify (λ p, p <| state ::= set_suggested |>);; send_event (EvTimeToPreloadNextTrack (play_request_id c) (track_id c))) (λ _, inv) v).
  { intros c Hc Hn. pose proof Hv as [[Hb Hl] Hi]. apply wpv_bind, (wpv_modify _ (λ v, v <| v_state ::= set_suggested |>)); [done|].
    apply wpv_send_event. split; [|unfold idle_closed in *; cbn; by destruct (v_state v)].
    split.
    - apply base_event; [by apply base_state|done|]. intros [_ L2 L3 L4]%Hl. cbn. split_and!.
      + intros id [= <-]. by destruct (v_state v); simplify_eq/=; apply (L2 _ eq_refl).
      + intros _. by eapply L3.
      + destruct (next_suggested _) eqn:E; [|done]. by rewrite (L4 c) in Hn.
    - intros [_ [L1 L2 L3 _]%Hl]%healthy_cons. split; cbn; destruct (v_state v); simplify_eq/=; try done;
        try (intros r [= <-]; by apply (L2 _ eq_refl)); intros ? [= <-]; try done; intros; by eapply L3. }
  destruct (v_state v) eqn:E; try by apply wpv_ret.
  all: destruct (suggested_to_preload_next_track c) eqn:Es; cbn [negb andb]; [by apply wpv_ret|];
    case_bool_decide; [|by apply wpv_ret]; apply wpv_bind, wpv_call; intros []; [by apply Hgo|by apply wpv_ret].
Qed.

Lemma inv_error e v : (match e with EDecoder => base v ∧ idle_closed v | _ => inv v end) → inv (logs (LError e) v).
Proof.
  assert (Hb : base v → base (logs (LError e) v)).
  { intros []. split; try done. intros [_ ?]%healthy_cons. split; auto. }
  destruct e.
  - intros [[? Hl] ?]. split; [|done]. split; [auto|]. by intros [_ []%Hl]%healthy_cons.
  - intros [? ?]. split; [|done]. split; [auto|]. by intros [? _]%healthy_cons.
  - intros [[? Hl] ?]. split; [|done]. split; [auto|]. by intros [_ []%Hl]%healthy_cons.
Qed.

Lemma poll_rest_inv b v : inv v → wpv (poll_rest b) (λ _, inv) v.
Proof.
  intros Hv. unfold poll_rest. apply wpv_bind. eapply wpv_mono; [by apply poll_loading_inv|]. intros [] v1 _ Hv1.
  apply wpv_bind. eapply wpv_mono; [by apply poll_preload_inv|]. intros [] v2 _ Hv2.
  apply wpv_bind. eapply wpv_mono; [by apply poll_playing_inv|]. intros [] v3 _ Hv3.
  apply wpv_bind. eapply wpv_mono; [by apply poll_suggest_inv|]. intros [] v4 _ Hv4. vget.
  apply wpv_bind, is_playing_spec; [rewrite Hst; by apply inv_valid|by intros; apply wpv_ret|by apply wpv_ret].
Qed.

Lemma wpv_poll_recv Q v : (∀ r, Q r v) → wpv poll_recv Q v.
Proof. intros H w <-. unfold poll_recv. destruct (commands w); by split; [|apply H]. Qed.

Lemma turn_inv v : inv v → wpv turn (λ _, inv) v.
Proof.
  intros Hv. unfold turn. apply wpv_bind, wpv_poll_recv.
  intros [| |cmd]; [by apply poll_rest_inv|by apply wpv_ret|]. apply wpv_bind.
  eapply wpv_mono; [by apply handle_command_spec|]. intros r v1 _ Hr. apply wpv_bind.
  destruct r as [|e]; [by apply wpv_ret, poll_rest_inv|]. apply wpv_record, poll_rest_inv, inv_error. by destruct e.
Qed.

Lemma step_inv l v : inv v → wpv (step l) (λ _, inv) v.
Proof.
  intros Hv. destruct l; cbn [step].
  - apply wpv_bind. eapply wpv_mono; [by apply turn_inv|]. intros a v' _ Hv'. by apply wpv_ret.
  - intros w <-. unfold command. destruct (disconnected w); by split.
  - by intros w <-.
  - by apply (wpv_modify _ (λ v, v)).
Qed.

Lemma player_run_inv ls v : inv v → wpv (run ls) (λ _, inv) v.
Proof.
  revert v. induction ls as [|l ls IH]; intros v Hv; [by apply wpv_ret|]. cbn [run]. apply wpv_bind.
  eapply wpv_mono; [by apply step_inv|]. intros [] v' _ Hv'. by apply IH.
Qed.

Lemma new_inv s cfg t (x : X) : inv (view (world_new s cfg t x)).
Proof.
  split; [|done]. split; [|by intros _; split]. split; try done. unfold limiter_ok. cbn. lia.
Qed.


(** A run from the start ends the process only after a failure, and leaves the
    invariant otherwise. *)
Lemma run_new_inv ls s cfg t (x : X) :
  match run ls (world_new s cfg t x) with
  | (w, Some _) => inv (view w)
  | (w, None) => ¬ healthy (log w)
  end.
Proof.
  pose proof (player_run_inv ls _ (new_inv s cfg t x) _ eq_refl) as H.
  destruct (run ls (world_new s cfg t x)) as [w [a|]]; [apply H|exact H].
Qed.
End props.
