(* ===== verification/PlayerProps.v ===== *)
(** * What the player task guarantees

    Theorems about every run of the player task, from its start and with any
    environment: when the process ends, what the events say, how the sink is
    used, and how a load completes.  A scripted environment runs examples. *)

From S2P Require Import Prelude StdTypes Float64 Wire SpotifyId SpotifyUri Metadata Player PlayerInv.

Local Open Scope Z_scope.

Section theorems.
Context {X : Type} {env : PlayerEnv X} {libm : Libm}.
Implicit Types (v : View) (w : World X).

#[local] Ltac vget := apply wpv_bind, wpv_get; intros ?p ?Hst ?Hpre ?Hsink ?Hgen ?Hint ?Hpk ?Hch.

(** ** Completion of a load *)

(** The track data a load puts into the state. *)
Definition current_of (id : SpotifyUri) (rid : Z) (lt : PlayerLoadedTrackData) (c : Current) : Prop :=
  track_id c = id ∧ play_request_id c = rid ∧ loaded_of c = lt ∧ suggested_to_preload_next_track c = false.

Definition started (start : bool) (id : SpotifyUri) (rid : Z) (lt : PlayerLoadedTrackData) (s : PlayerState) : Prop :=
  match s with
  | Playing c _ => start = true ∧ current_of id rid lt c
  | Paused c => start = false ∧ current_of id rid lt c
  | _ => False
  end.

Lemma start_playback_started id rid lt start v :
  base v → wpv (start_playback id rid lt start) (λ _ v', started start id rid lt (v_state v')) v.
Proof.
  intros Hb. unfold start_playback. apply wpv_bind, wpv_send_event.
  assert (Hb1 : base (logs (LEvent (EvTrackChanged (lt_audio_item lt))) v)) by by apply base_event.
  vget. destruct start; apply wpv_bind.
  - eapply wpv_mono; [by apply sink_running_spec|]. intros _ v2 _ _.
    apply wpv_bind, wpv_send_event, wpv_bind, wpv_call. intros t. apply wpv_set_state. by destruct lt.
  - eapply wpv_mono; [by apply sink_stopped_spec|]. intros _ v2 _ _.
    apply wpv_bind, wpv_set_state, wpv_send_event. by destruct lt.
Qed.

(** While a track loads, play and pause only set the flag. *)
Definition play_pause (b : bool) : PlayerCommand := if b then Play else Pause.

Fixpoint handle_commands (cmds : list PlayerCommand) : io X () :=
  match cmds with
  | [] => mret ()
  | cmd :: cmds => handle_command cmd;; handle_commands cmds
  end.

Lemma loading_play_pause bs id rid st ld w :
  state (pl w) = Loading id rid st ld →
  ∃ p, handle_commands (play_pause <$> bs) w = (w <| pl := p |>, Some ()) ∧
    pview p (log w) = view w <| v_state := Loading id rid (default st (last bs)) ld |>.
Proof.
  revert st w. induction bs as [|b bs IH]; intros st w Hw.
  - exists (pl w). destruct w as [p q d x l], p; cbn in *. by subst.
  - set (w1 := w <| pl ::= (λ p, p <| state := Loading id rid b ld |>) |>).
    assert (Hb : handle_command (play_pause b) w = (w1, Some (Ok ()))).
    { destruct b; cbv [handle_command play_pause returns handle_play handle_pause mbind io_bind get]; by rewrite Hw. }
    destruct (IH b w1 eq_refl) as (p & Hp & Hv). exists p. cbn [fmap list_fmap handle_commands].
    unfold mbind at 1, io_bind at 1. rewrite Hb. split; [exact Hp|]. etrans; [exact Hv|].
    assert (default st (last (b :: bs)) = default b (last bs)) as ->; [|done].
    by rewrite last_cons; destruct (last bs).
Qed.

(** The loader answers: the track starts as the flag says. *)
Lemma poll_loading_ready id rid start ld lt x w :
  state (pl w) = Loading id rid start ld → terminated ld = false →
  thread_answer (thread ld) (ext w) = (Some (Ok lt), x) → base (view w) →
  match poll_loading w with
  | (w', Some _) => started start id rid lt (state (pl w'))
  | (w', None) => ¬ healthy (log w')
  end.
Proof.
  intros Hs Ht Ha Hb.
  set (w1 := w <| ext := x |> <| pl ::= (λ p, p <| state := Loading id rid start (mkLoader (thread ld) true) |>) |>).
  set (m := (start_playback id rid lt start;; p ← get; match state p with Loading _ _ _ _ => exit | _ => mret () end) : io X ()).
  assert (poll_loading w = m w1) as -> by (cbv [poll_loading poll_loader mbind io_bind get call]; by rewrite Hs, Ht, Ha).
  assert (H : wpv m (λ _ v', started start id rid lt (v_state v')) (view w1)).
  { apply wpv_bind. eapply wpv_mono; [apply start_playback_started; by apply (base_state _ (view w))|].
    intros [] v' _ H. cbv beta in H. vget. rewrite Hst.
    destruct (v_state v') eqn:E; try done; apply wpv_ret; by rewrite E. }
  specialize (H w1 eq_refl). destruct (m w1) as [w' [[]|]]; [apply H|exact H].
Qed.

(** ** Theorems *)

(** C2: Whatever commands arrive and whatever the sink, the decoders, the
    listeners and the loading threads do, the player task ends the process, by
    [exit] or by a panic, only after the sink failed to start or to stop or a
    load was given up because the decoder failed to seek.  In particular no
    completed future is polled, no array is indexed out of range, and no state
    transition is attempted from the wrong state. *)
Theorem player_exits_on_failure ls s cfg t (x : X) w :
  run ls (world_new s cfg t x) = (w, None) → ∃ e, e ∈ log w ∧ failed e = true.
Proof.
  intros E. pose proof (run_new_inv ls s cfg t x) as H. rewrite E in H.
  apply not_Forall_Exists in H; [|apply _]. apply Exists_exists in H as (e & He & Hf). exists e. split; [done|].
  destruct (failed e) eqn:Ee; [done|]. by destruct Hf.
Qed.

(** C3: As long as the sink did not fail to start or stop and the decoder did
    not fail to seek, the events tell a consistent story: every
    event with a request number carries the number announced last, which is
    also the one of the state; tracks are shown before anything is said about
    them; the next track is asked for at most once per track; and announced
    numbers are drawn in order, or repeat the announcement. *)
Theorem player_events ls s cfg t (x : X) w :
  run ls (world_new s cfg t x) = (w, Some ()) → healthy (log w) →
  events_proper (log w) ∧ state (pl w) ≠ Invalid ∧
  (∀ r, state_request (state (pl w)) = Some r → announced (log w) = Some r.1).
Proof.
  intros E Hh. pose proof (run_new_inv ls s cfg t x) as H. rewrite E in H. destruct H as [[Hb Hl] _].
  split; [by apply (base_events _ Hb)|]. by destruct (Hl Hh).
Qed.

(** C31: The sink is started only when it is closed, and stopped and written to
    only while it is open, also when it fails; the task always knows whether it
    is open; and it is closed whenever playback is stopped or paused. *)
Theorem player_sink ls s cfg t (x : X) w :
  run ls (world_new s cfg t x) = (w, Some ()) →
  sink_proper (log w) ∧ (sink_status (pl w) = Running ↔ sink_open (log w) = true) ∧
  (match state (pl w) with Paused _ | Stopped => sink_status (pl w) = Closed | _ => True end).
Proof.
  intros E. pose proof (run_new_inv ls s cfg t x) as H. rewrite E in H. destruct H as [[[] _] ?]. done.
Qed.

(** While a track loads, the last of the play and pause commands decides.
    When the loader answers, the track is in the state with the data loaded,
    playing or paused accordingly, unless the sink failed. *)
Lemma load_completes bs id rid st ld lt x w :
  inv (view w) → state (pl w) = Loading id rid st ld → terminated ld = false →
  thread_answer (thread ld) (ext w) = (Some (Ok lt), x) →
  match (handle_commands (play_pause <$> bs);; poll_loading) w with
  | (w', Some _) => started (default st (last bs)) id rid lt (state (pl w'))
  | (w', None) => ¬ healthy (log w')
  end.
Proof.
  intros [[Hb _] _] Hs Ht Ha. destruct (loading_play_pause bs id rid st ld w Hs) as (p & Hp & Hv).
  unfold mbind, io_bind. rewrite Hp. eapply poll_loading_ready; [|done|done|].
  - by apply (f_equal v_state) in Hv.
  - unfold view at 1. cbn. rewrite Hv. by apply base_state.
Qed.

(** Basic normalisation never amplifies. *)
Lemma basic_factor_bounded config data :
  normalisation_method config = Basic → F64.gtb (get_factor config data) F64.one = false.
Proof.
  intros Hm. unfold get_factor. destruct (normalisation config); [|by vm_compute].
  destruct (if decide _ then _ else _) as [gain peak]. rewrite decide_True by done. cbv zeta.
  destruct (F64.gtb (F64.min _ _) PCM_AT_0DBFS) eqn:E; [by vm_compute|exact E].
Qed.
End theorems.

(** ** A scripted environment *)

(** Answers are taken from lists; at their end the sink works, seeks go where
    asked, tracks load at once and are at their end. *)
Record Script := mkScript {
  s_starts : list bool;
  s_seeks : list (result Z ());
  s_packets : list (result (option (AudioPacketPosition * AudioPacket)) ());
  s_answers : list (option (result PlayerLoadedTrackData ()));
  s_callbacks : list SinkStatus;
}.
#[export] Instance settable_Script : Settable Script :=
  λ r, mkScript (s_starts r) (s_seeks r) (s_packets r) (s_answers r) (s_callbacks r).

Definition example_id : SpotifyUri := Track (mkSpotifyId 5).
Definition example_item : AudioItem :=
  mkAudioItem example_id "spotify:track:0" ∅ "name" [] [] 180000 false (Ok ()) None (UEpisode "d" 0 "show").
Definition example_track : PlayerLoadedTrackData :=
  mkLoaded 1 NormalisationData_default 1 example_item 40000 180000 0 false.

#[local] Instance script_env : PlayerEnv Script := {|
  now := λ x, (0, x);
  sink_start := λ x, (if default true (head (s_starts x)) then Ok () else Err (), x <| s_starts ::= tail |>);
  sink_stop := λ x, (Ok (), x);
  sink_write := λ _ x, (Ok (), x);
  decoder_seek := λ _ pos x, (default (Ok pos) (head (s_seeks x)), x <| s_seeks ::= tail |>);
  decoder_next_packet := λ _ x, (default (Ok None) (head (s_packets x)), x <| s_packets ::= tail |>);
  attenuation_factor := λ x, (F64.one, x);
  range_to_end_available := λ _ x, (true, x);
  fetch_next_and_wait := λ _ _ _ x, (Ok (), x);
  read_ahead_during_playback := Duration_from_secs 5;
  event_send := λ _ _ x, (true, x);
  run_callback := λ _ s x, x <| s_callbacks ::= cons s |>;
  spawn_loader := λ _ _ _ _ x, (7%nat, x);
  thread_answer := λ _ x, (default (Some (Ok example_track)) (head (s_answers x)), x <| s_answers ::= tail |>);
|}.

#[local] Instance unit_libm : Libm :=
  {| powf := λ _ _, F64.one; powi := λ _ _, F64.one; log10 := λ _, F64.zero; exp := λ _, F64.one; ln := λ _, F64.zero |}.

Definition example_config : PlayerConfig :=
  mkConfig Bitrate160 true false false NAuto Dynamic F64.zero F64.zero F64.zero F64.zero F64.one None.

Definition packet_at (ms : Z) : result (option (AudioPacketPosition * AudioPacket)) () :=
  Ok (Some (mkPosition ms false, Samples [F64.one; F64.zero])).

Abbreviation example_run ls x := (@run _ script_env unit_libm ls (world_new 0 example_config 0 x)).

(** Load, play two packets, pause, resume, reach the end, repeat. *)
Definition example_labels : list Label :=
  [LCommand (Load example_id true 0); LTurn; LTurn; LCommand Pause; LTurn; LCommand Play; LTurn; LTurn;
   LCommand (Load example_id false 0); LTurn].
Definition example_script : Script := mkScript [] [] [packet_at 0; packet_at 160000; packet_at 160050] [] [].
Definition start_labels : list Label := [LCommand (Load example_id true 0); LTurn].

(** The worlds in which the examples end. *)
Abbreviation example_world := ((example_run example_labels example_script).1).
Abbreviation failed_world := ((example_run start_labels (mkScript [false; false] [] [] [] [])).1).
Abbreviation loading_world := ((example_run start_labels (mkScript [] [] [] [None] [])).1).

Lemma example_runs :
  (example_run example_labels example_script).2 = Some () ∧
  (example_run start_labels (mkScript [false; false] [] [] [] [])).2 = None ∧
  (example_run start_labels (mkScript [] [] [] [None] [])).2 = Some () ∧
  forallb (λ e, negb (failed e)) (log example_world) = true.
Proof. by vm_compute. Qed.

Lemma example_healthy : healthy (log example_world).
Proof.
  unfold healthy. apply Forall_forall. intros e He. destruct example_runs as (_ & _ & _ & Hb).
  rewrite forallb_forall in Hb. apply list_elem_of_In, Hb in He. by destruct (failed e).
Qed.

Lemma pair_eta_2 {A B} (p : A * B) b : p.2 = b → p = (p.1, b).
Proof. destruct p. by intros <-. Qed.

Lemma player_exits_on_failure_witness :
  example_run start_labels (mkScript [false; false] [] [] [] []) = (failed_world, None) ∧
  ∃ e, e ∈ log failed_world ∧ failed e = true.
Proof.
  destruct example_runs as (_ & Hr & _). apply pair_eta_2 in Hr. split; [exact Hr|].
  exact (@player_exits_on_failure _ script_env unit_libm _ _ _ _ _ _ Hr).
Defined.

Lemma player_events_witness :
  example_run example_labels example_script = (example_world, Some ()) ∧ healthy (log example_world) ∧
  events_proper (log example_world).
Proof.
  destruct example_runs as (Hr & _). apply pair_eta_2 in Hr. split; [exact Hr|]. split; [exact example_healthy|].
  exact (proj1 (@player_events _ script_env unit_libm _ _ _ _ _ _ Hr example_healthy)).
Defined.

Lemma player_sink_witness :
  example_run example_labels example_script = (example_world, Some ()) ∧ sink_proper (log example_world).
Proof.
  destruct example_runs as (Hr & _). apply pair_eta_2 in Hr. split; [exact Hr|].
  exact (proj1 (@player_sink _ script_env unit_libm _ _ _ _ _ _ Hr)).
Defined.

(** The loader has not answered yet. *)
Lemma loading_world_facts :
  state (pl loading_world) = Loading example_id 0 true (mkLoader 7 false) ∧
  @thread_answer _ script_env 7 (ext loading_world) = (Some (Ok example_track), mkScript [] [] [] [] []) ∧
  ((handle_commands (play_pause <$> [false; true; false]);; poll_loading) loading_world).2 = Some ().
Proof. by vm_compute. Qed.

(** ** Corner cases *)

(** A sink that does not start: [handle_play] goes back to the paused state,
    but the callback was told that the sink runs, and is not told otherwise. *)
Lemma failed_start_misreported :
  match example_run [LCommand (SetSinkEventCallback (Some 1%nat)); LCommand (Load example_id false 0); LTurn; LTurn;
                     LCommand Play; LTurn] (mkScript [false] [] [] [] []) with
  | (w, Some _) => sink_status (pl w) = Closed ∧ s_callbacks (ext w) = [Running]
  | _ => False
  end.
Proof. by vm_compute. Qed.

(** Repeating a track when the decoder cannot seek to its start leaves the
    invalid state behind, which ends the process in the same turn. *)
Lemma failed_repeat_exits :
  match example_run [LCommand (Load example_id true 0); LTurn; LTurn; LCommand (Load example_id true 0); LTurn]
          (mkScript [] [Err ()] [packet_at 1000] [] []) with
  | (w, None) => state (pl w) = Invalid ∧ sink_status (pl w) = Running
  | _ => False
  end.
Proof. by vm_compute. Qed.

(** Loading the playing track at a position the decoder cannot seek to keeps
    the old request in the state, after the new one was announced. *)
Lemma failed_reload_keeps_request :
  match example_run [LCommand (Load example_id true 0); LTurn; LCommand (Load example_id true 5000); LTurn]
          (mkScript [] [Err ()] [packet_at 1000; packet_at 2000] [] []) with
  | (w, Some _) => announced (log w) = Some 1 ∧ state_request (state (pl w)) = Some (0, example_id)
  | _ => False
  end.
Proof. by vm_compute. Qed.

(** A packet that cannot be decoded is reported as the end of the track, with
    the track still playing: every further turn reports it again. *)
Lemma decode_error_repeats :
  match example_run [LCommand (Load example_id true 0); LTurn; LTurn; LTurn] (mkScript [] [] [Err (); Err (); Err ()] [] []) with
  | (w, Some _) =>
      omap (λ e, match e with LEvent (EvEndOfTrack r i) => Some (r, i) | _ => None end) (log w) = replicate 3 (0, example_id)
  | _ => False
  end.
Proof. by vm_compute. Qed.
