(* ===== verification/TrackLoader.v ===== *)
(** * Loading a track: [PlayerTrackLoader] of [playback/src/player.rs]

    What a loading thread does: find out about the track, choose a file, open
    it, make a decoder and seek to the start position.  The requests, the files
    and the decoders are operations on an external state. *)

From Stdlib Require Import SpecFloat.
From S2P Require Import Prelude StdTypes Float64 Digits Text SpotifyId SpotifyUri Metadata Player.

Local Open Scope Z_scope.

(** ** Normalisation data *)

Definition SPOTIFY_NORMALIZATION_HEADER_START_OFFSET : Z := 144.
Definition NORMALISATION_DATA_SIZE : Z := 16.
Definition SPOTIFY_OGG_HEADER_END : Z := 167.

(** [f32::from_le_bytes(..) as f64] of the four bytes at [i]. *)
Definition f32_at (buf : list Z) (i : nat) : f64 :=
  F64.of_f32 (f32_of_bits (eval_le 256 (take 4 (drop i buf)))).

Definition normalisation_of_bytes (buf : list Z) : NormalisationData :=
  mkNormalisationData (f32_at buf 0) (f32_at buf 4) (f32_at buf 8) (f32_at buf 12).

(** ** Formats *)

(** [f32::ceil] of a non-negative number, as [usize]. *)
Definition f32_ceil_usize (f : f32) : Z :=
  match f with
  | S754_finite false m e => Z.min usize_max (if decide (0 ≤ e) then Z.pos m * 2 ^ e else (Z.pos m + 2 ^ (- e) - 1) / 2 ^ (- e))
  | S754_infinity false => usize_max
  | _ => 0
  end.

Definition kbps (format : AudioFileFormat) : f32 :=
  match format with
  | OGG_VORBIS_96 => f32_of_Z 12
  | OGG_VORBIS_160 => f32_of_Z 20
  | OGG_VORBIS_320 => f32_of_Z 40
  | MP3_256 => f32_of_Z 32
  | MP3_320 => f32_of_Z 40
  | MP3_160 => f32_of_Z 20
  | MP3_96 => f32_of_Z 12
  | MP3_160_ENC => f32_of_Z 20
  | AAC_24 => f32_of_Z 3
  | AAC_48 => f32_of_Z 6
  | AAC_160 => f32_of_Z 20
  | AAC_320 => f32_of_Z 40
  | MP4_128 => f32_of_Z 16
  | OTHER5 => f32_of_Z 40
  | FLAC_FLAC => f32_of_Z 112
  | XHE_AAC_12 => f32_div (f32_of_Z 3) (f32_of_Z 2)
  | XHE_AAC_16 => f32_of_Z 2
  | XHE_AAC_24 => f32_of_Z 3
  | FLAC_FLAC_24BIT => f32_of_Z 3
  end.
Definition stream_data_rate (format : AudioFileFormat) : option Z :=
  Some (f32_ceil_usize (f32_mul (kbps format) (f32_of_Z 1024))).

Definition formats (b : Bitrate) : list AudioFileFormat :=
  match b with
  | Bitrate96 => [OGG_VORBIS_96; MP3_96; OGG_VORBIS_160; MP3_160; MP3_256; OGG_VORBIS_320; MP3_320]
  | Bitrate160 => [OGG_VORBIS_160; MP3_160; OGG_VORBIS_96; MP3_96; MP3_256; OGG_VORBIS_320; MP3_320]
  | Bitrate320 => [OGG_VORBIS_320; MP3_320; MP3_256; OGG_VORBIS_160; MP3_160; OGG_VORBIS_96; MP3_96]
  end.

(** [find_map] over the formats in the order of preference. *)
Fixpoint find_format (formats : list AudioFileFormat) (files : AudioFiles) : option (AudioFileFormat * FileId) :=
  match formats with
  | [] => None
  | format :: formats =>
      match files !! format with
      | Some file_id => Some (format, file_id)
      | None => find_format formats files
      end
  end.

(** ** Local files *)

(** [Path::extension]: what follows the last dot of the file name, unless the
    name has no other dot than its first character. *)
Fixpoint rsplit_dot (s : string) : option (string * string) :=
  match s with
  | EmptyString => None
  | String c s' =>
      match rsplit_dot s' with
      | Some (a, b) => Some (String c a, b)
      | None => if decide (c = "."%char) then Some (EmptyString, s') else None
      end
  end.
Definition file_name (path : string) : string := default path (last (split "/" path)).
Definition extension (path : string) : option string :=
  match rsplit_dot (file_name path) with
  | Some (EmptyString, _) | None => None
  | Some (_, ext) => Some ext
  end.

Record LocalFileMetadata := mkLocalMeta {
  lm_name : option string; lm_language : option string; lm_album : option string; lm_artists : option string;
  lm_album_artists : option string; lm_number : option Z; lm_disc_number : option Z;
}.
Definition LocalFileMetadata_default : LocalFileMetadata := mkLocalMeta None None None None None None None.

(** ** The environment of a loading thread *)

(** An opened file: a handle, whether it came from the cache, and its stream
    controller with the length of the file, when it has one. *)
Record OpenedFile := mkOpened {
  of_handle : nat;
  of_cached : bool;
  of_controller : option (StreamLoaderController * Z);
}.

Inductive HintKind := HMime (s : string) | HExtension (s : string) | HNone.

Class LoaderEnv (X : Type) := {
  audio_item_get : SpotifyUri → X → result AudioItem () * X;
  (** the answers about the alternatives, in the order they arrive *)
  alternatives_get : list SpotifyUri → X → list (result AudioItem ()) * X;
  audio_file_open : FileId → Z → X → result OpenedFile () * X;
  audio_key_request : SpotifyId → FileId → X → result (list Z) () * X;
  (** seeking and [read_exact] of the decrypted file *)
  file_seek : option (list Z) → nat → Z → X → result Z () * X;
  file_read_exact : option (list Z) → nat → Z → X → result (list Z) () * X;
  subfile_new : option (list Z) → nat → Z → Z → X → result () () * X;
  symphonia_new : HintKind → X → result Decoder () * X;
  passthrough_new : AudioFileFormat → X → result Decoder () * X;
  replaygain : Decoder → X → option NormalisationData * X;
  local_metadata : Decoder → X → option LocalFileMetadata * X;
  loader_seek : Decoder → Z → X → result Z () * X;
  cache_remove : FileId → X → option (result () ()) * X;
  set_stream_mode : StreamLoaderController → X → X;
  local_lookup : SpotifyUri → option string;
  local_open : string → X → result () () * X;
  local_size : string → X → result Z () * X;
  controller_from_local_file : Z → X → StreamLoaderController * X;
}.

(** A computation of a loading thread. *)
Definition lio (X A : Type) : Type := X → exec (A * X).
#[export] Instance lio_ret {X} : MRet (lio X) := λ A a x, Val (a, x).
#[export] Instance lio_bind {X} : MBind (lio X) := λ A B f m x,
  match m x with Val (a, x') => f a x' | Panic => Panic end.

(** [Some(a)], or an early [return None]. *)
Definition try_some {X A B} (o : option A) (k : A → lio X (option B)) : lio X (option B) :=
  match o with Some a => k a | None => mret None end.

Section loader.
Context {X : Type} {env : LoaderEnv X}.

Definition ask {A} (f : X → A * X) : lio X A := λ x, Val (f x).
Definition lift_exec {A} (m : exec A) : lio X A := λ x, a ← m; Val (a, x).

(** The first answer about an alternative that is available. *)
Definition first_available (answers : list (result AudioItem ())) : option AudioItem :=
  head (filter (λ x, result_ok (ai_availability x) = Some ()) (omap result_ok answers)).

Definition find_available_alternative (audio_item : AudioItem) : lio X (option AudioItem) :=
  match ai_availability audio_item with
  | Err _ => mret None
  | Ok _ =>
      if decide (ai_files audio_item = ∅) then
        match ai_alternatives audio_item with
        | Some alternatives => answers ← ask (alternatives_get alternatives); mret (first_available answers)
        | None => mret None
        end
      else mret (Some audio_item)
  end.

Definition parse_from_ogg (key : option (list Z)) (file : nat) : lio X (result NormalisationData ()) :=
  newpos ← ask (file_seek key file SPOTIFY_NORMALIZATION_HEADER_START_OFFSET);
  match newpos with
  | Err e => mret (Err e)
  | Ok newpos =>
      if decide (newpos = SPOTIFY_NORMALIZATION_HEADER_START_OFFSET) then
        buf ← ask (file_read_exact key file NORMALISATION_DATA_SIZE);
        mret (match buf with Ok buf => Ok (normalisation_of_bytes buf) | Err e => Err e end)
      else mret (Ok NormalisationData_default)
  end.

(** The decoder; the data of ReplayGain tags is asked for when there is none. *)
Definition make_decoder (config : PlayerConfig) (passthrough_feature : bool) (format : AudioFileFormat)
    (normalisation_data : option NormalisationData) : lio X (result Decoder () * option NormalisationData) :=
  if passthrough_feature && passthrough config then
    d ← ask (passthrough_new format);
    mret (d, normalisation_data)
  else
    d ← ask (symphonia_new (match mime_type format with Some m => HMime m | None => HNone end));
    match d, normalisation_data with
    | Ok decoder, None => n ← ask (replaygain decoder); mret (d, n)
    | _, _ => mret (d, normalisation_data)
    end.

(** What a turn of the loop around the cached file ends with. *)
Inductive Attempt := Retry | Result (r : option PlayerLoadedTrackData).

(** After the decoder was made: the start position. *)
Definition seek_to_start (audio_item : AudioItem) (position_ms bytes_per_second : Z) (decoder : Decoder)
    (normalisation_data : NormalisationData) (controller : StreamLoaderController) : lio X (option PlayerLoadedTrackData) :=
  let duration_ms := ai_duration_ms audio_item in
  let position_ms := if decide (duration_ms < position_ms) then 0 else position_ms in
  r ← ask (loader_seek decoder position_ms);
  match r with
  | Err _ => mret None
  | Ok stream_position_ms =>
      ask (λ x, ((), set_stream_mode controller x));;
      mret (Some (mkLoaded decoder normalisation_data controller audio_item bytes_per_second duration_ms
                   stream_position_ms (ai_is_explicit audio_item)))
  end.

Definition attempt (config : PlayerConfig) (passthrough_feature : bool) (track_id : SpotifyId) (audio_item : AudioItem)
    (format : AudioFileFormat) (file_id : FileId) (bytes_per_second position_ms : Z) : lio X Attempt :=
  encrypted_file ← ask (audio_file_open file_id bytes_per_second);
  match encrypted_file with
  | Err _ => mret (Result None)
  | Ok encrypted_file =>
      match of_controller encrypted_file with
      | None => mret (Result None)
      | Some (controller, len) =>
          key ← ask (audio_key_request track_id file_id);
          let key := result_ok key in
          '(offset, normalisation_data) ←
            (if is_ogg_vorbis format then
               n ← parse_from_ogg key (of_handle encrypted_file);
               mret (SPOTIFY_OGG_HEADER_END, result_ok n)
             else mret (0, None));
          audio_file ← ask (subfile_new key (of_handle encrypted_file) offset len);
          match audio_file with
          | Err _ => mret (Result None)
          | Ok _ =>
              '(decoder, normalisation_data) ← make_decoder config passthrough_feature format normalisation_data;
              match decoder with
              | Ok decoder =>
                  r ← seek_to_start audio_item position_ms bytes_per_second decoder
                        (default NormalisationData_default normalisation_data) controller;
                  mret (Result r)
              | Err _ =>
                  if of_cached encrypted_file then
                    removed ← ask (cache_remove file_id);
                    mret (match removed with Some (Ok _) => Retry | _ => Result None end)
                  else mret (Result None)
              end
          end
      end
  end.

(** The loop: [None] when it has not ended after [fuel] turns. *)
Fixpoint load_loop (fuel : nat) (config : PlayerConfig) (passthrough_feature : bool) (track_id : SpotifyId)
    (audio_item : AudioItem) (format : AudioFileFormat) (file_id : FileId) (bytes_per_second position_ms : Z)
    : lio X (option (option PlayerLoadedTrackData)) :=
  match fuel with
  | O => mret None
  | S fuel =>
      r ← attempt config passthrough_feature track_id audio_item format file_id bytes_per_second position_ms;
      match r with
      | Result r => mret (Some r)
      | Retry => load_loop fuel config passthrough_feature track_id audio_item format file_id bytes_per_second position_ms
      end
  end.

(** The item to play: the track, or an alternative for it. *)
Definition find_item (track_uri : SpotifyUri) : lio X (option AudioItem) :=
  r ← ask (audio_item_get track_uri);
  match r with
  | Ok audio => find_available_alternative audio
  | Err _ => mret None
  end.

Definition load_remote_track (fuel : nat) (config : PlayerConfig) (passthrough_feature : bool) (track_uri : SpotifyUri)
    (position_ms : Z) : lio X (option (option PlayerLoadedTrackData)) :=
  match id_of_uri track_uri with
  | Err _ => mret (Some None)
  | Ok track_id =>
      item ← find_item track_uri;
      match item with
      | None => mret (Some None)
      | Some audio_item =>
          match find_format (formats (bitrate config)) (ai_files audio_item) with
          | None => mret (Some None)
          | Some (format, file_id) =>
              match stream_data_rate format with
              | None => mret (Some None)
              | Some bytes_per_second =>
                  load_loop fuel config passthrough_feature track_id audio_item format file_id bytes_per_second position_ms
              end
          end
      end
  end.

(** A division by zero panics. *)
Definition udiv (a b : Z) : exec Z := if decide (b = 0) then Panic else Val (a / b).

Definition local_item (track_uri : SpotifyUri) (uri : string) (duration_ms : Z) (path : string) (m : LocalFileMetadata) : AudioItem :=
  mkAudioItem track_uri uri ∅ (default EmptyString (lm_name m)) []
    (match lm_language m with Some val => [val] | None => [] end) duration_ms false (Ok ()) None
    (ULocal (lm_artists m) (lm_album m) (lm_album_artists m) (lm_number m) (lm_disc_number m) path).

Definition load_local_track (track_uri : SpotifyUri) (position_ms : Z) : lio X (option PlayerLoadedTrackData) :=
  match track_uri with
  | Local_ _ _ _ duration =>
      try_some (local_lookup track_uri) (λ path,
      src ← ask (local_open path);
      try_some (result_ok src) (λ _,
      decoder ← ask (symphonia_new (match extension path with Some e => HExtension e | None => HNone end));
      try_some (result_ok decoder) (λ decoder,
      normalisation_data ← ask (replaygain decoder);
      local_file_metadata ← ask (local_metadata decoder);
      pos ← ask (loader_seek decoder position_ms);
      try_some (result_ok pos) (λ stream_position_ms,
      size ← ask (local_size path);
      try_some (result_ok size) (λ file_size,
      bytes_per_second ← lift_exec (udiv file_size (as_secs duration));
      controller ← ask (controller_from_local_file file_size);
      uri ← lift_exec (to_uri track_uri);
      let duration_ms := wrapu 32 (as_millis duration) in
      mret (Some (mkLoaded decoder (default NormalisationData_default normalisation_data) controller
        (local_item track_uri uri duration_ms path (default LocalFileMetadata_default local_file_metadata))
        bytes_per_second duration_ms stream_position_ms false)))))))
  | _ => mret None
  end.

Definition load_track (fuel : nat) (config : PlayerConfig) (passthrough_feature : bool) (track_uri : SpotifyUri)
    (position_ms : Z) : lio X (option (option PlayerLoadedTrackData)) :=
  match track_uri with
  | Track _ | Episode _ => load_remote_track fuel config passthrough_feature track_uri position_ms
  | Local_ _ _ _ _ => r ← load_local_track track_uri position_ms; mret (Some r)
  | _ => mret (Some None)
  end.
End loader.

(** ** What loading guarantees *)

(** A file that was removed from the cache is not opened from it next. *)
Class LoaderLaws (X : Type) {env : LoaderEnv X} := {
  law_removed file_id bps x x' r x'' :
    cache_remove file_id x = (Some (Ok ()), x') → audio_file_open file_id bps x' = (Ok r, x'') → of_cached r = false;
}.

(** [format] is the first of the list for which there is a file. *)
Definition preferred (formats : list AudioFileFormat) (files : AudioFiles) (format : AudioFileFormat) (file_id : FileId) : Prop :=
  ∃ before after, formats = before ++ format :: after ∧ files !! format = Some file_id ∧
    Forall (λ f, files !! f = None) before.

Lemma find_format_spec formats files :
  match find_format formats files with
  | Some (format, file_id) => preferred formats files format file_id
  | None => Forall (λ f, files !! f = None) formats
  end.
Proof.
  induction formats as [|f formats IH]; simpl; [done|]. destruct (files !! f) as [id|] eqn:E; [by exists [], formats|].
  destruct (find_format formats files) as [[g id]|]; [|by constructor].
  destruct IH as (before & after & -> & ? & ?). exists (f :: before), after. split_and!; [done|done|by constructor].
Qed.

Section loader_props.
Context {X : Type} {env : LoaderEnv X}.

(** The track data of an item in a format: seeking to the position asked for,
    or to the start when it is past the end, gave its position. *)
Definition loads (audio_item : AudioItem) (bytes_per_second position_ms : Z) (lt : PlayerLoadedTrackData) : Prop :=
  lt_audio_item lt = audio_item ∧ lt_bytes_per_second lt = bytes_per_second ∧
  lt_duration_ms lt = ai_duration_ms audio_item ∧ lt_is_explicit lt = ai_is_explicit audio_item ∧
  ∃ x x', loader_seek (lt_decoder lt) (if decide (ai_duration_ms audio_item < position_ms) then 0 else position_ms) x =
    (Ok (lt_stream_position_ms lt), x').

Section attempts.
Context (config : PlayerConfig) (pf : bool) (track_id : SpotifyId) (item : AudioItem) (format : AudioFileFormat)
  (file_id : FileId) (bps pos : Z).

Lemma seek_to_start_ends d nd ctl x :
  ∃ r x', seek_to_start item pos bps d nd ctl x = Val (r, x') ∧ ∀ lt, r = Some lt → loads item bps pos lt.
Proof.
  unfold seek_to_start. cbv [mbind lio_bind ask mret lio_ret].
  destruct (loader_seek d _ x) as [[p|] x1] eqn:E; eexists _, _; (split; [reflexivity|]); [|done].
  intros lt [= <-]. split_and!; try done. by eexists _, _.
Qed.

Lemma make_decoder_ends nd x : ∃ r x', make_decoder config pf format nd x = Val (r, x').
Proof.
  unfold make_decoder. cbv [mbind lio_bind ask mret lio_ret]. destruct (_ && _).
  - destruct (passthrough_new format x). eauto.
  - destruct (symphonia_new _ x) as [[d|] x1]; [|eauto]. destruct nd; [eauto|]. destruct (replaygain d x1). eauto.
Qed.

Lemma parse_from_ogg_ends key file x : ∃ r x', parse_from_ogg key file x = Val (r, x').
Proof.
  unfold parse_from_ogg. cbv [mbind lio_bind ask mret lio_ret]. destruct (file_seek _ _ _ x) as [[n|] x1]; [|eauto].
  case_decide; [|eauto]. destruct (file_read_exact _ _ _ x1). eauto.
Qed.

(** An attempt ends; it is repeated only after the file was opened from the
    cache and removed from it. *)
Definition attempt_post (x : X) (a : Attempt) (x' : X) : Prop :=
  match a with
  | Retry =>
      (∃ r x1, audio_file_open file_id bps x = (Ok r, x1) ∧ of_cached r = true) ∧
      ∃ x2, cache_remove file_id x2 = (Some (Ok ()), x')
  | Result r => ∀ lt, r = Some lt → loads item bps pos lt
  end.

(** The attempt after the file was opened, with the data of its header. *)
Lemma attempt_decoder_ends opened ctl nd x0 x1 x :
  audio_file_open file_id bps x0 = (Ok opened, x1) →
  ∃ a x', ('(decoder, nd) ← make_decoder config pf format nd;
           match decoder with
           | Ok decoder =>
               r ← seek_to_start item pos bps decoder (default NormalisationData_default nd) ctl;
               mret (Result r)
           | Err _ =>
               if of_cached opened then
                 removed ← ask (cache_remove file_id);
                 mret (match removed with Some (Ok _) => Retry | _ => Result None end)
               else mret (Result None)
           end) x = Val (a, x') ∧ attempt_post x0 a x'.
Proof.
  intros Ho. unfold mbind at 1, lio_bind at 1. destruct (make_decoder_ends nd x) as ([d nd'] & x2 & ->).
  destruct d as [d|].
  - destruct (seek_to_start_ends d (default NormalisationData_default nd') ctl x2) as (r & x3 & E & Hr).
    unfold mbind, lio_bind. rewrite E. by eexists _, _.
  - destruct (of_cached opened) eqn:Ec; [|by eexists _, _].
    cbv [mbind lio_bind ask]. destruct (cache_remove file_id x2) as [[[[]|]|] x3] eqn:Er; (eexists _, _; split; [reflexivity|]); try done.
    split; [by eexists _, _|by eexists].
Qed.

Lemma attempt_ends x :
  ∃ a x', attempt config pf track_id item format file_id bps pos x = Val (a, x') ∧ attempt_post x a x'.
Proof.
  unfold attempt. unfold mbind at 1, lio_bind at 1, ask at 1.
  destruct (audio_file_open file_id bps x) as [[opened|] x1] eqn:Ho; [|by eexists _, _].
  destruct (of_controller opened) as [[ctl len]|]; [|by eexists _, _].
  unfold mbind at 1, lio_bind at 1, ask at 1. destruct (audio_key_request track_id file_id x1) as [key x2].
  assert (∃ o nd x3, ((if is_ogg_vorbis format then n ← parse_from_ogg (result_ok key) (of_handle opened);
       mret (SPOTIFY_OGG_HEADER_END, result_ok n) else mret (0, None)) : lio X _) x2 = Val ((o, nd), x3)) as (o & nd & x3 & E).
  { destruct (is_ogg_vorbis format); [|by eexists _, _, _].
    destruct (parse_from_ogg_ends (result_ok key) (of_handle opened) x2) as (r & x3 & E).
    unfold mbind, lio_bind. rewrite E. by eexists _, _, _. }
  unfold mbind at 1, lio_bind at 1. rewrite E. unfold mbind at 1, lio_bind at 1, ask at 1.
  destruct (subfile_new _ _ _ _ x3) as [[u|] x4]; [|by eexists _, _].
  by eapply attempt_decoder_ends.
Qed.

Lemma load_loop_ends `{!LoaderLaws X} x :
  ∃ r x', load_loop 2 config pf track_id item format file_id bps pos x = Val (Some r, x') ∧
    ∀ lt, r = Some lt → loads item bps pos lt.
Proof.
  cbn [load_loop]. unfold mbind at 1, lio_bind at 1.
  destruct (attempt_ends x) as ([|r] & x1 & -> & H1); [|by eexists _, _]. destruct H1 as [_ [x2 Hrm]].
  unfold mbind, lio_bind. destruct (attempt_ends x1) as ([|r] & x3 & -> & H3); [|by eexists _, _].
  destruct H3 as [(opened & x4 & Ho & Hc) _]. pose proof (law_removed _ _ _ _ _ _ Hrm Ho). congruence.
Qed.
End attempts.

Lemma find_item_ends uri x : ∃ r x', find_item uri x = Val (r, x').
Proof.
  unfold find_item, find_available_alternative. cbv [mbind lio_bind ask mret lio_ret].
  destruct (audio_item_get uri x) as [[item|] x1]; [|eauto]. destruct (ai_availability item); [|eauto].
  case_decide; [|eauto]. destruct (ai_alternatives item) as [l|]; [|eauto]. destruct (alternatives_get l x1). eauto.
Qed.

(** Loading a track of the service ends, after at most one more attempt
    when a cached file cannot be read.  A track that is loaded plays the file
    of the format that comes first for the configured bitrate among those there
    are, at the data rate of that format, from the position the decoder reports
    for the position asked for, or for the start when that is past the end. *)
Lemma load_remote_ends `{!LoaderLaws X} config pf uri pos x :
  ∃ r x', load_remote_track 2 config pf uri pos x = Val (Some r, x') ∧
    ∀ lt, r = Some lt → ∃ format file_id bps,
      preferred (formats (bitrate config)) (ai_files (lt_audio_item lt)) format file_id ∧
      stream_data_rate format = Some bps ∧ loads (lt_audio_item lt) bps pos lt.
Proof.
  unfold load_remote_track. destruct (id_of_uri uri) as [tid|]; [|by eexists _, _].
  unfold mbind, lio_bind. destruct (find_item_ends uri x) as ([item|] & x1 & ->); [|by eexists _, _].
  pose proof (find_format_spec (formats (bitrate config)) (ai_files item)) as Hf.
  destruct (find_format _ _) as [[format id]|]; [|by eexists _, _]. cbn [stream_data_rate].
  destruct (load_loop_ends config pf tid item format id (f32_ceil_usize (f32_mul (kbps format) (f32_of_Z 1024))) pos x1)
    as (r & x2 & E & Hr). exists r, x2. split; [exact E|]. intros lt Hlt. destruct (Hr lt Hlt) as (Hi & ? & ? & ? & ?).
  exists format, id, (f32_ceil_usize (f32_mul (kbps format) (f32_of_Z 1024))). rewrite Hi. by split_and!.
Qed.
End loader_props.

(** ** Examples *)

(** An environment with a damaged file in the cache; the state says whether it
    has been removed. *)
Definition loader_item : AudioItem :=
  mkAudioItem (Track (mkSpotifyId 5)) "spotify:track:0" {[OGG_VORBIS_96 := mkFileId [1]; MP3_160 := mkFileId [2]]}
    "name" [] [] 180000 false (Ok ()) None (UEpisode "d" 0 "show").
Definition loader_config : PlayerConfig :=
  mkConfig Bitrate160 true false false NAuto Dynamic F64.zero F64.zero F64.zero F64.zero F64.one None.
#[local] Instance damaged_cache : LoaderEnv bool := {|
  audio_item_get := λ _ x, (Ok loader_item, x);
  alternatives_get := λ _ x, ([], x);
  audio_file_open := λ _ _ x, (Ok (mkOpened 1 (negb x) (Some (3%nat, 1000))), x);
  audio_key_request := λ _ _ x, (Err (), x);
  file_seek := λ _ _ pos x, (Ok pos, x);
  file_read_exact := λ _ _ n x, (Ok (replicate (Z.to_nat n) 0), x);
  subfile_new := λ _ _ _ _ x, (Ok (), x);
  symphonia_new := λ _ x, (if x then Ok 4%nat else Err (), x);
  passthrough_new := λ _ x, (Err (), x);
  replaygain := λ _ x, (None, x);
  local_metadata := λ _ x, (None, x);
  loader_seek := λ _ pos x, (Ok pos, x);
  cache_remove := λ _ _, (Some (Ok ()), true);
  set_stream_mode := λ _ x, x;
  local_lookup := λ _, Some "/music/track.mp3"%string;
  local_open := λ _ x, (Ok (), x);
  local_size := λ _ x, (Ok 4000, x);
  controller_from_local_file := λ _ x, (5%nat, x);
|}.
#[local] Instance damaged_cache_laws : LoaderLaws bool.
Proof. split. intros file_id bps x x' r x'' [= <-] [= <- <-]. done. Qed.

(** A position past the end starts the track over, after the damaged file was
    replaced. *)
Lemma damaged_cache_loads :
  match load_track 2 loader_config false (Track (mkSpotifyId 5)) 200000 false with
  | Val (Some (Some lt), removed) => lt_stream_position_ms lt = 0 ∧ lt_bytes_per_second lt = 20480 ∧ removed = true
  | _ => False
  end.
Proof. by vm_compute. Qed.

(** ** Corner cases *)

(** A local track shorter than a second: the data rate is a division by zero. *)
Lemma short_local_track_panics :
  load_track 2 loader_config false (Local_ "artist" "album" "title" (Duration_from_secs 0)) 0 true = Panic ∧
  match load_track 2 loader_config false (Local_ "artist" "album" "title" (Duration_from_secs 2)) 0 true with
  | Val (Some (Some lt), _) => lt_bytes_per_second lt = 2000
  | _ => False
  end.
Proof. by vm_compute. Qed.
