(* ===== verification/Sinks.v ===== *)
(** * Sample conversion and sinks: [playback/src/convert.rs], [dither.rs],
    [audio_backend/mod.rs], [pipe.rs] and [subprocess.rs]

    The samples of a packet become bytes in the format of the sink, which are
    written to a pipe or to a process. *)

From S2P Require Import Prelude StdTypes Float64 Digits Text SpotifyId SpotifyUri Metadata Player PlayerInv.

Local Open Scope Z_scope.

(** ** Formats *)

Inductive AudioFormat := F64_ | F32_ | S32 | S24 | S24_3 | S16.

(** Option values are ASCII. *)
Definition to_ascii_uppercase_char (c : ascii) : ascii :=
  if decide (97 ≤ code c ≤ 122) then chr (code c - 32) else c.
Definition to_uppercase (s : string) : string := map_string to_ascii_uppercase_char s.

Definition AudioFormat_from_str (s : string) : result AudioFormat () :=
  let s := to_uppercase s in
  if decide (s = "F64"%string) then Ok F64_
  else if decide (s = "F32"%string) then Ok F32_
  else if decide (s = "S32"%string) then Ok S32
  else if decide (s = "S24"%string) then Ok S24
  else if decide (s = "S24_3"%string) then Ok S24_3
  else if decide (s = "S16"%string) then Ok S16
  else Err ().

Definition size (self : AudioFormat) : Z :=
  match self with
  | F64_ => 8
  | F32_ => 4
  | S24_3 => 3
  | S16 => 2
  | _ => 4
  end.

(** ** Dithering *)

(** The random distributions, drawn from the state of a generator. *)
Class Distributions (R : Type) := {
  sample_triangular : R → f64 * R;
  sample_normal : R → f64 * R;
  sample_uniform : R → f64 * R;
}.

Inductive Ditherer (R : Type) :=
| TriangularDitherer (rng : R)
| GaussianDitherer (rng : R)
| HighPassDitherer (active_channel : nat) (previous_noises : list f64) (rng : R).
Arguments TriangularDitherer {R} rng.
Arguments GaussianDitherer {R} rng.
Arguments HighPassDitherer {R} active_channel previous_noises rng.

Section convert.
Context {R : Type} {dist : Distributions R}.

Definition noise (d : Ditherer R) : exec (f64 * Ditherer R) :=
  match d with
  | TriangularDitherer rng => let '(n, rng) := sample_triangular rng in Val (n, TriangularDitherer rng)
  | GaussianDitherer rng => let '(n, rng) := sample_normal rng in Val (n, GaussianDitherer rng)
  | HighPassDitherer active_channel previous_noises rng =>
      let '(new_noise, rng) := sample_uniform rng in
      match previous_noises !! active_channel with
      | None => Panic
      | Some previous =>
          Val (F64.sub new_noise previous,
               HighPassDitherer (Nat.lxor active_channel 1) (<[active_channel := new_noise]> previous_noises) rng)
      end
  end.

Definition find_ditherer (name : option string) : option (R → Ditherer R) :=
  match name with
  | Some name =>
      if decide (name = "tpdf"%string) then Some TriangularDitherer
      else if decide (name = "gpdf"%string) then Some GaussianDitherer
      else if decide (name = "tpdf_hp"%string) then Some (HighPassDitherer 0 [F64.zero; F64.zero])
      else None
  | None => None
  end.

(** ** Converting samples *)

Abbreviation Converter := (option (Ditherer R)).

Definition SHIFT_S16 : Z := 15.
Definition SHIFT_S24 : Z := 23.
Definition SHIFT_S32 : Z := 31.
Definition SHIFT_16_TO_24 : Z := SHIFT_S24 - SHIFT_S16.
Definition SHIFT_16_TO_32 : Z := SHIFT_S32 - SHIFT_S16.
Definition SCALE_S24 : f64 := F64.of_Z (Z.shiftl 1 SHIFT_S24).

Definition scale (sample : f64) (shift : Z) (self : Converter) : exec (f64 * Converter) :=
  match self with
  | Some d =>
      '(n, d) ← noise d;
      let dithered_16bit := F64.add (F64.mul sample (F64.of_Z (Z.shiftl 1 SHIFT_S16))) n in
      let scaled := F64.mul dithered_16bit (F64.of_Z (Z.shiftl 1 shift)) in
      Val (F64.round scaled, Some d)
  | None =>
      let total_shift := SHIFT_S16 + shift in
      Val (F64.round (F64.mul sample (F64.of_Z (Z.shiftl 1 total_shift))), None)
  end.

Definition clamping_scale_s24 (sample : f64) (self : Converter) : exec (f64 * Converter) :=
  '(int_value, self) ← scale sample SHIFT_16_TO_24 self;
  let min := F64.opp SCALE_S24 in
  let max := F64.sub SCALE_S24 F64.one in
  Val (F64.clamp min max int_value, self).

Definition as_i16 (f : f64) : Z := F64.to_int (- 2 ^ 15) (2 ^ 15 - 1) f.
Definition as_i32 (f : f64) : Z := F64.to_int (- 2 ^ 31) (2 ^ 31 - 1) f.

(** The [map] over the samples, with the converter's state. *)
Fixpoint map_samples {A} (f : f64 → Converter → exec (A * Converter)) (samples : list f64) (self : Converter)
    : exec (list A * Converter) :=
  match samples with
  | [] => Val ([], self)
  | sample :: samples =>
      '(a, self) ← f sample self;
      '(l, self) ← map_samples f samples self;
      Val (a :: l, self)
  end.

Definition f64_to_f32 (samples : list f64) : list f32 := F64.to_f32 <$> samples.
Definition f64_to_s32 : list f64 → Converter → exec (list Z * Converter) :=
  map_samples (λ s c, '(v, c) ← scale s SHIFT_16_TO_32 c; Val (as_i32 v, c)).
Definition f64_to_s24 : list f64 → Converter → exec (list Z * Converter) :=
  map_samples (λ s c, '(v, c) ← clamping_scale_s24 s c; Val (as_i32 v, c)).
Definition f64_to_s16 : list f64 → Converter → exec (list Z * Converter) :=
  map_samples (λ s c, '(v, c) ← scale s 0 c; Val (as_i16 v, c)).

(** Little-endian bytes of a [w]-byte integer; [i24::from_s24] drops the most
    significant of four. *)
Definition int_bytes (w : nat) (v : Z) : list Z := digits_le 256 w (wrapu (8 * Z.of_nat w) v).
Definition from_s24 (sample : Z) : list Z := take 3 (int_bytes 4 sample).
Definition f64_to_s24_3 : list f64 → Converter → exec (list (list Z) * Converter) :=
  map_samples (λ s c, '(v, c) ← clamping_scale_s24 s c; Val (from_s24 (as_i32 v), c)).

(** The bytes that [sink_as_bytes] hands to [write_bytes]. *)
Definition packet_bytes (format : AudioFormat) (packet : AudioPacket) (converter : Converter)
    : exec (list Z * Converter) :=
  match packet with
  | Samples samples =>
      match format with
      | F64_ => Val (samples ≫= (λ s, int_bytes 8 (f64_to_bits s)), converter)
      | F32_ => Val (f64_to_f32 samples ≫= (λ s, int_bytes 4 (f32_to_bits s)), converter)
      | S32 => '(l, c) ← f64_to_s32 samples converter; Val (l ≫= int_bytes 4, c)
      | S24 => '(l, c) ← f64_to_s24 samples converter; Val (l ≫= int_bytes 4, c)
      | S24_3 => '(l, c) ← f64_to_s24_3 samples converter; Val (l ≫= (λ b : list Z, b), c)
      | S16 => '(l, c) ← f64_to_s16 samples converter; Val (l ≫= int_bytes 2, c)
      end
  | Raw data => Val (data, converter)
  end.
End convert.

(** ** Sinks *)

Inductive SinkError := NotConnected | ConnectionRefused | OnWrite | InvalidParams | StateChange.
#[export] Instance SinkError_eq_dec : EqDecision SinkError.
Proof. solve_decision. Defined.

(** *** The pipe *)

(** Opening, writing to and flushing a file or the standard output, which is
    [None]; what was written is kept. *)
Record StdoutSink := mkStdout { output : option nat; file : option string; st_format : AudioFormat }.

Class OutputEnv (X : Type) := {
  open_output : option string → X → result nat () * X;
  write_all : nat → list Z → X → result () () * X;
  flush_output : nat → X → result () () * X;
}.

Section pipe.
Context {X : Type} {env : OutputEnv X}.

Definition stdout_open (file : option string) (format : AudioFormat) : option (StdoutSink) :=
  if decide (file = Some "?"%string) then None else Some (mkStdout None file format).

(** [get_or_insert] takes the value of an opened output, also when there is
    one already. *)
Definition stdout_start (self : StdoutSink) (x : X) : StdoutSink * X * result () SinkError :=
  let '(r, x) := open_output (file self) x in
  match r with
  | Ok o => (mkStdout (Some (default o (output self))) (file self) (st_format self), x, Ok ())
  | Err _ => (self, x, Err ConnectionRefused)
  end.

Definition stdout_stop (self : StdoutSink) (x : X) : StdoutSink * X * result () SinkError :=
  let self' := mkStdout None (file self) (st_format self) in
  match output self with
  | None => (self', x, Err NotConnected)
  | Some o =>
      let '(r, x) := flush_output o x in
      (self', x, match r with Ok _ => Ok () | Err _ => Err OnWrite end)
  end.

Definition stdout_write_bytes (data : list Z) (self : StdoutSink) (x : X) : StdoutSink * X * result () SinkError :=
  match output self with
  | None => (self, x, Err NotConnected)
  | Some o =>
      let '(r, x) := write_all o data x in
      (self, x, match r with Ok _ => Ok () | Err _ => Err OnWrite end)
  end.
End pipe.

(** *** The process *)

(** A child process and its input, and what the system does with it: a write
    takes a part of the bytes, is interrupted, or fails. *)
Inductive WriteOutcome := Wrote (n : Z) | Interrupted | WriteFailed.

Class ProcessEnv (X : Type) := {
  split_words : string → result (list string) ();
  spawn : list string → X → result nat () * X;
  (** whether the process has exited *)
  try_wait : nat → X → result bool () * X;
  flush_stdin : nat → X → result () () * X;
  kill : nat → X → result () () * X;
  wait : nat → X → result () () * X;
  write_stdin : nat → list Z → X → WriteOutcome * X;
}.

(** The input of a child is there until [stop] takes it, with the child. *)
Record Subprocess := mkSubprocess { shell_command : option string; child : option nat; sp_format : AudioFormat }.
#[export] Instance settable_Subprocess : Settable Subprocess :=
  λ r, mkSubprocess (shell_command r) (child r) (sp_format r).

Section subprocess.
Context {X : Type} {env : ProcessEnv X}.

Definition subprocess_start (self : Subprocess) (x : X) : exec (Subprocess * X * result () SinkError) :=
  match shell_command self with
  | None => Val (self, x, Err InvalidParams)
  | Some command =>
      match split_words command with
      | Err _ => Val (self, x, Err InvalidParams)
      | Ok [] => Panic
      | Ok args =>
          let '(r, x) := spawn args x in
          match r with
          | Err _ => Val (self, x, Err ConnectionRefused)
          | Ok c => Val (self <| child := Some (default c (child self)) |>, x, Ok ())
          end
      end
  end.

Definition subprocess_stop (self : Subprocess) (x : X) : Subprocess * X * result () SinkError :=
  let self' := self <| child := None |> in
  match child self with
  | None => (self', x, Err NotConnected)
  | Some c =>
      let '(r, x) := try_wait c x in
      match r with
      | Ok true => (self', x, Ok ())
      | Ok false =>
          let '(r, x) := flush_stdin c x in
          match r with
          | Err _ => (self', x, Err OnWrite)
          | Ok _ =>
              let '(r, x) := kill c x in
              match r with
              | Err _ => (self', x, Err OnWrite)
              | Ok _ => let '(r, x) := wait c x in (self', x, match r with Ok _ => Ok () | Err _ => Err OnWrite end)
              end
          end
      | Err _ => (self', x, Err OnWrite)
      end
  end.

(** [None] when the restart is refused or fails. *)
Definition try_restart (restarted : bool) (self : Subprocess) (x : X) : exec (Subprocess * X * option bool) :=
  if restarted then Val (self, x, None)
  else
    let '(self, x, r) := subprocess_stop self x in
    match r with
    | Err _ => Val (self, x, None)
    | Ok _ =>
        '(self, x, r) ← subprocess_start self x;
        Val (self, x, match r with Ok _ => Some true | Err _ => None end)
    end.

Definition slice_bytes (a b : Z) (data : list Z) : list Z := take (Z.to_nat (b - a)) (drop (Z.to_nat a) data).

(** The loop of [write_bytes]; [None] when it has not ended after [fuel]
    turns. *)
Fixpoint write_loop (fuel : nat) (data : list Z) (start_index end_index : Z) (restarted : bool) (self : Subprocess) (x : X)
    : exec (Subprocess * X * option (result () SinkError)) :=
  match fuel with
  | O => Val (self, x, None)
  | S fuel =>
      match child self with
      | None => Val (self, x, Some (Err NotConnected))
      | Some c =>
          let data_len := Z.of_nat (length data) in
          let '(r, x) := write_stdin c (slice_bytes start_index end_index data) x in
          match r with
          | Wrote 0 | WriteFailed =>
              '(self, x, ok) ← try_restart restarted self x;
              match ok with
              | Some restarted => write_loop fuel data start_index end_index restarted self x
              | None => Val (self, x, Some (Err OnWrite))
              end
          | Wrote bytes_written =>
              let start_index := Z.min data_len (start_index + bytes_written) in
              let end_index := Z.min data_len (start_index + bytes_written) in
              if decide (end_index = data_len) then Val (self, x, Some (Ok ()))
              else write_loop fuel data start_index end_index restarted self x
          | Interrupted => write_loop fuel data start_index end_index restarted self x
          end
      end
  end.
Definition subprocess_write_bytes (fuel : nat) (data : list Z) (self : Subprocess) (x : X)
    : exec (Subprocess * X * option (result () SinkError)) :=
  write_loop fuel data 0 (Z.of_nat (length data)) false self x.
End subprocess.

(** ** Bytes per sample *)

(** [R] is the generator: the high-pass ditherer indexes two channels. *)
Definition ditherer_ok {R} (d : Ditherer R) : Prop :=
  match d with
  | HighPassDitherer active previous _ => (active < 2)%nat ∧ length previous = 2%nat
  | _ => True
  end.
Definition converter_ok {R} (c : option (Ditherer R)) : Prop :=
  match c with Some d => ditherer_ok d | None => True end.

Section convert_props.
Context {R : Type} {dist : Distributions R}.
Implicit Types (c : option (Ditherer R)).

Lemma noise_ok d : ditherer_ok d → ∃ n d', noise d = Val (n, d') ∧ ditherer_ok d'.
Proof.
  destruct d as [rng|rng|active previous rng]; simpl.
  - intros _. destruct (sample_triangular rng). by eexists _, _.
  - intros _. destruct (sample_normal rng). by eexists _, _.
  - intros [Ha Hl]. destruct (sample_uniform rng) as [n rng'].
    destruct (lookup_lt_is_Some_2 previous active ltac:(lia)) as [m ->].
    eexists _, _. split; [done|]. cbn [ditherer_ok]. rewrite length_insert. split; [|done].
    destruct active as [|[|]]; [by apply Nat.ltb_lt..|lia].
Qed.

Lemma scale_ok s shift c : converter_ok c → ∃ v c', scale s shift c = Val (v, c') ∧ converter_ok c'.
Proof.
  destruct c as [d|]; simpl; [|by eexists _, _]. intros (n & d' & -> & ?)%noise_ok. by eexists _, _.
Qed.

Lemma clamping_scale_ok s c : converter_ok c → ∃ v c', clamping_scale_s24 s c = Val (v, c') ∧ converter_ok c'.
Proof.
  intros (v & c' & E & ?)%(scale_ok s SHIFT_16_TO_24). unfold clamping_scale_s24. rewrite E. by eexists _, _.
Qed.

(** Every sample becomes [k] bytes. *)
Definition encodes (k : nat) (l : list Z) : Prop := length l = k ∧ bytes_ok l.

Lemma int_bytes_encodes w v : encodes w (int_bytes w v).
Proof. unfold int_bytes. split; [apply length_digits_le|apply digits_le_ok; lia]. Qed.

Lemma from_s24_encodes v : encodes 3 (from_s24 v).
Proof.
  unfold from_s24. destruct (int_bytes_encodes 4 v) as [Hl Hb]. split; [rewrite length_take; lia|].
  by apply Forall_take.
Qed.

(** Converting sample by sample, when each one gives [k] bytes. *)
Lemma map_samples_bytes {A} k (f : f64 → option (Ditherer R) → exec (A * option (Ditherer R))) (g : A → list Z) samples c :
  (∀ s c, converter_ok c → ∃ a c', f s c = Val (a, c') ∧ converter_ok c' ∧ encodes k (g a)) → converter_ok c →
  ∃ l c', map_samples f samples c = Val (l, c') ∧ converter_ok c' ∧
    length (l ≫= g) = (k * length samples)%nat ∧ bytes_ok (l ≫= g).
Proof.
  intros Hf. revert c. induction samples as [|s samples IH]; intros c Hc.
  { eexists [], _. split_and!; [done|done|simpl; lia|constructor]. }
  cbn [map_samples]. destruct (Hf s c Hc) as (a & c1 & -> & Hc1 & Ha1 & Ha2). rewrite exec_bind_Val.
  destruct (IH c1 Hc1) as (l & c2 & -> & Hc2 & Hl & Hb). rewrite exec_bind_Val.
  eexists (a :: l), _. split; [done|]. split; [done|]. rewrite bind_cons, length_app, Ha1, Hl.
  split; [simpl; lia|by apply Forall_app].
Qed.

Lemma encodes_bind {A} k (f : A → list Z) l : (∀ a, encodes k (f a)) → length (l ≫= f) = (k * length l)%nat ∧ bytes_ok (l ≫= f).
Proof.
  intros Hf. induction l as [|a l [IHl IHb]]; [by split; [simpl; lia|constructor]|].
  destruct (Hf a) as [Hl Hb]. rewrite bind_cons, length_app, Hl, IHl. split; [simpl; lia|by apply Forall_app].
Qed.

Lemma scaled_bytes w shift (to : f64 → Z) s c :
  converter_ok c → ∃ a c', ('(v, c) ← scale s shift c; Val (to v, c)) = Val (a, c') ∧ converter_ok c' ∧ encodes w (int_bytes w a).
Proof. intros (v & c1 & E & ?)%(scale_ok s shift). rewrite E. eexists _, _. split_and!; [done|done|apply int_bytes_encodes..]. Qed.

Lemma clamped_bytes {A} w (to : f64 → A) (g : A → list Z) s c :
  (∀ v, encodes w (g (to v))) → converter_ok c →
  ∃ a c', ('(v, c) ← clamping_scale_s24 s c; Val (to v, c)) = Val (a, c') ∧ converter_ok c' ∧ encodes w (g a).
Proof. intros Hg (v & c1 & E & ?)%(clamping_scale_ok s). rewrite E. by eexists _, _. Qed.

(** Converting the samples of a packet does not panic, with any ditherer,
    and gives for each sample as many bytes as the format says. *)
Lemma packet_bytes_size format samples c :
  converter_ok c →
  ∃ bytes c', packet_bytes format (Samples samples) c = Val (bytes, c') ∧ converter_ok c' ∧
    Z.of_nat (length bytes) = size format * Z.of_nat (length samples) ∧ bytes_ok bytes.
Proof.
  intros Hc.
  assert (Hmap : ∀ A k (f : f64 → option (Ditherer R) → exec (A * option (Ditherer R))) (g : A → list Z),
    (∀ s c, converter_ok c → ∃ a c', f s c = Val (a, c') ∧ converter_ok c' ∧ encodes k (g a)) →
    ∃ bytes c', ('(l, c) ← map_samples f samples c; Val (l ≫= g, c)) = Val (bytes, c') ∧ converter_ok c' ∧
      Z.of_nat (length bytes) = Z.of_nat k * Z.of_nat (length samples) ∧ bytes_ok bytes).
  { intros A k f g Hf. destruct (map_samples_bytes k f g samples c Hf Hc) as (l & c' & -> & Hc' & Hl & Hb).
    eexists _, _. split_and!; [done|done|lia|done]. }
  destruct format; cbn [packet_bytes size].
  - destruct (encodes_bind 8 (λ s, int_bytes 8 (f64_to_bits s)) samples) as [Hl Hb]; [intros; apply int_bytes_encodes|].
    eexists _, _. split_and!; [done|done|lia|done].
  - destruct (encodes_bind 4 (λ s, int_bytes 4 (f32_to_bits s)) (f64_to_f32 samples)) as [Hl Hb]; [intros; apply int_bytes_encodes|].
    unfold f64_to_f32 in Hl at 2. rewrite length_fmap in Hl. eexists _, _. split_and!; [done|done|lia|done].
  - apply (Hmap _ 4%nat). intros; by apply scaled_bytes.
  - apply (Hmap _ 4%nat). intros; apply clamped_bytes; [|done]. intros; apply int_bytes_encodes.
  - apply (Hmap _ 3%nat). intros; apply clamped_bytes; [|done]. intros; apply from_s24_encodes.
  - apply (Hmap _ 2%nat). intros; by apply scaled_bytes.
Qed.
End convert_props.

(** ** The pipe under the player *)

Section pipe_props.
Context {X : Type} {env : OutputEnv X} (bytes : AudioPacket → list Z).

(** The calls of a log of the player, the latest first, on the pipe: the sink
    afterwards, and the results of the calls. *)
Fixpoint pipe_run (l : list Entry) (self : StdoutSink) (x : X) : StdoutSink * X * list (Entry * result () SinkError) :=
  match l with
  | [] => (self, x, [])
  | e :: l =>
      let '(self, x, rs) := pipe_run l self x in
      match e with
      | LStart _ => let '(self, x, r) := stdout_start self x in (self, x, (e, r) :: rs)
      | LStop _ => let '(self, x, r) := stdout_stop self x in (self, x, (e, r) :: rs)
      | LWrite packet => let '(self, x, r) := stdout_write_bytes (bytes packet) self x in (self, x, (e, r) :: rs)
      | _ => (self, x, rs)
      end
  end.

(** The log has the results of the calls. *)
Definition reported (c : Entry * result () SinkError) : Prop :=
  match c.1 with LStart ok | LStop ok => ok = is_ok c.2 | _ => True end.

(** Called by the player, the pipe is never written to or stopped without
    being open, and it is open exactly when the player thinks so. *)
Lemma pipe_under_player l file format x :
  sink_proper l →
  let '(self, _, calls) := pipe_run l (mkStdout None file format) x in
  Forall reported calls →
  Forall (λ c, c.2 ≠ Err NotConnected) calls ∧ (is_Some (output self) ↔ sink_open l = true).
Proof.
  induction l as [|e l IH]; [by split; [|split; [intros []|]]|]. intros [Hl He]. specialize (IH Hl). cbn [pipe_run].
  destruct (pipe_run l _ x) as [[self x1] calls]. destruct e as [e|ok|ok|packet|uri pos|e]; try exact IH.
  - unfold stdout_start. destruct (open_output _ x1) as [[o|] x2]; intros [Hr Hc]%Forall_cons;
      destruct (IH Hc) as [Hn Ho]; unfold reported in Hr; simpl in Hr; subst ok; (split; [by constructor|]); simpl; [by split|].
    exact Ho.
  - unfold stdout_stop. destruct (output self) as [o|] eqn:Eo.
    + destruct (flush_output o x1) as [[u|] x2]; intros [Hr Hc]%Forall_cons; destruct (IH Hc) as [Hn Ho];
        (split; [by constructor|]); simpl; by split; [intros []|].
    + intros [Hr Hc]%Forall_cons. destruct (IH Hc) as [Hn Ho]. apply Ho in He. by destruct He.
  - unfold stdout_write_bytes. destruct (output self) as [o|] eqn:Eo.
    + destruct (write_all o (bytes packet) x1) as [[u|] x2]; intros [Hr Hc]%Forall_cons; destruct (IH Hc) as [Hn Ho];
        (split; [by constructor|]); simpl; rewrite Eo; exact Ho.
    + intros [Hr Hc]%Forall_cons. destruct (IH Hc) as [Hn Ho]. apply Ho in He. by destruct He.
Qed.
End pipe_props.

(** ** Writing to a process *)

Section subprocess_props.
Context {X : Type} {env : ProcessEnv X}.

(** A write that takes everything is the only one. *)
Lemma write_whole fuel data c self x x' :
  child self = Some c → data ≠ [] → write_stdin c data x = (Wrote (Z.of_nat (length data)), x') →
  subprocess_write_bytes (S fuel) data self x = Val (self, x', Some (Ok ())).
Proof.
  intros Hc Hd Hw. unfold subprocess_write_bytes. cbn [write_loop]. rewrite Hc.
  assert (slice_bytes 0 (Z.of_nat (length data)) data = data) as ->.
  { unfold slice_bytes. rewrite Z.sub_0_r, Nat2Z.id, drop_0. by apply firstn_all. }
  rewrite Hw. destruct (Z.of_nat (length data)) eqn:E; [destruct data; [done|simpl in E; lia]| |lia].
  rewrite decide_True; [done|]. lia.
Qed.
End subprocess_props.

(** ** Examples *)

#[local] Instance small_output : OutputEnv (list Z) := {|
  open_output := λ _ x, (Ok 1%nat, x);
  write_all := λ _ data x, (Ok (), x ++ data);
  flush_output := λ _ x, (Ok (), x);
|}.

Definition packet_example : AudioPacket := Raw [1; 2; 3].

#[local] Instance no_noise : Distributions () := {|
  sample_triangular := λ r, (F64.zero, r); sample_normal := λ r, (F64.zero, r); sample_uniform := λ r, (F64.half, r) |}.

(** Full scale, silence and beyond, without dithering. *)
Lemma conversion_examples :
  (fst <$> packet_bytes S16 (Samples [F64.one; F64.opp F64.one; F64.half; F64.zero; F64.two]) None) =
    Val [255; 127; 0; 128; 0; 64; 0; 0; 255; 127] ∧
  (fst <$> packet_bytes S24_3 (Samples [F64.one; F64.opp F64.one; F64.half]) None) = Val [255; 255; 127; 0; 0; 128; 0; 0; 64] ∧
  (fst <$> packet_bytes F32_ (Samples [F64.half]) None) = Val [0; 0; 0; 63].
Proof. by vm_compute. Qed.

(** ** Corner cases *)

(** A process that takes at most [n] bytes at a time; the state is what it got. *)
#[local] Instance slow_reader (n : nat) : ProcessEnv (list Z) := {|
  split_words := λ s, Ok [s];
  spawn := λ _ x, (Ok 1%nat, x);
  try_wait := λ _ x, (Ok false, x);
  flush_stdin := λ _ x, (Ok (), x);
  kill := λ _ x, (Ok (), x);
  wait := λ _ x, (Ok (), x);
  write_stdin := λ _ data x, (Wrote (Z.of_nat (Nat.min n (length data))), x ++ take n data);
|}.

(** After a partial write the rest is cut to the size of that write, and the
    loop ends when the next part would reach the end: of ten bytes written in
    parts of six, the last four are lost. *)
Lemma partial_write_loses :
  @subprocess_write_bytes _ (slow_reader 6) 10 [0; 1; 2; 3; 4; 5; 6; 7; 8; 9] (mkSubprocess (Some "cat"%string) (Some 1%nat) S16) [] =
    Val (mkSubprocess (Some "cat"%string) (Some 1%nat) S16, [0; 1; 2; 3; 4; 5], Some (Ok ())) ∧
  @subprocess_write_bytes _ (slow_reader 3) 10 [0; 1; 2; 3; 4; 5; 6; 7; 8; 9] (mkSubprocess (Some "cat"%string) (Some 1%nat) S16) [] =
    Val (mkSubprocess (Some "cat"%string) (Some 1%nat) S16, [0; 1; 2; 3; 4; 5; 6; 7; 8], Some (Ok ())).
Proof. by vm_compute. Qed.
