(* ===== verification/Mixer.v ===== *)
(** * Volume: [playback/src/config.rs] and [playback/src/mixer]

    The volume a client sets, as a number of 16 bits, is mapped to the factor
    the samples are multiplied with. *)

From S2P Require Import Prelude StdTypes Float64 Digits Text SpotifyId SpotifyUri Metadata Player.

Local Open Scope Z_scope.

(** ** Options *)

(** Option values are ASCII. *)
Definition Bitrate_from_str (s : string) : result Bitrate () :=
  if decide (s = "96"%string) then Ok Bitrate96
  else if decide (s = "160"%string) then Ok Bitrate160
  else if decide (s = "320"%string) then Ok Bitrate320
  else Err ().

Definition NormalisationType_from_str (s : string) : result NormalisationType () :=
  let s := to_ascii_lowercase s in
  if decide (s = "album"%string) then Ok NAlbum
  else if decide (s = "track"%string) then Ok NTrack
  else if decide (s = "auto"%string) then Ok NAuto
  else Err ().

Definition NormalisationMethod_from_str (s : string) : result NormalisationMethod () :=
  let s := to_ascii_lowercase s in
  if decide (s = "basic"%string) then Ok Basic
  else if decide (s = "dynamic"%string) then Ok Dynamic
  else Err ().

Inductive VolumeCtrl := Cubic (db_range : f64) | Fixed | Linear | Log (db_range : f64).

Definition MAX_VOLUME : Z := u16_max.
Definition DEFAULT_DB_RANGE : f64 := F64.of_Z 60.

Definition VolumeCtrl_from_str_with_range (s : string) (db_range : f64) : result VolumeCtrl () :=
  let s := to_ascii_lowercase s in
  if decide (s = "cubic"%string) then Ok (Cubic db_range)
  else if decide (s = "fixed"%string) then Ok Fixed
  else if decide (s = "linear"%string) then Ok Linear
  else if decide (s = "log"%string) then Ok (Log db_range)
  else Err ().
Definition VolumeCtrl_from_str (s : string) : result VolumeCtrl () := VolumeCtrl_from_str_with_range s DEFAULT_DB_RANGE.

(** ** Mappings *)

Definition db_range (self : VolumeCtrl) : f64 :=
  match self with
  | Fixed => F64.zero
  | Linear => DEFAULT_DB_RANGE
  | Log r | Cubic r => r
  end.

Definition set_db_range (new_db_range : f64) (self : VolumeCtrl) : VolumeCtrl :=
  match self with
  | Cubic _ => Cubic new_db_range
  | Log _ => Log new_db_range
  | self => self
  end.

Definition range_ok (self : VolumeCtrl) : bool :=
  F64.gtb (db_range self) F64.zero || match self with Fixed | Linear => true | _ => false end.

Section mapping.
Context {libm : Libm}.

Definition log_coefficients (db_range : f64) : f64 * f64 :=
  let db_ratio := db_to_ratio db_range in
  let ideal_factor := ln db_ratio in
  (db_ratio, ideal_factor).
Definition log_linear_to_mapped (normalized_volume db_range : f64) : f64 :=
  let '(db_ratio, ideal_factor) := log_coefficients db_range in
  F64.div (exp (F64.mul ideal_factor normalized_volume)) db_ratio.
Definition log_mapped_to_linear (mapped_volume db_range : f64) : f64 :=
  let '(db_ratio, ideal_factor) := log_coefficients db_range in
  F64.div (ln (F64.mul db_ratio mapped_volume)) ideal_factor.

Definition min_norm (db_range : f64) : f64 := powf (F64.of_Z 10) (F64.div (F64.opp db_range) (F64.of_Z 60)).
Definition cubic_linear_to_mapped (normalized_volume db_range : f64) : f64 :=
  let min_norm := min_norm db_range in
  powi (F64.add (F64.mul normalized_volume (F64.sub F64.one min_norm)) min_norm) 3.
Definition cubic_mapped_to_linear (mapped_volume db_range : f64) : f64 :=
  let min_norm := min_norm db_range in
  F64.div (F64.sub (powf mapped_volume (F64.div F64.one (F64.of_Z 3))) min_norm) (F64.sub F64.one min_norm).

Definition to_mapped (volume : Z) (self : VolumeCtrl) : f64 :=
  if decide (volume = 0) then F64.zero
  else if decide (volume = MAX_VOLUME) then F64.one
  else
    let normalized_volume := F64.div (F64.of_Z volume) (F64.of_Z MAX_VOLUME) in
    if range_ok self then
      match self with
      | Cubic db_range => cubic_linear_to_mapped normalized_volume db_range
      | Log db_range => log_linear_to_mapped normalized_volume db_range
      | _ => normalized_volume
      end
    else normalized_volume.

Definition as_unmapped (mapped_volume : f64) (self : VolumeCtrl) : Z :=
  if F64.leb (F64.abs (F64.sub mapped_volume F64.zero)) F64.EPSILON then 0
  else if F64.leb (F64.abs (F64.sub mapped_volume F64.one)) F64.EPSILON then MAX_VOLUME
  else
    let unmapped_volume :=
      if range_ok self then
        match self with
        | Cubic db_range => cubic_mapped_to_linear mapped_volume db_range
        | Log db_range => log_mapped_to_linear mapped_volume db_range
        | _ => mapped_volume
        end
      else mapped_volume in
    F64.to_int 0 u16_max (F64.mul unmapped_volume (F64.of_Z MAX_VOLUME)).

(** ** The software mixer *)

(** The shared cell, a [u64] with the bits of the factor, is the factor. *)
Record SoftMixer := mkSoftMixer { sm_volume : f64; volume_ctrl : VolumeCtrl }.

Definition softmixer_open (volume_ctrl : VolumeCtrl) : SoftMixer := mkSoftMixer F64.half volume_ctrl.
Definition volume (self : SoftMixer) : Z := as_unmapped (sm_volume self) (volume_ctrl self).
Definition set_volume (volume : Z) (self : SoftMixer) : SoftMixer :=
  mkSoftMixer (to_mapped volume (volume_ctrl self)) (volume_ctrl self).
Definition soft_attenuation_factor (self : SoftMixer) : f64 := sm_volume self.
Definition no_op_attenuation_factor : f64 := F64.one.

(** Muting and full volume are exact, whatever the control and the platform. *)
Lemma softmixer_ends self :
  soft_attenuation_factor (set_volume 0 self) = F64.zero ∧ volume (set_volume 0 self) = 0 ∧
  soft_attenuation_factor (set_volume MAX_VOLUME self) = F64.one ∧ volume (set_volume MAX_VOLUME self) = MAX_VOLUME.
Proof. destruct self as [v []]; by vm_compute. Qed.

(** The reported volume is always a [u16]. *)
Lemma volume_bounds self : 0 ≤ volume self ≤ u16_max.
Proof.
  unfold volume, as_unmapped, MAX_VOLUME. repeat case_match; try (unfold u16_max; lia); apply to_int_bounds; unfold u16_max; lia.
Qed.

(** A volume set with the linear control is read back. *)
Lemma linear_examples :
  Forall (λ v, volume (set_volume v (softmixer_open Linear)) = v) [1; 2; 100; 12345; 32767; 32768; 49151; 65533; 65534].
Proof. repeat constructor; by vm_compute. Qed.
End mapping.
