(* ===== verification/Spirc.v ===== *)
(** * The connect device: [connect/src/spirc.rs]

    The task behind a [Spirc] handle.  It takes commands from the handle,
    requests and updates from the dealer, and events from the player, keeps the
    connect state, tells the player what to do and the service what it does.
    Each turn of its loop handles one of these to the end, so a handler is a
    function from the world to the world it leaves, which fails with an error or
    panics. *)

From S2P Require Import Prelude StdTypes Digits Text Wire SpotifyId SpotifyUri Metadata.
From S2P Require Import Player Session Protocol ShuffleVec StateMonad.
From S2P Require Import ConnectData ConnectQueue ConnectContext ConnectState SpircData ContextResolver.

Local Open Scope string_scope.
Local Open Scope list_scope.
Local Open Scope Z_scope.

Abbreviation Session := Session.Session.
Abbreviation Context := Protocol.Context.

(** ** Data *)

Inductive SpircError :=
| NoData
| NoUri (what : string)
| InvalidUri (uri : string)
| FailedDealerSetup
| UnknownEndpoint (value : string).

(** The errors of a handler: its own, those of the state, of the resolver and of
    URIs, a failed request, a conversion of a number or text, and the two ways
    in which a handler does not come back: the process ends, or more turns of a
    loop than allowed. *)
Inductive Error :=
| ESpirc (e : SpircError)
| EConnectState (e : ConnectError)
| EResolver (e : ResolverError)
| ESpotifyUri (e : SpotifyUriError)
| ERequest
| EConversion
| EExit
| ETurns.

Record SpircTask := mkSpircTask {
  connect_state : ConnectState;
  connect_established : bool;
  play_request_id : option Z;
  play_status : SpircPlayStatus;
  context_resolver : ContextResolver;
  emit_set_queue_events : bool;
  shutdown : bool;
  commands_open : bool;
  transfer_state : option TransferState;
  update_volume : bool;
  update_state : bool;
}.
#[export] Instance settable_SpircTask : Settable SpircTask := λ r,
  mkSpircTask (connect_state r) (connect_established r) (play_request_id r) (play_status r) (context_resolver r)
    (emit_set_queue_events r) (shutdown r) (commands_open r) (transfer_state r) (update_volume r) (update_state r).

(** The parts of the messages of the dealer that are read. *)
Record Cluster := mkCluster { active_device_id : string; cluster_session_id : string; transfer_data : list Z }.
Inductive FallbackWrapper A := Inner (a : A) | Fallback (value : string).
Arguments Inner {A} a.
Arguments Fallback {A} value.
Record SocialSession := mkSocialSession { so_session_id : string; host_active_device_id : option string }.

(** What the task uses of the system and of the service: the clocks, random
    numbers, the mixer, the volume in the cache, and the requests. *)
Class SpircEnv (X : Type) := {
  system_time : X → Z * X;
  instant_now : X → Z * X;
  uuids : X → (nat → nat → string) * X;
  random_seed : X → Z * X;
  random_index : X → (nat → nat) * X;
  mixer_volume : X → Z * X;
  mixer_set_volume : Z → X → X;
  save_volume : Z → X → X;
  put_connect_state : PutStateRequest → X → result (list Z) () * X;
  put_connect_state_inactive : X → result () () * X;
  delete_connect_state : X → result () () * X;
  post_transfer : string → string → option TransferRequest → X → result () () * X;
  parse_cluster : list Z → option Cluster;
  parse_transfer : list Z → option TransferState;
  spirc_service :: ContextService X;
}.

(** [to_player] has the commands sent to the player, in order. *)
Record World (X : Type) := mkWorld {
  task : SpircTask;
  session : Session;
  device_id : string;
  to_player : list PlayerCommand;
  ext : X;
}.
Arguments mkWorld {X} _ _ _ _ _.
Arguments task {X} _.
Arguments session {X} _.
Arguments device_id {X} _.
Arguments to_player {X} _.
Arguments ext {X} _.
#[export] Instance settable_World {X} : Settable (World X) :=
  λ r, mkWorld (task r) (session r) (device_id r) (to_player r) (ext r).

Section spirc.
Context {X : Type} {env : SpircEnv X} {hasher : DefaultHasher} {R : Type} {rng_R : Rng R}.
(** How many turns the one loop without a bound may take. *)
Context (turns : nat).

Abbreviation W := (st (World X) Error).

Definition get_task : W SpircTask := w ← st_get; mret (task w).
Definition modify (f : SpircTask → SpircTask) : W () := st_modify (λ w, w <| task ::= f |>).
Definition call {A} (f : X → A * X) : W A := λ w, let '(a, x) := f (ext w) in Val (w <| ext := x |>, Ok a).
Definition command (c : PlayerCommand) : W () := st_modify (λ w, w <| to_player ::= (λ l, l ++ [c]) |>).

(** Reading and changing the connect state. *)
Definition cs_get : W ConnectState := t ← get_task; mret (connect_state t).
Definition cs_modify (f : ConnectState → ConnectState) : W () := modify (λ t, t <| connect_state ::= f |>).
Definition cs_exec (f : ConnectState → exec ConnectState) : W () := λ w,
  match f (connect_state (task w)) with
  | Val s => Val (w <| task ::= (λ t, t <| connect_state := s |>) |>, Ok ())
  | Panic => Panic
  end.
Definition cs_run {A} (m : M A) : W A := λ w,
  match m (connect_state (task w)) with
  | Val (s, r) =>
      Val (w <| task ::= (λ t, t <| connect_state := s |>) |>,
           match r with Ok a => Ok a | Err e => Err (EConnectState e) end)
  | Panic => Panic
  end.
Definition resolver_modify (f : ContextResolver → ContextResolver) : W () :=
  modify (λ t, t <| context_resolver ::= f |>).
Definition resolver_add (r : ResolveContext) : W () :=
  now ← call instant_now; resolver_modify (add now r).

(** What is done after a handler came back without and with an error. *)
Definition caught {A B} (ok err : W B) (m : W A) : W B := λ w,
  match m w with
  | Val (w, Err EExit) => Val (w, Err EExit)
  | Val (w, Err ETurns) => Val (w, Err ETurns)
  | Val (w, Err _) => err w
  | Val (w, Ok _) => ok w
  | Panic => Panic
  end.
(** An error that is only logged. *)
Definition ignore_err {A} (m : W A) : W () := caught (mret ()) (mret ()) m.

Definition lift_i64 (z : Z) : W Z := if decide (i64_min ≤ z ≤ ConnectData.i64_max) then mret z else st_panic.

(** The system time is in nanoseconds from the epoch, before it if negative;
    the cast from [u128] to [i64] keeps 64 bits. *)
Definition wrap_i64 (z : Z) : Z := (z + 2 ^ 63) `mod` 2 ^ 64 - 2 ^ 63.
Definition now_ms : W Z :=
  t ← call system_time;
  w ← st_get;
  delta ← lift_i64 (1000 * time_delta (data (session w)));
  lift_i64 (wrap_i64 (Z.abs t / 1000000) + delta).

(** ** Reporting *)

Definition queue_track (t : ProvidedTrack) : QueueTrack := mkQueueTrack (uri t) (provider t).

Definition emit_set_queue_event : W () :=
  t ← get_task;
  if negb (emit_set_queue_events t) then mret ()
  else
    let p := player (connect_state t) in
    command (EmitSetQueueEvent (context_uri (connect_state t)) (queue_track <$> ps_track p)
      (queue_track <$> ps_next_tracks p) (queue_track <$> ps_prev_tracks p)).

Definition update_position_now (position_ms : Z) : W () :=
  now ← now_ms; cs_modify (update_position position_ms now).

Definition send_request {A} (f : X → result A () * X) : W A :=
  r ← call f; match r with Ok a => mret a | Err _ => st_throw ERequest end.

Definition notify : W () :=
  t ← get_task;
  _ ← cs_modify (set_status (play_status t));
  s ← cs_get;
  _ ← (if is_playing s then now ← now_ms; cs_exec (update_position_in_relation now) else mret ());
  now ← now_ms;
  _ ← cs_modify (set_now (wrapu 64 now));
  s ← cs_get;
  _ ← send_request (put_connect_state (request s));
  mret ().

(** ** Volume *)

Definition set_volume (volume : Z) : W () :=
  s ← cs_get;
  let old_volume := di_volume (device_info (request s)) in
  changed ← (if decide (old_volume ≠ volume) then mret true
             else v ← call mixer_volume; mret (bool_decide (v ≠ volume)));
  if changed : bool then
    _ ← modify (λ t, t <| update_volume := true |>);
    _ ← cs_modify (ConnectData.set_volume volume);
    _ ← st_modify (λ w, w <| ext ::= mixer_set_volume volume |>);
    _ ← st_modify (λ w, w <| ext ::= save_volume volume |>);
    s ← cs_get;
    if is_active s then command (EmitVolumeChangedEvent volume) else mret ()
  else mret ().

(** [volume as u16] with [saturating_add] and [saturating_sub]. *)
Definition handle_volume_up : W () :=
  s ← cs_get;
  set_volume (Z.min u16_max (wrapu 16 (di_volume (device_info (request s))) + volume_step_size s)).
Definition handle_volume_down : W () :=
  s ← cs_get;
  set_volume (Z.max 0 (wrapu 16 (di_volume (device_info (request s))) - volume_step_size s)).

(** ** Resolving contexts *)

Definition CONTEXT_FETCH_THRESHOLD : nat := 2.

Definition add_autoplay_resolving_when_required : W () :=
  w ← st_get;
  let s := connect_state (task w) in
  let require_load_new :=
    negb (has_next_tracks (Some CONTEXT_FETCH_THRESHOLD) s) && autoplay (session w) &&
    negb (bool_decide (context_uri s = EmptyString)) in
  if negb require_load_new then mret ()
  else
    let has_tracks := match get_context Autoplay s with
                      | Ok c => negb (bool_decide (track_list c = []))
                      | Err _ => false
                      end in
    resolver_add (resolve_from_uri (context_uri s) (uri (current_track s)) Autoplay
                    (if has_tracks then Append else Replace)).

(** Whether the state has to be reported. *)
Definition handle_next_context (next_context : result Context ResolverError) : W bool :=
  match next_context with
  | Err _ =>
      now ← call instant_now;
      _ ← resolver_modify (mark_next_unavailable now);
      _ ← resolver_modify remove_used_and_invalid;
      mret false
  | Ok ctx =>
      ids ← call uuids;
      remaining ← (λ w, match apply_next_context ids ctx (context_resolver (task w)) (connect_state (task w)) with
                        | Panic => Panic
                        | Val (s, r) => Val (w <| task ::= (λ t, t <| connect_state := s |>) |>, Ok r)
                        end);
      _ ← (match remaining with
           | Ok (Some l) => now ← call instant_now; resolver_modify (add_list now l)
           | _ => mret ()
           end);
      ids ← call uuids;
      seed ← call random_seed;
      finished ← (λ w, let t := task w in
                       match try_finish (R:=R) (ids 0%nat 0%nat) (ids 1%nat) seed (context_resolver t)
                               (transfer_state t) (connect_state t) with
                       | Panic => Panic
                       | Val (s, tr, b) =>
                           Val (w <| task ::= (λ t, t <| connect_state := s |> <| transfer_state := tr |>) |>, Ok b)
                       end);
      _ ← (if finished : bool then _ ← add_autoplay_resolving_when_required; emit_set_queue_event else mret ());
      _ ← resolver_modify remove_used_and_invalid;
      mret finished
  end.

(** Local files are left out of the recent tracks. *)
Definition recent_uris (s : ConnectState) : list string :=
  filter (λ t, starts_with "spotify:local" t = false) (recent_track_uris s).

Definition fetch_next_context (recent : list string) : W (result Context ResolverError) :=
  t ← get_task; call (get_next_context recent (context_resolver t)).

(** ** Playback *)

Definition handle_stop : W () :=
  _ ← command Stop;
  _ ← update_position_now 0;
  _ ← cs_modify clear_next_tracks;
  ignore_err (cs_run (reset_playback_to_position None)).

Definition load_track (start_playing : bool) (position_ms : Z) : W () :=
  s ← cs_get;
  match ps_track (player s) with
  | None => handle_stop
  | Some _ =>
      match from_uri (uri (current_track s)) with
      | Err e => st_throw (ESpotifyUri e)
      | Ok id =>
          _ ← command (Player.Load id start_playing position_ms);
          _ ← update_position_now position_ms;
          _ ← modify (λ t, t <| play_status := if start_playing then LoadingPlay position_ms
                                              else LoadingPause position_ms |>);
          t ← get_task;
          cs_modify (set_status (play_status t))
      end
  end.

Definition handle_play : W () :=
  t ← get_task;
  let sync_volume := v ← call mixer_volume; set_volume v in
  match play_status t with
  | Paused position_ms preloading =>
      _ ← command Player.Play;
      _ ← update_position_now position_ms;
      now ← now_ms;
      start ← lift_i64 (now - position_ms);
      _ ← modify (λ t, t <| play_status := Playing start preloading |>);
      sync_volume
  | LoadingPause position_ms =>
      _ ← command Player.Play;
      _ ← modify (λ t, t <| play_status := LoadingPlay position_ms |>);
      sync_volume
  | _ => mret ()
  end.

Definition handle_pause : W () :=
  t ← get_task;
  match play_status t with
  | Playing nominal_start_time preloading =>
      _ ← command Player.Pause;
      now ← now_ms;
      d ← lift_i64 (now - nominal_start_time);
      let position_ms := wrapu 32 d in
      _ ← update_position_now position_ms;
      modify (λ t, t <| play_status := Paused position_ms preloading |>)
  | LoadingPlay position_ms =>
      _ ← command Player.Pause;
      modify (λ t, t <| play_status := LoadingPause position_ms |>)
  | _ => mret ()
  end.

Definition handle_play_pause : W () :=
  t ← get_task;
  match play_status t with
  | Paused _ _ | LoadingPause _ => handle_play
  | Playing _ _ | LoadingPlay _ => handle_pause
  | Stopped => mret ()
  end.

Definition handle_seek (position_ms : Z) : W () :=
  s ← cs_get;
  if decide (ps_duration (player s) < position_ms) then mret ()
  else
    _ ← update_position_now position_ms;
    _ ← command (Seek position_ms);
    now ← now_ms;
    t ← get_task;
    match play_status t with
    | Stopped => mret ()
    | LoadingPause _ => modify (λ t, t <| play_status := LoadingPause position_ms |>)
    | LoadingPlay _ => modify (λ t, t <| play_status := LoadingPlay position_ms |>)
    | Paused _ p => modify (λ t, t <| play_status := Paused position_ms p |>)
    | Playing _ p =>
        start ← lift_i64 (now - position_ms);
        modify (λ t, t <| play_status := Playing start p |>)
    end.

Definition handle_shuffle (shuffle : bool) : W () :=
  _ ← command (EmitShuffleChangedEvent shuffle);
  seed ← call random_seed;
  cs_run (ConnectState.handle_shuffle (R:=R) seed shuffle).

Definition handle_repeat_context (repeat : bool) : W () :=
  s ← cs_get;
  _ ← command (EmitRepeatChangedEvent repeat (repeat_track s));
  cs_run (handle_set_repeat_context repeat).

Definition handle_repeat_track (repeat : bool) : W () :=
  s ← cs_get;
  _ ← command (EmitRepeatChangedEvent (repeat_context s) repeat);
  cs_modify (set_repeat_track repeat).

Definition handle_preload_next_track : W () :=
  _ ← modify (λ t, t <| play_status ::= λ st,
    match st with
    | Paused p _ => Paused p true
    | Playing n _ => Playing n true
    | st => st
    end |>);
  s ← cs_get;
  match preview_next_track s with
  | Some track_id => command (Preload track_id)
  | None => mret ()
  end.

Definition handle_unavailable (track_id : SpotifyUri) : W () :=
  _ ← cs_run (mark_unavailable track_id);
  handle_preload_next_track.

(** The loop of [handle_next]: skip until the wanted track is the current one;
    whether there is a track. *)
Fixpoint next_until (turns : nat) (track_uri : option string) : W bool :=
  match turns with
  | O => st_throw ETurns
  | S turns =>
      index ← cs_run next_track;
      s ← cs_get;
      match track_uri with
      | Some u => if decide (uri (current_track s) ≠ u) then next_until turns track_uri
                  else mret (bool_decide (is_Some index))
      | None => mret (bool_decide (is_Some index))
      end
  end.

Definition handle_next (track_uri : option string) : W () :=
  s ← cs_get;
  let continue_playing := is_playing s in
  let is_current := match track_uri with
                    | Some u => bool_decide (uri (current_track s) = u)
                    | None => false
                    end in
  has_next_track ← (if is_current : bool then mret true else next_until turns track_uri);
  if has_next_track : bool then
    _ ← add_autoplay_resolving_when_required;
    load_track continue_playing 0
  else handle_stop.

Definition position : W Z :=
  t ← get_task;
  match play_status t with
  | Stopped => mret 0
  | LoadingPlay p | LoadingPause p | Paused p _ => mret p
  | Playing nominal_start_time _ =>
      now ← now_ms; d ← lift_i64 (now - nominal_start_time); mret (wrapu 32 d)
  end.

Definition handle_prev : W () :=
  p ← position;
  if decide (p < 3000) then
    s ← cs_get;
    let repeat_context := repeat_context s in
    prev ← cs_run prev_track;
    match prev with
    | None =>
        _ ← cs_run (reset_playback_to_position None);
        if repeat_context then mret () else handle_stop
    | Some _ => s ← cs_get; load_track (is_playing s) 0
    end
  else handle_seek 0.

(** ** Becoming active and inactive *)

Definition handle_activate : W () :=
  now ← call system_time;
  _ ← cs_modify (set_active now true);
  w ← st_get;
  let d := data (session w) in
  let s := connect_state (task w) in
  _ ← command (EmitSessionConnectedEvent (connection_id d) (canonical_username (user_data d)));
  _ ← command (EmitSessionClientChangedEvent (client_id d) (client_name d) (client_brand_name d) (client_model_name d));
  _ ← command (EmitVolumeChangedEvent (wrapu 16 (di_volume (device_info (request s)))));
  _ ← command (EmitAutoPlayChangedEvent (autoplay (session w)));
  _ ← command (EmitFilterExplicitContentChangedEvent (filter_explicit_content (session w)));
  _ ← command (EmitShuffleChangedEvent (shuffling_context s));
  command (EmitRepeatChangedEvent (repeat_context s) (repeat_track s)).

Definition became_inactive : W () :=
  _ ← cs_exec ConnectState.became_inactive;
  _ ← send_request put_connect_state_inactive;
  mret ().

Definition handle_disconnect : W () :=
  _ ← resolver_modify clear;
  _ ← modify (λ t, t <| play_status := Stopped |>);
  now ← now_ms;
  _ ← cs_exec (update_position_in_relation now);
  _ ← notify;
  _ ← became_inactive;
  w ← st_get;
  let d := data (session w) in
  command (EmitSessionDisconnectedEvent (connection_id d) (canonical_username (user_data d))).

(** ** Loading *)

Definition WEB_API_URI : string := "spotify:web-api".

Definition load_context_from_tracks (page : ContextPage) : W () :=
  let ctx := mkContext (Some WEB_API_URI) (Some ("context://" +:+ WEB_API_URI)) ∅ None [page] in
  ids ← call uuids;
  _ ← cs_run (update_context ids ctx Default);
  emit_set_queue_event.

Definition load_context_from_uri (context_uri : string) (page : option ContextPage) (autoplay : bool) : W () :=
  s ← cs_get;
  _ ← (if is_active s then mret () else handle_activate);
  let update_context := if autoplay then Autoplay else Default in
  _ ← cs_modify (set_active_context update_context);
  fallback ← (match page with
              | Some page =>
                  match find_valid_uri (Some context_uri) (Some page) with
                  | Some ctx_uri => mret ctx_uri
                  | None => st_throw (ESpirc (InvalidUri context_uri))
                  end
              | None => mret context_uri
              end);
  s ← cs_get;
  if bool_decide (ConnectContext.context_uri s = context_uri) && bool_decide (fallback = context_uri) then mret ()
  else
    _ ← resolver_modify clear;
    _ ← resolver_add (resolve_from_uri context_uri fallback update_context Replace);
    ctx ← fetch_next_context [];
    _ ← handle_next_context ctx;
    mret ().

(** The index of the track to start with; a track that is not found is replaced
    by the fallback. *)
Definition playing_index (playing_track : option PlayingTrack) (fallback_index : option nat) : W (option nat) :=
  let find f :=
    s ← cs_get;
    match get_context Default s with
    | Err e => st_throw (EConnectState (EState e))
    | Ok ctx => mret (Some (default (default 0%nat fallback_index) (result_ok (find_index_in_context ctx f))))
    end in
  match playing_track with
  | None => mret None
  | Some (PtIndex i) => mret (Some (Z.to_nat i))
  | Some (PtUri u) => find (λ t, bool_decide (uri t = u))
  | Some (PtUid u) => find (λ t, bool_decide (uid t = u))
  end.

Definition set_load_options (o : Options) : W () :=
  _ ← cs_modify (set_shuffle (o_shuffle o));
  _ ← cs_modify (set_repeat_context (o_repeat o));
  cs_modify (set_repeat_track (o_repeat_track o)).

(** The two ways to start playing the context. *)
Definition start_shuffled (index : option nat) : W () :=
  _ ← (match index with
       | Some index => cs_run (set_current_track index)
       | None => r ← call random_index; cs_run (set_current_track_random r)
       end);
  t ← get_task;
  if has_next (context_resolver t) then cs_modify update_queue_revision
  else
    seed ← call random_seed;
    _ ← cs_run (shuffle_new (R:=R) seed);
    add_autoplay_resolving_when_required.

Definition start_in_order (index : option nat) : W () :=
  _ ← cs_run (set_current_track (default 0%nat index));
  _ ← cs_run (reset_playback_to_position index);
  add_autoplay_resolving_when_required.

Definition handle_load (cmd : LoadRequest) (page : option ContextPage) (fallback_index : option nat) : W () :=
  let opts := lr_options cmd in
  _ ← cs_exec (reset_context (match lr_context cmd with
                              | CtxUri uri => WhenDifferent uri
                              | CtxTracks _ => Completely
                              end));
  _ ← cs_modify reset_options;
  let autoplay := match context_options opts with Some LoadAutoplay => true | _ => false end in
  _ ← (match lr_context cmd with
       | CtxUri uri => load_context_from_uri uri page autoplay
       | CtxTracks tracks => load_context_from_tracks (page_from_uris tracks)
       end);
  _ ← cs_modify (set_active_context Default);
  _ ← cs_modify (λ s, (merge_context page s).2);
  _ ← cs_modify clear_next_tracks;
  _ ← cs_modify clear_restrictions;
  index ← playing_index (playing_track opts) fallback_index;
  _ ← (match context_options opts with Some (LoadOptions o) => set_load_options o | _ => mret () end);
  _ ← (match context_options opts with
       | Some (LoadOptions o) => if o_shuffle o then start_shuffled index else start_in_order index
       | _ => start_in_order index
       end);
  s ← cs_get;
  match ps_track (player s) with
  | Some _ => load_track (start_playing opts) (seek_to opts)
  | None => handle_stop
  end.

(** ** Transfers *)

(** The position after the transfer; [i32] is widened, times are [i64]. *)
Definition transfer_position (timestamp : Z) (transfer : TransferState) : W Z :=
  let playback := default Playback_default (tr_playback transfer) in
  match pb_position_as_of_timestamp playback with
  | Some position =>
      if default false (pb_is_paused playback) then mret position
      else if decide (0 < position) then
        d ← lift_i64 (timestamp - default 0 (pb_timestamp playback)); lift_i64 (position + d)
      else mret 0
  | None => mret 0
  end.

Definition to_u32 (z : Z) : W Z := if decide (0 ≤ z ≤ u32_max) then mret z else st_throw EConversion.

(** The initial track and context of a transfer: the URI of the context, the
    fallback, and whether the track comes from autoplay. *)
Definition transfer_context (transfer : TransferState) (ctx_uri : option string)
    : W (option string * string * bool) :=
  ids ← call uuids;
  _ ← (λ w, match current_track_from_transfer (ids 0%nat 0%nat) transfer (connect_state (task w)) with
            | Panic => Panic
            | Val (Ok track) => Val (w <| task ::= (λ t, t <| connect_state ::= set_track track |>) |>, Ok ())
            | Val (Err _) => Val (w, Ok ())
            end);
  s ← cs_get;
  let autoplay := is_autoplay (current_track s) in
  let ctx_uri := if autoplay then replace "station:" EmptyString <$> ctx_uri else ctx_uri in
  mret (ctx_uri, uri (current_track s), autoplay).

(** Without a context URI the tracks of the transfer are loaded, or the track is
    used as context. *)
Definition transfer_tracks (transfer : TransferState) (fallback : string) : W (option string) :=
  let ctx := se ← tr_current_session transfer; se_context se in
  let all_tracks := match ctx with Some c => ctx_pages c ≫= page_tracks | None => [] end in
  match all_tracks with
  | [] => mret (Some fallback)
  | _ => _ ← load_context_from_tracks (page_from_tracks all_tracks); mret None
  end.

Definition transfer_setup (transfer : TransferState) (load_from_context_uri : bool) : W () :=
  if load_from_context_uri then modify (λ t, t <| transfer_state := Some transfer |>)
  else
    s ← cs_get;
    match get_context Default s with
    | Err _ => modify (λ t, t <| transfer_state := Some transfer |>)
    | Ok ctx =>
        match find_index_in_context ctx (λ pt, bool_decide (uri pt = uri (current_track s))) with
        | Err e => st_throw (EConnectState (EState e))
        | Ok idx => cs_run (reset_playback_to_position (Some idx))
        end
    end.

Definition handle_transfer (transfer : TransferState) : W () :=
  ctx_uri ← (match (se ← tr_current_session transfer; c ← se_context se; ctx_uri c) with
             | None => st_throw (ESpirc (NoUri "transfer context"))
             | Some u => mret (if bool_decide (u = "-") || bool_decide (u = EmptyString) then None else Some u)
             end);
  _ ← cs_exec (reset_context (match ctx_uri with Some u => WhenDifferent u | None => Completely end));
  '(ctx_uri, fallback, autoplay) ← transfer_context transfer ctx_uri;
  let load_from_context_uri := bool_decide (is_Some ctx_uri) in
  ctx_uri ← (match ctx_uri with
             | Some u => _ ← resolver_add (resolve_from_uri u fallback Default Replace); mret ctx_uri
             | None => transfer_tracks transfer fallback
             end);
  _ ← handle_activate;
  timestamp ← now_ms;
  transfer ← (λ w, let '(tr, s) := handle_initial_transfer transfer ctx_uri (connect_state (task w)) in
                   Val (w <| task ::= (λ t, t <| connect_state := s |>) |>, Ok tr));
  _ ← cs_modify (λ s, s <| active_context := if autoplay then Autoplay else Default |>);
  position ← transfer_position timestamp transfer;
  let is_playing := negb (default false (pb_is_paused (default Playback_default (tr_playback transfer)))) in
  s ← cs_get;
  _ ← (if is_autoplay (current_track s) || autoplay then
         match ctx_uri with
         | Some u => resolver_add (resolve_from_uri u fallback Autoplay Replace)
         | None => mret ()
         end
       else mret ());
  _ ← transfer_setup transfer load_from_context_uri;
  p ← to_u32 position;
  load_track is_playing p.

(** ** Commands of the handle *)

Definition add_track_uris (l : list string) : W () :=
  foldr (λ u m, _ ← cs_exec (add_to_queue (ProvidedTrack_default <| uri := u |>) true); m) (mret ()) l.

Definition handle_add_to_queue (u : SpotifyUri) : W () :=
  let resolved :=
    match u with
    | Track _ | Episode _ => s ← st_lift (to_uri u); mret (Some [s])
    | Album _ | Playlist _ _ =>
        s ← st_lift (to_uri u);
        r ← call (spclient_get_context s);
        mret (match r with
              | Ok c => Some (omap ct_uri (ctx_pages c ≫= page_tracks))
              | Err _ => None
              end)
    | _ => mret None
    end in
  uris ← resolved;
  match uris with
  | Some l => _ ← add_track_uris l; emit_set_queue_event
  | None => mret ()
  end.

(** The commands of an active device. *)
Definition active_command (cmd : SpircCommand.t) : W () :=
  match cmd with
  | SpircCommand.Play => handle_play
  | SpircCommand.PlayPause => handle_play_pause
  | SpircCommand.Pause => handle_pause
  | SpircCommand.Prev => handle_prev
  | SpircCommand.Next => handle_next None
  | SpircCommand.VolumeUp => handle_volume_up
  | SpircCommand.VolumeDown => handle_volume_down
  | SpircCommand.Shuffle shuffle => handle_shuffle shuffle
  | SpircCommand.Repeat repeat => handle_repeat_context repeat
  | SpircCommand.RepeatTrack repeat => handle_repeat_track repeat
  | SpircCommand.SetPosition position => handle_seek position
  | SpircCommand.SetVolume volume => set_volume volume
  | SpircCommand.Load command => handle_load command None None
  | SpircCommand.AddToQueue uri => handle_add_to_queue uri
  | SpircCommand.Shutdown | SpircCommand.Disconnect _ | SpircCommand.Activate | SpircCommand.Transfer _ => mret ()
  end.

Definition handle_command (cmd : SpircCommand.t) : W () :=
  w ← st_get;
  let active := is_active (connect_state (task w)) in
  match cmd with
  | SpircCommand.Shutdown =>
      _ ← handle_pause;
      _ ← handle_disconnect;
      _ ← modify (λ t, t <| shutdown := true |>);
      _ ← modify (λ t, t <| commands_open := false |>);
      notify
  | SpircCommand.Transfer request =>
      if active then notify else send_request (post_transfer (device_id w) (device_id w) request)
  | SpircCommand.Activate => if active then notify else _ ← handle_activate; notify
  | SpircCommand.Disconnect pause =>
      if active then _ ← (if pause then handle_pause else mret ()); handle_disconnect else notify
  | _ => _ ← (if active then active_command cmd else mret ()); notify
  end.

(** ** Requests of the dealer *)

Definition play_context (context : Context) : W PlayContext :=
  match ctx_uri context with
  | Some s => mret (CtxUri s)
  | None =>
      match ctx_pages context with
      | [] => st_throw (ESpirc (NoUri "context"))
      | pages => mret (CtxTracks (omap ct_uri (pages ≫= page_tracks)))
      end
  end.

Definition request_play (context : Context) (play_origin : PlayerPlayOrigin) (options : PlayOptions) : W () :=
  s ← cs_get;
  _ ← (if is_active s then mret () else handle_activate);
  ctx ← play_context context;
  _ ← handle_load
        (mkLoadRequest ctx
          {| start_playing := true;
             seek_to := default 0 (po_seek_to options);
             context_options := LoadOptions ∘ Options_from <$> po_player_options_override options;
             playing_track := po_skip_to options ≫= PlayingTrack_try_from |})
        (last (ctx_pages context))
        (Z.to_nat <$> (s ← po_skip_to options; st_track_index s));
  cs_modify (set_origin play_origin).

Definition request_options (shuffling_context repeating_context repeating_track : option bool) : W () :=
  _ ← (match repeating_context with Some r => handle_repeat_context r | None => mret () end);
  _ ← (match repeating_track with Some r => handle_repeat_track r | None => mret () end);
  match shuffling_context with Some r => handle_shuffle r | None => mret () end.

(** The requests after which a state update is due. *)
Definition request_command (c : Command) : W () :=
  match c with
  | Play context play_origin options => request_play context play_origin options
  | Pause => handle_pause
  | SeekTo value => handle_seek value
  | SetShufflingContext value => handle_shuffle value
  | SetRepeatingContext value => handle_repeat_context value
  | SetRepeatingTrack value => handle_repeat_track value
  | AddToQueue track => _ ← cs_exec (add_to_queue track true); emit_set_queue_event
  | SetQueue next prev => _ ← cs_exec (handle_set_queue next prev); emit_set_queue_event
  | SetOptions s r t => request_options s r t
  | SkipNext track => handle_next (uri <$> track)
  | SkipPrev => handle_prev
  | Resume =>
      t ← get_task;
      match play_status t with Stopped => load_track true 0 | _ => handle_play end
  | Transfer _ | UpdateContext _ | UnknownCommand _ => mret ()
  end.

Definition handle_request (r : Request) : W () :=
  match SpircData.command r with
  | Transfer None => st_throw (ESpirc NoData)
  | UnknownCommand value => st_throw (ESpirc (UnknownEndpoint value))
  | UpdateContext ctx =>
      s ← cs_get;
      match ctx_uri ctx with
      | Some u => if decide (u ≠ context_uri s) then mret ()
                  else resolver_add (resolve_from_context ctx Default Replace)
      | None => resolver_add (resolve_from_context ctx Default Replace)
      end
  | Transfer (Some transfer) => _ ← handle_transfer transfer; notify
  | c => _ ← request_command c; modify (λ t, t <| update_state := true |>)
  end.

Inductive Reply := Success | Failure.

(** The answer to a request. *)
Definition handle_connect_state_request (r : Request) : W Reply :=
  _ ← cs_modify (set_last_command (message_id r) (sent_by_device_id r));
  caught (mret Success) (mret Failure) (handle_request r).

(** ** Events of the player *)

Definition event_playing (position_ms : Z) : W bool :=
  now ← now_ms;
  start ← lift_i64 (now - position_ms);
  t ← get_task;
  match play_status t with
  | Playing nominal p =>
      d ← lift_i64 (nominal - start);
      d ← lift_i64 (Z.abs d);
      if decide (100 < d) then
        _ ← modify (λ t, t <| play_status := Playing start p |>);
        _ ← update_position_now position_ms; mret true
      else mret false
  | LoadingPlay _ | LoadingPause _ =>
      _ ← update_position_now position_ms;
      _ ← modify (λ t, t <| play_status := Playing start false |>); mret true
  | _ => mret false
  end.

Definition event_paused (position_ms : Z) : W bool :=
  t ← get_task;
  match play_status t with
  | Stopped => mret false
  | _ =>
      _ ← update_position_now position_ms;
      _ ← modify (λ t, t <| play_status := Paused position_ms false |>); mret true
  end.

(** The events of the current track; whether the state has to be reported. *)
Definition current_event (event : PlayerEvent) : W bool :=
  t ← get_task;
  let s := connect_state t in
  match event with
  | EvEndOfTrack _ _ =>
      _ ← handle_next (if repeat_track s then Some (uri (current_track s)) else None); mret true
  | EvLoading _ _ _ =>
      _ ← update_position_now (match play_status t with
                               | LoadingPlay p | LoadingPause p => p
                               | _ => 0
                               end); mret true
  | EvSeeked _ _ position_ms => _ ← update_position_now position_ms; mret true
  | EvPlaying _ _ position_ms | EvPositionCorrection _ _ position_ms => event_playing position_ms
  | EvPaused _ _ position_ms => event_paused position_ms
  | EvStopped _ _ =>
      match play_status t with
      | Stopped => mret false
      | _ => _ ← modify (λ t, t <| play_status := Stopped |>); mret true
      end
  | EvTimeToPreloadNextTrack _ _ => _ ← handle_preload_next_track; mret false
  | EvUnavailable _ track_id =>
      _ ← handle_unavailable track_id;
      u ← st_lift (to_uri track_id);
      s ← cs_get;
      _ ← (if decide (uri (current_track s) = u) then handle_next None else mret ()); mret true
  | _ => mret false
  end.

Definition handle_player_event (event : PlayerEvent) : W () :=
  match event with
  | EvTrackChanged item =>
      _ ← cs_modify (update_duration (ai_duration_ms item));
      modify (λ t, t <| update_state := true |>)
  | EvPlayRequestIdChanged id => modify (λ t, t <| play_request_id := Some id |>)
  | _ =>
      t ← get_task;
      let is_current_track := match get_play_request_id event, play_request_id t with
                              | Some event_id, Some current_id => bool_decide (event_id = current_id)
                              | _, _ => false
                              end in
      if negb is_current_track then mret ()
      else
        report ← current_event event;
        if report : bool then modify (λ t, t <| update_state := true |>) else mret ()
  end.

(** ** Updates of the dealer *)

Definition handle_connection_id_update (id : string) : W () :=
  _ ← st_modify (λ w, w <| session ::= set_connection_id id |>);
  res ← (λ w, let '((r, x), s) := notify_new_device_appeared (λ q, put_connect_state q (ext w)) (connect_state (task w)) in
              Val (w <| task ::= (λ t, t <| connect_state := s |>) |> <| ext := x |>, Ok r));
  cluster ← (match result_ok res ≫= parse_cluster with
             | Some c => mret c
             | None => st_throw (ESpirc FailedDealerSetup)
             end);
  _ ← modify (λ t, t <| connect_established := true |>);
  w ← st_get;
  let same_session := bool_decide (cluster_session_id cluster = session_id (data (session w)))
                      || bool_decide (cluster_session_id cluster = EmptyString) in
  if negb (bool_decide (active_device_id cluster = EmptyString)) || negb same_session then mret ()
  else if bool_decide (transfer_data cluster = []) then mret ()
  else match parse_transfer (transfer_data cluster) with
       | Some transfer => handle_transfer transfer
       | None => mret ()
       end.

Definition handle_user_attributes_update (pairs : list (string * string)) : W () := λ w,
  match set_user_attributes (foldl (λ m kv, <[kv.1 := kv.2]> m) ∅ pairs) (session w) with
  | Some s => Val (w <| session := s |>, Ok ())
  | None => Val (w, Err EExit)
  end.

Definition flipped (v : string) : string :=
  if decide (v = "0") then "1" else if decide (v = "1") then "0" else v.

Definition mutate_attribute (key : string) : W () :=
  w ← st_get;
  if bool_decide (key = "autoplay") && bool_decide (is_Some (config_autoplay (session w))) then mret ()
  else match get_user_attribute key (session w) with
  | None => mret ()
  | Some old_value =>
      let new_value := flipped old_value in
      _ ← (λ w, match set_user_attribute key new_value (session w) with
                | Some (s, _) => Val (w <| session := s |>, Ok ())
                | None => Val (w, Err EExit)
                end);
      _ ← (if bool_decide (key = "filter-explicit-content") && bool_decide (new_value = "1")
           then command (EmitFilterExplicitContentChangedEvent true) else mret ());
      if bool_decide (key = "autoplay") && negb (bool_decide (old_value = new_value)) then
        _ ← command (EmitAutoPlayChangedEvent (bool_decide (new_value = "1")));
        add_autoplay_resolving_when_required
      else mret ()
  end.

Definition handle_user_attributes_mutation (fields : list string) : W () :=
  foldr (λ key m, _ ← mutate_attribute key; m) (mret ()) fields.

Definition handle_cluster_update (cluster : option Cluster) : W () :=
  w ← st_get;
  let active := is_active (connect_state (task w)) in
  match cluster with
  | Some cluster =>
      if active && negb (bool_decide (active_device_id cluster = device_id w)) then
        _ ← handle_disconnect; handle_stop
      else if active then modify (λ t, t <| update_state := true |>) else mret ()
  | None => if active then became_inactive else mret ()
  end.

Definition handle_playlist_modification (u : option (list Z)) : W () :=
  match u with
  | None => st_throw (ESpirc (NoUri "playlist modification"))
  | Some bytes =>
      match from_utf8 bytes with
      | None => st_throw EConversion
      | Some u =>
          s ← cs_get;
          if decide (context_uri s ≠ u) then mret ()
          else resolver_add (resolve_from_uri u (uri (current_track s)) Default Replace)
      end
  end.

Definition handle_session_update (update : FallbackWrapper (option SocialSession)) : W () :=
  match update with
  | Fallback _ | Inner None => mret ()
  | Inner (Some se) =>
      w ← st_get;
      if decide (host_active_device_id se = Some (device_id w)) then
        if decide (session_id (data (session w)) ≠ so_session_id se) then
          _ ← st_modify (λ w, w <| session ::= Session.set_session_id (so_session_id se) |>);
          cs_modify (ConnectData.set_session_id (so_session_id se))
        else mret ()
      else mret ()
  end.

(** ** The loop *)

(** What a turn of the loop selects.  [None] is the end of a stream, an inner
    error a message that could not be parsed. *)
Inductive Selected :=
| SelConnectionId (m : option (result string ()))
| SelCluster (m : option (result (option Cluster) ()))
| SelRequest (m : option Request)
| SelVolume (m : option (result Z ()))
| SelLogout (m : option ())
| SelPlaylist (m : option (result (option (list Z)) ()))
| SelAttributes (m : option (result (list (string * string)) ()))
| SelMutation (m : option (result (list string) ()))
| SelSession (m : option (result (FallbackWrapper (option SocialSession)) ()))
| SelCommand (m : option SpircCommand.t)
| SelPlayer (m : option PlayerEvent)
| SelStateTimer
| SelVolumeTimer
| SelContext.

(** The conditions of the branches. *)
Definition enabled (t : SpircTask) (sel : Selected) : bool :=
  match sel with
  | SelCommand _ => connect_established t
  | SelStateTimer => update_state t
  | SelVolumeTimer => update_volume t
  | SelContext => negb (update_state t) && negb (update_volume t) && has_next (context_resolver t)
  | _ => true
  end.

(** A message of a stream: the loop ends with the stream; a message that could
    not be parsed is skipped.  The result says whether the loop goes on. *)
Definition on_message {A} (m : option (result A ())) (f : A → W bool) : W bool :=
  match m with
  | None => mret false
  | Some (Err _) => mret true
  | Some (Ok a) => f a
  end.
Definition go_on (m : W ()) : W bool := _ ← ignore_err m; mret true.

Definition volume_timer : W () :=
  _ ← modify (λ t, t <| update_volume := false |>);
  _ ← (λ w, let '((_, x), s) := notify_volume_changed (λ q, put_connect_state q (ext w)) (connect_state (task w)) in
            Val (w <| task ::= (λ t, t <| connect_state := s |>) |> <| ext := x |>, Ok ()));
  ignore_err notify.

Definition next_context_turn : W () :=
  s ← cs_get;
  ctx ← fetch_next_context (recent_uris s);
  report ← handle_next_context ctx;
  if report : bool then ignore_err notify else mret ().

Definition turn (sel : Selected) : W bool :=
  match sel with
  | SelConnectionId m => on_message m (λ id, caught (mret true) (mret false) (handle_connection_id_update id))
  | SelCluster m => on_message m (λ c, go_on (handle_cluster_update c))
  | SelRequest m =>
      match m with
      | None => mret false
      | Some r => _ ← handle_connect_state_request r; mret true
      end
  | SelVolume m => on_message m (λ v, _ ← (if decide (0 ≤ v ≤ u16_max) then set_volume v else mret ()); mret true)
  | SelLogout m => mret (bool_decide (is_Some m))
  | SelPlaylist m => on_message m (λ u, go_on (handle_playlist_modification u))
  | SelAttributes m => on_message m (λ l, _ ← handle_user_attributes_update l; mret true)
  | SelMutation m => on_message m (λ l, _ ← handle_user_attributes_mutation l; mret true)
  | SelSession m => on_message m (λ u, _ ← handle_session_update u; mret true)
  | SelCommand m => match m with Some cmd => go_on (handle_command cmd) | None => mret true end
  | SelPlayer m => match m with Some e => go_on (handle_player_event e) | None => mret true end
  | SelStateTimer => _ ← modify (λ t, t <| update_state := false |>); go_on notify
  | SelVolumeTimer => _ ← volume_timer; mret true
  | SelContext => _ ← next_context_turn; mret true
  end.

(** After the loop: the device is disconnected unless it was shut down. *)
Definition finish : W () :=
  t ← get_task;
  _ ← (if negb (shutdown t) && is_active (connect_state t) then ignore_err handle_disconnect else mret ());
  _ ← call delete_connect_state;
  mret ().

(** The loop, once the dealer has started, on a sequence of selections; those
    whose condition does not hold are never made.  Requests that are given up
    because another branch was faster leave no trace. *)
Fixpoint run (sels : list Selected) : W () :=
  match sels with
  | [] => mret ()
  | sel :: sels =>
      w ← st_get;
      if is_invalid (session w) || shutdown (task w) then finish
      else if negb (enabled (task w) sel) then run sels
      else
        continue ← turn sel;
        if continue : bool then run sels else finish
  end.

(** [Spirc::new], after the listeners are registered and the session is
    connected. *)
Definition task_new (cfg : ConnectConfig) (emit : bool) (info : SessionInfo) : SpircTask :=
  mkSpircTask (ConnectData.new cfg info) false None Stopped resolver_new emit false true None false false.

Definition spirc_new : W () :=
  s ← cs_get;
  let initial_volume := di_volume (device_info (request s)) in
  _ ← cs_modify (ConnectData.set_volume 0);
  if decide (0 ≤ initial_volume ≤ u16_max) then
    _ ← set_volume initial_volume;
    modify (λ t, t <| update_volume := false |>)
  else mret ().
End spirc.
