(* ===== verification/SpircInv.v ===== *)
(** * An invariant of the connect device

    Every turn of the loop of the task keeps the limits of the connect state,
    the widths of the numbers it holds and hands out, a queue of contexts
    without repetitions, and the order of the events about the session: a
    device is active only after it was announced. *)

From S2P Require Import Prelude StdTypes Digits Text Wire SpotifyId SpotifyUri Metadata.
From S2P Require Import Player Session Protocol ShuffleVec StateMonad.
From S2P Require Import ConnectData ConnectQueue ConnectContext ConnectState ConnectFill ConnectInv ConnectFrame.
From S2P Require Import SpircData ContextResolver Spirc.

Local Open Scope string_scope.
Local Open Scope list_scope.
Local Open Scope Z_scope.

(** ** The invariant *)

Definition is_u16 (z : Z) : Prop := 0 ≤ z ≤ u16_max.
Definition is_u32 (z : Z) : Prop := 0 ≤ z ≤ u32_max.
Definition is_i64 (z : Z) : Prop := i64_min ≤ z ≤ ConnectData.i64_max.

Lemma is_u16_wrapu z : is_u16 (wrapu 16 z).
Proof. unfold is_u16, wrapu, u16_max. pose proof (Z.mod_pos_bound z (2 ^ 16)). lia. Qed.
Lemma is_u32_wrapu z : is_u32 (wrapu 32 z).
Proof. unfold is_u32, wrapu, u32_max. pose proof (Z.mod_pos_bound z (2 ^ 32)). lia. Qed.

Definition status_ok (s : SpircPlayStatus) : Prop :=
  match s with
  | Stopped => True
  | LoadingPlay p | LoadingPause p | Paused p _ => is_u32 p
  | Playing nominal_start_time _ => is_i64 nominal_start_time
  end.

(** A command the player can be given. *)
Definition player_command_ok (c : PlayerCommand) : Prop :=
  match c with
  | Player.Load _ _ p | Seek p => is_u32 p
  | EmitVolumeChangedEvent v => is_u16 v
  | _ => True
  end.

(** Whether the last event about the session said that it is connected. *)
Definition announced_step (b : bool) (c : PlayerCommand) : bool :=
  match c with
  | EmitSessionConnectedEvent _ _ => true
  | EmitSessionDisconnectedEvent _ _ => false
  | _ => b
  end.
Definition announced (l : list PlayerCommand) : bool := foldl announced_step false l.

Create HintDb connect_inv.
Create HintDb connect_device.
#[export] Hint Resolve inv_clear_next inv_clear_prev inv_options inv_set_active_context inv_update_queue_revision
  inv_update_restrictions inv_set_status inv_merge_context : connect_inv.
#[export] Hint Resolve merge_context_device : device.
#[export] Hint Resolve next_track_device prev_track_device reset_playback_device mark_unavailable_device
  handle_shuffle_device handle_set_repeat_context_device shuffle_new_device set_current_track_device
  set_current_track_random_device update_context_device finish_transfer_device fill_context_device
  fill_device : connect_device.
#[export] Hint Resolve handle_shuffle_inv handle_set_repeat_context_inv shuffle_new_inv update_context_inv
  finish_transfer_inv fill_context_keeps : preserves.

#[export] Hint Constants Opaque : preserves.
#[export] Hint Constants Opaque : connect_inv.
#[export] Hint Constants Opaque : connect_device.
#[export] Hint Constants Opaque : device.

Section inv.
Context {X : Type} {env : SpircEnv X} {hasher : DefaultHasher} {R : Type} {rng_R : Rng R} {rng_laws : RngLaws R} {L : Limits}.
(** The mixer has a 16 bit volume. *)
Class MixerLaw := mixer_u16 : ∀ x, is_u16 (mixer_volume x).1.
Context {mixer_law : MixerLaw}.

Abbreviation W := (st (World X) Error).

Record winv (w : World X) : Prop := {
  winv_state : inv (connect_state (task w));
  winv_volume : is_u16 (di_volume (device_info (request (connect_state (task w)))));
  winv_step : 0 ≤ volume_step_size (connect_state (task w));
  winv_status : status_ok (play_status (task w));
  winv_queue : NoDup (queue (context_resolver (task w)));
  winv_told : Forall player_command_ok (to_player w);
  winv_active : is_active (connect_state (task w)) = true → announced (to_player w) = true;
}.

(** ** The actions *)

Lemma get_task_keeps {A} P (f : SpircTask → W A) :
  (∀ w, P w → preserves P (f (task w))) → preserves P (get_task ≫= f).
Proof. intros Hf w w' r Hw E. by eapply (Hf w). Qed.
Lemma cs_get_keeps {A} P (f : ConnectState → W A) :
  (∀ w, P w → preserves P (f (connect_state (task w)))) → preserves P (cs_get ≫= f).
Proof. intros Hf w w' r Hw E. by eapply (Hf w). Qed.
Lemma call_keeps {A} (f : X → A * X) : preserves winv (call f).
Proof. intros w w' r []. unfold call. destruct (f (ext w)). intros [= <- <-]. by constructor. Qed.

(** Continue with a fact about the result of the first action. *)
Lemma preserves_bind_post {A B} P (Q : A → Prop) (m : W A) (f : A → W B) :
  preserves P m → (∀ w w' a, P w → m w = Val (w', Ok a) → Q a) → (∀ a, Q a → preserves P (f a)) →
  preserves P (m ≫= f).
Proof.
  intros Hm HQ Hf w w' r Hw. unfold mbind, st_bind. destruct (m w) as [[w1 [a|e]]|] eqn:E1; [..|done].
  - intros E2. eapply Hf; [by eapply HQ|by eapply Hm|done].
  - intros [= <- <-]. by eapply Hm.
Qed.
Lemma lift_i64_keeps {A} P (f : Z → W A) z :
  (is_i64 z → preserves P (f z)) → preserves P (lift_i64 z ≫= f).
Proof. intros Hf. unfold lift_i64. case_decide; [|done]. by apply Hf. Qed.
Lemma lift_i64_last P z : preserves P (lift_i64 z : W Z).
Proof. unfold lift_i64. preserve. Qed.
Lemma to_u32_bind {A} (f : Z → W A) z : (is_u32 z → preserves winv (f z)) → preserves winv (to_u32 z ≫= f).
Proof. intros Hf. unfold to_u32. case_decide; [by apply Hf|apply (preserves_throw winv)]. Qed.
Lemma mixer_volume_keeps {A} (f : Z → W A) :
  (∀ v, is_u16 v → preserves winv (f v)) → preserves winv (call mixer_volume ≫= f).
Proof.
  intros Hf. apply (preserves_bind_post _ is_u16); [apply call_keeps| |done].
  intros w w' a _. unfold call. pose proof (mixer_u16 (ext w)). destruct (mixer_volume (ext w)). by intros [= <- <-].
Qed.

Lemma announced_snoc l c : announced (l ++ [c]) = announced_step (announced l) c.
Proof. unfold announced. by rewrite foldl_app. Qed.

Lemma command_keeps c :
  player_command_ok c → (∀ b, announced_step b c = b) → preserves winv (command c).
Proof.
  intros Hc Ha. apply preserves_modify. intros w []. constructor; try done; simpl.
  - apply Forall_app. by repeat constructor.
  - by rewrite announced_snoc, Ha.
Qed.

(** A change of the connect state that leaves the device alone. *)
Lemma winv_set_state s w :
  winv w → inv s → device s = device (connect_state (task w)) →
  winv (w <| task ::= (λ t, t <| connect_state := s |>) |>).
Proof. intros [] Hs [= Ha Hv Hst]. constructor; simpl; try done; [by rewrite Hv|by rewrite Hst|by rewrite Ha]. Qed.

Lemma cs_modify_keeps f :
  (∀ s, inv s → inv (f s)) → (∀ s, device (f s) = device s) → preserves winv (cs_modify f).
Proof.
  intros Hi Hd. apply preserves_modify. intros w Hw.
  apply (winv_set_state (f (connect_state (task w))) w Hw); [apply Hi, Hw|apply Hd].
Qed.
Lemma cs_exec_keeps f :
  (∀ s s', inv s → f s = Val s' → inv s') → (∀ s s', f s = Val s' → device s' = device s) →
  preserves winv (cs_exec f).
Proof.
  intros Hi Hd w w' r Hw. unfold cs_exec. destruct (f (connect_state (task w))) as [s|] eqn:E; [|done].
  intros [= <- <-]. apply winv_set_state; [done|by eapply Hi; [apply Hw|]|by eapply Hd].
Qed.
Lemma cs_run_keeps {A} (m : M A) :
  preserves inv m → (∀ d, preserves (same_device d) m) → preserves winv (cs_run m).
Proof.
  intros Hi Hd w w' r Hw. unfold cs_run. destruct (m (connect_state (task w))) as [[s o]|] eqn:E; [|done].
  intros [= <- <-]. apply winv_set_state; [done|by eapply Hi; [apply Hw|]|by eapply Hd].
Qed.

Lemma reset_context_keeps how : preserves winv (cs_exec (reset_context how)).
Proof. apply cs_exec_keeps; intros s s'; [apply reset_context_inv|apply reset_context_device]. Qed.
Lemma add_to_queue_keeps t b : preserves winv (cs_exec (add_to_queue t b)).
Proof. apply cs_exec_keeps; intros s s'; [apply add_to_queue_inv|apply add_to_queue_device]. Qed.

Lemma status_keeps st : status_ok st → preserves winv (modify (λ t, t <| play_status := st |>)).
Proof. intros Hst. apply preserves_modify. intros w []. by constructor. Qed.

Lemma resolver_keeps f :
  (∀ q, NoDup (queue q) → NoDup (queue (f q))) → preserves winv (resolver_modify f).
Proof. intros Hf. apply preserves_modify. intros w []. constructor; try done. by apply Hf. Qed.
Lemma resolver_clear_keeps : preserves winv (resolver_modify clear).
Proof. apply resolver_keeps. intros q _. apply NoDup_nil_2. Qed.
Lemma resolver_add_keeps r : preserves winv (resolver_add r).
Proof.
  unfold resolver_add. apply preserves_bind; [apply call_keeps|intros now].
  apply resolver_keeps. intros q. apply add_NoDup.
Qed.

Lemma caught_keeps {A B} P (ok err : W B) (m : W A) :
  preserves P m → preserves P ok → preserves P err → preserves P (caught ok err m).
Proof.
  intros Hm Hok Herr w w' r Hw. unfold caught. destruct (m w) as [[w1 [a|e]]|] eqn:E; [..|done].
  - apply Hok. by eapply Hm.
  - assert (P w1) as H1 by by eapply Hm. destruct e; try (by apply Herr); by intros [= <- <-].
Qed.
Lemma ignore_err_keeps {A} P (m : W A) : preserves P m → preserves P (ignore_err m).
Proof. intros Hm. apply caught_keeps; [done|apply preserves_ret..]. Qed.

Hint Resolve call_keeps lift_i64_last resolver_add_keeps resolver_clear_keeps reset_context_keeps add_to_queue_keeps : preserves.

(** What the invariant says of a status that was read. *)
Ltac status_facts :=
  repeat match goal with
  | H : winv ?w, E : play_status (task ?w) = _ |- _ =>
      pose proof (winv_status _ H); rewrite E in *; clear E; cbn [status_ok] in *
  end.
Ltac spirc_step :=
  match goal with
  | |- preserves _ (get_task ≫= _) => apply get_task_keeps; intros ? ?
  | |- preserves _ (cs_get ≫= _) => apply cs_get_keeps; intros ? ?
  | |- preserves _ (lift_i64 _ ≫= _) => apply lift_i64_keeps; intros ?
  | |- preserves _ (to_u32 _ ≫= _) => apply to_u32_bind; intros ?
  | |- preserves _ (call mixer_volume ≫= _) => apply mixer_volume_keeps; intros ? ?
  | |- preserves _ (command (EmitVolumeChangedEvent (wrapu _ _))) => apply command_keeps; [apply is_u16_wrapu|done]
  | |- preserves _ (command _) => solve [apply command_keeps; done]
  | |- preserves _ (ignore_err _) => apply ignore_err_keeps
  | |- preserves _ (modify (λ t, t <| play_status := Paused (wrapu _ _) _ |>)) => apply status_keeps, is_u32_wrapu
  | |- preserves _ (modify _) => solve [apply preserves_modify; intros ? []; by constructor]
  | |- preserves _ (modify _) => solve [apply status_keeps; status_facts; done]
  | |- preserves _ (st_modify _) => solve [apply preserves_modify; intros ? []; by constructor]
  | |- preserves _ (cs_modify _) => solve [apply cs_modify_keeps; auto with connect_inv device]
  | |- preserves _ (cs_run _) => solve [apply cs_run_keeps; auto with preserves connect_device]
  | |- _ => preserve_step
  end.
Ltac spirc_steps := repeat spirc_step.

(** ** Reporting and volume *)

Lemma now_ms_keeps : preserves winv now_ms.
Proof. unfold now_ms. spirc_steps. Qed.
Hint Resolve now_ms_keeps : preserves.
Lemma now_ms_post {A} (f : Z → W A) : (∀ z, is_i64 z → preserves winv (f z)) → preserves winv (now_ms ≫= f).
Proof.
  intros Hf. apply (preserves_bind_post _ is_i64); [apply now_ms_keeps| |done]. intros w w' a _.
  intros (w1 & t & _ & (w2 & u & _ & (w3 & d & _ & E)%st_bind_Ok_inv)%st_bind_Ok_inv)%st_bind_Ok_inv.
  unfold lift_i64 in E. case_decide; [|done]. by injection E as <- <-.
Qed.

Lemma emit_set_queue_event_keeps : preserves winv emit_set_queue_event.
Proof. unfold emit_set_queue_event. spirc_steps. Qed.

Lemma update_position_now_keeps p : preserves winv (update_position_now p).
Proof. unfold update_position_now. spirc_steps. Qed.

Lemma send_request_keeps {A} (f : X → result A () * X) : preserves winv (send_request f).
Proof. unfold send_request. spirc_steps. Qed.
Hint Resolve emit_set_queue_event_keeps update_position_now_keeps send_request_keeps : preserves.

Lemma in_relation_keeps now : preserves winv (cs_exec (update_position_in_relation now)).
Proof.
  apply cs_exec_keeps; unfold update_position_in_relation.
  - intros s s' Hs (d & _ & (p & _ & [= <-])%exec_bind_Val_inv)%exec_bind_Val_inv. by apply (inv_same s).
  - by intros s s' (d & _ & (p & _ & [= <-])%exec_bind_Val_inv)%exec_bind_Val_inv.
Qed.
Hint Resolve in_relation_keeps : preserves.

Lemma set_now_same now s : inv s → inv (set_now now s).
Proof.
  intros Hs. unfold set_now. simpl. destruct (active_since s); [|by apply (inv_same s)].
  repeat case_decide; by apply (inv_same s).
Qed.
Lemma set_now_device now s : device (set_now now s) = device s.
Proof. unfold set_now. simpl. destruct (active_since s); [|done]. by repeat case_decide. Qed.

Hint Resolve set_now_same : connect_inv.
Hint Resolve set_now_device : device.

Lemma notify_keeps : preserves winv notify.
Proof. unfold notify. spirc_steps. Qed.

Lemma state_volume_keeps v : is_u16 v → preserves winv (cs_modify (ConnectData.set_volume v)).
Proof. intros Hv. apply preserves_modify. intros w []. by constructor. Qed.
Lemma set_volume_keeps v : is_u16 v → preserves winv (set_volume v).
Proof. intros Hv. unfold set_volume. spirc_steps. by apply state_volume_keeps. Qed.

Lemma handle_volume_up_keeps : preserves winv handle_volume_up.
Proof.
  unfold handle_volume_up. spirc_steps. apply set_volume_keeps.
  pose proof (winv_step _ H). pose proof (winv_volume _ H). unfold is_u16, wrapu, u16_max in *.
  rewrite Z.mod_small; lia.
Qed.
Lemma handle_volume_down_keeps : preserves winv handle_volume_down.
Proof.
  unfold handle_volume_down. spirc_steps. apply set_volume_keeps.
  pose proof (winv_step _ H). pose proof (winv_volume _ H). unfold is_u16, wrapu, u16_max in *.
  rewrite Z.mod_small; lia.
Qed.
Hint Resolve notify_keeps set_volume_keeps handle_volume_up_keeps handle_volume_down_keeps : preserves.

(** ** Resolving *)

Lemma add_autoplay_keeps : preserves winv add_autoplay_resolving_when_required.
Proof. unfold add_autoplay_resolving_when_required. spirc_steps. Qed.
Hint Resolve add_autoplay_keeps : preserves.

Lemma lift_connect_keeps {A} P (m : M A) : preserves P m → preserves P (lift_connect m).
Proof.
  intros Hm s s' r Hs. unfold lift_connect. destruct (m s) as [[s1 [a|e]]|] eqn:E; [..|done];
    intros [= <- <-]; by eapply Hm.
Qed.

(** What keeps every update of a context keeps its application. *)
Lemma apply_next_context_keeps (P : ConnectState → Prop) ids ctx self :
  (∀ ty, preserves P (update_context ids ctx ty)) → (∀ page s, P s → P (merge_context page s).2) →
  (∀ page, preserves P (fill_context_from_page (ids 0%nat) page)) →
  preserves P (apply_next_context ids ctx self).
Proof.
  intros Hupdate Hmerge Hfill. unfold apply_next_context, append_pages.
  destruct (find_next self) as [[[next u] n]|]; [|apply preserves_throw].
  apply preserves_bind; [|intros; apply preserves_ret]. destruct (action next).
  - preserve. by apply lift_connect_keeps.
  - intros s s' r Hs. unfold replace_context. destruct (update_context _ _ _ s) as [[s1 o]|] eqn:E; [|done].
    apply Hupdate in E; [|done]. intros [= <- <-]. destruct (resolve next); [done|by apply Hmerge].
Qed.

Lemma finish_setup_keeps (P : ConnectState → Prop) uuid uuids seed next tr :
  (∀ tr, preserves P (finish_transfer (R:=R) uuid uuids seed tr)) → preserves P (shuffle_new (R:=R) seed) →
  (∀ i, preserves P (reset_playback_to_position i)) → preserves P fill_up_next_tracks →
  preserves P (finish_setup (R:=R) uuid uuids seed next tr).
Proof. intros H1 H2 H3 H4. unfold finish_setup. preserve. Qed.

Lemma try_finish_keeps uuid uuids seed self tr s s' tr' b :
  inv s → try_finish (R:=R) uuid uuids seed self tr s = Val (s', tr', b) → inv s' ∧ device s' = device s.
Proof.
  intros Hs. unfold try_finish. destruct (find_next self) as [[[next u] n]|]; [|by intros [= <- <- <-]].
  case_decide; [by intros [= <- <- <-]|]. case_decide; [by intros [= <- <- <-]|].
  destruct (finish_setup _ _ _ _ _ s) as [[s1 o]|] eqn:E; [|done]. intros [= <- <- <-]. split.
  - apply inv_update_queue_revision, inv_update_restrictions.
    by eapply (finish_setup_keeps inv); [..|exact E]; eauto with preserves.
  - change (device s1 = device s). by eapply (finish_setup_keeps (same_device (device s))); [..|exact E]; eauto with connect_device.
Qed.

Lemma handle_next_context_keeps c : preserves winv (handle_next_context (R:=R) c).
Proof.
  unfold handle_next_context. spirc_steps; try (apply resolver_keeps; intros q).
  - intros w w' r Hw. destruct (apply_next_context _ _ _ _) as [[s o]|] eqn:E; [|done]. intros [= <- <-].
    apply winv_set_state; [done|..].
    + eapply (apply_next_context_keeps inv); [..|exact E]; [intros; apply update_context_inv|intros; by apply inv_merge_context
        |intros; apply fill_context_keeps|apply Hw].
    + eapply (apply_next_context_keeps (same_device _)); [..|exact E]; [intros; apply update_context_device
        |intros; by rewrite merge_context_device|intros; apply fill_context_device|done].
  - apply add_list_NoDup.
  - intros w' w'' r Hw. destruct (try_finish _ _ _ _ _ _) as [[[s tr] b]|] eqn:E; [|done]. intros [= <- <-].
    destruct (try_finish_keeps _ _ _ _ _ _ _ _ _ (winv_state _ Hw) E) as [Hs Hd].
    destruct (winv_set_state s w' Hw Hs Hd). by constructor.
  - apply remove_used_NoDup.
  - unfold mark_next_unavailable. by destruct (find_next q) as [[[r u] n]|].
  - apply remove_used_NoDup.
Qed.
Hint Resolve handle_next_context_keeps : preserves.

Lemma fetch_next_context_keeps l : preserves winv (fetch_next_context l).
Proof. unfold fetch_next_context. spirc_steps. Qed.
Hint Resolve fetch_next_context_keeps : preserves.

(** ** Playback *)

Lemma handle_stop_keeps : preserves winv handle_stop.
Proof. unfold handle_stop. spirc_steps. Qed.
Hint Resolve handle_stop_keeps : preserves.

Lemma load_track_keeps play p : is_u32 p → preserves winv (load_track play p).
Proof. intros Hp. unfold load_track. spirc_steps; apply status_keeps; by destruct play. Qed.
Hint Resolve load_track_keeps : preserves.

Lemma handle_play_keeps : preserves winv handle_play.
Proof. unfold handle_play. spirc_steps. Qed.


Lemma handle_pause_keeps : preserves winv handle_pause.
Proof. unfold handle_pause. spirc_steps. Qed.
Hint Resolve handle_play_keeps handle_pause_keeps : preserves.
Lemma handle_play_pause_keeps : preserves winv handle_play_pause.
Proof. unfold handle_play_pause. spirc_steps. Qed.

Lemma handle_seek_keeps p : is_u32 p → preserves winv (handle_seek p).
Proof. intros Hp. unfold handle_seek. spirc_steps. Qed.

Lemma handle_shuffle_keeps on : preserves winv (handle_shuffle (R:=R) on).
Proof. unfold handle_shuffle. spirc_steps. Qed.
Lemma handle_repeat_context_keeps on : preserves winv (handle_repeat_context on).
Proof. unfold handle_repeat_context. spirc_steps. Qed.
Lemma handle_repeat_track_keeps on : preserves winv (handle_repeat_track on).
Proof. unfold handle_repeat_track, set_repeat_track. spirc_steps. Qed.

Lemma handle_preload_keeps : preserves winv handle_preload_next_track.
Proof.
  unfold handle_preload_next_track. spirc_steps. apply preserves_modify. intros w []. constructor; try done.
  simpl. by destruct (play_status (task w)).
Qed.
Hint Resolve handle_play_pause_keeps handle_seek_keeps handle_shuffle_keeps handle_repeat_context_keeps
  handle_repeat_track_keeps handle_preload_keeps : preserves.
Lemma handle_unavailable_keeps id : preserves winv (handle_unavailable id).
Proof. unfold handle_unavailable. spirc_steps. Qed.
Hint Resolve handle_unavailable_keeps : preserves.

Lemma next_until_keeps turns u : preserves winv (next_until turns u).
Proof. induction turns as [|turns IH]; cbn [next_until]; spirc_steps. Qed.
Lemma is_u32_0 : is_u32 0.
Proof. done. Qed.
Hint Resolve next_until_keeps is_u32_0 : preserves.
Lemma handle_next_keeps turns u : preserves winv (handle_next turns u).
Proof. unfold handle_next. spirc_steps. Qed.
Lemma position_keeps : preserves winv position.
Proof. unfold position. spirc_steps. Qed.
Hint Resolve handle_next_keeps position_keeps : preserves.
Lemma handle_prev_keeps : preserves winv handle_prev.
Proof. unfold handle_prev. spirc_steps. Qed.
Hint Resolve handle_prev_keeps : preserves.

(** ** Becoming active and inactive *)

(** The activity of the device changes, and it is announced. *)
Lemma winv_set_active s cmds w :
  winv w → inv s → device_info (request s) = device_info (request (connect_state (task w))) →
  volume_step_size s = volume_step_size (connect_state (task w)) → Forall player_command_ok cmds →
  (is_active s = true → announced (to_player w ++ cmds) = true) →
  winv (w <| task ::= (λ t, t <| connect_state := s |>) |> <| to_player ::= (λ l, l ++ cmds) |>).
Proof.
  intros [] Hs Hv Hst Hc Ha. constructor; try done; simpl; [by rewrite Hv|by rewrite Hst|by apply Forall_app].
Qed.

Lemma announce_keeps {A} now (id name : World X → string) (m : World X → W A) :
  (∀ w, preserves winv (m w)) →
  preserves winv (_ ← cs_modify (set_active now true); w ← st_get;
                  _ ← command (EmitSessionConnectedEvent (id w) (name w)); m w).
Proof.
  intros Hm w w' r Hw E. set (w1 := w <| task ::= (λ t, t <| connect_state ::= set_active now true |>) |>).
  refine (Hm w1 (w1 <| to_player ::= (λ l, l ++ [EmitSessionConnectedEvent (id w1) (name w1)]) |>) w' r _ E).
  apply (winv_set_active (set_active now true (connect_state (task w))) [_] w Hw).
  - unfold set_active. destruct (rq_is_active _); [apply Hw|]. eapply inv_same; [apply Hw|done..].
  - unfold set_active. by destruct (rq_is_active _).
  - unfold set_active. by destruct (rq_is_active _).
  - by repeat constructor.
  - by rewrite announced_snoc.
Qed.


Lemma handle_activate_keeps : preserves winv handle_activate.
Proof. unfold handle_activate. apply preserves_bind; [apply call_keeps|intros now]. apply announce_keeps. intros w. spirc_steps. Qed.

Lemma state_inactive_keeps : preserves winv (cs_exec ConnectState.became_inactive).
Proof.
  intros w w' r Hw E. unfold cs_exec in E. destruct (ConnectState.became_inactive _) as [s|] eqn:Es; [|done].
  injection E as <- <-. pose proof (became_inactive_inv _ _ (winv_state _ Hw) Es) as Hs.
  apply became_inactive_device in Es as [= Ha Hv Hst].
  destruct Hw. constructor; simpl; try done; [by rewrite Hv|by rewrite Hst|by rewrite Ha].
Qed.
Hint Resolve handle_activate_keeps state_inactive_keeps : preserves.
Lemma became_inactive_keeps : preserves winv became_inactive.
Proof. unfold became_inactive. spirc_steps. Qed.
Hint Resolve became_inactive_keeps : preserves.

(** The disconnection is announced after the device became inactive. *)
Lemma became_inactive_done w w' : became_inactive w = Val (w', Ok ()) → is_active (connect_state (task w')) = false.
Proof.
  unfold became_inactive, send_request. intros (w1 & [] & E1 & (w2 & [] & E2 & [= <-])%st_bind_Ok_inv)%st_bind_Ok_inv.
  apply st_bind_Ok_inv in E2 as (w3 & o & E2 & E3). unfold call in E2.
  destruct (put_connect_state_inactive (ext w1)) as [x1 x2]. injection E2 as <- <-.
  destruct x1; [|done]. injection E3 as <-. unfold cs_exec in E1.
  destruct (ConnectState.became_inactive _) eqn:E; [|done]. injection E1 as <-. simpl.
  by apply became_inactive_device in E as [= -> _ _].
Qed.

Lemma handle_disconnect_keeps : preserves winv handle_disconnect.
Proof.
  unfold handle_disconnect. do 5 (apply preserves_bind; [spirc_steps|intros ?]). intros w w' r Hw. unfold mbind at 1, st_bind at 1.
  destruct (became_inactive w) as [[w1 [[]|e]]|] eqn:E; [..|done].
  - pose proof (became_inactive_keeps _ _ _ Hw E) as []. apply became_inactive_done in E.
    intros [= <- <-]. constructor; simpl; try done; [apply Forall_app; by repeat constructor|congruence].
  - intros [= <- <-]. by eapply became_inactive_keeps.
Qed.
Hint Resolve handle_disconnect_keeps : preserves.

(** ** Loading *)

Lemma load_context_from_tracks_keeps page : preserves winv (load_context_from_tracks page).
Proof. unfold load_context_from_tracks. spirc_steps. Qed.
Hint Resolve load_context_from_tracks_keeps : preserves.

Lemma load_context_from_uri_keeps u page auto : preserves winv (load_context_from_uri (R:=R) u page auto).
Proof. unfold load_context_from_uri. spirc_steps. Qed.
Hint Resolve load_context_from_uri_keeps : preserves.

Lemma playing_index_keeps pt i : preserves winv (playing_index pt i).
Proof. unfold playing_index. spirc_steps. Qed.
Lemma set_load_options_keeps o : preserves winv (set_load_options o).
Proof. unfold set_load_options, set_shuffle, set_repeat_context, set_repeat_track. spirc_steps. Qed.
Lemma start_shuffled_keeps i : preserves winv (start_shuffled (R:=R) i).
Proof. unfold start_shuffled. spirc_steps. Qed.
Lemma start_in_order_keeps i : preserves winv (start_in_order i).
Proof. unfold start_in_order. spirc_steps. Qed.
Hint Resolve playing_index_keeps set_load_options_keeps start_shuffled_keeps start_in_order_keeps : preserves.

Lemma reset_options_inv s : inv s → inv (reset_options s).
Proof. intros Hs. by do 3 apply inv_options. Qed.
Lemma reset_options_device s : device (reset_options s) = device s.
Proof. unfold reset_options, set_repeat_context, set_repeat_track, set_shuffle. by rewrite !options_device. Qed.
Hint Resolve reset_options_inv : connect_inv.
Hint Resolve reset_options_device : device.

Lemma handle_load_keeps cmd page i :
  is_u32 (seek_to (lr_options cmd)) → preserves winv (handle_load (R:=R) cmd page i).
Proof. intros Hp. unfold handle_load. spirc_steps. Qed.
Hint Resolve handle_load_keeps : preserves.

(** ** Transfers *)

Lemma transfer_position_keeps now tr : preserves winv (transfer_position now tr).
Proof. unfold transfer_position. spirc_steps. Qed.
Lemma transfer_context_keeps tr u : preserves winv (transfer_context tr u).
Proof.
  unfold transfer_context. spirc_steps. intros w w' r Hw. destruct (current_track_from_transfer _ _ _) as [[t|e]|]; [..|done].
  - intros [= <- <-]. apply (winv_set_state (set_track t (connect_state (task w))) w Hw); [|done].
    eapply inv_same; [apply Hw|done..].
  - by intros [= <- <-].
Qed.
Lemma transfer_tracks_keeps tr u : preserves winv (transfer_tracks tr u).
Proof. unfold transfer_tracks. spirc_steps. Qed.
Lemma transfer_setup_keeps tr b : preserves winv (transfer_setup tr b).
Proof. unfold transfer_setup. spirc_steps. Qed.
Hint Resolve transfer_position_keeps transfer_context_keeps transfer_tracks_keeps transfer_setup_keeps : preserves.

Lemma initial_transfer_keeps tr u : preserves winv (λ w : World X,
  let '(tr, s) := handle_initial_transfer tr u (connect_state (task w)) in
  Val (w <| task ::= (λ t, t <| connect_state := s |>) |>, Ok tr : result TransferState Error)).
Proof.
  intros w w' r Hw. pose proof (inv_handle_initial_transfer tr u _ (winv_state _ Hw)) as Hs.
  pose proof (initial_transfer_device tr u (connect_state (task w))) as Hd.
  destruct (handle_initial_transfer tr u (connect_state (task w))) as [tr' s]. intros [= <- <-].
  by apply winv_set_state.
Qed.
Hint Resolve initial_transfer_keeps : preserves.

Lemma handle_transfer_keeps tr : preserves winv (handle_transfer tr).
Proof. unfold handle_transfer. spirc_steps. Qed.
Hint Resolve handle_transfer_keeps : preserves.

(** ** Commands, requests and events *)

Definition spirc_command_ok (c : SpircCommand.t) : Prop :=
  match c with
  | SpircCommand.SetPosition p => is_u32 p
  | SpircCommand.SetVolume v => is_u16 v
  | SpircCommand.Load r => is_u32 (seek_to (lr_options r))
  | _ => True
  end.
Definition request_ok (c : Command) : Prop :=
  match c with
  | SeekTo p => is_u32 p
  | Play _ _ options => is_u32 (default 0 (po_seek_to options))
  | _ => True
  end.
(** The tracks a request sets: previous and next ones. *)
Definition request_sets (c : Command) : nat * nat := match c with SetQueue next prev => (length prev, length next) | _ => (0, 0)%nat end.
Definition request_within (c : Command) : Prop := ((request_sets c).1 ≤ most_prev)%nat ∧ ((request_sets c).2 ≤ most_next)%nat.
Definition event_ok (e : PlayerEvent) : Prop :=
  match e with EvPaused _ _ p => is_u32 p | _ => True end.

Lemma add_track_uris_keeps l : preserves winv (add_track_uris l).
Proof. induction l as [|u l IH]; cbn [add_track_uris foldr]; spirc_steps. Qed.
Hint Resolve add_track_uris_keeps : preserves.
Lemma handle_add_to_queue_keeps u : preserves winv (handle_add_to_queue u).
Proof. unfold handle_add_to_queue. spirc_steps. Qed.
Hint Resolve handle_add_to_queue_keeps : preserves.

Lemma handle_command_keeps turns c : spirc_command_ok c → preserves winv (handle_command (R:=R) turns c).
Proof. intros Hc. destruct c; unfold handle_command, active_command; simpl in Hc; spirc_steps. Qed.

Lemma play_context_keeps c : preserves winv (play_context c).
Proof. unfold play_context. spirc_steps. Qed.
Hint Resolve play_context_keeps : preserves.
Lemma set_queue_keeps next prev :
  request_within (SetQueue next prev) →
  preserves winv (cs_exec (handle_set_queue next prev)).
Proof.
  intros [H1 H2]. apply cs_exec_keeps; intros s s'; [by apply handle_set_queue_inv|apply handle_set_queue_device].
Qed.
Hint Resolve set_queue_keeps : preserves.

Lemma request_play_keeps c o opts :
  is_u32 (default 0 (po_seek_to opts)) → preserves winv (request_play (R:=R) c o opts).
Proof. intros Hp. unfold request_play. spirc_steps. Qed.
Lemma request_options_keeps s r t : preserves winv (request_options (R:=R) s r t).
Proof. unfold request_options. spirc_steps. Qed.
Hint Resolve request_play_keeps request_options_keeps : preserves.

Lemma request_command_keeps turns c : request_ok c → request_within c → preserves winv (request_command (R:=R) turns c).
Proof. intros Hc Hw. destruct c; unfold request_command; simpl in Hc; spirc_steps. Qed.

Lemma handle_request_keeps turns r :
  request_ok (SpircData.command r) → request_within (SpircData.command r) → preserves winv (handle_request (R:=R) turns r).
Proof.
  intros Hc Hw. pose proof (request_command_keeps turns _ Hc Hw). unfold handle_request. spirc_steps.
Qed.

Lemma handle_connect_state_request_keeps turns r :
  request_ok (SpircData.command r) → request_within (SpircData.command r) → preserves winv (handle_connect_state_request (R:=R) turns r).
Proof.
  intros Hr Hw. unfold handle_connect_state_request. spirc_steps.
  apply caught_keeps; [by apply handle_request_keeps|apply preserves_ret..].
Qed.

Lemma event_playing_keeps p : preserves winv (event_playing p).
Proof. unfold event_playing. spirc_steps. Qed.
Lemma event_paused_keeps p : is_u32 p → preserves winv (event_paused p).
Proof. intros Hp. unfold event_paused. spirc_steps. Qed.
Hint Resolve event_playing_keeps event_paused_keeps : preserves.

Lemma current_event_keeps turns e : event_ok e → preserves winv (current_event turns e).
Proof. intros He. unfold current_event. destruct e; simpl in He; spirc_steps. Qed.
Lemma handle_player_event_keeps turns e : event_ok e → preserves winv (handle_player_event turns e).
Proof. intros He. pose proof (current_event_keeps turns e He). unfold handle_player_event. spirc_steps. Qed.

(** ** Updates of the dealer *)

Lemma send_with_reason_keeps {A} reason (f : PutStateRequest → X → A * X) :
  preserves winv (λ w : World X,
    let '((r, x), s) := send_with_reason (λ q, f q (ext w)) reason (connect_state (task w)) in
    Val (w <| task ::= (λ t, t <| connect_state := s |>) |> <| ext := x |>, Ok r : result A Error)).
Proof.
  intros w w' r []. unfold send_with_reason. simpl. destruct (f _ (ext w)) as [a x]. intros [= <- <-].
  by constructor.
Qed.

Lemma handle_connection_id_update_keeps id : preserves winv (handle_connection_id_update id).
Proof.
  unfold handle_connection_id_update. spirc_steps. apply (send_with_reason_keeps NEW_DEVICE put_connect_state).
Qed.
Lemma handle_user_attributes_update_keeps l : preserves winv (handle_user_attributes_update l).
Proof.
  intros w w' r []. unfold handle_user_attributes_update. destruct (set_user_attributes _ _); intros [= <- <-]; by constructor.
Qed.
Lemma mutate_attribute_keeps key : preserves winv (mutate_attribute key).
Proof.
  unfold mutate_attribute. spirc_steps. intros w w' r []. destruct (set_user_attribute _ _ _) as [[]|];
    intros [= <- <-]; by constructor.
Qed.
Hint Resolve mutate_attribute_keeps : preserves.
Lemma handle_user_attributes_mutation_keeps l : preserves winv (handle_user_attributes_mutation l).
Proof. unfold handle_user_attributes_mutation. induction l as [|k l IH]; cbn [foldr]; spirc_steps. Qed.
Lemma handle_cluster_update_keeps c : preserves winv (handle_cluster_update c).
Proof. unfold handle_cluster_update. spirc_steps. Qed.
Lemma handle_playlist_modification_keeps u : preserves winv (handle_playlist_modification u).
Proof. unfold handle_playlist_modification. spirc_steps. Qed.
Lemma handle_session_update_keeps u : preserves winv (handle_session_update u).
Proof. unfold handle_session_update. spirc_steps. Qed.
Hint Resolve handle_connection_id_update_keeps handle_user_attributes_update_keeps handle_cluster_update_keeps
  handle_user_attributes_mutation_keeps handle_playlist_modification_keeps handle_session_update_keeps
  handle_connect_state_request_keeps handle_command_keeps handle_player_event_keeps : preserves.

(** ** The loop *)

(** What is selected has the widths of its types. *)
Definition selected_ok (sel : Selected) : Prop :=
  match sel with
  | SelRequest (Some r) => request_ok (SpircData.command r)
  | SelCommand (Some c) => spirc_command_ok c
  | SelPlayer (Some e) => event_ok e
  | _ => True
  end.

Definition selected_sets (sel : Selected) : nat * nat :=
  match sel with SelRequest (Some r) => request_sets (SpircData.command r) | _ => (0, 0)%nat end.
Definition selected_within (sel : Selected) : Prop :=
  ((selected_sets sel).1 ≤ most_prev)%nat ∧ ((selected_sets sel).2 ≤ most_next)%nat.

Lemma on_message_keeps {A} (m : option (result A ())) f : (∀ a, preserves winv (f a)) → preserves winv (on_message m f).
Proof. intros Hf. unfold on_message. spirc_steps. Qed.
Lemma go_on_keeps m : preserves winv m → preserves winv (go_on m).
Proof. intros Hm. unfold go_on. spirc_steps. Qed.
Hint Resolve go_on_keeps : preserves.

Lemma volume_timer_keeps : preserves winv volume_timer.
Proof.
  unfold volume_timer. spirc_steps. intros w w' r []. unfold notify_volume_changed, send_with_reason. simpl.
  destruct (put_connect_state _ (ext w)). intros [= <- <-]. by constructor.
Qed.
Lemma next_context_turn_keeps : preserves winv (next_context_turn (R:=R)).
Proof. unfold next_context_turn. spirc_steps. Qed.
Hint Resolve volume_timer_keeps next_context_turn_keeps : preserves.

Lemma turn_keeps turns sel : selected_ok sel → selected_within sel → preserves winv (turn (R:=R) turns sel).
Proof.
  intros Hsel Hw. destruct sel as [m|m|[r|]|m|m|m|m|m|m|[c|]|[e|]| | |]; unfold turn; cbn [selected_ok] in Hsel;
    try (apply on_message_keeps; intros msg); spirc_steps.
  apply caught_keeps; auto with preserves.
Qed.

Lemma finish_keeps : preserves winv finish.
Proof. unfold finish. spirc_steps. Qed.

Lemma spirc_run_keeps turns sels :
  Forall selected_ok sels → Forall selected_within sels → preserves winv (run (R:=R) turns sels).
Proof.
  pose proof finish_keeps. induction 1 as [|sel sels Hsel _ IH]; intros Hw; cbn [run]; [spirc_steps|].
  apply Forall_cons in Hw as [Hw Hws]. specialize (IH Hws). spirc_steps. by apply turn_keeps.
Qed.

Lemma spirc_new_keeps : preserves winv spirc_new.
Proof. unfold spirc_new. spirc_steps. by apply state_volume_keeps. Qed.
End inv.
