(* ===== verification/SpircProps.v ===== *)
(** * Properties of the connect device

    What the handlers of [spirc.rs] do: skipping to a track, loading a list of
    tracks, pausing and resuming, disconnecting, and how contexts that could
    not be fetched are put off. *)

From S2P Require Import Prelude StdTypes Digits Text Wire SpotifyId SpotifyUri Metadata.
From S2P Require Import Player Session Protocol ShuffleVec StateMonad.
From S2P Require Import ConnectData ConnectQueue ConnectContext ConnectState ConnectFill ConnectInv ConnectFrame ConnectProps ConnectLoad.
From S2P Require Import SpircData ContextResolver Spirc SpircInv.

Local Open Scope string_scope.
Local Open Scope list_scope.
Local Open Scope Z_scope.

(** ** Running a skip *)

Section skip.
Context `{DefaultHasher}.
Implicit Types s : ConnectState.

(** A track that a skip stops at. *)
Definition playable (t : ProvidedTrack) : Prop := is_delimiter t = false ∧ is_unavailable t = false.
#[global] Instance playable_dec t : Decision (playable t).
Proof. unfold playable. apply _. Defined.

Lemma next_loop_playable l n rest : ∀ s,
  Forall (λ t, ¬ playable t) l → playable n → next_tracks s = l ++ n :: rest →
  ∃ s', next_loop (l ++ n :: rest) s = (Some n, s') ∧ next_tracks s' = rest ∧
    context s' = context s ∧ autoplay_context s' = autoplay_context s ∧ fill_up_context s' = fill_up_context s.
Proof.
  induction l as [|t l IH]; intros s Hl Hn Hs; simpl.
  - destruct Hn as [-> ->]. eexists. split; [done|]. simpl. rewrite next_tracks_next_tracks_mut, Hs. done.
  - apply Forall_cons in Hl as [Ht Hl]. destruct (is_delimiter t) eqn:Hd; [|destruct (is_unavailable t) eqn:Hu].
    + destruct (IH (push_prev t (next_tracks_mut tail s)) Hl Hn) as (s' & -> & ? & ? & ? & ?); [|by eexists].
      change (tail (next_tracks s) = l ++ n :: rest). by rewrite Hs.
    + destruct (IH (next_tracks_mut tail s) Hl Hn) as (s' & -> & ? & ? & ? & ?); [|by eexists].
      rewrite next_tracks_next_tracks_mut. by rewrite Hs.
    + by destruct Ht.
Qed.

(** A skip goes to the first playable track. *)
Lemma next_track_playable s l n rest :
  inv s → next_tracks s = l ++ n :: rest → Forall (λ t, ¬ playable t) l → playable n →
  is_Some (context_of (fill_up_context s) s) →
  ∃ s' added r, next_track s = Val (s', Ok (Some r)) ∧ inv s' ∧ ps_track (player s') = Some n ∧
    next_tracks s' = rest ++ added ∧ is_Some (context_of (fill_up_context s') s').
Proof.
  intros Hs Hn Hl Hp Hctx. unfold next_track. rewrite st_modify_bind, st_modify_bind, st_get_bind.
  set (s1 := if repeat_track s then set_repeat_track false s else s).
  assert (inv s1 ∧ next_tracks s1 = next_tracks s ∧ is_Some (context_of (fill_up_context s1) s1)) as (H1 & Hn1 & Hc1).
  { unfold s1. destruct (repeat_track s); [|done]. split; [by apply inv_options|].
    unfold set_repeat_track, options_mut, add_options_if_empty. by destruct (ps_options (player s)). }
  clearbody s1. pose proof (inv_retire_track s1 H1) as H2.
  assert (next_tracks (retire_track s1) = next_tracks s1 ∧ context (retire_track s1) = context s1 ∧
    autoplay_context (retire_track s1) = autoplay_context s1 ∧ fill_up_context (retire_track s1) = fill_up_context s1)
    as (Hn2 & Hc2 & Hx2 & Hf2).
  { unfold retire_track. simpl. destruct (ps_track (player s1)) as [t|]; [|done]. by destruct (_ || _). }
  destruct (next_loop_playable l n rest (retire_track s1) Hl Hp) as (s3 & E3 & Hn3 & Hc3 & Hx3 & Hf3); [congruence|].
  rewrite Hn2, Hn1, Hn. destruct (inv_next_loop _ _ _ _ E3 H2) as [H3 _]. rewrite E3, st_modify_bind.
  destruct (fill_up_prefix s3 H3) as (s4 & added & E & H4 & Hn4 & _ & Hc4).
  { unfold context_of in *. by rewrite Hf3, Hf2, Hc3, Hc2, Hx3, Hx2. }
  rewrite (st_bind_Ok _ _ _ _ _ E), st_modify_bind, st_get_bind.
  destruct (enter_track_same n s4) as (En & _ & Et & Ef & Ec & Ex).
  eexists _, added, _. split; [done|]. split_and!; [by apply inv_enter_track|done|congruence|].
  unfold context_of in *. by rewrite Ef, Ec, Ex.
Qed.

(** Without next tracks a skip leaves no track. *)
Lemma next_track_none s :
  next_tracks s = [] → ∃ s', next_track s = Val (s', Ok None) ∧ ps_track (player s') = None ∧ next_tracks s' = [].
Proof.
  intros Hn. unfold next_track. rewrite st_modify_bind, st_modify_bind, st_get_bind.
  set (s1 := if repeat_track s then set_repeat_track false s else s).
  assert (next_tracks s1 = []) as H1.
  { unfold s1. destruct (repeat_track s); [|done].
    unfold set_repeat_track, options_mut, add_options_if_empty. by destruct (ps_options (player s)). }
  clearbody s1. assert (next_tracks (retire_track s1) = [] ∧ ps_track (player (retire_track s1)) = None) as [H2 Ht2].
  { unfold retire_track. simpl. destruct (ps_track (player s1)) as [t|] eqn:E; [|by rewrite <- H1]. by destruct (_ || _). }
  rewrite H2. simpl. rewrite st_modify_bind. eauto.
Qed.
End skip.

(** ** Running the handlers *)

(** Reporting a status and a position leaves the tracks alone. *)
Lemma reported_lists st p t s (s' := set_status st (update_position p t s)) :
  ps_track (player s') = ps_track (player s) ∧ next_tracks s' = next_tracks s ∧ prev_tracks s' = prev_tracks s.
Proof. unfold s', set_status. by edestruct update_restrictions_player as [r ->]. Qed.

Section handlers.
Context {X : Type} {env : SpircEnv X} {hasher : DefaultHasher}.
Abbreviation W := (st (World X) Error).
Implicit Types w : World X.

(** The times that are read and the difference to the server fit the
    arithmetic. *)
Definition clock_fits w : Prop :=
  Z.abs (1000 * time_delta (data (session w))) < 2 ^ 60 ∧
  ∀ x, Z.abs (system_time x).1 / 1000000 < 2 ^ 60.

(** The time at which a world is, in milliseconds. *)
Definition time_ms w : Z :=
  Z.abs (system_time (ext w)).1 / 1000000 + 1000 * time_delta (data (session w)).

Lemma lift_i64_Val z w : is_i64 z → lift_i64 z w = Val (w, Ok z).
Proof. intros Hz. unfold lift_i64. by rewrite decide_True. Qed.

Lemma now_ms_Val w : clock_fits w → ∃ x, now_ms w = Val (w <| ext := x |>, Ok (time_ms w)).
Proof.
  intros [Hd Ht]. unfold now_ms, time_ms. specialize (Ht (ext w)).
  destruct (system_time (ext w)) as [t x] eqn:E. cbn [fst] in *. exists x.
  assert (0 ≤ Z.abs t / 1000000) by (apply Z.div_pos; lia).
  rewrite (st_bind_Ok _ _ w (w <| ext := x |>) t), st_get_bind by (unfold call; by rewrite E).
  change (session (w <| ext := x |>)) with (session w).
  rewrite (st_bind_Ok _ _ _ _ _ (lift_i64_Val (1000 * time_delta (data (session w))) _
    ltac:(unfold is_i64, i64_min, ConnectData.i64_max; lia))).
  assert (wrap_i64 (Z.abs t / 1000000) = Z.abs t / 1000000) as -> by (unfold wrap_i64; rewrite Z.mod_small; lia).
  apply lift_i64_Val. unfold is_i64, i64_min, ConnectData.i64_max. lia.
Qed.

Lemma wp_now_ms (Q : World X → result Z Error → Prop) w :
  clock_fits w → (∀ x, Q (w <| ext := x |>) (Ok (time_ms w))) → wp now_ms Q w.
Proof. intros Hw HQ. destruct (now_ms_Val w Hw) as [x E]. unfold wp. by rewrite E. Qed.

Lemma wp_update_position (Q : World X → result () Error → Prop) p w :
  clock_fits w →
  (∀ x t, Q (w <| ext := x |> <| task ::= (λ k, k <| connect_state ::= update_position p t |>) |>) (Ok ())) →
  wp (update_position_now p) Q w.
Proof. intros Hw HQ. unfold update_position_now. wp_step. apply wp_now_ms; [done|]. intros x. apply HQ. Qed.

(** What [load_track] does with a current track. *)
Definition loading (play : bool) (p : Z) : SpircPlayStatus := if play then LoadingPlay p else LoadingPause p.
Lemma wp_load_track (Q : World X → result () Error → Prop) play p w t id :
  clock_fits w → ps_track (player (connect_state (task w))) = Some t → from_uri (uri t) = Ok id →
  (∀ w' time, connect_state (task w') = set_status (loading play p) (update_position p time (connect_state (task w))) →
     play_status (task w') = loading play p → to_player w' = to_player w ++ [Player.Load id play p] →
     Q w' (Ok ())) →
  wp (load_track play p) Q w.
Proof.
  intros Hw Ht Hid HQ. unfold load_track, cs_get, get_task. wp_steps. rewrite Ht.
  unfold current_track. rewrite Ht. simpl. rewrite Hid. wp_step. unfold command. wp_steps.
  apply wp_update_position; [done|]. intros x time. unfold modify, cs_modify, modify. wp_steps.
  by apply (HQ _ time); destruct play.
Qed.

Lemma wp_add_autoplay (Q : World X → result () Error → Prop) w :
  (∀ w', connect_state (task w') = connect_state (task w) → play_status (task w') = play_status (task w) →
     session w' = session w → to_player w' = to_player w → Q w' (Ok ())) →
  wp add_autoplay_resolving_when_required Q w.
Proof.
  intros HQ. unfold add_autoplay_resolving_when_required. wp_steps. destruct (negb _).
  - wp_steps. by apply HQ.
  - unfold resolver_add, call, resolver_modify, modify. wp_step. unfold wp. destruct (instant_now _) as [now x].
    by apply HQ.
Qed.

(** What a step leaves behind: a connect state and the commands given to the
    player; the session and the configuration stay. *)
Record becomes (s : ConnectState) (told : list PlayerCommand) w w' : Prop := {
  becomes_state : connect_state (task w') = s;
  becomes_told : to_player w' = told;
  becomes_session : session w' = session w;
  becomes_emit : emit_set_queue_events (task w') = emit_set_queue_events (task w);
}.

Lemma becomes_refl w : becomes (connect_state (task w)) (to_player w) w w.
Proof. done. Qed.
Lemma becomes_trans s1 told1 s2 told2 w w1 w2 :
  becomes s1 told1 w w1 → becomes s2 told2 w1 w2 → becomes s2 told2 w w2.
Proof. intros [] []. constructor; congruence. Qed.

Lemma wp_cs_run {A} (m : M A) (Q : World X → result A Error → Prop) w s a :
  m (connect_state (task w)) = Val (s, Ok a) →
  (∀ w', becomes s (to_player w) w w' → Q w' (Ok a)) → wp (cs_run m) Q w.
Proof. intros E HQ. unfold wp, cs_run. rewrite E. by apply HQ. Qed.
Lemma wp_cs_exec f (Q : World X → result () Error → Prop) w s :
  f (connect_state (task w)) = Val s → (∀ w', becomes s (to_player w) w w' → Q w' (Ok ())) → wp (cs_exec f) Q w.
Proof. intros E HQ. unfold wp, cs_exec. rewrite E. by apply HQ. Qed.
Lemma wp_cs_modify f (Q : World X → result () Error → Prop) w :
  (∀ w', becomes (f (connect_state (task w))) (to_player w) w w' → Q w' (Ok ())) → wp (cs_modify f) Q w.
Proof. intros HQ. unfold cs_modify, modify. wp_steps. by apply HQ. Qed.
Lemma wp_call {A} (f : X → A * X) (Q : World X → result A Error → Prop) w :
  (∀ w' a, becomes (connect_state (task w)) (to_player w) w w' → Q w' (Ok a)) → wp (call f) Q w.
Proof. intros HQ. unfold wp, call. destruct (f (ext w)). by apply HQ. Qed.

(** The event about the queue, if it is wanted. *)
Definition queue_events (emit : bool) (s : ConnectState) : list PlayerCommand :=
  if emit then [EmitSetQueueEvent (context_uri s) (queue_track <$> ps_track (player s))
                  (queue_track <$> next_tracks s) (queue_track <$> prev_tracks s)] else [].
Lemma wp_emit_set_queue (Q : World X → result () Error → Prop) w :
  (∀ w', becomes (connect_state (task w))
           (to_player w ++ queue_events (emit_set_queue_events (task w)) (connect_state (task w))) w w' → Q w' (Ok ())) →
  wp emit_set_queue_event Q w.
Proof.
  intros HQ. unfold emit_set_queue_event, get_task. wp_steps. unfold queue_events in HQ.
  destruct (emit_set_queue_events (task w)); simpl; [|wp_steps; apply HQ; by rewrite app_nil_r].
  unfold command. wp_steps. by apply HQ.
Qed.

(** One turn of the loop of [handle_next]. *)
Lemma next_until_step turns u w s1 r :
  next_track (connect_state (task w)) = Val (s1, Ok r) →
  next_until (S turns) (Some u) w =
    let w1 := w <| task ::= (λ k, k <| connect_state := s1 |>) |> in
    if decide (uri (current_track s1) ≠ u) then next_until turns (Some u) w1
    else Val (w1, Ok (bool_decide (is_Some r))).
Proof.
  intros E. cbn [next_until]. rewrite (st_bind_Ok _ _ w (w <| task ::= (λ k, k <| connect_state := s1 |>) |>) r);
    [|unfold cs_run; by rewrite E]. unfold cs_get, get_task.
  trans ((if decide (uri (current_track s1) ≠ u) then next_until turns (Some u) else mret (bool_decide (is_Some r)))
    (w <| task ::= (λ k, k <| connect_state := s1 |>) |>)); [done|]. by case_decide.
Qed.

(** The loop of [handle_next] reaches a track that is in the list. *)
Lemma next_until_found u : ∀ turns pre t post w,
  inv (connect_state (task w)) →
  is_Some (context_of (fill_up_context (connect_state (task w))) (connect_state (task w))) →
  next_tracks (connect_state (task w)) = pre ++ t :: post →
  playable t → uri t = u → Forall (λ x, playable x → uri x ≠ u) pre → (length pre < turns)%nat →
  ∃ s' added, next_until turns (Some u) w = Val (w <| task ::= (λ k, k <| connect_state := s' |>) |>, Ok true) ∧
    inv s' ∧ ps_track (player s') = Some t ∧ next_tracks s' = post ++ added.
Proof.
  induction turns as [|turns IH]; intros pre t post w Hw Hctx Hn Hp Hu Hpre Hlen; [lia|].
  assert ((∃ sk n pre', pre = sk ++ n :: pre' ∧ Forall (λ x, ¬ playable x) sk ∧ playable n) ∨
    Forall (λ x, ¬ playable x) pre) as Hsplit.
  { clear. induction pre as [|x pre IH]; [by right|]. destruct (decide (playable x)) as [Hx|Hx].
    - left. by exists [], x, pre.
    - destruct IH as [(sk & n & pre' & -> & ? & ?)|]; [left; exists (x :: sk), n, pre'|right; by constructor].
      split_and!; [done|by constructor|done]. }
  destruct Hsplit as [(sk & n & pre' & -> & Hsk & Hpn)|Hsk].
  - rewrite <- app_assoc in Hn. cbn [app] in Hn.
    destruct (next_track_playable _ sk n _ Hw Hn Hsk Hpn Hctx) as (s1 & added & r & E & H1 & Ht1 & Hn1 & Hc1).
    apply Forall_app in Hpre as [_ [Hun Hpre']%Forall_cons]. rewrite length_app in Hlen. simpl in Hlen.
    rewrite (next_until_step _ _ _ _ _ E). cbv zeta. unfold current_track. rewrite Ht1. cbn [default].
    rewrite decide_True by by apply Hun. rewrite <- app_assoc in Hn1. cbn [app] in Hn1.
    destruct (IH pre' t (post ++ added) (w <| task ::= (λ k, k <| connect_state := s1 |>) |>))
      as (s' & added' & E' & H' & Ht' & Hn'); [done|done|done|done|done|done|lia|].
    exists s', (added ++ added'). rewrite app_assoc. split_and!; [exact E'|done|done|done].
  - destruct (next_track_playable _ pre t _ Hw Hn Hsk Hp Hctx) as (s1 & added & r & E & H1 & Ht1 & Hn1 & Hc1).
    exists s1, added. rewrite (next_until_step _ _ _ _ _ E). cbv zeta. unfold current_track. rewrite Ht1. cbn [default].
    rewrite decide_False by by intros []. done.
Qed.

(** Without next tracks it never ends. *)
Lemma next_until_endless u : u ≠ EmptyString → ∀ turns w,
  next_tracks (connect_state (task w)) = [] →
  ∃ w', next_until turns (Some u) w = Val (w', Err ETurns).
Proof.
  intros Hu. induction turns as [|turns IH]; intros w Hn; [by eexists|].
  destruct (next_track_none _ Hn) as (s' & E & Ht & Hn'). rewrite (next_until_step _ _ _ _ _ E). cbv zeta.
  unfold current_track. rewrite Ht. rewrite decide_True by done. by apply IH.
Qed.
(** ** Disconnecting *)

(** The service refuses every update of the state. *)
Definition refuses : Prop := ∀ q x, ∃ e, (put_connect_state q x).1 = Err e.

(** What the task looks like when it is out of use. *)
Definition out_of_use (down : bool) w : Prop :=
  shutdown (task w) = down ∧ queue (context_resolver (task w)) = [] ∧ play_status (task w) = Stopped.

Lemma exec_keeps_task f (P : World X → Prop) :
  (∀ w s, P w → P (w <| task ::= (λ k, k <| connect_state := s |>) |>)) → preserves P (cs_exec f).
Proof.
  intros HP w w' r Hw. unfold cs_exec. destruct (f _) as [s|]; [|done]. intros [= <- <-]. by apply HP.
Qed.

(** Predicates that are about neither the connect state nor the outside. *)
Definition task_only (P : World X → Prop) : Prop :=
  (∀ w s, P w → P (w <| task ::= (λ k, k <| connect_state := s |>) |>)) ∧ (∀ w x, P w → P (w <| ext := x |>)) ∧
  (∀ w f, P w → P (w <| to_player ::= f |>)).

Section task_only.
Context (P : World X → Prop) (HP : task_only P).
Lemma task_only_call {A} (f : X → A * X) : preserves P (call f).
Proof. intros w w' r Hw. unfold call. destruct (f (ext w)). intros [= <- <-]. by apply HP. Qed.
Lemma task_only_modify f : preserves P (cs_modify f).
Proof. apply preserves_modify. intros w Hw. apply (proj1 HP w (f (connect_state (task w))) Hw). Qed.
Lemma task_only_now : preserves P now_ms.
Proof.
  unfold now_ms. apply preserves_bind; [apply task_only_call|intros t]. apply preserves_get_bind. intros w _.
  apply preserves_bind; [apply lift_i64_last|intros d; apply lift_i64_last].
Qed.
Lemma task_only_exec f : preserves P (cs_exec f).
Proof. apply exec_keeps_task, HP. Qed.
Lemma task_only_request {A} (f : X → result A () * X) : preserves P (send_request f).
Proof. unfold send_request. apply preserves_bind; [apply task_only_call|intros [a|]; [apply preserves_ret|apply preserves_throw]]. Qed.
Lemma task_only_notify : preserves P notify.
Proof.
  unfold notify. apply get_task_keeps. intros w _. apply preserves_bind; [apply task_only_modify|intros _].
  apply cs_get_keeps. intros w1 _. apply preserves_bind.
  { destruct (is_playing _); [|apply preserves_ret]. apply preserves_bind; [apply task_only_now|intros; apply task_only_exec]. }
  intros _. apply preserves_bind; [apply task_only_now|intros now]. apply preserves_bind; [apply task_only_modify|intros _].
  apply cs_get_keeps. intros w2 _. apply preserves_bind; [apply task_only_request|intros _; apply preserves_ret].
Qed.
Lemma task_only_command c : preserves P (command c).
Proof. apply preserves_modify. intros w. apply HP. Qed.
Lemma task_only_inactive : preserves P became_inactive.
Proof.
  unfold became_inactive. apply preserves_bind; [apply task_only_exec|intros _].
  apply preserves_bind; [apply task_only_request|intros _; apply preserves_ret].
Qed.
End task_only.

Lemma out_of_use_task_only down : task_only (out_of_use down).
Proof. split_and!; by intros w ? (? & ? & ?). Qed.
Lemma shutdown_task_only down : task_only (λ w, shutdown (task w) = down).
Proof. done. Qed.

(** A disconnection that comes back has put the device out of use. *)
Lemma handle_disconnect_Ok down w w' :
  shutdown (task w) = down → handle_disconnect w = Val (w', Ok ()) →
  out_of_use down w' ∧ is_active (connect_state (task w')) = false.
Proof.
  intros Hdown (w1 & [] & E1 & (w2 & [] & E2 & E)%st_bind_Ok_inv)%st_bind_Ok_inv.
  assert (out_of_use down w2) as H2 by (injection E1 as <-; by injection E2 as <-).
  apply st_bind_Ok_inv in E as (w3 & now & E3%(task_only_now _ (out_of_use_task_only down)) & E); [|done].
  apply st_bind_Ok_inv in E as (w4 & [] & E4%(task_only_exec _ (out_of_use_task_only down)) & E); [|done].
  apply st_bind_Ok_inv in E as (w5 & [] & E5%(task_only_notify _ (out_of_use_task_only down)) & E); [|done].
  apply st_bind_Ok_inv in E as (w6 & [] & E6 & E). pose proof (became_inactive_done _ _ E6) as Hin.
  apply (task_only_inactive _ (out_of_use_task_only down)) in E6; [|done]. by injection E as <-.
Qed.

(** Pausing and reporting leave the rest of the task alone. *)
Lemma handle_pause_shutdown down : preserves (λ w, shutdown (task w) = down) handle_pause.
Proof.
  unfold handle_pause, update_position_now. apply get_task_keeps. intros w _.
  assert (∀ f, preserves (λ w, shutdown (task w) = down) (modify (λ t, t <| play_status := f |>))) as Hm
    by (intros f; by apply preserves_modify).
  pose proof (task_only_command _ (shutdown_task_only down)). pose proof (task_only_now _ (shutdown_task_only down)).
  pose proof (task_only_modify _ (shutdown_task_only down)).
  destruct (play_status (task w)); preserve; try apply lift_i64_last.
Qed.

Lemma device_modify d f : (∀ s, device (f s) = device s) → preserves (λ w, device (connect_state (task w)) = d) (cs_modify f).
Proof. intros Hf. apply preserves_modify. intros w <-. apply Hf. Qed.
Lemma device_call {A} d (f : X → A * X) : preserves (λ w, device (connect_state (task w)) = d) (call f).
Proof. intros w w' r Hw. unfold call. destruct (f (ext w)). by intros [= <- <-]. Qed.
Lemma device_now d : preserves (λ w, device (connect_state (task w)) = d) now_ms.
Proof.
  unfold now_ms. apply preserves_bind; [apply device_call|intros t]. apply preserves_get_bind. intros w _.
  apply preserves_bind; [apply lift_i64_last|intros; apply lift_i64_last].
Qed.
Lemma notify_device d : preserves (λ w, device (connect_state (task w)) = d) notify.
Proof.
  unfold notify. apply get_task_keeps. intros w _. apply preserves_bind; [by apply device_modify|intros _].
  apply cs_get_keeps. intros w1 _. apply preserves_bind.
  { destruct (is_playing _); [|apply preserves_ret]. apply preserves_bind; [apply device_now|intros now].
    intros w2 w3 r Hw. unfold cs_exec, update_position_in_relation.
    destruct (i64_checked _); simpl; [|done]. destruct (i64_checked _); simpl; [|done]. by intros [= <- <-]. }
  intros _. apply preserves_bind; [apply device_now|intros now].
  apply preserves_bind; [apply device_modify, set_now_device|intros _]. apply cs_get_keeps. intros w2 _.
  apply preserves_bind; [|intros _; apply preserves_ret]. unfold send_request.
  apply preserves_bind; [apply device_call|intros [l|]; [apply preserves_ret|apply preserves_throw]].
Qed.

Lemma handle_disconnect_shutdown down : preserves (λ w, shutdown (task w) = down) handle_disconnect.
Proof.
  pose proof (shutdown_task_only down) as HP. unfold handle_disconnect.
  apply preserves_bind; [by apply preserves_modify|intros _]. apply preserves_bind; [by apply preserves_modify|intros _].
  apply preserves_bind; [by apply task_only_now|intros now]. apply preserves_bind; [by apply task_only_exec|intros _].
  apply preserves_bind; [by apply task_only_notify|intros _]. apply preserves_bind; [by apply task_only_inactive|intros _].
  apply preserves_get_bind. intros w _. by apply task_only_command.
Qed.

(** A program that does not succeed. *)
Definition never_ok {A} (m : W A) : Prop := ∀ w w' a, ¬ m w = Val (w', Ok a).
Lemma never_ok_first {A B} (m : W A) (f : A → W B) : never_ok m → never_ok (m ≫= f).
Proof. intros Hm w w' b (w1 & a & E & _)%st_bind_Ok_inv. by eapply Hm. Qed.
Lemma never_ok_then {A B} (m : W A) (f : A → W B) : (∀ a, never_ok (f a)) → never_ok (m ≫= f).
Proof. intros Hf w w' b (w1 & a & _ & E)%st_bind_Ok_inv. by eapply Hf. Qed.

Lemma send_request_refused {A} (f : X → result A () * X) : (∀ x, ∃ e, (f x).1 = Err e) → never_ok (send_request f).
Proof.
  intros Hf w w' a E. unfold send_request in E. apply st_bind_Ok_inv in E as (w1 & o & E & E'). unfold call in E.
  destruct (Hf (ext w)) as [e He]. destruct (f (ext w)) as [o' x]. simpl in He. subst o'. by injection E as <- <-.
Qed.
Lemma notify_refused : refuses → never_ok notify.
Proof. intros Hr. unfold notify. do 7 (apply never_ok_then; intros ?). apply never_ok_first, send_request_refused, Hr. Qed.
Lemma disconnect_refused : refuses → never_ok handle_disconnect.
Proof. intros Hr. unfold handle_disconnect. do 4 (apply never_ok_then; intros ?). by apply never_ok_first, notify_refused. Qed.
End handlers.

(** Put two steps together, in terms of the world before the first. *)
Ltac follow B B' :=
  rewrite ?(becomes_state _ _ _ _ B), ?(becomes_told _ _ _ _ B), ?(becomes_emit _ _ _ _ B) in B';
  apply (becomes_trans _ _ _ _ _ _ _ B) in B'; clear B; rename B' into B.

Lemma merge_none s : merge_context None s = (None, s).
Proof. unfold merge_context. by destruct (context s). Qed.

(** C5: loading a list of tracks at a position plays that track: it becomes the
    current one, the player is told to load it from the wanted place, the (up to
    10) tracks before it are the previous ones, and the user's queue followed by
    the tracks after it are the next ones, up to 80.  The event about the queue
    that goes out in between still describes the tracks from before the load. *)
Theorem load_tracks_plays {X : Type} {env : SpircEnv X} {hasher : DefaultHasher} {R : Type} {rng_R : Rng R}
    (w : World X) uris i u id start seek (s := connect_state (task w)) :
  inv s → clock_fits w → Forall plain_uri uris → Forall (λ x, x ∉ unavailable_uri s) uris →
  Z.of_nat (length uris) ≤ u32_max → uris !! i = Some u → from_uri u = Ok id →
  ∃ w', handle_load (R:=R) (from_tracks uris (mkLoadRequestOptions start seek None (Some (PtIndex (Z.of_nat i)))))
          None None w = Val (w', Ok ()) ∧
    (let s' := connect_state (task w') in
     uri (current_track s') = u ∧
     uri <$> prev_tracks s' = drop (i - SPOTIFY_MAX_PREV_TRACKS_SIZE) (take i uris) ∧
     uri <$> next_tracks s' = (uri <$> queued (next_tracks s)) ++
       take (SPOTIFY_MAX_NEXT_TRACKS_SIZE - length (queued (next_tracks s))) (drop (S i) uris)) ∧
    play_status (task w') = loading start seek ∧
    to_player w' = to_player w ++
      (if emit_set_queue_events (task w)
       then [EmitSetQueueEvent WEB_API_URI (queue_track <$> ps_track (player s)) (queue_track <$> next_tracks s)
               (queue_track <$> prev_tracks s)] else []) ++ [Player.Load id start seek].
Proof.
  intros Hs Hclock Hplain Hav Hlen Hi Hid. apply wp_done.
  unfold handle_load, from_tracks. cbn [lr_options lr_context start_playing seek_to context_options playing_track]. cbv zeta.
  destruct (load_uris (λ _ _, EmptyString) WEB_API_URI ("context://" +:+ WEB_API_URI) uris i u s) as
    (s1 & _ & _ & _ & _ & E1 & _); try done.
  wp_step. eapply wp_cs_exec; [exact E1|]. intros w1 B.
  wp_step. apply wp_cs_modify. intros w2 B2. follow B B2.
  unfold load_context_from_tracks. wp_step. wp_step. apply wp_call. intros w3 ids B3. follow B B3.
  destruct (load_uris ids WEB_API_URI ("context://" +:+ WEB_API_URI) uris i u s) as
    (s1' & s2 & s3 & s4 & t & E1' & E2 & Hu2 & Ht2 & Hn2 & Hp2 & E3 & E4 & Ht4 & Hut & Hp4 & Hn4); try done.
  assert (s1' = s1) as -> by congruence.
  wp_step. eapply wp_cs_run; [rewrite (becomes_state _ _ _ _ B); exact E2|intros w4 B4]. follow B B4.
  apply wp_emit_set_queue. intros w5 B5. follow B B5. cbn beta iota. unfold queue_events in B. rewrite Hu2, Ht2, Hn2, Hp2 in B.
  set (told := to_player w ++ _) in B.
  do 4 (wp_step; apply wp_cs_modify; intros ? B'; follow B B').
  rewrite merge_none in B. match type of B with becomes _ _ _ ?x => change (becomes (prepared s2) told w x) in B end.
  unfold playing_index. cbn beta iota. wp_steps. rewrite Nat2Z.id. unfold start_in_order. wp_step. cbn [default].
  eapply wp_cs_run; [rewrite (becomes_state _ _ _ _ B); exact E3|intros w6 B6]. follow B B6.
  wp_step. eapply wp_cs_run; [rewrite (becomes_state _ _ _ _ B); exact E4|intros w7 B7]. follow B B7.
  apply wp_add_autoplay. intros w8 Hs8 _ Hse8 Htp8. cbn beta iota. unfold cs_get, get_task. wp_steps.
  rewrite Hs8, (becomes_state _ _ _ _ B), Ht4.
  eapply (wp_load_track _ _ _ _ t id).
  - unfold clock_fits. by rewrite Hse8, (becomes_session _ _ _ _ B).
  - by rewrite Hs8, (becomes_state _ _ _ _ B).
  - by rewrite Hut.
  - intros w9 time Hs9 Hst9 Htp9. rewrite Hs9, Hs8, (becomes_state _ _ _ _ B), Htp9, Htp8, (becomes_told _ _ _ _ B).
    unfold current_track. destruct (reported_lists (loading start seek) seek time s4) as (-> & -> & ->).
    rewrite Ht4. split_and!; try done. unfold told. by rewrite <- app_assoc.
Qed.

(** C36: the command to shut down, when it succeeds, leaves a device that is
    inactive and stopped with nothing left to resolve, and the loop ends without
    another turn.  When the service refuses the last report, the command fails
    and the task is not shut down: the loop goes on. *)
Theorem shutdown_ends {X : Type} {env : SpircEnv X} {hasher : DefaultHasher} {R : Type} {rng_R : Rng R} turns
    (w w' : World X) r :
  shutdown (task w) = false → handle_command (R:=R) turns SpircCommand.Shutdown w = Val (w', r) →
  (r = Ok () → out_of_use true w' ∧ is_active (connect_state (task w')) = false ∧
     ∀ sel sels, run (R:=R) turns (sel :: sels) w' = finish w') ∧
  (refuses (X:=X) → shutdown (task w') = false ∧ ∃ e, r = Err e).
Proof.
  intros Hw E. unfold handle_command in E. rewrite st_get_bind in E. split.
  - intros ->. apply st_bind_Ok_inv in E as (w1 & [] & E1 & E). apply (handle_pause_shutdown false) in E1; [|done].
    apply st_bind_Ok_inv in E as (w2 & [] & E2 & E). destruct (handle_disconnect_Ok _ _ _ E1 E2) as [Hout Hin].
    apply st_bind_Ok_inv in E as (w3 & [] & E3 & E). apply st_bind_Ok_inv in E as (w4 & [] & E4 & E).
    assert (out_of_use true w4 ∧ is_active (connect_state (task w4)) = false) as [H4 Hin4].
    { destruct Hout as (_ & ? & ?). injection E3 as <-. by injection E4 as <-. }
    pose proof (task_only_notify _ (out_of_use_task_only true) _ _ _ H4 E) as H5.
    assert (is_active (connect_state (task w')) = false) as H5'.
    { eapply (notify_device (device (connect_state (task w4)))) in E; [|done]. unfold device in E. congruence. }
    split_and!; [done|done|]. intros sel sels. cbn [run]. rewrite st_get_bind.
    destruct H5 as (-> & _). by rewrite orb_true_r.
  - intros Hr. revert E. unfold mbind at 1, st_bind at 1.
    destruct (handle_pause w) as [[w1 [[]|e]]|] eqn:E1; [..|done]; apply (handle_pause_shutdown false) in E1; try done.
    + unfold mbind at 1, st_bind at 1. destruct (handle_disconnect w1) as [[w2 [[]|e]]|] eqn:E2; [..|done].
      * by apply (disconnect_refused Hr) in E2.
      * intros [= <- <-]. split; [by eapply handle_disconnect_shutdown|by eexists].
    + intros [= <- <-]. split; [done|by eexists].
Qed.

(** C8: a request to skip to a track that is among the next tracks ends: the
    first playable track with that URI becomes the current one, what followed
    it is next, and the player is told to load it from the beginning, playing
    if the device was playing.  With no next tracks the loop that looks for the
    track never ends, however many turns it is given. *)
Theorem skip_next {X : Type} {env : SpircEnv X} {hasher : DefaultHasher} turns (w : World X) u
    (s := connect_state (task w)) :
  clock_fits w → u ≠ EmptyString → uri (current_track s) ≠ u →
  (∀ pre t post id,
     inv s → is_Some (context_of (fill_up_context s) s) →
     next_tracks s = pre ++ t :: post → playable t → uri t = u → Forall (λ x, playable x → uri x ≠ u) pre →
     from_uri u = Ok id → (length pre < turns)%nat →
     ∃ w', handle_next turns (Some u) w = Val (w', Ok ()) ∧
       ps_track (player (connect_state (task w'))) = Some t ∧
       post `prefix_of` next_tracks (connect_state (task w')) ∧
       play_status (task w') = loading (is_playing s) 0 ∧
       to_player w' = to_player w ++ [Player.Load id (is_playing s) 0]) ∧
  (next_tracks s = [] → ∃ w', handle_next turns (Some u) w = Val (w', Err ETurns)).
Proof.
  intros Hclock Hu Hcur. unfold handle_next.
  change (cs_get ≫= ?f) with (λ w0, f (connect_state (task w0)) w0). cbv beta zeta. fold s.
  rewrite bool_decide_eq_false_2 by done. split.
  - intros pre t post id Hs Hctx Hn Hp Ht Hpre Hid Hlen.
    destruct (next_until_found u turns pre t post w Hs Hctx Hn Hp Ht Hpre Hlen) as (s' & added & E & _ & Ht' & Hn').
    rewrite (st_bind_Ok _ _ _ _ _ E).
    set (w1 := w <| task ::= (λ k, k <| connect_state := s' |>) |>).
    assert (connect_state (task w1) = s' ∧ session w1 = session w ∧ to_player w1 = to_player w) as (Hs1 & Hse1 & Htp1) by done.
    clearbody w1.
    apply wp_done.
    wp_step. apply wp_add_autoplay. intros w2 Hs2 _ Hse2 Htp2.
    eapply (wp_load_track _ _ _ _ t id); [unfold clock_fits; by rewrite Hse2, Hse1|by rewrite Hs2, Hs1|by rewrite Ht|].
    intros w3 time Hs3 Hst Htp3. rewrite Hs3, Hs2, Hs1, Htp3, Htp2, Htp1. 
    destruct (reported_lists (loading (is_playing s) 0) 0 time s') as (-> & -> & _). split_and!; [done|done| |done|done].
    rewrite Hn'. by apply prefix_app_r.
  - intros Hn. destruct (next_until_endless u Hu turns w Hn) as [w' E]. exists w'.
    by rewrite (st_bind_Err _ _ _ _ _ E).
Qed.

(** ** An example environment

    A clock that advances by a second whenever it is read, a mixer, and a
    service that accepts every request and knows one album. *)

Record Toy := mkToy { toy_clock : Z; toy_mixer : Z; toy_puts : nat }.

Definition example_uri (c : string) : string := "spotify:track:000000000000000000000" +:+ c.

#[local] Instance toy_service : ContextService Toy := {|
  spclient_get_context u x := (Ok (example_pages [[example_uri "1"; example_uri "2"; example_uri "3"]]), x);
  spclient_get_autoplay_context u l x := (Err (), x);
|}.
#[local] Instance toy_env : SpircEnv Toy := {|
  system_time x := (toy_clock x `mod` 2 ^ 62, mkToy (toy_clock x + 1000000000) (toy_mixer x) (toy_puts x));
  instant_now x := (toy_clock x, x);
  uuids x := (λ _ _, "uuid", x);
  random_seed x := (7, x);
  random_index x := (λ _, O, x);
  mixer_volume x := (wrapu 16 (toy_mixer x), x);
  mixer_set_volume v x := mkToy (toy_clock x) v (toy_puts x);
  save_volume _ x := x;
  put_connect_state _ x := (Ok [], mkToy (toy_clock x) (toy_mixer x) (S (toy_puts x)));
  put_connect_state_inactive x := (Ok (), x);
  delete_connect_state x := (Ok (), x);
  post_transfer _ _ _ x := (Ok (), x);
  parse_cluster _ := Some (mkCluster "other" EmptyString []);
  parse_transfer _ := None;
|}.

Definition example_info : SessionInfo := mkSessionInfo "device" "client" "session" "0.0.0".
Definition toy_world (s : ConnectState) : World Toy :=
  mkWorld (task_new ConnectConfig_default true example_info <| connect_state := s |>)
    (session_new None "client" "session") "device" [] (mkToy 5000000000 100 0).

Lemma toy_clock_fits s : clock_fits (toy_world s).
Proof.
  split; [done|]. intros x. cbn [system_time toy_env fst]. pose proof (Z.mod_pos_bound (toy_clock x) (2 ^ 62)).
  apply Z.div_lt_upper_bound; lia.
Qed.

Definition example_skip (next : list ProvidedTrack) : World Toy :=
  toy_world (example_playing (example_track (example_uri "1") PContext) next).

Lemma skip_next_witness :
  (∃ w', handle_next (hasher:=length_hasher) 5 (Some (example_uri "3"))
           (example_skip [example_track (example_uri "2") PContext; example_track (example_uri "3") PQueue]) = Val (w', Ok ()) ∧
     uri (current_track (connect_state (task w'))) = example_uri "3") ∧
  (∃ w', handle_next (hasher:=length_hasher) 5 (Some (example_uri "3")) (example_skip []) = Val (w', Err ETurns)).
Proof.
  split.
  - destruct (skip_next (hasher:=length_hasher) 5 (example_skip [example_track (example_uri "2") PContext;
      example_track (example_uri "3") PQueue]) (example_uri "3")) as [Hfound _];
      [apply toy_clock_fits|by vm_compute|by vm_compute|].
    destruct (Hfound [example_track (example_uri "2") PContext] (example_track (example_uri "3") PQueue) []
      (Track (mkSpotifyId 3))) as (w' & E & Ht & _).
    + apply example_playing_inv. simpl. lia.
    + by eexists.
    + done.
    + by vm_compute.
    + done.
    + repeat constructor. by vm_compute.
    + by vm_compute.
    + simpl. lia.
    + exists w'. split; [exact E|]. unfold current_track. by rewrite Ht.
  - destruct (skip_next (hasher:=length_hasher) 5 (example_skip []) (example_uri "3")) as [_ Hnone];
      [apply toy_clock_fits|by vm_compute|by vm_compute|]. by apply Hnone.
Defined.

#[local] Instance toy_mixer_law : MixerLaw (X:=Toy).
Proof. intros x. apply is_u16_wrapu. Qed.

(** ** The invariant *)

(** As many tracks as the program keeps, or as the requests set. *)
Definition limits_for (sels : list Selected) : Limits :=
  limits_of (SPOTIFY_MAX_PREV_TRACKS_SIZE `max` max_list (fst ∘ selected_sets <$> sels))
    (SPOTIFY_MAX_NEXT_TRACKS_SIZE `max` max_list (snd ∘ selected_sets <$> sels)) (Nat.le_max_l _ _) (Nat.le_max_l _ _).

Lemma selected_within_limits sels : Forall (selected_within (L:=limits_for sels)) sels.
Proof.
  apply Forall_forall. intros sel Hin. split; simpl; (etransitivity; [|apply Nat.le_max_r]);
    apply max_list_elem_of_le; [apply (list_elem_of_fmap_2 (fst ∘ selected_sets))|apply (list_elem_of_fmap_2 (snd ∘ selected_sets))]; done.
Qed.

(** C4: from its construction on, whatever the order of commands, requests,
    updates, events and timers, and whatever the service answers, the task keeps
    its invariant: at most 10 previous and 80 next tracks, or as many as the
    longest lists that requests to set the queue gave it, which are taken as they
    are; positions of 32 and volumes of 16 bits in its state and in every command
    it gives the player, no context queued twice, and the device active only while
    its session is announced. *)
Theorem spirc_invariant {X : Type} {env : SpircEnv X} {hasher : DefaultHasher} {R : Type} {rng_R : Rng R}
    {rng_laws : RngLaws R} {mixer_law : MixerLaw} cfg emit info se device x turns sels (w0 w : World X) r0 r :
  is_u16 (cfg_initial_volume cfg) → 0 ≤ cfg_volume_steps cfg → Forall selected_ok sels →
  spirc_new (mkWorld (task_new cfg emit info) se device [] x) = Val (w0, r0) →
  run (R:=R) turns sels w0 = Val (w, r) → winv (L:=limits_for sels) w.
Proof.
  intros Hv Hsteps Hsels Hnew Hrun. eapply (spirc_run_keeps turns sels); [done|apply selected_within_limits| |exact Hrun].
  eapply spirc_new_keeps; [|exact Hnew]. constructor; simpl; try done.
  - apply inv_new.
  - case_decide; [lia|]. apply Z.div_pos; [done|lia].
  - apply NoDup_nil_2.
Qed.

Definition example_selections : list Selected := [
  SelConnectionId (Some (Ok "connection"));
  SelCommand (Some SpircCommand.Activate);
  SelCommand (Some (SpircCommand.Load (from_tracks [example_uri "1"; example_uri "2"; example_uri "3"]
    (mkLoadRequestOptions true 0 None (Some (PtIndex 1))))));
  SelPlayer (Some (EvPlayRequestIdChanged 4));
  SelPlayer (Some (EvPlaying 4 (Track (mkSpotifyId 2)) 10));
  SelCommand (Some SpircCommand.VolumeUp);
  SelRequest (Some (mkRequest 1 "phone" (SkipNext None)));
  SelStateTimer; SelVolumeTimer].

Abbreviation example_new :=
  (spirc_new (mkWorld (task_new ConnectConfig_default true example_info) (session_new None "client" "session") "device" []
     (mkToy 5000000000 100 0))).
Definition example_started : World Toy := match example_new with Val (w, _) => w | Panic => toy_world (ConnectData.new ConnectConfig_default example_info) end.
Definition example_ran : World Toy :=
  match run (R:=Z) (hasher:=length_hasher) (rng_R:=lcg_rng) 100 example_selections example_started with
  | Val (w, _) => w
  | Panic => example_started
  end.

Lemma spirc_invariant_witness :
  winv (L:=limits_for example_selections) example_ran ∧ is_active (connect_state (task example_ran)) = true ∧
  uri <$> prev_tracks (connect_state (task example_ran)) = [example_uri "1"; example_uri "2"] ∧
  last (to_player example_ran) = Some (Player.Load (Track (mkSpotifyId 3)) true 0).
Proof.
  split; [|by vm_compute].
  apply (spirc_invariant (hasher:=length_hasher) (R:=Z) (rng_R:=lcg_rng) (rng_laws:=lcg_laws) ConnectConfig_default true example_info
    (session_new None "client" "session") "device" (mkToy 5000000000 100 0) 100 example_selections
    example_started example_ran (Ok ()) (Ok ())).
  - by vm_compute.
  - by vm_compute.
  - repeat constructor; by vm_compute.
  - vm_compute. reflexivity.
  - vm_compute. reflexivity.
Defined.

Lemma load_tracks_plays_witness :
  ∃ w', handle_load (R:=Z) (hasher:=length_hasher) (rng_R:=lcg_rng)
          (from_tracks [example_uri "1"; example_uri "2"; example_uri "3"]
             (mkLoadRequestOptions true 40 None (Some (PtIndex 1)))) None None
          (toy_world (example_playing (example_track "z" PContext) [example_track "q" PQueue; example_track "y" PContext]))
        = Val (w', Ok ()) ∧
    uri <$> prev_tracks (connect_state (task w')) = [example_uri "1"] ∧
    uri <$> next_tracks (connect_state (task w')) = ["q"; example_uri "3"] ∧
    last (to_player w') = Some (Player.Load (Track (mkSpotifyId 2)) true 40).
Proof.
  destruct (load_tracks_plays (R:=Z) (hasher:=length_hasher) (rng_R:=lcg_rng)
    (toy_world (example_playing (example_track "z" PContext) [example_track "q" PQueue; example_track "y" PContext]))
    [example_uri "1"; example_uri "2"; example_uri "3"] 1 (example_uri "2") (Track (mkSpotifyId 2)) true 40)
    as (w' & E & (_ & Hp & Hn) & _ & Htold).
  - apply example_playing_inv. simpl. lia.
  - apply toy_clock_fits.
  - by apply (bool_decide_unpack (Forall _ _)); vm_compute.
  - by apply (bool_decide_unpack (Forall _ _)); vm_compute.
  - done.
  - done.
  - by vm_compute.
  - exists w'. split; [exact E|]. rewrite Hp, Hn, Htold.
    split; [reflexivity|]. split; [reflexivity|]. vm_compute. reflexivity.
Defined.

Definition example_shut_down : World Toy :=
  match handle_command (R:=Z) (hasher:=length_hasher) (rng_R:=lcg_rng) 9 SpircCommand.Shutdown example_ran with
  | Val (w, _) => w
  | Panic => example_ran
  end.
Lemma shutdown_ends_witness :
  out_of_use true example_shut_down ∧ is_active (connect_state (task example_shut_down)) = false ∧
  run (R:=Z) (hasher:=length_hasher) (rng_R:=lcg_rng) 9 [SelStateTimer] example_shut_down = finish example_shut_down.
Proof.
  destruct (shutdown_ends (R:=Z) (hasher:=length_hasher) (rng_R:=lcg_rng) 9 example_ran example_shut_down (Ok ()))
    as [Hok _]; [by vm_compute|vm_compute; reflexivity|].
  destruct (Hok eq_refl) as (H1 & H2 & H3). split_and!; [exact H1|exact H2|exact (H3 SelStateTimer [])].
Defined.
