(* ===== verification/AllowList.v ===== *)
(** * Who may use the control interface: the allow list of [src/server.rs]

    A list of addresses and networks in CIDR notation.  Addresses are lists of
    octets; parsing them is what [IpAddr::from_str] of the standard library
    does. *)

From S2P Require Import Prelude Digits Text.

Local Open Scope string_scope.
Local Open Scope list_scope.
Local Open Scope Z_scope.
Local Coercion Z.of_nat : nat >-> Z.

(** ** [std::net::IpAddr] *)

Inductive IpAddr := V4 (octets : list Z) | V6 (octets : list Z).
#[export] Instance IpAddr_eq_dec : EqDecision IpAddr.
Proof. solve_decision. Defined.

Definition octets (a : IpAddr) : list Z := match a with V4 o => o | V6 o => o end.
Definition is_ipv4 (a : IpAddr) : bool := match a with V4 _ => true | V6 _ => false end.
Definition addr_ok (a : IpAddr) : Prop :=
  bytes_ok (octets a) ∧ length (octets a) = (if is_ipv4 a then 4 else 16)%nat.

Definition is_loopback (a : IpAddr) : bool :=
  match a with
  | V4 o => bool_decide (head o = Some 127)
  | V6 o => bool_decide (o = replicate 15 0 ++ [1])
  end.

(** [Ipv6Addr::to_ipv4_mapped]: the addresses [::ffff:a.b.c.d]. *)
Definition to_ipv4_mapped (o : list Z) : option (list Z) :=
  if decide (take 12 o = replicate 10 0 ++ [255; 255]) then Some (drop 12 o) else None.

(** *** Parsing

    A parser takes what it reads off the front of the text; one that fails
    leaves the text as it was. *)

Definition parser (A : Type) : Type := string → option (A * string).

Definition read_given_char (c : ascii) : parser () := λ s,
  match s with
  | String d s => if decide (d = c) then Some ((), s) else None
  | EmptyString => None
  end.

(** The digits at the front, at most [max_digits] of them. *)
Fixpoint read_digits (radix : Z) (max_digits : nat) (result : Z) (count : nat) (s : string)
    : option (Z * nat * string) :=
  match s with
  | String c s' =>
      match to_digit radix c with
      | Some digit =>
          if decide (max_digits < S count)%nat then None
          else read_digits radix max_digits (result * radix + digit) (S count) s'
      | None => Some (result, count, s)
      end
  | EmptyString => Some (result, count, s)
  end.

Definition read_number (mx radix : Z) (max_digits : nat) (allow_zero_prefix : bool) : parser Z := λ s,
  let has_leading_zero := starts_with "0" s in
  '(result, digit_count, s) ← read_digits radix max_digits 0 0 s;
  if decide (digit_count = 0%nat) then None
  else if negb allow_zero_prefix && has_leading_zero && bool_decide (1 < digit_count)%nat then None
  else if decide (result ≤ mx) then Some (result, s) else None.

(** The separator comes before every part but the first. *)
Definition read_separator {A} (sep : ascii) (index : nat) (inner : parser A) : parser A := λ s,
  match index with
  | O => inner s
  | S _ => '(_, s) ← read_given_char sep s; inner s
  end.

Fixpoint read_octets (places index : nat) : parser (list Z) := λ s,
  match places with
  | O => Some ([], s)
  | S places =>
      '(o, s) ← read_separator "." index (read_number u8_max 10 3 false) s;
      '(os, s) ← read_octets places (S index) s;
      Some (o :: os, s)
  end.
Definition read_ipv4_addr : parser (list Z) := read_octets 4 0.

(** [read_groups] on a slice with [places] places from place [i] on: the octets
    read, whether they end with an embedded IPv4 address, and the rest. *)
Fixpoint read_groups (places i : nat) (s : string) : list Z * bool * string :=
  match places with
  | O => ([], false, s)
  | S places =>
      let embedded := if decide (0 < places)%nat then read_separator ":" i read_ipv4_addr s else None in
      match embedded with
      | Some (o, s) => (o, true, s)
      | None =>
          match read_separator ":" i (read_number u16_max 16 4 true) s with
          | Some (g, s) =>
              let '(gs, v4, s) := read_groups places (S i) s in
              (to_be_bytes 2 g ++ gs, v4, s)
          | None => ([], false, s)
          end
      end
  end.

Definition read_ipv6_addr : parser (list Z) := λ s,
  let '(head, head_ipv4, s) := read_groups 8 0 s in
  if decide (length head = 16%nat) then Some (head, s)
  else if head_ipv4 then None
  else
    '(_, s) ← read_given_char ":" s;
    '(_, s) ← read_given_char ":" s;
    let limit := (8 - (length head / 2 + 1))%nat in
    let '(tail, _, s) := read_groups limit 0 s in
    Some (head ++ replicate (16 - length head - length tail) 0 ++ tail, s).

(** [IpAddr::from_str]: the whole text is an address. *)
Definition parse_ip (s : string) : option IpAddr :=
  match read_ipv4_addr s with
  | Some (o, EmptyString) => Some (V4 o)
  | Some _ => None
  | None =>
      match read_ipv6_addr s with
      | Some (o, EmptyString) => Some (V6 o)
      | _ => None
      end
  end.

(** ** Networks *)

Inductive AllowListError := EAddress (s : string) | EPrefixLength (s : string).

Record IpNetwork := mkIpNetwork { net_addr : IpAddr; prefix_len : Z }.

(** Slicing and indexing panic out of range; [0xff << n] keeps eight bits. *)
Definition prefix_matches (network addr : list Z) (prefix_len : Z) : exec bool :=
  let full_bytes := Z.to_nat (prefix_len / 8) in
  let remaining_bits := prefix_len `mod` 8 in
  if decide (full_bytes ≤ length network ∧ full_bytes ≤ length addr)%nat then
    if decide (take full_bytes network ≠ take full_bytes addr) then Val false
    else if decide (remaining_bits = 0) then Val true
    else
      let mask := wrapu 8 (Z.shiftl 0xff (8 - remaining_bits)) in
      match network !! full_bytes, addr !! full_bytes with
      | Some n, Some a => Val (bool_decide (Z.land n mask = Z.land a mask))
      | _, _ => Panic
      end
  else Panic.

Definition contains (self : IpNetwork) (addr : IpAddr) : exec bool :=
  match net_addr self, addr with
  | V4 network, V4 addr => prefix_matches network addr (prefix_len self)
  | V6 network, V6 addr => prefix_matches network addr (prefix_len self)
  | _, _ => Val false
  end.

Definition parse_network (s : string) : result IpNetwork AllowListError :=
  let '(addr, prefix) := match split_once "/" s with
                         | Some (addr, prefix) => (addr, Some prefix)
                         | None => (s, None)
                         end in
  match parse_ip addr with
  | None => Err (EAddress s)
  | Some addr =>
      let max_prefix_len := if is_ipv4 addr then 32 else 128 in
      match prefix with
      | None => Ok (mkIpNetwork addr max_prefix_len)
      | Some prefix =>
          match parse_uint u8_max prefix with
          | Ok prefix_len => if decide (prefix_len ≤ max_prefix_len) then Ok (mkIpNetwork addr prefix_len)
                             else Err (EPrefixLength s)
          | Err _ => Err (EPrefixLength s)
          end
      end
  end.

(** ** The list *)

Abbreviation AllowList := (list IpNetwork).

Definition is_unrestricted (self : AllowList) : bool := bool_decide (length self = 0%nat).

(** [any] stops at the first network that contains the address. *)
Fixpoint any_contains (self : AllowList) (addr : IpAddr) : exec bool :=
  match self with
  | [] => Val false
  | network :: self => b ← contains network addr; if b : bool then Val true else any_contains self addr
  end.

Definition unmap (addr : IpAddr) : IpAddr :=
  match addr with
  | V6 v6 => match to_ipv4_mapped v6 with Some v4 => V4 v4 | None => addr end
  | V4 _ => addr
  end.

Definition allows (self : AllowList) (addr : IpAddr) : exec bool :=
  if is_unrestricted self then Val true
  else
    let addr := unmap addr in
    if is_loopback addr then Val true else any_contains self addr.

(** Collecting into a [Result] stops at the first error. *)
Fixpoint parse_networks (entries : list string) : result AllowList AllowListError :=
  match entries with
  | [] => Ok []
  | entry :: entries =>
      match parse_network entry with
      | Err e => Err e
      | Ok n => match parse_networks entries with Ok ns => Ok (n :: ns) | Err e => Err e end
      end
  end.
Definition parse_allow_list (s : string) : result AllowList AllowListError :=
  parse_networks (filter (λ entry, entry ≠ EmptyString) (trim <$> split "," s)).

(** ** What the list means *)

(** The address as a number, and the number of its bits. *)
Definition addr_value (a : IpAddr) : Z := from_be_bytes (octets a).
Definition addr_width (a : IpAddr) : Z := if is_ipv4 a then 32 else 128.

(** The address is of the same kind and has the same leading bits. *)
Definition covers (n : IpNetwork) (a : IpAddr) : Prop :=
  is_ipv4 (net_addr n) = is_ipv4 a ∧
  Z.shiftr (addr_value (net_addr n)) (addr_width a - prefix_len n) =
  Z.shiftr (addr_value a) (addr_width a - prefix_len n).

Definition network_ok (n : IpNetwork) : Prop :=
  addr_ok (net_addr n) ∧ 0 ≤ prefix_len n ≤ addr_width (net_addr n).

(** *** Parsed addresses are well-formed *)

Lemma read_digits_nonneg radix m s : 0 < radix → ∀ acc c r c' s',
  0 ≤ acc → read_digits radix m acc c s = Some (r, c', s') → 0 ≤ r.
Proof.
  intros Hr. induction s as [|d s IH]; intros acc c r c' s' Ha; simpl; [by intros [= -> _ _]|].
  destruct (to_digit radix d) as [digit|] eqn:Hd; [|by intros [= -> _ _]].
  case_decide; [done|]. apply to_digit_bounds in Hd. apply IH. nia.
Qed.

Lemma read_number_bounds mx radix m z s r s' :
  0 < radix → read_number mx radix m z s = Some (r, s') → 0 ≤ r ≤ mx.
Proof.
  intros Hr H. unfold read_number in H.
  destruct (read_digits radix m 0 0 s) as [[[res c] s0]|] eqn:E; [|done]. cbn in H.
  apply read_digits_nonneg in E; [|done..].
  repeat (case_decide; [done|]) || case_match; simplify_eq/=; try done.
  all: case_decide; by simplify_eq.
Qed.

Lemma read_separator_inv {A} sep i (p : parser A) s r :
  read_separator sep i p s = Some r → ∃ s0, p s0 = Some r.
Proof.
  destruct i; simpl; [eauto|]. destruct (read_given_char sep s) as [[[] s0]|]; simpl; [eauto|done].
Qed.

Lemma read_octets_ok k : ∀ i s o s', read_octets k i s = Some (o, s') → bytes_ok o ∧ length o = k.
Proof.
  induction k as [|k IH]; intros i s o s' H; simpl in H; [simplify_eq; split; [constructor|done]|].
  destruct (read_separator _ _ _ _) as [[o1 s1]|] eqn:E; simpl in H; [|done].
  destruct (read_octets k (S i) s1) as [[os s2]|] eqn:E2; simpl in H; [|done]. simplify_eq.
  apply IH in E2 as [? <-]. apply read_separator_inv in E as [s0 E].
  apply read_number_bounds in E; [|lia]. split; [|done]. constructor; [unfold u8_max in *; lia|done].
Qed.

Lemma read_groups_ok k : ∀ i s o v4 s',
  read_groups k i s = (o, v4, s') → bytes_ok o ∧ ∃ n, (n ≤ k)%nat ∧ length o = (2 * n)%nat.
Proof.
  induction k as [|k IH]; intros i s o v4 s' H; cbn [read_groups] in H.
  { simplify_eq. split; [constructor|]. by exists 0%nat. }
  destruct (if decide (0 < k)%nat then _ else None) as [[o1 s1]|] eqn:E.
  - case_decide as Hk; [|done]. simplify_eq. apply read_separator_inv in E as [s0 E].
    apply read_octets_ok in E as [? Hl]. split; [done|]. exists 2%nat. lia.
  - destruct (read_separator ":" i (read_number u16_max 16 4 true) s) as [[g s1]|] eqn:E2.
    + destruct (read_groups k (S i) s1) as [[gs v] s2] eqn:E3. simplify_eq.
      apply IH in E3 as (? & n & Hn & Hl). split.
      * apply Forall_app. split; [apply to_be_bytes_ok|done].
      * exists (S n). rewrite length_app, length_to_be_bytes. lia.
    + simplify_eq. split; [constructor|]. exists 0%nat. simpl. lia.
Qed.

Lemma bytes_ok_zeros k : bytes_ok (replicate k 0).
Proof. by apply digits_ok_replicate_0. Qed.

Lemma read_ipv6_ok s o s' : read_ipv6_addr s = Some (o, s') → bytes_ok o ∧ length o = 16%nat.
Proof.
  unfold read_ipv6_addr. destruct (read_groups 8 0 s) as [[h v] s1] eqn:E1.
  apply read_groups_ok in E1 as (Hh & n & Hn & Hl).
  case_decide; [intros [= <- _]; done|]. destruct v; [done|].
  destruct (read_given_char ":" s1) as [[[] s2]|]; cbn [mbind option_bind]; [|done].
  destruct (read_given_char ":" s2) as [[[] s3]|]; cbn [mbind option_bind]; [|done].
  destruct (read_groups _ 0 s3) as [[t v2] s4] eqn:E2. intros [= <- _].
  apply read_groups_ok in E2 as (Ht & n2 & Hn2 & Hl2).
  assert (length h / 2 = n)%nat as Hdiv by (rewrite Hl, Nat.mul_comm; apply Nat.div_mul; lia).
  rewrite Hdiv in Hn2. split.
  - repeat (apply Forall_app; split); [done|apply bytes_ok_zeros|done].
  - rewrite !length_app, length_replicate. lia.
Qed.

Lemma parse_ip_ok s a : parse_ip s = Some a → addr_ok a.
Proof.
  unfold parse_ip, read_ipv4_addr. destruct (read_octets 4 0 s) as [[o s1]|] eqn:E.
  - destruct s1; [|done]. intros [= <-]. by apply read_octets_ok in E.
  - destruct (read_ipv6_addr s) as [[o [|]]|] eqn:E6; [|done..]. intros [= <-]. by apply read_ipv6_ok in E6.
Qed.

Lemma parse_network_ok s n : parse_network s = Ok n → network_ok n.
Proof.
  unfold parse_network. destruct (match split_once "/" s with Some _ => _ | None => _ end) as [addr prefix].
  destruct (parse_ip addr) as [a|] eqn:Ha; [|done]. apply parse_ip_ok in Ha.
  destruct prefix as [prefix|]; [|intros [= <-]; unfold network_ok, addr_width; simpl; destruct (is_ipv4 a); by split].
  destruct (parse_uint u8_max prefix) as [len|] eqn:Hp; [|done]. case_decide; [|done]. intros [= <-].
  apply parse_uint_bounds in Hp; [|done]. unfold network_ok, addr_width. simpl. split; [done|].
  split; [lia|]. by destruct (is_ipv4 a).
Qed.

Lemma parse_networks_ok l ns : parse_networks l = Ok ns → Forall network_ok ns.
Proof.
  revert ns. induction l as [|s l IH]; intros ns H; simpl in H; [simplify_eq; constructor|].
  destruct (parse_network s) eqn:E; [|done]. destruct (parse_networks l); [|done]. simplify_eq.
  constructor; [by eapply parse_network_ok|by apply IH].
Qed.

(** *** Comparing prefixes is comparing leading bits *)

Lemma mask_byte (r x : Z) :
  0 < r < 8 → 0 ≤ x < 256 →
  Z.land x (wrapu 8 (Z.shiftl 0xff (8 - r))) = x / 2 ^ (8 - r) * 2 ^ (8 - r).
Proof.
  assert (forallb (λ r, forallb (λ x,
    Z.land x (wrapu 8 (Z.shiftl 0xff (8 - r))) =? x / 2 ^ (8 - r) * 2 ^ (8 - r))
    (seqZ 0 256)) (seqZ 1 7) = true) as H by by vm_compute.
  intros Hr Hx. rewrite forallb_forall in H.
  assert (In r (seqZ 1 7)) as Hin by (apply list_elem_of_In, elem_of_seqZ; lia).
  specialize (H r Hin). cbv beta in H. rewrite forallb_forall in H.
  apply Z.eqb_eq. apply H. apply list_elem_of_In, elem_of_seqZ. lia.
Qed.

Lemma from_be_app a b : from_be_bytes (a ++ b) = from_be_bytes a * 256 ^ length b + from_be_bytes b.
Proof.
  unfold from_be_bytes. unfold eval_be at 1. rewrite foldl_app. fold (eval_be 256 a). apply eval_be_acc.
Qed.

(** The leading bits when they end inside the byte [x]. *)
Lemma shiftr_split a x b (r : Z) :
  0 ≤ r < 8 → bytes_ok b →
  Z.shiftr (from_be_bytes (a ++ x :: b)) (8 * (length b + 1)%nat - r) =
  from_be_bytes a * 2 ^ r + x / 2 ^ (8 - r).
Proof.
  intros Hr Hb. pose proof (from_be_bytes_bounds b Hb) as Hbb.
  rewrite Z.shiftr_div_pow2 by lia. rewrite from_be_app. unfold from_be_bytes at 2. rewrite eval_be_cons.
  fold (from_be_bytes b). simpl length.
  assert (2 ^ (8 * (length b + 1)%nat - r) = 256 ^ length b * 2 ^ (8 - r)) as ->.
  { change 256 with (2 ^ 8). rewrite <- Z.pow_mul_r by lia. rewrite <- Z.pow_add_r by lia. f_equal. lia. }
  rewrite <- Z.div_div by (try apply Z.pow_pos_nonneg; lia).
  replace (256 ^ S (length b)) with (256 * 256 ^ length b) by (rewrite <- Z.pow_succ_r by lia; f_equal; lia).
  replace (from_be_bytes a * (256 * 256 ^ length b) + (x * 256 ^ length b + from_be_bytes b))
    with (from_be_bytes b + (from_be_bytes a * 256 + x) * 256 ^ length b) by lia.
  rewrite Z.div_add by (pose proof (Z.pow_pos_nonneg 256 (length b)); lia).
  rewrite (Z.div_small (from_be_bytes b)) by lia. rewrite Z.add_0_l.
  replace 256 with (2 ^ r * 2 ^ (8 - r)) by (rewrite <- Z.pow_add_r by lia; replace (r + (8 - r)) with 8 by lia; done).
  replace (from_be_bytes a * (2 ^ r * 2 ^ (8 - r)) + x) with (x + (from_be_bytes a * 2 ^ r) * 2 ^ (8 - r)) by lia.
  rewrite Z.div_add by (pose proof (Z.pow_pos_nonneg 2 (8 - r)); lia). lia.
Qed.

Lemma shiftr_split_end a b :
  bytes_ok b → Z.shiftr (from_be_bytes (a ++ b)) (8 * length b) = from_be_bytes a.
Proof.
  intros Hb. pose proof (from_be_bytes_bounds b Hb) as Hbb.
  rewrite Z.shiftr_div_pow2 by lia. rewrite from_be_app.
  replace (2 ^ (8 * length b)) with (256 ^ length b) by (change 256 with (2 ^ 8); by rewrite <- Z.pow_mul_r by lia).
  rewrite Z.add_comm, Z.div_add by (pose proof (Z.pow_pos_nonneg 256 (length b)); lia).
  by rewrite (Z.div_small (from_be_bytes b)) by lia.
Qed.

Lemma from_be_inj a b : bytes_ok a → bytes_ok b → length a = length b → from_be_bytes a = from_be_bytes b → a = b.
Proof. intros. by apply (eval_be_inj 256). Qed.

(** Two numbers with the leading bytes [a], [b] and then [x], [y] agree on them
    and [r] bits more when the bytes do, and [x] and [y] under the mask. *)
Lemma leading_bits_eq a b x y r :
  0 < r < 8 → bytes_ok a → bytes_ok b → length a = length b → 0 ≤ x < 256 → 0 ≤ y < 256 →
  from_be_bytes a * 2 ^ r + x / 2 ^ (8 - r) = from_be_bytes b * 2 ^ r + y / 2 ^ (8 - r) ↔
  a = b ∧ x / 2 ^ (8 - r) * 2 ^ (8 - r) = y / 2 ^ (8 - r) * 2 ^ (8 - r).
Proof.
  intros Hr Ha Hb Hl Hx Hy.
  assert (0 < 2 ^ (8 - r)) as Hp by (apply Z.pow_pos_nonneg; lia).
  assert (2 ^ r * 2 ^ (8 - r) = 256) as Hpp by (rewrite <- Z.pow_add_r by lia; replace (r + (8 - r)) with 8 by lia; done).
  assert (∀ z, 0 ≤ z < 256 → 0 ≤ z / 2 ^ (8 - r) < 2 ^ r) as Hz.
  { intros z ?. split; [apply Z.div_pos; lia|]. apply Z.div_lt_upper_bound; lia. }
  pose proof (Hz x Hx). pose proof (Hz y Hy). split; [|intros [-> ?]; nia].
  intros E. assert (from_be_bytes a = from_be_bytes b) as Eab by nia.
  split; [by apply from_be_inj|]. rewrite Eab in E. nia.
Qed.

Lemma drop_lookup_cons {A} (l : list A) k x l' : drop k l = x :: l' → l !! k = Some x.
Proof. intros E. replace k with (k + 0)%nat by lia. rewrite <- lookup_drop. by rewrite E. Qed.

Lemma prefix_matches_bytes n a (k : nat) :
  bytes_ok n → bytes_ok a → length n = length a → (k ≤ length a)%nat →
  bool_decide (take k n = take k a) = bool_decide (
    Z.shiftr (from_be_bytes n) (8 * length a - 8 * k) = Z.shiftr (from_be_bytes a) (8 * length a - 8 * k)).
Proof.
  intros Hn Ha Hl Hk.
  assert (∀ l, bytes_ok l → length l = length a →
    Z.shiftr (from_be_bytes l) (8 * length a - 8 * k) = from_be_bytes (take k l)) as Hs.
  { intros l Hok Hll. rewrite <- (take_drop k l) at 1.
    replace (8 * length a - 8 * k) with (8 * length (drop k l)) by (rewrite length_drop; lia).
    apply shiftr_split_end. by apply Forall_drop. }
  rewrite !Hs by done. apply bool_decide_ext. split; [by intros ->|].
  apply from_be_inj; [by apply Forall_take..|]. rewrite !length_take. lia.
Qed.

Lemma prefix_matches_bits n a (k : nat) r x y :
  bytes_ok n → bytes_ok a → length n = length a → 0 < r < 8 → n !! k = Some x → a !! k = Some y →
  bool_decide (take k n = take k a ∧
    Z.land x (wrapu 8 (Z.shiftl 0xff (8 - r))) = Z.land y (wrapu 8 (Z.shiftl 0xff (8 - r)))) =
  bool_decide (Z.shiftr (from_be_bytes n) (8 * length a - (8 * k + r)) =
               Z.shiftr (from_be_bytes a) (8 * length a - (8 * k + r))).
Proof.
  intros Hn Ha Hl Hr Hx Hy.
  assert (∀ l z, bytes_ok l → length l = length a → l !! k = Some z →
    Z.shiftr (from_be_bytes l) (8 * length a - (8 * k + r)) = from_be_bytes (take k l) * 2 ^ r + z / 2 ^ (8 - r)) as Hs.
  { intros l z Hok Hll Hz. rewrite <- (take_drop_middle l k z Hz) at 1.
    pose proof (lookup_lt_Some _ _ _ Hz).
    replace (8 * length a - (8 * k + r)) with (8 * (length (drop (S k) l) + 1)%nat - r)
      by (rewrite length_drop; lia).
    apply shiftr_split; [lia|]. by apply Forall_drop. }
  pose proof (Forall_lookup_1 _ _ _ _ Hn Hx). pose proof (Forall_lookup_1 _ _ _ _ Ha Hy). cbv beta in *.
  rewrite (Hs n x), (Hs a y) by done. rewrite !mask_byte by lia. apply bool_decide_ext. symmetry.
  apply leading_bits_eq; [lia|by apply Forall_take|by apply Forall_take|rewrite !length_take; lia|lia|lia].
Qed.

Lemma prefix_matches_spec n a len :
  bytes_ok n → bytes_ok a → length n = length a → 0 ≤ len ≤ 8 * length a →
  prefix_matches n a len = Val (bool_decide (
    Z.shiftr (from_be_bytes n) (8 * length a - len) = Z.shiftr (from_be_bytes a) (8 * length a - len))).
Proof.
  intros Hn Ha Hl Hlen. unfold prefix_matches.
  pose proof (Z.div_mod len 8 ltac:(lia)) as Hdm. pose proof (Z.mod_pos_bound len 8 ltac:(lia)) as Hr.
  set (r := len `mod` 8) in *. set (k := Z.to_nat (len / 8)).
  assert (0 ≤ len / 8) as Hq by (apply Z.div_pos; lia).
  assert (len = 8 * Z.of_nat k + r) as Hlen' by lia. clearbody k r. subst len. clear Hdm Hq.
  rewrite decide_True by lia. destruct (decide (r = 0)) as [->|Hr0].
  - rewrite Z.add_0_r. rewrite <- prefix_matches_bytes by (done || lia).
    repeat case_decide; case_bool_decide; by simplify_eq.
  - destruct (lookup_lt_is_Some_2 n k) as [x Hx]; [lia|]. destruct (lookup_lt_is_Some_2 a k) as [y Hy]; [lia|].
    rewrite Hx, Hy. rewrite <- (prefix_matches_bits n a k r x y) by (done || lia).
    case_decide as Ht; f_equal.
    + symmetry. apply bool_decide_eq_false_2. intros [? _]. done.
    + apply bool_decide_ext. split; [|tauto]. intros. split; [|done].
      by destruct (decide (take k n = take k a)).
Qed.

Lemma contains_spec n a :
  network_ok n → addr_ok a → ∃ b, contains n a = Val b ∧ (b = true ↔ covers n a).
Proof.
  intros [[Hn Hln] Hp] [Ha Hla]. unfold contains, covers, addr_value, addr_width in *.
  destruct n as [[n|n] len], a as [a|a]; simpl in *; try (exists false; split; [done|]; split; [done|]; by intros [? _]).
  all: rewrite prefix_matches_spec by (done || lia); eexists; split; [done|].
  all: rewrite bool_decide_eq_true, Hla; change (8 * 4%nat) with 32; change (8 * 16%nat) with 128; tauto.
Qed.

Lemma any_contains_spec self a :
  Forall network_ok self → addr_ok a →
  ∃ b, any_contains self a = Val b ∧ (b = true ↔ Exists (λ n, covers n a) self).
Proof.
  intros Hs Ha. induction Hs as [|n self Hn _ (b & Hb & IH)]; simpl.
  { exists false. split; [done|]. by rewrite Exists_nil. }
  destruct (contains_spec n a Hn Ha) as (c & -> & Hc). cbn [mbind exec_bind].
  destruct c; [exists true; split; [done|]; rewrite Exists_cons; tauto|].
  exists b. split; [done|]. rewrite Exists_cons, IH. assert (¬ covers n a) by (intros ?%Hc; done). tauto.
Qed.

Lemma unmap_ok a : addr_ok a → addr_ok (unmap a).
Proof.
  destruct a as [o|o]; [done|]. unfold unmap, to_ipv4_mapped. intros [Ho Hl]. simpl in *.
  case_decide; [|done]. split; simpl; [by apply Forall_drop|]. rewrite length_drop. lia.
Qed.

Lemma allows_spec self addr :
  Forall network_ok self → addr_ok addr →
  ∃ b, allows self addr = Val b ∧
    (b = true ↔ self = [] ∨ is_loopback (unmap addr) = true ∨ Exists (λ n, covers n (unmap addr)) self).
Proof.
  intros Hs Ha%unmap_ok. unfold allows, is_unrestricted.
  destruct (any_contains_spec self _ Hs Ha) as (b & Hb & Hiff).
  case_bool_decide as Hl; [exists true; split; [done|]; split; [left|done]; by destruct self|].
  destruct (is_loopback (unmap addr)); [exists true; split; [done|]; tauto|].
  exists b. split; [done|]. rewrite Hiff. split; [tauto|]. intros [->|[?|?]]; [by destruct Hl|done|done].
Qed.

(** C10: A peer is let in exactly when the list is empty, the peer is on this
    host, or one of the networks has the same leading bits, counting an IPv4
    address in IPv6 clothing as IPv4; checking a list that was parsed never
    panics. *)
Theorem allow_list_admits s self addr :
  parse_allow_list s = Ok self → addr_ok addr →
  ∃ b, allows self addr = Val b ∧
    (b = true ↔ self = [] ∨ is_loopback (unmap addr) = true ∨ Exists (λ n, covers n (unmap addr)) self).
Proof. intros Hs%parse_networks_ok. by apply allows_spec. Qed.

(** 10.1.2.3 is in 10.0.0.0/9, also as an IPv6 address; 10.128.0.1 is not. *)
Lemma allow_list_admits_witness :
  parse_allow_list "10.0.0.0/9, fe80::/10" = Ok [mkIpNetwork (V4 [10; 0; 0; 0]) 9;
    mkIpNetwork (V6 ([254; 128] ++ replicate 14 0)) 10] ∧
  (∃ b, allows [mkIpNetwork (V4 [10; 0; 0; 0]) 9; mkIpNetwork (V6 ([254; 128] ++ replicate 14 0)) 10]
     (V6 (replicate 10 0 ++ [255; 255; 10; 1; 2; 3])) = Val b ∧ b = true) ∧
  allows [mkIpNetwork (V4 [10; 0; 0; 0]) 9] (V4 [10; 128; 0; 1]) = Val false.
Proof.
  assert (parse_allow_list "10.0.0.0/9, fe80::/10" = Ok [mkIpNetwork (V4 [10; 0; 0; 0]) 9;
    mkIpNetwork (V6 ([254; 128] ++ replicate 14 0)) 10]) as Hp by (vm_compute; reflexivity).
  split; [exact Hp|]. split; [|vm_compute; reflexivity].
  destruct (allow_list_admits _ _ (V6 (replicate 10 0 ++ [255; 255; 10; 1; 2; 3])) Hp) as (b & Hb & Hiff).
  - split; [|reflexivity]. repeat (constructor; [lia|]). constructor.
  - exists b. split; [exact Hb|]. apply Hiff. right. right. apply Exists_cons_hd. split; reflexivity.
Defined.
