(* ===== verification/ApiData.v ===== *)
(** * The control API of [src/server.rs]: what it publishes and remembers

    The answers and events of the API, the covers it caches, the position it
    extrapolates, and the events of the AirPlay receiver
    ([airplay/src/lib.rs]) it listens to.  JSON and base64 are parameters: a
    class of encoders with their laws. *)

From S2P Require Import Prelude StdTypes Digits Text Float64 Wire SpotifyId SpotifyUri Metadata AllowList.

Local Open Scope string_scope.
Local Open Scope list_scope.
Local Open Scope Z_scope.
Local Coercion Z.of_nat : nat >-> Z.

Definition CONNECTION_QUEUE : nat := 16.
Definition MAX_REQUEST_BYTES : nat := 1024.
Definition MAX_COVER_BYTES : Z := 2 * 1024 * 1024.
Definition COVER_CACHE_SIZE : nat := 4.

(** ** The AirPlay receiver *)

Record DacpTarget := mkDacpTarget {
  host : IpAddr;
  port : Z;
  active_remote : string;
  local_bind : option IpAddr;
  machine_number : Z;
  scope_id : Z;
}.

Inductive AirplayEvent :=
| AeSessionStarted (connection : Z) (peer : IpAddr)
| AeDacpAvailable (connection : Z) (host : IpAddr) (port : Z) (active_remote : string) (machine_number scope_id : Z)
    (local_bind : option IpAddr)
| AePlaybackChanged (connection : Z) (is_playing : bool) (position_ms : Z)
| AeTrackChanged (connection : Z) (title artist album album_artist : string) (duration_ms : Z)
    (cover : option (list Z * string))
| AeCoverChanged (connection : Z) (bytes : list Z) (mime : string)
| AeProgressChanged (connection : Z) (position_ms duration_ms : Z)
| AeVolumeChanged (connection : Z) (percent : Z)
| AeSessionEnded (connection : Z).

(** ** Answers and events *)

Record TrackResponse := mkTrackResponse {
  song_name : string;
  song_id : string;
  song_artists : list string;
  song_uri : string;
  track_type : string;
  track_album : string;
  track_album_artists : list string;
  track_duration_ms : Z;
  track_is_explicit : bool;
  track_source : string;
}.
#[export] Instance settable_TrackResponse : Settable TrackResponse := λ r,
  mkTrackResponse (song_name r) (song_id r) (song_artists r) (song_uri r) (track_type r) (track_album r)
    (track_album_artists r) (track_duration_ms r) (track_is_explicit r) (track_source r).
#[export] Instance TrackResponse_eq_dec : EqDecision TrackResponse.
Proof. solve_decision. Defined.

Definition TrackResponse_default : TrackResponse :=
  mkTrackResponse EmptyString EmptyString [] EmptyString EmptyString EmptyString [] 0 false EmptyString.

(** [From<AudioItem>]; printing an identifier may panic in the model of
    [to_base62] only. *)
Definition TrackResponse_from (audio_item : AudioItem) : exec TrackResponse :=
  let '(artists, album, album_artists) :=
    match ai_unique_fields audio_item with
    | UTrack artists album album_artists _ _ _ => ((λ a, a.1.2) <$> artists, album, album_artists)
    | UEpisode _ _ show_name => ([show_name], show_name, [])
    | ULocal artists album album_artists _ _ _ =>
        (option_list artists, default EmptyString album, option_list album_artists)
    end in
  id ← (if decide (item_type (ai_track_id audio_item) = "track") then to_id (ai_track_id audio_item) else Val EmptyString);
  Val (mkTrackResponse (ai_name audio_item) id artists (ai_uri audio_item) (item_type (ai_track_id audio_item))
         album album_artists (ai_duration_ms audio_item) (ai_is_explicit audio_item) "spotify").

Inductive Event :=
| EvSnapshot (is_playing : bool) (position_ms volume : Z) (track : TrackResponse)
| EvTrack (track : TrackResponse)
| EvPlayback (is_playing : bool) (position_ms : Z)
| EvVolume (volume : Z)
| EvCover (mime : string) (bytes : Z) (data : string).
#[export] Instance Event_eq_dec : EqDecision Event.
Proof. solve_decision. Defined.

(** [serde_json::to_string] on the payloads, [from_str] on the request of
    [setvol], and [BASE64] of [data_encoding]. *)
Class Serde := {
  encode_event : Event → option string;
  encode_volume : Z → option string;
  encode_track : TrackResponse → option string;
  parse_set_volume : string → option Z;
  base64_encode : list Z → string;
}.

Definition newline : ascii := "010".

(** What clients and the module's documentation rely on: these payloads always
    serialize, a value has no raw newline in it, an event is read back, the
    answers that are no events do not pass for one, a volume that is parsed is
    a [u16], and base64 is read back. *)
Class SerdeLaws `{Serde} := {
  decode_event : string → option Event;
  base64_decode : string → option (list Z);
  encode_event_total e : ∃ s, encode_event e = Some s ∧ no_char newline s ∧ decode_event s = Some e;
  encode_volume_line v s : encode_volume v = Some s → no_char newline s ∧ decode_event s = None;
  encode_track_line t s : encode_track t = Some s → no_char newline s ∧ decode_event s = None;
  parse_set_volume_u16 s v : parse_set_volume s = Some v → 0 ≤ v ≤ u16_max;
  base64_roundtrip l : bytes_ok l → base64_decode (base64_encode l) = Some l;
}.

(** ** Covers *)

Record Cover := mkCover { bytes : list Z; mime : string }.
#[export] Instance Cover_eq_dec : EqDecision Cover.
Proof. solve_decision. Defined.

(** [max_by_key]: the last of the widest. *)
Definition cover_to_ship (covers : list CoverImage) : option CoverImage :=
  foldl (λ best c, match best with
                   | Some b => if decide (cover_width b ≤ cover_width c) then Some c else best
                   | None => Some c
                   end) None covers.

Definition cover_mime (b : list Z) : string :=
  match b with
  | 0xff :: 0xd8 :: 0xff :: _ => "image/jpeg"
  | 0x89 :: 0x50 :: 0x4e :: 0x47 :: _ => "image/png"
  | 0x47 :: 0x49 :: 0x46 :: 0x38 :: _ => "image/gif"
  | 0x52 :: 0x49 :: 0x46 :: 0x46 :: _ :: _ :: _ :: _ :: 0x57 :: 0x45 :: 0x42 :: 0x50 :: _ => "image/webp"
  | _ => "application/octet-stream"
  end.

Record CoverFetched := mkCoverFetched { fetched_url : string; fetched : option Cover }.

(** What comes back from a fetch: [None] when the request failed or timed
    out. *)
Definition fetch_cover (url : string) (response : option (list Z)) : CoverFetched :=
  mkCoverFetched url
    (match response with
     | Some b => if decide (MAX_COVER_BYTES < length b) then None else Some (mkCover b (cover_mime b))
     | None => None
     end).

Record CoverCache := mkCoverCache { covers : gmap string Cover; order : list string }.
#[export] Instance settable_CoverCache : Settable CoverCache := λ r, mkCoverCache (covers r) (order r).
Definition CoverCache_default : CoverCache := mkCoverCache ∅ [].

Definition cache_get (self : CoverCache) (url : string) : option Cover := covers self !! url.
Definition cache_insert (url : string) (cover : Cover) (self : CoverCache) : CoverCache :=
  if decide (is_Some (covers self !! url)) then self
  else
    let self :=
      if decide (COVER_CACHE_SIZE ≤ length (order self))%nat then
        match order self with
        | oldest :: rest => mkCoverCache (delete oldest (covers self)) rest
        | [] => self
        end
      else self in
    mkCoverCache (<[url := cover]> (covers self)) (order self ++ [url]).

(** ** Volume and position *)

Definition volume_from_percent (percent : Z) : Z :=
  F64.to_int 0 u16_max (F64.round (F64.mul (F64.div (F64.of_Z (Z.min percent 100)) (F64.of_Z 100)) (F64.of_Z u16_max))).
Definition percent_from_volume (volume : Z) : Z :=
  F64.to_int 0 255 (F64.round (F64.mul (F64.div (F64.of_Z volume) (F64.of_Z u16_max)) (F64.of_Z 100))).

(** Instants are nanoseconds. *)
Record PlaybackState := mkPlaybackState { is_playing : bool; position_ms : Z; measured_at : Z }.
#[export] Instance settable_PlaybackState : Settable PlaybackState := λ r,
  mkPlaybackState (is_playing r) (position_ms r) (measured_at r).

Definition PlaybackState_default (now : Z) : PlaybackState := mkPlaybackState false 0 now.

Definition playback_update (now : Z) (playing : option bool) (position : Z) (self : PlaybackState) : PlaybackState :=
  mkPlaybackState (default (is_playing self) playing) position now.

(** The position counted up from the last report, without the cap of the
    duration. *)
Definition counted_position (now : Z) (self : PlaybackState) : Z :=
  if is_playing self then
    let elapsed := Z.max 0 (now - measured_at self) / 1000000 in
    Z.min u32_max (position_ms self + Z.min u32_max elapsed)
  else position_ms self.

Definition current_position (now duration : Z) (self : PlaybackState) : Z :=
  if negb (is_playing self) then position_ms self
  else
    let position := counted_position now self in
    if decide (0 < duration) then Z.min position duration else position.

(** ** Lemmas *)

(** *** The cover cache *)

(** The cache holds at most four covers, each within the limit, and the order
    lists exactly the URLs it holds. *)
Record cache_ok (self : CoverCache) : Prop := {
  cache_len : (length (order self) ≤ COVER_CACHE_SIZE)%nat;
  cache_NoDup : NoDup (order self);
  cache_keys : ∀ url, url ∈ order self ↔ is_Some (covers self !! url);
  cache_sizes : map_Forall (λ _ c, length (bytes c) ≤ MAX_COVER_BYTES) (covers self);
}.

Lemma cache_default_ok : cache_ok CoverCache_default.
Proof.
  constructor; simpl; [unfold COVER_CACHE_SIZE; lia|apply NoDup_nil_2| |apply map_Forall_empty].
  intros url. rewrite lookup_empty. split; [by intros ?%elem_of_nil|by intros []].
Qed.

(** Dropping the oldest cover makes room and keeps the cache well-formed. *)
Lemma cache_evict_ok oldest rest c :
  cache_ok (mkCoverCache c (oldest :: rest)) → cache_ok (mkCoverCache (delete oldest c) rest).
Proof.
  intros [Hlen Hnd Hk Hs]. simpl in *. apply NoDup_cons in Hnd as [Hn Hnd]. constructor; simpl; [lia|done| |].
  - intros url. specialize (Hk url). rewrite elem_of_cons in Hk. destruct (decide (url = oldest)) as [->|Hne].
    + rewrite lookup_delete_eq. split; [done|by intros []].
    + rewrite lookup_delete_ne by done. rewrite <- Hk. naive_solver.
  - by apply map_Forall_delete.
Qed.

Lemma cache_push_ok url cover c o :
  cache_ok (mkCoverCache c o) → c !! url = None → (length o < COVER_CACHE_SIZE)%nat → length (bytes cover) ≤ MAX_COVER_BYTES →
  cache_ok (mkCoverCache (<[url := cover]> c) (o ++ [url])).
Proof.
  intros [Hlen Hnd Hk Hs] Hu Hl Hc. simpl in *. constructor; simpl.
  - rewrite length_app. simpl. lia.
  - apply NoDup_app. split_and!; [done| |apply NoDup_singleton].
    intros x Hx ->%list_elem_of_singleton. apply Hk in Hx as [? Hx]. congruence.
  - intros x. rewrite elem_of_app, list_elem_of_singleton, Hk. destruct (decide (x = url)) as [->|Hne].
    + rewrite lookup_insert_eq. naive_solver.
    + rewrite lookup_insert_ne by done. naive_solver.
  - by apply map_Forall_insert_2.
Qed.

Lemma cache_insert_ok url cover self :
  cache_ok self → length (bytes cover) ≤ MAX_COVER_BYTES → cache_ok (cache_insert url cover self).
Proof.
  intros Hok Hc. unfold cache_insert. case_decide as Hu; [done|]. apply eq_None_not_Some in Hu.
  case_decide as Hl; [destruct self as [c [|oldest rest]]; simpl in *; [unfold COVER_CACHE_SIZE in Hl; lia|]
                     |destruct self; apply cache_push_ok; simpl in *; first [done|lia]].
  pose proof (cache_len _ Hok) as Hlen. simpl in Hlen.
  apply cache_push_ok; [by apply cache_evict_ok| |lia|done].
  destruct (decide (url = oldest)) as [->|]; [apply lookup_delete_eq|by rewrite lookup_delete_ne].
Qed.

Lemma cache_get_size self url c : cache_ok self → cache_get self url = Some c → length (bytes c) ≤ MAX_COVER_BYTES.
Proof. intros Hok Hg. exact (map_Forall_lookup_1 _ _ _ _ (cache_sizes _ Hok) Hg). Qed.

Lemma fetch_cover_size url response c :
  fetched (fetch_cover url response) = Some c → length (bytes c) ≤ MAX_COVER_BYTES.
Proof. destruct response as [b|]; simpl; [|done]. case_decide; [done|]. intros [= <-]. simpl. lia. Qed.

(** *** Volume and position *)

(** Every percentage survives the trip over the scale of the API. *)
Lemma percent_roundtrip p : 0 ≤ p ≤ 100 → percent_from_volume (volume_from_percent p) = p.
Proof.
  intros Hp. assert (forallb (λ n, bool_decide (percent_from_volume (volume_from_percent n) = n)) (Z.of_nat <$> seq 0 101) = true) as H
    by (vm_compute; reflexivity).
  rewrite forallb_forall in H. apply (bool_decide_unpack _). apply Is_true_true, H.
  apply list_elem_of_In, list_elem_of_fmap. exists (Z.to_nat p). rewrite elem_of_seq. lia.
Qed.

Lemma volume_from_percent_u16 p : 0 ≤ volume_from_percent p ≤ u16_max.
Proof. by apply to_int_bounds. Qed.

Lemma current_position_cap now duration self :
  current_position now duration self = counted_position now self ∨
  (0 < duration ∧ current_position now duration self = duration ∧ duration ≤ counted_position now self).
Proof.
  unfold current_position, counted_position. destruct (is_playing self); simpl; [|by left].
  case_decide; [|by left]. destruct (Z.min_spec (Z.min u32_max (position_ms self + Z.min u32_max (Z.max 0 (now - measured_at self) / 1000000))) duration) as [[? ->]|[? ->]]; [by left|by right].
Qed.

Lemma counted_update now playing position self :
  0 ≤ position ≤ u32_max → counted_position now (playback_update now playing position self) = position.
Proof.
  intros Hp. unfold counted_position, playback_update. simpl. destruct (default _ _); [|done].
  rewrite Z.sub_diag. change (Z.max 0 0 / 1000000) with 0. change u32_max with 4294967295 in *. lia.
Qed.
