(* ===== verification/ApiServer.v ===== *)
(** * The control API: the server task of [src/server.rs]

    One task owns the published state and the connections.  It never touches a
    socket: each connection has a bounded queue and a writer task of its own,
    modelled by a pipe, which lives on after the server has forgotten the
    connection.  The world has the task, the pipes, what the task asked others
    to do, and the history of what was queued for whom. *)

From S2P Require Import Prelude StdTypes Digits Text Float64 Wire SpotifyId SpotifyUri Metadata Player AllowList SpircData ApiData.

Local Open Scope string_scope.
Local Open Scope list_scope.
Local Open Scope Z_scope.
Local Coercion Z.of_nat : nat >-> Z.

(** ** Data *)

Inductive Source := SpotifySource | AirplaySource.
#[export] Instance Source_eq_dec : EqDecision Source.
Proof. solve_decision. Defined.

Record Connection := mkConnection { peer : IpAddr * Z; subscribed : bool }.
#[export] Instance settable_Connection : Settable Connection := λ r, mkConnection (peer r) (subscribed r).

(** The fields of the task; channels and sockets are whether they are there,
    the handle of Spirc is the state of its channel. *)
Record ApiServerTask := mkApiServerTask {
  allow_list : AllowList;
  spirc : option Spirc;
  session : bool;
  connections : gmap Z Connection;
  next_connection_id : Z;
  current_track : TrackResponse;
  current_volume : Z;
  playback : PlaybackState;
  cover_cache : CoverCache;
  current_cover : option Cover;
  current_cover_url : option string;
  airplay_events : bool;
  active_source : Source;
  airplay_dacp : option (Z * DacpTarget);
  airplay_connection : option Z;
  airplay_peer : option (Z * IpAddr);
  airplay_helper_port : option Z;
  helper_socket : bool;
  airplay_control : bool;
}.
#[export] Instance settable_ApiServerTask : Settable ApiServerTask := λ r,
  mkApiServerTask (allow_list r) (spirc r) (session r) (connections r) (next_connection_id r) (current_track r)
    (current_volume r) (playback r) (cover_cache r) (current_cover r) (current_cover_url r) (airplay_events r)
    (active_source r) (airplay_dacp r) (airplay_connection r) (airplay_peer r) (airplay_helper_port r)
    (helper_socket r) (airplay_control r).

(** The queue of a connection and its writer task: the lines that wait, whether
    the task still takes them, what it wrote to the socket, and whether it has
    shut the socket down. *)
Record Pipe := mkPipe { waiting : list string; draining : bool; socket : string; shut : bool }.
#[export] Instance settable_Pipe : Settable Pipe := λ r, mkPipe (waiting r) (draining r) (socket r) (shut r).

(** What the task asks others to do. *)
Inductive Effect :=
| DacpCommand (target : DacpTarget) (command : string)
| DacpVolume (target : DacpTarget) (percent : Z)
| HelperDatagram (target : IpAddr * Z) (command : string)
| AirplayVolume (percent : Z)
| FetchCover (url : string).

(** The history: a connection was put on the push list; a line was queued. *)
Inductive Happened :=
| HSubscribed (id : Z)
| HQueued (now id : Z) (line : string).

Record World := mkWorld {
  task : ApiServerTask;
  pipes : gmap Z Pipe;
  effects : list Effect;
  history : list Happened;
}.
#[export] Instance settable_World : Settable World := λ r, mkWorld (task r) (pipes r) (effects r) (history r).

(** [ApiServer::spawn]. *)
Definition spawn (now : Z) (allow : AllowList) (helper_port : option Z) (helper_bound : bool) : World :=
  mkWorld
    (mkApiServerTask allow None false ∅ 0 TrackResponse_default 0 (PlaybackState_default now) CoverCache_default None None
       false SpotifySource None None None helper_port helper_bound false)
    ∅ [] [].

Definition modify (f : ApiServerTask → ApiServerTask) (w : World) : World := w <| task ::= f |>.
Definition ask (e : Effect) (w : World) : World := w <| effects ::= (λ l, l ++ [e]) |>.

(** ** Connections *)

(** Registers a connection the allow list lets in; its writer task starts with
    an empty queue. *)
Definition admit_peer (peer : IpAddr * Z) (w : World) : exec (option Z * World) :=
  let self := task w in
  allowed ← allows (allow_list self) peer.1;
  if negb allowed then Val (None, w)
  else
    let id := next_connection_id self in
    next ← uadd u64_max id 1;
    Val (Some id,
         w <| task := self <| next_connection_id := next |>
                           <| connections ::= <[id := mkConnection peer false]> |> |>
           <| pipes ::= <[id := mkPipe [] true EmptyString false]> |>).

Definition accept (peer : IpAddr * Z) (w : World) : exec World :=
  r ← admit_peer peer w; Val r.2.

Definition disconnect (id : Z) : World → World := modify (λ t, t <| connections ::= delete id |>).

(** [try_send] on the bounded queue: a queue that is full or a writer that is
    gone costs the connection. *)
Definition send_line (now : Z) (line : string) (id : Z) (w : World) : World :=
  match connections (task w) !! id, pipes w !! id with
  | Some _, Some p =>
      if draining p && bool_decide (length (waiting p) < CONNECTION_QUEUE)%nat then
        w <| pipes ::= <[id := p <| waiting ::= (λ l, l ++ [line]) |>]> |>
          <| history ::= (λ h, h ++ [HQueued now id line]) |>
      else disconnect id w
  | _, _ => w
  end.

Definition framed (payload : string) : string := payload +:+ String newline EmptyString.

Definition send (now : Z) (payload : option string) (id : Z) (w : World) : World :=
  match payload with
  | Some line => send_line now (framed line) id w
  | None => w
  end.

(** The subscribed connections in some order; which one does not matter, see
    [send_all_order]. *)
Definition subscribers (w : World) : list Z :=
  (map_to_list (filter (λ c, subscribed c.2 = true) (connections (task w)))).*1.

Definition send_all (now : Z) (line : string) (ids : list Z) (w : World) : World :=
  foldl (λ w id, send_line now line id w) w ids.

Definition broadcast (now : Z) (payload : option string) (w : World) : World :=
  match payload with
  | Some line => send_all now (framed line) (subscribers w) w
  | None => w
  end.

Definition has_subscribers (w : World) : bool :=
  bool_decide (map_Exists (λ _ c, subscribed c = true) (connections (task w))).

(** *** The writer task *)

(** One turn of [write_connection]: the next line is written to the socket, or
    writing fails after a part of it; without a line it waits, until the server
    has dropped its end. *)
Definition write_connection (id : Z) (fails : option nat) (w : World) : World :=
  match pipes w !! id with
  | Some p =>
      if draining p then
        match waiting p, fails with
        | line :: rest, None =>
            w <| pipes ::= <[id := p <| waiting := rest |> <| socket ::= (λ s, s +:+ line) |>]> |>
        | line :: rest, Some n =>
            w <| pipes ::= <[id := mkPipe [] false (socket p +:+ String.substring 0 n line) true]> |>
        | [], _ =>
            if decide (is_Some (connections (task w) !! id)) then w
            else w <| pipes ::= <[id := p <| draining := false |> <| shut := true |>]> |>
        end
      else w
  | None => w
  end.

Section server.
Context `{Serde}.

(** ** Publishing *)

Definition encode_cover (self : ApiServerTask) : option string :=
  cover ← current_cover self;
  encode_event (EvCover (mime cover) (length (bytes cover)) (base64_encode (bytes cover))).

Definition announce_track (now : Z) (w : World) : World :=
  broadcast now (encode_event (EvTrack (current_track (task w)))) w.

Definition announce_cover (now : Z) (cover : Cover) (w : World) : World :=
  let w := modify (λ t, t <| current_cover := Some cover |>) w in
  if negb (has_subscribers w) then w
  else broadcast now (encode_cover (task w)) w.

Definition update_playback (now : Z) (playing : option bool) (position : Z) (w : World) : World :=
  let w := modify (λ t, t <| playback ::= playback_update now playing position |>) w in
  broadcast now (encode_event (EvPlayback (is_playing (playback (task w))) position)) w.

Definition publish_volume (now volume : Z) (w : World) : World :=
  let w := modify (λ t, t <| current_volume := volume |>) w in
  broadcast now (encode_event (EvVolume volume)) w.

Definition clear_now_playing (now : Z) (w : World) : World :=
  let w := modify (λ t, t <| current_track := TrackResponse_default |> <| current_cover := None |>
                          <| current_cover_url := None |>) w in
  update_playback now (Some false) 0 (announce_track now w).

Definition load_cover (now : Z) (url : option string) (w : World) : World :=
  let w := modify (λ t, t <| current_cover := None |> <| current_cover_url := url |>) w in
  match url with
  | None => w
  | Some u =>
      match cache_get (cover_cache (task w)) u with
      | Some cover => announce_cover now cover w
      | None => if session (task w) then ask (FetchCover u) w else w
      end
  end.

Definition handle_cover (now : Z) (f : CoverFetched) (w : World) : World :=
  match fetched f with
  | None => w
  | Some cover =>
      let w := modify (λ t, t <| cover_cache ::= cache_insert (fetched_url f) cover |>) w in
      if decide (current_cover_url (task w) ≠ Some (fetched_url f)) then w
      else announce_cover now cover w
  end.

(** ** Events of the player *)

Definition handle_player_event (now : Z) (event : PlayerEvent) (w : World) : exec World :=
  match event with
  | EvTrackChanged audio_item =>
      let cover_url := url <$> cover_to_ship (ai_covers audio_item) in
      track ← TrackResponse_from audio_item;
      let w := modify (λ t, t <| current_track := track |>) w in
      Val (load_cover now cover_url (announce_track now w))
  | EvPlaying _ _ position_ms =>
      let w := modify (λ t, t <| active_source := SpotifySource |>) w in
      Val (update_playback now (Some true) position_ms w)
  | EvPaused _ _ position_ms => Val (update_playback now (Some false) position_ms w)
  | EvStopped _ _ => Val (update_playback now (Some false) 0 w)
  | EvSeeked _ _ position_ms | EvPositionCorrection _ _ position_ms | EvLoading _ _ position_ms =>
      Val (update_playback now None position_ms w)
  | EvVolumeChanged volume => Val (publish_volume now volume w)
  | EvSessionDisconnected _ _ =>
      if decide (active_source (task w) ≠ SpotifySource) then Val w
      else Val (clear_now_playing now w)
  | _ => Val w
  end.

(** ** Events of the AirPlay receiver *)

Definition airplay_is_on_the_air (connection : Z) (self : ApiServerTask) : bool :=
  bool_decide (active_source self = AirplaySource) && bool_decide (airplay_connection self = Some connection).

Definition airplay_track (title artist album album_artist : string) (duration_ms : Z) : TrackResponse :=
  mkTrackResponse title EmptyString [artist] EmptyString "airplay" album
    (if decide (album_artist = EmptyString) then [] else [album_artist]) duration_ms false "airplay".

Definition handle_airplay_event (now : Z) (event : AirplayEvent) (w : World) : World :=
  match event with
  | AeSessionStarted connection peer => modify (λ t, t <| airplay_peer := Some (connection, peer) |>) w
  | AeDacpAvailable connection host port active_remote machine_number scope_id local_bind =>
      modify (λ t, t <| airplay_dacp := Some (connection, mkDacpTarget host port active_remote local_bind machine_number scope_id) |>) w
  | AePlaybackChanged connection playing position_ms =>
      if playing then
        let w := modify (λ t, t <| active_source := AirplaySource |> <| airplay_connection := Some connection |>) w in
        update_playback now (Some playing) position_ms w
      else if negb (airplay_is_on_the_air connection (task w)) then w
      else update_playback now (Some playing) position_ms w
  | AeTrackChanged connection title artist album album_artist duration_ms cover =>
      if negb (airplay_is_on_the_air connection (task w)) then w
      else
        let w := modify (λ t, t <| current_cover := None |> <| current_cover_url := None |>
                                <| current_track := airplay_track title artist album album_artist duration_ms |>) w in
        let w := announce_track now w in
        match cover with
        | Some (bytes, mime) => announce_cover now (mkCover bytes mime) w
        | None => w
        end
  | AeCoverChanged connection bytes mime =>
      if negb (airplay_is_on_the_air connection (task w)) then w
      else if decide (MAX_COVER_BYTES < length bytes) then w
      else announce_cover now (mkCover bytes mime) w
  | AeProgressChanged connection position_ms duration_ms =>
      if negb (airplay_is_on_the_air connection (task w)) then w
      else
        let w := if decide (track_duration_ms (current_track (task w)) = 0 ∧ duration_ms ≠ 0)
                 then modify (λ t, t <| current_track ::= (λ k, k <| track_duration_ms := duration_ms |>) |>) w else w in
        update_playback now None position_ms w
  | AeVolumeChanged connection percent =>
      if negb (airplay_is_on_the_air connection (task w)) then w
      else publish_volume now (volume_from_percent percent) w
  | AeSessionEnded connection =>
      if decide (airplay_connection (task w) ≠ Some connection) then w
      else
        let was_on_the_air := airplay_is_on_the_air connection (task w) in
        let w := modify (λ t, t <| airplay_connection := None |>) w in
        if was_on_the_air then clear_now_playing now w else w
  end.

(** ** Requests *)

(** Runs a command on the handle of the current session, if there is one. *)
Definition command (f : Spirc → Spirc * result () SpircSendError) (w : World) : World :=
  match spirc (task w) with
  | Some s => modify (λ t, t <| spirc := Some (f s).1 |>) w
  | None => w
  end.

Definition forward_to_helper (name : string) (w : World) : bool * World :=
  match airplay_helper_port (task w), airplay_peer (task w), helper_socket (task w) with
  | Some port, Some (_, peer), true => (true, ask (HelperDatagram (peer, port) name) w)
  | _, _, _ => (false, w)
  end.

Definition control (name : string) (spotify : Spirc → Spirc * result () SpircSendError) (airplay_command : string)
    (w : World) : World :=
  if decide (active_source (task w) = AirplaySource) then
    match airplay_dacp (task w) with
    | Some (_, target) => ask (DacpCommand target airplay_command) w
    | None => (forward_to_helper name w).2
    end
  else command spotify w.

Definition set_volume (volume : Z) (w : World) : World :=
  if decide (active_source (task w) = AirplaySource) then
    let percent := percent_from_volume volume in
    match airplay_dacp (task w) with
    | Some (_, target) => ask (DacpVolume target percent) w
    | None => if airplay_control (task w) then ask (AirplayVolume percent) w else w
    end
  else command (Handle.set_volume volume) w.

Definition activate_and_play (s : Spirc) : Spirc * result () SpircSendError :=
  let '(s, r) := Handle.activate s in
  match r with Ok _ => Handle.play s | Err e => (s, Err e) end.

Definition subscribe (id : Z) (w : World) : bool * World :=
  match connections (task w) !! id with
  | None => (false, w)
  | Some connection =>
      if subscribed connection then (false, w)
      else (true, modify (λ t, t <| connections ::= <[id := connection <| subscribed := true |>]> |>) w
                    <| history ::= (λ h, h ++ [HSubscribed id]) |>)
  end.

Definition unsubscribe (id : Z) (w : World) : World :=
  match connections (task w) !! id with
  | Some connection =>
      if subscribed connection
      then modify (λ t, t <| connections ::= <[id := connection <| subscribed := false |>]> |>) w else w
  | None => w
  end.

Definition snapshot (now : Z) (self : ApiServerTask) : Event :=
  EvSnapshot (is_playing (playback self)) (current_position now (track_duration_ms (current_track self)) (playback self))
    (current_volume self) (current_track self).

Definition handle_subscribe (now id : Z) (w : World) : World :=
  let '(is_new, w) := subscribe id w in
  let w := send now (encode_event (snapshot now (task w))) id w in
  if is_new : bool then send now (encode_cover (task w)) id w else w.

Definition run_command (now : Z) (name payload : string) (id : Z) (w : World) : World :=
  if decide (name = "next") then control name Handle.next "nextitem" w
  else if decide (name = "pause") then control name Handle.pause "pause" w
  else if decide (name = "resume") then control name activate_and_play "play" w
  else if decide (name = "volup") then command Handle.volume_up w
  else if decide (name = "voldown") then command Handle.volume_down w
  else if decide (name = "setvol") then
    match parse_set_volume payload with Some volume => set_volume volume w | None => w end
  else if decide (name = "getvol") then send now (encode_volume (current_volume (task w))) id w
  else if decide (name = "current_track") then send now (encode_track (current_track (task w))) id w
  else if decide (name = "status") then send now (encode_event (snapshot now (task w))) id w
  else if decide (name = "subscribe") then handle_subscribe now id w
  else if decide (name = "unsubscribe") then unsubscribe id w
  else w.

(** [splitn(2, ' ')]. *)
Definition handle_request (now : Z) (request : string) (id : Z) (w : World) : World :=
  match connections (task w) !! id with
  | None => w
  | Some _ =>
      let '(name, payload) := match split_once " " request with Some (a, b) => (a, b) | None => (request, EmptyString) end in
      run_command now name (trim payload) id w
  end.

(** ** The loop *)

(** What happens next: what a turn of the loop selects, or a step of a writer
    task or of the receiver of a Spirc channel. *)
Inductive Selected :=
| SelSetSession (spirc : Spirc)
| SelSetAirplay
| SelCover (url : string) (response : option (list Z))
| SelPlayer (event : PlayerEvent)
| SelAirplay (event : option AirplayEvent)
| SelAccept (peer : IpAddr * Z)
| SelRequest (id : Z) (line : string)
| SelClosed (id : Z)
| SelWriter (id : Z) (fails : option nat)
| SelSpirc (taken : nat) (closes : bool).

(** The receiver of a Spirc channel takes commands off it, or goes away. *)
Definition spirc_receives (taken : nat) (closes : bool) (s : Spirc) : Spirc :=
  s <| commands ::= drop taken |> <| receiving ::= andb (negb closes) |>.

Definition turn (now : Z) (sel : Selected) (w : World) : exec World :=
  match sel with
  | SelSetSession s => Val (modify (λ t, t <| spirc := Some s |> <| session := true |>) w)
  | SelSetAirplay => Val (modify (λ t, t <| airplay_events := true |> <| airplay_control := true |>) w)
  | SelCover url response => Val (handle_cover now (fetch_cover url response) w)
  | SelPlayer event => handle_player_event now event w
  | SelAirplay None => Val (modify (λ t, t <| airplay_events := false |>) w)
  | SelAirplay (Some event) => Val (handle_airplay_event now event w)
  | SelAccept peer => accept peer w
  | SelRequest id line => Val (handle_request now line id w)
  | SelClosed id => Val (disconnect id w)
  | SelWriter id fails => Val (write_connection id fails w)
  | SelSpirc taken closes => Val (modify (λ t, t <| spirc ::= fmap (spirc_receives taken closes) |>) w)
  end.

(** The loop on a sequence of timed selections.  Events come only from channels
    that are open, which is a matter of the sequence. *)
Fixpoint run (sels : list (Z * Selected)) (w : World) : exec World :=
  match sels with
  | [] => Val w
  | (now, sel) :: sels => w ← turn now sel w; run sels w
  end.
End server.
