(* ===== verification/ApiInv.v ===== *)
(** * The control API: what a subscriber knows

    A client that subscribed folds the events it reads into a view of the
    published state.  The invariant says that for every subscribed connection
    this view, over everything that is written or waits for it, is the state of
    the server. *)

From S2P Require Import Prelude StdTypes Digits Text Wire SpotifyId SpotifyUri Metadata Player AllowList SpircData ApiData ApiServer.

Local Open Scope string_scope.
Local Open Scope list_scope.
Local Open Scope Z_scope.
Local Coercion Z.of_nat : nat >-> Z.

(** ** The client *)

Fixpoint concat_strings (l : list string) : string :=
  match l with [] => EmptyString | s :: l => s +:+ concat_strings l end.

Lemma concat_strings_app l1 l2 : concat_strings (l1 ++ l2) = concat_strings l1 +:+ concat_strings l2.
Proof. induction l1 as [|s l1 IH]; [done|]. simpl. by rewrite IH, string_app_assoc. Qed.

(** The lines queued for a connection since it subscribed last, with the times
    they were queued. *)
Definition hear (id : Z) (acc : list (Z * string)) (e : Happened) : list (Z * string) :=
  match e with
  | HSubscribed i => if decide (i = id) then [] else acc
  | HQueued now i line => if decide (i = id) then acc ++ [(now, line)] else acc
  end.
Definition heard (id : Z) (h : list Happened) : list (Z * string) := foldl (hear id) [] h.

(** What a client knows: the position it was told, when that was, and whether
    it was that of a track at its end, which a snapshot does not count past. *)
Record View := mkView {
  v_playing : bool;
  v_position : Z;
  v_at : Z;
  v_ended : bool;
  v_volume : Z;
  v_track : TrackResponse;
  v_cover : option (string * list Z);
}.
#[export] Instance settable_View : Settable View := λ v,
  mkView (v_playing v) (v_position v) (v_at v) (v_ended v) (v_volume v) (v_track v) (v_cover v).

(** What the server publishes. *)
Record Published := mkPublished {
  p_playback : PlaybackState;
  p_volume : Z;
  p_track : TrackResponse;
  p_cover : option Cover;
}.
#[export] Instance settable_Published : Settable Published := λ p,
  mkPublished (p_playback p) (p_volume p) (p_track p) (p_cover p).
Definition published (self : ApiServerTask) : Published :=
  mkPublished (playback self) (current_volume self) (current_track self) (current_cover self).

(** The durations that the progress of AirPlay senders reports. *)
Class Reports := reported : Z → Prop.

(** The view agrees with the server, but for a duration that is reported after
    the track was told: the server fills it in without an event, and the view
    goes on showing none.  The position, counted up from when it was told, is
    that of the server. *)
Record shows `{R : Reports} (v : View) (p : Published) : Prop := {
  shows_playing : v_playing v = is_playing (p_playback p);
  shows_position : v_ended v = false → v_position v = counted_position (v_at v) (p_playback p);
  shows_volume : v_volume v = p_volume p;
  shows_track : v_track v = p_track p ∨
    reported (track_duration_ms (p_track p)) ∧ v_track v = p_track p <| track_duration_ms := 0 |>;
  shows_cover : v_cover v = (λ c, (mime c, bytes c)) <$> p_cover p;
}.

Section client.
Context `{SerdeLaws} `{R : Reports}.

(** A [track_changed] event takes the artwork away, a snapshot leaves it. *)
Definition see_event (now : Z) (e : Event) (v : option View) : option View :=
  match e with
  | EvSnapshot playing position volume track =>
      Some (mkView playing position now
              (bool_decide (0 < track_duration_ms track ∧ position = track_duration_ms track))
              volume track (v ≫= v_cover))
  | EvTrack track => (λ v, v <| v_track := track |> <| v_cover := None |>) <$> v
  | EvPlayback playing position =>
      (λ v, v <| v_playing := playing |> <| v_position := position |> <| v_at := now |> <| v_ended := false |>) <$> v
  | EvVolume volume => (λ v, v <| v_volume := volume |>) <$> v
  | EvCover mime _ data => (λ v, v <| v_cover := (λ b, (mime, b)) <$> base64_decode data |>) <$> v
  end.

Definition chop (line : string) : string := String.substring 0 (String.length line - 1) line.

Definition see (v : option View) (told : Z * string) : option View :=
  match decode_event (chop told.2) with Some e => see_event told.1 e v | None => v end.

Definition watch (told : list (Z * string)) : option View := foldl see None told.

Lemma chop_framed s : chop (framed s) = s.
Proof.
  unfold chop, framed. rewrite string_length_app. simpl. replace (_ + 1 - 1)%nat with (String.length s) by lia.
  apply substring_prefix.
Qed.

Definition line_ok (line : string) : Prop := ∃ s, line = framed s ∧ no_char newline s.

(** ** The invariant of the connections

    [expects] says what the view of each subscriber has to satisfy. *)

Definition id_of (e : Happened) : Z := match e with HSubscribed id => id | HQueued _ id _ => id end.

Record link (id : Z) (h : list Happened) (p : Pipe) : Prop := {
  link_bytes : draining p = true →
    ∃ before, socket p +:+ concat_strings (waiting p) = before +:+ concat_strings (heard id h).*2;
  link_lines : Forall line_ok (heard id h).*2;
}.

Record conn_inv (expects : Z → option View → Prop) (w : World) : Prop := {
  conn_pipe id c : connections (task w) !! id = Some c →
    id < next_connection_id (task w) ∧ ∃ p, pipes w !! id = Some p ∧ link id (history w) p;
  conn_expects id c : connections (task w) !! id = Some c → subscribed c = true →
    expects id (watch (heard id (history w)));
  conn_ids : Forall (λ e, id_of e < next_connection_id (task w)) (history w);
  conn_queue : map_Forall (λ _ p, (length (waiting p) ≤ CONNECTION_QUEUE)%nat) (pipes w);
  conn_allowed : map_Forall (λ _ c, allows (allow_list (task w)) (peer c).1 = Val true) (connections (task w));
}.
(** What of the task it depends on. *)
Definition door (self : ApiServerTask) : gmap Z Connection * Z * AllowList :=
  (connections self, next_connection_id self, allow_list self).

Lemma conn_inv_weaken expects expects' w :
  conn_inv expects w →
  (∀ id c v, connections (task w) !! id = Some c → subscribed c = true → expects id v → expects' id v) →
  conn_inv expects' w.
Proof. intros [H1 H2 H3 H4 H5] Hw. constructor; [done| |done..]. intros id c Hc Hs. eapply Hw; eauto. Qed.

Lemma conn_inv_modify expects f w :
  conn_inv expects w → door (f (task w)) = door (task w) → conn_inv expects (modify f w).
Proof.
  intros [H1 H2 H3 H4 H5] [= Hc Hn Ha]. constructor; unfold modify; simpl; rewrite ?Hc, ?Hn, ?Ha; assumption.
Qed.

Lemma conn_inv_disconnect expects id w : conn_inv expects w → conn_inv expects (disconnect id w).
Proof.
  intros [H1 H2 H3 H4 H5]. constructor; unfold disconnect, modify; simpl; [| |done|done|].
  - intros i c [_ Hc]%lookup_delete_Some. eauto.
  - intros i c [_ Hc]%lookup_delete_Some. eauto.
  - by apply map_Forall_delete.
Qed.

Lemma heard_app id h e : heard id (h ++ [e]) = hear id (heard id h) e.
Proof. unfold heard. by rewrite foldl_app. Qed.
Lemma watch_app told x : watch (told ++ [x]) = see (watch told) x.
Proof. unfold watch. by rewrite foldl_app. Qed.

(** ** Sending *)

(** Queueing a line for a connection: it is told that line, or it is gone;
    nobody else notices. *)
Definition tell (now : Z) (line : string) (ids : list Z) (expects : Z → option View → Prop) (id : Z) (v : option View) : Prop :=
  if decide (id ∈ ids) then ∃ v0, expects id v0 ∧ v = see v0 (now, line) else expects id v.

Lemma send_line_inv expects now line id w :
  conn_inv expects w → line_ok line → conn_inv (tell now line [id] expects) (send_line now line id w).
Proof.
  intros Hw Hline. assert (conn_inv (tell now line [id] expects) (disconnect id w)) as Hgone.
  { eapply conn_inv_weaken; [by apply conn_inv_disconnect|]. intros i c v Hi _ Hv.
    unfold disconnect, modify in Hi. simpl in Hi. apply lookup_delete_Some in Hi as [Hne _].
    unfold tell. rewrite decide_False; [done|]. rewrite list_elem_of_singleton. congruence. }
  unfold send_line. destruct (connections (task w) !! id) as [c|] eqn:Hc; cycle 1.
  { eapply conn_inv_weaken; [exact Hw|]. intros i c v Hi _ Hv. unfold tell. rewrite decide_False; [done|].
    rewrite list_elem_of_singleton. congruence. }
  destruct (conn_pipe _ _ Hw id c Hc) as (Hlt & p & Hp & [Hb Hl]). rewrite Hp.
  case_match eqn:E; [|done]. apply andb_true_iff in E as [Hd Hq%bool_decide_eq_true].
  constructor; simpl.
  - intros i c' Hi. destruct (conn_pipe _ _ Hw i c' Hi) as (Hlt' & p' & Hp' & [Hb' Hl']). split; [done|].
    destruct (decide (id = i)) as [->|Hne].
    + eexists. split; [apply lookup_insert_eq|]. rewrite Hp in Hp'. injection Hp' as <-.
      constructor; rewrite heard_app; simpl; rewrite decide_True, fmap_app by done.
      * intros _. destruct (Hb Hd) as [before Hbefore]. exists before.
        rewrite !concat_strings_app, string_app_assoc, Hbefore. simpl. by rewrite string_app_nil, string_app_assoc.
      * apply Forall_app. split; [done|]. by constructor.
    + exists p'. rewrite lookup_insert_ne by done. split; [done|].
      constructor; rewrite heard_app; simpl; by rewrite decide_False.
  - intros i c' Hi Hs. pose proof (conn_expects _ _ Hw i c' Hi Hs) as He. unfold tell. rewrite heard_app. simpl.
    case_decide as Hin; rewrite list_elem_of_singleton in Hin.
    + subst i. rewrite decide_True, watch_app by done. by eexists.
    + by rewrite decide_False.
  - apply Forall_app. split; [apply Hw|]. by constructor.
  - apply map_Forall_insert_2; [|apply Hw]. simpl. rewrite length_app. simpl. lia.
  - apply Hw.
Qed.

Lemma send_line_connections now line id w : connections (task (send_line now line id w)) ⊆ connections (task w).
Proof.
  unfold send_line. destruct (connections (task w) !! id), (pipes w !! id); try done. case_match; [done|]. apply delete_subseteq.
Qed.
Lemma send_all_connections now line ids w : connections (task (send_all now line ids w)) ⊆ connections (task w).
Proof.
  unfold send_all. revert w. induction ids as [|id ids IH]; intros w; [done|]. simpl.
  etrans; [apply IH|apply send_line_connections].
Qed.

(** Sending changes nothing of the task but its connections. *)
Definition with_connections (w : World) (self : ApiServerTask) : Prop :=
  self = task w <| connections := connections self |>.

Lemma with_connections_refl w : with_connections w (task w).
Proof. by destruct w as [[] ???]. Qed.
Lemma send_line_task now line id w : with_connections w (task (send_line now line id w)).
Proof.
  unfold send_line. destruct (connections (task w) !! id), (pipes w !! id); try apply with_connections_refl.
  case_match; by destruct w as [[] ???].
Qed.
Lemma send_all_task now line ids w : with_connections w (task (send_all now line ids w)).
Proof.
  revert w. induction ids as [|id ids IH]; intros w; [apply with_connections_refl|].
  unfold with_connections in *. simpl. fold (send_all now line ids (send_line now line id w)).
  rewrite IH, (send_line_task now line id w). done.
Qed.

Lemma send_all_inv expects now line ids w :
  conn_inv expects w → line_ok line → NoDup ids → conn_inv (tell now line ids expects) (send_all now line ids w).
Proof.
  intros Hw Hline. revert w expects Hw. induction ids as [|id ids IH]; intros w expects Hw Hnd.
  { eapply conn_inv_weaken; [exact Hw|]. intros i c v _ _ Hv. unfold tell. rewrite decide_False; [done|]. by intros ?%elem_of_nil. }
  apply NoDup_cons in Hnd as [Hni Hnd]. simpl.
  eapply conn_inv_weaken; [apply IH; [by apply send_line_inv|done]|].
  intros i c v _ _. unfold tell. destruct (decide (i = id)) as [->|Hne].
  - rewrite (decide_False (P:=id ∈ ids)), (decide_True (P:=id ∈ [id])), decide_True by (done || left || by apply list_elem_of_singleton).
    done.
  - destruct (decide (i ∈ ids)).
    + rewrite decide_True by (by right). intros (v0 & Hv0 & ->). rewrite decide_False in Hv0 by (by rewrite list_elem_of_singleton).
      by exists v0.
    + rewrite !decide_False; [done|..]; set_solver.
Qed.

(** ** Broadcasting *)

Definition up_to_date (p : Published) (v : option View) : Prop := ∃ v', v = Some v' ∧ shows v' p.
Abbreviation informed p := (conn_inv (λ _, up_to_date p)).

Lemma subscribers_spec w id : id ∈ subscribers w ↔ ∃ c, connections (task w) !! id = Some c ∧ subscribed c = true.
Proof.
  unfold subscribers. rewrite list_elem_of_fmap. split.
  - intros ([i c] & -> & [Hc Hs]%elem_of_map_to_list%map_lookup_filter_Some). eauto.
  - intros (c & Hc & Hs). exists (id, c). split; [done|]. by apply elem_of_map_to_list, map_lookup_filter_Some.
Qed.

Lemma encoded e s : encode_event e = Some s → no_char newline s ∧ decode_event s = Some e.
Proof. intros Hs. destruct (encode_event_total e) as (s' & Hs' & ?). by simplify_eq. Qed.

(** Everybody who is subscribed is told. *)
Lemma broadcast_event_inv p p' now e w :
  informed p w → (∀ v, shows v p → up_to_date p' (see_event now e (Some v))) →
  informed p' (broadcast now (encode_event e) w).
Proof.
  intros Hw Hsee. destruct (encode_event_total e) as (s & Hs & Hn & Hd). rewrite Hs. simpl.
  eapply conn_inv_weaken; [apply send_all_inv; [exact Hw|by exists s|]|].
  - apply NoDup_fst_map_to_list.
  - intros id c v Hc Hsub. unfold tell. rewrite decide_True.
    + intros (v0 & (v1 & -> & Hv1) & ->). unfold see. simpl. rewrite chop_framed, Hd. by apply Hsee.
    + apply subscribers_spec. exists c. split; [|done]. eapply lookup_weaken; [exact Hc|apply send_all_connections].
Qed.

Lemma broadcast_connections now payload w : connections (task (broadcast now payload w)) ⊆ connections (task w).
Proof. destruct payload; [apply send_all_connections|done]. Qed.
Lemma broadcast_task now payload w : with_connections w (task (broadcast now payload w)).
Proof. destruct payload; [apply send_all_task|apply with_connections_refl]. Qed.
Lemma broadcast_keeps {A} (f : ApiServerTask → A) now payload w :
  (∀ self m, f (self <| connections := m |>) = f self) → f (task (broadcast now payload w)) = f (task w).
Proof. intros Hf. rewrite broadcast_task. apply Hf. Qed.

(** ** The invariant of the server *)

Definition covers_ok (cache : CoverCache) (current : option Cover) : Prop :=
  cache_ok cache ∧ map_Forall (λ _ c, bytes_ok (bytes c)) (covers cache) ∧
  (∀ c, current = Some c → bytes_ok (bytes c)).

Definition api_inv (w : World) : Prop :=
  informed (published (task w)) w ∧ covers_ok (cover_cache (task w)) (current_cover (task w)).

(** Changes of what is neither published nor about connections or covers. *)
Lemma api_inv_modify f w :
  api_inv w → published (f (task w)) = published (task w) → cover_cache (f (task w)) = cover_cache (task w) →
  door (f (task w)) = door (task w) → api_inv (modify f w).
Proof.
  intros [Hi Hc] Hp Hca Hd. split; [|simpl; rewrite Hca; by injection Hp as _ _ _ ->].
  apply conn_inv_modify; [|done]. unfold modify. simpl. by rewrite Hp.
Qed.

Lemma api_inv_ask e w : api_inv w → api_inv (ask e w).
Proof. intros [[H1 H2 H3 H4 H5] Hc]. split; [|exact Hc]. by constructor. Qed.

Lemma broadcast_api p now e w :
  informed p w → covers_ok (cover_cache (task w)) (current_cover (task w)) →
  (∀ v, shows v p → up_to_date (published (task w)) (see_event now e (Some v))) →
  api_inv (broadcast now (encode_event e) w).
Proof.
  intros Hi Hc Hsee. unfold api_inv. rewrite (broadcast_keeps published), (broadcast_keeps cover_cache), (broadcast_keeps current_cover) by done.
  split; [|done]. by eapply broadcast_event_inv.
Qed.

Lemma announce_track_inv p now w :
  informed p w → informed (p <| p_track := current_track (task w) |> <| p_cover := None |>) (announce_track now w).
Proof.
  intros Hi. eapply broadcast_event_inv; [exact Hi|]. intros v [H1 H2 H3 H4 H5]. eexists. split; [done|]. by constructor; simpl; auto.
Qed.

Lemma update_playback_api now playing position w :
  api_inv w → 0 ≤ position ≤ u32_max → api_inv (update_playback now playing position w).
Proof.
  intros [Hi Hc] Hp. apply (broadcast_api (published (task w))); [by apply conn_inv_modify|done|].
  intros v [H1 H2 H3 H4 H5]. eexists. split; [done|]. constructor; simpl; try done. intros _. by rewrite counted_update.
Qed.

Lemma publish_volume_api now volume w : api_inv w → api_inv (publish_volume now volume w).
Proof.
  intros [Hi Hc]. apply (broadcast_api (published (task w))); [by apply conn_inv_modify|done|].
  intros v [H1 H2 H3 H4 H5]. eexists. split; [done|]. by constructor.
Qed.

Lemma announce_cover_api now cover w :
  api_inv w → bytes_ok (bytes cover) → api_inv (announce_cover now cover w).
Proof.
  intros [Hi (Hca & Hcs & _)] Hb. unfold announce_cover. set (w1 := modify _ w).
  assert (informed (published (task w)) w1) as Hi1 by (by apply conn_inv_modify).
  assert (covers_ok (cover_cache (task w1)) (current_cover (task w1))) as Hc1.
  { split_and!; [done|done|]. by intros c [= <-]. }
  destruct (has_subscribers w1) eqn:Hsub; simpl.
  - apply (broadcast_api (published (task w))); [done|done|].
    intros v [H1 H2 H3 H4 H5]. eexists. split; [done|]. constructor; simpl; try done. by rewrite base64_roundtrip.
  - split; [|done]. eapply conn_inv_weaken; [exact Hi1|]. intros id c v Hl Hs _. exfalso.
    apply bool_decide_eq_false in Hsub. apply Hsub. by exists id, c.
Qed.

(** Forgetting the cover that a [track_changed] event took away. *)
Lemma drop_cover_api f p w :
  informed (p <| p_cover := None |>) w → published (f (task w)) = p <| p_cover := None |> →
  covers_ok (cover_cache (task w)) None → cover_cache (f (task w)) = cover_cache (task w) →
  door (f (task w)) = door (task w) → api_inv (modify f w).
Proof.
  intros Hi Hp Hc Hca Hd. assert (current_cover (f (task w)) = None) as Hcov by (apply (f_equal p_cover) in Hp; exact Hp).
  split; [apply conn_inv_modify; [|done]; unfold modify; simpl; by rewrite Hp|].
  unfold modify. simpl. by rewrite Hca, Hcov.
Qed.

Lemma covers_ok_None cache current : covers_ok cache current → covers_ok cache None.
Proof. by intros (? & ? & _). Qed.

Lemma clear_now_playing_api now w : api_inv w → api_inv (clear_now_playing now w).
Proof.
  intros [Hi Hc]. apply update_playback_api; [|done]. set (w1 := modify _ w).
  assert (informed (published (task w)) w1) as Hi1 by (by apply conn_inv_modify).
  apply (announce_track_inv _ now) in Hi1. unfold api_inv, announce_track.
  rewrite (broadcast_keeps published), (broadcast_keeps cover_cache), (broadcast_keeps current_cover) by done.
  split; [exact Hi1|by eapply covers_ok_None].
Qed.

Lemma load_cover_api p now url w :
  informed (p <| p_cover := None |>) w → published (task w) <| p_cover := None |> = p <| p_cover := None |> →
  covers_ok (cover_cache (task w)) (current_cover (task w)) → api_inv (load_cover now url w).
Proof.
  intros Hi Hp Hc. unfold load_cover. set (w1 := modify _ w).
  assert (api_inv w1) as H1 by (eapply drop_cover_api; eauto using covers_ok_None).
  destruct url as [u|]; [|done]. destruct (cache_get _ u) as [cover|] eqn:Hg.
  - apply announce_cover_api; [done|]. destruct H1 as [_ (_ & Hb & _)]. exact (map_Forall_lookup_1 _ _ _ _ Hb Hg).
  - destruct (session _); [by apply api_inv_ask|done].
Qed.

Lemma handle_cover_api now url response w :
  api_inv w → (∀ b, response = Some b → bytes_ok b) → api_inv (handle_cover now (fetch_cover url response) w).
Proof.
  intros Hw Hb. unfold handle_cover. destruct (fetched (fetch_cover url response)) as [cover|] eqn:Hf; [|done].
  assert (bytes_ok (bytes cover)) as Hbc.
  { destruct response as [b|]; simpl in Hf; [|done]. case_decide; [done|]. injection Hf as <-. by apply Hb. }
  apply fetch_cover_size in Hf. set (w1 := modify _ w). assert (api_inv w1) as H1.
  { destruct Hw as [Hi (Hca & Hcs & Hcu)]. split; [by apply conn_inv_modify|]. simpl.
    split_and!; [by apply cache_insert_ok| |done]. unfold cache_insert. case_decide; [done|].
    apply map_Forall_insert_2; [done|]. case_decide; [|done]. destruct (order _); [done|]. by apply map_Forall_delete. }
  case_decide; [done|]. by apply announce_cover_api.
Qed.

(** ** The handlers *)

(** Values as their types have them: positions of 32 bits, bytes, and
    identifiers of 128 bits. *)
Definition is_u32 (z : Z) : Prop := 0 ≤ z ≤ u32_max.
Definition player_event_ok (e : PlayerEvent) : Prop :=
  match e with
  | EvPlaying _ _ position | EvPaused _ _ position | EvSeeked _ _ position
  | EvPositionCorrection _ _ position | EvLoading _ _ position => is_u32 position
  | EvTrackChanged item => match ai_track_id item with Track id => id_ok id | _ => True end
  | _ => True
  end.
Definition airplay_event_ok (e : AirplayEvent) : Prop :=
  match e with
  | AePlaybackChanged _ _ position | AeProgressChanged _ position _ => is_u32 position
  | AeTrackChanged _ _ _ _ _ _ (Some (bytes, _)) | AeCoverChanged _ bytes _ => bytes_ok bytes
  | _ => True
  end.

Lemma TrackResponse_from_total item :
  match ai_track_id item with Track id => id_ok id | _ => True end → ∃ t, TrackResponse_from item = Val t.
Proof.
  intros Hid. unfold TrackResponse_from. destruct (match ai_unique_fields item with UTrack _ _ _ _ _ _ => _ | _ => _ end) as [[artists album] aa].
  case_decide as Ht; [|by eexists].
  destruct (ai_track_id item); try done. unfold to_id. rewrite to_base62_ref by done. by eexists.
Qed.

Lemma handle_player_event_api now e w :
  api_inv w → player_event_ok e → ∃ w', handle_player_event now e w = Val w' ∧ api_inv w'.
Proof.
  intros Hw He. destruct e as [| | | | | | | | | | | | |item| | | | | | | |]; simpl in *;
    try (eexists; split; [done|]; first [done | by apply update_playback_api | by apply publish_volume_api]).
  - eexists. split; [done|]. apply update_playback_api; [by apply api_inv_modify|done].
  - destruct (TrackResponse_from_total item He) as [t ->]. simpl. eexists. split; [done|].
    set (w1 := modify _ w). destruct Hw as [Hi Hc].
    assert (informed (published (task w)) w1) as H1 by (by apply conn_inv_modify).
    apply (announce_track_inv _ now) in H1. apply (load_cover_api (published (task w1))); [exact H1|..]; unfold announce_track.
    + by rewrite (broadcast_keeps published).
    + by rewrite (broadcast_keeps cover_cache), (broadcast_keeps current_cover).
  - case_decide; eexists; (split; [done|]); [done|by apply clear_now_playing_api].
Qed.

Lemma airplay_track_api now t w :
  api_inv w →
  api_inv (announce_track now (modify (λ s, s <| current_cover := None |> <| current_cover_url := None |> <| current_track := t |>) w)).
Proof.
  intros [Hi Hc]. set (w1 := modify _ w).
  assert (informed (published (task w)) w1) as H1 by (by apply conn_inv_modify).
  apply (announce_track_inv _ now) in H1. unfold api_inv, announce_track.
  rewrite (broadcast_keeps published), (broadcast_keeps cover_cache), (broadcast_keeps current_cover) by done.
  split; [exact H1|by eapply covers_ok_None].
Qed.

(** A duration that is filled in quietly. *)
Lemma fill_duration_api d w :
  api_inv w → reported d → track_duration_ms (current_track (task w)) = 0 →
  api_inv (modify (λ t, t <| current_track ::= (λ k, k <| track_duration_ms := d |>) |>) w).
Proof.
  intros [Hi Hc] Hr Hd. split; [|done]. apply conn_inv_modify; [|done]. eapply conn_inv_weaken; [exact Hi|].
  intros id c v _ _ (v' & -> & [H1 H2 H3 H4 H5]). exists v'. split; [done|]. constructor; simpl in *; try done.
  right. split; [done|]. destruct (current_track (task w)); simpl in *; subst. by destruct H4 as [|[_ H4]].
Qed.

Definition reports (e : AirplayEvent) : Prop :=
  match e with AeProgressChanged _ _ duration_ms => reported duration_ms | _ => True end.

Lemma handle_airplay_event_api now e w : api_inv w → airplay_event_ok e → reports e → api_inv (handle_airplay_event now e w).
Proof.
  intros Hw He Hr. destruct e as [| |connection playing position|connection title artist album aa duration cover
                               |connection bytes mime|connection position duration| |connection]; simpl in *.
  - by apply api_inv_modify.
  - by apply api_inv_modify.
  - destruct playing; [apply update_playback_api; [by apply api_inv_modify|done]|].
    destruct (negb _); [done|by apply update_playback_api].
  - destruct (negb _); [done|]. destruct cover as [[bytes mime]|]; [apply announce_cover_api; [|done]|]; by apply airplay_track_api.
  - destruct (negb _); [done|]. case_decide; [done|]. by apply announce_cover_api.
  - destruct (negb _); [done|]. apply update_playback_api; [|done]. case_decide as Hd; [|done]. destruct Hd. by apply fill_duration_api.
  - destruct (negb _); [done|]. by apply publish_volume_api.
  - case_decide; [done|]. destruct (airplay_is_on_the_air _ _); [apply clear_now_playing_api|]; by apply api_inv_modify.
Qed.

(** *** Requests *)

Lemma command_api f w : api_inv w → api_inv (command f w).
Proof. intros Hw. unfold command. case_match; [by apply api_inv_modify|done]. Qed.

Lemma control_api name f c w : api_inv w → api_inv (control name f c w).
Proof.
  intros Hw. unfold control, forward_to_helper.
  repeat case_match; simpl; first [done | by apply api_inv_ask | by apply command_api].
Qed.

Lemma set_volume_api volume w : api_inv w → api_inv (set_volume volume w).
Proof. intros Hw. unfold set_volume. repeat case_match; first [done | by apply api_inv_ask | by apply command_api]. Qed.

Lemma send_line_keeps {A} (f : ApiServerTask → A) now line id w :
  (∀ self m, f (self <| connections := m |>) = f self) → f (task (send_line now line id w)) = f (task w).
Proof. intros Hf. rewrite send_line_task. apply Hf. Qed.

(** An answer that leaves what the asker knows up to date. *)
Lemma send_api now payload id w :
  api_inv w → no_char newline payload →
  (∀ v, up_to_date (published (task w)) v → up_to_date (published (task w)) (see v (now, framed payload))) →
  api_inv (send_line now (framed payload) id w).
Proof.
  intros [Hi Hc] Hn Hsee. unfold api_inv.
  rewrite (send_line_keeps published), (send_line_keeps cover_cache), (send_line_keeps current_cover) by done.
  split; [|done]. eapply conn_inv_weaken; [apply send_line_inv; [exact Hi|by exists payload]|].
  intros i c v _ _. unfold tell. case_decide; [|done]. intros (v0 & Hv0 & ->). by apply Hsee.
Qed.

Lemma send_other_api now payload id w :
  api_inv w → (∀ s, payload = Some s → no_char newline s ∧ decode_event s = None) → api_inv (send now payload id w).
Proof.
  intros Hw Hp. destruct payload as [s|]; [|done]. destruct (Hp s eq_refl) as [Hn Hd]. apply send_api; [done|done|].
  intros v Hv. unfold see. simpl. by rewrite chop_framed, Hd.
Qed.

(** The view after a snapshot, which leaves the artwork. *)
Lemma see_snapshot now self v c :
  (v ≫= v_cover = (λ c, (mime c, bytes c)) <$> c) →
  up_to_date (published self <| p_cover := c |>) (see_event now (snapshot now self) v).
Proof.
  intros Hc. eexists. split; [done|]. constructor; simpl; [done| |done|by left|done].
  intros Hend. apply bool_decide_eq_false in Hend.
  destruct (current_position_cap now (track_duration_ms (current_track self)) (playback self)) as [?|(? & ? & _)]; [done|].
  exfalso. by apply Hend.
Qed.

Lemma send_snapshot_api now id w : api_inv w → api_inv (send now (encode_event (snapshot now (task w))) id w).
Proof.
  intros Hw. destruct (encode_event_total (snapshot now (task w))) as (s & Hs & Hn & Hd). rewrite Hs. simpl.
  apply send_api; [done|done|]. intros v (v' & -> & Hv'). unfold see. simpl fst. simpl snd. rewrite chop_framed, Hd.
  apply (see_snapshot now (task w) (Some v') (current_cover (task w))). simpl. apply Hv'.
Qed.

(** A new subscription starts with nothing heard. *)
Lemma subscribe_inv p id c w :
  informed p w → connections (task w) !! id = Some c →
  conn_inv (λ i v, if decide (i = id) then v = None else up_to_date p v)
    (modify (λ t, t <| connections ::= <[id := c <| subscribed := true |>]> |>) w
       <| history ::= (λ h, h ++ [HSubscribed id]) |>).
Proof.
  intros [H1 H2 H3 H4 H5] Hc. constructor; simpl; [| | |done|].
  - intros i c' Hi. rewrite lookup_insert_Some in Hi. destruct Hi as [[<- _]|[Hne Hi]].
    + destruct (H1 id c Hc) as (Hlt & p' & Hp' & _). split; [done|]. exists p'. split; [done|].
      constructor; rewrite heard_app; simpl; rewrite decide_True by done; simpl; [|by constructor].
      intros _. by eexists (_ +:+ _); rewrite string_app_nil.
    + destruct (H1 i c' Hi) as (Hlt & p' & Hp' & [Hb Hl]). split; [done|]. exists p'. split; [done|].
      constructor; rewrite heard_app; simpl; by rewrite decide_False.
  - intros i c' Hi Hs. rewrite heard_app. simpl. rewrite lookup_insert_Some in Hi. destruct Hi as [[<- _]|[Hne Hi]].
    + by rewrite !decide_True.
    + rewrite !decide_False by done. by apply (H2 i c').
  - apply Forall_app. split; [done|]. constructor; [|done]. simpl. by apply (H1 id c).
  - apply map_Forall_insert_2; [|done]. simpl. exact (map_Forall_lookup_1 _ _ _ _ H5 Hc).
Qed.

Lemma encode_cover_total self :
  encode_cover self = None ∧ current_cover self = None ∨
  ∃ c s, current_cover self = Some c ∧ encode_cover self = Some s ∧ no_char newline s ∧
    decode_event s = Some (EvCover (mime c) (length (bytes c)) (base64_encode (bytes c))).
Proof.
  unfold encode_cover. destruct (current_cover self) as [c|]; [right|by left]. simpl.
  destruct (encode_event_total (EvCover (mime c) (length (bytes c)) (base64_encode (bytes c)))) as (s & ? & ? & ?).
  by exists c, s.
Qed.

(** Between the snapshot and the cover the subscriber has everything but the
    artwork. *)
Definition half_told (p : Published) (id i : Z) (v : option View) : Prop :=
  up_to_date (if decide (i = id) then p <| p_cover := None |> else p) v.

Lemma subscribe_snapshot_inv now id c w w1 s :
  informed (published (task w)) w → connections (task w) !! id = Some c →
  w1 = modify (λ t, t <| connections ::= <[id := c <| subscribed := true |>]> |>) w
         <| history ::= (λ h, h ++ [HSubscribed id]) |> →
  encode_event (snapshot now (task w1)) = Some s →
  conn_inv (half_told (published (task w)) id) (send_line now (framed s) id w1).
Proof.
  intros Hi Hc -> [Hn Hd]%encoded. eapply conn_inv_weaken; [apply send_line_inv; [by apply subscribe_inv|by exists s]|].
  intros i c' v _ _. unfold tell, half_told. destruct (decide (i = id)) as [->|Hne].
  - rewrite decide_True by by apply list_elem_of_singleton. intros (v0 & -> & ->). unfold see. simpl fst. simpl snd.
    rewrite chop_framed, Hd. by apply (see_snapshot now (task w) None None).
  - by rewrite decide_False by by rewrite list_elem_of_singleton.
Qed.

Lemma subscribe_cover_api now id w :
  conn_inv (half_told (published (task w)) id) w → covers_ok (cover_cache (task w)) (current_cover (task w)) →
  api_inv (send now (encode_cover (task w)) id w).
Proof.
  intros Hw Hcov. destruct (encode_cover_total (task w)) as [[-> Hnone]|(c & s & Hc & -> & Hn & Hd)]; cbn [send].
  - split; [|done]. eapply conn_inv_weaken; [exact Hw|]. intros i c' v _ _. unfold half_told.
    case_decide; [|done]. unfold published. simpl. by rewrite Hnone.
  - unfold api_inv. rewrite (send_line_keeps published), (send_line_keeps cover_cache), (send_line_keeps current_cover) by done.
    split; [|done]. eapply conn_inv_weaken; [apply send_line_inv; [exact Hw|by exists s]|].
    intros i c' v _ _. unfold tell, half_told. destruct (decide (i = id)) as [->|Hne]; cycle 1.
    { by rewrite decide_False by by rewrite list_elem_of_singleton. }
    rewrite decide_True by by apply list_elem_of_singleton. intros (v0 & (v1 & -> & [S1 S2 S3 S4 S5]) & ->).
    unfold see. simpl fst. simpl snd. rewrite chop_framed, Hd. eexists. split; [done|].
    constructor; simpl; try done. rewrite Hc, base64_roundtrip; [done|]. by apply Hcov.
Qed.

Lemma handle_subscribe_api now id w : api_inv w → api_inv (handle_subscribe now id w).
Proof.
  intros Hw. unfold handle_subscribe, subscribe. destruct (connections (task w) !! id) as [c|] eqn:Hc; [|by apply send_snapshot_api].
  destruct (subscribed c) eqn:Hs; [by apply send_snapshot_api|]. cbn beta iota. destruct Hw as [Hi Hcov].
  remember (modify _ w <| history ::= _ |>) as w1 eqn:Hw1.
  assert (published (task w1) = published (task w) ∧ cover_cache (task w1) = cover_cache (task w)) as [Hp1 Hcc1] by by subst.
  destruct (encode_event_total (snapshot now (task w1))) as (s & Hsn & _). rewrite Hsn. cbn [send].
  pose proof (subscribe_snapshot_inv now id c w w1 s Hi Hc Hw1 Hsn) as H2.
  apply subscribe_cover_api; rewrite ?(send_line_keeps published), ?(send_line_keeps cover_cache), ?(send_line_keeps current_cover) by done.
  - by rewrite Hp1.
  - rewrite Hcc1. by replace (current_cover (task w1)) with (current_cover (task w)) by by apply (f_equal p_cover) in Hp1.
Qed.

Lemma unsubscribe_api id w : api_inv w → api_inv (unsubscribe id w).
Proof.
  intros Hw. unfold unsubscribe. destruct (connections (task w) !! id) as [c|] eqn:Hc; [|done].
  destruct (subscribed c); [|done]. destruct Hw as [[H1 H2 H3 H4 H5] Hcov]. split; [|done]. constructor; simpl; [| |done|done|].
  - intros i c' Hi. rewrite lookup_insert_Some in Hi. destruct Hi as [[<- _]|[Hne Hi]]; eauto.
  - intros i c' Hi Hs. rewrite lookup_insert_Some in Hi. destruct Hi as [[<- <-]|[Hne Hi]]; [done|eauto].
  - apply map_Forall_insert_2; [|done]. simpl. exact (map_Forall_lookup_1 _ _ _ _ H5 Hc).
Qed.

Lemma handle_request_api now line id w : api_inv w → api_inv (handle_request now line id w).
Proof.
  intros Hw. unfold handle_request. destruct (connections (task w) !! id); [|done].
  destruct (match split_once _ _ with Some _ => _ | None => _ end) as [name payload]. unfold run_command.
  repeat (case_decide; [first [by apply control_api | by apply command_api | by apply send_snapshot_api
                              | by apply handle_subscribe_api | by apply unsubscribe_api | idtac]|]); [..|done].
  - destruct (parse_set_volume _); [by apply set_volume_api|done].
  - apply send_other_api; [done|]. apply encode_volume_line.
  - apply send_other_api; [done|]. apply encode_track_line.
Qed.

(** *** Connections coming and going, and the writers *)

Lemma heard_fresh id h : Forall (λ e, id_of e < id) h → heard id h = [].
Proof.
  induction h as [|e h IH] using rev_ind; [done|]. intros [Hh He]%Forall_app. rewrite heard_app, IH by done.
  inversion_clear He. destruct e as [i|now i line]; simpl in *; case_decide; done || lia.
Qed.

Lemma accept_api peer w :
  api_inv w → Forall network_ok (allow_list (task w)) → addr_ok peer.1 → 0 ≤ next_connection_id (task w) < u64_max →
  ∃ w', accept peer w = Val w' ∧ api_inv w' ∧
    next_connection_id (task w) ≤ next_connection_id (task w') ≤ next_connection_id (task w) + 1.
Proof.
  intros [[H1 H2 H3 H4 H5] Hcov] Hnet Haddr Hid. unfold accept, admit_peer.
  destruct (allows_spec _ _ Hnet Haddr) as (b & Hb & _). rewrite Hb. cbn [mbind exec_bind].
  destruct b; cbn [negb]; cycle 1. { exists w. split; [done|]. split; [done|lia]. }
  unfold uadd. rewrite decide_True by lia. cbn [mbind exec_bind]. eexists. split; [done|]. split; [|simpl; lia].
  split; [|done]. constructor; simpl.
  - intros i c Hi. rewrite lookup_insert_Some in Hi. destruct Hi as [[<- _]|[Hne Hi]].
    + split; [lia|]. eexists. rewrite lookup_insert_eq. split; [done|].
      constructor; rewrite heard_fresh by done; simpl; [|done]. intros _. by exists EmptyString.
    + destruct (H1 i c Hi) as (? & p & Hp & Hl). split; [lia|]. exists p. by rewrite lookup_insert_ne.
  - intros i c Hi Hs. rewrite lookup_insert_Some in Hi. destruct Hi as [[<- <-]|[Hne Hi]]; [done|eauto].
  - eapply Forall_impl; [exact H3|]. simpl. intros e He. lia.
  - apply map_Forall_insert_2; [simpl; unfold CONNECTION_QUEUE; lia|done].
  - by apply map_Forall_insert_2.
Qed.

Lemma write_connection_api id fails w : api_inv w → api_inv (write_connection id fails w).
Proof.
  intros Hw. unfold write_connection. destruct (pipes w !! id) as [p|] eqn:Hp; [|done].
  destruct (draining p) eqn:Hdr; [|done].
  assert (∀ p', (∀ c, connections (task w) !! id = Some c → link id (history w) p → link id (history w) p') →
    (length (waiting p') ≤ length (waiting p))%nat → api_inv (w <| pipes ::= <[id := p']> |>)) as Hset.
  { intros p' Hl Hlen. destruct Hw as [[H1 H2 H3 H4 H5] Hcov]. split; [|done]. constructor; simpl; [|done|done| |done].
    - intros i c Hi. destruct (H1 i c Hi) as (Hlt & q & Hq & Hlq). split; [done|]. destruct (decide (id = i)) as [->|Hne].
      + exists p'. rewrite lookup_insert_eq. split; [done|]. apply (Hl c Hi). by rewrite Hp in Hq; injection Hq as ->.
      + exists q. by rewrite lookup_insert_ne.
    - apply map_Forall_insert_2; [|done]. pose proof (map_Forall_lookup_1 _ _ _ _ H4 Hp) as Hq. simpl in *. lia. }
  destruct (waiting p) as [|line rest] eqn:Hwait.
  - case_decide as Hc; [done|]. apply Hset; [|simpl; by rewrite Hwait]. intros c Hc'. exfalso. apply Hc. by eexists.
  - destruct fails as [n|]; apply Hset; [|simpl; lia| |simpl; lia].
    + intros c _ [Hb Hl]. by constructor.
    + intros c _ [Hb Hl]. constructor; [|done]. intros _. destruct (Hb Hdr) as [before Hbe]. exists before.
      rewrite Hwait in Hbe. simpl in *. by rewrite <- Hbe, string_app_assoc.
Qed.
End client.
Abbreviation informed p := (conn_inv (λ _, up_to_date p)).
