(* ===== verification/ApiProps.v ===== *)
(** * The control API: properties of every run

    Whatever connects, asks, plays and breaks in whatever order: the server
    does not panic, stays within its bounds, keeps its subscribers up to date,
    and sends transport commands to the source that last played. *)

From S2P Require Import Prelude StdTypes Digits Text Wire SpotifyId SpotifyUri Metadata Player AllowList SpircData ApiData ApiServer ApiInv.

Local Open Scope string_scope.
Local Open Scope list_scope.
Local Open Scope Z_scope.
Local Coercion Z.of_nat : nat >-> Z.

(** ** What publishing leaves alone *)

(** The task without what it publishes, the covers and the connections. *)
Definition private (self : ApiServerTask) : ApiServerTask :=
  self <| connections := ∅ |> <| current_track := TrackResponse_default |> <| current_volume := 0 |>
    <| playback := PlaybackState_default 0 |> <| cover_cache := CoverCache_default |>
    <| current_cover := None |> <| current_cover_url := None |>.

Section frames.
Context `{SerdeLaws}.

Lemma private_broadcast now payload w : private (task (broadcast now payload w)) = private (task w).
Proof. by apply (broadcast_keeps private). Qed.
Lemma private_send now payload id w : private (task (send now payload id w)) = private (task w).
Proof. destruct payload; [|done]. by apply (send_line_keeps private). Qed.
Lemma private_announce_cover now c w : private (task (announce_cover now c w)) = private (task w).
Proof. unfold announce_cover. case_match; [done|]. by rewrite private_broadcast. Qed.
Lemma private_update_playback now playing position w : private (task (update_playback now playing position w)) = private (task w).
Proof. unfold update_playback. by rewrite private_broadcast. Qed.
Lemma private_publish_volume now v w : private (task (publish_volume now v w)) = private (task w).
Proof. unfold publish_volume. by rewrite private_broadcast. Qed.
Lemma private_announce_track now w : private (task (announce_track now w)) = private (task w).
Proof. apply private_broadcast. Qed.
Lemma private_clear now w : private (task (clear_now_playing now w)) = private (task w).
Proof. unfold clear_now_playing. by rewrite private_update_playback, private_announce_track. Qed.
Lemma private_load_cover now url w : private (task (load_cover now url w)) = private (task w).
Proof.
  unfold load_cover. destruct url as [u|]; [|done]. destruct (cache_get _ _); [by rewrite private_announce_cover|].
  by destruct (session _).
Qed.
Lemma private_handle_cover now f w : private (task (handle_cover now f w)) = private (task w).
Proof. unfold handle_cover. destruct (fetched f); [|done]. case_decide; [done|]. by rewrite private_announce_cover. Qed.

Lemma private_handle_subscribe now id w : private (task (handle_subscribe now id w)) = private (task w).
Proof.
  unfold handle_subscribe, subscribe. destruct (connections (task w) !! id) as [c|]; [|apply private_send].
  destruct (subscribed c); [apply private_send|]. cbn beta iota. by rewrite !private_send.
Qed.
Lemma private_write id fails w : private (task (write_connection id fails w)) = private (task w).
Proof. unfold write_connection. repeat case_match; done. Qed.

(** Player events change nothing else but the active source. *)
Lemma private_player_event now e w w' :
  handle_player_event now e w = Val w' →
  private (task w') = private (task w) <| active_source :=
    match e with EvPlaying _ _ _ => SpotifySource | _ => active_source (task w) end |>.
Proof.
  assert (private (task w) = private (task w) <| active_source := active_source (task w) |>) as Hself by by destruct (task w).
  destruct e; simpl; intros E; try (injection E as <-); rewrite ?private_update_playback, ?private_publish_volume;
    first [done | exact Hself | idtac].
  - destruct (TrackResponse_from _); simpl in E; [|done]. injection E as <-.
    by rewrite private_load_cover, private_announce_track.
  - case_decide; injection E as <-; rewrite ?private_clear; exact Hself.
Qed.
End frames.

(** ** Where commands go *)

(** What decides it, and who may connect. *)
Definition routes (self : ApiServerTask) :=
  (active_source self, airplay_dacp self, airplay_peer self, (airplay_helper_port self, helper_socket self),
   (allow_list self, next_connection_id self), airplay_connection self).

Lemma routes_private t1 t2 : private t1 = private t2 → routes t1 = routes t2.
Proof. intros H. apply (f_equal routes) in H. by destruct t1, t2. Qed.
Abbreviation private_routes H := (routes_private _ _ H).

Definition plays (sel : Selected) : option Source :=
  match sel with
  | SelPlayer (EvPlaying _ _ _) => Some SpotifySource
  | SelAirplay (Some (AePlaybackChanged _ true _)) => Some AirplaySource
  | _ => None
  end.
Definition offers_dacp (sel : Selected) : option (Z * DacpTarget) :=
  match sel with
  | SelAirplay (Some (AeDacpAvailable connection host port active_remote machine_number scope_id local_bind)) =>
      Some (connection, mkDacpTarget host port active_remote local_bind machine_number scope_id)
  | _ => None
  end.
Definition comes_from (sel : Selected) : option (Z * IpAddr) :=
  match sel with SelAirplay (Some (AeSessionStarted connection peer)) => Some (connection, peer) | _ => None end.
(** The AirPlay connection that is on the air. *)
Definition air_after (sel : Selected) (air : option Z) : option Z :=
  match sel with
  | SelAirplay (Some (AePlaybackChanged connection true _)) => Some connection
  | SelAirplay (Some (AeSessionEnded connection)) => if decide (air = Some connection) then None else air
  | _ => air
  end.
Definition latest {A} (f : Selected → option A) (sels : list (Z * Selected)) : option A := last (omap f sels.*2).

Lemma latest_app {A} (f : Selected → option A) sels now sel :
  latest f (sels ++ [(now, sel)]) = match f sel with Some a => Some a | None => latest f sels end.
Proof.
  unfold latest. rewrite fmap_app, omap_app. simpl. destruct (f sel); [apply last_snoc|by rewrite app_nil_r].
Qed.

Section routing.
Context `{SerdeLaws}.

Lemma routes_command f w : routes (task (command f w)) = routes (task w).
Proof. unfold command. by case_match. Qed.
Lemma routes_control name f c w : routes (task (control name f c w)) = routes (task w).
Proof. unfold control, forward_to_helper. repeat case_match; first [done | apply routes_command]. Qed.
Lemma routes_set_volume v w : routes (task (set_volume v w)) = routes (task w).
Proof. unfold set_volume. repeat case_match; first [done | apply routes_command]. Qed.

Lemma routes_request now line id w : routes (task (handle_request now line id w)) = routes (task w).
Proof.
  unfold handle_request. destruct (connections (task w) !! id); [|done].
  destruct (match split_once _ _ with Some _ => _ | None => _ end) as [name payload]. unfold run_command.
  repeat (case_decide; [first [apply routes_control | apply routes_command | exact (private_routes (private_send _ _ _ _))
    | exact (private_routes (private_handle_subscribe _ _ _)) | idtac]|]); [..|done].
  - destruct (parse_set_volume _); [apply routes_set_volume|done].
  - unfold unsubscribe. by repeat case_match.
Qed.

Lemma routes_airplay now e w :
  routes (task (handle_airplay_event now e w)) =
  (default (active_source (task w)) (plays (SelAirplay (Some e))),
   match offers_dacp (SelAirplay (Some e)) with Some d => Some d | None => airplay_dacp (task w) end,
   match comes_from (SelAirplay (Some e)) with Some p => Some p | None => airplay_peer (task w) end,
   (airplay_helper_port (task w), helper_socket (task w)), (allow_list (task w), next_connection_id (task w)),
   air_after (SelAirplay (Some e)) (airplay_connection (task w))).
Proof.
  destruct e as [| |connection playing position|connection title artist album aa duration cover| |connection position duration| |connection];
    simpl; try done; cbn [handle_airplay_event].
  - destruct playing; [exact (private_routes (private_update_playback _ _ _ _))|]. simpl.
    destruct (negb _); [done|exact (private_routes (private_update_playback _ _ _ _))].
  - destruct (negb _); [done|]. set (w1 := modify _ w).
    transitivity (routes (task (announce_track now w1))); [|exact (private_routes (private_announce_track now w1))].
    destruct cover as [[bytes mime]|]; [exact (private_routes (private_announce_cover _ _ _))|done].
  - destruct (negb _); [done|]. case_decide; [done|exact (private_routes (private_announce_cover _ _ _))].
  - destruct (negb _); [done|]. etrans; [exact (private_routes (private_update_playback _ _ _ _))|]. by case_decide.
  - destruct (negb _); [done|exact (private_routes (private_publish_volume _ _ _))].
  - destruct (decide (airplay_connection (task w) = Some connection)) as [E|E]; [rewrite decide_False by auto|by rewrite decide_True].
    destruct (airplay_is_on_the_air _ _); [|done]. exact (private_routes (private_clear now _)).
Qed.

(** One turn: the three entries follow what was selected. *)
Lemma turn_routes now sel w w' :
  turn now sel w = Val w' → ∃ next,
  routes (task w') =
    (default (active_source (task w)) (plays sel),
     match offers_dacp sel with Some d => Some d | None => airplay_dacp (task w) end,
     match comes_from sel with Some p => Some p | None => airplay_peer (task w) end,
     (airplay_helper_port (task w), helper_socket (task w)), (allow_list (task w), next),
     air_after sel (airplay_connection (task w))) ∧
  next_connection_id (task w) ≤ next ≤ next_connection_id (task w) + 1.
Proof.
  assert (next_connection_id (task w) ≤ next_connection_id (task w) ≤ next_connection_id (task w) + 1) as Hle by lia.
  destruct sel as [s| |url response|e|[e|]|peer|id line|id|id fails|taken closes]; cbn [turn]; intros E.
  - injection E as <-. by eexists.
  - injection E as <-. by eexists.
  - injection E as <-. eexists. split; [exact (private_routes (private_handle_cover _ _ _))|done].
  - apply private_player_event in E. apply (f_equal routes) in E. exists (next_connection_id (task w)). split; [|done].
    etrans; [exact E|]. by destruct e.
  - injection E as <-. eexists. split; [apply routes_airplay|done].
  - injection E as <-. by eexists.
  - revert E. unfold accept, admit_peer. destruct (allows _ _) as [b|]; simpl; [|done]. destruct b; simpl.
    + unfold uadd. case_decide; simpl; [|done]. intros [= <-]. eexists. split; [done|simpl; lia].
    + intros [= <-]. by eexists.
  - injection E as <-. eexists. split; [apply routes_request|done].
  - injection E as <-. by eexists.
  - injection E as <-. eexists. split; [exact (private_routes (private_write _ _ _))|done].
  - injection E as <-. by eexists.
Qed.

Lemma run_app sels1 sels2 w : run (sels1 ++ sels2) w = (w ← run sels1 w; run sels2 w).
Proof.
  revert w. induction sels1 as [|[now sel] sels1 IH]; intros w; [done|]. simpl.
  destruct (turn now sel w); [apply IH|done].
Qed.

Lemma run_routes sels w w' :
  run sels w = Val w' → ∃ next,
  routes (task w') =
    (default (active_source (task w)) (latest plays sels),
     match latest offers_dacp sels with Some d => Some d | None => airplay_dacp (task w) end,
     match latest comes_from sels with Some p => Some p | None => airplay_peer (task w) end,
     (airplay_helper_port (task w), helper_socket (task w)), (allow_list (task w), next),
     foldl (λ air sel, air_after sel air) (airplay_connection (task w)) sels.*2).
Proof.
  revert w'. induction sels as [|[now sel] sels IH] using rev_ind; intros w'.
  { intros [= <-]. by eexists. }
  rewrite run_app. destruct (run sels w) as [w1|] eqn:E1; simpl; [|done].
  destruct (turn now sel w1) as [w2|] eqn:E2; simpl; [|done]. intros [= <-].
  destruct (IH w1 eq_refl) as (n1 & H1). apply turn_routes in E2 as (n2 & H2 & _). exists n2. rewrite H2, !latest_app.
  rewrite fmap_app, foldl_app. simpl. unfold routes in H1. injection H1 as -> -> -> -> -> -> _ ->. by destruct (plays sel), (offers_dacp sel), (comes_from sel).
Qed.
End routing.

(** ** Every run *)

Definition selected_ok (sel : Selected) : Prop :=
  match sel with
  | SelCover _ (Some response) => bytes_ok response
  | SelPlayer e => player_event_ok e
  | SelAirplay (Some e) => airplay_event_ok e
  | SelAccept peer => addr_ok peer.1
  | _ => True
  end.

Definition progress_in (sels : list (Z * Selected)) : Reports := λ duration_ms,
  ∃ now connection position_ms, (now, SelAirplay (Some (AeProgressChanged connection position_ms duration_ms))) ∈ sels.

Section runs.
Context `{SerdeLaws}.

Section reports.
Context `{R : Reports}.

Lemma turn_api now sel w :
  api_inv w → selected_ok sel → match sel with SelAirplay (Some e) => reports e | _ => True end → Forall network_ok (allow_list (task w)) → 0 ≤ next_connection_id (task w) < u64_max →
  ∃ w', turn now sel w = Val w' ∧ api_inv w'.
Proof.
  intros Hw Hsel Hr Hnet Hid.
  destruct sel as [s| |url response|e|[e|]|peer|id line|id|id fails|taken closes]; cbn [turn]; cbn in Hsel;
    try (eexists; split; [done|]; first [by apply api_inv_modify | by apply handle_airplay_event_api
      | by apply handle_request_api | by apply write_connection_api | idtac]).
  - apply handle_cover_api; [done|]. by intros b ->.
  - by apply handle_player_event_api.
  - destruct (accept_api peer w Hw Hnet Hsel Hid) as (w' & ? & ? & _). by exists w'.
  - destruct Hw. split; [by apply conn_inv_disconnect|done].
Qed.

Lemma run_api sels w :
  api_inv w → Forall (λ s, selected_ok s.2) sels → (∀ d, progress_in sels d → reported d) → Forall network_ok (allow_list (task w)) →
  0 ≤ next_connection_id (task w) → next_connection_id (task w) + length sels ≤ u64_max →
  ∃ w', run sels w = Val w' ∧ api_inv w' ∧ allow_list (task w') = allow_list (task w).
Proof.
  revert w. induction sels as [|[now sel] sels IH]; intros w Hw Hs Hrep Hnet Hid Hlen; [by exists w|].
  apply Forall_cons in Hs as [Hsel Hs]. simpl in Hlen.
  assert (match sel with SelAirplay (Some e) => reports e | _ => True end) as Hsr.
  { destruct sel as [| | | |[[]|]| | | | |]; try done. apply Hrep. eexists _, _, _. apply list_elem_of_here. }
  destruct (turn_api now sel w Hw Hsel Hsr Hnet) as (w1 & E1 & Hw1); [lia|]. simpl. rewrite E1. simpl.
  apply turn_routes in E1 as (n & Hr & Hn). unfold routes in Hr. injection Hr as _ _ _ _ _ Ha Hid1.
  destruct (IH w1 Hw1 Hs) as (w' & ? & ? & ?); [|by rewrite Ha|lia|lia|].
  { intros d (t & i & q & Hin). apply Hrep. exists t, i, q. by apply list_elem_of_further. }
  exists w'. split_and!; [done|done|congruence].
Qed.

Lemma spawn_api now allow port bound : api_inv (spawn now allow port bound).
Proof.
  split; [|split_and!; [apply cache_default_ok|apply map_Forall_empty|done]].
  constructor; simpl; try done; try apply map_Forall_empty; intros ? ? []%lookup_empty_Some.
Qed.

End reports.

Lemma spawn_run now allow_text allow port bound sels :
  parse_allow_list allow_text = Ok allow → Forall (λ s, selected_ok s.2) sels → length sels ≤ u64_max →
  ∃ w, run sels (spawn now allow port bound) = Val w ∧ api_inv (R:=progress_in sels) w ∧ allow_list (task w) = allow.
Proof.
  intros Hp Hs Hlen. apply parse_networks_ok in Hp. by apply run_api; [apply spawn_api|..|].
Qed.

(** C11: whatever happens in whatever order, the server does not panic, and a
    client that is subscribed and connected is up to date: what was queued for
    it since it subscribed is whole lines, those events folded together are the
    state the server publishes (with the position counted on from when it was
    told, unless it was told at the very end of the track, and the artwork), and
    the bytes written to its socket followed by those that wait end with exactly
    these lines.  One thing may be missing: where the track came without a
    duration and an AirPlay sender reported it with its progress, the client may
    still see none, and only where the duration published is such a one. *)
Theorem subscriber_up_to_date now allow_text allow port bound sels :
  parse_allow_list allow_text = Ok allow → Forall (λ s, selected_ok s.2) sels → length sels ≤ u64_max →
  ∃ w, run sels (spawn now allow port bound) = Val w ∧
  ∀ id c, connections (task w) !! id = Some c → subscribed c = true →
    let told := heard id (history w) in
    Forall line_ok told.*2 ∧
    (∃ v, watch told = Some v ∧ shows (R:=progress_in sels) v (published (task w))) ∧
    ∃ p, pipes w !! id = Some p ∧
      (draining p = true → ∃ before, socket p +:+ concat_strings (waiting p) = before +:+ concat_strings told.*2).
Proof.
  intros Hp Hs Hlen. destruct (spawn_run now allow_text allow port bound sels Hp Hs Hlen) as (w & E & [Hi _] & _).
  exists w. split; [done|]. intros id c Hc Hsub. destruct (conn_pipe _ _ Hi id c Hc) as (_ & p & Hpipe & [Hb Hl]).
  destruct (conn_expects _ _ Hi id c Hc Hsub) as (v & Hv & Hshow). eauto 10.
Qed.

(** C12: the memory a run takes is bounded by the number of connections: no more
    than 16 lines wait for any of them, at most four covers are cached, none of
    them of more than 2 MiB, and only peers the allow list lets in are
    connected. *)
Theorem api_bounded now allow_text allow port bound sels :
  parse_allow_list allow_text = Ok allow → Forall (λ s, selected_ok s.2) sels → length sels ≤ u64_max →
  ∃ w, run sels (spawn now allow port bound) = Val w ∧
    map_Forall (λ _ p, (length (waiting p) ≤ CONNECTION_QUEUE)%nat) (pipes w) ∧
    map_Forall (λ _ c, allows allow (peer c).1 = Val true) (connections (task w)) ∧
    (size (covers (cover_cache (task w))) ≤ COVER_CACHE_SIZE)%nat ∧
    map_Forall (λ _ c, length (bytes c) ≤ MAX_COVER_BYTES) (covers (cover_cache (task w))).
Proof.
  intros Hp Hs Hlen. destruct (spawn_run now allow_text allow port bound sels Hp Hs Hlen) as (w & E & [Hi (Hc & _ & _)] & Ha).
  exists w. split_and!; [done|apply Hi|rewrite <- Ha; apply Hi| |apply Hc].
  rewrite <- size_dom. etrans; [|apply (cache_len _ Hc)].
  rewrite <- (size_list_to_set (C:=gset string)) by apply (cache_NoDup _ Hc).
  apply subseteq_size. intros url Hu%elem_of_dom. apply elem_of_list_to_set. by apply (cache_keys _ Hc).
Qed.

(** The three transport commands, what they ask of Spirc, and their names for
    DACP. *)
Inductive transport : string → (Spirc → Spirc * result () SpircSendError) → string → Prop :=
| transport_next : transport "next" Handle.next "nextitem"
| transport_pause : transport "pause" Handle.pause "pause"
| transport_resume : transport "resume" activate_and_play "play".

(** C16: a transport command goes to the source that last started to play, and
    nowhere else, whatever else was paused, ended or connected since: to Spirc
    for Spotify; for AirPlay to the DACP endpoint offered last, without one to
    the helper on the machine of the sender that connected last, and without
    that to nobody. *)
Theorem commands_follow_source now0 allow port bound sels now id w c name spotify airplay :
  run sels (spawn now0 allow port bound) = Val w → connections (task w) !! id = Some c → transport name spotify airplay →
  handle_request now name id w =
    match default SpotifySource (latest plays sels) with
    | SpotifySource =>
        match spirc (task w) with
        | Some s => modify (λ t, t <| spirc := Some (spotify s).1 |>) w
        | None => w
        end
    | AirplaySource =>
        match latest offers_dacp sels, port, latest comes_from sels with
        | Some (_, target), _, _ => ask (DacpCommand target airplay) w
        | None, Some port, Some (_, sender) => if bound then ask (HelperDatagram (sender, port) name) w else w
        | None, _, _ => w
        end
    end.
Proof.
  intros Hrun Hc Ht. apply run_routes in Hrun as (n & Hr). unfold routes in Hr. simpl in Hr.
  injection Hr as Hs Hd Hp Hport Hb _ _.
  assert (handle_request now name id w = control name spotify airplay w) as ->.
  { unfold handle_request. rewrite Hc. by destruct Ht. }
  unfold control, forward_to_helper, command. rewrite Hs, Hd, Hp, Hport, Hb.
  destruct (default _ (latest plays sels)); [by rewrite decide_False|]. rewrite decide_True by done.
  destruct (latest offers_dacp sels) as [[]|]; [done|].
  destruct port; [|done]. destruct (latest comes_from sels) as [[]|]; [|done]. by destruct bound.
Qed.

(** ** After the connection was dropped *)

(** A client whose connection the server dropped still gets every line that was
    queued, and then the end of the stream. *)
Lemma writer_drains id w p :
  pipes w !! id = Some p → draining p = true → connections (task w) !! id = None →
  ∃ w', run (replicate (S (length (waiting p))) (0, SelWriter id None)) w = Val w' ∧
    pipes w' !! id = Some (mkPipe [] false (socket p +:+ concat_strings (waiting p)) true).
Proof.
  remember (waiting p) as l eqn:Hl. revert w p Hl. induction l as [|line l IH]; intros w p Hl Hp Hd Hc.
  - eexists. split; [cbn [replicate length run turn]; unfold write_connection; rewrite Hp, Hd, <- Hl, decide_False by (rewrite Hc; by intros []); done|].
    simpl. rewrite lookup_insert_eq, string_app_nil. f_equal. destruct p; simpl in *. by subst.
  - destruct (IH (w <| pipes ::= <[id := p <| waiting := l |> <| socket ::= (λ s, s +:+ line) |>]> |>)
      (p <| waiting := l |> <| socket ::= (λ s, s +:+ line) |>)) as (w' & E & Hw'); [done|apply lookup_insert_eq|done|done|].
    exists w'. split.
    + change (length (line :: l)) with (S (length l)). rewrite replicate_S. cbn [run turn]. unfold write_connection at 1.
      rewrite Hp, Hd, <- Hl. exact E.
    + rewrite Hw'. simpl. by rewrite string_app_assoc.
Qed.
End runs.

(** ** The order of a broadcast *)

(** Worlds that differ in the order in which lines were queued for different
    connections only. *)
Record alike (w w' : World) : Prop := {
  alike_task : task w = task w';
  alike_pipes : pipes w = pipes w';
  alike_effects : effects w = effects w';
  alike_heard id : heard id (history w) = heard id (history w');
}.
#[export] Instance alike_equiv : Equivalence alike.
Proof.
  split; [by constructor|by intros ?? []; constructor|].
  intros ??? [H1 H2 H3 H4] [H1' H2' H3' H4']. constructor; [congruence..|]. intros. by rewrite H4.
Qed.

#[export] Instance send_line_alike now line id : Proper (alike ==> alike) (send_line now line id).
Proof.
  intros [t p e h] [t' p' e' h'] [H1 H2 H3 H4]. simpl in *. subst t' p' e'. unfold send_line, disconnect, modify. simpl.
  destruct (connections t !! id), (p !! id); try by constructor. case_match; constructor; simpl; try done.
  intros i. by rewrite !heard_app, H4.
Qed.

Lemma send_line_swap now line a b w :
  a ≠ b → alike (send_line now line a (send_line now line b w)) (send_line now line b (send_line now line a w)).
Proof.
  intros Hab.
  assert (∀ x y, x ≠ y → connections (task (send_line now line y w)) !! x = connections (task w) !! x ∧
    pipes (send_line now line y w) !! x = pipes w !! x) as Hf.
  { intros x y Hxy. unfold send_line, disconnect, modify. destruct (connections (task w) !! y), (pipes w !! y); try done.
    case_match; simpl; [by rewrite lookup_insert_ne|by rewrite lookup_delete_ne]. }
  destruct (Hf a b Hab) as [Ha1 Ha2]. destruct (Hf b a (not_eq_sym Hab)) as [Hb1 Hb2]. clear Hf.
  unfold send_line at 1 3. rewrite Ha1, Ha2, Hb1, Hb2. unfold send_line, disconnect, modify.
  destruct (connections (task w) !! a), (pipes w !! a), (connections (task w) !! b), (pipes w !! b); try done;
    repeat case_match; try done; constructor; simpl; try done.
  all: try (by rewrite insert_insert_ne). all: try (by destruct (task w); unfold set_field; simpl; rewrite delete_delete).
  all: intros i; rewrite !heard_app; simpl; repeat case_decide; by subst.
Qed.

(** In whatever order the map of connections is walked, every subscriber gets
    the same. *)
Lemma send_all_order now line ids ids' w :
  NoDup ids → ids ≡ₚ ids' → alike (send_all now line ids w) (send_all now line ids' w).
Proof.
  intros Hnd Hp. revert w Hnd. induction Hp as [|x l l' _ IH|x y l|l1 l2 l3 Hp IH1 _ IH2]; intros w Hnd; simpl.
  - done.
  - apply NoDup_cons in Hnd as [_ Hnd]. by apply IH.
  - apply NoDup_cons in Hnd as [Hy _]. assert (x ≠ y) as Hne by set_solver.
    assert (Proper (alike ==> alike) (send_all now line l)) as Hpr.
    { clear. unfold send_all. induction l as [|z l IH]; intros w w' Hw; [done|]. simpl. apply IH. by rewrite Hw. }
    apply Hpr. by apply send_line_swap.
  - etrans; [by apply IH1|]. apply IH2. by rewrite <- Hp.
Qed.

(** ** An example *)

(** An encoding that can be read back: the bits of a number for an event. *)
Fixpoint bits (p : positive) : string :=
  match p with
  | xH => EmptyString
  | xO p => String "0" (bits p)
  | xI p => String "1" (bits p)
  end.
Fixpoint unbits (s : string) : positive :=
  match s with
  | String "0" s => xO (unbits s)
  | String "1" s => xI (unbits s)
  | _ => xH
  end.
Lemma unbits_bits p : unbits (bits p) = p.
Proof. induction p; simpl; congruence. Qed.
Lemma bits_line p : no_char newline (bits p).
Proof. induction p; simpl; [by apply no_char_cons..|apply no_char_nil]. Qed.

Definition track_tuple (t : TrackResponse) :=
  ((track_is_explicit t, track_duration_ms t), (song_name t, song_id t, song_uri t),
   (song_artists t, track_album_artists t), (track_type t, track_album t, track_source t)).
#[export] Instance TrackResponse_countable : Countable TrackResponse.
Proof.
  refine (inj_countable' track_tuple
    (λ '((e, d), (n, i, u), (a, aa), (ty, al, so)), mkTrackResponse n i a u ty al aa d e so) _).
  by intros [].
Defined.
#[export] Instance Event_countable : Countable Event.
Proof.
  refine (inj_countable'
    (λ e, match e with
          | EvSnapshot p m v t => inl (inl (p, m, v, t))
          | EvTrack t => inl (inr t)
          | EvPlayback p m => inr (inl (inl (p, m)))
          | EvVolume v => inr (inl (inr v))
          | EvCover m b d => inr (inr (m, b, d))
          end)
    (λ x, match x with
          | inl (inl (p, m, v, t)) => EvSnapshot p m v t
          | inl (inr t) => EvTrack t
          | inr (inl (inl (p, m))) => EvPlayback p m
          | inr (inl (inr v)) => EvVolume v
          | inr (inr (m, b, d)) => EvCover m b d
          end) _).
  by intros [].
Defined.

#[local] Instance toy_serde : Serde := {
  encode_event e := Some (String "e" (bits (encode e)));
  encode_volume v := Some "v";
  encode_track t := Some "t";
  parse_set_volume s := if decide (s = "loud") then Some u16_max else None;
  base64_encode l := String.string_of_list_ascii (chr <$> l);
}.
#[local] Instance toy_laws : SerdeLaws.
Proof.
  refine {| decode_event s := match s with String "e" s => decode (unbits s) | _ => None end;
            base64_decode s := Some (code <$> String.list_ascii_of_string s) |}.
  - intros e. eexists. split; [done|]. split; [apply no_char_cons; split; [done|apply bits_line]|].
    simpl. by rewrite unbits_bits, decode_encode.
  - intros v s [= <-]. split; [apply no_char_cons; split; [done|apply no_char_nil]|done].
  - intros v s [= <-]. split; [apply no_char_cons; split; [done|apply no_char_nil]|done].
  - intros s v. simpl. case_decide; [|done]. by intros [= <-].
  - intros l Hl. simpl. rewrite String.list_ascii_of_string_of_list_ascii. f_equal.
    induction Hl as [|b l Hb _ IH]; [done|]. rewrite !fmap_cons, IH, code_chr; [done|lia].
Defined.

(** A client subscribes while AirPlay plays with artwork; the sender pauses,
    tells its progress and ends; another client asks for the next track and
    leaves. *)
Definition example_peer : IpAddr * Z := (V4 [192; 168; 0; 7], 40000).
Definition example_sels : list (Z * Selected) :=
  [(0, SelAccept example_peer); (1, SelAirplay (Some (AeSessionStarted 5 (V4 [192; 168; 0; 9]))));
   (2, SelAirplay (Some (AePlaybackChanged 5 true 1000)));
   (3, SelAirplay (Some (AeTrackChanged 5 "T" "A" "B" EmptyString 0 (Some ([255; 216; 255], "image/jpeg")))));
   (4, SelRequest 0 "subscribe"); (5, SelWriter 0 None); (6, SelAccept example_peer); (7, SelRequest 1 "next");
   (8, SelClosed 1); (9, SelAirplay (Some (AeProgressChanged 5 2000 90000)))].
Definition example_world : World :=
  match run example_sels (spawn 0 [] (Some 50506) true) with Val w => w | Panic => spawn 0 [] None false end.

Lemma Val_inj {A} (a b : A) : Val a = Val b → a = b.
Proof. by intros [=]. Qed.
Lemma example_run : run example_sels (spawn 0 [] (Some 50506) true) = Val example_world.
Proof. vm_compute. reflexivity. Qed.
Lemma example_sels_ok : Forall (λ s, selected_ok s.2) example_sels.
Proof. repeat constructor; vm_compute; try done; repeat constructor; done. Qed.

Lemma subscriber_up_to_date_witness :
  parse_allow_list EmptyString = Ok [] ∧
  ∃ v, watch (heard 0 (history example_world)) = Some v ∧ v_playing v = true ∧ v_position v = 2000 ∧
    v_cover v = Some ("image/jpeg", [255; 216; 255]) ∧ song_name (v_track v) = "T".
Proof.
  assert (parse_allow_list EmptyString = Ok []) as Hp by (vm_compute; reflexivity). split; [exact Hp|].
  destruct (subscriber_up_to_date 0 EmptyString [] (Some 50506) true example_sels Hp example_sels_ok) as (w & E & Hw).
  { vm_compute. congruence. }
  rewrite example_run in E. apply Val_inj in E. subst w.
  destruct (Hw 0 (mkConnection example_peer true)) as (_ & (v & Hv & [H1 H2 _ H4 H5]) & _).
  { vm_compute. reflexivity. }
  { reflexivity. }
  exists v. split; [exact Hv|]. split; [rewrite H1; vm_compute; reflexivity|]. split; [|split].
  - assert ((λ v, (v_ended v, v_at v)) <$> watch (heard 0 (history example_world)) = Some (false, 9)) as Hat
      by (vm_compute; reflexivity).
    rewrite Hv in Hat. simpl in Hat. assert (v_ended v = false ∧ v_at v = 9) as [He Ha] by (split; congruence).
    rewrite (H2 He), Ha. vm_compute. reflexivity.
  - rewrite H5. vm_compute. reflexivity.
  - destruct H4 as [->|[_ ->]]; vm_compute; reflexivity.
Defined.

Lemma api_bounded_witness :
  ∃ w, run example_sels (spawn 0 [] (Some 50506) true) = Val w ∧ (size (covers (cover_cache (task w))) ≤ 4)%nat.
Proof.
  assert (parse_allow_list EmptyString = Ok []) as Hp by (vm_compute; reflexivity).
  destruct (api_bounded 0 EmptyString [] (Some 50506) true example_sels Hp example_sels_ok) as (w & E & _ & _ & H & _).
  { vm_compute. congruence. }
  exists w. split; [exact E|exact H].
Defined.

(** The source that last played is AirPlay; its sender offered no DACP
    endpoint. *)
Lemma commands_follow_source_witness :
  effects (handle_request 10 "pause" 0 example_world) =
    effects example_world ++ [HelperDatagram (V4 [192; 168; 0; 9], 50506) "pause"].
Proof.
  rewrite (commands_follow_source 0 [] (Some 50506) true example_sels 10 0 example_world (mkConnection example_peer true)
    "pause" Handle.pause "pause" example_run); [reflexivity|vm_compute; reflexivity|constructor].
Defined.

(** ** Corner cases *)

(** Artwork that comes with an AirPlay track is held and pushed whatever its
    size; the limit is checked where artwork comes on its own, and where it is
    fetched. *)
Lemma large_cover_held now connection title artist album aa duration b m w :
  airplay_is_on_the_air connection (task w) = true →
  current_cover (task (handle_airplay_event now (AeTrackChanged connection title artist album aa duration (Some (b, m))) w)) =
    Some (mkCover b m).
Proof.
  intros Hair. cbn [handle_airplay_event]. rewrite Hair. cbn [negb]. unfold announce_cover. case_match; [done|].
  by rewrite (broadcast_keeps current_cover).
Qed.

(** A duration that arrives with the progress is not told to subscribers: the
    client of the example still shows 0. *)
Lemma duration_untold :
  track_duration_ms (current_track (task example_world)) = 90000 ∧
  (track_duration_ms ∘ v_track) <$> watch (heard 0 (history example_world)) = Some 0.
Proof. vm_compute. done. Qed.

(** [volup] and [voldown] go to Spirc also while AirPlay is the source. *)
Lemma volup_ignores_source now id c w s :
  connections (task w) !! id = Some c → spirc (task w) = Some s → active_source (task w) = AirplaySource →
  handle_request now "volup" id w = modify (λ t, t <| spirc := Some (Handle.volume_up s).1 |>) w.
Proof. intros Hc Hs _. unfold handle_request. rewrite Hc. simpl. unfold run_command, command. simpl. by rewrite Hs. Qed.
