(* ===== verification/Lines.v ===== *)
(** * Text from byte streams

    [String::from_utf8_lossy], white space at the end of a line, and the
    connections of the API ([read_connection] of [src/server.rs]), which cut
    the bytes of a client into requests. *)

From S2P Require Import Prelude Digits Text Wire AllowList SpircData ApiData ApiServer.

Local Open Scope string_scope.
Local Open Scope list_scope.
Local Open Scope Z_scope.

(** ** [String::from_utf8_lossy] *)

Definition REPLACEMENT : list Z := [0xEF; 0xBF; 0xBD].

(** The second byte of a character of three or four bytes. *)
Definition second_ok (b0 b1 : Z) : bool :=
  is_cont b1 && (if decide (b0 = 0xE0) then bool_decide (0xA0 ≤ b1)
                 else if decide (b0 = 0xED) then bool_decide (b1 ≤ 0x9F)
                 else if decide (b0 = 0xF0) then bool_decide (0x90 ≤ b1)
                 else if decide (b0 = 0xF4) then bool_decide (b1 ≤ 0x8F)
                 else true).

(** Each longest prefix of a character that is not continued properly becomes
    one replacement character. *)
Fixpoint lossy (l : list Z) : list Z :=
  match l with
  | [] => []
  | b0 :: l0 =>
      if decide (b0 < 0x80) then b0 :: lossy l0
      else if decide (0xC2 ≤ b0 ≤ 0xDF) then
        match l0 with
        | b1 :: l1 => if is_cont b1 then b0 :: b1 :: lossy l1 else REPLACEMENT ++ lossy l0
        | [] => REPLACEMENT
        end
      else if decide (0xE0 ≤ b0 ≤ 0xEF) then
        match l0 with
        | b1 :: l1 =>
            if second_ok b0 b1 then
              match l1 with
              | b2 :: l2 => if is_cont b2 then b0 :: b1 :: b2 :: lossy l2 else REPLACEMENT ++ lossy l1
              | [] => REPLACEMENT
              end
            else REPLACEMENT ++ lossy l0
        | [] => REPLACEMENT
        end
      else if decide (0xF0 ≤ b0 ≤ 0xF4) then
        match l0 with
        | b1 :: l1 =>
            if second_ok b0 b1 then
              match l1 with
              | b2 :: l2 =>
                  if is_cont b2 then
                    match l2 with
                    | b3 :: l3 => if is_cont b3 then b0 :: b1 :: b2 :: b3 :: lossy l3 else REPLACEMENT ++ lossy l2
                    | [] => REPLACEMENT
                    end
                  else REPLACEMENT ++ lossy l1
              | [] => REPLACEMENT
              end
            else REPLACEMENT ++ lossy l0
        | [] => REPLACEMENT
        end
      else REPLACEMENT ++ lossy l0
  end.

Definition string_of_bytes (l : list Z) : string := String.string_of_list_ascii (chr <$> l).
Definition from_utf8_lossy (l : list Z) : string := string_of_bytes (lossy l).

(** Well-formed text is left as it is. *)
Lemma lossy_ok l : utf8_ok l = true → lossy l = l.
Proof.
  induction l as [l IH] using (induction_ltof1 _ (@length Z)); unfold ltof in IH. destruct l as [|b0 l0]; [done|].
  cbn [utf8_ok lossy]. case_decide as H0; [intros; f_equal; apply IH; [simpl; lia|done]|].
  destruct l0 as [|b1 l1]; [done|]. case_decide as H1.
  { intros [Hc Hl]%andb_true_iff. rewrite Hc. do 2 f_equal. apply IH; [simpl; lia|done]. }
  destruct l1 as [|b2 l2]; [done|]. fold (second_ok b0 b1). case_decide as H2.
  { intros [[-> ->]%andb_true_iff Hl]%andb_true_iff. do 3 f_equal. apply IH; [simpl; lia|done]. }
  destruct l2 as [|b3 l3]; [done|]. rewrite !andb_true_iff, bool_decide_eq_true. intros ((((H3 & ->) & ->) & ->) & Hl).
  rewrite decide_True by done. do 4 f_equal. apply IH; [simpl; lia|done].
Qed.

Lemma lossy_examples :
  lossy [0x41; 0xF0; 0x90; 0x42; 0xC0; 0x80] = [0x41] ++ REPLACEMENT ++ [0x42] ++ REPLACEMENT ++ REPLACEMENT ∧
  lossy [0xE2; 0x82; 0xAC; 0xED; 0xA0; 0x80] = [0xE2; 0x82; 0xAC] ++ REPLACEMENT ++ REPLACEMENT ++ REPLACEMENT.
Proof. vm_compute. done. Qed.

(** ** White space at the end *)

Lemma string_rev_snoc s c : string_rev (s +:+ String c EmptyString) = String c (string_rev s).
Proof.
  unfold string_rev. assert (String.list_ascii_of_string (s +:+ String c EmptyString) = String.list_ascii_of_string s ++ [c]) as ->.
  { induction s as [|d s IH]; [done|]. rewrite string_cons_app. simpl. by rewrite IH. }
  by rewrite rev_app_distr.
Qed.

Lemma trim_start_snoc s c :
  is_ascii_whitespace c = true →
  trim_bytes true (s +:+ String c EmptyString) =
    if decide (trim_bytes true s = EmptyString) then EmptyString else trim_bytes true s +:+ String c EmptyString.
Proof.
  intros Hc. assert (code c < 0x80) as Hlt by (apply bool_decide_eq_true in Hc; lia).
  assert (∀ a, is_whitespace2 a c = false) as H2 by (intros a; apply bool_decide_eq_false; lia).
  assert (∀ a b, is_whitespace3 a b c = false) as H3 by (intros a b; apply bool_decide_eq_false; lia).
  induction s as [s IH] using (induction_ltof1 _ String.length); unfold ltof in IH.
  destruct s as [|a s]; [simpl; by rewrite Hc|]. rewrite string_cons_app. cbn [trim_bytes].
  destruct (is_ascii_whitespace a); [apply IH; simpl; lia|].
  destruct s as [|b s]; [simpl; by rewrite H2|]. rewrite string_cons_app.
  destruct (is_whitespace2 a b); [apply IH; simpl; lia|].
  destruct s as [|d s]; [simpl; by rewrite H3|]. rewrite string_cons_app.
  destruct (is_whitespace3 a b d); [apply IH; simpl; lia|]. rewrite decide_False by done. by rewrite !string_cons_app.
Qed.

(** White space at the end of a line does not change what is left of it. *)
Lemma trim_snoc s c : is_ascii_whitespace c = true → trim (s +:+ String c EmptyString) = trim s.
Proof.
  intros Hc. unfold trim, trim_start. rewrite trim_start_snoc by done. case_decide as Hs; [by rewrite Hs|].
  unfold trim_end. rewrite string_rev_snoc. cbn [trim_bytes]. by rewrite Hc.
Qed.

(** ** Reading requests *)

(** [read_until] on the reader cut off at [limit] bytes: the line with its
    newline, or what there is, and the rest of the stream. *)
Fixpoint read_until (limit : nat) (stream : list Z) : list Z * list Z :=
  match limit, stream with
  | S limit, b :: stream =>
      if decide (b = 10) then ([b], stream)
      else let '(line, rest) := read_until limit stream in (b :: line, rest)
  | _, _ => ([], stream)
  end.

(** The requests of [read_connection] until it stops; each turn of the loop
    that goes on takes a byte at least. *)
Fixpoint requests (fuel : nat) (stream : list Z) : list string :=
  match fuel with
  | O => []
  | S fuel =>
      let '(line, rest) := read_until MAX_REQUEST_BYTES stream in
      if decide (last line ≠ Some 10) then []
      else
        let request := trim (from_utf8_lossy line) in
        if decide (request = EmptyString) then requests fuel rest else request :: requests fuel rest
  end.

(** What the server task is told, for all the bytes the peer ever sends.  A
    stream that ends with an error ends the connection like one that is
    closed. *)
Definition read_connection (id : Z) (stream : list Z) : list Selected :=
  (SelRequest id <$> requests (S (length stream)) stream) ++ [SelClosed id].

(** *** Lemmas *)

Lemma read_until_line limit line rest :
  10 ∉ line → (length line < limit)%nat → read_until limit (line ++ 10 :: rest) = (line ++ [10], rest).
Proof.
  revert limit. induction line as [|b line IH]; intros [|limit] Hn Hl; simpl in *; try lia; [done|].
  apply not_elem_of_cons in Hn as [Hb Hn]. rewrite decide_False by done. by rewrite IH by (done || lia).
Qed.

Lemma read_until_long limit stream : 10 ∉ take limit stream → (read_until limit stream).1 = take limit stream.
Proof.
  revert stream. induction limit as [|limit IH]; intros [|b stream] Hn; simpl in *; try done.
  apply not_elem_of_cons in Hn as [Hb Hn]. rewrite decide_False by done. specialize (IH stream Hn).
  destruct (read_until limit stream). simpl in *. by rewrite IH.
Qed.

(** A line a client sends, ended by LF or CRLF. *)
Record sent_line := mkSentLine { text : list Z; crlf : bool }.
Definition eol (l : sent_line) : list Z := if crlf l then [13; 10] else [10].
Definition sent_ok (l : sent_line) : Prop :=
  utf8_ok (text l) = true ∧ 10 ∉ text l ∧ (length (text l) + length (eol l) ≤ MAX_REQUEST_BYTES)%nat.
Definition sent_bytes (l : sent_line) : list Z := text l ++ eol l.

Lemma utf8_ok_app l1 l2 : utf8_ok l1 = true → utf8_ok (l1 ++ l2) = utf8_ok l2.
Proof.
  induction l1 as [l IH] using (induction_ltof1 _ (@length Z)); unfold ltof in IH. destruct l as [|b0 l0]; [done|].
  cbn [utf8_ok app]. case_decide; [intros; apply IH; [simpl; lia|done]|].
  destruct l0 as [|b1 l1]; [done|]. cbn [app]. case_decide.
  { intros [-> Hl]%andb_true_iff. apply IH; [simpl; lia|done]. }
  destruct l1 as [|b2 l3]; [done|]. cbn [app]. case_decide.
  { intros [[-> ->]%andb_true_iff Hl]%andb_true_iff. apply IH; [simpl; lia|done]. }
  destruct l3 as [|b3 l3]; [done|]. cbn [app]. intros [[[[-> ->]%andb_true_iff ->]%andb_true_iff ->]%andb_true_iff Hl]%andb_true_iff.
  apply IH; [simpl; lia|done].
Qed.

Lemma string_of_bytes_app l1 l2 : string_of_bytes (l1 ++ l2) = string_of_bytes l1 +:+ string_of_bytes l2.
Proof.
  induction l1 as [|b l1 IH]; [done|]. change (string_of_bytes ((b :: l1) ++ l2)) with (String (chr b) (string_of_bytes (l1 ++ l2))).
  by rewrite IH, <- string_cons_app.
Qed.

(** The request in a line is its text without the white space around it. *)
Lemma trim_line l : sent_ok l → trim (from_utf8_lossy (sent_bytes l)) = trim (string_of_bytes (text l)).
Proof.
  intros (Hu & _ & _). unfold from_utf8_lossy, sent_bytes, eol.
  rewrite lossy_ok by (rewrite utf8_ok_app by done; by destruct (crlf l)). rewrite string_of_bytes_app.
  destruct (crlf l); [|by apply (trim_snoc _ "010")].
  change (string_of_bytes [13; 10]) with (String "013" EmptyString +:+ String "010" EmptyString).
  rewrite string_app_assoc, (trim_snoc _ "010") by done. by apply (trim_snoc _ "013").
Qed.

Lemma read_until_sent l rest : sent_ok l → read_until MAX_REQUEST_BYTES (sent_bytes l ++ rest) = (sent_bytes l, rest).
Proof.
  intros (_ & Hn & Hl). unfold sent_bytes, eol in *. destruct (crlf l).
  - replace ((text l ++ [13; 10]) ++ rest) with ((text l ++ [13]) ++ 10 :: rest) by by rewrite <- !app_assoc.
    rewrite read_until_line; [by rewrite <- app_assoc| |].
    + rewrite elem_of_app, list_elem_of_singleton. intros [?|?]; [done|lia].
    + rewrite length_app. cbn [length] in *. lia.
  - rewrite <- app_assoc. change ([10] ++ rest) with (10 :: rest). rewrite read_until_line; [done|done|]. cbn [length] in Hl. lia.
Qed.

Lemma requests_sent fuel l rest :
  sent_ok l →
  requests (S fuel) (sent_bytes l ++ rest) =
    (let r := trim (string_of_bytes (text l)) in if decide (r = EmptyString) then [] else [r]) ++ requests fuel rest.
Proof.
  intros Hl. cbn [requests]. rewrite read_until_sent by done. rewrite decide_False.
  - rewrite trim_line by done. by case_decide.
  - unfold sent_bytes, eol. destruct (crlf l); rewrite ?last_app; by intros [].
Qed.

Lemma requests_lines lines fuel rest :
  Forall sent_ok lines → (length lines ≤ fuel)%nat →
  requests fuel (concat (sent_bytes <$> lines) ++ rest) =
    filter (λ r, r ≠ EmptyString) ((λ l, trim (string_of_bytes (text l))) <$> lines) ++ requests (fuel - length lines) rest.
Proof.
  intros Hl. revert fuel. induction Hl as [|l lines Hl _ IH]; intros fuel Hf; [simpl; by rewrite Nat.sub_0_r|].
  destruct fuel as [|fuel]; [simpl in Hf; lia|]. cbn [fmap list_fmap concat]. rewrite <- app_assoc, requests_sent by done.
  rewrite IH by (simpl in Hf; lia). rewrite filter_cons. simpl. repeat case_decide; done.
Qed.

(** The requests the server sees are the lines the client sent, in order,
    without the white space around them and without the empty ones, whether they
    end in LF or CRLF.  The first line of more than 1024 bytes ends the
    connection, and nothing behind it is taken for a request; so does a line
    that is not finished. *)
Lemma requests_framed id lines tail :
  Forall sent_ok lines → 10 ∉ take MAX_REQUEST_BYTES tail →
  read_connection id (concat (sent_bytes <$> lines) ++ tail) =
    (SelRequest id <$> filter (λ r, r ≠ EmptyString) ((λ l, trim (string_of_bytes (text l))) <$> lines)) ++ [SelClosed id].
Proof.
  intros Hl Ht. unfold read_connection. rewrite requests_lines; [|done|].
  - match goal with |- context [requests ?n tail] => assert (requests n tail = []) as -> end; [|by rewrite app_nil_r].
    destruct (_ - _)%nat; [done|]. cbn [requests].
    pose proof (read_until_long MAX_REQUEST_BYTES tail Ht) as Hr. destruct (read_until MAX_REQUEST_BYTES tail) as [line rest].
    simpl in Hr. subst line. rewrite decide_True; [done|]. intros Hlast. apply Ht. by apply last_Some_elem_of.
  - rewrite length_app. enough (length lines ≤ length (concat (sent_bytes <$> lines)))%nat by lia.
    clear Hl Ht. induction lines as [|l lines IH]; [done|]. rewrite fmap_cons. cbn [length concat]. rewrite length_app.
    assert (1 ≤ length (sent_bytes l))%nat; [|lia]. unfold sent_bytes, eol. rewrite length_app. destruct (crlf l); simpl; lia.
Qed.

