(* ===== verification/Dmap.v ===== *)
(** * DMAP: [airplay/src/dmap.rs], and the DACP replies in that format

    Tagged items that tell what an AirPlay sender plays: pushed by the sender,
    or answered by its DACP server ([parse_play_status] and [parse_volume] of
    [airplay/src/dacp.rs]). *)

From S2P Require Import Prelude Digits Text Wire AllowList SpircData ApiData ApiServer Lines.

Local Open Scope string_scope.
Local Open Scope list_scope.
Local Open Scope Z_scope.
Local Coercion Z.of_nat : nat >-> Z.

Definition tag (s : string) : list Z := code <$> String.list_ascii_of_string s.

(** ** Items *)

(** Tag, value and what follows. *)
Definition read_item (b : list Z) : option (list Z * list Z * list Z) :=
  if decide (length b < 8)%nat then None
  else
    let len := Z.to_nat (from_be_bytes (take 4 (drop 4 b))) in
    let rest := drop 8 b in
    if decide (len ≤ length rest)%nat then Some (take 4 b, take len rest, drop len rest) else None.

Definition read_u32 (item : list Z) : option Z :=
  if decide (length item = 4%nat) then Some (from_be_bytes item) else None.

(** The walk over a flat list of items, up to the first that is cut off. *)
Fixpoint walk (fuel : nat) (b : list Z) : list (list Z * list Z) :=
  match fuel with
  | O => []
  | S fuel => match read_item b with Some (t, v, rest) => (t, v) :: walk fuel rest | None => [] end
  end.
Definition items (b : list Z) : list (list Z * list Z) := walk (length b) b.

(** ** What a sender pushes *)

Record TrackMetadata := mkTrackMetadata {
  md_title : option string;
  md_artist : option string;
  md_album : option string;
  md_album_artist : option string;
  md_duration_ms : option Z;
}.
#[export] Instance settable_TrackMetadata : Settable TrackMetadata := λ r,
  mkTrackMetadata (md_title r) (md_artist r) (md_album r) (md_album_artist r) (md_duration_ms r).
#[export] Instance TrackMetadata_eq_dec : EqDecision TrackMetadata.
Proof. solve_decision. Defined.
Definition TrackMetadata_default : TrackMetadata := mkTrackMetadata None None None None None.

Definition metadata_is_empty (self : TrackMetadata) : bool := bool_decide (self = TrackMetadata_default).

Definition metadata_item (m : TrackMetadata) (item : list Z * list Z) : TrackMetadata :=
  let '(t, v) := item in
  if decide (t = tag "minm") then m <| md_title := Some (from_utf8_lossy v) |>
  else if decide (t = tag "asar") then m <| md_artist := Some (from_utf8_lossy v) |>
  else if decide (t = tag "asal") then m <| md_album := Some (from_utf8_lossy v) |>
  else if decide (t = tag "assl") then m <| md_album_artist := Some (from_utf8_lossy v) |>
  else if decide (t = tag "astm") then m <| md_duration_ms := read_u32 v |>
  else m.

(** The header of the container is skipped. *)
Definition parse_metadata (body : list Z) : TrackMetadata :=
  if decide (length body < 8)%nat then TrackMetadata_default
  else foldl metadata_item TrackMetadata_default (items (drop 8 body)).

Record Progress := mkProgress { pr_position_ms : Z; pr_duration_ms : Z }.
Definition RTP_CLOCK_HZ : Z := 44100.

Definition frames_to_ms (frames : Z) : exec Z :=
  n ← umul u64_max frames 1000;
  Val (Z.min u32_max (n / RTP_CLOCK_HZ)).

(** Three time stamps separated by slashes; the product of the frames and 1000
    may overflow. *)
Definition parse_progress (line : string) : exec (option Progress) :=
  match (λ s, result_ok (parse_uint u64_max (trim s))) <$> split "/" (trim line) with
  | [Some start; Some now; Some stop] =>
      if decide (now < start ∨ stop < start) then Val None
      else
        position ← frames_to_ms (now - start);
        duration ← frames_to_ms (stop - start);
        Val (Some (mkProgress position duration))
  | _ => Val None
  end.

Definition sniff_image_mime (b : list Z) : string :=
  match b with
  | 0xff :: 0xd8 :: 0xff :: _ => "image/jpeg"
  | 0x89 :: 0x50 :: 0x4e :: 0x47 :: _ => "image/png"
  | 0x47 :: 0x49 :: 0x46 :: 0x38 :: _ => "image/gif"
  | 0x52 :: 0x49 :: 0x46 :: 0x46 :: _ :: _ :: _ :: _ :: 0x57 :: 0x45 :: 0x42 :: 0x50 :: _ => "image/webp"
  | _ => "application/octet-stream"
  end.

(** ** What a DACP server answers *)

Record PlayStatus := mkPlayStatus {
  st_playing : option bool;
  st_title : option string;
  st_artist : option string;
  st_album : option string;
  st_duration_ms : option Z;
  st_position_ms : option Z;
}.
#[export] Instance settable_PlayStatus : Settable PlayStatus := λ r,
  mkPlayStatus (st_playing r) (st_title r) (st_artist r) (st_album r) (st_duration_ms r) (st_position_ms r).
Definition PlayStatus_default : PlayStatus := mkPlayStatus None None None None None None.

(** The status with the length and the time left seen so far. *)
Definition status_item (s : PlayStatus * option Z * option Z) (item : list Z * list Z)
    : PlayStatus * option Z * option Z :=
  let '(st, total, remaining) := s in
  let '(t, v) := item in
  if decide (t = tag "caps") then (st <| st_playing := (λ b, bool_decide (b = 4)) <$> head v |>, total, remaining)
  else if decide (t = tag "cann") then (st <| st_title := Some (from_utf8_lossy v) |>, total, remaining)
  else if decide (t = tag "cana") then (st <| st_artist := Some (from_utf8_lossy v) |>, total, remaining)
  else if decide (t = tag "canl") then (st <| st_album := Some (from_utf8_lossy v) |>, total, remaining)
  else if decide (t = tag "astm") then (st <| st_duration_ms := read_u32 v |>, total, remaining)
  else if decide (t = tag "cast") then (st, read_u32 v, remaining)
  else if decide (t = tag "cant") then (st, total, read_u32 v)
  else s.

Definition parse_play_status (body : list Z) : PlayStatus :=
  match read_item body with
  | Some (t, value, _) =>
      if decide (t ≠ tag "cmst") then PlayStatus_default
      else
        let '(st, total, remaining) := foldl status_item (PlayStatus_default, None, None) (items value) in
        let st :=
          match total, remaining with
          | Some total, Some remaining => st <| st_position_ms := Some (Z.max 0 (total - remaining)) |>
          | _, _ => st
          end in
        st <| st_duration_ms ::= (λ d, match d with Some _ => d | None => total end) |>
  | None => PlayStatus_default
  end.

(** [u32 as i32]. *)
Definition as_i32 (z : Z) : Z := if decide (z < 2 ^ 31) then z else z - 2 ^ 32.

Definition parse_volume (body : list Z) : option Z :=
  '(t, value, _) ← read_item body;
  if decide (t ≠ tag "cmgt") then None
  else
    '(_, v) ← list_find (λ i, i.1 = tag "cmvo") (items value);
    as_i32 <$> read_u32 v.2.

(** ** Lemmas *)

Definition encode_item (item : list Z * list Z) : list Z := item.1 ++ to_be_bytes 4 (length item.2) ++ item.2.
Definition item_ok (item : list Z * list Z) : Prop := length item.1 = 4%nat ∧ length item.2 < 2 ^ 32.

Lemma read_encoded item rest : item_ok item → read_item (encode_item item ++ rest) = Some (item.1, item.2, rest).
Proof.
  destruct item as [t v]. intros [Ht Hv]. unfold read_item, encode_item. cbn [fst snd] in *.
  rewrite decide_False by (rewrite !length_app, length_to_be_bytes; lia).
  rewrite <- !app_assoc. rewrite (drop_app_length' t) by done. rewrite (take_app_length' t) by done.
  rewrite (take_app_length' (to_be_bytes _ _)) by (by rewrite length_to_be_bytes).
  rewrite from_to_be_bytes by (change (256 ^ 4%nat) with (2 ^ 32); lia). rewrite Nat2Z.id.
  replace (drop 8 (t ++ to_be_bytes 4 (length v) ++ v ++ rest)) with (v ++ rest).
  2: { rewrite app_assoc, drop_app_length'; [done|]. rewrite length_app, length_to_be_bytes. lia. }
  rewrite decide_True by (rewrite length_app; lia). by rewrite take_app_length, drop_app_length.
Qed.

Lemma walk_encoded l tail fuel :
  Forall item_ok l → read_item tail = None → (length l < fuel)%nat → walk fuel (concat (encode_item <$> l) ++ tail) = l.
Proof.
  intros Hl Ht. revert fuel. induction Hl as [|[t v] l Hi _ IH]; intros [|fuel] Hf; simpl in Hf; try lia; cbn [walk].
  - cbn [fmap list_fmap concat app]. by rewrite Ht.
  - rewrite fmap_cons. cbn [concat]. rewrite <- app_assoc, read_encoded by done. simpl. f_equal. apply IH. lia.
Qed.

Lemma walk_nil fuel b : read_item b = None → walk fuel b = [].
Proof. intros Hb. destruct fuel; [done|]. cbn [walk]. by rewrite Hb. Qed.

(** Items that were encoded one after the other are read back; whatever follows
    and is cut off changes nothing. *)
Lemma items_encoded l tail :
  Forall item_ok l → read_item tail = None → items (concat (encode_item <$> l) ++ tail) = l.
Proof.
  intros Hl Ht. destruct l as [|i l]; [by apply walk_nil|]. apply walk_encoded; [done|done|].
  rewrite length_app. apply Forall_cons in Hl as [[Hi _] Hl]. enough (length l + 8 ≤ length (concat (encode_item <$> i :: l)))%nat.
  { cbn [length]. lia. }
  rewrite fmap_cons. cbn [concat]. rewrite length_app. unfold encode_item at 1. rewrite !length_app, length_to_be_bytes.
  enough (length l ≤ length (concat (encode_item <$> l)))%nat by lia.
  clear Ht Hi. induction Hl as [|j l [Hj _] _ IH]; [done|]. rewrite fmap_cons. cbn [concat length]. rewrite length_app.
  unfold encode_item at 1. rewrite length_app. lia.
Qed.

(** What the items with a tag say: the last of them counts. *)
Definition latest_value (t : string) (l : list (list Z * list Z)) : option (list Z) :=
  last (omap (λ i, if decide (i.1 = tag t) then Some i.2 else None) l).

Lemma latest_value_app t l i :
  latest_value t (l ++ [i]) = if decide (i.1 = tag t) then Some i.2 else latest_value t l.
Proof. unfold latest_value. rewrite omap_app. simpl. case_decide; [apply last_snoc|by rewrite app_nil_r]. Qed.

Lemma fold_metadata l :
  foldl metadata_item TrackMetadata_default l =
    mkTrackMetadata (from_utf8_lossy <$> latest_value "minm" l) (from_utf8_lossy <$> latest_value "asar" l)
      (from_utf8_lossy <$> latest_value "asal" l) (from_utf8_lossy <$> latest_value "assl" l)
      (latest_value "astm" l ≫= read_u32).
Proof.
  induction l as [|[t v] l IH] using rev_ind; [done|]. rewrite foldl_app, IH. cbn [foldl]. rewrite !latest_value_app.
  unfold metadata_item. cbn [fst snd].
  do 5 (case_decide; [simplify_eq; reflexivity|]). done.
Qed.

(** The first 8 bytes of a push are not looked at. *)
Definition push (header : list Z) (l : list (list Z * list Z)) (tail : list Z) : list Z :=
  header ++ concat (encode_item <$> l) ++ tail.

(** What a sender pushes about its track is read back: each field is the
    last item with its tag, absent when there is none, whatever other items
    there are and in whatever order, and a body that is cut off in the middle
    of an item keeps the items before it. *)
Lemma pushed_metadata header l tail :
  length header = 8%nat → Forall item_ok l → read_item tail = None →
  parse_metadata (push header l tail) =
    mkTrackMetadata (from_utf8_lossy <$> latest_value "minm" l) (from_utf8_lossy <$> latest_value "asar" l)
      (from_utf8_lossy <$> latest_value "asal" l) (from_utf8_lossy <$> latest_value "assl" l)
      (latest_value "astm" l ≫= read_u32).
Proof.
  intros Hh Hl Ht. unfold parse_metadata, push. rewrite decide_False by (rewrite length_app; lia).
  rewrite drop_app_length' by done. by rewrite items_encoded, fold_metadata.
Qed.

(** *** Corner cases *)

(** Time stamps of 64 bits overflow when they are turned into milliseconds. *)
Lemma progress_overflows : parse_progress "0/18446744073709552/18446744073709552" = Panic.
Proof. vm_compute. reflexivity. Qed.

(** The position is the length without the time left, never below 0. *)
Lemma play_status_example :
  parse_play_status (encode_item (tag "cmst", concat (encode_item <$>
    [(tag "caps", [4]); (tag "cast", [0; 3; 64; 8]); (tag "cant", [0; 3; 64; 9])]))) =
  mkPlayStatus (Some true) None None None (Some 213000) (Some 0).
Proof. vm_compute. reflexivity. Qed.
