(* ===== verification/StdText.v ===== *)
(** * More text operations of the standard library

    [str::lines], [str::split_whitespace], splitting at CRLF, and
    [str::parse::<f64>], as the AirPlay receiver uses them. *)

From S2P Require Import Prelude StdTypes Digits Text Float64.
From Stdlib Require Import SpecFloat.

Local Open Scope string_scope.
Local Open Scope list_scope.
Local Open Scope Z_scope.
Local Coercion Z.of_nat : nat >-> Z.

(** ** Lines and words *)

Fixpoint strip_cr (s : string) : string :=
  match s with
  | EmptyString => EmptyString
  | String c EmptyString => if decide (c = "013"%char) then EmptyString else s
  | String c s' => String c (strip_cr s')
  end.

(** A line ends in LF or CRLF; what follows the last LF is a line of its own
    unless it is empty. *)
Fixpoint lines_of (parts : list string) : list string :=
  match parts with
  | [] => []
  | [last] => if decide (last = EmptyString) then [] else [last]
  | p :: parts => strip_cr p :: lines_of parts
  end.
Definition lines (s : string) : list string := lines_of (split "010" s).

Definition flush (word : list ascii) : list string :=
  match word with [] => [] | _ => [String.string_of_list_ascii (rev word)] end.

(** Words between white space, [word] being the one under way, backwards. *)
Fixpoint words (word : list ascii) (s : string) : list string :=
  match s with
  | EmptyString => flush word
  | String c s1 =>
      if is_ascii_whitespace c then flush word ++ words [] s1
      else match s1 with
      | String d s2 =>
          if is_whitespace2 c d then flush word ++ words [] s2
          else match s2 with
          | String e s3 => if is_whitespace3 c d e then flush word ++ words [] s3 else words (c :: word) s1
          | EmptyString => words (c :: word) s1
          end
      | EmptyString => words (c :: word) s1
      end
  end.
Definition split_whitespace (s : string) : list string := words [] s.

(** [split] at the two characters CR LF. *)
Fixpoint split_crlf (s : string) : list string :=
  match s with
  | EmptyString => [EmptyString]
  | String c s1 =>
      match s1 with
      | String d s2 =>
          if decide (c = "013"%char ∧ d = "010"%char) then EmptyString :: split_crlf s2
          else match split_crlf s1 with [] => [String c EmptyString] | p :: ps => String c p :: ps end
      | EmptyString => [s]
      end
  end.

(** ** Decimal numbers *)

(** The digits at the front and what follows. *)
Fixpoint span_digits (s : string) : list Z * string :=
  match s with
  | String c s' =>
      match to_digit 10 c with
      | Some d => let '(ds, rest) := span_digits s' in (d :: ds, rest)
      | None => ([], s)
      end
  | EmptyString => ([], s)
  end.

(** The double closest to [m * 10 ^ e], halves to even: a quotient of at least
    64 bits whose last bit tells whether it is exact.  Exponents that are out
    of range are cut short. *)
Definition f64_of_decimal (m e : Z) (digits : nat) : f64 :=
  if decide (m = 0) then F64.zero
  else if decide (400 < e) then S754_infinity false
  else if decide (e + digits < -400) then F64.zero
  else if decide (0 ≤ e) then F64.of_Z (m * 10 ^ e)
  else
    let d := 10 ^ (- e) in
    let s := Z.max 0 (64 + Z.log2 d - Z.log2 m) in
    let q := (m * 2 ^ s) / d in
    let sticky := if decide ((m * 2 ^ s) `mod` d = 0) then 0 else 1 in
    binary_normalize 53 1024 (2 * q + sticky) (- (s + 1)) false.

(** [e] or [E], a sign and digits; [Some 0] when there is no exponent. *)
Definition parse_exponent (s : string) : option Z :=
  match s with
  | EmptyString => Some 0
  | String c s =>
      if decide (c = "e"%char ∨ c = "E"%char) then
        let '(negative, s) :=
          match s with
          | String "-" s' => (true, s')
          | String "+" s' => (false, s')
          | _ => (false, s)
          end in
        let '(ds, rest) := span_digits s in
        match ds, rest with
        | _ :: _, EmptyString => Some (if negative : bool then - eval_be 10 ds else eval_be 10 ds)
        | _, _ => None
        end
      else None
  end.

Definition parse_unsigned (s : string) : option f64 :=
  let l := to_ascii_lowercase s in
  if decide (l = "inf" ∨ l = "infinity") then Some (S754_infinity false)
  else if decide (l = "nan") then Some S754_nan
  else
    let '(whole, rest) := span_digits s in
    let '(frac, rest) :=
      match rest with
      | String "." rest => span_digits rest
      | _ => ([], rest)
      end in
    if decide (whole ++ frac = []) then None
    else
      e ← parse_exponent rest;
      Some (f64_of_decimal (eval_be 10 (whole ++ frac)) (e - length frac) (length whole + length frac)).

Definition parse_f64 (s : string) : option f64 :=
  match s with
  | String "-" s => F64.opp <$> parse_unsigned s
  | String "+" s => parse_unsigned s
  | _ => parse_unsigned s
  end.

(** ** Lemmas *)

Lemma text_examples :
  lines ("a" +:+ String "013" (String "010" ("b" +:+ String "010" ("c" +:+ String "013" EmptyString)))) =
    ["a"; "b"; "c" +:+ String "013" EmptyString] ∧
  split_whitespace "  96 352	0 " = ["96"; "352"; "0"] ∧
  split_crlf ("a" +:+ String "013" (String "010" (String "013" (String "010" "b")))) = ["a"; EmptyString; "b"].
Proof. vm_compute. done. Qed.

Lemma parse_f64_examples :
  parse_f64 "-15.0" = Some (F64.of_Z (-15)) ∧ parse_f64 "0.3" = Some (F64.div (F64.of_Z 3) (F64.of_Z 10)) ∧
  parse_f64 "1e23" = Some (F64.of_Z (10 ^ 23)) ∧ parse_f64 "." = None ∧ parse_f64 "1e" = None ∧
  parse_f64 "-INF" = Some (S754_infinity true) ∧ parse_f64 "4.9e-324" = Some (S754_finite false 1 (-1074)) ∧
  parse_f64 "1e400" = Some (S754_infinity false).
Proof. vm_compute. done. Qed.

Lemma split_crlf_app s t :
  no_char "013" s → split_crlf (s +:+ String "013" (String "010" t)) = s :: split_crlf t.
Proof.
  induction s as [|c s IH]; intros Hs; [done|]. rewrite !string_cons_app. apply no_char_cons in Hs as [Hc Hs].
  specialize (IH Hs). cbn [split_crlf]. destruct (s +:+ String "013" (String "010" t)) as [|d u] eqn:E; [by destruct s|].
  rewrite decide_False by (by intros []). by rewrite IH.
Qed.
Lemma split_crlf_id s : no_char "013" s → split_crlf s = [s].
Proof.
  induction s as [|c s IH]; intros Hs; [done|]. apply no_char_cons in Hs as [Hc Hs]. specialize (IH Hs).
  cbn [split_crlf]. destruct s as [|d u]; [done|]. rewrite decide_False by (by intros []). by rewrite IH.
Qed.
