(* ===== verification/Raop.v ===== *)
(** * The audio of a classic AirPlay session: [airplay/src/legacy], [codec] and [sink.rs]

    What [ANNOUNCE] negotiates, the packets that follow, and the thread that
    plays them.  RSA, AES, base64, the ALAC decoder and the sink are classes of
    operations. *)

From S2P Require Import Prelude StdTypes Digits Text Float64 Wire AllowList SpircData ApiData ApiServer Lines StdText.
From Stdlib Require Import SpecFloat.

Local Open Scope string_scope.
Local Open Scope list_scope.
Local Open Scope Z_scope.
Local Coercion Z.of_nat : nat >-> Z.

(** ** [sdp.rs] *)

Definition find_attribute (body prefix : string) : option string :=
  trim <$> head (omap (strip_prefix prefix) (lines body)).

Record Announce := mkAnnounce {
  fmtp : option string;
  rsaaeskey : option string;
  fpaeskey : option string;
  aesiv : option string;
}.
Definition parse_sdp (body : string) : Announce :=
  mkAnnounce (find_attribute body "a=fmtp:") (find_attribute body "a=rsaaeskey:") (find_attribute body "a=fpaeskey:")
    (find_attribute body "a=aesiv:").

Record AlacFormat := mkAlacFormat { frame_length : Z; bit_depth : Z; num_channels : Z; sample_rate : Z }.

(** The fields of interest, 0 where one is missing or no number, cut to their
    widths by [as]. *)
Definition parse_fmtp (s : string) : AlacFormat :=
  let field i := default 0 (split_whitespace s !! i ≫= λ f, result_ok (parse_uint u64_max f)) in
  mkAlacFormat (wrapu 32 (field 1%nat)) (wrapu 8 (field 3%nat)) (wrapu 8 (field 7%nat)) (wrapu 32 (field 11%nat)).

(** ** [codec/mod.rs]: the 24 bytes an ALAC decoder is set up with *)

Definition ALAC_PB : Z := 40.
Definition ALAC_MB : Z := 10.
Definition ALAC_KB : Z := 14.
Definition ALAC_MAX_RUN : Z := 255.

Definition magic_cookie (f : AlacFormat) : list Z :=
  to_be_bytes 4 (frame_length f) ++ [0; bit_depth f; ALAC_PB; ALAC_MB; ALAC_KB; num_channels f] ++
  to_be_bytes 2 ALAC_MAX_RUN ++ to_be_bytes 4 0 ++ to_be_bytes 4 0 ++ to_be_bytes 4 (sample_rate f).

Lemma magic_cookie_length f : length (magic_cookie f) = 24%nat.
Proof. unfold magic_cookie. by rewrite !length_app, !length_to_be_bytes. Qed.

(** ** [legacy/mod.rs] *)

(** The engines of [base64], RSA with the embedded key ([None] is a failure),
    and AES-128 in CBC mode on whole blocks. *)
Class RaopCrypto := {
  base64_std : string → option (list Z);
  base64_no_pad : string → option (list Z);
  base64_no_pad_encode : list Z → string;
  rsa_decrypt : list Z → option (list Z);
  rsa_sign : list Z → option (list Z);
  aes_cbc_decrypt : list Z → list Z → list Z → list Z;
}.

Inductive AnnounceError := MismatchedKeyMaterial | Base64Error | WrongIvLength (n : nat) | RsaError | FairplayNotSupported.

Record LegacyAudioSession := mkLegacyAudioSession { aes : option (list Z * list Z); alac_format : AlacFormat }.

Section raop.
Context `{RaopCrypto}.

Definition decode_airplay_base64 (s : string) : option (list Z) :=
  match base64_std s with Some b => Some b | None => base64_no_pad s end.

(** A key of another length than 16 is an error of [decrypt_aes_key]. *)
Definition decrypt_aes_key (encrypted : list Z) : result (list Z) AnnounceError :=
  match rsa_decrypt encrypted with
  | Some key => if decide (length key = 16%nat) then Ok key else Err RsaError
  | None => Err RsaError
  end.

Definition announce_keys (a : Announce) : result (option (list Z * list Z)) AnnounceError :=
  match rsaaeskey a, fpaeskey a, aesiv a with
  | None, None, None => Ok None
  | Some key, None, Some iv =>
      and_then (ok_or (decode_airplay_base64 iv) Base64Error) (λ iv,
      if decide (length iv ≠ 16%nat) then Err (WrongIvLength (length iv))
      else
        and_then (ok_or (decode_airplay_base64 key) Base64Error) (λ key,
        and_then (decrypt_aes_key key) (λ key, Ok (Some (key, iv)))))
  | None, Some _, Some _ => Err FairplayNotSupported
  | _, _, _ => Err MismatchedKeyMaterial
  end.

Definition handle_announce (body : list Z) : result LegacyAudioSession AnnounceError :=
  let a := parse_sdp (from_utf8_lossy body) in
  and_then (announce_keys a) (λ keys,
  Ok (mkLegacyAudioSession keys (default (mkAlacFormat 352 16 2 44100) (parse_fmtp <$> fmtp a)))).

(** The largest prefix of whole blocks is decrypted with the IV of the
    session, the rest is left as it is. *)
Definition decrypt_packet (key iv payload : list Z) : list Z :=
  let aeslen := (length payload / 16 * 16)%nat in
  (if decide (0 < aeslen)%nat then aes_cbc_decrypt key iv (take aeslen payload) else []) ++ drop aeslen payload.

(** The sequence number and the payload. *)
Definition rtp_parse (data : list Z) : option (Z * list Z) :=
  if decide (length data < 12)%nat then None else Some (from_be_bytes (take 2 (drop 2 data)), drop 12 data).
End raop.

Definition setup_transport_header (control_port timing_port server_port : Z) : string :=
  "RTP/AVP/UDP;unicast;interleaved=0-1;mode=record;control_port=" +:+ display control_port +:+ ";timing_port=" +:+
  display timing_port +:+ ";server_port=" +:+ display server_port.

(** *** Volume *)

Definition db_muted : f64 := F64.of_Z (-144).
Definition db_lowest : f64 := F64.of_Z (-30).
(** The literal 0.3. *)
Definition point_three : f64 := F64.div (F64.of_Z 3) (F64.of_Z 10).

Definition volume_to_gain `{Libm} (db : f64) : f64 :=
  if F64.leb db db_muted then F64.zero
  else powf (F64.of_Z 10) (F64.div (F64.clamp db_lowest F64.zero db) (F64.of_Z 20)).

(** [lib.rs]. *)
Definition percent_from_db (db : f64) : Z :=
  if F64.leb db db_muted then 0
  else
    let i64_lo := - 2 ^ 63 in
    let i64_hi := 2 ^ 63 - 1 in
    Z.max 0 (Z.min 100 (F64.to_int i64_lo i64_hi
      (F64.round (F64.div (F64.add (F64.clamp db_lowest F64.zero db) (F64.of_Z 30)) point_three)))).

Definition db_from_percent (percent : Z) : f64 :=
  let p := Z.min percent 100 in
  if decide (p = 0) then db_muted else F64.add db_lowest (F64.mul (F64.of_Z p) point_three).

(** Both ways of changing the volume are on one scale. *)
Lemma db_roundtrip p : 0 ≤ p ≤ 100 → percent_from_db (db_from_percent p) = p.
Proof.
  intros Hp. assert (forallb (λ n, bool_decide (percent_from_db (db_from_percent n) = n)) (Z.of_nat <$> seq 0 101) = true) as Hall
    by (vm_compute; reflexivity).
  rewrite forallb_forall in Hall. apply (bool_decide_unpack _). apply Is_true_true, Hall.
  apply list_elem_of_In, list_elem_of_fmap. exists (Z.to_nat p). rewrite elem_of_seq. lia.
Qed.

(** ** [sink.rs]: the output thread *)

Inductive SinkCall := CallStart | CallWrite (samples : list f64) | CallStop.

(** The thread on the packets that are sent to it until the sender is dropped:
    the calls it makes.  [starts] is whether the sink starts; a write may fail
    without ending the thread. *)
Fixpoint output_loop (starts started : bool) (packets : list (list f64)) : list SinkCall :=
  match packets with
  | [] => if started then [CallStop] else []
  | samples :: packets =>
      if started then CallWrite samples :: output_loop starts true packets
      else if starts then CallStart :: CallWrite samples :: output_loop starts true packets
      else [CallStart]
  end.
Definition output_thread (starts : bool) (packets : list (list f64)) : list SinkCall := output_loop starts false packets.

Lemma output_loop_started starts packets : output_loop starts true packets = (CallWrite <$> packets) ++ [CallStop].
Proof. induction packets as [|p packets IH]; [done|]. simpl. by rewrite IH. Qed.

(** ** The receive loop *)

Class AlacDecoder (D : Type) := {
  alac_new : list Z → option D;
  alac_decode : list Z → D → option (list f64) * D;
}.

Section receive.
Context `{RaopCrypto} `{AlacDecoder D}.

(** One datagram, with the gain at the time: what is written to the output, if
    anything. *)
Definition receive_packet (session : LegacyAudioSession) (gain : f64) (datagram : list Z) (d : D) : option (list f64) * D :=
  match rtp_parse datagram with
  | None => (None, d)
  | Some (_, payload) =>
      let decrypted := match aes session with Some (key, iv) => decrypt_packet key iv payload | None => payload end in
      match alac_decode decrypted d with
      | (Some samples, d) =>
          (Some (if SFeqb gain F64.one then samples else (λ s, F64.mul s gain) <$> samples), d)
      | (None, d) => (None, d)
      end
  end.

Fixpoint receive_packets (session : LegacyAudioSession) (l : list (f64 * list Z)) (d : D) : list (list f64) :=
  match l with
  | [] => []
  | (gain, datagram) :: l =>
      let '(samples, d) := receive_packet session gain (take 2048 datagram) d in
      option_list samples ++ receive_packets session l d
  end.

(** The loop until the socket fails or the task is aborted, with the output
    thread behind it: it is created for the first packet that decodes. *)
Definition receive_loop (session : LegacyAudioSession) (starts : bool) (l : list (f64 * list Z)) : list SinkCall :=
  match alac_new (magic_cookie (alac_format session)) with
  | None => []
  | Some d => output_thread starts (receive_packets session l d)
  end.

(** The calls on the sink follow its protocol: it is started once and before
    any write, and stopped once, after all writes, exactly when it started;
    a packet that is too short or does not decode is left out. *)
Lemma receive_loop_protocol session starts l :
  receive_loop session starts l = [] ∨ (starts = false ∧ receive_loop session starts l = [CallStart]) ∨
  ∃ d packets, alac_new (magic_cookie (alac_format session)) = Some d ∧ packets = receive_packets session l d ∧
    packets ≠ [] ∧ starts = true ∧ receive_loop session starts l = [CallStart] ++ (CallWrite <$> packets) ++ [CallStop].
Proof.
  unfold receive_loop, output_thread. destruct (alac_new _) as [d|]; [|by left].
  destruct (receive_packets session l d) as [|p ps] eqn:E; [by left|]. right. destruct starts; [right|by left].
  exists d, (p :: ps). simpl. by rewrite output_loop_started.
Qed.

(** Without gain an unencrypted packet is decoded as it came. *)
Lemma receive_plain session datagram d :
  aes session = None → (12 ≤ length datagram)%nat →
  receive_packet session F64.one datagram d = alac_decode (drop 12 datagram) d.
Proof.
  intros Ha Hl. unfold receive_packet, rtp_parse. rewrite decide_False by lia. rewrite Ha.
  by destruct (alac_decode _ d) as [[samples|] d'].
Qed.
End receive.
