(* ===== verification/Rtsp.v ===== *)
(** * The control connection of an AirPlay sender: [airplay/src/rtsp]

    Requests and responses ([message.rs]), the handlers of the verbs
    ([mod.rs]), and a connection from its first to its last byte
    ([connection.rs]). *)

From S2P Require Import Prelude StdTypes Digits Text Float64 Wire AllowList SpircData ApiData ApiServer Lines StdText Dmap Raop.

Local Open Scope string_scope.
Local Open Scope list_scope.
Local Open Scope Z_scope.
Local Coercion Z.of_nat : nat >-> Z.

Definition bytes_of (s : string) : list Z := code <$> String.list_ascii_of_string s.
Definition CRLF : string := String "013" (String "010" EmptyString).

(** ** Messages *)

Record Request := mkRequest {
  method : string;
  uri : string;
  cseq : option Z;
  headers : list (string * string);
  body : list Z;
}.
#[export] Instance settable_Request : Settable Request := λ r,
  mkRequest (method r) (uri r) (cseq r) (headers r) (body r).

Inductive ParseError := EmptyRequest | MalformedRequestLine | MalformedHeader | BodyTooShort.

(** [windows(n).position(..)]: where a pattern first occurs. *)
Fixpoint position_of (pattern data : list Z) : option nat :=
  match data with
  | [] => None
  | _ :: rest => if decide (take (length pattern) data = pattern) then Some 0%nat else S <$> position_of pattern rest
  end.
Definition find_double_crlf (data : list Z) : option nat := position_of [13; 10; 13; 10] data.

(** The header lines in order, with the sequence number found so far. *)
Fixpoint parse_headers (lines : list string) (acc : list (string * string) * option Z)
    : result (list (string * string) * option Z) ParseError :=
  match lines with
  | [] => Ok acc
  | line :: lines =>
      if decide (line = EmptyString) then parse_headers lines acc
      else match split_once ":" line with
      | None => Err MalformedHeader
      | Some (name, value) =>
          let name := trim name in
          let value := trim value in
          let seq := if eq_ignore_ascii_case name "cseq" then result_ok (parse_uint u32_max value) else acc.2 in
          parse_headers lines (acc.1 ++ [(name, value)], seq)
      end
  end.

Definition find_header (name : string) (headers : list (string * string)) : option string :=
  snd <$> head (filter (λ h, eq_ignore_ascii_case h.1 name = true) headers).

Definition content_length (headers : list (string * string)) : Z :=
  default 0 (find_header "content-length" headers ≫= λ v, result_ok (parse_uint usize_max v)).

(** One request off the front of the data, and how many bytes it took.  The
    sum of the two lengths may overflow. *)
Definition parse (data : list Z) : exec (result (Request * nat) ParseError) :=
  match find_double_crlf data with
  | None => Val (Err EmptyRequest)
  | Some header_end =>
      match from_utf8 (take header_end data) with
      | None => Val (Err MalformedRequestLine)
      | Some text =>
          match split_crlf text with
          | [] => Val (Err EmptyRequest)
          | request_line :: lines =>
              match split " " request_line with
              | m :: u :: _ =>
                  match parse_headers lines ([], None) with
                  | Err e => Val (Err e)
                  | Ok (hs, seq) =>
                      let body_start := (header_end + 4)%nat in
                      body_end ← uadd usize_max body_start (content_length hs);
                      if decide (body_end ≤ length data) then
                        let n := Z.to_nat body_end in
                        Val (Ok (mkRequest m u seq hs (drop body_start (take n data)), n))
                      else Val (Err BodyTooShort)
                  end
              | _ => Val (Err MalformedRequestLine)
              end
          end
      end
  end.

Record Response := mkResponse {
  status : Z;
  reason : string;
  r_cseq : option Z;
  r_headers : list (string * string);
  r_body : list Z;
}.
#[export] Instance settable_Response : Settable Response := λ r,
  mkResponse (status r) (reason r) (r_cseq r) (r_headers r) (r_body r).

Definition response_new (status : Z) (reason : string) (cseq : option Z) : Response := mkResponse status reason cseq [] [].
Definition response_ok : option Z → Response := response_new 200 "OK".
Definition not_implemented : option Z → Response := response_new 501 "Not Implemented".

Definition header_line (h : string * string) : string := h.1 +:+ ": " +:+ h.2 +:+ CRLF.
Definition encode_response (self : Response) : list Z :=
  bytes_of ("RTSP/1.0 " +:+ display (status self) +:+ " " +:+ reason self +:+ CRLF) ++
  (match r_cseq self with Some seq => bytes_of ("CSeq: " +:+ display seq +:+ CRLF) | None => [] end) ++
  concat ((λ h, bytes_of (header_line h)) <$> r_headers self) ++
  (if decide (r_body self = []) then [] else bytes_of ("Content-Length: " +:+ display (length (r_body self)) +:+ CRLF)) ++
  bytes_of CRLF ++ r_body self.

(** ** The verbs *)

Record RtpPorts := mkRtpPorts { event_port : Z; control_port : Z; data_port : Z; local_ip : IpAddr }.

Inductive RtspAction :=
| StartRecording
| StopRecording
| SetVolume (gain : f64) (percent : Z)
| DacpInfoCaptured (active_remote dacp_id : string)
| MetadataReported (m : TrackMetadata)
| CoverReported (bytes : list Z) (mime : string)
| ProgressReported (p : Progress).

(** [device_id.rs]: the first six bytes of the digest of the name, as a
    locally administered unicast address. *)
Definition device_id_from_name (sha1 : list Z → list Z) (name : string) : list Z :=
  match take 6 (sha1 (bytes_of name)) with
  | b :: rest => Z.land (Z.lor b 2) 254 :: rest
  | [] => []
  end.

Definition hex_byte (b : Z) : string :=
  String (from_digit (b / 16)) (String (from_digit (b `mod` 16)) EmptyString).
Definition upper_digit (d : Z) : ascii := if decide (d < 10) then chr (48 + d) else chr (65 + (d - 10)).
Definition hex_byte_upper (b : Z) : string :=
  String (upper_digit (b / 16)) (String (upper_digit (b `mod` 16)) EmptyString).
Definition service_name_prefix (id : list Z) : string := String.concat EmptyString (hex_byte_upper <$> id).
Definition colon_separated (id : list Z) : string := join ":" (hex_byte <$> id).

Section verbs.
Context `{RaopCrypto} `{Libm}.

Definition challenge_buffer (challenge : list Z) (ip : IpAddr) (device_id : list Z) : list Z :=
  let buffer := challenge ++ octets ip ++ device_id in
  buffer ++ replicate (32 - length buffer) 0.

Definition apple_challenge (request : Request) (ip : IpAddr) (device_id : list Z) (response : Response) : Response :=
  match find_header "Apple-Challenge" (headers request) with
  | None => response
  | Some challenge =>
      match decode_airplay_base64 (trim challenge) with
      | None => response
      | Some challenge =>
          if decide (16 < length challenge)%nat then response
          else match rsa_sign (challenge_buffer challenge ip device_id) with
          | None => response
          | Some signature =>
              response <| r_headers ::= (λ l, l ++ [("Apple-Response", base64_no_pad_encode signature)]) |>
          end
      end
  end.

Definition handle_record (audio : option LegacyAudioSession) (request : Request) : Response * option RtspAction :=
  match audio with
  | Some _ => (response_ok (cseq request), Some StartRecording)
  | None => (response_new 455 "Method Not Valid In This State" (cseq request), None)
  end.

Definition handle_announce (audio : option LegacyAudioSession) (request : Request)
    : option LegacyAudioSession * Response :=
  match Raop.handle_announce (body request) with
  | Ok session => (Some session, response_ok (cseq request))
  | Err _ => (audio, response_new 456 "Header Field Not Valid for Resource" (cseq request))
  end.

Definition first_parameter (name : string) (text : string) : option string := head (omap (strip_prefix name) (lines text)).

(** Volume wins over progress; a volume that is no number is passed over. *)
Definition text_parameters (text : string) : exec (option RtspAction) :=
  match first_parameter "volume: " text ≫= λ v, parse_f64 (trim v) with
  | Some db => Val (Some (SetVolume (volume_to_gain db) (percent_from_db db)))
  | None =>
      match first_parameter "progress: " text with
      | Some line => p ← parse_progress line; Val (option_map ProgressReported p)
      | None => Val None
      end
  end.

Definition handle_set_parameter (request : Request) : exec (Response * option RtspAction) :=
  action ←
    match find_header "Content-Type" (headers request) with
    | Some ct =>
        if starts_with "text/parameters" ct then text_parameters (from_utf8_lossy (body request))
        else if starts_with "application/x-dmap-tagged" ct then
          let m := parse_metadata (body request) in
          Val (if metadata_is_empty m then None else Some (MetadataReported m))
        else if starts_with "image/" ct then
          Val (if decide (body request = []) then None
               else Some (CoverReported (body request) (sniff_image_mime (body request))))
        else Val None
    | None => Val None
    end;
  Val (response_ok (cseq request), action).

Definition dacp_info (request : Request) : option RtspAction :=
  match find_header "Active-Remote" (headers request), find_header "DACP-ID" (headers request) with
  | Some active_remote, Some dacp_id => Some (DacpInfoCaptured active_remote dacp_id)
  | _, _ => None
  end.

Definition handle_legacy_setup (ports : RtpPorts) (request : Request) : Response * option RtspAction :=
  match find_header "Transport" (headers request) with
  | Some transport =>
      if str_contains "control_port=" transport && str_contains "timing_port=" transport then
        (response_ok (cseq request) <| r_headers :=
           [("Transport", setup_transport_header (control_port ports) (event_port ports) (data_port ports)); ("Session", "1")] |>,
         dacp_info request)
      else (response_new 451 "Invalid Arguments" (cseq request), None)
  | None => (response_new 451 "Invalid Arguments" (cseq request), None)
  end.

Definition handle_get_parameter (request : Request) : Response :=
  let response := response_ok (cseq request) in
  if decide (take 6 (body request) = bytes_of "volume")
  then response <| r_body := bytes_of (CRLF +:+ "volume: -24.000000" +:+ CRLF) |> else response.

Definition handle_request (audio : option LegacyAudioSession) (device_id : list Z) (ports : RtpPorts) (request : Request)
    : exec (option LegacyAudioSession * Response * option RtspAction) :=
  let m := method request in
  r ←
    if decide (m = "ANNOUNCE") then let '(audio, response) := handle_announce audio request in Val (audio, response, None)
    else if decide (m = "SETUP") then let '(response, action) := handle_legacy_setup ports request in Val (audio, response, action)
    else if decide (m = "RECORD") then let '(response, action) := handle_record audio request in Val (audio, response, action)
    else if decide (m = "TEARDOWN") then Val (audio, response_ok (cseq request), Some StopRecording)
    else if decide (m = "FLUSH") then Val (audio, response_ok (cseq request), None)
    else if decide (m = "OPTIONS") then Val (audio, response_ok (cseq request), None)
    else if decide (m = "SET_PARAMETER") then
      r ← handle_set_parameter request; Val (audio, r.1, r.2)
    else if decide (m = "GET_PARAMETER") then Val (audio, handle_get_parameter request, None)
    else Val (audio, not_implemented (cseq request), None);
  let '(audio, response, action) := r in
  Val (audio, apple_challenge request (local_ip ports) device_id response, action).

(** ** A connection *)

(** How reading ends: between requests, in the middle of one, with an error of
    the socket, with a request that makes no sense, or with a panic. *)
Inductive ReadEnd := CleanEof | MidRequest | SocketError | InvalidRequest (e : ParseError) | ParsePanic.

(** The complete requests in the buffer; what is left, or how reading ends. *)
Fixpoint drain (fuel : nat) (buf : list Z) : list Request * (list Z + ReadEnd) :=
  match fuel with
  | O => ([], inl buf)
  | S fuel =>
      match parse buf with
      | Panic => ([], inr ParsePanic)
      | Val (Ok (request, consumed)) => let '(l, rest) := drain fuel (drop consumed buf) in (request :: l, rest)
      | Val (Err EmptyRequest) | Val (Err BodyTooShort) => ([], inl buf)
      | Val (Err e) => ([], inr (InvalidRequest e))
      end
  end.

(** The requests read off a stream that arrives in chunks. *)
Fixpoint read_requests (clean : bool) (buf : list Z) (chunks : list (list Z)) : list Request * ReadEnd :=
  let '(l, state) := drain (S (length buf)) buf in
  match state with
  | inr stop => (l, stop)
  | inl buf =>
      match chunks with
      | [] => (l, if clean then (if decide (buf = []) then CleanEof else MidRequest) else SocketError)
      | chunk :: chunks => let '(l', stop) := read_requests clean (buf ++ chunk) chunks in (l ++ l', stop)
      end
  end.

(** What a connection does, in order. *)
Inductive Output :=
| Answer (response : Response)
| Emit (event : AirplayEvent)
| StartReceive (session : LegacyAudioSession)
| AbortReceive
| StartDacp (active_remote dacp_id : string)
| AbortDacp
| SetGain (gain : f64).

Record Conn := mkConn {
  audio : option LegacyAudioSession;
  data_socket : bool;
  recording_task : bool;
  dacp_task : bool;
  last_dacp_info : option (string * string);
}.
#[export] Instance settable_Conn : Settable Conn := λ r,
  mkConn (audio r) (data_socket r) (recording_task r) (dacp_task r) (last_dacp_info r).

Definition conn_new : Conn := mkConn None true false false None.

Section connection.
Context (connection : Z) (peer_known : bool) (device_id : list Z) (ports : RtpPorts).

(** What the actions do; [finished] is whether a running DACP task has come to
    its end by itself. *)
Definition perform (finished : bool) (action : RtspAction) (c : Conn) : Conn * list Output :=
  match action with
  | StartRecording =>
      match data_socket c, audio c with
      | true, Some session =>
          (c <| data_socket := false |> <| audio := None |> <| recording_task := true |>,
           [StartReceive session; Emit (AePlaybackChanged connection true 0)])
      | _, _ => (c <| data_socket := false |>, [])
      end
  | StopRecording =>
      (c <| recording_task := false |> <| dacp_task := false |>,
       (if recording_task c then [AbortReceive] else []) ++ (if dacp_task c then [AbortDacp] else []) ++
       [Emit (AePlaybackChanged connection false 0); Emit (AeSessionEnded connection)])
  | SetVolume gain percent => (c, [SetGain gain; Emit (AeVolumeChanged connection percent)])
  | DacpInfoCaptured active_remote dacp_id =>
      if bool_decide (last_dacp_info c = Some (active_remote, dacp_id)) && dacp_task c && negb finished then (c, [])
      else if peer_known then
        (c <| dacp_task := true |> <| last_dacp_info := Some (active_remote, dacp_id) |>,
         (if dacp_task c then [AbortDacp] else []) ++ [StartDacp active_remote dacp_id])
      else (c, [])
  | MetadataReported m =>
      (c, [Emit (AeTrackChanged connection (default EmptyString (md_title m)) (default EmptyString (md_artist m))
             (default EmptyString (md_album m)) (default EmptyString (md_album_artist m)) (default 0 (md_duration_ms m)) None)])
  | CoverReported bytes mime => (c, [Emit (AeCoverChanged connection bytes mime)])
  | ProgressReported p => (c, [Emit (AeProgressChanged connection (pr_position_ms p) (pr_duration_ms p))])
  end.

(** One turn of the loop: the connection goes on unless the answer cannot be
    written or the handler panics. *)
Definition serve_request (written finished : bool) (request : Request) (c : Conn) : bool * Conn * list Output :=
  match handle_request (audio c) device_id ports request with
  | Panic => (false, c, [])
  | Val (a, response, action) =>
      let c := c <| audio := a |> in
      if negb written then (false, c, [])
      else
        let '(c, out) := match action with Some action => perform finished action c | None => (c, []) end in
        (true, c, Answer response :: out)
  end.

(** [world] says of the n-th request whether its answer is written and whether
    the DACP task has finished by then. *)
Fixpoint serve_requests (world : nat → bool * bool) (n : nat) (l : list Request) (c : Conn) : Conn * list Output :=
  match l with
  | [] => (c, [])
  | request :: l =>
      let '(goes_on, c, out) := serve_request (world n).1 (world n).2 request c in
      if goes_on : bool then
        let '(c, out') := serve_requests world (S n) l c in (c, out ++ out')
      else (c, out)
  end.

(** What the connection does by itself, without the DACP task it starts.
    Binding its ports may fail.  Once they are bound, whatever the connection
    ends with, a panic included, the guard tells the end of the session, and
    then the DACP task is aborted. *)
Definition connection_outputs (peer : IpAddr) (bound : bool) (world : nat → bool * bool) (clean : bool) (chunks : list (list Z))
    : list Output :=
  let started := if peer_known then [Emit (AeSessionStarted connection peer)] else [] in
  if bound then
    let '(l, _) := read_requests clean [] chunks in
    let '(c, out) := serve_requests world 0 l conn_new in
    started ++ out ++ [Emit (AeSessionEnded connection)] ++ (if dacp_task c then [AbortDacp] else [])
  else started.
End connection.
End verbs.
