(* ===== verification/RtspProps.v ===== *)
(** * Properties of the control connection of an AirPlay sender

    Requests are cut out of the stream however it arrives, every request up to
    the first that cannot be is answered, and what the connection does by itself
    follows a protocol that ends it in every case. *)

From S2P Require Import Prelude StdTypes Digits Text Float64 Wire AllowList SpircData ApiData ApiServer ApiInv ApiProps Lines StdText Dmap Raop Rtsp.

Local Open Scope string_scope.
Local Open Scope list_scope.
Local Open Scope Z_scope.
Local Coercion Z.of_nat : nat >-> Z.

(** ** Requests on the wire *)

Definition request_lines (r : Request) : list string :=
  (method r +:+ " " +:+ uri r +:+ " RTSP/1.0") :: ((λ h, h.1 +:+ ": " +:+ h.2) <$> headers r).
Definition head_bytes (r : Request) : list Z := bytes_of (join CRLF (request_lines r)).
Definition wire (r : Request) : list Z := head_bytes r ++ [13; 10; 13; 10] ++ body r.

(** The sequence number of the last header that is named so. *)
Definition sequence_of (hs : list (string * string)) : option Z :=
  foldl (λ seq h, if eq_ignore_ascii_case h.1 "cseq" then result_ok (parse_uint u32_max h.2) else seq) None hs.

Definition header_ok (h : string * string) : Prop :=
  no_char ":" h.1 ∧ no_char "013" h.1 ∧ no_char "013" h.2 ∧ trim h.1 = h.1 ∧ trim h.2 = h.2.

(** A request a client may send. *)
Record wire_ok (r : Request) : Prop := {
  wo_method : no_char " " (method r) ∧ no_char "013" (method r);
  wo_uri : no_char " " (uri r) ∧ no_char "013" (uri r);
  wo_headers : Forall header_ok (headers r);
  wo_utf8 : utf8_ok (head_bytes r) = true;
  wo_cseq : cseq r = sequence_of (headers r);
  wo_length : content_length (headers r) = length (body r);
  wo_size : length (wire r) ≤ usize_max;
}.

Lemma bytes_of_app s t : bytes_of (s +:+ t) = bytes_of s ++ bytes_of t.
Proof. induction s as [|c s IH]; [done|]. rewrite string_cons_app. cbn. f_equal. apply IH. Qed.

Lemma string_of_bytes_of s : String.string_of_list_ascii (chr <$> bytes_of s) = s.
Proof.
  unfold bytes_of. rewrite <- list_fmap_compose. rewrite (list_fmap_ext _ id).
  - by rewrite list_fmap_id, String.string_of_list_ascii_of_string.
  - intros i c _. apply chr_code.
Qed.

Lemma no_cr_bytes s : no_char "013" s → 13 ∉ bytes_of s.
Proof.
  unfold no_char, bytes_of. rewrite list_elem_of_fmap. intros Hs (c & Hc & Hin).
  rewrite Forall_forall in Hs. apply (Hs c Hin). rewrite <- (chr_code c), <- Hc. done.
Qed.

(** ** The end of the head *)

Lemma find_double_crlf_skip b l : b ≠ 13 → find_double_crlf (b :: l) = S <$> find_double_crlf l.
Proof. intros Hb. unfold find_double_crlf. cbn [position_of]. rewrite decide_False; [done|]. simpl. congruence. Qed.

Lemma find_double_crlf_line l1 l2 :
  13 ∉ l1 → find_double_crlf (l1 ++ l2) = Nat.add (length l1) <$> find_double_crlf l2.
Proof.
  induction l1 as [|b l1 IH]; intros Hn; cbn [app length].
  { by destruct (find_double_crlf l2). }
  rewrite not_elem_of_cons in Hn. destruct Hn as [Hb Hn]. rewrite find_double_crlf_skip, IH by done.
  by destruct (find_double_crlf l2).
Qed.

Lemma find_double_crlf_lines ls rest :
  ls ≠ [] → Forall (λ s, s ≠ EmptyString ∧ no_char "013" s) ls →
  find_double_crlf (bytes_of (join CRLF ls) ++ [13; 10; 13; 10] ++ rest) = Some (length (bytes_of (join CRLF ls))).
Proof.
  intros _ Hls. induction Hls as [|s ls [Hne Hs] Hls IH]; [done|]. destruct ls as [|t ls].
  - cbn [join]. rewrite find_double_crlf_line by by apply no_cr_bytes.
    assert (find_double_crlf ([13; 10; 13; 10] ++ rest) = Some 0%nat) as -> by done.
    cbn [fmap option_fmap option_map]. by rewrite Nat.add_0_r.
  - change (join CRLF (s :: t :: ls)) with (s +:+ CRLF +:+ join CRLF (t :: ls)). set (u := join CRLF (t :: ls)) in *.
    assert (∃ c v, u = String c v ∧ c ≠ "013"%char) as (c & v & Hu & Hc).
    { apply Forall_cons in Hls as [[Ht Hcr] _]. destruct t as [|c t]; [done|]. apply no_char_cons in Hcr as [? _].
      subst u. destruct ls; eexists c, _; (split; [reflexivity|done]). }
    rewrite !bytes_of_app, <- !app_assoc, find_double_crlf_line by by apply no_cr_bytes. rewrite !length_app.
    change (bytes_of CRLF) with [13; 10]. cbn [app length]. revert IH. rewrite Hu.
    change (bytes_of (String c v)) with (code c :: bytes_of v). cbn [app length]. intros IH.
    assert (code c ≠ 13) as Hc13 by (intros E; apply Hc; rewrite <- (chr_code c), E; done).
    assert (find_double_crlf (13 :: 10 :: code c :: bytes_of v ++ 13 :: 10 :: 13 :: 10 :: rest) =
      S <$> find_double_crlf (10 :: code c :: bytes_of v ++ 13 :: 10 :: 13 :: 10 :: rest)) as ->.
    { unfold find_double_crlf at 1. cbn [position_of]. rewrite decide_False; [done|]. simpl. congruence. }
    rewrite (find_double_crlf_skip 10) by done. cbn [app] in IH. rewrite IH. cbn [fmap option_fmap option_map]. f_equal; lia.
Qed.

Lemma position_of_Some pattern l n :
  position_of pattern l = Some n →
  take (length pattern) (drop n l) = pattern ∧ ∀ m, take (length pattern) (drop m l) = pattern → (n ≤ m)%nat.
Proof.
  revert n. induction l as [|b l IH]; intros n; [done|]. cbn [position_of]. case_decide as Hd.
  { intros [= <-]. split; [done|lia]. }
  destruct (position_of pattern l) as [k|]; [|done]. intros [= <-]. destruct (IH k eq_refl) as [Hk Hmin]. split; [done|].
  intros [|m] Hm; [done|]. apply Hmin in Hm. lia.
Qed.

(** More data does not move what was found. *)
Lemma position_of_app pattern l1 l2 n :
  position_of pattern l1 = Some n → position_of pattern (l1 ++ l2) = Some n ∧ (n + length pattern ≤ length l1)%nat.
Proof.
  revert n. induction l1 as [|b l1 IH]; intros n; [done|]. cbn [position_of app]. case_decide as Hd.
  - intros [= <-]. assert (length pattern ≤ length (b :: l1))%nat as Hl
      by (apply (f_equal length) in Hd; rewrite length_take in Hd; lia).
    split; [|done]. rewrite decide_True; [done|]. change (b :: l1 ++ l2) with ((b :: l1) ++ l2). by rewrite take_app_le.
  - destruct (position_of pattern l1) as [k|]; [|done]. intros [= <-]. destruct (IH k eq_refl) as [Hk Hl]. split; [|simpl; lia].
    rewrite decide_False, Hk; [done|]. change (b :: l1 ++ l2) with ((b :: l1) ++ l2). rewrite take_app_le; [done|simpl; lia].
Qed.

(** Nothing is found in a prefix that ends before the match does. *)
Lemma find_double_crlf_prefix l n k :
  find_double_crlf l = Some n → (k < n + 4)%nat → find_double_crlf (take k l) = None.
Proof.
  intros Hn Hk. destruct (find_double_crlf (take k l)) as [m|] eqn:Hm; [|done].
  apply position_of_Some in Hn as [_ Hmin], Hm as [Hm _].
  rewrite skipn_firstn_comm, take_take in Hm. pose proof (f_equal length Hm) as Hlen.
  rewrite length_take in Hlen. change (length [13; 10; 13; 10]) with 4%nat in *. rewrite Nat.min_l in Hm by lia. apply Hmin in Hm. lia.
Qed.

(** ** One request *)

Lemma parse_headers_app hs acc seq :
  Forall header_ok hs →
  parse_headers ((λ h, h.1 +:+ ": " +:+ h.2) <$> hs) (acc, seq) =
    Ok (acc ++ hs, foldl (λ seq h, if eq_ignore_ascii_case h.1 "cseq" then result_ok (parse_uint u32_max h.2) else seq) seq hs).
Proof.
  intros Hhs. revert acc seq. induction Hhs as [|[n v] hs (Hc & _ & _ & Hn & Hv) Hhs IH]; intros acc seq.
  { by rewrite app_nil_r. }
  cbn [fmap list_fmap parse_headers foldl fst snd] in *. rewrite decide_False by by destruct n.
  change (": " +:+ v) with (String ":" (" " +:+ v)). rewrite split_once_app by done.
  assert (trim (" " +:+ v) = trim v) as -> by done. rewrite Hn, Hv, IH. by rewrite <- app_assoc.
Qed.

Lemma request_lines_ok r : wire_ok r → Forall (λ s, s ≠ EmptyString ∧ no_char "013" s) (request_lines r).
Proof.
  intros Hr. destruct (wo_method r Hr) as [_ Hm], (wo_uri r Hr) as [_ Hu]. constructor.
  - split; [by destruct (method r)|]. rewrite !no_char_app. repeat split; [done|by repeat constructor|done|]. by repeat constructor.
  - apply Forall_fmap. eapply Forall_impl; [apply (wo_headers r Hr)|]. intros [n v] (_ & Hn & Hv & _). simpl. split; [by destruct n|].
    rewrite !no_char_app. repeat split; [done| |done]. by repeat constructor.
Qed.

Lemma split_crlf_join ls : ls ≠ [] → Forall (no_char "013") ls → split_crlf (join CRLF ls) = ls.
Proof.
  intros Hne Hls. induction Hls as [|s ls Hs Hls IH]; [done|]. clear Hne. destruct ls as [|t ls]; [by apply split_crlf_id|].
  change (join CRLF (s :: t :: ls)) with (s +:+ String "013" (String "010" (join CRLF (t :: ls)))).
  rewrite split_crlf_app by done. by rewrite IH.
Qed.

Lemma wire_length r : length (wire r) = (length (head_bytes r) + 4 + length (body r))%nat.
Proof. unfold wire. rewrite !length_app. simpl. lia. Qed.

(** The head is read whatever follows it. *)
Lemma parse_head r rest :
  wire_ok r →
  parse (head_bytes r ++ [13; 10; 13; 10] ++ rest) =
    if decide (length (body r) ≤ length rest)%nat
    then Val (Ok (r <| body := take (length (body r)) rest |>, length (wire r))) else Val (Err BodyTooShort).
Proof.
  intros Hr. pose proof (request_lines_ok r Hr) as Hls. unfold parse.
  unfold head_bytes at 1. rewrite find_double_crlf_lines by done. fold (head_bytes r).
  rewrite take_app_length. unfold from_utf8. rewrite (wo_utf8 r Hr). unfold head_bytes at 1. rewrite string_of_bytes_of.
  rewrite split_crlf_join; [|done|by eapply Forall_impl; [exact Hls|by intros ? []]]. cbn [request_lines].
  destruct (wo_method r Hr) as [Hm _], (wo_uri r Hr) as [Hu _].
  change (" " +:+ uri r +:+ " RTSP/1.0") with (String " " (uri r +:+ String " " "RTSP/1.0")).
  rewrite split_app, split_app by done. rewrite parse_headers_app by apply Hr. cbn [app]. fold (sequence_of (headers r)).
  rewrite <- (wo_cseq r Hr), (wo_length r Hr). pose proof (wo_size r Hr) as Hsz. pose proof (wire_length r) as Hl.
  rewrite uadd_Val by lia. rewrite exec_bind_Val, length_app. cbn [length].
  destruct (decide (length (body r) ≤ length rest)%nat); [rewrite decide_True by lia|by rewrite decide_False by lia].
  replace (Z.to_nat _) with (length (wire r)) by lia. do 4 f_equal.
  transitivity (mkRequest (method r) (uri r) (cseq r) (headers r) (take (length (body r)) rest)); [|by destruct r].
  f_equal. rewrite Hl.
  change (head_bytes ?r ++ 13 :: 10 :: 13 :: 10 :: rest) with (head_bytes r ++ [13; 10; 13; 10] ++ rest).
  rewrite app_assoc. set (p := head_bytes _ ++ [13; 10; 13; 10]).
  assert (length (head_bytes r) + 4 = length p)%nat as Hp by (subst p; rewrite length_app; done).
  rewrite Hp, take_app_add, drop_app_length. done.
Qed.

Lemma parse_wire r rest : wire_ok r → parse (wire r ++ rest) = Val (Ok (r, length (wire r))).
Proof.
  intros Hr. unfold wire at 1. rewrite <- !app_assoc, parse_head by done.
  rewrite decide_True by (rewrite length_app; lia). rewrite take_app_length. by destruct r.
Qed.

(** What makes the connection read on. *)
Definition waits (data : list Z) : Prop := parse data = Val (Err EmptyRequest) ∨ parse data = Val (Err BodyTooShort).

Lemma parse_prefix r k : wire_ok r → (k < length (wire r))%nat → waits (take k (wire r)).
Proof.
  intros Hr Hk. pose proof (wire_length r) as Hl.
  assert (find_double_crlf (wire r) = Some (length (head_bytes r))) as Hf
    by (apply find_double_crlf_lines; [done|by apply request_lines_ok]).
  destruct (decide (k < length (head_bytes r) + 4)%nat).
  - left. unfold parse. by rewrite (find_double_crlf_prefix _ _ _ Hf).
  - right. unfold wire. rewrite app_assoc, take_app. rewrite take_ge by (rewrite length_app; simpl; lia).
    rewrite <- app_assoc, parse_head by done. rewrite decide_False; [done|].
    rewrite length_take, length_app. simpl. lia.
Qed.

(** ** The stream *)

Definition wires (rs : list Request) : list Z := concat (wire <$> rs).

Lemma drain_waits fuel data : waits data → drain fuel data = ([], inl data).
Proof. intros [H|H]; (destruct fuel; cbn [drain]; [done|by rewrite H]). Qed.

Lemma drain_wires rs tail fuel :
  Forall wire_ok rs → waits tail → (length rs ≤ fuel)%nat → drain fuel (wires rs ++ tail) = (rs, inl tail).
Proof.
  intros Hrs Ht. revert fuel. induction Hrs as [|r rs Hr Hrs IH]; intros fuel Hf; [by apply drain_waits|].
  destruct fuel as [|fuel]; simpl in Hf; [lia|]. unfold wires. cbn [drain fmap list_fmap concat]. rewrite <- app_assoc, parse_wire by done.
  rewrite drop_app_length. fold (wires rs). by rewrite IH by lia.
Qed.

Lemma wire_pos r : (0 < length (wire r))%nat.
Proof. rewrite wire_length. lia. Qed.

Lemma wires_length rs : (length rs ≤ length (wires rs))%nat.
Proof.
  induction rs as [|r rs IH]; unfold wires; cbn [fmap list_fmap concat length]; [lia|]. fold (wires rs).
  rewrite length_app. pose proof (wire_pos r). lia.
Qed.

(** The part of a stream that ends before its last request is complete. *)
Definition cut_short (tail : list Z) : Prop :=
  tail = [] ∨ ∃ r k, wire_ok r ∧ (k < length (wire r))%nat ∧ tail = take k (wire r).

Lemma waits_nil : waits [].
Proof. by left. Qed.

Lemma cut_short_waits tail k : cut_short tail → waits (take k tail).
Proof.
  intros [->|(r & j & Hr & Hj & ->)]; [rewrite take_nil; apply waits_nil|].
  rewrite take_take. apply parse_prefix; [done|lia].
Qed.

(** A prefix of the stream is some whole requests and the start of the next. *)
Lemma wires_prefix rs tail buf more :
  Forall wire_ok rs → cut_short tail → buf ++ more = wires rs ++ tail →
  ∃ rs1 rs2 p, rs = rs1 ++ rs2 ∧ buf = wires rs1 ++ p ∧ waits p ∧ p ++ more = wires rs2 ++ tail ∧
    (more = [] → rs2 = [] ∧ p = tail).
Proof.
  intros Hrs Ht. revert buf. induction Hrs as [|r rs Hr Hrs IH]; intros buf Heq.
  { exists [], [], buf. cbn in *. split_and!; [done..| |done|intros ->; by rewrite app_nil_r in Heq].
    replace buf with (take (length buf) tail) by (rewrite <- Heq; apply take_app_length). by apply cut_short_waits. }
  change (wires (r :: rs)) with (wire r ++ wires rs) in *.
  destruct (decide (length (wire r) ≤ length buf)%nat) as [Hle|Hgt].
  - assert (buf = wire r ++ drop (length (wire r)) buf) as Hb.
    { rewrite <- (take_drop (length (wire r)) buf) at 1. f_equal.
      apply (f_equal (take (length (wire r)))) in Heq. rewrite <- app_assoc, take_app_length in Heq.
      by rewrite take_app_le in Heq. }
    rewrite Hb, <- !app_assoc in Heq. apply app_inv_head in Heq. destruct (IH _ Heq) as (rs1 & rs2 & p & -> & Hd & Hp & He & Hend).
    exists (r :: rs1), rs2, p. rewrite Hb at 1. rewrite Hd. change (wires (r :: rs1)) with (wire r ++ wires rs1). by rewrite <- app_assoc.
  - exists [], (r :: rs), buf. change (wires (r :: rs)) with (wire r ++ wires rs). split_and!; [done..| |done|].
    + replace buf with (take (length buf) (wire r)); [by apply parse_prefix; [|lia]|].
      apply (f_equal (take (length buf))) in Heq. rewrite take_app_length, <- app_assoc in Heq. by rewrite take_app_le in Heq by lia.
    + intros ->. apply (f_equal length) in Heq. rewrite !length_app in Heq. simpl in Heq. lia.
Qed.

Lemma read_requests_wires clean chunks rs tail buf :
  Forall wire_ok rs → cut_short tail → buf ++ concat chunks = wires rs ++ tail →
  read_requests clean buf chunks =
    (rs, if clean then (if decide (tail = []) then CleanEof else MidRequest) else SocketError).
Proof.
  revert buf rs. induction chunks as [|chunk chunks IH]; intros buf rs Hrs Ht Heq;
    destruct (wires_prefix _ _ _ _ Hrs Ht Heq) as (rs1 & rs2 & p & -> & -> & Hp & He & Hend);
    apply Forall_app in Hrs as [Hrs1 Hrs2]; cbn [read_requests];
    rewrite drain_wires by (done || (rewrite length_app; pose proof (wires_length rs1); lia)).
  - destruct (Hend eq_refl) as [-> ->]. by rewrite app_nil_r.
  - rewrite (IH _ rs2); [done..|]. by rewrite <- app_assoc.
Qed.

(** ** Answers *)

Definition answer_of (o : Output) : option Response := match o with Answer r => Some r | _ => None end.
Definition event_of (o : Output) : option AirplayEvent := match o with Emit e => Some e | _ => None end.
Definition answers (out : list Output) : list Response := omap answer_of out.
Definition events (out : list Output) : list AirplayEvent := omap event_of out.

Definition VERBS : list string :=
  ["ANNOUNCE"; "SETUP"; "RECORD"; "TEARDOWN"; "FLUSH"; "OPTIONS"; "SET_PARAMETER"; "GET_PARAMETER"].

(** The answer to a request: its number, and a status that belongs to the verb. *)
Definition answers_to (request : Request) (response : Response) : Prop :=
  r_cseq response = cseq request ∧
  (status response = 200 ∧ method request ∈ VERBS ∨
   (method request, status response) ∈ [("ANNOUNCE", 456); ("SETUP", 451); ("RECORD", 455)] ∨
   status response = 501 ∧ method request ∉ VERBS).

Section answering.
Context `{RaopCrypto} `{Libm}.

Lemma apple_challenge_answers request ip device_id response :
  answers_to request response → answers_to request (apple_challenge request ip device_id response).
Proof. intros Ha. unfold apple_challenge. repeat case_match; done. Qed.

Lemma answers_200 request response :
  method request ∈ VERBS → r_cseq response = cseq request → status response = 200 → answers_to request response.
Proof. split; [done|by left]. Qed.

Lemma answers_error request code reason :
  (method request, code) ∈ [("ANNOUNCE", 456); ("SETUP", 451); ("RECORD", 455)] →
  answers_to request (response_new code reason (cseq request)).
Proof. split; [done|by right; left]. Qed.

Ltac verb_in E := rewrite E; repeat constructor.

Lemma handle_announce_answers audio request :
  method request = "ANNOUNCE" → answers_to request (handle_announce audio request).2.
Proof.
  intros E. unfold handle_announce. case_match; [apply answers_200; [verb_in E|done..]|apply answers_error; verb_in E].
Qed.

Lemma handle_setup_answers ports request :
  method request = "SETUP" → answers_to request (handle_legacy_setup ports request).1.
Proof.
  intros E. unfold handle_legacy_setup. do 2 try case_match;
    first [apply answers_200; [verb_in E|done..] | apply answers_error; verb_in E].
Qed.

Lemma handle_record_answers audio request : method request = "RECORD" → answers_to request (handle_record audio request).1.
Proof.
  intros E. unfold handle_record. case_match; [apply answers_200; [verb_in E|done..]|apply answers_error; verb_in E].
Qed.

Lemma handle_request_answers audio device_id ports request a response action :
  handle_request audio device_id ports request = Val (a, response, action) → answers_to request response.
Proof.
  unfold handle_request. intros Hv.
  match type of Hv with mbind _ ?m = _ => destruct m as [[[a' response'] action']|] eqn:Hm; [|done] end.
  rewrite exec_bind_Val in Hv. injection Hv as _ <- _. apply apple_challenge_answers. revert Hm.
  case_decide as E1.
  { pose proof (handle_announce_answers audio request E1) as Ha. destruct (handle_announce audio request). by intros [= _ <- _]. }
  case_decide as E2.
  { pose proof (handle_setup_answers ports request E2) as Ha. destruct (handle_legacy_setup ports request). by intros [= _ <- _]. }
  case_decide as E3.
  { pose proof (handle_record_answers audio request E3) as Ha. destruct (handle_record audio request). by intros [= _ <- _]. }
  case_decide as E4; [intros [= _ <- _]; apply answers_200; [verb_in E4|done..]|].
  case_decide as E5; [intros [= _ <- _]; apply answers_200; [verb_in E5|done..]|].
  case_decide as E6; [intros [= _ <- _]; apply answers_200; [verb_in E6|done..]|].
  case_decide as E7.
  { unfold handle_set_parameter. match goal with |- mbind _ (mbind _ ?m) = _ → _ => destruct m; [|done] end.
    intros [= _ <- _]. apply answers_200; [verb_in E7|done..]. }
  case_decide as E8; [intros [= _ <- _]; apply answers_200; [verb_in E8|unfold handle_get_parameter; by case_match..]|].
  intros [= _ <- _]. split; [done|]. right; right. split; [done|]. unfold VERBS. rewrite !not_elem_of_cons.
  repeat split; [done..|apply not_elem_of_nil].
Qed.

(** A request whose handler panics: a progress line whose times do not fit. *)
Definition overflows (request : Request) : Prop :=
  method request = "SET_PARAMETER" ∧ text_parameters (from_utf8_lossy (body request)) = Panic ∧
  ∃ ct, find_header "Content-Type" (headers request) = Some ct ∧ starts_with "text/parameters" ct = true.

Lemma handle_set_parameter_Panic request :
  handle_set_parameter request = Panic →
  text_parameters (from_utf8_lossy (body request)) = Panic ∧
  ∃ ct, find_header "Content-Type" (headers request) = Some ct ∧ starts_with "text/parameters" ct = true.
Proof.
  unfold handle_set_parameter. intros E. destruct (find_header _ _) as [ct|]; [|done]. destruct (starts_with "text/parameters" ct) eqn:Hct.
  { destruct (text_parameters _); [done|]. split; [done|]. by exists ct. }
  revert E. destruct (starts_with "application/x-dmap-tagged" ct); [done|]. by destruct (starts_with "image/" ct).
Qed.

Lemma handle_request_Panic audio device_id ports request :
  handle_request audio device_id ports request = Panic ↔ overflows request.
Proof.
  split.
  - unfold handle_request. destruct (handle_announce audio request), (handle_legacy_setup ports request), (handle_record audio request).
    repeat case_decide; rewrite ?exec_bind_Val; try done.
    destruct (handle_set_parameter request) as [[response action]|] eqn:E; [done|]. intros _. split; [done|].
    by apply handle_set_parameter_Panic.
  - intros (Hm & Ht & ct & Hct & Hs). unfold handle_request. rewrite Hm. unfold handle_set_parameter. by rewrite Hct, Hs, Ht.
Qed.

Section connection.
Context (connection : Z) (peer_known : bool) (device_id : list Z) (ports : RtpPorts).

Lemma answers_app out1 out2 : answers (out1 ++ out2) = answers out1 ++ answers out2.
Proof. apply omap_app. Qed.

Lemma perform_answers finished action c : answers (perform connection peer_known finished action c).2 = [].
Proof. destruct action; simpl; repeat case_match; done. Qed.

(** The requests that are served: those before the first whose answer cannot
    be written or whose handler panics. *)
Definition served (world : nat → bool * bool) (n : nat) (l : list Request) (k : nat) : Prop :=
  (∀ j r, (j < k)%nat → l !! j = Some r → (world (n + j)%nat).1 = true ∧ ¬ overflows r) ∧
  (k = length l ∨ ∃ r, l !! k = Some r ∧ ((world (n + k)%nat).1 = false ∨ overflows r)).

Lemma served_cons world n r l k :
  (world n).1 = true → ¬ overflows r → served world (S n) l k → served world n (r :: l) (S k).
Proof.
  intros Hw Hr [Hb Hk]. split.
  - intros [|j] r' Hj Hl; [injection Hl as <-; by rewrite Nat.add_0_r|]. rewrite Nat.add_succ_r. apply (Hb j r'); [lia|done].
  - destruct Hk as [->|(r' & Hl & Hf)]; [by left|right]. exists r'. rewrite Nat.add_succ_r. by split.
Qed.

Lemma serve_requests_answers world l : ∀ n c,
  ∃ k, served world n l k ∧
    Forall2 answers_to (take k l) (answers (serve_requests connection peer_known device_id ports world n l c).2).
Proof.
  induction l as [|r l IH]; intros n c.
  { exists 0%nat. split; [|constructor]. split; [lia|by left]. }
  cbn [serve_requests]. unfold serve_request.
  assert ((world n).1 = false ∨ overflows r → served world n (r :: l) 0) as Hstop.
  { intros Hf. split; [lia|]. right. exists r. by rewrite Nat.add_0_r. }
  destruct (handle_request (audio c) device_id ports r) as [[[a response] action]|] eqn:E; cycle 1.
  { apply handle_request_Panic in E. exists 0%nat. split; [auto|constructor]. }
  destruct (world n).1 eqn:Hw; cbn [negb]; [|exists 0%nat; split; [auto|constructor]].
  assert (¬ overflows r) as Hr by (rewrite <- (handle_request_Panic (audio c) device_id ports); congruence).
  apply handle_request_answers in E. pose proof (λ act c, perform_answers (world n).2 act c) as Hp.
  destruct action as [act|]; [specialize (Hp act (c <| audio := a |>)); destruct (perform _ _ _ _ _) as [c1 out1]|];
    match goal with |- context [serve_requests _ _ _ _ _ ?m l ?c] =>
      destruct (IH m c) as (k & Hk & Ha); destruct (serve_requests _ _ _ _ _ m l c) end;
    (exists (S k); split; [by apply served_cons|]); cbn [snd take] in *; rewrite answers_app;
    [change (answers (Answer response :: out1)) with (response :: answers out1); rewrite Hp|]; by constructor.
Qed.

(** ** The protocol of a connection *)

Definition event_connection (e : AirplayEvent) : Z :=
  match e with
  | AeSessionStarted c _ | AeDacpAvailable c _ _ _ _ _ _ | AePlaybackChanged c _ _ | AeTrackChanged c _ _ _ _ _ _
  | AeCoverChanged c _ _ | AeProgressChanged c _ _ | AeVolumeChanged c _ | AeSessionEnded c => c
  end.

(** What an observer of a connection keeps: whether a DACP task is alive,
    whether audio was ever received, whether it is now, and whether playing
    was told. *)
Record Monitor := mkMonitor { dacp_alive : bool; received : bool; receiving : bool; told : bool }.
Definition monitor_new : Monitor := mkMonitor false false false false.

(** [None] is a violation. *)
Definition monitor_step (m : Monitor) (o : Output) : option Monitor :=
  let '(mkMonitor d r g t) := m in
  match o with
  | Answer _ | SetGain _ => Some m
  | StartDacp _ _ => if d then None else Some (mkMonitor true r g t)
  | AbortDacp => if d then Some (mkMonitor false r g t) else None
  | StartReceive _ => if r then None else Some (mkMonitor d true true t)
  | AbortReceive => if g then Some (mkMonitor d r false t) else None
  | Emit e =>
      if decide (event_connection e = connection) then
        match e with
        | AePlaybackChanged _ true _ => if r && negb t then Some (mkMonitor d r g true) else None
        | _ => Some m
        end
      else None
  end.
Fixpoint monitor (m : Monitor) (out : list Output) : option Monitor :=
  match out with [] => Some m | o :: out => m ← monitor_step m o; monitor m out end.

Lemma monitor_app m out1 out2 : monitor m (out1 ++ out2) = (m ← monitor m out1; monitor m out2).
Proof. revert m. induction out1 as [|o out1 IH]; intros m; [done|]. simpl. destruct (monitor_step m o); [apply IH|done]. Qed.

Record tracks (c : Conn) (m : Monitor) : Prop := {
  tr_dacp : dacp_alive m = dacp_task c;
  tr_received : received m = true → data_socket c = false;
  tr_receiving : receiving m = recording_task c;
  tr_told : told m = received m;
}.

Lemma tracks_audio c m a : tracks c m → tracks (c <| audio := a |>) m.
Proof. by destruct 1. Qed.

Lemma perform_tracks finished action c m :
  tracks c m →
  ∃ m', monitor m (perform connection peer_known finished action c).2 = Some m' ∧
    tracks (perform connection peer_known finished action c).1 m'.
Proof.
  destruct c as [a ds rt dt ld], m as [d r g t]. intros [Hd Hr Hg Ht]. simpl in *. subst.
  destruct action; simpl; rewrite ?decide_True by done.
  - destruct ds; [|by eexists]. destruct a as [session|]; [|eexists; split; [done|by constructor]].
    destruct r; [by specialize (Hr eq_refl)|]. simpl. rewrite decide_True by done. eexists. split; [done|by constructor].
  - destruct rt, dt; simpl; repeat (rewrite decide_True by done; simpl); (eexists; split; [done|by constructor]).
  - by eexists.
  - case_match; [by eexists|]. destruct peer_known; [|by eexists]. destruct dt; (eexists; split; [done|by constructor]).
  - by eexists.
  - by eexists.
  - by eexists.
Qed.

Lemma serve_requests_tracks world n l c m :
  tracks c m →
  ∃ m', monitor m (serve_requests connection peer_known device_id ports world n l c).2 = Some m' ∧
    tracks (serve_requests connection peer_known device_id ports world n l c).1 m'.
Proof.
  revert n c m. induction l as [|r l IH]; intros n c m Ht; [by eexists|]. cbn [serve_requests]. unfold serve_request.
  destruct (handle_request _ _ _ _) as [[[a response] action]|]; [|by eexists]. apply (tracks_audio _ _ a) in Ht.
  destruct (world n).1; cbn [negb]; [|by eexists].
  assert (∀ c1 out1 m1, monitor m out1 = Some m1 → tracks c1 m1 →
    ∃ m', monitor m (let '(c, out') := serve_requests connection peer_known device_id ports world (S n) l c1 in
                     (c, (Answer response :: out1) ++ out')).2 = Some m' ∧
      tracks (let '(c, out') := serve_requests connection peer_known device_id ports world (S n) l c1 in
              (c, (Answer response :: out1) ++ out')).1 m') as Hgo.
  { intros c1 out1 m1 Hm1 Ht1. destruct (IH (S n) c1 m1 Ht1) as (m' & Hm' & Ht'). destruct (serve_requests _ _ _ _ _ _ _ _) as [c2 out2].
    exists m'. split; [|done]. cbn [snd app monitor]. destruct m as [d1 r1 g1 t1]. cbn [monitor_step mbind option_bind].
    rewrite monitor_app, Hm1. done. }
  destruct action as [act|]; [|by apply (Hgo _ [] m)].
  destruct (perform_tracks (world n).2 act _ m Ht) as (m1 & Hm1 & Ht1). destruct (perform _ _ _ _ _) as [c1 out1]. by apply (Hgo _ _ m1).
Qed.
End connection.
End answering.

(** ** The connection and the rest of the program *)

Section session.
Context `{RaopCrypto} `{Libm}.
Context (connection : Z) (peer_known : bool) (device_id : list Z) (ports : RtpPorts) (peer : IpAddr).

Lemma last_event world clean chunks :
  last (events (connection_outputs connection peer_known device_id ports peer true world clean chunks)) =
    Some (AeSessionEnded connection).
Proof.
  unfold connection_outputs, events. destruct (read_requests clean [] chunks) as [l stop].
  destruct (serve_requests _ _ _ _ _ _ _ _) as [c out]. rewrite app_assoc, omap_app.
  destruct (dacp_task c); simpl; by rewrite last_snoc.
Qed.

Lemma outputs_monitored world clean chunks :
  ∃ m, monitor connection monitor_new (connection_outputs connection peer_known device_id ports peer true world clean chunks) = Some m ∧
    dacp_alive m = false.
Proof.
  unfold connection_outputs. destruct (read_requests clean [] chunks) as [l stop].
  assert (tracks conn_new monitor_new) as Hnew by done.
  destruct (serve_requests_tracks connection peer_known device_id ports world 0 l _ _ Hnew) as (m & Hm & Ht).
  destruct (serve_requests _ _ _ _ _ _ _ _) as [c out]. cbn [fst snd] in *.
  assert (monitor connection monitor_new (if peer_known then [Emit (AeSessionStarted connection peer)] else []) = Some monitor_new) as Hs
    by (destruct peer_known; simpl; by rewrite ?decide_True).
  rewrite monitor_app, Hs. cbn [mbind option_bind]. rewrite monitor_app, Hm. cbn [mbind option_bind].
  pose proof (tr_dacp _ _ Ht) as Hd. destruct m as [d r g t]. simpl in Hd. subst d.
  destruct (dacp_task c); simpl; rewrite decide_True by done; by eexists.
Qed.
End session.

(** ** Instances *)

#[local] Instance toy_crypto : RaopCrypto := {|
  base64_std _ := Some [1; 2; 3];
  base64_no_pad _ := None;
  base64_no_pad_encode b := String.string_of_list_ascii (chr <$> b);
  rsa_decrypt b := Some b;
  rsa_sign b := Some [65; 66];
  aes_cbc_decrypt _ _ b := b;
|}.
#[local] Instance toy_libm : Libm := {| powf x _ := x; powi x _ := x; log10 x := x; exp x := x; ln x := x |}.
#[local] Existing Instance ApiProps.toy_serde.
#[local] Existing Instance ApiProps.toy_laws.

Definition example_ports : RtpPorts := mkRtpPorts 7000 7001 7002 (V4 [192; 168; 0; 2]).
Definition example_id : list Z := [2; 0; 0; 0; 0; 1].

Definition announce : Request :=
  let body := bytes_of ("a=fmtp:96 352 0 16 40 10 14 2 255 0 0 44100" +:+ CRLF) in
  mkRequest "ANNOUNCE" "rtsp://192.168.0.2/1" (Some 1)
    [("CSeq", "1"); ("Apple-Challenge", "AQID"); ("Content-Length", display (length body))] body.
Definition setup : Request :=
  mkRequest "SETUP" "rtsp://192.168.0.2/1" (Some 2)
    [("CSeq", "2"); ("Transport", "RTP/AVP/UDP;control_port=1;timing_port=2"); ("DACP-ID", "0A"); ("Active-Remote", "9")] [].
Definition record : Request := mkRequest "RECORD" "rtsp://192.168.0.2/1" (Some 3) [("CSeq", "3")] [].
Definition pause : Request := mkRequest "PAUSE" "*" (Some 4) [("CSeq", "4")] [].

Lemma examples_ok : Forall wire_ok [announce; setup; record; pause].
Proof.
  repeat constructor; try apply Forall_singleton; repeat constructor; try (vm_compute; congruence); by vm_compute.
Qed.

(** Three requests and the start of a fourth; seven bytes at a time. *)
Definition stream : list Z := wires [announce; setup; record] ++ take 20 (wire pause).
Fixpoint cut (fuel : nat) (l : list Z) : list (list Z) :=
  match fuel, l with
  | O, _ => [l]
  | S _, [] => []
  | S fuel, _ => take 7 l :: cut fuel (drop 7 l)
  end.

(** The answers themselves: the challenge signed, the ports told. *)
Lemma dialogue_example :
  status <$> answers (connection_outputs 7 true example_id example_ports (V4 [192; 168; 0; 9]) true (λ _, (true, false)) true [stream]) =
    [200; 200; 200] ∧
  events (connection_outputs 7 true example_id example_ports (V4 [192; 168; 0; 9]) true (λ _, (true, false)) true [stream]) =
    [AeSessionStarted 7 (V4 [192; 168; 0; 9]); AePlaybackChanged 7 true 0; AeSessionEnded 7].
Proof. vm_compute. done. Qed.

(** ** Corner cases *)

(** The socket for the audio is used up by the first [RECORD]: later ones are
    answered with success and play nothing, a new [ANNOUNCE] and [SETUP] notwithstanding. *)
Lemma second_record_silent connection peer_known device_id ports finished c session :
  data_socket c = false → audio c = Some session →
  ∃ response, serve_request connection peer_known device_id ports true finished record c = (true, c, [Answer response]) ∧
    status response = 200.
Proof.
  destruct c as [a ds rt dt ld]. simpl. intros -> ->. eexists. split; [reflexivity|done].
Qed.

(** A length that cannot be added to the position of the body ends the task in a panic. *)
Lemma content_length_overflows :
  parse (bytes_of ("OPTIONS * RTSP/1.0" +:+ CRLF +:+ "Content-Length: 18446744073709551615" +:+ CRLF +:+ CRLF)) = Panic.
Proof. vm_compute. done. Qed.
