(* ===== verification/Dacp.v ===== *)
(** * Controlling the sender of an AirPlay session: [airplay/src/dacp.rs]

    The requests to the DACP server of a sender and its answers, and the task
    of [rtsp/connection.rs] that polls it. *)

From S2P Require Import Prelude StdTypes Digits Text Wire AllowList SpircData ApiData Lines StdText Dmap Rtsp.

Local Open Scope string_scope.
Local Open Scope list_scope.
Local Open Scope Z_scope.
Local Coercion Z.of_nat : nat >-> Z.

(** ** Where the server is *)

(** [SocketAddr]: the scope belongs to addresses of version 6. *)
Definition socket_addr (self : DacpTarget) : IpAddr * Z * Z :=
  match host self with
  | V6 _ => (host self, port self, scope_id self)
  | V4 _ => (host self, port self, 0)
  end.

Fixpoint machine_loop (parts : list string) (number : Z) (bytes : nat) : Z :=
  match parts with
  | [] => if decide (bytes = 6%nat) then number else 0
  | part :: parts =>
      match from_str_radix u8_max 16 part with
      | Err _ => 0
      | Ok byte => machine_loop parts (Z.lor (Z.land (Z.shiftl number 8) u64_max) byte) (S bytes)
      end
  end.
Definition machine_number (device_id : string) : Z := machine_loop (split ":" device_id) 0 0.

Fixpoint trim_start_matches (c : ascii) (s : string) : string :=
  match s with
  | String d s' => if decide (d = c) then trim_start_matches c s' else s
  | EmptyString => EmptyString
  end.

Definition matches_dacp_id (fullname dacp_id : string) : bool :=
  match strip_prefix "iTunes_Ctrl_" fullname with
  | None => false
  | Some rest =>
      match split "." rest with
      | [] => false
      | advertised :: _ =>
          let advertised := trim_start_matches "0" advertised in
          let wanted := trim_start_matches "0" dacp_id in
          negb (bool_decide (advertised = EmptyString)) && bool_decide (advertised = wanted)
      end
  end.

(** The daemon may fail to start or to browse; then it reports services until
    the time is up. *)
Definition resolve_port (browses : bool) (resolved : list (string * Z)) (dacp_id : string) : option Z :=
  if browses then snd <$> head (filter (λ s, matches_dacp_id s.1 dacp_id = true) resolved) else None.

(** ** One request *)

(** [Display] of [IpAddr]: the first of the longest runs of zeros is left out
    of an address of version 6. *)
Fixpoint longest_zeros (i : nat) (current longest : nat * nat) (l : list Z) : nat * nat :=
  match l with
  | [] => longest
  | s :: l =>
      if decide (s = 0) then
        let current := if decide (current.2 = 0%nat) then (i, 1%nat) else (current.1, S current.2) in
        longest_zeros (S i) current (if decide (longest.2 < current.2)%nat then current else longest) l
      else longest_zeros (S i) (0%nat, 0%nat) longest l
  end.
Fixpoint segments (o : list Z) : list Z :=
  match o with a :: b :: o => a * 256 + b :: segments o | _ => [] end.
Definition fmt_segments (l : list Z) : string := join ":" (fmt_radix 16 <$> l).
Definition display_ip (a : IpAddr) : string :=
  match a with
  | V4 o => join "." (display <$> o)
  | V6 o =>
      let s := segments o in
      if decide (take 6 s = [0; 0; 0; 0; 0; 0xffff]) then "::ffff:" +:+ join "." (display <$> drop 12 o)
      else
        let '(start, len) := longest_zeros 0 (0%nat, 0%nat) (0%nat, 0%nat) s in
        if decide (1 < len)%nat
        then fmt_segments (take start s) +:+ "::" +:+ fmt_segments (drop (start + len) s)
        else fmt_segments s
  end.

Definition request_text (target : DacpTarget) (path : string) : string :=
  "GET " +:+ path +:+ " HTTP/1.1" +:+ CRLF +:+ "Host: " +:+ display_ip (host target) +:+ ":" +:+ display (port target) +:+ CRLF +:+
  "Active-Remote: " +:+ active_remote target +:+ CRLF +:+ CRLF.

(** What a read gives before the deadline; nothing more is a timeout. *)
Inductive Read := Piece (bytes : list Z) | Closed | ReadError.

Definition status_has_no_body (status : Z) : bool :=
  bool_decide (100 ≤ status ≤ 199) || bool_decide (status = 204) || bool_decide (status = 304).

Definition find_crlf (data : list Z) : option nat := position_of [13; 10] data.

(** [None] is to read on.  The end of a chunk may overflow. *)
Fixpoint chunk_loop (fuel : nat) (bytes : list Z) (body : list Z) : exec (option (list Z)) :=
  match fuel with
  | O => Val None
  | S fuel =>
      match find_crlf bytes with
      | None => Val None
      | Some line_end =>
          match from_utf8 (take line_end bytes) with
          | None => Val None
          | Some header =>
              match from_str_radix usize_max 16 (trim (default EmptyString (head (split ";" header)))) with
              | Err _ => Val None
              | Ok size =>
                  if decide (size = 0) then Val (Some body)
                  else
                    let start := (line_end + 2)%nat in
                    chunk_end ← uadd usize_max start size;
                    if decide (length bytes < chunk_end) then Val None
                    else
                      next ← uadd usize_max chunk_end 2;
                      if decide (length bytes < next) then Val None
                      else chunk_loop fuel (drop (Z.to_nat next) bytes) (body ++ drop start (take (Z.to_nat chunk_end) bytes))
              end
          end
      end
  end.
Definition decode_chunked (bytes : list Z) : exec (option (list Z)) := chunk_loop (S (length bytes)) bytes [].

Inductive Framing := FramingEmpty | Chunked | Length (len : Z) | UntilClose.

Definition header_value (wanted : string) (headers : string) : option string :=
  head (omap (λ line, '(name, value) ← split_once ":" line;
                      if eq_ignore_ascii_case name wanted then Some (trim value) else None) (tail (lines headers))).

Definition framing_of (status : Z) (headers : string) : Framing :=
  let content_length := header_value "content-length" headers ≫= λ v, result_ok (parse_uint usize_max v) in
  let chunked :=
    match header_value "transfer-encoding" headers with
    | Some v => existsb (λ v, eq_ignore_ascii_case (trim v) "chunked") (split "," v)
    | None => false
    end in
  if status_has_no_body status then FramingEmpty
  else if chunked then Chunked
  else match content_length with Some len => Length len | None => UntilClose end.

Definition complete (framing : Framing) (body_start : nat) (raw : list Z) : exec bool :=
  match framing with
  | FramingEmpty => Val true
  | Chunked => b ← decode_chunked (drop body_start raw); Val (bool_decide (is_Some b))
  | Length len => e ← uadd usize_max body_start len; Val (bool_decide (e ≤ length raw))
  | UntilClose => Val false
  end.

Definition body_of (framing : Framing) (body_start : nat) (raw : list Z) : exec (list Z) :=
  match framing with
  | FramingEmpty => Val []
  | Chunked => b ← decode_chunked (drop body_start raw); Val (default [] b)
  | Length len => e ← uadd usize_max body_start len; Val (drop body_start (take (Z.to_nat e) raw))
  | UntilClose => Val (drop body_start raw)
  end.

(** The status and the headers as text. *)
Definition parse_status (head_bytes : list Z) : option (Z * string) :=
  let headers := from_utf8_lossy head_bytes in
  status_line ← head (lines headers);
  code ← nth_error (split_whitespace status_line) 1;
  status ← result_ok (parse_uint u16_max code);
  Some (status, headers).

Fixpoint read_head (raw : list Z) (reads : list Read) : option (nat * list Z * list Read) :=
  match find_double_crlf raw with
  | Some pos => Some (pos, raw, reads)
  | None =>
      match reads with
      | Piece b :: reads => read_head (raw ++ b) reads
      | _ => None
      end
  end.

Fixpoint read_body (framing : Framing) (body_start : nat) (raw : list Z) (reads : list Read) : exec (list Z) :=
  done ← complete framing body_start raw;
  if done : bool then Val raw
  else match reads with
  | Piece b :: reads => read_body framing body_start (raw ++ b) reads
  | _ => Val raw
  end.

(** [connects]: the connection is made and the request is sent. *)
Definition get (connects : bool) (reads : list Read) : exec (option (Z * string * list Z)) :=
  if negb connects then Val None
  else match read_head [] reads with
  | None => Val None
  | Some (header_end, raw, reads) =>
      match parse_status (take header_end raw) with
      | None => Val None
      | Some (status, headers) =>
          let body_start := (header_end + 4)%nat in
          let framing := framing_of status headers in
          raw ← read_body framing body_start raw reads;
          body ← body_of framing body_start raw;
          Val (Some (status, headers, body))
      end
  end.

(** ** The endpoints *)

Definition command_path (command : string) : string := "/ctrl-int/1/" +:+ command.
Definition STATUS_PATH : string := command_path "playstatusupdate?revision-number=1".
Definition VOLUME_PATH : string := command_path "getproperty?properties=dmcp.volume".
Definition artwork_path (width height : Z) : string :=
  command_path ("nowplayingartwork?mw=" +:+ display width +:+ "&mh=" +:+ display height).
Definition volume_command (target : DacpTarget) (percent : Z) : string :=
  "setproperty?include-speaker-id=" +:+ display (ApiData.machine_number target) +:+ "&dmcp.volume=" +:+ display (Z.min percent 100).

Definition poll_status (answer : option (Z * string * list Z)) : option PlayStatus :=
  match answer with
  | Some (status, _, body) =>
      if decide (status = 200) then Some (parse_play_status body)
      else if decide (status = 400) then Some PlayStatus_default
      else None
  | None => None
  end.

Definition get_volume (answer : option (Z * string * list Z)) : option Z :=
  match answer with
  | Some (status, _, body) =>
      if decide (status ≠ 200) then None
      else match parse_volume body with
      | Some volume => if decide (0 ≤ volume ≤ 100) then Some volume else None
      | None => None
      end
  | None => None
  end.

Definition fetch_artwork (answer : option (Z * string * list Z)) : option (list Z) :=
  match answer with
  | Some (status, _, body) => if decide (status ≠ 200 ∨ body = []) then None else Some body
  | None => None
  end.

(** ** The poll *)

Definition HttpAnswer : Type := option (Z * string * list Z).

(** What the server answers in one turn of the loop, in case it is asked. *)
Record Poll := mkPoll { status_answer : HttpAnswer; artwork_answer : HttpAnswer; volume_answer : HttpAnswer }.

Record PollState := mkPollState {
  last_playing : option bool;
  last_track : option (string * string * string);
  last_volume : option Z;
}.
#[export] Instance settable_PollState : Settable PollState := λ r, mkPollState (last_playing r) (last_track r) (last_volume r).

Definition status_track (s : PlayStatus) : string * string * string :=
  (default EmptyString (st_title s), default EmptyString (st_artist s), default EmptyString (st_album s)).
Definition track_known (s : PlayStatus) : bool :=
  bool_decide (is_Some (st_title s)) || bool_decide (is_Some (st_artist s)) || bool_decide (is_Some (st_album s)).

Section poll.
Context (connection : Z).

Definition poll_playing (s : PlayStatus) (st : PollState) : PollState * list AirplayEvent :=
  match st_playing s with
  | Some playing =>
      if decide (Some playing ≠ last_playing st) then
        (st <| last_playing := Some playing |>, [AePlaybackChanged connection playing (default 0 (st_position_ms s))])
      else (st, [])
  | None => (st, [])
  end.

Definition poll_track (s : PlayStatus) (artwork : option (list Z)) (st : PollState) : PollState * list AirplayEvent :=
  let track := status_track s in
  if track_known s && bool_decide (Some track ≠ last_track st) then
    (st <| last_track := Some track |>,
     [AeTrackChanged connection track.1.1 track.1.2 track.2 EmptyString (default 0 (st_duration_ms s))
        ((λ b, (b, sniff_image_mime b)) <$> artwork)])
  else (st, []).

Definition poll_volume (volume : option Z) (st : PollState) : PollState * list AirplayEvent :=
  match volume with
  | Some percent =>
      if decide (Some percent ≠ last_volume st) then
        (st <| last_volume := Some percent |>, [AeVolumeChanged connection percent])
      else (st, [])
  | None => (st, [])
  end.

(** One turn: a status that cannot be had ends it. *)
Definition poll_turn (p : Poll) (st : PollState) : PollState * list AirplayEvent :=
  match poll_status (status_answer p) with
  | None => (st, [])
  | Some s =>
      let '(st, e1) := poll_playing s st in
      let '(st, e2) := poll_track s (fetch_artwork (artwork_answer p)) st in
      let '(st, e3) := poll_volume (get_volume (volume_answer p)) st in
      (st, e1 ++ e2 ++ e3)
  end.

Fixpoint poll_loop (polls : list Poll) (st : PollState) : list AirplayEvent :=
  match polls with
  | [] => []
  | p :: polls => let '(st, e) := poll_turn p st in e ++ poll_loop polls st
  end.

(** The task until it is aborted, after [polls]. *)
Definition resolve_and_poll_dacp (host : IpAddr) (scope_id : Z) (active_remote dacp_id : string) (machine_number : Z)
    (bind_ip : list IpAddr) (browses : bool) (resolved : list (string * Z)) (polls : list Poll) : list AirplayEvent :=
  match resolve_port browses resolved dacp_id with
  | None => []
  | Some port =>
      let local_bind := head (filter (λ ip, is_ipv4 ip = is_ipv4 host) bind_ip) in
      AeDacpAvailable connection host port active_remote machine_number scope_id local_bind ::
      poll_loop polls (mkPollState None None None)
  end.
End poll.
