(* ===== verification/DacpProps.v ===== *)
(** * Properties of the control of a sender

    An answer is the same however it arrives, and the poll reports exactly the
    changes of what it is told. *)

From S2P Require Import Prelude StdTypes Digits Text Wire AllowList SpircData ApiData Lines StdText Dmap Rtsp RtspProps Dacp.

Local Open Scope string_scope.
Local Open Scope list_scope.
Local Open Scope Z_scope.
Local Coercion Z.of_nat : nat >-> Z.

(** ** Answers in pieces *)

(** The answer when all of [raw] is there at once; [None] when it is not complete. *)
Definition answer_at_once (raw : list Z) : exec (option (Z * string * list Z)) :=
  match find_double_crlf raw with
  | None => Val None
  | Some header_end =>
      match parse_status (take header_end raw) with
      | None => Val None
      | Some (status, headers) =>
          let framing := framing_of status headers in
          whole ← complete framing (header_end + 4) raw;
          if whole : bool then body ← body_of framing (header_end + 4) raw; Val (Some (status, headers, body)) else Val None
      end
  end.

(** Chunks read off a prefix are read off the whole. *)
Lemma chunk_loop_prefix fuel fuel' p m body b :
  chunk_loop fuel (p ++ m) body = Val (Some b) →
  chunk_loop fuel' p body = Val None ∨ chunk_loop fuel' p body = Val (Some b).
Proof.
  revert fuel p body. induction fuel' as [|fuel' IH]; intros fuel p body Hw; [by left|].
  cbn [chunk_loop]. destruct (find_crlf p) as [k|] eqn:Hk; [|by left].
  destruct fuel as [|fuel]; [done|]. cbn [chunk_loop] in Hw. destruct (position_of_app _ _ m _ Hk) as [Hk' Hlen].
  unfold find_crlf in Hw. rewrite Hk', take_app_le in Hw by (simpl in Hlen; lia).
  destruct (from_utf8 (take k p)) as [header|]; [|by left].
  destruct (from_str_radix _ _ _) as [size|]; [|by left]. case_decide; [by right; simplify_eq|].
  destruct (uadd usize_max (k + 2)%nat size) as [e|] eqn:He; [|done]. rewrite exec_bind_Val in Hw |- *.
  destruct (decide (length p < e)) as [|Hle]; [by left|].
  rewrite decide_False in Hw by (rewrite length_app; lia).
  destruct (uadd usize_max e 2) as [n|] eqn:Hn; [|done]. rewrite exec_bind_Val in Hw |- *.
  destruct (decide (length p < n)) as [|Hle']; [by left|]. rewrite decide_False in Hw by (rewrite length_app; lia).
  rewrite drop_app_le, take_app_le in Hw by lia. by apply (IH fuel).
Qed.

(** As far as the head reaches, completeness is final. *)
Lemma complete_prefix framing s p m :
  (s ≤ length p)%nat → complete framing s (p ++ m) = Val true →
  complete framing s p = Val false ∨
  complete framing s p = Val true ∧ body_of framing s p = body_of framing s (p ++ m).
Proof.
  intros Hs. destruct framing as [| |len|]; cbn [complete body_of].
  - intros _. by right.
  - rewrite drop_app_le by done. unfold decode_chunked. intros Hc.
    destruct (chunk_loop _ (drop s p ++ m) []) as [[b|]|] eqn:Hw; [|done..].
    destruct (chunk_loop_prefix _ (S (length (drop s p))) _ _ _ _ Hw) as [->| ->]; [by left|by right].
  - destruct (uadd usize_max s len) as [e|] eqn:He; [|done]. rewrite !exec_bind_Val. intros [= Hc%bool_decide_eq_true].
    destruct (decide (e ≤ length p)) as [Hle|Hgt]; [right|left; by rewrite bool_decide_false].
    rewrite bool_decide_true by done. split; [done|]. by rewrite take_app_le by lia.
  - done.
Qed.

Definition pieces (l : list (list Z)) : list Read := Piece <$> l.

Lemma read_head_pieces l p rest pos :
  find_double_crlf (p ++ concat l) = Some pos →
  ∃ l1 l2, l = l1 ++ l2 ∧ read_head p (pieces l ++ rest) = Some (pos, p ++ concat l1, pieces l2 ++ rest) ∧
    (pos + 4 ≤ length (p ++ concat l1))%nat.
Proof.
  revert p. induction l as [|b l IH]; intros p Hf.
  - exists [], []. cbn [concat] in *. rewrite app_nil_r in *. destruct (position_of_app _ _ [] _ Hf) as [_ Hl].
    cbn [concat]. rewrite app_nil_r. split_and!; [done| |exact Hl]. destruct rest; simpl; by rewrite Hf.
  - cbn [pieces fmap list_fmap app read_head]. destruct (find_double_crlf p) as [k|] eqn:Hk.
    + destruct (position_of_app _ _ (concat (b :: l)) _ Hk) as [Hk' Hl]. unfold find_double_crlf in Hf. rewrite Hk' in Hf.
      injection Hf as <-. exists [], (b :: l). cbn [concat]. rewrite app_nil_r. by split_and!.
    + cbn [concat] in Hf. rewrite app_assoc in Hf. destruct (IH _ Hf) as (l1 & l2 & -> & Hr & Hl).
      exists (b :: l1), l2. cbn [concat]. rewrite app_assoc. split_and!; [done|exact Hr|done].
Qed.

Lemma read_body_pieces framing s l p rest :
  (s ≤ length p)%nat → complete framing s (p ++ concat l) = Val true →
  ∃ raw, read_body framing s p (pieces l ++ rest) = Val raw ∧ body_of framing s raw = body_of framing s (p ++ concat l).
Proof.
  revert p. induction l as [|b l IH]; intros p Hs Hc.
  - cbn [concat] in *. rewrite app_nil_r in *. exists p. split; [|done]. destruct rest; simpl; by rewrite Hc.
  - destruct (complete_prefix _ _ _ _ Hs Hc) as [Hf|[Ht Hb]]; cbn [pieces fmap list_fmap app read_body].
    + rewrite Hf, exec_bind_Val. cbn [concat] in *. rewrite app_assoc in *. apply IH; [rewrite length_app; lia|done].
    + rewrite Ht, exec_bind_Val. by exists p.
Qed.

(** C18: An answer of the sender is understood the same however the network cuts it: as soon as the bytes read make a complete
    answer, under any of the framings that say where the body ends, the request returns what the whole of it
    says, without waiting for the connection to close. *)
Theorem dacp_get_pieces l rest answer :
  answer_at_once (concat l) = Val (Some answer) → get true (pieces l ++ rest) = Val (Some answer).
Proof.
  unfold answer_at_once, get. cbn [negb]. destruct (find_double_crlf (concat l)) as [pos|] eqn:Hf; [|done].
  destruct (read_head_pieces l [] rest pos Hf) as (l1 & l2 & -> & -> & Hl). cbn [app] in *. rewrite concat_app in *.
  rewrite take_app_le by lia. destruct (parse_status _) as [[status headers]|]; [|done].
  destruct (complete _ _ (concat l1 ++ concat l2)) as [[|]|] eqn:Hc; cbn [mbind exec_bind]; [|done..].
  destruct (read_body_pieces _ _ l2 (concat l1) rest Hl Hc) as (raw & -> & Hb). cbn [mbind exec_bind]. by rewrite Hb.
Qed.

(** ** The poll *)

(** The values of a sequence that differ from the one before. *)
Fixpoint changes {A} `{EqDecision A} (before : option A) (l : list A) : list A :=
  match l with
  | [] => []
  | a :: l => if decide (Some a = before) then changes before l else a :: changes (Some a) l
  end.

Definition told_playing (e : AirplayEvent) : option bool := match e with AePlaybackChanged _ b _ => Some b | _ => None end.
Definition told_track (e : AirplayEvent) : option (string * string * string) :=
  match e with AeTrackChanged _ title artist album _ _ _ => Some (title, artist, album) | _ => None end.
Definition told_volume (e : AirplayEvent) : option Z := match e with AeVolumeChanged _ v => Some v | _ => None end.

(** What one poll says of each; all of it is unknown when the status is. *)
Definition polled_playing (p : Poll) : option bool := poll_status (status_answer p) ≫= st_playing.
Definition polled_track (p : Poll) : option (string * string * string) :=
  s ← poll_status (status_answer p); if track_known s then Some (status_track s) else None.
Definition polled_volume (p : Poll) : option Z := poll_status (status_answer p) ≫= λ _, get_volume (volume_answer p).

Section poll.
Context (connection : Z).

(** What is to be told of a value, and what is remembered of it. *)
Definition news {A} `{EqDecision A} (polled before : option A) : list A :=
  match polled with Some a => if decide (Some a = before) then [] else [a] | None => [] end.
Definition kept {A} (polled before : option A) : option A := match polled with Some a => Some a | None => before end.

Lemma poll_playing_spec s st :
  (poll_playing connection s st).1 = st <| last_playing := kept (st_playing s) (last_playing st) |> ∧
  omap told_playing (poll_playing connection s st).2 = news (st_playing s) (last_playing st) ∧
  omap told_track (poll_playing connection s st).2 = [] ∧ omap told_volume (poll_playing connection s st).2 = [].
Proof.
  unfold poll_playing, news, kept. destruct st as [b t v], (st_playing s) as [b'|]; [|done]. cbn [last_playing].
  destruct (decide (Some b' = b)) as [<-|]; [by rewrite decide_False by auto|by rewrite decide_True].
Qed.

Definition known_track (s : PlayStatus) : option (string * string * string) := if track_known s then Some (status_track s) else None.

Lemma poll_track_spec s artwork st :
  (poll_track connection s artwork st).1 = st <| last_track := kept (known_track s) (last_track st) |> ∧
  omap told_track (poll_track connection s artwork st).2 = news (known_track s) (last_track st) ∧
  omap told_playing (poll_track connection s artwork st).2 = [] ∧ omap told_volume (poll_track connection s artwork st).2 = [].
Proof.
  unfold poll_track, known_track, news, kept. destruct st as [b t v], (track_known s); [|done]. cbn [last_track andb].
  destruct (decide (Some (status_track s) = t)) as [<-|]; [by rewrite bool_decide_false by auto|by rewrite bool_decide_true].
Qed.

Lemma poll_volume_spec volume st :
  (poll_volume connection volume st).1 = st <| last_volume := kept volume (last_volume st) |> ∧
  omap told_volume (poll_volume connection volume st).2 = news volume (last_volume st) ∧
  omap told_playing (poll_volume connection volume st).2 = [] ∧ omap told_track (poll_volume connection volume st).2 = [].
Proof.
  unfold poll_volume, news, kept. destruct st as [b t v], volume as [v'|]; [|done]. cbn [last_volume].
  destruct (decide (Some v' = v)) as [<-|]; [by rewrite decide_False by auto|by rewrite decide_True].
Qed.

(** A value of the state that one turn keeps up with, and its events. *)
Definition keeps_up {A} `{EqDecision A} (told : AirplayEvent → option A) (polled : Poll → option A) (g : PollState → option A) : Prop :=
  ∀ p st, omap told (poll_turn connection p st).2 = news (polled p) (g st) ∧
          g (poll_turn connection p st).1 = kept (polled p) (g st).

Lemma poll_loop_changes {A} `{EqDecision A} (told : AirplayEvent → option A) polled g polls st :
  keeps_up told polled g → omap told (poll_loop connection polls st) = changes (g st) (omap polled polls).
Proof.
  intros Hk. revert st. induction polls as [|p polls IH]; intros st; [done|]. cbn [poll_loop omap list_omap].
  destruct (Hk p st) as [Ht Hg]. destruct (poll_turn connection p st) as [st' e]. cbn [fst snd] in *.
  rewrite omap_app, Ht, IH, Hg. unfold news, kept. destruct (polled p) as [a|]; [|done]. cbn [changes]. case_decide as E; [by rewrite E|done].
Qed.

Lemma turn_keeps_up :
  keeps_up told_playing polled_playing last_playing ∧ keeps_up told_track polled_track last_track ∧
  keeps_up told_volume polled_volume last_volume.
Proof.
  unfold keeps_up, polled_playing, polled_track, polled_volume. split_and!; intros p st; unfold poll_turn;
    (destruct (poll_status (status_answer p)) as [s|]; cbn [mbind option_bind]; [|done]);
    pose proof (poll_playing_spec s st) as H1; destruct (poll_playing connection s st) as [st1 e1];
    pose proof (poll_track_spec s (fetch_artwork (artwork_answer p)) st1) as H2;
    destruct (poll_track connection s _ st1) as [st2 e2];
    pose proof (poll_volume_spec (get_volume (volume_answer p)) st2) as H3; destruct (poll_volume connection _ st2) as [st3 e3];
    cbn [fst snd] in *; destruct H1 as (-> & H1a & H1b & H1c), H2 as (-> & H2a & H2b & H2c), H3 as (-> & H3a & H3b & H3c);
    fold (known_track s); rewrite !omap_app, ?H1a, ?H1b, ?H1c, ?H2a, ?H2b, ?H2c, ?H3a, ?H3b, ?H3c; destruct st;
    cbn [app]; by rewrite ?app_nil_r.
Qed.
End poll.

(** C17: The task that polls a sender tells the port it found and then exactly the changes: of whether it plays, of the
    track and of the volume, each is reported when it is not what the last poll that knew it said, and never
    otherwise.  A poll whose status is not answered knows none of the three, not even the volume, for which the sender
    is not asked then.  A task that finds no port tells nothing. *)
Theorem poll_reports_changes connection host scope active_remote dacp_id machine bind_ip browses resolved polls :
  let told := resolve_and_poll_dacp connection host scope active_remote dacp_id machine bind_ip browses resolved polls in
  match resolve_port browses resolved dacp_id with
  | None => told = []
  | Some port =>
      (∃ local_bind rest, told = AeDacpAvailable connection host port active_remote machine scope local_bind :: rest) ∧
      omap told_playing told = changes None (omap polled_playing polls) ∧
      omap told_track told = changes None (omap polled_track polls) ∧
      omap told_volume told = changes None (omap polled_volume polls)
  end.
Proof.
  unfold resolve_and_poll_dacp. destruct (resolve_port browses resolved dacp_id) as [port|]; [|done].
  destruct (turn_keeps_up connection) as (H1 & H2 & H3). split; [by eexists _, _|]. cbn [omap list_omap told_playing told_track told_volume].
  split_and!; [exact (poll_loop_changes connection _ _ _ polls _ H1)|exact (poll_loop_changes connection _ _ _ polls _ H2)|
    exact (poll_loop_changes connection _ _ _ polls _ H3)].
Qed.

(** ** The speaker id *)

Lemma hex_byte_parses b : 0 ≤ b < 256 → from_str_radix u8_max 16 (hex_byte b) = Ok b ∧ no_char ":" (hex_byte b).
Proof.
  intros Hb.
  assert (forallb (λ b, match from_str_radix u8_max 16 (hex_byte b) with Ok x => bool_decide (x = b) | Err _ => false end &&
                        bool_decide (no_char ":" (hex_byte b))) (seqZ 0 256) = true) as Hall by (vm_compute; done).
  rewrite forallb_forall in Hall. specialize (Hall b). rewrite andb_true_iff, bool_decide_eq_true in Hall.
  destruct Hall as [Hok Hno]; [apply list_elem_of_In, elem_of_seqZ; lia|]. split; [|done].
  destruct (from_str_radix _ _ _); [|done]. by apply bool_decide_eq_true in Hok as ->.
Qed.

Lemma machine_loop_bytes l number (n : nat) :
  bytes_ok l → 0 ≤ number < 2 ^ (8 * n) → (n + length l = 6)%nat →
  machine_loop (hex_byte <$> l) number n = foldl (λ a b, a * 256 + b) number l.
Proof.
  intros Hl. revert number n. induction Hl as [|b l Hb Hl IH]; intros number n Hn Hlen; cbn [fmap list_fmap machine_loop foldl].
  { rewrite decide_True; [done|simpl in Hlen; lia]. }
  destruct (hex_byte_parses b Hb) as [-> _]. simpl in Hlen.
  assert (2 ^ (8 * S n) = 2 ^ (8 * n) * 256) as Hpow by (replace (8 * S n) with (8 * n + 8) by lia; rewrite Z.pow_add_r by lia; done).
  assert (2 ^ (8 * S n) ≤ 2 ^ 64) as Hle by (apply Z.pow_le_mono_r; lia).
  assert (Z.lor (Z.land (Z.shiftl number 8) u64_max) b = number * 256 + b) as ->.
  { rewrite Z.shiftl_mul_pow2 by lia. change u64_max with (Z.ones 64). rewrite Z.land_ones by lia. change (2 ^ 8) with 256.
    rewrite Z.mod_small by lia. rewrite <- Z.add_lor_land. enough (Z.land (number * 256) b = 0) as -> by lia.
    apply Z.bits_inj'. intros k Hk. rewrite Z.land_spec, Z.bits_0. change 256 with (2 ^ 8).
    destruct (decide (k < 8)); [by rewrite Z.mul_pow2_bits_low|]. rewrite <- (Z.mod_small b (2 ^ 8)) by lia.
    rewrite (Z.mod_pow2_bits_high b) by lia. apply andb_false_r. }
  apply IH; [lia|lia].
Qed.

(** The number a sender knows this receiver by is the device id read as one
    number. *)
Lemma machine_number_id id :
  bytes_ok id → length id = 6%nat → machine_number (colon_separated id) = foldl (λ a b, a * 256 + b) 0 id.
Proof.
  intros Hid Hlen. unfold machine_number, colon_separated. rewrite split_join.
  - apply (machine_loop_bytes id 0 0); [done|done|lia].
  - by destruct id.
  - apply Forall_fmap. eapply Forall_impl; [exact Hid|]. intros b Hb. by apply hex_byte_parses.
Qed.

(** ** Instances and corner cases *)

Definition http (lines : list string) (rest : string) : list Z := bytes_of (join CRLF lines +:+ CRLF +:+ CRLF +:+ rest).
Definition chunked_answer : list Z :=
  http ["HTTP/1.1 200 OK"; "Transfer-Encoding: gzip, Chunked"] ("4;x=1" +:+ CRLF +:+ "abcd" +:+ CRLF +:+ "2" +:+ CRLF +:+ "ef" +:+ CRLF +:+ "0" +:+ CRLF).

Lemma dacp_get_pieces_witness :
  get true (pieces (cut 100 chunked_answer) ++ [ReadError]) =
    Val (Some (200, "HTTP/1.1 200 OK" +:+ CRLF +:+ "Transfer-Encoding: gzip, Chunked", bytes_of "abcdef")).
Proof. apply dacp_get_pieces. vm_compute. reflexivity. Defined.

(** A poll whose status cannot be had says nothing of the volume either. *)
Lemma status_blinds_volume connection answer artwork volume st :
  poll_status answer = None → poll_turn connection (mkPoll answer artwork volume) st = (st, []).
Proof. intros H. unfold poll_turn. cbn [status_answer]. by rewrite H. Qed.

(** Sizes near the largest end the task in a panic. *)
Lemma sizes_overflow :
  decode_chunked (bytes_of ("ffffffffffffffff" +:+ CRLF +:+ "abcd")) = Panic ∧
  get true [Piece (http ["HTTP/1.1 200 OK"; "Content-Length: 18446744073709551615"] EmptyString)] = Panic.
Proof. vm_compute. done. Qed.

Lemma dacp_examples :
  matches_dacp_id "iTunes_Ctrl_0BCE12._dacp._tcp.local." "BCE12" = true ∧
  matches_dacp_id "iTunes_Ctrl_000._dacp._tcp.local." "0" = false ∧
  machine_number "aa:bb" = 0 ∧
  display_ip (V6 [0xfe; 0x80; 0; 0; 0; 0; 0; 0; 0; 1; 0; 0; 0; 0; 0; 2]) = "fe80::1:0:0:2" ∧
  display_ip (V6 [0; 0; 0; 0; 0; 0; 0; 0; 0; 0; 0xff; 0xff; 10; 0; 0; 1]) = "::ffff:10.0.0.1".
Proof. vm_compute. done. Qed.
