(* ===== verification/AirplaySession.v ===== *)
(** * A whole AirPlay connection: [airplay/src/rtsp/connection.rs]

    The connection and the tasks it starts to poll the sender run side by side,
    and their events go to the API server in the order they happen.  A task
    that is aborted still ends its turn: it stops at the pause between two
    polls.  The properties say what of the requests is answered, which protocol
    all of it follows, and when the connection is off the air. *)

From S2P Require Import Prelude StdTypes Digits Text Float64 Wire AllowList SpircData ApiData ApiServer ApiInv ApiProps Lines StdText Dmap Raop Rtsp RtspProps Dacp DacpProps.

Local Open Scope string_scope.
Local Open Scope list_scope.
Local Open Scope Z_scope.
Local Coercion Z.of_nat : nat >-> Z.

(** ** The task by turns *)

Fixpoint poll_turns (connection : Z) (polls : list Poll) (st : PollState) : list (list AirplayEvent) :=
  match polls with
  | [] => []
  | p :: polls => let '(st, e) := poll_turn connection p st in e :: poll_turns connection polls st
  end.

(** What a task finds: whether it can look for the port, the services it sees
    and the answers to its polls. *)
Record Sender := mkSender { browses : bool; resolved : list (string * Z); polls : list Poll }.

(** The port is told in the first turn. *)
Definition task_turns (connection : Z) (host : IpAddr) (scope_id : Z) (active_remote dacp_id : string) (machine_number : Z)
    (bind_ip : list IpAddr) (found : Sender) : list (list AirplayEvent) :=
  match resolve_port (browses found) (resolved found) dacp_id with
  | None => []
  | Some port =>
      let local_bind := head (filter (λ ip, is_ipv4 ip = is_ipv4 host) bind_ip) in
      let available := AeDacpAvailable connection host port active_remote machine_number scope_id local_bind in
      match poll_turns connection (polls found) (mkPollState None None None) with
      | [] => [[available]]
      | turn :: turns => (available :: turn) :: turns
      end
  end.

Lemma poll_turns_concat connection l st : concat (poll_turns connection l st) = poll_loop connection l st.
Proof.
  revert st. induction l as [|p l IH]; intros st; [done|]. cbn [poll_turns poll_loop].
  destruct (poll_turn connection p st) as [st' e]. cbn [concat]. by rewrite IH.
Qed.
Lemma task_turns_concat connection host scope_id active_remote dacp_id machine bind_ip found :
  concat (task_turns connection host scope_id active_remote dacp_id machine bind_ip found) =
  resolve_and_poll_dacp connection host scope_id active_remote dacp_id machine bind_ip (browses found) (resolved found) (polls found).
Proof.
  unfold task_turns, resolve_and_poll_dacp. destruct (resolve_port _ _ _); [|done].
  rewrite <- poll_turns_concat. by destruct (poll_turns _ _ _).
Qed.

(** ** The connection and its tasks *)

Inductive Happening := ByConnection (o : Output) | ByPoll (e : AirplayEvent).

(** The running task, and the rest of the turn of every aborted one. *)
Record Tasks := mkTasks { alive : option (list (list AirplayEvent)); ending : list (list AirplayEvent) }.
Definition no_tasks : Tasks := mkTasks None [].

(** Whose turn it is: the connection's, that of its task, or of one that was
    aborted. *)
Inductive Mover := Connection | Poller | Aborted (k : nat).

Section session.
Context `{RaopCrypto} `{Libm}.
Context (connection : Z) (peer_known : bool) (device_id : list Z) (ports : RtpPorts) (peer : IpAddr) (scope_id : Z)
  (bind_ip : list IpAddr).

(** What the connection does to its tasks; [n] tasks were started before. *)
Definition tasks_after (found : nat → Sender) (n : nat) (o : Output) (t : Tasks) : nat * Tasks :=
  match o with
  | StartDacp active_remote dacp_id =>
      (S n, mkTasks (Some (task_turns connection peer scope_id active_remote dacp_id (machine_number (colon_separated device_id))
                             bind_ip (found n))) (ending t))
  | AbortDacp => (n, mkTasks None (ending t ++ [default [] (alive t ≫= head)]))
  | _ => (n, t)
  end.

(** Everything that happens, in order.  When the movers run out the tasks do
    not get to run any more. *)
Fixpoint weave (found : nat → Sender) (movers : list Mover) (n : nat) (own : list Output) (t : Tasks) : list Happening :=
  match movers with
  | [] => ByConnection <$> own
  | Connection :: movers =>
      match own with
      | [] => weave found movers n [] t
      | o :: own => let '(n, t) := tasks_after found n o t in ByConnection o :: weave found movers n own t
      end
  | Poller :: movers =>
      match alive t with
      | Some ((e :: turn) :: turns) => ByPoll e :: weave found movers n own (mkTasks (Some (turn :: turns)) (ending t))
      | Some ([] :: turns) => weave found movers n own (mkTasks (Some turns) (ending t))
      | _ => weave found movers n own t
      end
  | Aborted k :: movers =>
      match ending t !! k with
      | Some (e :: turn) => ByPoll e :: weave found movers n own (mkTasks (alive t) (<[k := turn]> (ending t)))
      | _ => weave found movers n own t
      end
  end.

Definition serve_connection (bound : bool) (world : nat → bool * bool) (clean : bool) (chunks : list (list Z))
    (found : nat → Sender) (movers : list Mover) : list Happening :=
  weave found movers 0 (connection_outputs connection peer_known device_id ports peer bound world clean chunks) no_tasks.

Definition own_of (h : Happening) : option Output := match h with ByConnection o => Some o | ByPoll _ => None end.
Definition event_in (h : Happening) : option AirplayEvent := match h with ByConnection o => event_of o | ByPoll e => Some e end.
Definition answer_in (h : Happening) : option Response := own_of h ≫= answer_of.

Lemma weave_own found movers n own t : omap own_of (weave found movers n own t) = own.
Proof.
  assert (∀ l : list Output, omap own_of (ByConnection <$> l) = l) as Hown by (induction l as [|o l IH]; [done|cbn; f_equal; exact IH]).
  revert n own t. induction movers as [|[| |k] movers IH]; intros n own t; cbn [weave]; [apply Hown|..].
  - destruct own as [|o own]; [apply IH|]. destruct (tasks_after found n o t) as [n' t']. simpl. by rewrite IH.
  - destruct (alive t) as [[|[|e turn] turns]|]; apply IH.
  - destruct (ending t !! k) as [[|e turn]|]; apply IH.
Qed.

Lemma omap_omap {A B C} (f : A → option B) (g : B → option C) (l : list A) : omap g (omap f l) = omap (λ a, f a ≫= g) l.
Proof. induction l as [|a l IH]; [done|]. cbn. destruct (f a); cbn; [|exact IH]. destruct (g b); [f_equal|]; exact IH. Qed.

(** C14: A sender may pipeline its requests and the network may cut the stream
    anywhere: the requests are answered in order, each with its own sequence
    number and a status that belongs to its verb, and nothing else is answered,
    also when the stream ends inside a request.  All of them are, up to the first
    whose answer cannot be written, or that gives a progress whose times
    overflow, with which the connection ends. *)
Theorem rtsp_dialogue world clean chunks found movers rs tail :
  Forall wire_ok rs → cut_short tail → concat chunks = wires rs ++ tail →
  ∃ k, served world 0 rs k ∧
    Forall2 answers_to (take k rs) (omap answer_in (serve_connection true world clean chunks found movers)).
Proof.
  intros Hrs Ht Heq. destruct (serve_requests_answers connection peer_known device_id ports world rs 0 conn_new) as (k & Hk & Ha).
  exists k. split; [done|]. unfold answer_in. rewrite <- (omap_omap own_of answer_of). unfold serve_connection. rewrite weave_own.
  fold (answers (connection_outputs connection peer_known device_id ports peer true world clean chunks)).
  unfold connection_outputs. rewrite (read_requests_wires clean chunks rs tail []) by done.
  destruct (serve_requests _ _ _ _ _ _ _ _) as [c out]. rewrite !answers_app.
  destruct peer_known, (dacp_task c); cbn; by rewrite app_nil_r.
Qed.

(** ** The protocol *)

(** The events of a poll. *)
Definition poll_event (e : AirplayEvent) : Prop :=
  event_connection e = connection ∧
  match e with AeDacpAvailable _ _ _ _ _ _ _ | AePlaybackChanged _ _ _ | AeTrackChanged _ _ _ _ _ _ _ | AeVolumeChanged _ _ => True | _ => False end.
#[local] Instance poll_event_dec e : Decision (poll_event e).
Proof. unfold poll_event. destruct e; apply _. Defined.

(** The observer of a connection also counts the events that aborted tasks may
    still send: four for each. *)
Definition observe (m : Monitor * nat) (h : Happening) : option (Monitor * nat) :=
  match h with
  | ByConnection o =>
      m' ← monitor_step connection m.1 o;
      Some (m', match o with AbortDacp => (m.2 + 4)%nat | _ => m.2 end)
  | ByPoll e =>
      if decide (poll_event e) then
        if dacp_alive m.1 then Some m else match m.2 with O => None | S late => Some (m.1, late) end
      else None
  end.
Fixpoint observes (m : Monitor * nat) (l : list Happening) : option (Monitor * nat) :=
  match l with [] => Some m | h :: l => m ← observe m h; observes m l end.

Definition turn_ok (turn : list AirplayEvent) : Prop := Forall poll_event turn ∧ (length turn ≤ 4)%nat.

Record tasks_ok (t : Tasks) (m : Monitor * nat) : Prop := {
  to_alive turns : alive t = Some turns → dacp_alive m.1 = true ∧ Forall turn_ok turns;
  to_ending : Forall turn_ok (ending t);
  to_late : (length (concat (ending t)) ≤ m.2)%nat;
}.

Lemma poll_turn_ok p st : Forall poll_event (poll_turn connection p st).2 ∧ (length (poll_turn connection p st).2 ≤ 3)%nat.
Proof.
  unfold poll_turn. destruct (poll_status (status_answer p)) as [s|]; [|by split; [constructor|simpl; lia]].
  assert (∀ e, poll_event e → Forall poll_event [e] ∧ (length [e] ≤ 1)%nat) as Hone by (split; [by constructor|simpl; lia]).
  assert (Forall poll_event [] ∧ (length (A:=AirplayEvent) [] ≤ 1)%nat) as Hnone by (split; [constructor|simpl; lia]).
  assert (Forall poll_event (poll_playing connection s st).2 ∧ (length (poll_playing connection s st).2 ≤ 1)%nat) as [H1 L1]
    by (unfold poll_playing; repeat case_match; auto; by apply Hone).
  destruct (poll_playing connection s st) as [st1 e1].
  assert (Forall poll_event (poll_track connection s (fetch_artwork (artwork_answer p)) st1).2 ∧
    (length (poll_track connection s (fetch_artwork (artwork_answer p)) st1).2 ≤ 1)%nat) as [H2 L2]
    by (unfold poll_track; case_match; auto; by apply Hone).
  destruct (poll_track connection s _ st1) as [st2 e2].
  assert (Forall poll_event (poll_volume connection (get_volume (volume_answer p)) st2).2 ∧
    (length (poll_volume connection (get_volume (volume_answer p)) st2).2 ≤ 1)%nat) as [H3 L3]
    by (unfold poll_volume; repeat case_match; auto; by apply Hone).
  destruct (poll_volume connection _ st2) as [st3 e3]. cbn [snd] in *. rewrite !Forall_app, !length_app. split; [done|lia].
Qed.

Lemma poll_turns_ok l st :
  Forall (λ turn, Forall poll_event turn ∧ (length turn ≤ 3)%nat) (poll_turns connection l st).
Proof.
  revert st. induction l as [|p l IH]; intros st; cbn [poll_turns]; [constructor|].
  pose proof (poll_turn_ok p st) as Hp. destruct (poll_turn connection p st) as [st' e]. constructor; [done|apply IH].
Qed.

Lemma task_turns_ok active_remote dacp_id machine found :
  Forall turn_ok (task_turns connection peer scope_id active_remote dacp_id machine bind_ip found).
Proof.
  unfold task_turns. destruct (resolve_port _ _ _) as [port|]; [|constructor].
  pose proof (poll_turns_ok (polls found) (mkPollState None None None)) as Hp.
  destruct Hp as [|turn turns [Ht Hl] Hp]; [repeat constructor; simpl; lia|]. constructor.
  - split; [by repeat constructor|simpl; lia].
  - eapply Forall_impl; [exact Hp|]. intros t [? ?]. split; [done|lia].
Qed.

Lemma monitor_step_alive m o m' :
  monitor_step connection m o = Some m' →
  dacp_alive m' = match o with StartDacp _ _ => true | AbortDacp => false | _ => dacp_alive m end.
Proof. destruct m as [d r g t]. destruct o; simpl; repeat case_match; by intros [= <-]. Qed.

Lemma concat_insert {A} k (e : A) l (ls : list (list A)) :
  ls !! k = Some (e :: l) → length (concat ls) = S (length (concat (<[k := l]> ls))).
Proof.
  revert k. induction ls as [|l' ls IH]; intros [|k] Hk; [done..| |]; simpl in *; rewrite !length_app.
  - injection Hk as ->. simpl. lia.
  - rewrite (IH k Hk). lia.
Qed.

Lemma tasks_after_ok found n o t m m' :
  monitor_step connection m.1 o = Some m' → tasks_ok t m →
  tasks_ok (tasks_after found n o t).2 (m', match o with AbortDacp => (m.2 + 4)%nat | _ => m.2 end).
Proof.
  intros Hm%monitor_step_alive [Ha He Hl]. destruct o; simpl in *; try (split; simpl; [by rewrite Hm|done|done]).
  - split; simpl; [|done|done]. intros turns [= <-]. split; [done|apply task_turns_ok].
  - assert (turn_ok (default [] (alive t ≫= head))) as Hd.
    { destruct (alive t) as [[|turn turns]|]; simpl; try (by split; [constructor|simpl; lia]).
      destruct (Ha _ eq_refl) as [_ Ht]. by apply Forall_cons in Ht as [? _]. }
    split; simpl; [done| |].
    + by apply Forall_app; split; [|constructor; [|constructor]].
    + rewrite concat_app, length_app. simpl. rewrite app_nil_r. destruct Hd. lia.
Qed.

Lemma observes_own own m mf :
  monitor connection m.1 own = Some mf → ∃ late, observes m (ByConnection <$> own) = Some (mf, late).
Proof.
  revert m. induction own as [|o own IH]; intros [m late] Hm; simpl in *; [injection Hm as ->; by eexists|].
  destruct (monitor_step connection m o) as [m1|]; [|done]. simpl in *. by apply IH.
Qed.

Lemma weave_observed found movers n own t m mf :
  monitor connection m.1 own = Some mf → tasks_ok t m →
  ∃ late, observes m (weave found movers n own t) = Some (mf, late).
Proof.
  revert n own t m. induction movers as [|[| |k] movers IH]; intros n own t m Hm Ht; cbn [weave]; [by apply observes_own|..].
  - destruct own as [|o own]; [by apply IH|]. cbn [monitor] in Hm.
    destruct (monitor_step connection m.1 o) as [m1|] eqn:Ho; [|done].
    pose proof (tasks_after_ok found n o t m m1 Ho Ht) as Ht1. destruct (tasks_after found n o t) as [n' t'].
    cbn [observes observe]. rewrite Ho. cbn [mbind option_bind]. by apply IH.
  - destruct (alive t) as [[|[|e turn] turns]|] eqn:Ea; try (by apply IH); destruct Ht as [Ha He Hl];
      destruct (Ha _ Ea) as [Hal Hturns]; apply Forall_cons in Hturns as [[Hturn Hlen] Hturns].
    + apply IH; [done|]. split; simpl; [|done|done]. by intros ? [= <-].
    + apply Forall_cons in Hturn as [Hev Hturn]. cbn [observes observe]. rewrite decide_True by done. rewrite Hal. cbn [mbind option_bind].
      apply IH; [done|]. split; simpl; [|done|done]. intros ? [= <-]. split; [done|]. constructor; [|done]. split; [done|simpl in Hlen; lia].
  - destruct (ending t !! k) as [[|e turn]|] eqn:Ee; try (by apply IH). destruct Ht as [Ha He Hl].
    pose proof (Forall_lookup_1 _ _ _ _ He Ee) as [Hturn Hlen]. apply Forall_cons in Hturn as [Hev Hturn].
    pose proof (concat_insert _ _ _ _ Ee) as Hc. cbn [observes observe]. rewrite decide_True by done.
    assert (∀ late, (length (concat (ending t)) ≤ S late)%nat →
      tasks_ok (mkTasks (alive t) (<[k:=turn]> (ending t))) (m.1, late)) as Hgo.
    { intros late Hle. split; simpl; [done| |lia]. apply Forall_insert; [done|]. split; [done|simpl in Hlen; lia]. }
    destruct m as [m late]. cbn [fst snd] in *. destruct (dacp_alive m); [cbn [mbind option_bind]; apply IH; [done|apply Hgo; lia]|].
    destruct late as [|late]; [lia|]. cbn [mbind option_bind]. apply IH; [done|apply Hgo; lia].
Qed.

(** C15: Whatever a sender writes and answers, however its connection ends and
    its polls are interleaved with it, what happens follows a protocol.  All
    events bear the number of the connection.  Audio is received at most once,
    and the connection tells playing only after that and once.  A task that polls
    the sender is started only when none is alive, and none is left at the end;
    only tasks report what was polled, while one is alive, and no more than four
    events for each that was aborted come after.  The last event of the
    connection itself ends the session. *)
Theorem connection_protocol world clean chunks found movers :
  let out := serve_connection true world clean chunks found movers in
  (∃ m late, observes (monitor_new, 0%nat) out = Some (m, late) ∧ dacp_alive m = false) ∧
  last (events (omap own_of out)) = Some (AeSessionEnded connection).
Proof.
  split.
  - destruct (outputs_monitored connection peer_known device_id ports peer world clean chunks) as (m & Hm & Hd).
    destruct (weave_observed found movers 0 _ no_tasks (monitor_new, 0%nat) m Hm) as [late Hl]; [by repeat constructor|].
    by exists m, late.
  - unfold serve_connection. rewrite weave_own. apply last_event.
Qed.
End session.

(** ** The connection and the API server *)

Lemma omap_split {A B} (f : A → option B) (l : list A) b l1 l2 :
  omap f l = l1 ++ b :: l2 → ∃ k1 a k2, l = k1 ++ a :: k2 ∧ f a = Some b ∧ omap f k2 = l2.
Proof.
  revert l1. induction l as [|a l IH]; intros l1 E; [by destruct l1|]. cbn in E. destruct (f a) as [b'|] eqn:Ea.
  - destruct l1 as [|b1 l1]; injection E as -> E; [by exists [], a, l|].
    destruct (IH l1 E) as (k1 & a' & k2 & -> & Ha & Hk). by exists (a :: k1), a', k2.
  - destruct (IH l1 E) as (k1 & a' & k2 & -> & Ha & Hk). by exists (a :: k1), a', k2.
Qed.

Section air.
Context (connection : Z).

(** The events of this connection among what the server selects. *)
Definition heard_of (sel : Selected) : option AirplayEvent :=
  match sel with
  | SelAirplay (Some e) => if decide (event_connection e = connection) then Some e else None
  | _ => None
  end.

Definition starts_playing (e : AirplayEvent) : bool := match e with AePlaybackChanged _ playing _ => playing | _ => false end.

Lemma air_elsewhere sels air :
  Forall (λ e, starts_playing e = false) (omap heard_of sels) → air ≠ Some connection →
  foldl (λ air sel, air_after sel air) air sels ≠ Some connection.
Proof.
  revert air. induction sels as [|sel sels IH]; intros air Hh Ha; [done|]. cbn [omap list_omap foldl] in *.
  assert (air_after sel air ≠ Some connection) as Hs.
  { destruct sel as [| | | |[e|]| | | | |]; try done. simpl in Hh. destruct (decide (event_connection e = connection)) as [Hc|Hc].
    - apply Forall_cons in Hh as [He _]. destruct e; simpl in *; repeat case_match; congruence.
    - destruct e; simpl in *; repeat case_match; congruence. }
  apply IH; [|done]. destruct (heard_of sel); [by apply Forall_cons in Hh as [_ ?]|done].
Qed.

Lemma heard_number (sels : list Selected) e : e ∈ omap heard_of sels → event_connection e = connection.
Proof.
  intros (sel & _ & Hsel)%list_elem_of_omap. destruct sel as [| | | |[e'|]| | | | |]; try done. simpl in Hsel.
  case_decide; [|done]. by injection Hsel as ->.
Qed.

Lemma air_after_end sels air told told' :
  omap heard_of sels = told ++ AeSessionEnded connection :: told' → Forall (λ e, starts_playing e = false) told' →
  foldl (λ air sel, air_after sel air) air sels ≠ Some connection.
Proof.
  intros (s1 & sel & s2 & -> & Hsel & <-)%omap_split Ht. rewrite foldl_app. cbn [foldl]. apply air_elsewhere; [done|].
  destruct sel as [| | | |[e|]| | | | |]; try done. simpl in Hsel. case_decide; [|done]. injection Hsel as ->. simpl. by case_decide.
Qed.
End air.

(** Where the connection itself told its last event. *)
Lemma last_own out e :
  last (events (omap own_of out)) = Some e →
  ∃ before after, out = before ++ ByConnection (Emit e) :: after ∧ events (omap own_of after) = [].
Proof.
  unfold events. rewrite omap_omap. induction out as [|h out IH] using rev_ind; [done|]. rewrite omap_app. cbn.
  destruct (own_of h ≫= event_of) as [e'|] eqn:Eh.
  - rewrite last_snoc. intros [= ->]. destruct h as [[]|]; try done. injection Eh as ->. by exists out, [].
  - rewrite app_nil_r. intros (before & after & -> & Ha)%IH. exists before, (after ++ [h]). rewrite <- app_assoc. split; [done|].
    rewrite omap_omap, omap_app. rewrite omap_omap in Ha. rewrite Ha. cbn. by rewrite Eh.
Qed.

Lemma polled_only after e :
  events (omap own_of after) = [] → e ∈ omap event_in after → ByPoll e ∈ after.
Proof.
  unfold events. rewrite omap_omap. induction after as [|h after IH]; [by intros ? ?%elem_of_nil|].
  cbn. destruct h as [o|e']; cbn.
  - destruct (event_of o); [done|]. intros Ha He. apply list_elem_of_further. by apply IH.
  - rewrite elem_of_cons. intros Ha [->|He]; [apply list_elem_of_here|apply list_elem_of_further; by apply IH].
Qed.

Section composition.
Context `{RaopCrypto} `{Libm} `{SerdeLaws}.

(** C13: The API server is told of the end of every AirPlay connection.  When it
    has received all that a connection and the tasks that poll its sender
    reported, in between whatever else it selects, the connection is not the one
    on the air, however the sender went; with one exception, which is exactly
    this: a task reported that the sender plays after the connection had reported
    its end. *)
Theorem ended_off_air connection peer_known device_id ports peer scope_id bind_ip world clean chunks found movers sels w w' :
  let out := serve_connection connection peer_known device_id ports peer scope_id bind_ip true world clean chunks found movers in
  omap (heard_of connection) sels.*2 = omap event_in out → run sels w = Val w' →
  airplay_connection (task w') ≠ Some connection ∨
  ∃ before after position, out = before ++ ByConnection (Emit (AeSessionEnded connection)) :: after ∧
    events (omap own_of after) = [] ∧ ByPoll (AePlaybackChanged connection true position) ∈ after.
Proof.
  intros out Hh Hrun. apply run_routes in Hrun as (next & Hr). apply (f_equal snd) in Hr. cbn [snd routes] in Hr. rewrite Hr.
  assert (last (events (omap own_of out)) = Some (AeSessionEnded connection)) as Hl.
  { unfold out, serve_connection. rewrite weave_own. apply last_event. }
  destruct (last_own out _ Hl) as (before & after & Hout & Ha).
  destruct (decide (Forall (λ e, starts_playing e = false) (omap event_in after))) as [Hq|Hq].
  - left. eapply air_after_end; [|exact Hq]. by rewrite Hh, Hout, omap_app.
  - right. apply not_Forall_Exists, Exists_exists in Hq as (e & He & Hp); [|apply _]. pose proof (polled_only _ _ Ha He) as Hb.
    assert (event_connection e = connection) as Hc.
    { apply (heard_number connection sels.*2). rewrite Hh, Hout, omap_app. apply elem_of_app. right. by apply list_elem_of_further. }
    exists before, after. destruct e as [| |c [|] position| | | | |]; try (by destruct Hp). simpl in Hc. subst c. by exists position.
Qed.
End composition.

(** ** Instances *)

#[local] Existing Instance RtspProps.toy_crypto.
#[local] Existing Instance RtspProps.toy_libm.
#[local] Existing Instance ApiProps.toy_serde.
#[local] Existing Instance ApiProps.toy_laws.

(** A sender that is found, plays, and has its volume at 30. *)
Definition playing_answer : HttpAnswer :=
  Some (200, EmptyString, [99; 109; 115; 116; 0; 0; 0; 9; 99; 97; 112; 115; 0; 0; 0; 1; 4]).
Definition example_sender : Sender := mkSender true [("iTunes_Ctrl_A._dacp._tcp.local.", 3689)] [mkPoll playing_answer None None].

Definition example_session (chunks : list (list Z)) (movers : list Mover) : list Happening :=
  serve_connection 7 true example_id example_ports (V4 [192; 168; 0; 9]) 0 [] true (λ _, (true, false)) true chunks
    (λ _, example_sender) movers.

Lemma rtsp_dialogue_witness :
  Forall2 answers_to [announce; setup; record]
    (omap answer_in (example_session (cut 100 stream) (replicate 4 Connection ++ [Poller; Connection; Poller]))).
Proof.
  destruct (rtsp_dialogue 7 true example_id example_ports (V4 [192; 168; 0; 9]) 0 [] (λ _, (true, false)) true (cut 100 stream)
    (λ _, example_sender) (replicate 4 Connection ++ [Poller; Connection; Poller]) [announce; setup; record] (take 20 (wire pause)))
    as (k & [_ Hk] & Ha).
  - exact (proj1 (proj1 (Forall_app _ [announce; setup; record] [pause]) examples_ok)).
  - right. exists pause, 20%nat. split_and!; [|vm_compute; lia|done].
    exact (proj1 (proj1 (Forall_cons _ _ _) (proj2 (proj1 (Forall_app _ [announce; setup; record] [pause]) examples_ok)))).
  - vm_compute. reflexivity.
  - destruct Hk as [->|(r & Hr & [Hf|(Hm & _)])]; [exact Ha|done|].
    destruct k as [|[|[|k]]]; cbn [lookup list_lookup] in Hr; [..|done]; apply (f_equal (fmap method)) in Hr;
      cbn in Hr; congruence.
Defined.

(** The port and the playing are polled before the end of the session. *)
Definition example_movers : list Mover := replicate 4 Connection ++ [Poller; Connection; Poller].
Definition as_selected (l : list Happening) : list (Z * Selected) := (λ e, (0, SelAirplay (Some e))) <$> omap event_in l.
Definition example_sels : list (Z * Selected) :=
  [(1, SelSetAirplay); (4, SelAirplay (Some (AeVolumeChanged 5 30)))] ++ as_selected (example_session [stream] example_movers).
Definition end_of (sels : list (Z * Selected)) : World :=
  match run sels (spawn 0 [] None false) with Val w => w | Panic => spawn 0 [] None false end.

Lemma ended_off_air_witness : airplay_connection (task (end_of example_sels)) ≠ Some 7.
Proof.
  destruct (ended_off_air 7 true example_id example_ports (V4 [192; 168; 0; 9]) 0 [] (λ _, (true, false)) true [stream]
    (λ _, example_sender) example_movers example_sels (spawn 0 [] None false) (end_of example_sels)) as [Ha|(b & a & q & Hout & _ & Hin)].
  - vm_compute. reflexivity.
  - vm_compute. reflexivity.
  - exact Ha.
  - vm_compute. congruence.
Defined.

(** ** Corner cases *)

(** A task that is not yet aborted when the connection tells its end may put it
    on the air again, for good: here the connection is closed with the task in
    its first turn. *)
Definition late_session : list Happening :=
  example_session [stream] (replicate 8 Connection ++ [Poller; Poller]).
Lemma late_poll_on_air :
  airplay_connection (task (end_of (as_selected late_session))) = Some 7 ∧
  last (omap event_in late_session) = Some (AePlaybackChanged 7 true 0).
Proof. vm_compute. done. Qed.
