(* ===== verification/Http.v ===== *)
(** * HTTP requests: [core/src/http_client.rs], [error.rs] and [util.rs]

    The kinds of errors, the loop around a request that waits when the service
    says so, and the puzzle the service may set before it grants a token. *)

From S2P Require Import Prelude Digits Text StateMonad.

Local Open Scope string_scope.
Local Open Scope list_scope.
Local Open Scope Z_scope.
Local Coercion Z.of_nat : nat >-> Z.

(** ** Signed integers of 64 bits *)

Definition i64_min : Z := - 2 ^ 63.
Definition i64_max : Z := 2 ^ 63 - 1.
Definition i64_check (z : Z) : exec Z := if decide (i64_min ≤ z ≤ i64_max) then Val z else Panic.
Definition i64_saturate (z : Z) : Z := Z.max i64_min (Z.min i64_max z).
Definition i64_of_u64 (z : Z) : Z := if decide (z < 2 ^ 63) then z else z - 2 ^ 64.

(** [str::parse] at a signed type. *)
Definition parse_int (lo hi : Z) (s : string) : option Z :=
  let '(negative, digits) :=
    match s with
    | String "-" t => (true, t)
    | String "+" t => (false, t)
    | _ => (false, s)
    end in
  match digit_values 10 digits with
  | Some (d :: ds) =>
      let v := if negative : bool then - eval_be 10 (d :: ds) else eval_be 10 (d :: ds) in
      if decide (lo ≤ v ≤ hi) then Some v else None
  | _ => None
  end.
Definition parse_i64 : string → option Z := parse_int i64_min i64_max.

(** ** Errors *)

Inductive ErrorKind :=
| Cancelled | Unknown | InvalidArgument | DeadlineExceeded | NotFound | AlreadyExists | PermissionDenied | Unauthenticated
| ResourceExhausted | FailedPrecondition | Aborted | OutOfRange | Unimplemented | Internal | Unavailable | DataLoss | DoNotUse.
#[export] Instance ErrorKind_eq_dec : EqDecision ErrorKind.
Proof. solve_decision. Defined.

(** [From<HttpClientError> for Error]. *)
Definition status_error (code : Z) : ErrorKind :=
  if decide (code ∈ [504; 408]) then DeadlineExceeded
  else if decide (code ∈ [410; 404; 301; 308; 307]) then NotFound
  else if decide (code ∈ [403; 402]) then PermissionDenied
  else if decide (code ∈ [511; 407; 401]) then Unauthenticated
  else if decide (code ∈ [417; 412; 428]) then FailedPrecondition
  else if decide (code = 416) then OutOfRange
  else if decide (code ∈ [500; 421; 503; 451]) then Unavailable
  else if decide (code ∈ [400; 505; 411; 405; 406; 413; 431; 415; 414]) then InvalidArgument
  else if decide (code = 429) then ResourceExhausted
  else if decide (code = 501) then Unimplemented
  else Unknown.

(** ** Requests and answers *)

Record HttpRequest := mkHttpRequest {
  req_method : string;
  req_url : string;
  req_headers : list (string * string);
  req_body : list Z;
}.
#[export] Instance settable_HttpRequest : Settable HttpRequest := λ r,
  mkHttpRequest (req_method r) (req_url r) (req_headers r) (req_body r).

(** The body of an answer may fail to arrive. *)
Record HttpResponse := mkHttpResponse {
  res_status : Z;
  res_headers : list (string * string);
  res_body : result (list Z) ErrorKind;
}.

(** [HeaderMap]: names are in lower case, and inserting replaces. *)
Definition header_insert (name value : string) (l : list (string * string)) : list (string * string) :=
  filter (λ h, h.1 ≠ name) l ++ [(name, value)].
Definition header_get (name : string) (l : list (string * string)) : option string :=
  snd <$> head (filter (λ h, h.1 = name) l).

Definition is_success (code : Z) : bool := bool_decide (200 ≤ code < 300).

Definition RATE_LIMIT_MAX_WAIT : Z := 10000.

(** What the client relies on: the network, the clock (in milliseconds), the
    rate limiter, and the parsing of dates and addresses. *)
Class HttpEnv (X : Type) := {
  now : X → Z;
  sleep : Z → X → X;
  exchange : HttpRequest → X → X * result HttpResponse ErrorKind;
  limiter : string → X → X * bool;
  uri_host : string → option string;
  from_iso8601 : string → option Z;
}.

(** How long the service asks to wait, unless that is too long.  Reading a
    number of seconds may overflow; a time that has passed counts as too long. *)
Definition wait_limited (ms : Z) : option Z :=
  let duration := wrapu 64 ms in if decide (duration ≤ RATE_LIMIT_MAX_WAIT) then Some duration else None.

Section client.
Context {X : Type} `{HttpEnv X}.

Definition get_retry_after (at_ms : Z) (headers : list (string * string)) : exec (option Z) :=
  let value name := header_get name headers in
  match value "x-ratelimit-next" with
  | Some v =>
      Val (if to_str_ok v then from_iso8601 v ≫= λ t, wait_limited (i64_saturate (t - at_ms)) else None)
  | None =>
      match value "fastly-ratelimit-reset" with
      | Some v => Val (if to_str_ok v then parse_i64 v ≫= λ t, wait_limited (i64_saturate (t - at_ms)) else None)
      | None =>
          match value "retry-after" with
          | Some v =>
              match (if to_str_ok v then parse_i64 v else None) with
              | Some s => ms ← i64_check (s * 1000); Val (wait_limited ms)
              | None => Val None
              end
          | None => Val None
          end
      end
  end.

(** The last two labels of the host, run together. *)
Definition domain (url : string) : string :=
  match uri_host url with
  | Some host => let parts := split "." host in String.concat EmptyString (drop (length parts - 2) parts)
  | None => EmptyString
  end.

(** [Fails] is an error of the program; [OutOfTurns] says that a loop has not
    come to its end in the turns it was given. *)
Inductive WebError := Fails (kind : ErrorKind) | OutOfTurns.

(** Everything that is sent. *)
Record Net := mkNet { net_env : X; net_log : list HttpRequest }.
#[global] Instance settable_Net : Settable Net := λ r, mkNet (net_env r) (net_log r).

Definition request_fut (user_agent : string) (req : HttpRequest) (net : Net)
    : Net * result (result HttpResponse ErrorKind) ErrorKind :=
  let req := req <| req_headers ::= header_insert "user-agent" user_agent |> in
  let '(x, free) := limiter (domain (req_url req)) (net_env net) in
  if free : bool then
    let '(x, response) := exchange req x in
    (mkNet x (net_log net ++ [req]), Ok response)
  else (mkNet x (net_log net), Err ResourceExhausted).

(** [HttpClient::request]: again after each wait the service asks for. *)
Fixpoint http_request (turns : nat) (user_agent : string) (req : HttpRequest) (net : Net)
    : exec (Net * result HttpResponse WebError) :=
  match turns with
  | O => Val (net, Err OutOfTurns)
  | S turns =>
      match request_fut user_agent req net with
      | (net, Err e) => Val (net, Err (Fails e))
      | (net, Ok (Err e)) => Val (net, Err (Fails e))
      | (net, Ok (Ok response)) =>
          wait ← if decide (res_status response = 429)
                 then get_retry_after (now (net_env net)) (res_headers response) else Val None;
          match wait with
          | Some duration => http_request turns user_agent req (net <| net_env ::= sleep duration |>)
          | None =>
              Val (net, if is_success (res_status response) then Ok response else Err (Fails (status_error (res_status response))))
          end
      end
  end.

Definition request_body (turns : nat) (user_agent : string) (req : HttpRequest) (net : Net)
    : exec (Net * result (list Z) WebError) :=
  r ← http_request turns user_agent req net;
  match r with
  | (net, Err e) => Val (net, Err e)
  | (net, Ok response) => Val (net, match res_body response with Ok b => Ok b | Err e => Err (Fails e) end)
  end.
End client.
Arguments Net : clear implicits.

(** ** [util.rs] *)

Definition get_next_query_separator (url : string) : string := if str_contains "?" url then "&" else "?".

(** [i64::trailing_zeros], on the bits of the number. *)
Fixpoint trailing_zeros (width : nat) (z : Z) : Z :=
  match width with
  | O => 0
  | S width => if Z.odd z then 0 else 1 + trailing_zeros width (z / 2)
  end.

Definition read_i64 (b : list Z) : Z := i64_of_u64 (from_be_bytes b).
Definition i64_bytes (z : Z) : list Z := to_be_bytes 8 (wrapu 64 z).

Section hash_cash.
Context (sha1 : list Z → list Z).

Definition digest_tail (b : list Z) : list Z := take 8 (drop 12 (sha1 b)).
Definition attempt_suffix (a counter : Z) : list Z := i64_bytes a ++ i64_bytes counter.

(** [turns] is how often the clock finds time left. *)
Fixpoint hash_loop (prefix : list Z) (length target : Z) (turns : nat) (counter : Z) : exec (option (list Z)) :=
  match turns with
  | O => Val None
  | S turns =>
      a ← i64_check (target + counter);
      let suffix := attempt_suffix a counter in
      if decide (wrapu 32 length ≤ trailing_zeros 64 (read_i64 (digest_tail (prefix ++ suffix)))) then Val (Some suffix)
      else counter ← i64_check (counter + 1); hash_loop prefix length target turns counter
  end.

Definition solve_hash_cash (ctx prefix : list Z) (length : Z) (turns : nat) : exec (result (list Z) ErrorKind) :=
  r ← hash_loop prefix length (read_i64 (digest_tail ctx)) turns 0;
  Val (ok_or r DeadlineExceeded).
End hash_cash.
