(* ===== verification/SpClient.v ===== *)
(** * Requests to the web service: [core/src/spclient.rs], [login5.rs] and [token.rs]

    A request carries two tokens, which are kept until they expire and are
    granted on the solution of a puzzle; it is tried again, at another access
    point after some failures. *)

From S2P Require Import Prelude Digits Text SpotifyId SpotifyUri StateMonad Wire Connection Protocol Http.

Local Open Scope string_scope.
Local Open Scope list_scope.
Local Open Scope Z_scope.
Local Coercion Z.of_nat : nat >-> Z.

(** ** Tokens *)

(** Times in milliseconds. *)
Record Token := mkToken {
  access_token : string;
  expires_in : Z;
  token_type : string;
  scopes : list string;
  timestamp : Z;
}.

Definition EXPIRY_THRESHOLD : Z := 10000.
Definition SYSTEM_TIME_MAX : Z := i64_max * 1000 + 999.

(** Adding to a [SystemTime] panics past its end. *)
Definition is_expired (at_ms : Z) (self : Token) : exec bool :=
  let t := timestamp self + Z.max 0 (expires_in self - EXPIRY_THRESHOLD) in
  if decide (t ≤ SYSTEM_TIME_MAX) then Val (bool_decide (t < at_ms)) else Panic.

Definition in_scope (self : Token) (scope : string) : bool := bool_decide (scope ∈ scopes self).
Definition in_scopes (self : Token) (l : list string) : bool := forallb (in_scope self) l.

(** ** Messages *)

Inductive PlatformData :=
| DesktopWindows (os_version os_build image_file_machine pe_machine : Z)
| Ios (system_version : string)
| Android (android_version : string)
| DesktopMacos (system_version compiled_cpu_type : string)
| DesktopLinux (system_release system_version hardware : string).

Inductive ClientTokenRequest :=
| ClientDataRequest (client_version client_id device_id : string) (platform : PlatformData)
| ChallengeAnswersRequest (state suffix : string).

Record GrantedToken := mkGrantedToken { granted : string; refresh_after_seconds : Z; domains : list string }.
Record ClientTokenResponse := mkClientTokenResponse {
  response_type : Z;
  granted_token : GrantedToken;
  challenge_state : string;
  challenges : list (string * Z);
}.

Inductive LoginMethod := StoredCredential (username : string) (data : list Z) | Password (id password : string).
Record LoginRequest := mkLoginRequest {
  login_client_id : string;
  login_device_id : string;
  login_method : LoginMethod;
  login_context : list Z;
  solutions : list (list Z);
}.
#[export] Instance settable_LoginRequest : Settable LoginRequest := λ r,
  mkLoginRequest (login_client_id r) (login_device_id r) (login_method r) (login_context r) (solutions r).

Inductive LoginError := LoginTimeout | TooManyAttempts | OtherLoginError.
Record LoginOk := mkLoginOk { login_access_token : string; access_token_expires_in : Z; stored_credential : list Z }.
Inductive LoginChallenge := CodeChallenge | HashcashChallenge (prefix : list Z) (length : Z) | EmptyChallenge.
Inductive LoginAnswer := AnswerOk (ok : LoginOk) | AnswerError (e : LoginError) | AnswerChallenges (l : list LoginChallenge) | AnswerNone.
Record LoginResponse := mkLoginResponse { login_answer : LoginAnswer; answer_context : list Z }.

Inductive ExtensionKind := TRACK_V4 | EPISODE_V4 | ALBUM_V4 | ARTIST_V4 | SHOW_V4.

Record TokenData := mkTokenData { data_access_token : string; data_expires_in : Z; data_token_type : string; data_scope : list string }.

(** ** Surroundings *)

(** What a session knows; the numbers that the versions of Windows are parsed
    to are given. *)
Record Ident := mkIdent {
  os : string;
  arch : string;
  os_version : string;
  kernel_version : string;
  windows_version : Z;
  client_version : string;
  user_agent : string;
  session_client_id : string;
  device_id : string;
  username : string;
  country : string;
  auth_data : list Z;
  connection_id : string;
  filter_port : option Z;
  user_attributes : gmap string string;
}.

(** The rest of the world: the list of access points, random numbers, the time
    a puzzle may take, formats and hashes. *)
Class SpEnv (X : Type) `{HttpEnv X} := {
  fetch_points : X → X * option ApResolveData;
  random_u32 : X → X * Z;
  solving : X → X * nat;
  uri_ok : string → bool;
  sha1 : list Z → list Z;
  hexupper_decode : string → option (list Z);
  hexupper_encode : list Z → string;
  write_client_token : ClientTokenRequest → list Z;
  parse_client_token : list Z → option ClientTokenResponse;
  write_login : LoginRequest → list Z;
  parse_login : list Z → option LoginResponse;
  parse_context : string → option Context;
  write_entity_request : string → ExtensionKind → list Z;
  parse_extensions : list Z → option (list (list (option (list Z))));
  mercury_get : string → X → X * result (list (list Z)) ErrorKind;
  parse_token : string → option TokenData;
}.

Inductive RequestStrategy := TryTimes (n : Z) | Infinitely.
Record RequestOptions := mkRequestOptions { metrics : bool; salt : bool; opt_base_url : option string }.
Definition options_default : RequestOptions := mkRequestOptions true true None.
Definition NO_METRICS_AND_SALT : RequestOptions := mkRequestOptions false false None.

Record Web (X : Type) := mkWeb {
  points : AccessPoints;
  ap : option SocketAddress;
  strategy : RequestStrategy;
  client_token_ : option Token;
  auth_token_ : option Token;
  tokens : list Token;
  net : Net X;
}.
Arguments mkWeb {X}. Arguments points {X}. Arguments ap {X}. Arguments strategy {X}. Arguments client_token_ {X}.
Arguments auth_token_ {X}. Arguments tokens {X}. Arguments net {X}.
#[export] Instance settable_Web X : Settable (Web X) := λ r,
  mkWeb (points r) (ap r) (strategy r) (client_token_ r) (auth_token_ r) (tokens r) (net r).

Definition KEYMASTER_CLIENT_ID : string := "65b708073fc0480ea92a077233ca87bd".
Definition ANDROID_CLIENT_ID : string := "9a8d2f0ce77a4e248bb71fefcb557637".
Definition IOS_CLIENT_ID : string := "58bd3c95768941ea9eb4350aaa033eb3".
Definition default_client_id (os : string) : string :=
  if decide (os = "android") then ANDROID_CLIENT_ID else if decide (os = "ios") then IOS_CLIENT_ID else KEYMASTER_CLIENT_ID.

Definition platform_data (i : Ident) : PlatformData :=
  if decide (os i = "windows") then
    let build := default 21370 (parse_int (- 2 ^ 31) (2 ^ 31 - 1) (kernel_version i)) in
    let '(pe, image_file) :=
      if decide (arch i = "arm") then (448, 452)
      else if decide (arch i = "aarch64") then (43620, 452)
      else if decide (arch i = "x86_64") then (34404, 34404)
      else (332, 332) in
    DesktopWindows (windows_version i) build image_file pe
  else if decide (os i = "ios") then Ios (os_version i)
  else if decide (os i = "android") then Android (os_version i)
  else if decide (os i = "macos") then DesktopMacos (os_version i) (arch i)
  else DesktopLinux (kernel_version i) (os_version i) (arch i).

Section service.
Context {X : Type} `{SpEnv X} (i : Ident) (turns : nat).

Abbreviation M := (st (Web X) WebError).

Definition fail {A} (kind : ErrorKind) : M A := st_throw (Fails kind).
Definition or_fail {A} (o : option A) (kind : ErrorKind) : M A := match o with Some a => mret a | None => fail kind end.

(** The outcome of an operation, whose error is looked at. *)
Definition attempt {A} (m : M A) : M (result A ErrorKind) := λ w,
  match m w with
  | Val (w, Ok a) => Val (w, Ok (Ok a))
  | Val (w, Err (Fails kind)) => Val (w, Ok (Err kind))
  | Val (w, Err OutOfTurns) => Val (w, Err OutOfTurns)
  | Panic => Panic
  end.

Definition with_env {A} (f : X → X * A) : M A := λ w,
  let '(x, a) := f (net_env (net w)) in Val (w <| net ::= (λ n, n <| net_env := x |>) |>, Ok a).
Definition clock : M Z := λ w, Val (w, Ok (now (net_env (net w)))).
Definition send (req : HttpRequest) : M (list Z) := λ w,
  match request_body turns (user_agent i) req (net w) with
  | Val (n, r) => Val (w <| net := n |>, r)
  | Panic => Panic
  end.

(** ** The access point *)

Definition set_strategy (s : RequestStrategy) : M () := st_modify (λ w, w <| strategy := s |>).
Definition flush_accesspoint : M () := st_modify (λ w, w <| ap := None |>).

Definition get_accesspoint : M SocketAddress :=
  w ← st_get;
  match ap w with
  | Some tuple => mret tuple
  | None =>
      fetched ← if is_any_empty (points w) then with_env fetch_points else mret None;
      let '(ps, r) := resolve (filter_port i) fetched "spclient" (points w) in
      _ ← st_modify (λ w, w <| points := ps |>);
      match r with
      | Ok tuple => _ ← st_modify (λ w, w <| ap := Some tuple |>); mret tuple
      | Err _ => fail Unavailable
      end
  end.

Definition base_url : M string := a ← get_accesspoint; mret ("https://" +:+ a.1 +:+ ":" +:+ display a.2).

(** ** The client token *)

Definition client_token_request (message : ClientTokenRequest) : M (list Z) :=
  send (mkHttpRequest "POST" "https://clienttoken.spotify.com/v1/clienttoken" [("accept", "application/x-protobuf")]
    (write_client_token message)).

(** The cached token, unless it has expired, which empties the cache. *)
Definition take_fresh (get : Web X → option Token) (clear : Web X → Web X) : M (option Token) :=
  w ← st_get;
  match get w with
  | Some token =>
      t ← clock;
      expired ← st_lift (is_expired t token);
      if expired : bool then _ ← st_modify clear; mret None else mret (Some token)
  | None => mret None
  end.

Definition client_data_request : ClientTokenRequest :=
  let client_id := if decide (os i = "macos" ∨ os i = "windows") then session_client_id i else default_client_id (os i) in
  ClientDataRequest (client_version i) client_id (device_id i) (platform_data i).

Definition MAX_TRIES : Z := 3.

(** The answer to the first of the challenges; [None] when it is not accepted
    or not found in time. *)
Definition answer_challenge (message : ClientTokenResponse) : M (option (list Z)) :=
  match challenges message with
  | [] => fail FailedPrecondition
  | (prefix, length) :: _ =>
      prefix ← or_fail (hexupper_decode prefix) FailedPrecondition;
      time ← with_env solving;
      answer ← st_lift (solve_hash_cash sha1 [] prefix length time);
      match answer with
      | Ok suffix =>
          r ← attempt (client_token_request (ChallengeAnswersRequest (challenge_state message) (hexupper_encode suffix)));
          mret (result_ok r)
      | Err _ => mret None
      end
  end.

(** The count is a [u8]: an accepted answer goes on without looking at it. *)
Fixpoint token_loop (turns : nat) (request : ClientTokenRequest) (response : list Z) (count : Z) : M ClientTokenResponse :=
  match turns with
  | O => st_throw OutOfTurns
  | S turns =>
      count ← st_lift (uadd u8_max count 1);
      message ← or_fail (parse_client_token response) FailedPrecondition;
      if decide (response_type message = 1) then mret message
      else if decide (response_type message = 2) then
        answered ← answer_challenge message;
        match answered with
        | Some response => token_loop turns request response count
        | None =>
            if decide (count < MAX_TRIES) then
              response ← client_token_request request;
              token_loop turns request response count
            else fail FailedPrecondition
        end
      else if decide (response_type message = 0) then fail Unimplemented
      else fail FailedPrecondition
  end.

Definition client_token : M string :=
  cached ← take_fresh client_token_ (λ w, w <| client_token_ := None |>);
  match cached with
  | Some token => mret (access_token token)
  | None =>
      let request := client_data_request in
      response ← client_token_request request;
      message ← token_loop 256 request response 0;
      let g := granted_token message in
      t ← clock;
      let seconds := if decide (0 ≤ refresh_after_seconds g) then refresh_after_seconds g else 7200 in
      _ ← st_modify (λ w, w <| client_token_ := Some (mkToken (granted g) (seconds * 1000) "client-token" (domains g) t) |>);
      mret (granted g)
  end.

(** ** [login5.rs] *)

Definition MAX_LOGIN_TRIES : Z := 3.
Definition LOGIN_TIMEOUT : Z := 3000.

Definition login_request (message : LoginRequest) : M (list Z) :=
  token ← client_token;
  if header_value_ok token then
    send (mkHttpRequest "POST" "https://login5.spotify.com/v3/login" [("accept", "application/x-protobuf"); ("client-token", token)]
      (write_login message))
  else fail InvalidArgument.

Fixpoint solve_challenges (context : list Z) (l : list LoginChallenge) (request : LoginRequest) : M LoginRequest :=
  match l with
  | [] => mret request
  | CodeChallenge :: _ => fail Unimplemented
  | EmptyChallenge :: l => solve_challenges context l request
  | HashcashChallenge prefix length :: l =>
      time ← with_env solving;
      answer ← st_lift (solve_hash_cash sha1 context prefix length time);
      match answer with
      | Ok suffix => solve_challenges context l (request <| solutions ::= (λ s, s ++ [suffix]) |>)
      | Err kind => fail kind
      end
  end.

Definition handle_challenges (request : LoginRequest) (context : list Z) (l : list LoginChallenge) : M LoginRequest :=
  request ← solve_challenges context l request;
  mret (request <| login_context := context |>).

Fixpoint login_loop (turns : nat) (request : LoginRequest) (response : list Z) (count : Z) : M LoginOk :=
  match turns with
  | O => st_throw OutOfTurns
  | S turns =>
      count ← st_lift (uadd u8_max count 1);
      message ← or_fail (parse_login response) FailedPrecondition;
      let again request :=
        if decide (count < MAX_LOGIN_TRIES) then
          response ← login_request request;
          login_loop turns request response count
        else fail FailedPrecondition in
      match login_answer message with
      | AnswerOk ok => mret ok
      | AnswerError LoginTimeout | AnswerError TooManyAttempts =>
          _ ← with_env (λ x, (sleep LOGIN_TIMEOUT x, ()));
          again request
      | AnswerError OtherLoginError => fail FailedPrecondition
      | AnswerChallenges l =>
          request ← handle_challenges request (answer_context message) l;
          again request
      | AnswerNone => again request
      end
  end.

Definition login5_request (login : LoginMethod) : M LoginOk :=
  let client_id :=
    if decide (os i = "macos" ∨ os i = "windows") then session_client_id i
    else match login with StoredCredential _ _ => session_client_id i | _ => default_client_id (os i) end in
  let request := mkLoginRequest client_id (device_id i) login [] [] in
  response ← login_request request;
  login_loop 4 request response 0.

Definition token_from_login (token : string) (expires : Z) (at_ms : Z) : Token :=
  mkToken token ((if decide (0 ≤ expires) then expires else 3600) * 1000) "Bearer" [] at_ms.

Definition login (id password : string) : M (Token * list Z) :=
  if decide (os i = "android" ∨ os i = "ios") then
    ok ← login5_request (Password id password);
    t ← clock;
    mret (token_from_login (login_access_token ok) (access_token_expires_in ok) t, stored_credential ok)
  else fail Unavailable.

Definition auth_token : M Token :=
  if decide (auth_data i = []) then fail Unavailable
  else
    cached ← take_fresh auth_token_ (λ w, w <| auth_token_ := None |>);
    match cached with
    | Some token => mret token
    | None =>
        ok ← login5_request (StoredCredential (username i) (auth_data i));
        t ← clock;
        let token := token_from_login (login_access_token ok) (access_token_expires_in ok) t in
        _ ← st_modify (λ w, w <| auth_token_ := Some token |>);
        mret token
    end.

(** ** [token.rs] *)

Definition find_token (l : list string) (ts : list Token) : option nat :=
  fst <$> list_find (λ t, in_scopes t l = true) ts.

Definition token_from_json (body : string) (at_ms : Z) : option Token :=
  (λ d, mkToken (data_access_token d) (data_expires_in d * 1000) (data_token_type d) (data_scope d) at_ms) <$> parse_token body.

Definition request_token (l client : string) : M Token :=
  r ← with_env (mercury_get ("hm://keymaster/token/authenticated?scope=" +:+ l +:+ "&client_id=" +:+ client +:+
                             "&device_id=" +:+ device_id i));
  match r with
  | Err kind => fail kind
  | Ok payload =>
      data ← or_fail (head payload) Unavailable;
      body ← or_fail (from_utf8 data) FailedPrecondition;
      t ← clock;
      token ← or_fail (token_from_json body t) FailedPrecondition;
      _ ← st_modify (λ w, w <| tokens ::= (λ ts, ts ++ [token]) |>);
      mret token
  end.

Definition get_token_with_client_id (l client : string) : M Token :=
  if decide (client = EmptyString) then fail InvalidArgument
  else
    w ← st_get;
    match find_token (split "," l) (tokens w) with
    | Some index =>
        cached ← st_lift (match tokens w !! index with Some t => Val t | None => Panic end);
        t ← clock;
        expired ← st_lift (is_expired t cached);
        if expired : bool then
          _ ← st_modify (λ w, w <| tokens ::= delete index |>);
          request_token l client
        else mret cached
    | None => request_token l client
    end.

Definition get_token (l : string) : M Token := get_token_with_client_id l (session_client_id i).

(** ** Requests *)

Definition request_url (endpoint : string) (options : RequestOptions) : M string :=
  url ← match opt_base_url options with Some u => mret u | None => base_url end;
  let url := url +:+ endpoint in
  let url := if metrics options && negb (str_contains "product=0" url)
             then url +:+ get_next_query_separator url +:+ "product=0&country=" +:+ country i else url in
  if salt options && negb (str_contains "salt=" url) then
    r ← with_env random_u32;
    mret (url +:+ get_next_query_separator url +:+ "salt=" +:+ display r)
  else mret url.

(** The headers of a request: those of the caller, then the tokens. *)
Definition authorize (req : HttpRequest) (headers : list (string * string)) : M HttpRequest :=
  token ← auth_token;
  let hs := foldl (λ l h, header_insert h.1 h.2 l) (req_headers req) headers in
  let authorization := token_type token +:+ " " +:+ access_token token in
  if negb (header_value_ok authorization) then fail InvalidArgument
  else
    let hs := header_insert "authorization" authorization hs in
    client ← attempt client_token;
    match client with
    | Ok t =>
        if header_value_ok t then mret (req <| req_headers := header_insert "client-token" t hs |>) else fail InvalidArgument
    | Err _ => mret (req <| req_headers := hs |>)
    end.

(** One try: an error of its own ends the request, that of the answer is
    looked at. *)
Definition try_once (method endpoint : string) (headers : list (string * string)) (body : list Z) (options : RequestOptions)
    : M (result (list Z) ErrorKind) :=
  url ← request_url endpoint options;
  if negb (uri_ok url) then fail InvalidArgument
  else
    req ← authorize (mkHttpRequest method url [("content-length", display (length body))] body) headers;
    attempt (send req).

Fixpoint request_loop (turns : nat) (tries : Z) (method endpoint : string) (headers : list (string * string)) (body : list Z)
    (options : RequestOptions) : M (list Z) :=
  match turns with
  | O => st_throw OutOfTurns
  | S turns =>
      tries ← st_lift (uadd usize_max tries 1);
      last_response ← try_once method endpoint headers body options;
      match last_response with
      | Ok b => mret b
      | Err kind =>
          w ← st_get;
          if match strategy w with TryTimes max_tries => bool_decide (max_tries ≤ tries) | Infinitely => false end then fail kind
          else if decide (kind = Unavailable ∨ kind = DeadlineExceeded) then
            _ ← if decide (tries `mod` 3 = 0) then flush_accesspoint else mret ();
            request_loop turns tries method endpoint headers body options
          else fail kind
      end
  end.

Definition request_with_options (method endpoint : string) (headers : option (list (string * string))) (body : option (list Z))
    (options : RequestOptions) : M (list Z) :=
  request_loop turns 0 method endpoint (default [] headers) (default [] body) options.

Definition request (method endpoint : string) (headers : option (list (string * string))) (body : option (list Z)) : M (list Z) :=
  request_with_options method endpoint headers body options_default.
Definition request_as_json (method endpoint : string) (headers : option (list (string * string))) (body : option (list Z)) : M (list Z) :=
  request method endpoint (Some (header_insert "accept" "application/json" (default [] headers))) body.

(** The message is given as its bytes. *)
Definition request_with_protobuf_and_options (method endpoint : string) (headers : option (list (string * string))) (message : list Z)
    (options : RequestOptions) : M (list Z) :=
  request_with_options method endpoint (Some (header_insert "content-type" "application/x-protobuf" (default [] headers)))
    (Some message) options.
Definition request_with_protobuf (method endpoint : string) (headers : option (list (string * string))) (message : list Z) : M (list Z) :=
  request_with_protobuf_and_options method endpoint headers message options_default.

(** ** Endpoints *)

Definition connection_header : M (list (string * string)) :=
  if header_value_ok (connection_id i) then mret [("x-spotify-connection-id", connection_id i)] else fail InvalidArgument.

Definition put_connect_state_request (state : list Z) : M (list Z) :=
  headers ← connection_header;
  request_with_protobuf "PUT" ("/connect-state/v1/devices/" +:+ device_id i) (Some headers) state.
Definition delete_connect_state_request : M (list Z) := request "DELETE" ("/connect-state/v1/devices/" +:+ device_id i) None None.
Definition display_bool (b : bool) : string := if b then "true" else "false".
Definition put_connect_state_inactive (notify : bool) : M (list Z) :=
  headers ← connection_header;
  request "PUT" ("/connect-state/v1/devices/" +:+ device_id i +:+ "/inactive?notify=" +:+ display_bool notify) (Some headers) None.

(** The last entry of the last entity. *)
Definition get_metadata (kind : ExtensionKind) (id : SpotifyUri) : M (list Z) :=
  u ← st_lift (to_uri id);
  res ← request_with_protobuf "POST" "/extended-metadata/v0/extended-metadata" None (write_entity_request u kind);
  entities ← or_fail (parse_extensions res) FailedPrecondition;
  entity ← or_fail (last entities) FailedPrecondition;
  data ← or_fail (last entity) FailedPrecondition;
  or_fail data FailedPrecondition.
Definition get_track_metadata : SpotifyUri → M (list Z) := get_metadata TRACK_V4.
Definition get_episode_metadata : SpotifyUri → M (list Z) := get_metadata EPISODE_V4.
Definition get_album_metadata : SpotifyUri → M (list Z) := get_metadata ALBUM_V4.
Definition get_artist_metadata : SpotifyUri → M (list Z) := get_metadata ARTIST_V4.
Definition get_show_metadata : SpotifyUri → M (list Z) := get_metadata SHOW_V4.

Definition get_lyrics (track_id : SpotifyId) : M (list Z) :=
  t ← st_lift (to_base62 track_id); request_as_json "GET" ("/color-lyrics/v2/track/" +:+ t) None None.
Definition get_lyrics_for_image (track_id : SpotifyId) (image_id : FileId) : M (list Z) :=
  t ← st_lift (to_base62 track_id);
  request_as_json "GET" ("/color-lyrics/v2/track/" +:+ t +:+ "/image/spotify:image:" +:+ FileId_to_base16 image_id) None None.
Definition get_playlist (playlist_id : SpotifyId) : M (list Z) :=
  t ← st_lift (to_base62 playlist_id); request "GET" ("/playlist/v2/playlist/" +:+ t) None None.

Definition profile_endpoint (user : string) (playlist_limit artist_limit : option Z) : string :=
  "/user-profile-view/v3/profile/" +:+ user +:+
  (if bool_decide (is_Some playlist_limit) || bool_decide (is_Some artist_limit) then
     "?" +:+
     (match playlist_limit with
      | Some limit => "playlist_limit=" +:+ display limit +:+ (if bool_decide (is_Some artist_limit) then "&" else EmptyString)
      | None => EmptyString
      end) +:+
     (match artist_limit with Some limit => "artist_limit=" +:+ display limit | None => EmptyString end)
   else EmptyString).
Definition get_user_profile (user : string) (playlist_limit artist_limit : option Z) : M (list Z) :=
  request_as_json "GET" (profile_endpoint user playlist_limit artist_limit) None None.
Definition get_user_followers (user : string) : M (list Z) :=
  request_as_json "GET" ("/user-profile-view/v3/profile/" +:+ user +:+ "/followers") None None.
Definition get_user_following (user : string) : M (list Z) :=
  request_as_json "GET" ("/user-profile-view/v3/profile/" +:+ user +:+ "/following") None None.
Definition get_radio_for_track (track_uri : SpotifyUri) : M (list Z) :=
  u ← st_lift (to_uri track_uri);
  request_as_json "GET" ("/inspiredby-mix/v2/seed_to_playlist/" +:+ u +:+ "?response-format=json") None None.

Fixpoint ids_base62 (l : list SpotifyId) : exec (list string) :=
  match l with [] => Val [] | t :: l => s ← to_base62 t; r ← ids_base62 l; Val (s :: r) end.
Definition get_apollo_station (scope context_uri : string) (count : option Z) (previous_tracks : list SpotifyId) (autoplay : bool)
    : M (list Z) :=
  let endpoint := "/radio-apollo/v3/" +:+ scope +:+ "/" +:+ context_uri +:+ "?autoplay=" +:+ display_bool autoplay in
  let endpoint := match count with Some n => endpoint +:+ "&count=" +:+ display n | None => endpoint end in
  ids ← st_lift (ids_base62 previous_tracks);
  let previous := join "," ids in
  let endpoint := if decide (previous = EmptyString) then endpoint else endpoint +:+ "&prev_tracks=" +:+ previous in
  request_as_json "GET" endpoint None None.

(** [trim_start_matches] removes the prefix as often as it is there. *)
Fixpoint trim_prefixes (fuel : nat) (p s : string) : string :=
  match fuel with
  | O => s
  | S fuel => match strip_prefix p s with Some rest => trim_prefixes fuel p rest | None => s end
  end.
Definition get_next_page (next_page_uri : string) : M (list Z) :=
  request_as_json "GET" (trim_prefixes (String.length next_page_uri) "hm:/" next_page_uri) None None.

Definition get_audio_storage (file_id : FileId) : M (list Z) :=
  request "GET" ("/storage-resolve/files/audio/interactive/" +:+ FileId_to_base16 file_id) None None.

(** The header that asks for a part of a file; the last position may overflow
    or underflow. *)
Definition range_header (offset length : Z) : exec string :=
  e ← uadd usize_max offset length;
  e ← usub e 1;
  Val ("bytes=" +:+ display offset +:+ "-" +:+ display e).

Definition fetch_url (url : string) : M (list Z) :=
  if uri_ok url then send (mkHttpRequest "GET" url [] []) else fail InvalidArgument.
Definition attribute (name : string) : M string := or_fail (user_attributes i !! name) FailedPrecondition.
Definition get_audio_preview (preview_id : FileId) : M (list Z) :=
  template ← attribute "audio-preview-url-template";
  let url := replace "{id}" (FileId_to_base16 preview_id) template in
  fetch_url (url +:+ get_next_query_separator url +:+ "cid=" +:+ session_client_id i).
Definition get_head_file (file_id : FileId) : M (list Z) :=
  template ← attribute "head-files-url"; fetch_url (replace "{file_id}" (FileId_to_base16 file_id) template).
Definition get_image (image_id : FileId) : M (list Z) :=
  template ← attribute "image-url"; fetch_url (replace "{file_id}" (FileId_to_base16 image_id) template).

Definition context_of (res : list Z) : M Context :=
  json ← or_fail (from_utf8 res) FailedPrecondition;
  if decide (json = EmptyString) then fail FailedPrecondition
  else or_fail (parse_context json) FailedPrecondition.
Definition get_context (uri : string) : M Context :=
  res ← request_with_options "GET" ("/context-resolve/v1/" +:+ uri) None None NO_METRICS_AND_SALT; context_of res.
Definition get_autoplay_context (context_request : list Z) : M Context :=
  res ← request_with_protobuf_and_options "POST" "/context-resolve/v1/autoplay" None context_request NO_METRICS_AND_SALT;
  context_of res.
Definition get_rootlist (from : Z) (length : option Z) : M (list Z) :=
  request "GET" ("/playlist/v2/user/" +:+ username i +:+
    "/rootlist?decorate=revision,attributes,length,owner,capabilities,status_code&from=" +:+ display from +:+
    "&length=" +:+ display (default 120 length)) None None.
Definition transfer (from_device_id to_device_id : string) (transfer_request : option (list Z)) : M (list Z) :=
  request_with_options "POST" ("/connect-state/v1/connect/transfer/from/" +:+ from_device_id +:+ "/to/" +:+ to_device_id) None
    transfer_request NO_METRICS_AND_SALT.
End service.
