(* ===== verification/CdnUrl.v ===== *)
(** * Where audio files are: [core/src/cdn_url.rs]

    The service answers with addresses of a file, each good until some time
    that is part of it, in one of four formats. *)

From S2P Require Import Prelude Digits Text SpotifyId SpotifyUri StateMonad Wire Connection Protocol Http SpClient.

Local Open Scope string_scope.
Local Open Scope list_scope.
Local Open Scope Z_scope.
Local Coercion Z.of_nat : nat >-> Z.

(** Addresses as a library parses them, and the dates it can represent, in
    milliseconds. *)
Class UrlCrate := {
  Url : Type;
  url_parse : string → option Url;
  query_pairs : Url → list (string * string);
  query : Url → option string;
  date_min : Z;
  date_max : Z;
}.

(** [find] of a substring. *)
Fixpoint str_find (p s : string) : option nat :=
  if starts_with p s then Some 0%nat
  else match s with EmptyString => None | String _ s => S <$> str_find p s end.

Fixpoint sdrop (n : nat) (s : string) : string :=
  match n, s with S n, String _ s => sdrop n s | _, _ => s end.

Record StorageResolveResponse := mkStorageResolveResponse { is_cdn : bool; cdnurl : list string; fileid : list Z }.
Inductive CdnUrlError := Expired | Storage | Unresolved.
Definition cdn_error (e : CdnUrlError) : ErrorKind := match e with Expired => DeadlineExceeded | Storage | Unresolved => Unavailable end.

(** An address, and when it stops being used. *)
Abbreviation MaybeExpiringUrl := (string * option Z)%type.
Record CdnUrl := mkCdnUrl { cdn_file_id : FileId; urls : list MaybeExpiringUrl }.

Definition CDN_URL_EXPIRY_MARGIN : Z := 300000.

Section cdn.
Context `{UrlCrate}.

Definition pair_of (key : string) (url : Url) : option string := snd <$> head (filter (λ p, p.1 = key) (query_pairs url)).

Definition expiry_text (url : Url) : option string :=
  match pair_of "verify" url with
  | Some token => fst <$> split_once "-" token
  | None =>
      match pair_of "__token__" url with
      | Some token =>
          start ← str_find "exp=" token;
          let slice := sdrop (start + 4) token in
          Some (match split_once "~" slice with Some (s, _) => s | None => slice end)
      | None =>
          match pair_of "Expires" url with
          | Some token => fst <$> split_once "~" token
          | None => q ← query url; head (split "_" q)
          end
      end
  end.

(** The seconds in milliseconds, which may overflow, less the margin. *)
Definition expiry_of (text : string) : exec (option Z) :=
  match parse_i64 text with
  | Some seconds =>
      ms ← i64_check (seconds * 1000);
      Val (if decide (date_min ≤ ms ≤ date_max) then Some (Z.max date_min (ms - CDN_URL_EXPIRY_MARGIN)) else None)
  | None => Val None
  end.

Fixpoint expiring_urls (is_expiring : bool) (l : list string) : exec (result (list MaybeExpiringUrl) ErrorKind) :=
  match l with
  | [] => Val (Ok [])
  | cdn_url :: l =>
      match url_parse cdn_url with
      | None => Val (Err FailedPrecondition)
      | Some url =>
          expiry ← if is_expiring then match expiry_text url with Some t => expiry_of t | None => Val None end else Val None;
          r ← expiring_urls is_expiring l;
          Val (match r with Ok r => Ok ((cdn_url, expiry) :: r) | Err e => Err e end)
      end
  end.

Definition try_from (msg : StorageResolveResponse) : exec (result (list MaybeExpiringUrl) ErrorKind) :=
  if negb (is_cdn msg) then Val (Err (cdn_error Storage))
  else expiring_urls (negb (bool_decide (fileid msg = []))) (cdnurl msg).

Definition not_expired (at_ms : Z) (u : MaybeExpiringUrl) : bool :=
  match u.2 with Some expiry => bool_decide (at_ms < expiry) | None => true end.

Definition try_get_url (at_ms : Z) (self : CdnUrl) : result string CdnUrlError :=
  if decide (urls self = []) then Err Unresolved
  else match list_find (λ u, not_expired at_ms u = true) (urls self) with
  | Some (_, u) => Ok u.1
  | None => Err Expired
  end.

Definition try_get_urls (at_ms : Z) (self : CdnUrl) : result (list string) CdnUrlError :=
  if decide (urls self = []) then Err Unresolved
  else
    let l := omap (λ u, if not_expired at_ms u then Some u.1 else None) (urls self) in
    if decide (l = []) then Err Expired else Ok l.

Section resolve.
Context {X : Type} `{SpEnv X} (i : Ident) (turns : nat) (parse_storage : list Z → option StorageResolveResponse).

Definition resolve_audio (self : CdnUrl) : st (Web X) WebError CdnUrl :=
  response ← get_audio_storage i turns (cdn_file_id self);
  msg ← or_fail (parse_storage response) FailedPrecondition;
  r ← st_lift (try_from msg);
  match r with
  | Ok l => mret (mkCdnUrl (cdn_file_id self) l)
  | Err kind => fail kind
  end.
End resolve.
End cdn.
