(* ===== verification/WebProps.v ===== *)
(** * Properties of requests to the web service

    The puzzle is solved with the least counter; a request ends after the tries
    it is given; tokens are used until they expire; addresses of files until
    five minutes before they do. *)

From S2P Require Import Prelude Digits Text SpotifyId SpotifyUri StateMonad Wire Connection Protocol Http SpClient CdnUrl.

Local Open Scope string_scope.
Local Open Scope list_scope.
Local Open Scope Z_scope.
Local Coercion Z.of_nat : nat >-> Z.

(** ** The puzzle *)

Lemma trailing_zeros_nonneg width z : 0 ≤ trailing_zeros width z.
Proof. revert z. induction width as [|w IH]; intros z; simpl; [lia|]. destruct (Z.odd z); [lia|]. specialize (IH (z / 2)). lia. Qed.

Lemma trailing_zeros_spec (width : nat) z l :
  0 ≤ l ≤ width → (l ≤ trailing_zeros width z ↔ z `mod` 2 ^ l = 0).
Proof.
  revert z l. induction width as [|w IH]; intros z l Hl; simpl.
  { assert (l = 0) as -> by lia. change (2 ^ 0) with 1. rewrite Z.mod_1_r. lia. }
  destruct (decide (l = 0)) as [->|Hne].
  { change (2 ^ 0) with 1. rewrite Z.mod_1_r. split; [done|intros _]. destruct (Z.odd z); [lia|].
    pose proof (trailing_zeros_nonneg w (z / 2)). lia. }
  replace (2 ^ l) with (2 * 2 ^ (l - 1)) by (rewrite <- (Z.pow_succ_r 2 (l - 1)) by lia; f_equal; lia).
  pose proof (Z.pow_pos_nonneg 2 (l - 1)) as Hpos.
  rewrite Z.rem_mul_r, Zmod_odd by lia. specialize (IH (z / 2) (l - 1)).
  destruct (Z.odd z).
  - split; [lia|]. pose proof (Z.mod_pos_bound (z / 2) (2 ^ (l - 1))). lia.
  - rewrite Z.add_0_l. split; intros; [|]; intuition lia.
Qed.

Lemma i64_mod z l : 0 ≤ l ≤ 64 → i64_of_u64 z `mod` 2 ^ l = z `mod` 2 ^ l.
Proof.
  intros Hl. unfold i64_of_u64. case_decide; [done|].
  replace (2 ^ 64) with (2 ^ (64 - l) * 2 ^ l) by (rewrite <- Z.pow_add_r by lia; f_equal; lia).
  rewrite <- (Z.mod_add z (- 2 ^ (64 - l)) (2 ^ l)) by (apply Z.pow_nonzero; lia). f_equal. lia.
Qed.

Section hash_cash.
Context (sha1 : list Z → list Z) (ctx prefix : list Z) (length : Z).

Definition target : Z := read_i64 (digest_tail sha1 ctx).
Definition suffix (counter : Z) : list Z := attempt_suffix (target + counter) counter.

(** The last bits of the digest are zeros. *)
Definition solved (counter : Z) : Prop :=
  from_be_bytes (digest_tail sha1 (prefix ++ suffix counter)) `mod` 2 ^ length = 0.

Lemma length_suffix counter : List.length (suffix counter) = 16%nat.
Proof. unfold suffix, attempt_suffix, i64_bytes. by rewrite length_app, !length_to_be_bytes. Qed.

Lemma hash_loop_spec (turns : nat) counter :
  0 ≤ length ≤ 64 → 0 ≤ counter → i64_min ≤ target → target + counter + turns ≤ i64_max → counter + turns ≤ i64_max →
  (∃ c, counter ≤ c < counter + turns ∧ solved c ∧ (∀ c', counter ≤ c' < c → ¬ solved c') ∧
    hash_loop sha1 prefix length target turns counter = Val (Some (suffix c))) ∨
  (∀ c, counter ≤ c < counter + turns → ¬ solved c) ∧ hash_loop sha1 prefix length target turns counter = Val None.
Proof.
  intros Hl. revert counter. induction turns as [|turns IH]; intros counter Hc Hm Ht Hk; cbn [hash_loop].
  { right. split; [lia|done]. }
  assert (i64_check (target + counter) = Val (target + counter)) as ->
    by (unfold i64_check; rewrite decide_True; [done|unfold i64_min in *; lia]).
  rewrite exec_bind_Val. fold (suffix counter).
  assert (wrapu 32 length = length) as -> by (unfold wrapu; rewrite Z.mod_small by lia; done).
  unfold read_i64. destruct (decide _) as [Hs|Hs]; rewrite trailing_zeros_spec, i64_mod in Hs by (simpl; lia).
  - left. exists counter. split_and!; [lia|lia|done|lia|done].
  - assert (i64_check (counter + 1) = Val (counter + 1)) as ->
      by (unfold i64_check; rewrite decide_True; [done|unfold i64_min in *; lia]).
    rewrite exec_bind_Val. destruct (IH (counter + 1)) as [(c & Hcr & Hsol & Hmin & ->)|[Hno ->]]; [lia..| |].
    + left. exists c. split_and!; [lia|lia|done| |done]. intros c' Hc'. destruct (decide (c' = counter)) as [->|]; [done|apply Hmin; lia].
    + right. split; [|done]. intros c Hcr. destruct (decide (c = counter)) as [->|]; [done|apply Hno; lia].
Qed.

(** C22: The solution of a challenge is the first that there is: of the counters tried in the time given, the least whose
    digest ends in the wanted number of zero bits; without one the deadline is reported.  The sixteen bytes sent
    are the counter and the counter added to the number the context stands for. *)
Theorem hash_cash_least (turns : nat) :
  0 ≤ length ≤ 64 → i64_min ≤ target → target + turns ≤ i64_max → turns ≤ i64_max →
  (∃ c, 0 ≤ c < turns ∧ solved c ∧ (∀ c', 0 ≤ c' < c → ¬ solved c') ∧
    solve_hash_cash sha1 ctx prefix length turns = Val (Ok (suffix c)) ∧ List.length (suffix c) = 16%nat) ∨
  (∀ c, 0 ≤ c < turns → ¬ solved c) ∧ solve_hash_cash sha1 ctx prefix length turns = Val (Err DeadlineExceeded).
Proof.
  intros Hl Hm Ht Hk. unfold solve_hash_cash. fold target.
  destruct (hash_loop_spec turns 0 Hl) as [(c & Hc & Hs & Hmin & ->)|[Hno ->]]; [lia..| |].
  - left. exists c. split_and!; [lia|lia|done|done|done|apply length_suffix].
  - right. by split.
Qed.
End hash_cash.

(** ** Tries *)

Section service.
Context {X : Type} `{SpEnv X} (i : Ident) (turns : nat).
Implicit Types w : Web X.

(** What only the choice of an access point changes. *)
Definition place w : option SocketAddress * RequestStrategy := (ap w, strategy w).
Abbreviation still := (λ c w, place w = c).

Lemma still_attempt {A} c (m : st (Web X) WebError A) : preserves (still c) m → preserves (still c) (attempt m).
Proof.
  intros Hm w w' r Hw. unfold attempt. destruct (m w) as [[w1 [a|[kind|]]]|] eqn:E; [..|done]; intros [= <- <-]; by eapply Hm.
Qed.
Lemma still_with_env {A} c (f : X → X * A) : preserves (still c) (with_env f).
Proof. intros w w' r Hw. unfold with_env. destruct (f _). by intros [= <- <-]. Qed.
Lemma still_clock c : preserves (still c) (clock (X:=X)).
Proof. by intros w w' r Hw [= <- <-]. Qed.
Lemma still_send c req : preserves (still c) (send i turns req).
Proof. intros w w' r Hw. unfold send. destruct (request_body _ _ _ _) as [[n r']|]; [|done]. by intros [= <- <-]. Qed.
Lemma still_or_fail {A} c (o : option A) kind : preserves (still c) (or_fail (X:=X) o kind).
Proof. destruct o; [apply preserves_ret|apply preserves_throw]. Qed.
Lemma still_fail {A} c kind : preserves (still c) (fail (X:=X) (A:=A) kind).
Proof. apply preserves_throw. Qed.
Local Hint Resolve still_attempt still_with_env still_clock still_send still_or_fail still_fail : preserves.

Lemma still_modify c (f : Web X → Web X) : (∀ w, place (f w) = place w) → preserves (still c) (st_modify (E:=WebError) f).
Proof. intros Hf. apply preserves_modify. intros w <-. apply Hf. Qed.
Local Hint Extern 1 (preserves _ (st_modify _)) => apply still_modify; done : preserves.

Lemma still_take_fresh c get clear :
  (∀ w, place (clear w) = place w) → preserves (still c) (take_fresh get clear).
Proof. intros Hc. unfold take_fresh. preserve. Qed.

Lemma still_client_token c : preserves (still c) (client_token i turns).
Proof.
  assert (∀ message, preserves (still c) (client_token_request i turns message)) as Hr by (intros; apply still_send).
  assert (∀ message, preserves (still c) (answer_challenge i turns message)) as Ha by (intros; unfold answer_challenge; preserve).
  assert (∀ k request response count, preserves (still c) (token_loop i turns k request response count)) as Hl.
  { induction k as [|k IH]; intros; cbn [token_loop]; preserve. }
  unfold client_token. apply preserves_bind; [by apply still_take_fresh|]. intros []; preserve.
Qed.
Local Hint Resolve still_client_token : preserves.

Lemma still_auth_token c : preserves (still c) (auth_token i turns).
Proof.
  assert (∀ message, preserves (still c) (login_request i turns message)) as Hr by (intros; unfold login_request; preserve).
  assert (∀ l context request, preserves (still c) (solve_challenges context l request)) as Hs.
  { induction l as [|[]]; intros; cbn [solve_challenges]; preserve. }
  assert (∀ k request response count, preserves (still c) (login_loop i turns k request response count)) as Hl.
  { induction k as [|k IH]; intros; cbn [login_loop]; unfold handle_challenges; preserve. }
  unfold auth_token. case_decide; [apply preserves_throw|]. apply preserves_bind; [by apply still_take_fresh|].
  intros []; unfold login5_request; preserve.
Qed.
Local Hint Resolve still_auth_token : preserves.

Lemma still_authorize c req headers : preserves (still c) (authorize i turns req headers).
Proof. unfold authorize. preserve. Qed.

Lemma get_accesspoint_spec w w' r :
  get_accesspoint i w = Val (w', r) → strategy w' = strategy w ∧ ∀ a, r = Ok a → ap w' = Some a.
Proof.
  unfold get_accesspoint. rewrite st_get_bind. destruct (ap w) as [a|] eqn:Ha.
  { intros [= <- <-]. split; [done|]. by intros ? [= <-]. }
  intros E. assert (∃ w1 fetched, strategy w1 = strategy w ∧
    (let '(ps, r) := resolve (filter_port i) fetched "spclient" (points w) in
     _ ← st_modify (λ w, w <| points := ps |>);
     match r with Ok tuple => _ ← st_modify (λ w, w <| ap := Some tuple |>); mret tuple | Err _ => fail Unavailable end) w1
    = Val (w', r)) as (w1 & fetched & Hs & E1).
  { revert E. destruct (is_any_empty (points w)); [|intros E; exists w, None; split; [done|exact E]].
    unfold mbind at 1, st_bind at 1, with_env. destruct (fetch_points _) as [x f]. intros E. eexists _, f. split; [|exact E]. done. }
  destruct (resolve _ fetched _ _) as [ps [tuple|e]].
  - injection E1 as <- <-. split; [done|]. by intros ? [= <-].
  - injection E1 as <- <-. by split.
Qed.

Lemma base_url_spec w w' r :
  base_url i w = Val (w', r) → strategy w' = strategy w ∧ ∀ u, r = Ok u → is_Some (ap w').
Proof.
  unfold base_url, mbind, st_bind. destruct (get_accesspoint i w) as [[w1 [a|e]]|] eqn:E1; [..|done];
    apply get_accesspoint_spec in E1 as [Hs Ha]; intros [= <- <-]; (split; [done|]); intros u Hu; [|done].
  eexists. by apply Ha.
Qed.

Lemma request_url_spec endpoint options w w' r :
  request_url i endpoint options w = Val (w', r) →
  strategy w' = strategy w ∧ (opt_base_url options = None → ∀ u, r = Ok u → is_Some (ap w')).
Proof.
  assert (∀ w1 url, strategy w1 = strategy w → (opt_base_url options = None → is_Some (ap w1)) →
    (if salt options && negb (str_contains "salt=" url) then
       r ← with_env random_u32; mret (url +:+ get_next_query_separator url +:+ "salt=" +:+ display r)
     else mret url) w1 = Val (w', r) →
    strategy w' = strategy w ∧ (opt_base_url options = None → ∀ u, r = Ok u → is_Some (ap w'))) as Hsalt.
  { intros w1 url Hs Ha. case_match.
    - unfold mbind, st_bind, with_env. destruct (random_u32 _). intros [= <- <-]. split; [done|]. intros Hb u _. by apply Ha.
    - intros [= <- <-]. split; [done|]. intros Hb u _. by apply Ha. }
  unfold request_url. destruct (opt_base_url options) as [base|] eqn:Hopt.
  - rewrite st_ret_bind. cbv zeta. by apply Hsalt.
  - unfold mbind at 1, st_bind at 1. destruct (base_url i w) as [[w1 [u|e]]|] eqn:E1; [..|done].
    + apply base_url_spec in E1 as [Hs Ha]. cbv zeta. apply Hsalt; [done|]. intros _. by eapply Ha.
    + apply base_url_spec in E1 as [Hs _]. intros [= <- <-]. split; [done|]. by intros.
Qed.

Section request.
Context (method endpoint : string) (headers : list (string * string)) (body : list Z) (options : RequestOptions).
Abbreviation try := (try_once i turns method endpoint headers body options).

Lemma try_once_spec w w' r :
  try w = Val (w', r) →
  strategy w' = strategy w ∧ (opt_base_url options = None → ∀ o, r = Ok o → is_Some (ap w')).
Proof.
  unfold try_once. unfold mbind at 1, st_bind at 1. destruct (request_url _ _ _ w) as [[w1 [u|e]]|] eqn:E1; [..|done].
  - apply request_url_spec in E1 as [Hs Ha]. destruct (negb (uri_ok u)).
    { intros [= <- <-]. split; [done|]. by intros. }
    intros E. assert (place w' = place w1) as Hp.
    { match type of E with ?m w1 = _ => assert (preserves (still (place w1)) m) as Hm end; [|by eapply Hm].
      apply preserves_bind; [apply still_authorize|]. intros req. apply (still_attempt _ (send i turns req)), still_send. }
    injection Hp as Hap Hst. rewrite Hap, Hst, Hs. split; [done|]. intros Hb o _. by eapply Ha.
  - apply request_url_spec in E1 as [Hs _]. intros [= <- <-]. split; [done|]. by intros.
Qed.

Definition retryable (kind : ErrorKind) : Prop := kind = Unavailable ∨ kind = DeadlineExceeded.

(** Failures that do not end a request, with what each third of them does. *)
Inductive tried : nat → Web X → Web X → Prop :=
| tried_none w : tried 0 w w
| tried_more k w w1 w2 kind :
    tried k w w1 → try w1 = Val (w2, Ok (Err kind)) → retryable kind →
    tried (S k) w (if decide (S k `mod` 3 = 0)%nat then w2 <| ap := None |> else w2).

Lemma tried_strategy k w w' : tried k w w' → strategy w' = strategy w.
Proof. induction 1 as [|k w w1 w2 kind Ht IH Htry Hk]; [done|]. apply try_once_spec in Htry as [Hs _]. case_decide; simpl; congruence. Qed.

Lemma tried_place k w w' :
  tried k w w' → opt_base_url options = None → (0 < k)%nat → (ap w' = None ↔ k `mod` 3 = 0)%nat.
Proof.
  destruct 1 as [|k w w1 w2 kind Ht Htry Hk]; [lia|]. intros Hb _. apply try_once_spec in Htry as [_ Ha].
  destruct (Ha Hb _ eq_refl) as [a Hap]. case_decide as Hd; [done|]. rewrite Hap. by split.
Qed.

(** The try that decides a request of at most [n]. *)
Definition decides (n : nat) w (out : exec (Web X * result (list Z) WebError)) : Prop :=
  ∃ k wk, (k < n)%nat ∧ tried k w wk ∧
    match try wk with
    | Val (w', Ok (Ok b)) => out = Val (w', Ok b)
    | Val (w', Ok (Err kind)) => (S k = n ∨ ¬ retryable kind) ∧ out = Val (w', Err (Fails kind))
    | Val (w', Err e) => out = Val (w', Err e)
    | Panic => out = Panic
    end.

Lemma request_loop_decides fuel (n k : nat) w wk :
  strategy w = TryTimes n → n ≤ usize_max → tried k w wk → (k < n)%nat → (n - k ≤ fuel)%nat →
  decides n w (request_loop i turns fuel k method endpoint headers body options wk).
Proof.
  intros Hn Hmax. revert k wk. induction fuel as [|fuel IH]; intros k wk Ht Hk Hf; [lia|]. cbn [request_loop].
  unfold mbind at 1, st_bind at 1, st_lift. rewrite uadd_Val by lia. replace (k + 1) with (Z.of_nat (S k)) by lia.
  unfold mbind at 1, st_bind at 1. destruct (try wk) as [[w1 [[b|kind]|e]]|] eqn:E.
  - exists k, wk. rewrite E. done.
  - rewrite st_get_bind. pose proof (tried_strategy _ _ _ Ht) as Hst. pose proof (try_once_spec _ _ _ E) as [Hs1 _].
    rewrite Hs1, Hst, Hn. case_bool_decide as Hlast.
    { exists k, wk. rewrite E. split_and!; [done|done|left; lia|done]. }
    destruct (decide (kind = Unavailable ∨ kind = DeadlineExceeded)) as [Hr|Hr].
    2:{ exists k, wk. rewrite E. split_and!; [done|done|by right|done]. }
    pose proof (tried_more _ _ _ _ _ Ht E Hr) as Hnext. specialize (IH _ _ Hnext).
    pose proof (Nat2Z.inj_mod (S k) 3) as Hmod. change (Z.of_nat 3) with 3 in Hmod.
    destruct (decide (Z.of_nat (S k) `mod` 3 = 0)) as [H3|H3]; destruct (decide (S k `mod` 3 = 0)%nat) as [H3'|H3'];
      [|exfalso; lia|exfalso; lia|].
    + unfold flush_accesspoint. rewrite st_modify_bind. apply IH; lia.
    + rewrite st_ret_bind. apply IH; lia.
  - exists k, wk. rewrite E. done.
  - exists k, wk. rewrite E. done.
Qed.
End request.

(** C19: A request that is given [n] tries ends after at most so many: the first try that succeeds, fails for another reason
    than an unavailable service, or is the last, decides its result, be it a panic or an error on the way to the
    answer.  The access point is given up after every third failure that is followed by another try, and only then. *)
Theorem request_tries method endpoint headers body options (n : nat) w :
  strategy w = TryTimes n → 1 ≤ n ≤ usize_max → (n ≤ turns)%nat →
  decides method endpoint (default [] headers) (default [] body) options n w
    (request_with_options i turns method endpoint headers body options w) ∧
  (opt_base_url options = None → ∀ k wk, tried method endpoint (default [] headers) (default [] body) options k w wk →
     (0 < k)%nat → (ap wk = None ↔ k `mod` 3 = 0)%nat).
Proof.
  intros Hs Hn Hf. split.
  - apply (request_loop_decides _ _ _ _ _ turns n 0); [done|lia|constructor|lia|lia].
  - intros Hb k wk Ht Hk. by eapply tried_place.
Qed.

(** ** Tokens *)

Definition usable_until (t : Token) : Z := timestamp t + Z.max 0 (expires_in t - EXPIRY_THRESHOLD).

Lemma take_fresh_hit get clear w t :
  get w = Some t → usable_until t ≤ SYSTEM_TIME_MAX → now (net_env (net w)) ≤ usable_until t →
  take_fresh get clear w = Val (w, Ok (Some t)).
Proof.
  intros Hg Hm Ht. unfold take_fresh. rewrite st_get_bind, Hg. unfold mbind, st_bind, clock, st_lift, is_expired. fold (usable_until t).
  rewrite decide_True by done. by rewrite bool_decide_false by lia.
Qed.

Lemma take_fresh_Some get clear w w' t : take_fresh get clear w = Val (w', Ok (Some t)) → w' = w ∧ get w = Some t.
Proof.
  unfold take_fresh. rewrite st_get_bind. destruct (get w) as [t'|] eqn:Hg; [|done].
  unfold mbind, st_bind, clock, st_lift. destruct (is_expired _ _) as [[|]|]; [done| |done]. by intros [= <- <-].
Qed.

Lemma auth_token_stored w w' t : auth_token i turns w = Val (w', Ok t) → auth_token_ w' = Some t ∧ auth_data i ≠ [].
Proof.
  unfold auth_token. case_decide as Hd; [done|]. intros (w1 & [t1|] & E1 & E2)%st_bind_Ok_inv.
  - apply take_fresh_Some in E1 as [-> Ht]. by injection E2 as <- <-.
  - apply st_bind_Ok_inv in E2 as (w2 & ok & _ & E2). by injection E2 as <- <-.
Qed.

Lemma client_token_stored w w' s : client_token i turns w = Val (w', Ok s) → ∃ t, client_token_ w' = Some t ∧ access_token t = s.
Proof.
  unfold client_token. intros (w1 & [t1|] & E1 & E2)%st_bind_Ok_inv.
  - apply take_fresh_Some in E1 as [-> Ht]. injection E2 as <- <-. eauto.
  - apply st_bind_Ok_inv in E2 as (w2 & response & _ & E2). apply st_bind_Ok_inv in E2 as (w3 & message & _ & E2).
    injection E2 as <- <-. by eexists.
Qed.

Lemma st_bind_ext {S E A B} (m : st S E A) (f g : A → st S E B) s :
  (∀ s' a, m s = Val (s', Ok a) → f a s' = g a s') → (m ≫= f) s = (m ≫= g) s.
Proof. intros Hf. unfold mbind, st_bind. destruct (m s) as [[s' [a|e]]|]; [by apply Hf|done|done]. Qed.

Lemma count_ext {S E A} mx count (f g : Z → st S E A) s :
  (count + 1 ≤ mx → f (count + 1) s = g (count + 1) s) → (st_lift (uadd mx count 1) ≫= f) s = (st_lift (uadd mx count 1) ≫= g) s.
Proof.
  intros Hf. apply st_bind_ext. intros s' c. unfold st_lift. destruct (uadd mx count 1) as [c'|] eqn:Ec; [|done].
  apply uadd_Val_inv in Ec as [-> ?]. intros [= <- <-]. auto.
Qed.

(** The turns of the two loops are enough: the counts stop them. *)
Lemma token_loop_fuel (k k' : nat) request response count w :
  0 ≤ count ≤ u8_max → 256 - count ≤ k → 256 - count ≤ k' →
  token_loop i turns k request response count w = token_loop i turns k' request response count w.
Proof.
  revert k' response count w. induction k as [|k IH]; intros [|k'] response count w Hp Hk Hk'; unfold u8_max in *; try lia.
  cbn [token_loop]. apply count_ext. unfold u8_max. intros Hc. apply st_bind_ext. intros w2 message _.
  repeat case_decide; try done; apply st_bind_ext; intros w3 [r|] _; try done; try (apply IH; lia).
  apply st_bind_ext. intros. apply IH; lia.
Qed.

Lemma login_loop_fuel (k k' : nat) request response count w :
  0 ≤ count → 3 - count ≤ k → 3 - count ≤ k' → (1 ≤ k)%nat → (1 ≤ k')%nat →
  login_loop i turns k request response count w = login_loop i turns k' request response count w.
Proof.
  revert k' request response count w. induction k as [|k IH]; intros [|k'] request response count w Hp Hk Hk' H1 H1'; try lia.
  cbn [login_loop]. apply count_ext. intros Hc. apply st_bind_ext. intros w2 message _.
  assert (∀ r w', (if decide (count + 1 < MAX_LOGIN_TRIES) then
             response ← login_request i turns r; login_loop i turns k r response (count + 1) else fail FailedPrecondition) w' =
          (if decide (count + 1 < MAX_LOGIN_TRIES) then
             response ← login_request i turns r; login_loop i turns k' r response (count + 1) else fail FailedPrecondition) w') as E.
  { intros r w'. unfold MAX_LOGIN_TRIES. case_decide; [|done]. apply st_bind_ext. intros. apply IH; lia. }
  destruct (login_answer message) as [ok|[| |]|l|]; try done; try apply E; apply st_bind_ext; intros; apply E.
Qed.

(** *** What becomes of a token *)

(** A clock that is not set back. *)
Class ClockLaws : Prop := {
  sleep_later d x : now x ≤ now (sleep d x);
  exchange_later req x : now x ≤ now (exchange req x).1;
  limiter_later d x : now x ≤ now (limiter d x).1;
  fetch_points_later x : now x ≤ now (fetch_points x).1;
  random_u32_later x : now x ≤ now (random_u32 x).1;
  solving_later x : now x ≤ now (solving x).1;
  mercury_get_later u x : now x ≤ now (mercury_get u x).1;
}.
Context `{!ClockLaws}.

Abbreviation time w := (now (net_env (net w))).

(** What the rest of the program calls; an endpoint that is not listed is a
    request as it is. *)
Inductive service_call : ∀ A, st (Web X) WebError A → Prop :=
| call_set_strategy s : service_call _ (set_strategy s)
| call_flush_accesspoint : service_call _ flush_accesspoint
| call_base_url : service_call _ (base_url i)
| call_client_token : service_call _ (client_token i turns)
| call_auth_token : service_call _ (auth_token i turns)
| call_login id password : service_call _ (login i turns id password)
| call_get_token l client : service_call _ (get_token_with_client_id i l client)
| call_request method endpoint headers body options : service_call _ (request_with_options i turns method endpoint headers body options)
| call_put_connect_state state : service_call _ (put_connect_state_request i turns state)
| call_put_connect_state_inactive notify : service_call _ (put_connect_state_inactive i turns notify)
| call_get_metadata kind id : service_call _ (get_metadata i turns kind id)
| call_get_lyrics id : service_call _ (get_lyrics i turns id)
| call_get_playlist id : service_call _ (get_playlist i turns id)
| call_get_radio_for_track uri : service_call _ (get_radio_for_track i turns uri)
| call_get_apollo_station scope uri count ids autoplay : service_call _ (get_apollo_station i turns scope uri count ids autoplay)
| call_get_audio_preview id : service_call _ (get_audio_preview i turns id)
| call_get_head_file id : service_call _ (get_head_file i turns id)
| call_get_image id : service_call _ (get_image i turns id)
| call_get_context uri : service_call _ (get_context i turns uri)
| call_get_autoplay_context b : service_call _ (get_autoplay_context i turns b).

(** Calls one after another, between which the rest of the world goes on. *)
Inductive later : Web X → Web X → Prop :=
| later_now w : later w w
| later_call A (m : st (Web X) WebError A) w w1 w2 r :
    later w w1 → service_call A m → m w1 = Val (w2, r) → later w w2
| later_world w w1 x : later w w1 → time w1 ≤ now x → later w (w1 <| net ::= (λ n, n <| net_env := x |>) |>).

(** A token that is kept for as long as it may be used. *)
Definition kept (get : Web X → option Token) (t : Token) w : Prop := time w ≤ usable_until t → get w = Some t.
Definition past (T : Z) w : Prop := T < time w.

(** An invariant that the passing of time keeps. *)
Definition lasting (P : Web X → Prop) : Prop := ∀ w n, P w → time w ≤ now (net_env n) → P (w <| net := n |>).
Lemma past_lasting T : lasting (past T).
Proof. intros w n Hp Hn. unfold past in *. simpl. lia. Qed.
Lemma kept_lasting get t : (∀ w n, get (w <| net := n |>) = get w) → lasting (kept get t).
Proof. intros Hg w n Hk Hn Ht. simpl in Ht. rewrite Hg. apply Hk. lia. Qed.

Section lasting.
Context (P : Web X → Prop) (HP : lasting P).

Lemma lasting_attempt {A} (m : st (Web X) WebError A) : preserves P m → preserves P (attempt m).
Proof.
  intros Hm w w' r Hw. unfold attempt. destruct (m w) as [[w1 [a|[kind|]]]|] eqn:E; [..|done]; intros [= <- <-]; by eapply Hm.
Qed.
Lemma lasting_with_env {A} (f : X → X * A) : (∀ x, now x ≤ now (f x).1) → preserves P (with_env f).
Proof. intros Hf w w' r Hw. unfold with_env. specialize (Hf (net_env (net w))). destruct (f _) as [x a]. intros [= <- <-]. by apply HP. Qed.
Lemma lasting_clock : preserves P (clock (X:=X)).
Proof. by intros w w' r Hw [= <- <-]. Qed.

Lemma http_request_later k ua req n n' r : http_request k ua req n = Val (n', r) → now (net_env n) ≤ now (net_env n').
Proof.
  revert n. induction k as [|k IH]; intros n; cbn [http_request]; [by intros [= <- <-]|].
  assert (∀ n1 o, request_fut ua req n = (n1, o) → now (net_env n) ≤ now (net_env n1)) as Hf.
  { intros n1 o. unfold request_fut. cbv zeta.
    pose proof (limiter_later (domain (req_url (req <| req_headers ::= header_insert "user-agent" ua |>))) (net_env n)) as Hl.
    destruct (limiter _ _) as [x [|]]; simpl in Hl.
    - pose proof (exchange_later (req <| req_headers ::= header_insert "user-agent" ua |>) x) as He.
      destruct (exchange _ x) as [x' o']. intros [= <- <-]. simpl in *. lia.
    - by intros [= <- <-]. }
  destruct (request_fut ua req n) as [n1 [[o|e]|e]] eqn:Ef; specialize (Hf _ _ eq_refl); [|by intros [= <- <-]..].
  destruct (if decide _ then _ else _) as [[d|]|]; rewrite ?exec_bind_Val; [..|done].
  - intros E%IH. simpl in E. pose proof (sleep_later d (net_env n1)). lia.
  - by intros [= <- <-].
Qed.
Lemma lasting_send req : preserves P (send i turns req).
Proof.
  intros w w' r Hw. unfold send. destruct (request_body _ _ _ _) as [[n r']|] eqn:E; [|done]. intros [= <- <-]. apply HP; [done|].
  unfold request_body in E. destruct (http_request _ _ _ _) as [[n1 [o|e]]|] eqn:E1; rewrite ?exec_bind_Val in E; [..|done];
    apply http_request_later in E1; by injection E as <- <-.
Qed.
Lemma lasting_or_fail {A} (o : option A) kind : preserves P (or_fail (X:=X) o kind).
Proof. destruct o; [apply preserves_ret|apply preserves_throw]. Qed.
Lemma lasting_fail {A} kind : preserves P (fail (X:=X) (A:=A) kind).
Proof. apply preserves_throw. Qed.
Local Hint Resolve lasting_attempt lasting_clock lasting_send lasting_or_fail lasting_fail : preserves.
Local Hint Extern 1 (preserves _ (with_env _)) => apply lasting_with_env; intros; simpl;
  first [apply sleep_later|apply fetch_points_later|apply random_u32_later|apply solving_later|apply mercury_get_later] : preserves.

Lemma lasting_take_fresh get clear : (∀ w, P w → P (clear w)) → preserves P (take_fresh get clear).
Proof. intros Hc. unfold take_fresh. preserve. by apply preserves_modify. Qed.

Lemma lasting_client_token : (∀ w o, P w → P (w <| client_token_ := o |>)) → preserves P (client_token i turns).
Proof.
  intros Hc. assert (∀ message, preserves P (client_token_request i turns message)) as Hr by (intros; by apply lasting_send).
  assert (∀ message, preserves P (answer_challenge i turns message)) as Ha by (intros; unfold answer_challenge; preserve).
  assert (∀ k request response count, preserves P (token_loop i turns k request response count)) as Hl.
  { induction k as [|k IH]; intros; cbn [token_loop]; preserve. }
  unfold client_token. apply preserves_bind; [by apply lasting_take_fresh; intros; apply Hc|].
  intros []; preserve. by apply preserves_modify; intros; apply Hc.
Qed.

Context (Hclient : preserves P (client_token i turns)).
Lemma lasting_login5 login : preserves P (login5_request i turns login).
Proof.
  assert (∀ message, preserves P (login_request i turns message)) as Hr by (intros; unfold login_request; preserve).
  assert (∀ l context request, preserves P (solve_challenges context l request)) as Hs.
  { induction l as [|[]]; intros; cbn [solve_challenges]; preserve. }
  assert (∀ k request response count, preserves P (login_loop i turns k request response count)) as Hl.
  { induction k as [|k IH]; intros; cbn [login_loop]; unfold handle_challenges; preserve. }
  unfold login5_request. preserve.
Qed.
Local Hint Resolve lasting_login5 : preserves.

Lemma lasting_auth_token : (∀ w o, P w → P (w <| auth_token_ := o |>)) → preserves P (auth_token i turns).
Proof.
  intros Hc. unfold auth_token. case_decide; [apply preserves_throw|].
  apply preserves_bind; [by apply lasting_take_fresh; intros; apply Hc|].
  intros []; preserve. by apply preserves_modify; intros; apply Hc.
Qed.

Context (Hauth : preserves P (auth_token i turns)).
Context (Hrest : ∀ w w', net w' = net w → client_token_ w' = client_token_ w → auth_token_ w' = auth_token_ w → P w → P w').
Local Hint Extern 1 (preserves _ (st_modify _)) => apply preserves_modify; intros ? ?; eapply Hrest; [| | |eassumption]; reflexivity : preserves.

Lemma lasting_request_with_options method endpoint headers body options :
  preserves P (request_with_options i turns method endpoint headers body options).
Proof.
  assert (preserves P (base_url i)) as Hb by (unfold base_url, get_accesspoint; preserve).
  assert (preserves P (request_url i endpoint options)) as Hu by (unfold request_url; preserve).
  assert (∀ req headers, preserves P (authorize i turns req headers)) as Ha by (intros; unfold authorize; preserve).
  unfold request_with_options. generalize (default [] headers) (default [] body) 0. generalize turns at 2 as k.
  induction k as [|k IH]; intros hs b tries; cbn [request_loop]; unfold try_once, flush_accesspoint; preserve.
Qed.
Local Hint Resolve lasting_request_with_options : preserves.

Lemma lasting_call A (m : st (Web X) WebError A) : service_call A m → preserves P m.
Proof.
  assert (∀ res, preserves P (context_of res)) as Hx by (intros; unfold context_of; preserve).
  assert (preserves P (connection_header i)) as Hh by (unfold connection_header; preserve).
  assert (∀ url, preserves P (fetch_url i turns url)) as Hf by (intros; unfold fetch_url; preserve).
  assert (∀ name, preserves P (attribute i name)) as Hn by (intros; by apply lasting_or_fail).
  destruct 1; unfold login, set_strategy, flush_accesspoint, get_token, get_token_with_client_id, request_token, base_url, get_accesspoint,
    put_connect_state_request, put_connect_state_inactive, get_metadata, get_lyrics, get_playlist, get_radio_for_track,
    get_apollo_station, get_audio_preview, get_head_file, get_image, get_context, get_autoplay_context,
    request_as_json, request_with_protobuf, request_with_protobuf_and_options, request; preserve.
Qed.
End lasting.

Lemma past_client_token T : preserves (past T) (client_token i turns).
Proof. by apply lasting_client_token; [apply past_lasting|]. Qed.
Lemma past_auth_token T : preserves (past T) (auth_token i turns).
Proof. by apply lasting_auth_token; [apply past_lasting|apply past_client_token|]. Qed.

(** An operation that gives a token that may still be used, and changes
    nothing, keeps it. *)
Lemma kept_hit {A} get t (m : st (Web X) WebError A) :
  (∀ w, time w ≤ usable_until t → get w = Some t → ∃ r, m w = Val (w, r)) →
  preserves (past (usable_until t)) m → preserves (kept get t) m.
Proof.
  intros Hhit Hp w w' r Hk E. destruct (decide (time w ≤ usable_until t)) as [Ht|Ht].
  - destruct (Hhit w Ht (Hk Ht)) as [r' E']. rewrite E' in E. by injection E as <- <-.
  - assert (past (usable_until t) w') as Hw' by (eapply Hp; [|exact E]; unfold past; lia). intros Ht'. unfold past in Hw'. lia.
Qed.

Lemma auth_token_hit w t :
  auth_data i ≠ [] → usable_until t ≤ SYSTEM_TIME_MAX → time w ≤ usable_until t → auth_token_ w = Some t →
  auth_token i turns w = Val (w, Ok t).
Proof.
  intros Hd Hm Hnow Ht. unfold auth_token. rewrite decide_False by done.
  rewrite (st_bind_Ok _ _ _ w (Some t)); [done|]. by apply take_fresh_hit.
Qed.
Lemma client_token_hit w t :
  usable_until t ≤ SYSTEM_TIME_MAX → time w ≤ usable_until t → client_token_ w = Some t →
  client_token i turns w = Val (w, Ok (access_token t)).
Proof. intros Hm Hnow Ht. unfold client_token. rewrite (st_bind_Ok _ _ _ w (Some t)); [done|]. by apply take_fresh_hit. Qed.

Lemma kept_later get t w w' :
  (∀ w n, get (w <| net := n |>) = get w) →
  (∀ w w', client_token_ w' = client_token_ w → auth_token_ w' = auth_token_ w → get w' = get w) →
  preserves (kept get t) (client_token i turns) → preserves (kept get t) (auth_token i turns) →
  later w w' → kept get t w → kept get t w'.
Proof.
  intros Hg Hr Hc Ha Hl. pose proof (kept_lasting get t Hg) as HP.
  induction Hl as [|A m w w1 w2 r _ IH Hcall E|w w1 x _ IH Hx]; intros Hk; [done| |].
  - eapply (lasting_call (kept get t)); [done..| |exact Hcall|by apply IH|exact E].
    intros v v' En Ec Eau Hkv Ht. rewrite En in Ht. rewrite (Hr v v') by done. by apply Hkv.
  - change (w1 <| net ::= (λ n, n <| net_env := x |>) |>) with (w1 <| net := (net w1) <| net_env := x |> |>).
    apply HP; [by apply IH|done].
Qed.

(** C20: A token is asked for once.  After either of the two tokens was got, any
    number of calls of the service may follow one another, endpoints and token
    requests included, and time may pass; as long as the clock is not set back
    and it is more than ten seconds before the token expires, asking for it
    again gives the same one and changes nothing, so that nothing is sent. *)
Theorem tokens_reused w w' w2 :
  later w' w2 →
  (∀ t, auth_token i turns w = Val (w', Ok t) → usable_until t ≤ SYSTEM_TIME_MAX → time w2 ≤ usable_until t →
     auth_token i turns w2 = Val (w2, Ok t)) ∧
  (∀ s, client_token i turns w = Val (w', Ok s) → ∃ t, client_token_ w' = Some t ∧
     (usable_until t ≤ SYSTEM_TIME_MAX → time w2 ≤ usable_until t → client_token i turns w2 = Val (w2, Ok s))).
Proof.
  intros Hl. split.
  - intros t [Ht Hd]%auth_token_stored Hm Hnow. apply auth_token_hit; [done..|].
    eapply (kept_later auth_token_ t w' w2); [done|done| | |done|by intros _|done].
    + by apply lasting_client_token; [apply kept_lasting|].
    + apply kept_hit; [|apply past_auth_token]. intros v Hv Ev. eexists. by apply auth_token_hit.
  - intros s (t & Ht & <-)%client_token_stored. exists t. split; [done|]. intros Hm Hnow. apply client_token_hit; [done..|].
    assert (preserves (kept client_token_ t) (client_token i turns)) as Hc.
    { apply kept_hit; [|apply past_client_token]. intros v Hv Ev. eexists. by apply client_token_hit. }
    eapply (kept_later client_token_ t w' w2); [done|done|done| |done|by intros _|done].
    by apply lasting_auth_token; [apply kept_lasting|done|].
Qed.
End service.

(** ** Addresses of files *)

Lemma parse_int_unsigned lo hi s :
  no_char "-" s → no_char "+" s →
  parse_int lo hi s = match digit_values 10 s with
                      | Some (d :: ds) => if decide (lo ≤ eval_be 10 (d :: ds) ≤ hi) then Some (eval_be 10 (d :: ds)) else None
                      | _ => None
                      end.
Proof.
  intros Hm Hp. unfold parse_int. destruct s as [|c s]; [done|].
  apply no_char_cons in Hm as [Hm _], Hp as [Hp _]. by destruct c as [[] [] [] [] [] [] [] []].
Qed.

Lemma parse_i64_display t : 0 ≤ t ≤ i64_max → parse_i64 (display t) = Some t.
Proof.
  intros Ht. unfold parse_i64. rewrite parse_int_unsigned by (apply display_char; vm_compute; auto).
  unfold display, fmt_radix. rewrite digit_values_string; [|lia|by apply digits_be_ok].
  assert (Hlt : t < 10 ^ num_digits 10 128 t).
  { apply num_digits_enough; [lia|]. apply u128_fuel; unfold i64_max, u128_max in *; lia. }
  pose proof (num_digits_pos 10 128 t) as Hpos. generalize dependent (num_digits 10 128 t). intros k Hlt Hpos.
  assert (E : eval_be 10 (digits_be 10 k t) = t) by (apply eval_digits_be; lia).
  destruct (digits_be 10 k t) eqn:Ed.
  { apply (f_equal length) in Ed. rewrite length_digits_be in Ed. simpl in Ed. lia. }
  rewrite E. rewrite decide_True; [done|]. unfold i64_min. lia.
Qed.

Lemma str_find_prefix p s : str_find p (p +:+ s) = Some 0%nat.
Proof.
  assert (starts_with p (p +:+ s) = true) as E.
  { unfold starts_with. induction p as [|c p IH]; [by destruct s|]. rewrite string_cons_app. simpl. by destruct (ascii_dec c c). }
  destruct (p +:+ s); cbn [str_find]; by rewrite E.
Qed.

Section files.
Context `{UrlCrate}.

(** The four formats of an address that is good until second [t]. *)
Inductive carries (u : Url) (t : Z) : Prop :=
| by_verify rest : pair_of "verify" u = Some (display t +:+ String "-" rest) → carries u t
| by_token rest :
    pair_of "verify" u = None → pair_of "__token__" u = Some ("exp=" +:+ display t +:+ String "~" rest) → carries u t
| by_expires rest :
    pair_of "verify" u = None → pair_of "__token__" u = None → pair_of "Expires" u = Some (display t +:+ String "~" rest) →
    carries u t
| by_query rest :
    pair_of "verify" u = None → pair_of "__token__" u = None → pair_of "Expires" u = None →
    query u = Some (display t +:+ String "_" rest) → carries u t.

Lemma carries_text u t : carries u t → expiry_text u = Some (display t).
Proof.
  intros [rest E|rest E1 E|rest E1 E2 E|rest E1 E2 E3 E]; unfold expiry_text.
  - rewrite E, split_once_app; [done|]. apply display_char. vm_compute; auto.
  - rewrite E1, E, str_find_prefix. cbn [mbind option_bind].
    change (sdrop (0 + 4) ("exp=" +:+ display t +:+ String "~" rest)) with (display t +:+ String "~" rest).
    rewrite split_once_app; [done|]. apply display_char. vm_compute; auto.
  - rewrite E1, E2, E, split_once_app; [done|]. apply display_char. vm_compute; auto.
  - rewrite E1, E2, E3, E. cbn [mbind option_bind]. rewrite split_app; [done|]. apply display_char. vm_compute; auto.
Qed.

Definition dated (p : string * Z) : Prop :=
  ∃ u, url_parse p.1 = Some u ∧ carries u p.2 ∧ 0 ≤ p.2 ∧ 1000 * p.2 ≤ i64_max ∧ 1000 * p.2 ≤ date_max.
Definition until (p : string * Z) : MaybeExpiringUrl := (p.1, Some (1000 * p.2 - CDN_URL_EXPIRY_MARGIN)).

Lemma expiry_of_display t :
  date_min ≤ - CDN_URL_EXPIRY_MARGIN → 0 ≤ t → 1000 * t ≤ i64_max → 1000 * t ≤ date_max →
  expiry_of (display t) = Val (Some (1000 * t - CDN_URL_EXPIRY_MARGIN)).
Proof.
  intros Hd H0 Hi Hm. unfold expiry_of. rewrite parse_i64_display by lia. unfold i64_check, CDN_URL_EXPIRY_MARGIN in *.
  rewrite decide_True by (unfold i64_min; lia). simpl. rewrite decide_True by lia. do 2 f_equal. lia.
Qed.

Lemma expiring_urls_dated l :
  date_min ≤ - CDN_URL_EXPIRY_MARGIN → Forall dated l → expiring_urls true l.*1 = Val (Ok (until <$> l)).
Proof.
  intros Hd. induction 1 as [|[s t] l (u & Eu & Hc & H0 & Hi & Hm) _ IH]; [done|]. rewrite !fmap_cons.
  cbn [fst snd expiring_urls] in *. by rewrite Eu, (carries_text _ _ Hc), (expiry_of_display t Hd H0 Hi Hm), exec_bind_Val, IH.
Qed.

Definition live (at_ms : Z) (l : list (string * Z)) : list string :=
  (filter (λ p, at_ms < 1000 * p.2 - CDN_URL_EXPIRY_MARGIN) l).*1.

Lemma omap_step {A B} (f : A → option B) x l :
  omap f (x :: l) = match f x with Some y => y :: omap f l | None => omap f l end.
Proof. done. Qed.
Lemma live_omap at_ms l :
  omap (λ u, if not_expired at_ms u then Some u.1 else None) (until <$> l) = live at_ms l.
Proof.
  induction l as [|[s t] l IH]; [done|]. unfold live in *. rewrite filter_cons, fmap_cons, omap_step. unfold not_expired at 1. cbn [until fst snd].
  case_decide; [rewrite bool_decide_true by done|rewrite bool_decide_false by done]; by rewrite IH.
Qed.
Lemma live_find at_ms l :
  match list_find (λ u, not_expired at_ms u = true) (until <$> l) with Some (_, u) => Some u.1 | None => None end =
  head (live at_ms l).
Proof.
  induction l as [|[s t] l IH]; [done|]. unfold live. rewrite filter_cons, fmap_cons. cbn [list_find].
  assert (not_expired at_ms (until (s, t)) = true ↔ at_ms < 1000 * t - CDN_URL_EXPIRY_MARGIN) as Ht
    by apply bool_decide_eq_true.
  destruct (decide (not_expired _ _ = true)) as [Hn|Hn]; rewrite Ht in Hn; [by rewrite decide_True|rewrite decide_False by done]. fold (live at_ms l). rewrite <- IH.
  by destruct (list_find _ _) as [[? ?]|].
Qed.

(** C21: An address of an audio file is used until five minutes before it expires, whichever of the four formats says when
    that is: of the addresses the service answered with, the ones in use at some time are those, in their order; the
    older call gives the first of them; it is an error that they expired when none is left, and another when the
    service gave none. *)
Theorem cdn_until_expiry id fid l at_ms :
  date_min ≤ - CDN_URL_EXPIRY_MARGIN → fid ≠ [] → Forall dated l →
  ∃ us, try_from (mkStorageResolveResponse true l.*1 fid) = Val (Ok us) ∧
    try_get_urls at_ms (mkCdnUrl id us) =
      (if decide (l = []) then Err Unresolved else if decide (live at_ms l = []) then Err Expired else Ok (live at_ms l)) ∧
    try_get_url at_ms (mkCdnUrl id us) =
      (if decide (l = []) then Err Unresolved else match live at_ms l with [] => Err Expired | u :: _ => Ok u end).
Proof.
  intros Hd Hf Hl. exists (until <$> l). split_and!.
  - unfold try_from. simpl. rewrite bool_decide_false by done. by apply expiring_urls_dated.
  - unfold try_get_urls. cbn [urls]. rewrite live_omap. by destruct l.
  - unfold try_get_url. cbn [urls]. pose proof (live_find at_ms l) as E.
    destruct (list_find _ _) as [[? ?]|]; destruct l; try done; by destruct (live _ _); simplify_eq/=.
Qed.

(** With no file id in the answer, the addresses do not expire. *)
Lemma cdn_lasting l at_ms :
  Forall (λ s, is_Some (url_parse s)) l →
  ∃ us, try_from (mkStorageResolveResponse true l []) = Val (Ok us) ∧
    ∀ id, l ≠ [] → try_get_urls at_ms (mkCdnUrl id us) = Ok l.
Proof.
  intros Hl. exists ((λ s, (s, None)) <$> l). split.
  - unfold try_from. simpl. induction Hl as [|s l [u Eu] _ IH]; [done|]. simpl. by rewrite Eu, IH.
  - intros id Hne. unfold try_get_urls. cbn [urls].
    assert (omap (λ u : MaybeExpiringUrl, if not_expired at_ms u then Some u.1 else None) ((λ s, (s, None)) <$> l) = l) as E.
    { clear. induction l as [|s l IH]; [done|]. rewrite fmap_cons, omap_step. cbn [not_expired fst snd]. by rewrite IH. }
    rewrite E. by destruct l.
Qed.

(** A time too far ahead is no error but stops the program. *)
Lemma expiry_overflows u s l fid :
  url_parse s = Some u → expiry_text u = Some "9223372036854776" → fid ≠ [] →
  try_from (mkStorageResolveResponse true (s :: l) fid) = Panic.
Proof.
  intros Eu Et Hf. unfold try_from. simpl. rewrite bool_decide_false by done. simpl. rewrite Eu, Et.
  by assert (expiry_of "9223372036854776" = Panic) as -> by reflexivity.
Qed.
End files.

(** ** Limits *)

(** A wait is at most ten seconds. *)
Lemma wait_limited_bounds ms d : wait_limited ms = Some d → 0 ≤ d ≤ RATE_LIMIT_MAX_WAIT.
Proof.
  unfold wait_limited. case_decide; [|done]. intros [= <-]. split; [|done]. unfold wrapu. by apply Z.mod_pos_bound.
Qed.
Lemma retry_after_bounds `{HttpEnv X} at_ms headers d :
  get_retry_after at_ms headers = Val (Some d) → 0 ≤ d ≤ RATE_LIMIT_MAX_WAIT.
Proof.
  unfold get_retry_after.
  destruct (header_get "x-ratelimit-next" _); [|destruct (header_get "fastly-ratelimit-reset" _)].
  1,2: intros [= E]; destruct (to_str_ok _); [|done]; apply bind_Some in E as (t & _ & E); by eapply wait_limited_bounds.
  destruct (header_get "retry-after" _); [|done]. destruct (if to_str_ok _ then _ else _) as [seconds|]; [|done].
  intros (ms & _ & E)%exec_bind_Val_inv. injection E as E. by eapply wait_limited_bounds.
Qed.

(** A time that has passed already is no reason to try at once: the request fails. *)
Lemma passed_gives_up ms : - 2 ^ 63 ≤ ms < 0 → wait_limited ms = None.
Proof.
  intros Hms. unfold wait_limited, wrapu. rewrite decide_False; [done|].
  rewrite <- (Z.mod_unique_pos ms (2 ^ 64) (-1) (ms + 2 ^ 64)) by lia. unfold RATE_LIMIT_MAX_WAIT. lia.
Qed.

(** ** A service to try it on *)

Module Toy.
(** The answers that are left, and the time. *)
Abbreviation X := (list HttpResponse * Z)%type.

#[export] Instance http : HttpEnv X := {|
  now := snd;
  sleep d x := (x.1, x.2 + Z.max 0 d);
  exchange _ x := match x.1 with [] => (x, Err Unavailable) | r :: l => ((l, x.2 + 1), Ok r) end;
  limiter _ x := (x, true);
  uri_host _ := None;
  from_iso8601 _ := None;
|}.

(** Every body is the same message: a token when it is empty, else a challenge. *)
Definition message (b : list Z) : option ClientTokenResponse :=
  Some (mkClientTokenResponse (if decide (b = []) then 1 else 2) (mkGrantedToken "ct" 3600 []) "state" [("AA", 0)]).

#[export] Instance sp : SpEnv X := {|
  fetch_points x := (x, None);
  random_u32 x := (x, 7);
  solving x := (x, 1%nat);
  uri_ok _ := true;
  sha1 b := replicate 19 0 ++ [foldl Z.add 5 b `mod` 256];
  hexupper_decode _ := Some [];
  hexupper_encode _ := "00";
  write_client_token _ := [];
  parse_client_token := message;
  write_login _ := [];
  parse_login _ := Some (mkLoginResponse (AnswerOk (mkLoginOk "at" 3600 [])) []);
  parse_context _ := None;
  write_entity_request _ _ := [];
  parse_extensions _ := None;
  mercury_get _ x := (x, Err Unavailable);
  parse_token _ := None;
|}.

Definition ident : Ident := mkIdent "linux" "x86_64" "1" "1" 10 "1" "toy" "id" "device" "user" "SE" [1] "conn" None ∅.
Definition answer (status : Z) (body : list Z) : HttpResponse := mkHttpResponse status [] (Ok body).
Definition web (l : list HttpResponse) : Web X :=
  mkWeb (mkPoints [] [] []) None (TryTimes 5) None None [] (mkNet (l, 1000) []).

(** Two tokens, four failures, and an answer: seven messages. *)
Definition troubled : Web X := web (answer 200 [] :: answer 200 [] :: replicate 4 (answer 503 []) ++ [answer 200 [42]]).
End Toy.
#[export] Existing Instances Toy.http Toy.sp.

Lemma request_tries_witness :
  (decides Toy.ident 9 "GET" "/x" [] [] options_default 5 Toy.troubled
     (request_with_options Toy.ident 9 "GET" "/x" None None options_default Toy.troubled)) ∧
  (∃ w, request_with_options Toy.ident 9 "GET" "/x" None None options_default Toy.troubled = Val (w, Ok [42]) ∧
     List.length (net_log (net w)) = 7%nat).
Proof.
  split.
  - by apply (request_tries Toy.ident 9 "GET" "/x" None None options_default 5 Toy.troubled);
      [vm_compute; reflexivity|vm_compute; split; congruence|lia].
  - eexists. split; vm_compute; reflexivity.
Defined.

#[export] Instance toy_clock : ClockLaws (X:=Toy.X).
Proof. split; simpl; intros; try done; [lia|]. case_match; simpl; lia. Qed.

(** Both tokens are got, then a request is made and fifty minutes pass. *)
Definition state_of {A} (m : exec (Web Toy.X * A)) : Web Toy.X := match m with Val (w, _) => w | Panic => Toy.troubled end.
Definition got : Web Toy.X := state_of (auth_token Toy.ident 9 Toy.troubled).
Definition asked : Web Toy.X := state_of (request_with_options Toy.ident 9 "GET" "/x" None None options_default got).
Definition hour : Web Toy.X := asked <| net ::= (λ n, n <| net_env := ([], 3000000) |>) |>.

Lemma tokens_reused_witness :
  auth_token Toy.ident 9 hour = Val (hour, Ok (mkToken "at" 3600000 "Bearer" [] 1002)) ∧
  client_token Toy.ident 9 hour = Val (hour, Ok "ct").
Proof.
  assert (later Toy.ident 9 got hour) as Hl.
  { apply later_world; [|vm_compute; congruence]. eapply later_call;
      [apply later_now|apply (call_request _ _ "GET" "/x" None None options_default)|vm_compute; reflexivity]. }
  split.
  - apply (proj1 (tokens_reused Toy.ident 9 Toy.troubled got hour Hl)); vm_compute; congruence.
  - destruct (proj2 (tokens_reused Toy.ident 9 got got hour Hl) "ct") as (t & Ht & Hc).
    { vm_compute. reflexivity. }
    vm_compute in Ht. injection Ht as <-. apply Hc; vm_compute; congruence.
Defined.

Lemma hash_cash_least_witness :
  ∃ c, 0 ≤ c < 300 ∧ solved Toy.sp.(sha1) [1; 2] [3] 6 c ∧
    solve_hash_cash Toy.sp.(sha1) [1; 2] [3] 6 300 = Val (Ok (suffix Toy.sp.(sha1) [1; 2] c)).
Proof.
  destruct (hash_cash_least Toy.sp.(sha1) [1; 2] [3] 6 300) as [(c & Hc & Hs & _ & E & _)|[_ E]];
    [lia|vm_compute; congruence|vm_compute; congruence|vm_compute; congruence|eauto|]. by vm_compute in E.
Defined.

(** The count of client token challenges is kept in a byte, and a service that goes on giving challenges, whose answers it
    accepts, makes it overflow: the limit of three is not looked at. *)
Example token_count_overflows :
  client_token Toy.ident 9 (Toy.web (replicate 300 (Toy.answer 200 [1]))) = Panic ∧
  (∃ w, client_token Toy.ident 9 (Toy.web (replicate 200 (Toy.answer 200 [1]) ++ [Toy.answer 200 []])) = Val (w, Ok "ct")).
Proof. split; [by vm_compute|]. eexists. vm_compute. reflexivity. Qed.

(** Addresses that are their own queries. *)
#[export] Instance toy_urls : UrlCrate := {|
  Url := string;
  url_parse s := Some s;
  query_pairs s := match split_once "=" s with Some p => [p] | None => [] end;
  query s := Some s;
  date_min := -10 ^ 12;
  date_max := 10 ^ 15;
|}.

Lemma cdn_until_expiry_witness :
  ∃ us, try_from (mkStorageResolveResponse true
      ["verify=1750549951-x"; "__token__=exp=1688165560~hmac"; "Expires=1688165561~y"; "1688165562_z"] [1]) = Val (Ok us) ∧
    try_get_urls 1688165261000 (mkCdnUrl (mkFileId (replicate 20 0)) us) = Ok ["verify=1750549951-x"; "1688165562_z"].
Proof.
  destruct (cdn_until_expiry (mkFileId (replicate 20 0)) [1]
    [("verify=1750549951-x", 1750549951); ("__token__=exp=1688165560~hmac", 1688165560);
     ("Expires=1688165561~y", 1688165561); ("1688165562_z", 1688165562)] 1688165261000) as (us & E & Eu & _).
  - vm_compute. congruence.
  - done.
  - repeat constructor; eexists; (split_and!; [reflexivity| |vm_compute; congruence..]).
    + apply (by_verify _ _ "x"). by vm_compute.
    + apply (by_token _ _ "hmac"); by vm_compute.
    + apply (by_expires _ _ "y"); by vm_compute.
    + apply (by_query _ _ "z"); by vm_compute.
  - exists us. split; [exact E|]. rewrite Eu. by vm_compute.
Defined.
