(* ===== verification/DealerSocket.v ===== *)
(** * The web socket of the dealer: [connect] and [run] of [core/src/dealer/mod.rs]

    A connection has a task that writes what is queued and a task that reads,
    which also pings the peer and gives it up when it does not answer; another
    task connects again whenever one of the two has ended. *)

From S2P Require Import Prelude Text DealerMaps Dealer Http.

Local Open Scope Z_scope.

(** ** One connection *)

Inductive WsMessage := WsText (s : string) | WsBinary (l : list Z) | WsPing | WsPong | WsClose.

Definition PING_INTERVAL : Z := 30000.
Definition PING_TIMEOUT : Z := 3000.
Definition RECONNECT_INTERVAL : Z := 10000.

(** Times in milliseconds: waiting for the tick of the interval, or for the
    time to look for the answer, with the tick after it. *)
Inductive PingTask := Tick (at_ms : Z) | Look (at_ms tick : Z).

(** [incoming] parses a text, [reply_text] is the JSON of a reply. *)
Class SocketFormat `{DealerFormat} := {
  incoming : string → option (WebsocketMessage + WebsocketRequest);
  reply_text : string → bool → string;
}.

Section socket.
Context `{SocketFormat}.

Record Conn := mkConn {
  shared : Dealer;
  dropped : bool;
  queue : list WsMessage;
  rx_open : bool;
  written : list WsMessage;
  send_done : bool;
  receive_done : bool;
  pong_received : bool;
  ping_task : PingTask;
}.
#[global] Instance settable_Conn : Settable Conn := λ r,
  mkConn (shared r) (dropped r) (queue r) (rx_open r) (written r) (send_done r) (receive_done r) (pong_received r) (ping_task r).

(** The first tick is due at once. *)
Definition connected (d : Dealer) (is_dropped : bool) (now : Z) : Conn := mkConn d is_dropped [] true [] false false true (Tick now).

(** Sending fails once the other task has closed the channel. *)
Definition enqueue (m : WsMessage) (c : Conn) : Conn := if rx_open c then c <| queue ::= (λ q, q ++ [m]) |> else c.

(** What was dispatched may have put replies into the queue. *)
Definition with_replies (d : Dealer) (c : Conn) : Conn :=
  foldl (λ c r, enqueue (WsText (reply_text r.1 r.2)) c) (c <| shared := d |>) (drop (length (replies (shared c))) (replies d)).

(** The receiving task ends, and asks the other one to. *)
Definition end_receive (c : Conn) : Conn := enqueue WsClose (c <| receive_done := true |>).

Definition receive (m : WsMessage) (c : Conn) : Conn :=
  match m with
  | WsText t =>
      match incoming t with
      | Some (inl msg) => with_replies (dispatch_message msg (shared c)) c
      | Some (inr req) => with_replies (dispatch_request req (shared c)) c
      | None => c
      end
  | WsPong => c <| pong_received := true |>
  | _ => c
  end.

Definition timer (now : Z) (c : Conn) : Conn :=
  match ping_task c with
  | Tick t =>
      let c := c <| pong_received := false |> in
      if rx_open c then enqueue WsPing c <| ping_task := Look (now + PING_TIMEOUT) (t + PING_INTERVAL) |>
      else end_receive c
  | Look _ t => if pong_received c then c <| ping_task := Tick t |> else end_receive c
  end.

(** The sending task is over: the channel is closed, and a last message
    written, unless the socket says that it is closed. *)
Definition end_send (say_close : bool) (c : Conn) : Conn :=
  let c := c <| rx_open := false |> <| send_done := true |> in
  if say_close then c <| written ::= (λ l, l ++ [WsClose]) |> else c.

(** How a socket fails: [Gone] is [AlreadyClosed] and [ConnectionClosed]. *)
Inductive SocketError := Gone | OtherError.
Definition is_other (e : SocketError) : bool := match e with Gone => false | OtherError => true end.

(** One turn of the sending task, first the drop of the dealer, then the
    queue; feeding may fail.  The channel has no end before a close is in it. *)
Definition send_turn (fails : option SocketError) (c : Conn) : Conn :=
  if dropped c then end_send true c
  else
    match queue c with
    | [] => match fails with Some e => end_send (is_other e) c | None => c end
    | m :: q =>
        let c := c <| queue := q |> in
        match m, fails with
        | WsClose, _ => end_send true c
        | _, Some e => end_send (is_other e) c
        | _, None => c <| written ::= (λ l, l ++ [m]) |>
        end
    end.

Inductive label :=
| LSend (fails : option SocketError) | LReceive (m : WsMessage) | LReceiveEnd | LTimer | LReply (n : nat) (r : option Reply) | LDrop.

Definition step (now : Z) (l : label) (c : Conn) : Conn :=
  match l with
  | LSend fails => if send_done c then c else send_turn fails c
  | LReceive m => if receive_done c then c else receive m c
  | LReceiveEnd => if receive_done c then c else end_receive c
  | LTimer => if receive_done c then c else timer now c
  | LReply n r => with_replies (reply n r (shared c)) c
  | LDrop => c <| dropped := true |>
  end.

Definition run_conn (l : list (Z * label)) (c : Conn) : Conn := foldl (λ c e, step e.1 e.2 c) c l.
End socket.

(** ** Connecting again *)

Inductive Phase := Waiting | Fetching | Connecting | Sleeping (wake : Z) | Joining | Returned (r : result unit ErrorKind).

(** Whether the dealer was dropped, and which tasks there are. *)
Record Runner := mkRunner { closed : bool; task0 : bool; task1 : bool; phase : Phase }.
#[export] Instance settable_Runner : Settable Runner := λ r, mkRunner (closed r) (task0 r) (task1 r) (phase r).

Definition loop_top (r : Runner) : Runner :=
  r <| phase := if closed r then Joining else if task0 r && task1 r then Waiting else Fetching |>.

Definition run_start (initial : bool) (is_closed : bool) : Runner := loop_top (mkRunner is_closed initial initial Waiting).

Inductive happening := HDropped | HTask0 | HTask1 | HUrl (r : result unit ErrorKind) | HConnect (ok : bool) | HWake | HJoined.

(** What is awaited elsewhere does not happen. *)
Definition run_step (now : Z) (h : happening) (r : Runner) : Runner :=
  match h, phase r with
  | HDropped, Waiting => r <| closed := true |> <| phase := Joining |>
  | HDropped, Fetching => r <| closed := true |> <| phase := Joining |>
  | HDropped, _ => r <| closed := true |>
  | HTask0, Waiting => loop_top (r <| task0 := false |>)
  | HTask1, Waiting => loop_top (r <| task1 := false |>)
  | HUrl (Ok _), Fetching => r <| phase := Connecting |>
  | HUrl (Err e), Fetching => r <| phase := Returned (Err e) |>
  | HConnect true, Connecting => loop_top (r <| task0 := true |> <| task1 := true |>)
  | HConnect false, Connecting => r <| phase := Sleeping (now + RECONNECT_INTERVAL) |>
  | HWake, Sleeping wake => if decide (wake ≤ now) then loop_top r else r
  | HJoined, Joining => r <| phase := Returned (Ok ()) |>
  | _, _ => r
  end.

Definition run_loop (l : list (Z * happening)) (r : Runner) : Runner := foldl (λ r e, run_step e.1 e.2 r) r l.

(** ** The watch over a connection *)

Section watch.
Context `{SocketFormat}.
Implicit Types c : Conn.

Definition due c : Z := match ping_task c with Tick t => t | Look t _ => t end.

(** Time does not go back, no timer is missed, and none fires early. *)
Inductive timely : Z → list (Z * label) → Conn → Prop :=
| timely_nil now c : timely now [] c
| timely_cons now t l rest c :
    now ≤ t → (receive_done c = false → t ≤ due c) → (l = LTimer → due c ≤ t) → timely t rest (step t l c) →
    timely now ((t, l) :: rest) c.

Definition last_pong (start : Z) (l : list (Z * label)) : Z :=
  foldl (λ last e, match e.2 with LReceive WsPong => e.1 | _ => last end) start l.

(** The state of the watch, with the last time a pong came. *)
Definition watched (now last : Z) c : Prop :=
  last ≤ now ∧ (receive_done c = false →
  match ping_task c with
  | Tick t => t - PING_INTERVAL ≤ last
  | Look t tick =>
      tick = t - PING_TIMEOUT + PING_INTERVAL ∧ t - PING_TIMEOUT ≤ now ∧ t - PING_TIMEOUT - PING_INTERVAL ≤ last ∧
      if pong_received c then t - PING_TIMEOUT ≤ last else last ≤ t - PING_TIMEOUT
  end).

(** What replying, sending and dropping leave alone. *)
Definition watch c := (receive_done c, pong_received c, ping_task c).

Lemma watch_enqueue m c : watch (enqueue m c) = watch c.
Proof. unfold enqueue. by destruct (rx_open c). Qed.
Lemma watch_replies d c : watch (with_replies d c) = watch c.
Proof.
  unfold with_replies. change (watch c) with (watch (c <| shared := d |>)).
  generalize (drop (length (replies (shared c))) (replies d)). generalize (c <| shared := d |>). clear c.
  intros c rs. revert c. induction rs as [|r rs IH]; intros c; [done|]. cbn [foldl]. by rewrite IH, watch_enqueue.
Qed.
Lemma watch_send fails c : watch (send_turn fails c) = watch c.
Proof.
  unfold send_turn, end_send. destruct (dropped c); [done|].
  destruct (queue c) as [|[] q], fails as [[]|]; done.
Qed.

Lemma watched_same now last c c' : watch c' = watch c → watched now last c → watched now last c'.
Proof. unfold watch, watched. intros [= -> -> ->]. done. Qed.
Lemma watched_later now t last c : now ≤ t → watched now last c → watched t last c.
Proof.
  unfold watched. intros Ht [Hl Hw]. split; [lia|]. intros Hr. specialize (Hw Hr).
  destruct (ping_task c); [done|]. intuition lia.
Qed.

Lemma watched_ended now last c : last ≤ now → watched now last (end_receive c).
Proof. intros Hl. split; [done|]. unfold end_receive, enqueue. by destruct (rx_open _). Qed.

Lemma watched_receive now last m c :
  now ≤ due c → watched now last c → receive_done c = false →
  watched now (match m with WsPong => now | _ => last end) (receive m c).
Proof.
  intros Hd [Hl Hw] Hr. destruct m; try done.
  - unfold receive. destruct (incoming s) as [[]|]; try done; (eapply watched_same; [apply watch_replies|done]).
  - unfold receive, watched. simpl. split; [done|]. intros _. specialize (Hw Hr). unfold due, PING_TIMEOUT, PING_INTERVAL in *.
    destruct (ping_task c) as [t|t tick]; [lia|]. destruct Hw as (-> & Hn & Hw & Hp). split_and!; [done|lia|lia|lia].
Qed.

Lemma watched_timer now last c :
  due c = now → watched now last c → receive_done c = false → watched now last (timer now c).
Proof.
  intros Hd [Hl Hw] Hr. specialize (Hw Hr). unfold timer, due in *. unfold PING_TIMEOUT, PING_INTERVAL in *.
  destruct (ping_task c) as [t|t tick].
  - subst t. simpl. destruct (rx_open c) eqn:Ho; [|by apply watched_ended]. split; [done|].
    intros _. unfold enqueue. simpl. destruct (rx_open c); simpl; unfold PING_TIMEOUT, PING_INTERVAL; split_and!; lia.
  - destruct Hw as (-> & Hn & Hw & Hp). destruct (pong_received c); [|by apply watched_ended].
    split; [done|]. intros _. simpl. unfold PING_INTERVAL. lia.
Qed.

Lemma watched_step now t l last c :
  now ≤ t → (receive_done c = false → t ≤ due c) → (l = LTimer → due c ≤ t) → watched now last c →
  watched t (match l with LReceive WsPong => t | _ => last end) (step t l c).
Proof.
  intros Hn Hd Ht Hw%(watched_later _ t); [|done].
  destruct l as [fails|m| | |n r|]; cbn [step].
  - destruct (send_done c); [done|]. by eapply watched_same; [apply watch_send|].
  - destruct (receive_done c) eqn:Hr.
    + destruct m; try done. split; [done|]. by rewrite Hr.
    + apply watched_receive; auto.
  - destruct (receive_done c); [done|]. apply watched_ended, Hw.
  - destruct (receive_done c) eqn:Hr; [done|]. apply watched_timer; [|done|done]. specialize (Hd eq_refl). specialize (Ht eq_refl). lia.
  - by eapply watched_same; [apply watch_replies|].
  - by eapply watched_same; [|exact Hw].
Qed.

Lemma watched_run now l last c :
  timely now l c → watched now last c → watched (foldl (λ _ e, e.1) now l) (last_pong last l) (run_conn l c).
Proof.
  intros Ht. revert last. induction Ht as [|now t l rest c Hn Hd Hl _ IH]; intros last Hw; [done|].
  apply IH. by eapply watched_step.
Qed.

Lemma timely_split now l l' c : timely now (l ++ l') c → timely (foldl (λ _ e, e.1) now l) l' (run_conn l c) ∧ timely now l c.
Proof.
  revert now c. induction l as [|[t e] l IH]; intros now c Ht; [split; [done|constructor]|].
  simpl in Ht. inversion Ht as [|? ? ? ? ? Hn Hd Hl Hrest]; subst. destruct (IH _ _ Hrest). split; [done|]. by constructor.
Qed.

(** C25: The watch over a web socket finds out about a dead peer and spares a live one.  While the receiving task runs, the
    last pong, or the start of the connection, is at most 33 seconds ago; the task ends only when the socket ends, when
    the channel to the sending task is closed, or when no pong came since a ping three seconds before. *)
Theorem dealer_watchdog d is_dropped start l t e :
  timely start (l ++ [(t, e)]) (connected d is_dropped start) →
  let c := run_conn l (connected d is_dropped start) in
  receive_done c = false →
  t ≤ last_pong start l + PING_INTERVAL + PING_TIMEOUT ∧
  (receive_done (step t e c) = true →
     e = LReceiveEnd ∨ e = LTimer ∧ (rx_open c = false ∨ last_pong start l ≤ t - PING_TIMEOUT)).
Proof.
  intros Ht c Hr. apply timely_split in Ht as [Hlast Ht]. inversion Hlast as [|? ? ? ? ? Hn Hd Hl _]; subst. fold c in Hd, Hl.
  specialize (Hd Hr).
  assert (watched start start (connected d is_dropped start)) as Hw.
  { split; [done|]. intros _. simpl. unfold PING_INTERVAL. lia. }
  apply (watched_run _ _ _ _ Ht) in Hw as [_ Hw]. fold c in Hw. specialize (Hw Hr). unfold due, PING_TIMEOUT, PING_INTERVAL in *.
  split; [destruct (ping_task c); [lia|intuition lia]|].
  destruct e as [fails|m| | |n r|]; cbn [step]; rewrite ?Hr.
  - destruct (send_done c); [congruence|]. pose proof (watch_send fails c) as [= E _ _]. congruence.
  - intros E. exfalso. revert E. destruct m; cbn [receive]; try congruence; [|simpl; congruence].
    destruct (incoming s) as [[]|]; try congruence.
    + pose proof (watch_replies (dispatch_message w (shared c)) c) as [= E _ _]. congruence.
    + pose proof (watch_replies (dispatch_request w (shared c)) c) as [= E _ _]. congruence.
  - by left.
  - intros E. right. split; [done|]. specialize (Hl eq_refl). unfold timer in E.
    destruct (ping_task c) as [tt|tt tick]; simpl in E.
    + destruct (rx_open c) eqn:Ho; [|by left]. exfalso. revert E. unfold enqueue. simpl. rewrite ?Ho. simpl. congruence.
    + destruct (pong_received c); [simpl in E; congruence|]. right. lia.
  - pose proof (watch_replies (reply n r (shared c)) c) as [= E _ _]. congruence.
  - simpl. congruence.
Qed.

(** *** What is written *)

Lemma run_conn_cons e l c : run_conn (e :: l) c = run_conn l (step e.1 e.2 c).
Proof. done. Qed.

(** The messages before a close are written in order, then the close, and the sending task has ended. *)
Lemma queue_drained q rest t c :
  dropped c = false → send_done c = false → queue c = q ++ WsClose :: rest → Forall (λ m, m ≠ WsClose) q →
  let c' := run_conn (replicate (S (length q)) (t, LSend None)) c in
  written c' = written c ++ q ++ [WsClose] ∧ send_done c' = true ∧ rx_open c' = false.
Proof.
  revert c. induction q as [|m q IH]; intros c Hd Hs Hq Hall.
  - simpl. unfold send_turn. rewrite Hs, Hd, Hq. done.
  - apply Forall_cons in Hall as [Hm Hall]. cbn [length replicate]. rewrite run_conn_cons. cbn [step fst snd]. rewrite Hs.
    assert (send_turn None c = c <| queue := q ++ WsClose :: rest |> <| written ::= (λ l, l ++ [m]) |>) as ->.
    { unfold send_turn. rewrite Hd, Hq. by destruct m. }
    destruct (IH (c <| queue := q ++ WsClose :: rest |> <| written ::= (λ l, l ++ [m]) |>)) as (Hw & Hend); try done.
    split; [|done]. etrans; [exact Hw|]. simpl. by rewrite <- app_assoc.
Qed.

(** A connection whose receiving task ends takes the sending task down with it. *)
Lemma ended_closes t c :
  dropped c = false → send_done c = false → rx_open c = true → Forall (λ m, m ≠ WsClose) (queue c) →
  let c' := run_conn (replicate (S (length (queue c))) (t, LSend None)) (end_receive c) in
  written c' = written c ++ queue c ++ [WsClose] ∧ send_done c' = true.
Proof.
  intros Hd Hs Ho Hq. assert (end_receive c = c <| receive_done := true |> <| queue := queue c ++ [WsClose] |>) as ->.
  { unfold end_receive, enqueue. simpl. by rewrite Ho. }
  destruct (queue_drained (queue c) [] t (c <| receive_done := true |> <| queue := queue c ++ [WsClose] |>)) as (Hw & He & _);
    done.
Qed.

(** A dropped dealer says so, and writes nothing more. *)
Lemma dropped_closes t fails c :
  send_done c = false →
  let c' := run_conn [(t, LDrop); (t, LSend fails)] c in
  written c' = written c ++ [WsClose] ∧ send_done c' = true ∧ ∀ t' l, written (step t' (LSend l) c') = written c'.
Proof. intros Hs. simpl. rewrite Hs. unfold send_turn. simpl. done. Qed.
End watch.

Lemma dealer_watchdog_witness :
  let F := plain_format in
  let S := {| incoming _ := None; reply_text _ _ := EmptyString |} : SocketFormat in
  let c := run_conn [(0, LTimer); (100, LReceive WsPong); (3000, LTimer)] (connected (dealer_new tables_new ∅ ∅) false 0) in
  receive_done c = false ∧ 30000 ≤ 100 + PING_INTERVAL + PING_TIMEOUT.
Proof.
  intros F S c. split; [vm_compute; reflexivity|].
  apply (dealer_watchdog (dealer_new tables_new ∅ ∅) false 0 [(0, LTimer); (100, LReceive WsPong); (3000, LTimer)] 30000 LTimer);
    [|vm_compute; reflexivity].
  repeat (apply timely_cons; [vm_compute; congruence|intros _; vm_compute; congruence|vm_compute; congruence|]).
  apply timely_nil.
Defined.

(** ** Connecting again *)

Definition runner_ok (l : list (Z * happening)) (r : Runner) : Prop :=
  match phase r with
  | Waiting => closed r = false ∧ task0 r = true ∧ task1 r = true
  | Fetching => closed r = false ∧ (task0 r && task1 r = false)
  | Connecting => task0 r && task1 r = false
  | Sleeping wake => (∃ t, (t, HConnect false) ∈ l ∧ wake = t + RECONNECT_INTERVAL) ∧ (task0 r && task1 r = false)
  | Joining | Returned (Ok _) => closed r = true
  | Returned (Err e) => ∃ t, (t, HUrl (Err e)) ∈ l
  end.

Lemma loop_top_ok l r : runner_ok l (loop_top r).
Proof. unfold runner_ok, loop_top. destruct r as [[] [] [] ?]; simpl; done. Qed.

Lemma run_step_ok l t h r : runner_ok l r → runner_ok (l ++ [(t, h)]) (run_step t h r).
Proof.
  assert (∀ r, runner_ok l r → runner_ok (l ++ [(t, h)]) r) as Hmono.
  { intros r' Hr. unfold runner_ok in *. destruct (phase r') as [| | |wake| |[]]; try done.
    - destruct Hr as [(t' & ? & ?) ?]. split; [|done]. exists t'. split; [by apply elem_of_app; left|done].
    - destruct Hr as (t' & ?). exists t'. by apply elem_of_app; left. }
  intros Hr%Hmono. unfold run_step. destruct h as [| | |[[]|e]|[]| |], (phase r) as [| | |wake| |[[]|e']] eqn:Hp; try exact Hr;
    try apply loop_top_ok; unfold runner_ok in *; rewrite ?Hp in *; simpl in *; rewrite ?Hp; try tauto.
  - exists t. apply elem_of_app. right. by apply list_elem_of_singleton.
  - split; [|done]. exists t. split; [|done]. apply elem_of_app. right. by apply list_elem_of_singleton.
  - case_decide; [apply loop_top_ok|]. by rewrite Hp.
Qed.

Lemma run_loop_ok l initial cl : runner_ok l (run_loop l (run_start initial cl)).
Proof.
  unfold run_loop. induction l as [|[t h] l IH] using rev_ind; [apply loop_top_ok|].
  rewrite foldl_app. by apply run_step_ok.
Qed.

Lemma sleeping_sleeps wake l r :
  Forall (λ e, e.1 < wake) l → phase r = Sleeping wake → phase (run_loop l r) = Sleeping wake.
Proof.
  intros Hl. revert r. induction Hl as [|[t h] l Ht _ IH]; intros r Hr; [done|]. apply IH. simpl in *.
  unfold run_step. rewrite Hr. destruct h as [| | |[]|[]| |]; try done. by rewrite decide_False by lia.
Qed.

(** C26: The dealer stays connected.  Its background task returns only after the dealer was dropped, or with the error of
    looking up the address; whenever it waits it has a connection with both tasks; when either task ends it asks for an
    address at once, and an address and a connection later it waits again; after a connection that fails it sleeps
    until ten seconds later, whatever happens, and then asks again. *)
Theorem dealer_reconnects l initial :
  let r := run_loop l (run_start initial false) in
  match phase r with
  | Returned (Ok _) => closed r = true
  | Returned (Err e) => ∃ t, (t, HUrl (Err e)) ∈ l
  | Waiting =>
      task0 r = true ∧ task1 r = true ∧
      ∀ h t1 t2 t3, h = HTask0 ∨ h = HTask1 →
        phase (run_step t1 h r) = Fetching ∧
        phase (run_loop [(t1, h); (t2, HUrl (Ok ())); (t3, HConnect true)] r) = Waiting
  | Sleeping wake =>
      (∃ t, (t, HConnect false) ∈ l ∧ wake = t + RECONNECT_INTERVAL) ∧
      (∀ l', Forall (λ e, e.1 < wake) l' → phase (run_loop l' r) = Sleeping wake) ∧
      ∀ t, wake ≤ t → phase (run_step t HWake r) = if closed r then Joining else Fetching
  | _ => True
  end.
Proof.
  pose proof (run_loop_ok l initial false) as Hok. simpl. generalize dependent (run_loop l (run_start initial false)).
  intros r Hok. unfold runner_ok in Hok. destruct (phase r) as [| | |wake| |[]] eqn:Hp; try done.
  - destruct Hok as (Hc & H0 & H1). split_and!; [done|done|].
    destruct r as [cl a b ph]. simpl in *. subst. by intros h t1 t2 t3 [-> | ->].
  - destruct Hok as [Hw Ht]. split_and!; [done|intros; by apply sleeping_sleeps|].
    intros t Hwt. destruct r as [cl a b ph]. simpl in *. subst. rewrite decide_True by done. unfold loop_top. simpl. by rewrite Ht.
Qed.
