(* ===== verification/Discovery.v ===== *)
(** * Discovery: [discovery/src] and the blob of [core/src/authentication.rs]

    A phone in the same network finds the device, asks what it is, and hands
    over the credentials of its user: encrypted twice, under a key that both
    sides agree on and under one that is derived from user and device. *)

From S2P Require Import Prelude Digits Text Wire ApCodec Handshake Connection Http.

Local Open Scope string_scope.
Local Open Scope list_scope.
Local Open Scope Z_scope.
Local Coercion Z.of_nat : nat >-> Z.

(** Ciphers, hashes and encodings of libraries. *)
Class DiscoveryCrypto := {
  digest : list Z → list Z;
  hmac : list Z → list Z → list Z;
  pbkdf2_hmac : list Z → list Z → Z → nat → list Z;
  aes192_decrypt : list Z → list Z → list Z;
  aes128_ctr : list Z → list Z → list Z → list Z;
  base64_decode : list Z → option (list Z);
  base64_encode : list Z → string;
}.

(** [[data[a..b]]]; a range that is not one panics. *)
Definition slice (a b : Z) (data : list Z) : exec (list Z) :=
  if decide (a ≤ b ∧ b ≤ length data) then Val (take (Z.to_nat (b - a)) (drop (Z.to_nat a) data)) else Panic.

(** ** The blob *)

Definition read_u8 (l : list Z) : option (Z * list Z) := match l with [] => None | b :: l => Some (b, l) end.

Definition read_int (l : list Z) : option (Z * list Z) :=
  '(lo, l) ← read_u8 l;
  if decide (Z.land lo 0x80 = 0) then Some (lo, l)
  else '(hi, l) ← read_u8 l; Some (Z.lor (Z.land lo 0x7f) (Z.shiftl hi 7), l).

Definition read_bytes (l : list Z) : option (list Z * list Z) :=
  '(length, l) ← read_int l;
  if decide (length ≤ List.length l) then Some (take (Z.to_nat length) l, drop (Z.to_nat length) l) else None.

Definition auth_type_from_i32 (n : Z) : option AuthenticationType :=
  match n with
  | 0 => Some AUTHENTICATION_USER_PASS
  | 1 => Some AUTHENTICATION_STORED_SPOTIFY_CREDENTIALS
  | 2 => Some AUTHENTICATION_STORED_FACEBOOK_CREDENTIALS
  | 3 => Some AUTHENTICATION_SPOTIFY_TOKEN
  | 4 => Some AUTHENTICATION_FACEBOOK_TOKEN
  | _ => None
  end.

(** The fields behind each other; an unknown type is an error of its own. *)
Definition parse_blob (user : string) (blob : list Z) : result Credentials ErrorKind :=
  match ('(_, l) ← read_u8 blob; '(_, l) ← read_bytes l; '(_, l) ← read_u8 l; read_int l) with
  | None => Err FailedPrecondition
  | Some (n, l) =>
      match auth_type_from_i32 n with
      | None => Err InvalidArgument
      | Some t =>
          match ('(_, l) ← read_u8 l; read_bytes l) with
          | None => Err FailedPrecondition
          | Some (data, _) => Ok (mkCredentials (Some user) t data)
          end
      end
  end.

Section discovery.
Context `{DiscoveryCrypto}.

Definition blob_key (user : string) (device_id : string) : list Z :=
  let secret := digest (as_bytes device_id) in
  digest (pbkdf2_hmac secret (as_bytes user) 0x100 20) ++ to_be_bytes 4 20.

(** Each whole block; what is left over stays. *)
Fixpoint decrypt_chunks (fuel : nat) (key data : list Z) : list Z :=
  match fuel with
  | O => data
  | S fuel =>
      if decide (16 ≤ List.length data)%nat then aes192_decrypt key (take 16 data) ++ decrypt_chunks fuel key (drop 16 data)
      else data
  end.

(** From the end to the front, in place. *)
Definition xor_step (l : nat) (data : list Z) (i : nat) : list Z :=
  let j := (l - i - 1)%nat in <[j := Z.lxor (data !!! j) (data !!! (j - 16)%nat)]> data.
Definition xor_blocks (data : list Z) : exec (list Z) :=
  n ← usub (length data) 0x10;
  Val (foldl (xor_step (length data)) data (seq 0 (Z.to_nat n))).

Definition with_blob (user : string) (encrypted_blob : list Z) (device_id : string) : exec (result Credentials ErrorKind) :=
  let key := blob_key user device_id in
  match base64_decode encrypted_blob with
  | None => Val (Err FailedPrecondition)
  | Some data =>
      blob ← xor_blocks (decrypt_chunks (length data) key data);
      Val (parse_blob user blob)
  end.

(** ** The server *)

Inductive json := JNum (n : Z) | JStr (s : string) | JArr (l : list json) | JObj (l : list (string * json)).

Inductive DeviceType :=
| DtUnknown | DtComputer | DtTablet | DtSmartphone | DtSpeaker | DtTv | DtAvr | DtStb | DtAudioDongle | DtGameConsole
| DtCastAudio | DtCastVideo | DtAutomobile | DtSmartwatch | DtChromebook | DtUnknownSpotify | DtCarThing | DtObserver.

Definition device_type_str (d : DeviceType) : string :=
  match d with
  | DtUnknown => "Unknown" | DtComputer => "Computer" | DtTablet => "Tablet" | DtSmartphone => "Smartphone"
  | DtSpeaker => "Speaker" | DtTv => "TV" | DtAvr => "AVR" | DtStb => "STB" | DtAudioDongle => "AudioDongle"
  | DtGameConsole => "GameConsole" | DtCastAudio => "CastAudio" | DtCastVideo => "CastVideo" | DtAutomobile => "Automobile"
  | DtSmartwatch => "Smartwatch" | DtChromebook => "Chromebook" | DtUnknownSpotify => "UnknownSpotify"
  | DtCarThing => "CarThing" | DtObserver => "Observer"
  end.

Record Alias := mkAlias { alias_name : string; alias_id : Z; alias_is_group : bool }.
Record Config := mkConfig {
  config_name : string;
  device_type : DeviceType;
  config_device_id : string;
  is_group : bool;
  config_client_id : string;
  aliases : list Alias;
}.
#[global] Instance settable_Config : Settable Config := λ r,
  mkConfig (config_name r) (device_type r) (config_device_id r) (is_group r) (config_client_id r) (aliases r).

(** What was sent to the receiver of events, while there is one. *)
Record RequestHandler := mkRequestHandler {
  config : Config;
  active : option string;
  keys : DhLocalKeys;
  listening : bool;
  events : list Credentials;
}.
#[global] Instance settable_RequestHandler : Settable RequestHandler := λ r,
  mkRequestHandler (config r) (active r) (keys r) (listening r) (events r).

Definition handler_new (c : Config) (drawn : list Z) : RequestHandler := mkRequestHandler c None (dh_random drawn) true [].

Definition active_user (self : RequestHandler) : string := default EmptyString (active self).

(** An answer: a status, and an object unless it is empty. *)
Record Response := mkResponse { status : Z; body : option json }.

Definition bool_string (b : bool) : string := if b then "true" else "false".
Definition handle_get_info (semver : string) (self : RequestHandler) : Response :=
  let c := config self in
  mkResponse 200 (Some (JObj [
    ("status", JNum 101);
    ("statusString", JStr "OK");
    ("spotifyError", JNum 0);
    ("version", JStr "2.9.0");
    ("deviceID", JStr (config_device_id c));
    ("deviceType", JStr (device_type_str (device_type c)));
    ("remoteName", JStr (config_name c));
    ("publicKey", JStr (base64_encode (public_key (keys self))));
    ("brandDisplayName", JStr "librespot");
    ("modelDisplayName", JStr "librespot");
    ("libraryVersion", JStr semver);
    ("resolverVersion", JStr "1");
    ("groupStatus", JStr (if is_group c then "GROUP" else "NONE"));
    ("tokenType", JStr "default");
    ("clientID", JStr (config_client_id c));
    ("productID", JNum 0);
    ("scope", JStr "streaming");
    ("availability", JStr EmptyString);
    ("supported_drm_media_formats", JArr []);
    ("supported_capabilities", JNum 1);
    ("accountReq", JStr "PREMIUM");
    ("activeUser", JStr (active_user self));
    ("aliases", JArr ((λ a, JObj [("name", JStr (alias_name a)); ("id", JStr (display (alias_id a)));
                                  ("isGroup", JStr (bool_string (alias_is_group a)))]) <$> aliases c))])).

Definition ok_response : Response :=
  mkResponse 200 (Some (JObj [("status", JNum 101); ("spotifyError", JNum 0); ("statusString", JStr "OK")])).
Definition mac_response : Response :=
  mkResponse 200 (Some (JObj [("status", JNum 102); ("spotifyError", JNum 1); ("statusString", JStr "ERROR-MAC")])).

(** The keys for checksum and encryption, from the secret of both sides. *)
Definition checksum_key (shared : list Z) : list Z := hmac (take 16 (digest shared)) (as_bytes "checksum").
Definition encryption_key (shared : list Z) : list Z := take 16 (hmac (take 16 (digest shared)) (as_bytes "encryption")).

Definition deliver (user : string) (credentials : Credentials) (self : RequestHandler) : RequestHandler * result Response ErrorKind :=
  if listening self then (self <| events ::= (λ l, l ++ [credentials]) |> <| active := Some user |>, Ok ok_response)
  else (self, Err Internal).

(** Behind the decoding of the parameters. *)
Definition add_user (user : string) (encrypted_blob client_key : list Z) (self : RequestHandler)
    : exec (RequestHandler * result Response ErrorKind) :=
  let shared := shared_secret (keys self) client_key in
  let len := length encrypted_blob in
  if decide (len < 16) then Val (self, Err InvalidArgument)
  else
    iv ← slice 0 16 encrypted_blob;
    e ← usub len 20;
    encrypted ← slice 16 e encrypted_blob;
    cksum ← slice e len encrypted_blob;
    if decide (hmac (checksum_key shared) encrypted = cksum) then
      r ← with_blob user (aes128_ctr (encryption_key shared) iv encrypted) (config_device_id (config self));
      Val (match r with Ok credentials => deliver user credentials self | Err kind => (self, Err kind) end)
    else Val (self, Ok mac_response).

Definition handle_add_user (params : gmap string string) (self : RequestHandler)
    : exec (RequestHandler * result Response ErrorKind) :=
  match params !! "userName", params !! "blob", params !! "clientKey" with
  | Some user, Some blob, Some client_key =>
      match base64_decode (as_bytes blob), base64_decode (as_bytes client_key) with
      | Some blob, Some client_key => add_user user blob client_key self
      | _, _ => Val (self, Err FailedPrecondition)
      end
  | _, _, _ => Val (self, Err InvalidArgument)
  end.

Definition not_found : Response := mkResponse 404 None.

(** The parameters of the query, then those of the body, which win.  How they
    are written is a library's. *)
Context (form_parse : list Z → list (string * string)) (semver : string).

Definition extend (params : gmap string string) (l : list (string * string)) : gmap string string :=
  foldl (λ m p, <[p.1 := p.2]> m) params l.

Definition handle (method : string) (query : option (list Z)) (read : result (list Z) ErrorKind) (self : RequestHandler)
    : exec (RequestHandler * result Response ErrorKind) :=
  let params := match query with Some q => extend ∅ (form_parse q) | None => ∅ end in
  match read with
  | Err e => Val (self, Err e)
  | Ok b =>
      let params := extend params (form_parse b) in
      match params !! "action" with
      | Some action =>
          if decide (method = "GET" ∧ action = "getInfo") then Val (self, Ok (handle_get_info semver self))
          else if decide (method = "POST" ∧ action = "addUser") then handle_add_user params self
          else Val (self, Ok not_found)
      | None => Val (self, Ok not_found)
      end
  end.

(** The service unwraps the result. *)
Definition serve (method : string) (query : option (list Z)) (read : result (list Z) ErrorKind) (self : RequestHandler)
    : exec (RequestHandler * Response) :=
  '(self, r) ← handle method query read self;
  match r with Ok response => Val (self, response) | Err _ => Panic end.
End discovery.

(** ** [lib.rs] *)

Inductive Backend := Avahi | DnsSd | Libmdns.
Record Features := mkFeatures { with_avahi : bool; with_dns_sd : bool; with_libmdns : bool }.
Definition BACKENDS (f : Features) : list (string * option Backend) :=
  [("avahi", if with_avahi f then Some Avahi else None); ("dns-sd", if with_dns_sd f then Some DnsSd else None);
   ("libmdns", if with_libmdns f then Some Libmdns else None)].

Definition find_backend (f : Features) (name : option string) : result Backend ErrorKind :=
  match name with
  | Some name =>
      match list_find (λ b, b.1 = name) (BACKENDS f) with
      | Some (_, (_, Some b)) => Ok b
      | Some (_, (_, None)) => Err Unavailable
      | None => Err NotFound
      end
  | None => ok_or (head (omap snd (BACKENDS f))) Unavailable
  end.

Definition config_new (device_id client_id : string) : Config := mkConfig "Librespot" DtSpeaker device_id false client_id [].
Definition set_name (name : string) (c : Config) : Config := c <| config_name := name |>.
Definition set_device_type (t : DeviceType) (c : Config) : Config := c <| device_type := t |>.
Definition set_is_group (g : bool) (c : Config) : Config := c <| is_group := g |>.
Definition add_alias (alias : string) (id : Z) (g : bool) (c : Config) : Config := c <| aliases ::= (λ l, l ++ [mkAlias alias id g]) |>.

Inductive DiscoveryEvent := CredentialsEvent (c : Credentials) | ServerErrorEvent | ZeroconfErrorEvent.

(** [poll_next] on what has arrived; [None] is pending, [Some None] the end. *)
Definition poll_next (queue : list DiscoveryEvent) (open : bool) : option (option Credentials) * list DiscoveryEvent :=
  match queue with
  | CredentialsEvent c :: queue => (Some (Some c), queue)
  | _ :: queue => (Some None, queue)
  | [] => (if open then None else Some None, [])
  end.

(** ** The type of a device as the service is told *)

Inductive ProtoDeviceType :=
| UNKNOWN | COMPUTER | TABLET | SMARTPHONE | SPEAKER | TV | AVR | STB | AUDIO_DONGLE | GAME_CONSOLE | CAST_VIDEO | CAST_AUDIO
| AUTOMOBILE | SMARTWATCH | CHROMEBOOK | UNKNOWN_SPOTIFY | CAR_THING | OBSERVER.

Definition proto_device_type (d : DeviceType) : ProtoDeviceType :=
  match d with
  | DtUnknown => UNKNOWN | DtComputer => COMPUTER | DtTablet => TABLET | DtSmartphone => SMARTPHONE | DtSpeaker => SPEAKER
  | DtTv => TV | DtAvr => AVR | DtStb => STB | DtAudioDongle => AUDIO_DONGLE | DtGameConsole => GAME_CONSOLE
  | DtCastAudio => CAST_VIDEO | DtCastVideo => CAST_AUDIO | DtAutomobile => AUTOMOBILE | DtSmartwatch => SMARTWATCH
  | DtChromebook => CHROMEBOOK | DtUnknownSpotify => UNKNOWN_SPOTIFY | DtCarThing => CAR_THING | DtObserver => OBSERVER
  end.
