(* ===== verification/DiscoveryProps.v ===== *)
(** * Properties of discovery

    The credentials a phone encrypts reach the program, and nothing else does;
    what does not look like them may stop the request. *)

From S2P Require Import Prelude Digits Text Wire ApCodec Handshake Connection Http Discovery.

Local Open Scope string_scope.
Local Open Scope list_scope.
Local Open Scope Z_scope.
Local Coercion Z.of_nat : nat >-> Z.

(** ** The chain of blocks *)

Section xor.
Context (data : list Z) (Hl : (16 ≤ length data)%nat).
Abbreviation l := (length data).

Definition unchained : list Z := zip_with Z.lxor data (replicate 16 0 ++ data).

Lemma length_unchained : length unchained = l.
Proof. unfold unchained. rewrite length_zip_with, length_app, length_replicate. lia. Qed.

Lemma unchained_lookup (i : nat) : (16 ≤ i < l)%nat → unchained !! i = Some (Z.lxor (data !!! i) (data !!! (i - 16)%nat)).
Proof.
  intros Hi. unfold unchained. rewrite lookup_zip_with.
  rewrite lookup_app_r by (rewrite length_replicate; lia). rewrite length_replicate.
  by rewrite !list_lookup_lookup_total_lt by lia.
Qed.
Lemma unchained_front (i : nat) : (i < 16)%nat → unchained !! i = data !! i.
Proof.
  intros Hi. unfold unchained. rewrite lookup_zip_with.
  rewrite lookup_app_l by (rewrite length_replicate; lia). rewrite lookup_replicate_2 by lia.
  destruct (data !! i); simpl; [|done]. by rewrite Z.lxor_0_r.
Qed.

Lemma xor_steps (n : nat) :
  (n ≤ l - 16)%nat →
  let d := foldl (xor_step l) data (seq 0 n) in
  length d = l ∧ ∀ i : nat, d !! i = (if decide (i < l - n)%nat then data else unchained) !! i.
Proof.
  induction n as [|n IH]; intros Hn.
  - split; [done|]. intros i. case_decide; [done|]. simpl. rewrite !lookup_ge_None_2; [done| |lia]. rewrite length_unchained. lia.
  - destruct IH as [Hlen IH]; [lia|]. rewrite seq_S, foldl_app. cbn [foldl]. simpl (0 + n)%nat.
    revert Hlen IH. generalize (foldl (xor_step l) data (seq 0 n)). intros d Hlen IH. unfold xor_step.
    rewrite length_insert. split; [done|]. intros i. set (j := (l - n - 1)%nat).
    assert (d !!! j = data !!! j ∧ d !!! (j - 16)%nat = data !!! (j - 16)%nat) as [-> ->].
    { rewrite !list_lookup_total_alt, !IH. by rewrite !decide_True by lia. }
    destruct (decide (i = j)) as [->|Hij].
    + rewrite list_lookup_insert_eq by lia. rewrite decide_False by lia. by rewrite unchained_lookup by lia.
    + rewrite list_lookup_insert_ne by done. rewrite IH. destruct (decide (i < l - n)%nat).
      * by rewrite decide_True by lia.
      * by rewrite decide_False by lia.
Qed.

Lemma xor_blocks_spec : xor_blocks data = Val unchained.
Proof.
  unfold xor_blocks. rewrite usub_Val by lia. rewrite exec_bind_Val. f_equal.
  destruct (xor_steps (Z.to_nat (l - 0x10))) as [_ Hi]; [lia|]. apply list_eq. intros i. rewrite Hi.
  case_decide; [|done]. rewrite unchained_front by lia. done.
Qed.
End xor.

(** The phone's side. *)
Fixpoint chain (prev : list Z) (bs : list (list Z)) : list (list Z) :=
  match bs with
  | [] => []
  | b :: bs => let e := zip_with Z.lxor b prev in e :: chain e bs
  end.

Definition block (b : list Z) : Prop := length b = 16%nat ∧ bytes_ok b.

Lemma zip_lxor_cancel b prev : length b = length prev → zip_with Z.lxor (zip_with Z.lxor b prev) prev = b.
Proof.
  revert prev. induction b as [|x b IH]; intros [|y prev]; try done. intros [= Hl]. simpl.
  rewrite IH by done. by rewrite Z.lxor_assoc, Z.lxor_nilpotent, Z.lxor_0_r.
Qed.

Lemma lxor_byte x y : 0 ≤ x < 256 → 0 ≤ y < 256 → 0 ≤ Z.lxor x y < 256.
Proof.
  intros Hx Hy. split; [apply Z.lxor_nonneg; lia|].
  destruct (decide (Z.lxor x y = 0)) as [->|]; [done|].
  assert (0 ≤ Z.lxor x y) by (apply Z.lxor_nonneg; lia).
  change 256 with (2 ^ 8). apply Z.log2_lt_pow2; [lia|].
  eapply Z.le_lt_trans; [apply Z.log2_lxor; lia|]. apply Z.max_lub_lt; destruct (decide (x = 0)), (decide (y = 0)); subst; try done;
    apply Z.log2_lt_pow2; lia.
Qed.

Lemma zip_lxor_block b prev : block b → block prev → block (zip_with Z.lxor b prev).
Proof.
  intros [Hb Hbo] [Hp Hpo]. split; [rewrite length_zip_with; lia|].
  clear Hb Hp. revert prev Hpo. induction Hbo as [|x b Hx Hb IH]; intros [|y prev] Hpo; simpl; try constructor.
  - apply Forall_cons in Hpo as [? ?]. by apply lxor_byte.
  - apply Forall_cons in Hpo as [? ?]. by apply IH.
Qed.

Lemma chain_blocks prev bs : block prev → Forall block bs → Forall block (chain prev bs).
Proof.
  intros Hp Hbs. revert prev Hp. induction Hbs as [|b bs Hb _ IH]; intros prev Hp; simpl; constructor.
  - by apply zip_lxor_block.
  - apply IH. by apply zip_lxor_block.
Qed.

Lemma unchain prev bs :
  block prev → Forall block bs →
  zip_with Z.lxor (concat (chain prev bs)) (prev ++ concat (chain prev bs)) = concat bs.
Proof.
  intros Hp Hbs. revert prev Hp. induction Hbs as [|b bs Hb _ IH]; intros prev Hp; [done|]. simpl.
  pose proof (zip_lxor_block b prev Hb Hp) as He.
  rewrite zip_with_app by (destruct He, Hp; lia). f_equal; [|by apply IH].
  apply zip_lxor_cancel. destruct Hb, Hp. lia.
Qed.

Lemma length_concat_blocks bs : Forall block bs → length (concat bs) = (16 * length bs)%nat.
Proof. induction 1 as [|b bs [Hb _] _ IH]; [done|]. simpl. rewrite length_app. lia. Qed.

(** ** Fields *)

Definition write_int (n : Z) : list Z := if decide (n < 128) then [n] else [128 + n `mod` 128; n / 128].
Definition write_bytes (l : list Z) : list Z := write_int (length l) ++ l.

Lemma land_128 lo : 0 ≤ lo < 256 → Z.land lo 0x80 = if decide (lo < 128) then 0 else 128.
Proof.
  intros Hlo.
  assert (forallb (λ n : nat, Z.land n 0x80 =? if decide (n < 128) then 0 else 128) (seq 0 256) = true) as Hall
    by (vm_compute; reflexivity).
  rewrite forallb_forall in Hall. specialize (Hall (Z.to_nat lo)). rewrite Z2Nat.id in Hall by lia.
  apply Z.eqb_eq, Hall, in_seq. lia.
Qed.

Lemma lor_shift lo hi : 0 ≤ lo < 128 → 0 ≤ hi → Z.lor lo (Z.shiftl hi 7) = lo + 128 * hi.
Proof.
  intros Hlo Hhi. pose proof (Z.add_lor_land lo (Z.shiftl hi 7)) as E.
  assert (Z.land lo (Z.shiftl hi 7) = 0) as Hz.
  { apply Z.bits_inj'. intros n Hn. rewrite Z.land_spec, Z.bits_0. destruct (decide (n < 7)).
    - rewrite (Z.shiftl_spec_low hi) by lia. apply andb_false_r.
    - rewrite <- (Z.mod_small lo (2 ^ 7)) by lia. by rewrite Z.mod_pow2_bits_high by lia. }
  rewrite Hz, Z.shiftl_mul_pow2 in E by lia. rewrite Z.shiftl_mul_pow2 by lia. lia.
Qed.

Lemma read_write_int n rest : 0 ≤ n < 32768 → read_int (write_int n ++ rest) = Some (n, rest).
Proof.
  intros Hn. unfold write_int, read_int. case_decide as Hc; cbn [app read_u8 mbind option_bind].
  - rewrite land_128, (decide_True (P := n < 128)) by lia. by rewrite decide_True.
  - assert (0 ≤ n `mod` 128 < 128) by (apply Z.mod_pos_bound; lia).
    rewrite land_128, (decide_False (P := 128 + n `mod` 128 < 128)) by lia. rewrite decide_False by done.
    change 0x7f with (Z.ones 7). rewrite Z.land_ones by lia. change (2 ^ 7) with 128.
    rewrite <- Z.add_mod_idemp_l by lia. change (128 `mod` 128) with 0. rewrite Z.add_0_l, Z.mod_mod by lia.
    rewrite lor_shift by (try apply Z.div_pos; lia). rewrite Z.add_comm, <- Z.div_mod by lia. done.
Qed.

Lemma read_write_bytes l rest : (length l < 32768) → read_bytes (write_bytes l ++ rest) = Some (l, rest).
Proof.
  intros Hl. unfold read_bytes, write_bytes. rewrite <- app_assoc, read_write_int by lia. cbn [mbind option_bind].
  rewrite decide_True by (rewrite length_app; lia). by rewrite Nat2Z.id, take_app_length, drop_app_length.
Qed.

Definition auth_number (t : AuthenticationType) : Z :=
  match t with
  | AUTHENTICATION_USER_PASS => 0
  | AUTHENTICATION_STORED_SPOTIFY_CREDENTIALS => 1
  | AUTHENTICATION_STORED_FACEBOOK_CREDENTIALS => 2
  | AUTHENTICATION_SPOTIFY_TOKEN => 3
  | AUTHENTICATION_FACEBOOK_TOKEN => 4
  end.

(** The fields of a blob; three bytes and a text mean nothing. *)
Definition plain (x y z : Z) (junk : list Z) (t : AuthenticationType) (data pad : list Z) : list Z :=
  [x] ++ write_bytes junk ++ [y] ++ write_int (auth_number t) ++ [z] ++ write_bytes data ++ pad.

Lemma parse_plain user x y z junk t data pad :
  (length junk < 32768) → (length data < 32768) →
  parse_blob user (plain x y z junk t data pad) = Ok (mkCredentials (Some user) t data).
Proof.
  intros Hj Hd. unfold parse_blob, plain. cbn [app read_u8 mbind option_bind].
  rewrite read_write_bytes by done. cbn [app read_u8 mbind option_bind].
  rewrite read_write_int by (destruct t; simpl; lia).
  assert (auth_type_from_i32 (auth_number t) = Some t) as -> by by destruct t.
  cbn [app read_u8 mbind option_bind]. by rewrite read_write_bytes.
Qed.

(** ** Laws of the libraries *)

Class DiscoveryLaws `{DiscoveryCrypto} := {
  aes192_encrypt : list Z → list Z → list Z;
  length_digest m : length (digest m) = 20%nat;
  length_mac k m : length (hmac k m) = 20%nat;
  mac_bytes k m : bytes_ok (hmac k m);
  length_ctr k iv d : length (aes128_ctr k iv d) = length d;
  ctr_bytes k iv d : bytes_ok d → bytes_ok (aes128_ctr k iv d);
  ctr_involutive k iv d : length k = 16%nat → length iv = 16%nat → bytes_ok d → aes128_ctr k iv (aes128_ctr k iv d) = d;
  aes192_block k b : length k = 24%nat → block b → block (aes192_encrypt k b);
  length_aes192_decrypt k b : length k = 24%nat → length b = 16%nat → length (aes192_decrypt k b) = 16%nat;
  aes192_inverse k b : length k = 24%nat → block b → aes192_decrypt k (aes192_encrypt k b) = b;
  base64_inverse d : bytes_ok d → base64_decode (as_bytes (base64_encode d)) = Some d;
}.

Section laws.
Context `{DiscoveryLaws}.

Lemma length_blob_key user device : length (blob_key user device) = 24%nat.
Proof. unfold blob_key. by rewrite length_app, length_digest, length_to_be_bytes. Qed.

Lemma decrypt_blocks key bs fuel :
  length key = 24%nat → Forall block bs → (length bs ≤ fuel)%nat →
  decrypt_chunks fuel key (concat (aes192_encrypt key <$> bs)) = concat bs.
Proof.
  intros Hk Hbs. revert fuel. induction Hbs as [|b bs Hb _ IH]; intros [|fuel] Hf; simpl in Hf; try lia; [done|done|].
  pose proof (aes192_block key b Hk Hb) as [He _].
  cbn [decrypt_chunks fmap list_fmap concat]. rewrite decide_True by (rewrite length_app; lia).
  rewrite <- He, take_app_length, drop_app_length. rewrite aes192_inverse by done. f_equal. apply IH. lia.
Qed.

(** The inner encryption. *)
Definition inner_blob (user device : string) (bs : list (list Z)) : list Z :=
  as_bytes (base64_encode (concat (aes192_encrypt (blob_key user device) <$> chain (replicate 16 0) bs))).

Lemma zeros_block : block (replicate 16 0).
Proof. split; [done|]. by apply Forall_replicate; lia. Qed.

Lemma concat_bytes bs : Forall block bs → bytes_ok (concat bs).
Proof. induction 1 as [|b bs [_ Hb] _ IH]; [constructor|]. by apply Forall_app. Qed.
Lemma encrypted_blocks key bs : length key = 24%nat → Forall block bs → Forall block (aes192_encrypt key <$> bs).
Proof. intros Hk. induction 1; simpl; constructor; [by apply aes192_block|done]. Qed.

Lemma with_inner_blob user device bs :
  bs ≠ [] → Forall block bs → with_blob user (inner_blob user device bs) device = Val (parse_blob user (concat bs)).
Proof.
  intros Hne Hbs. unfold with_blob, inner_blob. set (key := blob_key user device).
  assert (length key = 24%nat) as Hk by apply length_blob_key.
  pose proof (chain_blocks _ _ zeros_block Hbs) as Hc. pose proof (encrypted_blocks key _ Hk Hc) as He.
  rewrite base64_inverse by by apply concat_bytes.
  assert (length (chain (replicate 16 0) bs) ≠ 0%nat) as Hl by by destruct bs.
  rewrite decrypt_blocks; [|done|done|rewrite length_concat_blocks, length_fmap by done; lia].
  rewrite xor_blocks_spec by (rewrite length_concat_blocks by done; lia). rewrite exec_bind_Val. unfold unchained.
  by rewrite unchain by (done || apply zeros_block).
Qed.

(** The outer encryption. *)
Definition outer_blob (shared iv inner : list Z) : list Z :=
  let encrypted := aes128_ctr (encryption_key shared) iv inner in iv ++ encrypted ++ hmac (checksum_key shared) encrypted.

Lemma length_encryption_key shared : length (encryption_key shared) = 16%nat.
Proof. unfold encryption_key. by rewrite length_take, length_mac. Qed.

Lemma slice_app (a b c : list Z) : slice (length a) (length a + length b) (a ++ b ++ c) = Val b.
Proof.
  unfold slice. rewrite decide_True by (rewrite !length_app; lia).
  rewrite Nat2Z.id, drop_app_length. replace (Z.to_nat _) with (length b) by lia. by rewrite take_app_length.
Qed.

(** A blob of at least 36 bytes comes apart. *)
Lemma add_user_parts user (iv encrypted cksum : list Z) client_key self :
  length iv = 16%nat → length cksum = 20%nat →
  add_user user (iv ++ encrypted ++ cksum) client_key self =
    let shared := shared_secret (keys self) client_key in
    if decide (hmac (checksum_key shared) encrypted = cksum) then
      r ← with_blob user (aes128_ctr (encryption_key shared) iv encrypted) (config_device_id (config self));
      Val (match r with Ok credentials => deliver user credentials self | Err kind => (self, Err kind) end)
    else Val (self, Ok mac_response).
Proof.
  intros Hi Hc. unfold add_user. cbv zeta. rewrite !length_app, Hi, Hc.
  rewrite decide_False by lia. rewrite usub_Val by lia.
  pose proof (slice_app [] iv (encrypted ++ cksum)) as E1. rewrite Hi in E1.
  change (slice 0 16 (iv ++ encrypted ++ cksum) = Val iv) in E1. rewrite E1, !exec_bind_Val.
  pose proof (slice_app iv encrypted cksum) as E2. rewrite Hi in E2. change (Z.of_nat 16) with 16 in E2.
  replace ((16 + (length encrypted + 20))%nat - 20) with (16 + length encrypted) by lia. rewrite E2, exec_bind_Val.
  pose proof (slice_app (iv ++ encrypted) cksum []) as E3. rewrite app_nil_r, <- app_assoc, length_app, Hi, Hc in E3.
  rewrite Nat2Z.inj_add in E3. change (Z.of_nat 16) with 16 in E3.
  replace (Z.of_nat (16 + (length encrypted + 20))) with (16 + length encrypted + 20%nat) by lia.
  by rewrite E3, exec_bind_Val.
Qed.

(** ** What a phone sends *)

Definition addition (user : string) (blob client_key : list Z) : list (string * string) :=
  [("action", "addUser"); ("userName", user); ("blob", base64_encode blob); ("clientKey", base64_encode client_key)].

Lemma as_bytes_ok s : bytes_ok (as_bytes s).
Proof. unfold as_bytes. apply Forall_fmap, Forall_true. intros c. apply code_bounds. Qed.

Lemma outer_blob_ok shared iv inner : bytes_ok iv → bytes_ok inner → bytes_ok (outer_blob shared iv inner).
Proof. intros Hi Hn. unfold outer_blob. apply Forall_app. split; [done|]. apply Forall_app. split; [by apply ctr_bytes|apply mac_bytes]. Qed.

Lemma add_user_outer user iv inner client_key self :
  length iv = 16%nat → bytes_ok inner →
  add_user user (outer_blob (shared_secret (keys self) client_key) iv inner) client_key self =
    (r ← with_blob user inner (config_device_id (config self));
     Val (match r with Ok credentials => deliver user credentials self | Err kind => (self, Err kind) end)).
Proof.
  intros Hi Hn. unfold outer_blob. cbv zeta. rewrite add_user_parts by (done || apply length_mac). cbv zeta.
  rewrite decide_True by done. by rewrite ctr_involutive by (done || apply length_encryption_key).
Qed.

Lemma serve_addition form_parse semver query posted user blob client_key self :
  bytes_ok blob → bytes_ok client_key → form_parse posted = addition user blob client_key →
  handle form_parse semver "POST" query (Ok posted) self = add_user user blob client_key self.
Proof.
  intros Hb Hc Hp. unfold handle. rewrite Hp.
  generalize (match query with Some q => extend ∅ (form_parse q) | None => ∅ end). intros m.
  unfold addition, extend. cbn [foldl fst snd].
  rewrite !(lookup_insert_ne _ _ "action"), lookup_insert_eq by done. rewrite decide_False by (by intros [? _]).
  rewrite decide_True by done. unfold handle_add_user.
  rewrite !(lookup_insert_ne _ _ "userName"), lookup_insert_eq by done.
  rewrite !(lookup_insert_ne _ _ "blob"), lookup_insert_eq by done. rewrite lookup_insert_eq.
  by rewrite !base64_inverse.
Qed.

(** C23: The credentials of a phone reach the program: whatever key it drew, a user's blob that it encrypted for this device
    is decrypted to the type and data it was made of, which are sent on once, and the device then tells that this
    user is active. *)
Theorem credentials_delivered form_parse semver query posted user drawn phone iv bs x y z junk t data pad self :
  bytes_ok drawn → bytes_ok phone → keys self = dh_random drawn → listening self = true →
  bytes_ok iv → length iv = 16%nat → Forall block bs → concat bs = plain x y z junk t data pad →
  (length junk < 32768) → (length data < 32768) →
  form_parse posted = addition user
    (outer_blob (shared_secret (dh_random phone) (public_key (keys self))) iv
       (inner_blob user (config_device_id (config self)) bs))
    (public_key (dh_random phone)) →
  ∃ self', serve form_parse semver "POST" query (Ok posted) self = Val (self', ok_response) ∧
    events self' = events self ++ [mkCredentials (Some user) t data] ∧
    (config self', keys self', listening self') = (config self, keys self, listening self) ∧
    ∃ fields, handle_get_info semver self' = mkResponse 200 (Some (JObj fields)) ∧ ("activeUser", JStr user) ∈ fields.
Proof.
  intros Hd Hph Hk Hl Hiv Hi Hbs Hplain Hj Hda Hform.
  assert (shared_secret (dh_random phone) (public_key (keys self)) = shared_secret (keys self) (public_key (dh_random phone))) as Hs
    by (rewrite Hk; symmetry; by apply dh_agreement).
  assert (bytes_ok (inner_blob user (config_device_id (config self)) bs)) as Hn by apply as_bytes_ok.
  assert (bs ≠ []) as Hne by (by intros ->).
  unfold serve. rewrite (serve_addition _ _ _ _ _ _ _ _ (outer_blob_ok _ _ _ Hiv Hn) (to_be_bytes_ok _ _) Hform).
  rewrite Hs, add_user_outer, with_inner_blob, exec_bind_Val, Hplain, parse_plain, exec_bind_Val by done.
  unfold deliver. destruct (listening self) eqn:El; [|done]. eexists. split; [reflexivity|]. split; [reflexivity|].
  split; [by rewrite <- El|].
  eexists. split; [reflexivity|]. repeat (first [apply list_elem_of_here|apply list_elem_of_further]).
Qed.

(** ** What is let through *)

Section guarded.
Context (params : gmap string string) (self : RequestHandler).

(** The parameters of a request, decoded. *)
Definition given (user : string) (blob client_key : list Z) : Prop :=
  ∃ blob64 key64, params !! "userName" = Some user ∧ params !! "blob" = Some blob64 ∧ params !! "clientKey" = Some key64 ∧
    base64_decode (as_bytes blob64) = Some blob ∧ base64_decode (as_bytes key64) = Some client_key.

(** A blob whose checksum is right. *)
Definition genuine (client_key iv encrypted : list Z) : list Z :=
  iv ++ encrypted ++ hmac (checksum_key (shared_secret (keys self) client_key)) encrypted.
Definition decrypted (client_key iv encrypted : list Z) : list Z :=
  aes128_ctr (encryption_key (shared_secret (keys self) client_key)) iv encrypted.

Definition too_short : Prop :=
  ∃ user blob client_key, given user blob client_key ∧
    (16 ≤ length blob < 36 ∨
     ∃ iv encrypted data, blob = genuine client_key iv encrypted ∧ length iv = 16%nat ∧
       base64_decode (decrypted client_key iv encrypted) = Some data ∧ (length data < 16)%nat).

Lemma length_decrypt_chunks fuel key data : length key = 24%nat → length (decrypt_chunks fuel key data) = length data.
Proof.
  intros Hk. revert data. induction fuel as [|fuel IH]; intros data; [done|]. simpl. case_decide; [|done].
  rewrite length_app, IH, length_aes192_decrypt, length_drop; [lia|done|]. rewrite length_take. lia.
Qed.

Lemma with_blob_outcome user b device :
  match with_blob user b device with
  | Panic => ∃ data, base64_decode b = Some data ∧ (length data < 16)%nat
  | Val r => (∀ data, base64_decode b = Some data → (16 ≤ length data)%nat) ∧ ∀ c, r = Ok c → username c = Some user
  end.
Proof.
  unfold with_blob. destruct (base64_decode b) as [data|]; [|by split].
  unfold xor_blocks, usub. rewrite length_decrypt_chunks by apply length_blob_key.
  case_decide; simpl; [|exists data; split; [done|lia]]. split; [intros ? [= <-]; lia|]. intros c.
  unfold parse_blob. destruct (_ ≫= _) as [[n l]|]; [|done]. destruct (auth_type_from_i32 n); [|done].
  destruct (_ ≫= _) as [[? ?]|]; [|done]. by intros [= <-].
Qed.

Lemma given_inj u u' b b' k k' : given u b k → given u' b' k' → (u, b, k) = (u', b', k').
Proof. intros (? & ? & ? & ? & ? & ? & ?) (? & ? & ? & ? & ? & ? & ?). simplify_eq. done. Qed.

Lemma handle_given :
  (∃ u b k, given u b k ∧ handle_add_user params self = add_user u b k self) ∨
  (∀ u b k, ¬ given u b k) ∧ ∃ e, handle_add_user params self = Val (self, Err e).
Proof.
  unfold handle_add_user, given.
  destruct (params !! "userName") as [u|] eqn:Eu, (params !! "blob") as [b|] eqn:Eb, (params !! "clientKey") as [k|] eqn:Ek;
    try (right; split; [naive_solver|eauto]).
  destruct (base64_decode (as_bytes b)) as [bl|] eqn:Db, (base64_decode (as_bytes k)) as [ke|] eqn:Dk;
    [|right; split; [naive_solver|eauto]..].
  left. exists u, bl, ke. split; [|done]. by exists b, k.
Qed.

Lemma add_user_short u b k : (length b < 36)%nat → add_user u b k self = if decide (length b < 16) then Val (self, Err InvalidArgument) else Panic.
Proof.
  intros Hl. unfold add_user. case_decide; [done|].
  assert (slice 0 16 b = Val (take 16 b)) as -> by (unfold slice; by rewrite decide_True by lia).
  unfold usub. rewrite exec_bind_Val. case_decide; [|done]. rewrite exec_bind_Val.
  assert (slice 16 (length b - 20) b = Panic) as -> by (unfold slice; by rewrite decide_False by lia). done.
Qed.

Lemma blob_parts (b : list Z) : (36 ≤ length b)%nat → ∃ iv e ck, b = iv ++ e ++ ck ∧ length iv = 16%nat ∧ length ck = 20%nat.
Proof.
  intros Hl. exists (take 16 b), (take (length b - 36) (drop 16 b)), (drop (length b - 36) (drop 16 b)).
  rewrite !take_drop, length_take, !length_drop. split_and!; [done|lia|lia].
Qed.

Lemma genuine_inj k iv e ck iv' e' :
  length iv = 16%nat → length iv' = 16%nat → length ck = 20%nat → iv ++ e ++ ck = genuine k iv' e' →
  iv = iv' ∧ e = e' ∧ hmac (checksum_key (shared_secret (keys self) k)) e = ck.
Proof.
  intros Hi Hi' Hc [-> E]%app_inj_1; [|lia]. apply app_inj_2 in E as [-> ->]; [done|]. by rewrite length_mac, Hc.
Qed.

(** With all its parts, a request stops only on what is inside. *)
Lemma too_short_parts u k iv e ck :
  length iv = 16%nat → length ck = 20%nat → given u (iv ++ e ++ ck) k →
  too_short ↔ hmac (checksum_key (shared_secret (keys self) k)) e = ck ∧
    ∃ data, base64_decode (decrypted k iv e) = Some data ∧ (length data < 16)%nat.
Proof.
  intros Hi Hc Hg. split.
  - intros (u' & b' & k' & Hg' & Hs). pose proof (given_inj _ _ _ _ _ _ Hg Hg') as [= <- <- <-].
    destruct Hs as [Hs|(iv' & e' & data & E & Hi' & Hd & Hl)]; [rewrite !length_app in Hs; lia|].
    destruct (genuine_inj _ _ _ _ _ _ Hi Hi' Hc E) as (<- & <- & Hm). eauto.
  - intros [<- (data & Hd & Hl)]. exists u, (genuine k iv e), k. split; [done|]. right. by exists iv, e, data.
Qed.

(** What cannot be taken: parameters that are missing or do not decode, a blob without room for its checksum, and a genuine
    blob that does not hold credentials or that nobody waits for. *)
Definition unacceptable : Prop :=
  (∀ u b k, ¬ given u b k) ∨
  ∃ user blob client_key, given user blob client_key ∧
    ((length blob < 36)%nat ∨
     ∃ iv encrypted, blob = genuine client_key iv encrypted ∧ length iv = 16%nat ∧
       (listening self = false ∨
        ∀ c, with_blob user (decrypted client_key iv encrypted) (config_device_id (config self)) ≠ Val (Ok c))).

Lemma unacceptable_parts u k iv e ck :
  length iv = 16%nat → length ck = 20%nat → given u (iv ++ e ++ ck) k →
  unacceptable ↔ hmac (checksum_key (shared_secret (keys self) k)) e = ck ∧
    (listening self = false ∨ ∀ c, with_blob u (decrypted k iv e) (config_device_id (config self)) ≠ Val (Ok c)).
Proof.
  intros Hi Hc Hg. split.
  - intros [Hno|(u' & b' & k' & Hg' & Hs)]; [by apply Hno in Hg|]. pose proof (given_inj _ _ _ _ _ _ Hg Hg') as [= <- <- <-].
    destruct Hs as [Hs|(iv' & e' & E & Hi' & Hl)]; [rewrite !length_app in Hs; lia|].
    destruct (genuine_inj _ _ _ _ _ _ Hi Hi' Hc E) as (<- & <- & Hm). done.
  - intros [<- Hl]. right. exists u, (genuine k iv e), k. split; [done|]. right. by exists iv, e.
Qed.

(** The handler alone: what it refuses, it returns as an error or panics on. *)
Lemma add_user_outcome :
  match handle_add_user params self with
  | Panic => unacceptable ∧ too_short
  | Val (self', Err _) => unacceptable ∧ ¬ too_short ∧ self' = self
  | Val (self', Ok r) =>
      ¬ unacceptable ∧
      (self' = self ∧ r = mac_response ∧ (∀ u k iv e, length iv = 16%nat → ¬ given u (genuine k iv e) k) ∨
       r = ok_response ∧ ∃ user client_key iv encrypted c,
         given user (genuine client_key iv encrypted) client_key ∧ length iv = 16%nat ∧
         with_blob user (decrypted client_key iv encrypted) (config_device_id (config self)) = Val (Ok c) ∧ username c = Some user ∧
         self' = self <| events ::= (λ l, l ++ [c]) |> <| active := Some user |>)
  end.
Proof.
  destruct handle_given as [(u & b & k & Hg & ->)|[Hno [e ->]]].
  2: { split; [by left|]. split; [|done]. intros (u & b & k & Hg & _). by apply Hno in Hg. }
  destruct (decide (length b < 36)%nat) as [Hl|Hl].
  { assert unacceptable as Hun by (right; exists u, b, k; auto).
    rewrite add_user_short by done. case_decide; [|split; [done|exists u, b, k; split; [done|lia]]]. split_and!; [done| |done].
    intros (u' & b' & k' & Hg' & Hs). pose proof (given_inj _ _ _ _ _ _ Hg Hg') as [= <- <- <-].
    destruct Hs as [Hs|(iv & e & data & -> & Hi & _)]; [lia|]. unfold genuine in *. rewrite !length_app in *. lia. }
  destruct (blob_parts b) as (iv & e & ck & -> & Hi & Hc); [lia|]. rewrite add_user_parts by done. cbv zeta.
  pose proof (too_short_parts _ _ _ _ _ Hi Hc Hg) as Hts. pose proof (unacceptable_parts _ _ _ _ _ Hi Hc Hg) as Hun.
  case_decide as Hm.
  2: { split; [rewrite Hun; naive_solver|]. left. split_and!; [done..|]. intros u' k' iv' e' Hi' Hg'.
       pose proof (given_inj _ _ _ _ _ _ Hg Hg') as [= <- E <-]. by destruct (genuine_inj _ _ _ _ _ _ Hi Hi' Hc E) as (_ & _ & ?). }
  pose proof (with_blob_outcome u (decrypted k iv e) (config_device_id (config self))) as Ho. fold (decrypted k iv e).
  destruct (with_blob u _ _) as [r|] eqn:Ew; cbn [mbind exec_bind].
  2: { split; [apply Hun; split; [done|by right]|by apply Hts]. }
  destruct Ho as [Hlen Hr]. assert (¬ too_short) as Hn by (rewrite Hts; intros (_ & data & Hd & ?); apply Hlen in Hd; lia).
  destruct r as [c|kind]; [|split; [apply Hun; split; [done|by right]|done]]. unfold deliver.
  destruct (listening self) eqn:Hli; [|split; [apply Hun; split; [done|by left]|done]].
  split; [rewrite Hun; intros [_ [?|Hno]]; [done|by apply (Hno c)]|]. right. split; [done|].
  exists u, k, iv, e, c. subst ck. split_and!; [done|done|done|by apply Hr|done].
Qed.
End guarded.

Section serving.
Context (form_parse : list Z → list (string * string)) (semver : string).
Context (method : string) (query : option (list Z)) (body : result (list Z) ErrorKind) (self : RequestHandler).

(** The parameters of a request that adds a user. *)
Definition adds_user (params : gmap string string) : Prop :=
  ∃ b, body = Ok b ∧ method = "POST" ∧ params !! "action" = Some "addUser" ∧
    params = extend (match query with Some q => extend ∅ (form_parse q) | None => ∅ end) (form_parse b).

(** C24: Whatever is posted to the server, nothing changes unless it is a request to add a user whose blob carries the
    checksum that the secret shared with its sender makes and holds credentials: then those, of the user it names, are
    sent on and the user is active.  The task of the connection panics exactly when the body cannot be read or such a
    request is unacceptable: its parameters are missing or do not decode, the blob has no room for the checksum, or a
    genuine blob has no credentials or no listener.  A request it refuses without panicking by itself changes
    nothing either. *)
Theorem add_user_guarded :
  match serve form_parse semver method query body self with
  | Panic => (∃ e, body = Err e) ∨ ∃ params, adds_user params ∧ unacceptable params self
  | Val (self', response) =>
      (∀ e, body ≠ Err e) ∧ (∀ params, adds_user params → ¬ unacceptable params self) ∧
      (self' = self ∧ response ≠ ok_response ∨
       response = ok_response ∧ ∃ params user client_key iv encrypted c,
         adds_user params ∧ given params user (genuine self client_key iv encrypted) client_key ∧ length iv = 16%nat ∧
         with_blob user (decrypted self client_key iv encrypted) (config_device_id (config self)) = Val (Ok c) ∧
         username c = Some user ∧ self' = self <| events ::= (λ l, l ++ [c]) |> <| active := Some user |>)
  end ∧
  (∀ self' e, handle form_parse semver method query body self = Val (self', Err e) → self' = self).
Proof.
  unfold serve, handle. destruct body as [b|e] eqn:Eb; [|split; [left; eauto|by intros ?? [= <- _]]].
  set (params := extend _ (form_parse b)).
  assert (∀ p, adds_user p ↔ p = params ∧ method = "POST" ∧ params !! "action" = Some "addUser") as Hadds.
  { intros p. unfold adds_user. rewrite Eb. split; [intros (b' & [= <-] & ? & ? & ->); by subst params|].
    intros (-> & ? & ?). by exists b. }
  destruct (params !! "action") as [action|] eqn:Ea; cycle 1.
  { cbn. split; [|by intros ??]. split_and!; [done|intros p (-> & _ & ?)%Hadds; congruence|by left]. }
  destruct (decide (method = "GET" ∧ action = "getInfo")) as [[-> _]|Hget].
  { cbn. split; [|by intros ??]. split_and!; [done|by intros p (_ & ? & _)%Hadds|by left]. }
  destruct (decide (method = "POST" ∧ action = "addUser")) as [Hpost|Hpost]; cycle 1.
  { cbn. split; [|by intros ??]. split_and!; [done|by intros p (_ & ? & [= ?])%Hadds; destruct Hpost|by left]. }
  destruct Hpost as [-> ->]. pose proof (add_user_outcome params self) as Ho.
  assert (adds_user params) as Had by (by apply Hadds).
  destruct (handle_add_user params self) as [[self' [r|e]]|]; cbn.
  - split; [|by intros ??]. destruct Ho as [Hun Hr]. split_and!; [done|by intros p (-> & _)%Hadds|].
    destruct Hr as [(-> & -> & _)|(-> & user & ck & iv & enc & c & ?)]; [by left|right]. split; [done|].
    by exists params, user, ck, iv, enc, c.
  - destruct Ho as (Hun & _ & ->). split; [|by intros ?? [= <- _]]. right. by exists params.
  - split; [|by intros ??]. right. exists params. tauto.
Qed.
End serving.
End laws.

(** ** An example *)

Module Example.
Definition sum (l : list Z) : Z := foldl Z.add 1 l.

#[export] Instance crypto : DiscoveryCrypto := {|
  digest m := to_be_bytes 20 (sum m);
  hmac k m := to_be_bytes 20 (sum k * 1000 + sum m);
  pbkdf2_hmac p s _ n := to_be_bytes n (sum p * sum s);
  aes192_decrypt _ b := rev b;
  aes128_ctr _ _ d := rev d;
  base64_decode d := Some d;
  base64_encode d := String.string_of_list_ascii (chr <$> d);
|}.

Lemma string_bytes d : bytes_ok d → as_bytes (String.string_of_list_ascii (chr <$> d)) = d.
Proof.
  intros Hd. unfold as_bytes. rewrite String.list_ascii_of_string_of_list_ascii.
  induction Hd as [|x d Hx _ IH]; [done|]. rewrite !fmap_cons. by rewrite code_chr, IH.
Qed.

#[export] Instance laws : DiscoveryLaws.
Proof.
  refine {| aes192_encrypt _ b := rev b |}; intros;
    cbn [digest hmac aes192_decrypt aes128_ctr base64_decode base64_encode crypto].
  - apply length_to_be_bytes.
  - apply length_to_be_bytes.
  - apply to_be_bytes_ok.
  - apply length_rev.
  - by apply Forall_rev.
  - apply rev_involutive.
  - destruct H0 as [Hl Hb]. split; [by rewrite length_rev|].
    by apply Forall_rev.
  - by rewrite length_rev.
  - apply rev_involutive.
  - f_equal. by apply string_bytes.
Defined.

Definition device : Config := add_alias "Kitchen" 1 false (config_new "device" "client").
Definition handler : RequestHandler := handler_new device [5; 6].
Definition blocks : list (list Z) :=
  [[73; 3; 1; 2; 3; 80; 1; 81; 4; 10; 20; 30; 40; 0; 0; 0]; replicate 16 9].
Definition phone_says : list (string * string) :=
  addition "user" (outer_blob (shared_secret (dh_random [7]) (public_key (keys handler))) (replicate 16 1) (inner_blob "user" "device" blocks))
    (public_key (dh_random [7])).
End Example.
#[export] Existing Instances Example.crypto Example.laws.

Lemma credentials_delivered_witness :
  ∃ self', serve (λ _, Example.phone_says) "0.8" "POST" None (Ok []) Example.handler = Val (self', ok_response) ∧
    events self' = [mkCredentials (Some "user") AUTHENTICATION_STORED_SPOTIFY_CREDENTIALS [10; 20; 30; 40]].
Proof.
  destruct (credentials_delivered (λ _, Example.phone_says) "0.8" None [] "user" [5; 6] [7] (replicate 16 1) Example.blocks
    73 80 81 [1; 2; 3] AUTHENTICATION_STORED_SPOTIFY_CREDENTIALS [10; 20; 30; 40] (replicate 3 0 ++ replicate 16 9) Example.handler)
    as (self' & E & Ev & _); try reflexivity; try (repeat constructor; vm_compute; congruence).
  exists self'. split; [exact E|exact Ev].
Defined.

(** A blob changed on the way. *)
Lemma add_user_guarded_witness :
  serve (λ _, addition "user" (replicate 40 0) [2]) "0.8" "POST" None (Ok []) Example.handler = Val (Example.handler, mac_response) ∧
  ∀ params, adds_user (λ _, addition "user" (replicate 40 0) [2]) "POST" None (Ok []) params → ¬ unacceptable params Example.handler.
Proof.
  assert (serve (λ _, addition "user" (replicate 40 0) [2]) "0.8" "POST" None (Ok []) Example.handler =
    Val (Example.handler, mac_response)) as E by (vm_compute; reflexivity).
  pose proof (add_user_guarded (λ _, addition "user" (replicate 40 0) [2]) "0.8" "POST" None (Ok []) Example.handler) as [Hg _].
  rewrite E in Hg. split; [exact E|exact (proj1 (proj2 Hg))].
Defined.

(** ** Corner cases *)

(** A blob of 30 bytes, from anyone in the network, stops the connection; the check is for less than 16. *)
Example short_blob_panics :
  serve (λ _, addition "user" (replicate 30 0) [2]) "0.8" "POST" None (Ok []) Example.handler = Panic.
Proof. vm_compute. reflexivity. Qed.

(** So does a request that is refused: its error is unwrapped. *)
Example missing_parameter_panics :
  serve (λ _, [("action", "addUser")]) "0.8" "POST" None (Ok []) Example.handler = Panic ∧
  handle (λ _, [("action", "addUser")]) "0.8" "POST" None (Ok []) Example.handler = Val (Example.handler, Err InvalidArgument).
Proof. split; vm_compute; reflexivity. Qed.

(** The two kinds of cast devices are told the service crosswise. *)
Example cast_types_swapped : proto_device_type DtCastAudio = CAST_VIDEO ∧ proto_device_type DtCastVideo = CAST_AUDIO.
Proof. done. Qed.

(** Without features there is no backend; a name that is known may not be built in. *)
Lemma find_backend_first f name b : find_backend f name = Ok b → ∃ n, (n, Some b) ∈ BACKENDS f ∧ (∀ s, name = Some s → n = s).
Proof.
  unfold find_backend. destruct name as [s|].
  - destruct (list_find (λ b, b.1 = s) (BACKENDS f)) as [[i [n [b'|]]]|] eqn:E; try done. intros [= ->].
    apply list_find_Some in E as (E & <- & _). exists n. split; [by eapply list_elem_of_lookup_2|]. by intros ? [= <-].
  - destruct f as [[] [] []]; simpl; intros [= <-]; eexists; (split; [|done]);
      repeat (first [apply list_elem_of_here|apply list_elem_of_further]).
Qed.
