(* ===== verification/Program.v ===== *)
(** * The program: the loop of [src/main.rs], [src/player_event_handler.rs], and
    the small files of [core/src/cache.rs]

    Credentials come from the command line, the cache or discovery; the program
    connects with them, and again when the connection ends, though not too
    often; a program of the user is run on events of the player. *)

From S2P Require Import Prelude Digits Text StdText Wire SpotifyId SpotifyUri Connection Metadata Player Cache.

Local Open Scope string_scope.
Local Open Scope list_scope.
Local Open Scope Z_scope.
Local Coercion Z.of_nat : nat >-> Z.

(** ** The loop *)

Definition RECONNECT_RATE_LIMIT_WINDOW : Z := 600000.
Definition RECONNECT_RATE_LIMIT : nat := 5.

Inductive Exit := DiscoveryStopped | SpircFailed | TooOften | PlayerStopped | Interrupted.

(** Sessions are numbered in the order they are made; [made] is the number of
    the next.  [attempts] has, for each Spirc that was built, its session and
    credentials, and [automatic] when, since the last login, the loop decided to connect
    again by itself. *)
Record Main := mkMain {
  discovery : bool;
  last_credentials : option Credentials;
  connecting : bool;
  spirc : bool;
  spirc_task : bool;
  auto_connect_times : list Z;
  session : nat;
  session_invalid : bool;
  made : nat;
  attempts : list (nat * Credentials);
  automatic : list Z;
  exited : option Exit;
}.
#[export] Instance settable_Main : Settable Main := λ r,
  mkMain (discovery r) (last_credentials r) (connecting r) (spirc r) (spirc_task r) (auto_connect_times r) (session r)
    (session_invalid r) (made r) (attempts r) (automatic r) (exited r).

(** The credentials of the command line, the cache or OAuth; without any,
    discovery has to be there. *)
Definition main_start (has_discovery : bool) (credentials : option Credentials) : option Main :=
  if negb has_discovery && negb (bool_decide (is_Some credentials)) then None
  else Some (mkMain has_discovery credentials (bool_decide (is_Some credentials)) false false [] 0 false 1 [] [] None).

Definition session_shutdown (m : Main) : Main := if session_invalid m then m else m <| session_invalid := true |>.

(** New credentials: the running Spirc is told to stop and left to itself. *)
Definition on_credentials (c : option Credentials) (m : Main) : Main :=
  match c with
  | Some c =>
      session_shutdown (m <| last_credentials := Some c |> <| auto_connect_times := [] |> <| automatic := [] |>
                          <| spirc := false |> <| spirc_task := false |>)
        <| connecting := true |>
  | None => m <| exited := Some DiscoveryStopped |>
  end.

Definition on_connect (ok : bool) (m : Main) : Main :=
  let m := if session_invalid m then m <| session := made m |> <| session_invalid := false |> <| made ::= S |> else m in
  match last_credentials m with
  | Some c =>
      let m := m <| attempts ::= (λ l, l ++ [(session m, c)]) |> in
      if ok then m <| spirc := true |> <| spirc_task := true |> <| connecting := false |>
      else m <| exited := Some SpircFailed |>
  | None => m
  end.

(** The limit is looked at before the new time is noted. *)
Definition on_spirc_end (now : Z) (m : Main) : Main :=
  let m := m <| spirc_task := false |> in
  if decide (last_credentials m = None) then m <| exited := Some TooOften |>
  else
    let times := filter (λ t, now - t < RECONNECT_RATE_LIMIT_WINDOW) (auto_connect_times m) in
    let m := m <| auto_connect_times := times |> in
    if decide (RECONNECT_RATE_LIMIT < length times)%nat then m <| exited := Some TooOften |>
    else session_shutdown (m <| auto_connect_times := times ++ [now] |> <| automatic ::= (λ l, l ++ [now]) |>) <| connecting := true |>.

Inductive selection := OnCredentials (c : option Credentials) | OnConnect (ok : bool) | OnSpircEnd | OnPlayerInvalid | OnInterrupt
| SessionLost.

(** A branch is chosen only while its condition holds; a session may become
    invalid at any time. *)
Definition main_step (now : Z) (s : selection) (m : Main) : Main :=
  if decide (exited m = None) then
    match s with
    | OnCredentials c => if discovery m then on_credentials c m else m
    | OnConnect ok => if connecting m && bool_decide (is_Some (last_credentials m)) then on_connect ok m else m
    | OnSpircEnd => if spirc_task m && negb (connecting m) then on_spirc_end now m else m
    | OnPlayerInvalid => m <| exited := Some PlayerStopped |>
    | OnInterrupt => m <| exited := Some Interrupted |>
    | SessionLost => m <| session_invalid := true |>
    end
  else m.

Definition main_run (l : list (Z * selection)) (m : Main) : Main := foldl (λ m e, main_step e.1 e.2 m) m l.

(** ** The user's program *)

Section events.
Context (unix_timestamp : Date → Z).

Definition display_bool (b : bool) : string := if b then "true" else "false".
Definition display_int (n : Z) : string := if decide (n < 0) then "-" +:+ display (- n) else display n.
Definition newline : string := String (Ascii.ascii_of_nat 10) EmptyString.
Definition tab : string := String (Ascii.ascii_of_nat 9) EmptyString.
Definition queue_line (t : QueueTrack) : string := qt_uri t +:+ tab +:+ qt_provider t.

Definition unique_vars (u : UniqueFields) : list (string * string) :=
  match u with
  | UTrack artists album album_artists popularity number disc_number =>
      [("ITEM_TYPE", "Track"); ("ARTISTS", join newline ((λ a, a.1.2) <$> artists)); ("ALBUM_ARTISTS", join newline album_artists);
       ("ALBUM", album); ("POPULARITY", display popularity); ("NUMBER", display number); ("DISC_NUMBER", display disc_number)]
  | ULocal artists album album_artists number disc_number path =>
      [("ITEM_TYPE", "Track"); ("ARTISTS", default EmptyString artists); ("ALBUM_ARTISTS", default EmptyString album_artists);
       ("ALBUM", default EmptyString album); ("NUMBER", default EmptyString (display <$> number));
       ("DISC_NUMBER", default EmptyString (display <$> disc_number)); ("LOCAL_FILE_PATH", path)]
  | UEpisode description publish_time show_name =>
      [("ITEM_TYPE", "Episode"); ("DESCRIPTION", description); ("PUBLISH_TIME", display_int (unix_timestamp publish_time));
       ("SHOW_NAME", show_name)]
  end.

Definition track_vars (event : string) (track_id : SpotifyUri) : exec (list (string * string)) :=
  id ← to_id track_id; Val [("PLAYER_EVENT", event); ("TRACK_ID", id)].
Definition position_vars (event : string) (track_id : SpotifyUri) (position_ms : Z) : exec (list (string * string)) :=
  l ← track_vars event track_id; Val (l ++ [("POSITION_MS", display position_ms)]).

(** The events of the session, its settings and the queue; the passing of time
    has none. *)
Definition session_vars (e : PlayerEvent) : list (string * string) :=
  match e with
  | EvSessionConnected c u => [("PLAYER_EVENT", "session_connected"); ("CONNECTION_ID", c); ("USER_NAME", u)]
  | EvSessionDisconnected c u => [("PLAYER_EVENT", "session_disconnected"); ("CONNECTION_ID", c); ("USER_NAME", u)]
  | EvSessionClientChanged id name brand model =>
      [("PLAYER_EVENT", "session_client_changed"); ("CLIENT_ID", id); ("CLIENT_NAME", name); ("CLIENT_BRAND_NAME", brand);
           ("CLIENT_MODEL_NAME", model)]
  | EvShuffleChanged s => [("PLAYER_EVENT", "shuffle_changed"); ("SHUFFLE", display_bool s)]
  | EvRepeatChanged context track =>
      [("PLAYER_EVENT", "repeat_changed"); ("REPEAT", display_bool context); ("REPEAT_TRACK", display_bool track)]
  | EvAutoPlayChanged a => [("PLAYER_EVENT", "auto_play_changed"); ("AUTO_PLAY", display_bool a)]
  | EvFilterExplicitContentChanged f => [("PLAYER_EVENT", "filter_explicit_content_changed"); ("FILTER", display_bool f)]
  | EvSetQueue context_uri current next prev =>
      ([("PLAYER_EVENT", "set_queue"); ("CONTEXT_URI", context_uri)] ++
           (match current with Some t => [("CURRENT_TRACK", queue_line t)] | None => [] end) ++
           [("NEXT_TRACKS", join newline (queue_line <$> next)); ("PREV_TRACKS", join newline (queue_line <$> prev))])
  | _ => []
  end.

(** The variables, in the order they are inserted. *)
Definition event_vars (e : PlayerEvent) : exec (list (string * string)) :=
  match e with
  | EvPlayRequestIdChanged n => Val [("PLAYER_EVENT", "play_request_id_changed"); ("PLAY_REQUEST_ID", display n)]
  | EvTrackChanged item =>
      l ← track_vars "track_changed" (ai_track_id item);
      Val (l ++ [("URI", ai_uri item); ("NAME", ai_name item); ("COVERS", join newline (url <$> ai_covers item));
                 ("LANGUAGE", join newline (ai_language item)); ("DURATION_MS", display (ai_duration_ms item));
                 ("IS_EXPLICIT", display_bool (ai_is_explicit item))] ++ unique_vars (ai_unique_fields item))
  | EvStopped _ t => track_vars "stopped" t
  | EvPlaying _ t p => position_vars "playing" t p
  | EvPaused _ t p => position_vars "paused" t p
  | EvLoading _ t _ => track_vars "loading" t
  | EvPreloading t => track_vars "preloading" t
  | EvTimeToPreloadNextTrack _ t => track_vars "preload_next" t
  | EvEndOfTrack _ t => track_vars "end_of_track" t
  | EvUnavailable _ t => track_vars "unavailable" t
  | EvVolumeChanged v => Val [("PLAYER_EVENT", "volume_changed"); ("VOLUME", display v)]
  | EvSeeked _ t p => position_vars "seeked" t p
  | EvPositionCorrection _ t p => position_vars "position_correction" t p
  | _ => Val (session_vars e)
  end.

Definition env_of (l : list (string * string)) : gmap string string := foldl (λ m p, <[p.1 := p.2]> m) ∅ l.

(** A run of the program: the command, its arguments and its environment; a
    line with no word in it has no command to take. *)
Record Invocation := mkInvocation { command : string; args : list string; env : gmap string string }.
Definition run_program (env_vars : gmap string string) (onevent : string) : exec Invocation :=
  match split_whitespace onevent with
  | [] => Panic
  | c :: l => Val (mkInvocation c l env_vars)
  end.

Definition on_event (onevent : string) (e : PlayerEvent) : exec (option Invocation) :=
  l ← event_vars e;
  if decide (l = []) then Val None else i ← run_program (env_of l) onevent; Val (Some i).

(** The thread, over the events it receives. *)
Fixpoint event_thread (onevent : string) (l : list PlayerEvent) : exec (list Invocation) :=
  match l with
  | [] => Val []
  | e :: l => i ← on_event onevent e; r ← event_thread onevent l; Val (option_list i ++ r)
  end.

Definition sink_vars (s : SinkStatus) : list (string * string) :=
  [("PLAYER_EVENT", "sink");
   ("SINK_STATUS", match s with Running => "running" | TemporarilyClosed => "temporarily_closed" | Closed => "closed" end)].
Definition run_program_on_sink_events (s : SinkStatus) (onevent : string) : exec Invocation :=
  run_program (env_of (sink_vars s)) onevent.
End events.

(** ** Volume and credentials between runs *)

Section files.
Context (write_credentials : Credentials → list Z) (parse_credentials : list Z → option Credentials).

(** The directories given. *)
Record Kept := mkKept { credentials_path : option Path; volume_path : option Path; kept : gmap Path (list Z) }.
#[global] Instance settable_Kept : Settable Kept := λ r, mkKept (credentials_path r) (volume_path r) (kept r).

Definition credentials_location (self : Kept) : option Path := (λ p, p ++ ["credentials.json"]) <$> credentials_path self.
Definition volume_location (self : Kept) : option Path := (λ p, p ++ ["volume"]) <$> volume_path self.

Definition cached_credentials (self : Kept) : option Credentials :=
  location ← credentials_location self; contents ← kept self !! location; parse_credentials contents.

(** Opening may fail; then nothing is written. *)
Definition save_credentials (opened : bool) (c : Credentials) (self : Kept) : Kept :=
  match credentials_location self with
  | Some location => if opened then self <| kept ::= <[location := write_credentials c]> |> else self
  | None => self
  end.

Definition cached_volume (self : Kept) : option Z :=
  location ← volume_location self; contents ← kept self !! location; text ← from_utf8 contents;
  result_ok (parse_uint u16_max text).

Definition save_volume (opened : bool) (volume : Z) (self : Kept) : Kept :=
  match volume_location self with
  | Some location => if opened then self <| kept ::= <[location := as_bytes (display volume)]> |> else self
  | None => self
  end.
End files.
