(* ===== verification/ProgramProps.v ===== *)
(** * Properties of the program

    Every connection has a session of its own; connecting again is limited and
    never forgotten; events reach the user's program; what is kept is read
    back. *)

From S2P Require Import Prelude Digits Text StdText Wire SpotifyId SpotifyUri Connection Metadata Player Cache Program.

Local Open Scope string_scope.
Local Open Scope list_scope.
Local Open Scope Z_scope.
Local Coercion Z.of_nat : nat >-> Z.

(** ** Sessions *)

Record main_inv (m : Main) : Prop := {
  inv_made : (session m < made m)%nat;
  inv_old : Forall (λ a, a.1 < made m)%nat (attempts m);
  inv_distinct : NoDup (attempts m).*1;
  inv_fresh : exited m = None → connecting m = true → session_invalid m = true ∨ session m ∉ (attempts m).*1;
  inv_credentials : exited m = None → connecting m = true → is_Some (last_credentials m);
  inv_task : spirc_task m = true → spirc m = true ∧ is_Some (last_credentials m);
  inv_busy : exited m = None → connecting m = true ∨ spirc_task m = true ∨ discovery m = true ∧ last_credentials m = None;
}.

Lemma start_inv d c m : main_start d c = Some m → main_inv m.
Proof.
  unfold main_start. destruct c as [c|]; simpl; [|destruct d; simpl]; rewrite ?andb_false_r; simpl;
    intros [= <-]; constructor; simpl; try done; try lia; auto using Forall_nil_2, NoDup_nil_2.
  - intros _ _. right. apply not_elem_of_nil.
Qed.

Lemma session_shutdown_eq m : session_shutdown m = m <| session_invalid := true |>.
Proof. unfold session_shutdown. destruct m as [? ? ? ? ? ? ? [] ? ? ? ?]; done. Qed.

Lemma exit_inv e m : main_inv m → main_inv (m <| exited := Some e |>).
Proof. intros [? ? ? ? ? ? ?]. by constructor. Qed.

Lemma credentials_inv c m : main_inv m → main_inv (on_credentials c m).
Proof.
  intros Hm. destruct c as [c|]; [|by apply exit_inv]. unfold on_credentials. rewrite session_shutdown_eq.
  destruct Hm. constructor; simpl; try done; auto.
Qed.

Lemma connect_inv ok m : exited m = None → connecting m = true → main_inv m → main_inv (on_connect ok m).
Proof.
  intros He Hc Hm. unfold on_connect.
  set (m' := if session_invalid m then _ else m).
  assert (main_inv m' ∧ connecting m' = true ∧ session m' ∉ (attempts m').*1) as (Hm' & Hc' & Hf).
  { unfold m'. destruct (session_invalid m) eqn:Ei; [|destruct (inv_fresh _ Hm He Hc); [congruence|done]].
    destruct Hm as [Hmade Hold Hd Hfr Hcr Ht Hb].
    assert (made m ∉ (attempts m).*1) as Hnew.
    { intros (a & E & Ha)%list_elem_of_fmap. rewrite Forall_forall in Hold. specialize (Hold _ Ha). lia. }
    split_and!; simpl; [|done|done]. constructor; simpl; try done; try lia; auto.
    eapply Forall_impl; [exact Hold|]. simpl. lia. }
  clearbody m'. destruct (last_credentials m') as [c|] eqn:El; [|done].
  assert (main_inv (m' <| attempts ::= (λ l, l ++ [(session m', c)]) |> <| spirc := true |> <| spirc_task := true |>
    <| connecting := false |>)) as Hok.
  { destruct Hm' as [Hmade Hold Hd Hfr Hcr Ht Hb]. constructor; simpl; try done; auto.
    - apply Forall_app. split; [done|]. by constructor.
    - rewrite fmap_app. apply NoDup_app. split_and!; [done| |apply NoDup_singleton].
      intros x Hx. simpl. rewrite list_elem_of_singleton. by intros ->. }
  destruct ok; [done|]. destruct Hok, Hm'. by constructor.
Qed.

Lemma spirc_end_inv t m : exited m = None → spirc_task m = true → main_inv m → main_inv (on_spirc_end t m).
Proof.
  intros He Ht Hm. unfold on_spirc_end. destruct (inv_task _ Hm Ht) as [Hs [c Hc]].
  rewrite decide_False by (simpl; congruence). rewrite session_shutdown_eq.
  destruct Hm. case_decide; constructor; simpl; try done; auto.
Qed.

Lemma main_step_inv t s m : main_inv m → main_inv (main_step t s m).
Proof.
  intros Hm. unfold main_step. case_decide as He; [|done]. destruct s as [c|ok| | | |].
  - destruct (discovery m); [by apply credentials_inv|done].
  - destruct (connecting m) eqn:Hc; simpl; [|done]. case_bool_decide; [by apply connect_inv|done].
  - destruct (spirc_task m) eqn:Ht; simpl; [|done]. destruct (connecting m); simpl; [done|]. by apply spirc_end_inv.
  - by apply exit_inv.
  - by apply exit_inv.
  - destruct Hm. constructor; simpl; try done; auto.
Qed.

Lemma main_run_inv l m : main_inv m → main_inv (main_run l m).
Proof. revert m. induction l as [|[t s] l IH]; intros m Hm; [done|]. by apply IH, main_step_inv. Qed.

(** ** How often *)

Lemma filter_recent now l :
  StronglySorted Z.le l →
  ∃ j, filter (λ t, now - t < RECONNECT_RATE_LIMIT_WINDOW) l = drop j l ∧
    ∀ i t, (i < j)%nat → l !! i = Some t → RECONNECT_RATE_LIMIT_WINDOW ≤ now - t.
Proof.
  induction 1 as [|x l Hs IH Hx]; [by exists 0%nat|]. destruct (decide (now - x < RECONNECT_RATE_LIMIT_WINDOW)) as [Hn|Hn].
  - exists 0%nat. split; [|lia]. rewrite drop_0. apply filter_all. constructor; [done|].
    eapply Forall_impl; [exact Hx|]. simpl. lia.
  - destruct IH as (j & E & Hj). exists (S j). split; [rewrite filter_cons_False by done; exact E|].
    intros [|i] t Hi; simpl; [intros [= <-]; lia|]. intros Ht. eapply Hj; [|exact Ht]. lia.
Qed.

(** The times noted are the last of all automatic connections, without those
    that are long ago. *)
Definition noted (now : Z) (m : Main) : Prop :=
  StronglySorted Z.le (automatic m) ∧ Forall (λ t, t ≤ now) (automatic m) ∧
  (∃ k, auto_connect_times m = drop k (automatic m) ∧
     ∀ i t, (i < k)%nat → automatic m !! i = Some t → RECONNECT_RATE_LIMIT_WINDOW ≤ now - t) ∧
  ∀ i t t', automatic m !! i = Some t → automatic m !! (i + 6)%nat = Some t' → RECONNECT_RATE_LIMIT_WINDOW ≤ t' - t.

Lemma noted_same now m m' :
  automatic m' = automatic m → auto_connect_times m' = auto_connect_times m → noted now m → noted now m'.
Proof. unfold noted. by intros -> ->. Qed.
Lemma noted_later now t m : now ≤ t → noted now m → noted t m.
Proof.
  intros Ht (Hs & Hf & (k & Ek & Hk) & Hr). split_and!; [done| | |done].
  - eapply Forall_impl; [exact Hf|]. simpl. lia.
  - exists k. split; [done|]. intros i u Hi Hu. specialize (Hk i u Hi Hu). lia.
Qed.

Lemma sorted_drop k (l : list Z) : StronglySorted Z.le l → StronglySorted Z.le (drop k l).
Proof. revert l. induction k as [|k IH]; intros l Hl; [by rewrite drop_0|]. destruct Hl; [constructor|]. by apply IH. Qed.

(** The times that are kept are again the last ones. *)
Lemma noted_recent now m :
  noted now m →
  ∃ k, filter (λ t, now - t < RECONNECT_RATE_LIMIT_WINDOW) (auto_connect_times m) = drop k (automatic m) ∧
    ∀ i t, (i < k)%nat → automatic m !! i = Some t → RECONNECT_RATE_LIMIT_WINDOW ≤ now - t.
Proof.
  intros (Hs & Hf & (k & Ek & Hk) & _). destruct (filter_recent now (drop k (automatic m))) as (j & Ej & Hj); [by apply sorted_drop|].
  exists (k + j)%nat. rewrite Ek, Ej, drop_drop. split; [done|]. intros i t Hi Ht.
  destruct (decide (i < k)%nat); [by eapply Hk|]. apply (Hj (i - k)%nat); [lia|]. rewrite lookup_drop. by replace (k + (i - k))%nat with i by lia.
Qed.

Lemma noted_spirc_end now m : noted now m → noted now (on_spirc_end now m).
Proof.
  intros Hn. unfold on_spirc_end. case_decide; [by eapply noted_same; [..|exact Hn]|]. cbn [auto_connect_times].
  change (auto_connect_times (m <| spirc_task := false |>)) with (auto_connect_times m).
  destruct (noted_recent _ _ Hn) as (k & Ek & Hk). rewrite Ek. destruct Hn as (Hs & Hf & _ & Hr).
  case_decide as Hlim; [split_and!; [done|done|by exists k|done]|]. rewrite session_shutdown_eq.
  assert (length (automatic m) - k ≤ 5)%nat as Hlen by (rewrite length_drop in Hlim; unfold RECONNECT_RATE_LIMIT in Hlim; lia).
  split_and!; simpl.
  - by apply sorted_snoc.
  - apply Forall_app. split; [done|]. by constructor.
  - exists (Nat.min k (length (automatic m))). split.
    + rewrite drop_app_le by lia. f_equal. destruct (decide (k ≤ length (automatic m))%nat); [by rewrite Nat.min_l by lia|].
      rewrite Nat.min_r by lia. rewrite !drop_ge by lia. done.
    + intros i t Hi Ht. rewrite lookup_app_l in Ht by lia. apply (Hk i); [lia|done].
  - intros i t t' Hi Hi'. destruct (decide (i + 6 < length (automatic m))%nat).
    + rewrite lookup_app_l in Hi, Hi' by lia. by eapply Hr.
    + assert (i + 6 = length (automatic m))%nat as Hl.
      { apply lookup_lt_Some in Hi'. rewrite length_app in Hi'. simpl in Hi'. lia. }
      rewrite Hl, lookup_app_r, Nat.sub_diag in Hi' by lia. injection Hi' as <-.
      rewrite lookup_app_l in Hi by lia. apply (Hk i); [lia|done].
Qed.

Lemma noted_none now m : automatic m = [] → auto_connect_times m = [] → noted now m.
Proof. intros Ea Et. unfold noted. rewrite Ea, Et. split_and!; [constructor|constructor|by exists 0%nat|by intros i]. Qed.

Lemma noted_step now t s m : now ≤ t → noted now m → noted t (main_step t s m).
Proof.
  intros Ht Hn%(noted_later _ t); [|done]. unfold main_step. case_decide; [|done]. destruct s as [[c|]|ok| | | |].
  - destruct (discovery m); [|done]. unfold on_credentials. rewrite session_shutdown_eq. by apply noted_none.
  - destruct (discovery m); [|done]. by eapply noted_same; [..|exact Hn].
  - destruct (_ && _); [|done]. unfold on_connect.
    destruct (session_invalid m), (last_credentials _), ok; by eapply noted_same; [..|exact Hn].
  - destruct (_ && _); [by apply noted_spirc_end|done].
  - by eapply noted_same; [..|exact Hn].
  - by eapply noted_same; [..|exact Hn].
  - by eapply noted_same; [..|exact Hn].
Qed.

Lemma noted_run now l m :
  StronglySorted Z.le l.*1 → Forall (λ e, now ≤ e.1) l → noted now m → ∃ now', noted now' (main_run l m).
Proof.
  revert now m. induction l as [|[t s] l IH]; intros now m Hs Hl Hn; [by exists now|]. simpl in Hs. inversion Hs as [|? ? Hs' Ht]; subst.
  apply Forall_cons in Hl as [Hnow Hl]. apply (IH t); [done| |by apply (noted_step now)].
  by rewrite Forall_fmap in Ht.
Qed.

(** ** With which credentials *)

Section given.
Context (given : Credentials → Prop).

Definition uses_given (m : Main) : Prop :=
  (∀ c, last_credentials m = Some c → given c) ∧ Forall (λ a, given a.2) (attempts m).

Lemma uses_given_step t s m :
  (∀ c, s = OnCredentials (Some c) → given c) → uses_given m → uses_given (main_step t s m).
Proof.
  intros Hs Hm. pose proof Hm as [Hl Ha]. unfold main_step. case_decide; [|done]. destruct s as [[c|]|ok| | | |]; try done.
  - destruct (discovery m); [|done]. unfold on_credentials. rewrite session_shutdown_eq. split; [|done].
    intros c' [= <-]. by apply Hs.
  - by destruct (discovery m).
  - destruct (_ && _); [|done]. unfold on_connect. set (m' := if session_invalid m then _ else m).
    assert (uses_given m') as Hm' by (unfold m'; by destruct (session_invalid m)). pose proof Hm' as [Hl' Ha']. clearbody m'.
    destruct (last_credentials m') as [c|] eqn:El; [|done].
    assert (Forall (λ a, given a.2) (attempts m' ++ [(session m', c)])) as Hnew.
    { apply Forall_app. split; [done|]. constructor; [|constructor]. by apply Hl'. }
    destruct ok; (split; simpl; [|done]); rewrite El; intros ? [= <-]; by apply Hl'.
  - destruct (_ && _); [|done]. unfold on_spirc_end. repeat case_decide; rewrite ?session_shutdown_eq; done.
Qed.

Lemma uses_given_run l m :
  (∀ t c, (t, OnCredentials (Some c)) ∈ l → given c) → uses_given m → uses_given (main_run l m).
Proof.
  revert m. induction l as [|[t s] l IH]; intros m Hl Hm; [done|]. simpl. apply IH.
  - intros u c Hu. apply (Hl u c). by right.
  - apply uses_given_step; [|done]. intros c ->. apply (Hl t c). by left.
Qed.
End given.

(** C27: The program keeps going.  Whatever it selects, every Spirc it builds has a session that no other had, with
    credentials that the program was started with or that were handed to it; until it ends it is connecting, running
    Spirc, or waiting for its first credentials; and of seven automatic connections since the last login, which starts
    the count anew, the first and the last are ten minutes apart, as long as the clock does not go back. *)
Theorem main_keeps_going has_discovery credentials m0 l :
  main_start has_discovery credentials = Some m0 →
  let m := main_run l m0 in
  NoDup (attempts m).*1 ∧
  Forall (λ a, credentials = Some a.2 ∨ ∃ t, (t, OnCredentials (Some a.2)) ∈ l) (attempts m) ∧
  (exited m = None →
     connecting m = true ∧ is_Some (last_credentials m) ∨ spirc_task m = true ∧ spirc m = true ∨
     discovery m = true ∧ last_credentials m = None) ∧
  (StronglySorted Z.le l.*1 →
     ∀ i t t', automatic m !! i = Some t → automatic m !! (i + 6)%nat = Some t' → RECONNECT_RATE_LIMIT_WINDOW ≤ t' - t).
Proof.
  intros Hstart m. pose proof (main_run_inv l m0 (start_inv _ _ _ Hstart)) as Hm. fold m in Hm. split_and!.
  - apply Hm.
  - apply (uses_given_run (λ c, credentials = Some c ∨ ∃ t, (t, OnCredentials (Some c)) ∈ l)); [eauto|].
    revert Hstart. unfold main_start. destruct (_ && _); intros [= <-]. split; simpl; [by auto|constructor].
  - intros He. destruct (inv_busy _ Hm He) as [Hc|[Ht|Hd]]; [left|right; left|by right; right].
    + split; [done|]. by apply (inv_credentials _ Hm).
    + split; [done|]. by apply (inv_task _ Hm).
  - intros Hs. destruct (noted_run (default 0 (head l.*1)) l m0) as (now' & _ & _ & _ & Hr); [done| | |exact Hr].
    + destruct l as [|[t0 s0] l]; [constructor|]. simpl in *. inversion Hs as [|? ? _ Hall]; subst.
      constructor; [done|]. by rewrite Forall_fmap in Hall.
    + revert Hstart. unfold main_start. destruct (_ && _); intros [= <-]. by apply noted_none.
Qed.

(** Spirc ends each minute. *)
Definition minutes : list (Z * selection) :=
  (0, OnConnect true) :: ([1; 2; 3; 4; 5; 6] ≫= λ n, [(n * 60000, OnSpircEnd); (n * 60000, OnConnect true)]).
Definition example_main : Main :=
  mkMain false (Some (with_access_token "t")) true false false [] 0 false 1 [] [] None.

Lemma main_keeps_going_witness :
  NoDup (attempts (main_run minutes example_main)).*1 ∧
  (connecting (main_run minutes example_main) = true ∧ is_Some (last_credentials (main_run minutes example_main)) ∨
   spirc_task (main_run minutes example_main) = true ∧ spirc (main_run minutes example_main) = true ∨
   discovery (main_run minutes example_main) = true ∧ last_credentials (main_run minutes example_main) = None) ∧
  automatic (main_run minutes example_main) = [60000; 120000; 180000; 240000; 300000; 360000].
Proof.
  destruct (main_keeps_going false (Some (with_access_token "t")) example_main minutes eq_refl) as (Hn & _ & Hb & _).
  split; [exact Hn|]. split; [apply Hb; vm_compute; reflexivity|vm_compute; reflexivity].
Defined.

(** *** Corner cases *)

(** Six automatic connections are made in ten minutes, one more than the limit says; the seventh ends the program. *)
Example six_reconnects :
  length (automatic (main_run minutes example_main)) = S RECONNECT_RATE_LIMIT ∧
  exited (main_run (minutes ++ [(420000, OnSpircEnd)]) example_main) = Some TooOften ∧
  exited (main_run (minutes ++ [(660000, OnSpircEnd)]) example_main) = None.
Proof. vm_compute. done. Qed.

(** ** Events *)

Lemma event_vars_first unix e l : event_vars unix e = Val l → l ≠ [] → ∃ name rest, l = ("PLAYER_EVENT", name) :: rest.
Proof.
  destruct e; cbn [event_vars session_vars]; unfold position_vars, track_vars; intros E Hne;
    repeat match goal with
    | H : _ ≫= _ = Val _ |- _ => apply exec_bind_Val_inv in H as (? & ? & H)
    | H : Val _ = Val _ |- _ => injection H as <-
    end; try done; cbn [app]; eauto.
Qed.

Ltac names_distinct :=
  cbn [app unique_vars]; rewrite ?fmap_cons, fmap_nil; cbn [fst]; match goal with |- NoDup ?l => apply (bool_decide_unpack (NoDup l)); vm_compute; exact I end.
Lemma event_vars_nodup unix e l : event_vars unix e = Val l → NoDup l.*1.
Proof.
  destruct e; cbn [event_vars session_vars]; unfold position_vars, track_vars; intros E;
    repeat match goal with
    | H : _ ≫= _ = Val _ |- _ => apply exec_bind_Val_inv in H as (? & ? & H)
    | H : Val _ = Val _ |- _ => injection H as <-
    end; try names_distinct.
  - match goal with |- context [unique_vars _ ?u] => destruct u end; names_distinct.
  - match goal with |- context [match ?t with Some _ => _ | None => _ end] => destruct t end; names_distinct.
Qed.

Lemma env_of_lookup l k v : NoDup l.*1 → (k, v) ∈ l → env_of l !! k = Some v.
Proof.
  unfold env_of. assert (∀ (m : gmap string string), NoDup l.*1 → (∀ v', (k, v') ∉ l) ∨ m !! k = None ∨ True →
    ((k, v) ∈ l → foldl (λ m p, <[p.1 := p.2]> m) m l !! k = Some v) ∧
    ((∀ v', (k, v') ∉ l) → foldl (λ m p, <[p.1 := p.2]> m) m l !! k = m !! k)) as Hgen.
  { induction l as [|[k' v'] l IH]; intros m Hn _; [split; [by intros ?%not_elem_of_nil|done]|].
    simpl in *. apply NoDup_cons in Hn as [Hnot Hn]. destruct (IH (<[k' := v']> m) Hn ltac:(auto)) as [IH1 IH2]. split.
    - intros [[= -> ->]|Hin]%elem_of_cons; [|auto]. rewrite IH2; [apply lookup_insert_eq|].
      intros v'' Hv. apply Hnot. apply list_elem_of_fmap. by exists (k', v'').
    - intros Hno. rewrite IH2; [apply lookup_insert_ne|].
      + intros ->. apply (Hno v'). by apply elem_of_cons; left.
      + intros v'' Hv. apply (Hno v''). by apply elem_of_cons; right. }
  intros Hn Hin. by apply (Hgen ∅ Hn); auto.
Qed.

(** The user's program is run on every event but those about the passing of time, with exactly the variables of the event. *)
Lemma event_run unix onevent command args e l :
  split_whitespace onevent = command :: args → event_vars unix e = Val l →
  match on_event unix onevent e with
  | Val None => l = [] ∧ ∃ n t p, e = EvPositionChanged n t p
  | Val (Some i) =>
      Program.command i = command ∧ Program.args i = args ∧ is_Some (env i !! "PLAYER_EVENT") ∧
      ∀ k v, (k, v) ∈ l → env i !! k = Some v
  | Panic => False
  end.
Proof.
  intros Hc Hl. unfold on_event. rewrite Hl, exec_bind_Val. case_decide as Hnil.
  - split; [done|]. subst l. destruct e; eauto; cbn [event_vars session_vars] in Hl; unfold position_vars, track_vars in Hl;
      repeat match goal with
      | H : _ ≫= _ = Val _ |- _ => apply exec_bind_Val_inv in H as (? & ? & H)
      | H : Val _ = Val _ |- _ => injection H as ?
      end; simplify_eq/=.
  - unfold run_program. rewrite Hc. simpl. pose proof (event_vars_nodup _ _ _ Hl) as Hn.
    destruct (event_vars_first _ _ _ Hl Hnil) as (name & rest & ->). split_and!; [done|done| |].
    + exists name. apply env_of_lookup; [done|apply list_elem_of_here].
    + intros k v Hin. by apply env_of_lookup.
Qed.

(** A program given as blanks stops the thread at the first event. *)
Example blank_program_panics : on_event (λ z, z) "  " (EvShuffleChanged true) = Panic.
Proof. vm_compute. reflexivity. Qed.

(** ** Files *)

Section files.
Context (write_credentials : Credentials → list Z) (parse_credentials : list Z → option Credentials).

Lemma credentials_kept c self :
  parse_credentials (write_credentials c) = Some c → is_Some (credentials_path self) →
  cached_credentials parse_credentials (save_credentials write_credentials true c self) = Some c.
Proof.
  intros Hc [p Hp]. unfold cached_credentials, save_credentials, credentials_location. rewrite Hp. simpl. rewrite Hp. simpl.
  by rewrite lookup_insert_eq.
Qed.
End files.

Lemma utf8_display n : from_utf8 (as_bytes (display n)) = Some (display n).
Proof.
  assert (∀ s, (∀ c, (128 ≤ code c)%Z → no_char c s) → from_utf8 (as_bytes s) = Some s) as Hs.
  { intros s Hall. unfold from_utf8.
    assert (utf8_ok (as_bytes s) = true) as ->.
    { unfold as_bytes. induction s as [|c s IH]; [done|]. simpl. destruct (decide (code c < 128)).
      - apply IH. intros d Hd. specialize (Hall d Hd). by apply no_char_cons in Hall as [_ ?].
      - exfalso. specialize (Hall c ltac:(lia)). by apply no_char_cons in Hall as [? _]. }
    f_equal. unfold as_bytes. rewrite <- list_fmap_compose.
    rewrite <- (String.string_of_list_ascii_of_string s) at 2. f_equal.
    rewrite <- (list_fmap_id (String.list_ascii_of_string s)) at 2. apply list_fmap_ext. intros ? c _. simpl. apply chr_code. }
  apply Hs. intros c Hc. apply display_char. lia.
Qed.

Lemma volume_kept v self : 0 ≤ v ≤ u16_max → is_Some (volume_path self) → cached_volume (save_volume true v self) = Some v.
Proof.
  intros Hv [p Hp]. unfold cached_volume, save_volume, volume_location. rewrite Hp. simpl. rewrite Hp. simpl.
  rewrite lookup_insert_eq. simpl. rewrite utf8_display. simpl. rewrite parse_display; [done|done|]. unfold u16_max, u128_max. lia.
Qed.
