(* ===== verification/OAuth.v ===== *)
(** * Logging in with a browser: [oauth/src/lib.rs]

    An address is shown to the user; the browser comes back, to a server on
    this machine or by the user's hand, with a code, which is exchanged for a
    token together with the verifier of the challenge that was in the
    address. *)

From S2P Require Import Prelude Digits Text StdText Connection CdnUrl.

Local Open Scope string_scope.
Local Open Scope list_scope.
Local Open Scope Z_scope.
Local Coercion Z.of_nat : nat >-> Z.

Inductive OAuthError :=
| AuthCodeBadUri (uri : string) | AuthCodeNotFound (uri : string) | AuthCodeStdinRead | AuthCodeListenerBind | AuthCodeListenerTerminated
| AuthCodeListenerRead | AuthCodeListenerParse | AuthCodeListenerWrite | InvalidSpotifyUri | InvalidRedirectUri (uri : string) | Recv
| ExchangeCode.

(** Times in milliseconds. *)
Record OAuthToken := mkOAuthToken {
  access_token : string;
  refresh_token : string;
  expires_at : Z;
  token_type : string;
  scopes : list string;
}.
Record TokenResponse := mkTokenResponse {
  resp_access_token : string;
  resp_refresh_token : option string;
  resp_expires_in : option Z;
  resp_token_type : string;
  resp_scopes : option (list string);
}.

Record OAuthClient := mkOAuthClient {
  client_id : string;
  redirect_uri : string;
  client_scopes : list string;
  should_open_url : bool;
  message : string;
}.
#[export] Instance settable_OAuthClient : Settable OAuthClient := λ r,
  mkOAuthClient (client_id r) (redirect_uri r) (client_scopes r) (should_open_url r) (message r).

(** What a line read from a stream is, [None] when reading fails, and how a
    connection of the listener went. *)
Record Visit := mkVisit { request_line : option string; writable : bool }.

(** The rest of the world: what the user types, who connects (errors of
    accepting are skipped), what the service answers ([None] when the thread
    that asks has died), and what is drawn at random. *)
Record Outside := mkOutside {
  bindable : bool;
  visits : list Visit;
  typed : option string;
  exchange : string → string → option (result TokenResponse unit);
  refresh : string → option (result TokenResponse unit);
  verifier : string;
}.

(** What was done: the challenge shown, the answer to the browser, and the
    codes exchanged with their verifiers. *)
Record Done := mkDone { shown : list string; answered : list string; exchanges : list (string * string) }.
#[export] Instance settable_Done : Settable Done := λ r, mkDone (shown r) (answered r) (exchanges r).

Section oauth.
Context `{UrlCrate} (scheme : Url → string) (port : Url → option Z) (socket_addrs : Url → option (list string)).
Context (challenge : string → string).

Definition get_code (redirect_url : string) : result string OAuthError :=
  match url_parse redirect_url with
  | None => Err (AuthCodeBadUri redirect_url)
  | Some url => ok_or (pair_of "code" url) (AuthCodeNotFound redirect_url)
  end.

Definition get_authcode_stdin (o : Outside) : result string OAuthError :=
  match typed o with None => Err AuthCodeStdinRead | Some buffer => get_code (trim buffer) end.

Definition crlf : string := String (Ascii.ascii_of_nat 13) (String (Ascii.ascii_of_nat 10) EmptyString).
Definition response_text (message : string) : string :=
  "HTTP/1.1 200 OK" +:+ crlf +:+ "content-length: " +:+ display (String.length message) +:+ crlf +:+ crlf +:+ message.

(** Only the first visitor is served. *)
Definition get_authcode_listener (message : string) (o : Outside) (d : Done) : Done * result string OAuthError :=
  if negb (bindable o) then (d, Err AuthCodeListenerBind)
  else match visits o with
  | [] => (d, Err AuthCodeListenerTerminated)
  | v :: _ =>
      match request_line v with
      | None => (d, Err AuthCodeListenerRead)
      | Some line =>
          match split_whitespace line !! 1%nat with
          | None => (d, Err AuthCodeListenerParse)
          | Some redirect_url =>
              let code := get_code ("http://localhost" +:+ redirect_url) in
              if writable v then (d <| answered ::= (λ l, l ++ [response_text message]) |>, code)
              else (d, Err AuthCodeListenerWrite)
          end
      end
  end.

Definition get_socket_address (uri : string) : option string :=
  match url_parse uri with
  | Some u =>
      if bool_decide (scheme u = "http") && bool_decide (is_Some (port u)) then socket_addrs u ≫= last else None
  | None => None
  end.

Definition set_auth_url (o : Outside) (d : Done) : Done := d <| shown ::= (λ l, l ++ [challenge (verifier o)]) |>.

(** An [Instant] has its seconds in 64 bits with a sign; adding a duration
    beyond that panics. *)
Definition INSTANT_MAX : Z := (2 ^ 63 - 1) * 1000 + 999.

Definition build_token (now : Z) (self : OAuthClient) (resp : TokenResponse) : exec OAuthToken :=
  let expires_at := now + default 3600000 (resp_expires_in resp) in
  if decide (expires_at ≤ INSTANT_MAX) then
    Val (mkOAuthToken (resp_access_token resp) (default EmptyString (resp_refresh_token resp)) expires_at
           (resp_token_type resp) (default (client_scopes self) (resp_scopes resp)))
  else Panic.

Definition from_response (now : Z) (self : OAuthClient) (r : option (result TokenResponse unit)) : exec (result OAuthToken OAuthError) :=
  match r with
  | None => Val (Err Recv)
  | Some (Err _) => Val (Err ExchangeCode)
  | Some (Ok resp) => token ← build_token now self resp; Val (Ok token)
  end.

Definition get_access_token (now : Z) (o : Outside) (self : OAuthClient) (d : Done) : Done * exec (result OAuthToken OAuthError) :=
  let d := set_auth_url o d in
  let '(d, code) :=
    match get_socket_address (redirect_uri self) with
    | Some _ => get_authcode_listener (message self) o d
    | None => (d, get_authcode_stdin o)
    end in
  match code with
  | Err e => (d, Val (Err e))
  | Ok code => (d <| exchanges ::= (λ l, l ++ [(code, verifier o)]) |>, from_response now self (exchange o code (verifier o)))
  end.

Definition refresh_access_token (now : Z) (o : Outside) (self : OAuthClient) (token : string) : exec (result OAuthToken OAuthError) :=
  from_response now self (refresh o token).

(** The builder; the service's own addresses are valid. *)
Definition client_new (id redirect : string) (l : list string) : OAuthClient :=
  mkOAuthClient id redirect l false "Go back to your terminal :)".
Definition open_in_browser (c : OAuthClient) : OAuthClient := c <| should_open_url := true |>.
Definition with_custom_message (m : string) (c : OAuthClient) : OAuthClient := c <| message := m |>.
Definition build (c : OAuthClient) : result OAuthClient OAuthError :=
  match url_parse (redirect_uri c) with Some _ => Ok c | None => Err (InvalidRedirectUri (redirect_uri c)) end.
End oauth.

(** ** The way of a code *)

(** Characters of a request that are neither white space nor part of a wider
    character. *)
Definition plain_char (c : ascii) : Prop := 33 ≤ code c < 127.
Definition plain_text (s : string) : Prop := Forall plain_char (String.list_ascii_of_string s).

Lemma plain_step c s word : plain_char c → words word (String c s) = words (c :: word) s.
Proof.
  intros Hc. unfold plain_char in Hc. cbn [words]. unfold is_ascii_whitespace. rewrite bool_decide_false by lia.
  destruct s as [|d s]; [done|]. unfold is_whitespace2. rewrite bool_decide_false by lia.
  destruct s as [|e s]; [done|]. unfold is_whitespace3. by rewrite bool_decide_false by lia.
Qed.

Lemma words_plain s rest word :
  plain_text s → (word ≠ [] ∨ s ≠ EmptyString) →
  words word (s +:+ String " " rest) = String.string_of_list_ascii (rev word ++ String.list_ascii_of_string s) :: words [] rest.
Proof.
  revert word. induction s as [|c s IH]; intros word Hs Hne.
  - cbn. rewrite app_nil_r. unfold flush. by destruct word; [naive_solver|].
  - apply Forall_cons in Hs as [Hc Hs]. rewrite string_cons_app, plain_step by done. rewrite IH; [|done|by left].
    cbn [rev String.list_ascii_of_string]. by rewrite <- app_assoc.
Qed.

(** The target of the request of a browser. *)
Lemma request_target verb target rest :
  plain_text verb → verb ≠ EmptyString → plain_text target → target ≠ EmptyString →
  split_whitespace (verb +:+ String " " (target +:+ String " " rest)) !! 1%nat = Some target.
Proof.
  intros Hv Hv0 Ht Ht0. unfold split_whitespace. rewrite words_plain by auto. rewrite words_plain by auto. simpl.
  by rewrite String.string_of_list_ascii_of_string.
Qed.

Section flow.
Context `{UrlCrate} (scheme : Url → string) (port : Url → option Z) (socket_addrs : Url → option (list string)).
Context (challenge : string → string).
Abbreviation login := (get_access_token scheme port socket_addrs challenge).

(** The address with the code, by the way it came. *)
Definition redirected (self : OAuthClient) (o : Outside) (uri : string) : Prop :=
  match get_socket_address scheme port socket_addrs (redirect_uri self) with
  | Some _ => ∃ v vs line target, bindable o = true ∧ visits o = v :: vs ∧ request_line v = Some line ∧ writable v = true ∧
                split_whitespace line !! 1%nat = Some target ∧ uri = "http://localhost" +:+ target
  | None => ∃ line, typed o = Some line ∧ uri = trim line
  end.

Lemma code_spec self o d :
  let '(d', r) := match get_socket_address scheme port socket_addrs (redirect_uri self) with
                  | Some _ => get_authcode_listener (message self) o d
                  | None => (d, get_authcode_stdin o)
                  end in
  shown d' = shown d ∧ exchanges d' = exchanges d ∧
  (answered d' = answered d ∨ answered d' = answered d ++ [response_text (message self)]) ∧
  (∀ uri, redirected self o uri → get_code uri = r) ∧ (∀ code, r = Ok code → ∃ uri, redirected self o uri).
Proof.
  unfold redirected. destruct (get_socket_address _ _ _ _).
  - unfold get_authcode_listener.
    destruct (bindable o); [simpl|split_and!; [done|done|by left| |done]; intros uri (? & ? & ? & ? & ? & _); congruence].
    destruct (visits o) as [|v vs]; [split_and!; [done|done|by left| |done]; intros uri (? & ? & ? & ? & _ & ? & _); congruence|].
    destruct (request_line v) as [line|] eqn:El;
      [|split_and!; [done|done|by left| |done]; intros uri (v' & ? & ? & ? & _ & [= -> ->] & ? & _); congruence].
    destruct (split_whitespace line !! 1%nat) as [target|] eqn:Et;
      [|split_and!; [done|done|by left| |done]; intros uri (v' & ? & ? & ? & _ & [= -> ->] & ? & _ & ? & _); congruence].
    destruct (writable v) eqn:Ew; simpl.
    + split_and!; [done|done|by right| |by intros code _; exists ("http://localhost" +:+ target), v, vs, line, target].
      intros uri (v' & ? & ? & ? & _ & [= -> ->] & ? & _ & ? & ->). by simplify_eq.
    + split_and!; [done|done|by left| |done]. intros uri (v' & ? & ? & ? & _ & [= -> ->] & ? & ? & _). congruence.
  - unfold get_authcode_stdin. split_and!; [done|done|by left| |].
    + intros uri (line & -> & ->). done.
    + intros code. destruct (typed o) as [line|]; [|done]. intros _. by exists (trim line), line.
Qed.

(** C28: A login exchanges the code that came back, once, together with the verifier whose challenge was shown to the user, and
    gives the token the service answers with, good for as long as it says or an hour; it has no other way to a token.
    The browser is answered before the code is looked at.  Only a token that is good for longer than the clock can tell
    panics, after the exchange. *)
Theorem login_exchanges now o self d :
  let '(d', r) := login now o self d in
  shown d' = shown d ++ [challenge (verifier o)] ∧
  match r with
  | Val (Ok token) =>
      ∃ uri u code resp, redirected self o uri ∧ url_parse uri = Some u ∧ pair_of "code" u = Some code ∧
        exchanges d' = exchanges d ++ [(code, verifier o)] ∧ exchange o code (verifier o) = Some (Ok resp) ∧
        token = mkOAuthToken (resp_access_token resp) (default EmptyString (resp_refresh_token resp))
                  (now + default 3600000 (resp_expires_in resp)) (resp_token_type resp) (default (client_scopes self) (resp_scopes resp))
  | Panic =>
      ∃ uri u code resp, redirected self o uri ∧ url_parse uri = Some u ∧ pair_of "code" u = Some code ∧
        exchanges d' = exchanges d ++ [(code, verifier o)] ∧ exchange o code (verifier o) = Some (Ok resp) ∧
        INSTANT_MAX < now + default 3600000 (resp_expires_in resp)
  | Val (Err e) =>
      exchanges d' = exchanges d ∧ (∀ uri, redirected self o uri → get_code uri = Err e) ∨
      ∃ uri code, redirected self o uri ∧ get_code uri = Ok code ∧ exchanges d' = exchanges d ++ [(code, verifier o)] ∧
        ∀ resp, exchange o code (verifier o) ≠ Some (Ok resp)
  end ∧
  (answered d' = answered d ∨ answered d' = answered d ++ [response_text (message self)]).
Proof.
  unfold get_access_token. pose proof (code_spec self o (set_auth_url challenge o d)) as Hc.
  destruct (match get_socket_address _ _ _ _ with Some _ => _ | None => _ end) as [d1 r1].
  destruct Hc as (Hs & He & Ha & Hall & Hex). destruct r1 as [code|e]; simpl in *.
  2: { split_and!; [done|by left|done]. }
  destruct (Hex code eq_refl) as [uri Hr]. pose proof (Hall uri Hr) as Hg. split; [done|]. split; [|done].
  unfold from_response. destruct (exchange o code (verifier o)) as [[resp|]|] eqn:Ee.
  - unfold get_code in Hg. destruct (url_parse uri) as [u|] eqn:Eu; [|done]. destruct (pair_of "code" u) as [c|] eqn:Ec; [|done].
    injection Hg as ->. unfold build_token. case_decide; simpl; exists uri, u, code, resp; rewrite He; split_and!; try done; lia.
  - right. exists uri, code. split_and!; [done|done|by rewrite He|congruence].
  - right. exists uri, code. split_and!; [done|done|by rewrite He|congruence].
Qed.
End flow.

(** Addresses that are their own queries, on the port of the example. *)
Definition example_urls : UrlCrate := {|
  Url := string;
  url_parse s := Some s;
  query_pairs s := match split_once "?" s with Some (_, q) => option_list (split_once "=" q) | None => [] end;
  query s := Some s;
  date_min := 0;
  date_max := 0;
|}.
Definition example_outside : Outside :=
  mkOutside true [mkVisit (Some ("GET /login?code=abc HTTP/1.1" +:+ crlf)) true] None
    (λ _ _, Some (Ok (mkTokenResponse "at" None (Some 1000) "bearer" None))) (λ _, None) "secret".

(** A browser that comes back, and another that connects first for its icon. *)
Example login_example :
  let U := example_urls in
  let login := get_access_token (λ _, "http") (λ _, Some 5588) (λ _, Some ["127.0.0.1:5588"]) (λ v, "hash of " +:+ v) 7 in
  let client := client_new "id" "http://127.0.0.1:5588/login" ["streaming"] in
  (login example_outside client (mkDone [] [] [])).2 = Val (Ok (mkOAuthToken "at" EmptyString 1007 "bearer" ["streaming"])) ∧
  (login (mkOutside true (mkVisit (Some "GET /favicon.ico HTTP/1.1") true :: visits example_outside) None (exchange example_outside)
     (λ _, None) "secret") client (mkDone [] [] [])).2 = Val (Err (AuthCodeNotFound "http://localhost/favicon.ico")).
Proof. split; vm_compute; reflexivity. Qed.

