(* ===== verification/Passthrough.v ===== *)
(** * Passing a stream on: [playback/src/decoder/passthrough_decoder.rs]

    Instead of decoding a track its Ogg packets are written again, as a chain
    of streams: one from the start, and one from every place sought to, each
    with the three Vorbis headers of the track. *)

From S2P Require Import Prelude StdTypes Float64 Metadata Player.

Local Open Scope Z_scope.

Definition SAMPLE_RATE : Z := 44100.
Definition PAGES_PER_MS : f64 := F64.div (F64.of_Z SAMPLE_RATE) (F64.of_Z 1000).
Definition MS_PER_PAGE : f64 := F64.div (F64.of_Z 1000) (F64.of_Z SAMPLE_RATE).

(** ** The packets of the [ogg] crate *)

Record Packet := mkPacket { pck_data : list Z; absgp_page : Z; last_in_stream : bool; last_in_page : bool }.
Inductive OggReadError := NoCapturePatternFound | OtherReadError.
Inductive PacketWriteEndInfo := NormalPacket | EndPage | EndStream.

(** A reader is deterministic in its state, which has the file in it.  The
    writer fills a vector, [inner_mut]. *)
Class OggReader (R : Type) := {
  read_packet : R → R * result (option Packet) OggReadError;
  read_packet_expected : R → R * result Packet OggReadError;
  delete_unread_packets : R → R;
  seek_absgp : Z → R → R * result bool OggReadError;
}.
Class OggWriter (W : Type) := {
  writer_new : W;
  write_packet : list Z → Z → PacketWriteEndInfo → Z → W → W * result () ();
  inner : W → list Z;
  set_inner : list Z → W → W;
}.

(** Writing to a vector does not fail. *)
Class OggWriterLaws (W : Type) `{OggWriter W} := {
  write_packet_ok data serial inf absgp w : (write_packet data serial inf absgp w).2 = Ok ();
}.

(** The texts of [DecoderError::PassthroughDecoder]. *)
Inductive PassthroughError :=
| ReadFailed (e : OggReadError) | WriteFailed | InvalidData | NotImplementedFor (format : AudioFileFormat) | BeforeEpoch | PacketIsNone.

(** ** The decoder *)

Record Written := mkWritten { w_data : list Z; w_serial : Z; w_inf : PacketWriteEndInfo; w_absgp : Z }.

(** [sent], the packets handed to the writer so far, is not in the program. *)
Record PassthroughDecoder (R W : Type) := mkPassthrough {
  rdr : R;
  wtr : W;
  eos : bool;
  bos : bool;
  ofsgp_page : Z;
  stream_serial : Z;
  ident : list Z;
  comment : list Z;
  setup : list Z;
  sent : list Written;
}.
Arguments mkPassthrough {R W} _ _ _ _ _ _ _ _ _ _.
Arguments rdr {R W} _.
Arguments wtr {R W} _.
Arguments eos {R W} _.
Arguments bos {R W} _.
Arguments ofsgp_page {R W} _.
Arguments stream_serial {R W} _.
Arguments ident {R W} _.
Arguments comment {R W} _.
Arguments setup {R W} _.
Arguments sent {R W} _.
#[export] Instance settable_Passthrough {R W} : Settable (PassthroughDecoder R W) := λ r,
  mkPassthrough (rdr r) (wtr r) (eos r) (bos r) (ofsgp_page r) (stream_serial r) (ident r) (comment r) (setup r) (sent r).

Definition position_pcm_to_ms (position_pcm : Z) : Z := F64.to_int 0 u32_max (F64.mul (F64.of_Z position_pcm) MS_PER_PAGE).

Section passthrough.
Context {R W : Type} `{OggReader R} `{OggWriter W}.
Abbreviation Decoder := (PassthroughDecoder R W).

(** The type is read from the first byte, which an empty packet lacks. *)
Definition get_header (code : Z) (r : R) : exec (R * result (list Z) PassthroughError) :=
  match read_packet_expected r with
  | (r, Err e) => Val (r, Err (ReadFailed e))
  | (r, Ok pck) =>
      match pck_data pck with
      | [] => Panic
      | pkt_type :: _ => Val (r, if decide (pkt_type = code) then Ok (pck_data pck) else Err InvalidData)
      end
  end.

(** The clock gives milliseconds since the epoch, [None] when it is before. *)
Definition passthrough_new (clock : option Z) (r : R) (format : AudioFileFormat) : exec (result Decoder PassthroughError) :=
  if negb (is_ogg_vorbis format) then Val (Err (NotImplementedFor format))
  else match clock with
  | None => Val (Err BeforeEpoch)
  | Some ms =>
      let stream_serial := wrapu 32 ms in
      '(r, ident) ← get_header 1 r;
      match ident with
      | Err e => Val (Err e)
      | Ok ident =>
          '(r, comment) ← get_header 3 r;
          match comment with
          | Err e => Val (Err e)
          | Ok comment =>
              '(r, setup) ← get_header 5 r;
              match setup with
              | Err e => Val (Err e)
              | Ok setup =>
                  Val (Ok (mkPassthrough (delete_unread_packets r) writer_new false false 0 stream_serial ident comment setup []))
              end
          end
      end
  end.

Definition write (data : list Z) (inf : PacketWriteEndInfo) (absgp : Z) (d : Decoder) : Decoder * result () PassthroughError :=
  let '(w, res) := write_packet data (stream_serial d) inf absgp (wtr d) in
  match res with
  | Ok _ => (d <| wtr := w |> <| sent ::= (λ l, l ++ [mkWritten data (stream_serial d) inf absgp]) |>, Ok ())
  | Err _ => (d <| wtr := w |>, Err WriteFailed)
  end.

(** The packet that closes a stream which did not end by itself. *)
Definition close_stream (d : Decoder) : exec (Decoder * result () PassthroughError) :=
  if bos d && negb (eos d) then
    match read_packet (rdr d) with
    | (r, Ok (Some pck)) =>
        absgp ← usub (absgp_page pck) (ofsgp_page d);
        Val (write (pck_data pck) EndStream absgp (d <| rdr := r |>))
    | (r, _) => Val (d <| rdr := r |>, Ok ())
    end
  else Val (d, Ok ()).

Definition seek (position_ms : Z) (d : Decoder) : exec (Decoder * result Z PassthroughError) :=
  let absgp := F64.to_int 0 u64_max (F64.mul (F64.of_Z position_ms) PAGES_PER_MS) in
  '(d, closed) ← close_stream d;
  match closed with
  | Err e => Val (d, Err e)
  | Ok _ =>
      serial ← uadd u32_max (stream_serial d) 1;
      let d := d <| eos := false |> <| bos := false |> <| ofsgp_page := 0 |> <| stream_serial := serial |> in
      match seek_absgp absgp (rdr d) with
      | (r, Err e) => Val (d <| rdr := r |>, Err (ReadFailed e))
      | (r, Ok _) =>
          match read_packet r with
          | (r, Err e) => Val (d <| rdr := r |>, Err (ReadFailed e))
          | (r, Ok None) => Val (d <| rdr := r |>, Err PacketIsNone)
          | (r, Ok (Some pck)) =>
              let new_page := absgp_page pck in
              Val (d <| rdr := r |> <| ofsgp_page := new_page |>, Ok (position_pcm_to_ms new_page))
          end
      end
  end.

Definition write_headers (d : Decoder) : Decoder * result () PassthroughError :=
  if bos d then (d, Ok ())
  else
    match write (ident d) EndPage 0 d with
    | (d, Err e) => (d, Err e)
    | (d, Ok _) =>
        match write (comment d) NormalPacket 0 d with
        | (d, Err e) => (d, Err e)
        | (d, Ok _) =>
            match write (setup d) EndPage 0 d with
            | (d, Err e) => (d, Err e)
            | (d, Ok _) => (d <| bos := true |>, Ok ())
            end
        end
    end.

Definition end_info (pck : Packet) : PacketWriteEndInfo :=
  if last_in_stream pck then EndStream else if last_in_page pck then EndPage else NormalPacket.

(** The loop; [None] when it takes more turns than given. *)
Abbreviation Outcome := (exec (Decoder * result (option (AudioPacketPosition * AudioPacket)) PassthroughError)).

Fixpoint packet_loop (turns : nat) (d : Decoder) : option Outcome :=
  match turns with
  | O => None
  | S turns =>
      match read_packet (rdr d) with
      | (r, Ok None) | (r, Err NoCapturePatternFound) => Some (Val (d <| rdr := r |>, Ok None))
      | (r, Err e) => Some (Val (d <| rdr := r |>, Err (ReadFailed e)))
      | (r, Ok (Some pck)) =>
          let d := d <| rdr := r |> in
          let pckgp_page := absgp_page pck in
          if bool_decide (pckgp_page = 0) || bool_decide (pckgp_page = ofsgp_page d) then packet_loop turns d
          else
            let d := if last_in_stream pck then d <| eos := true |> else d in
            match usub pckgp_page (ofsgp_page d) with
            | Panic => Some Panic
            | Val absgp =>
                match write (pck_data pck) (end_info pck) absgp d with
                | (d, Err e) => Some (Val (d, Err e))
                | (d, Ok _) =>
                    let data := inner (wtr d) in
                    if decide (data = []) then packet_loop turns d
                    else Some (Val (d <| wtr ::= set_inner [] |>,
                                    Ok (Some (mkPosition (position_pcm_to_ms pckgp_page) false, Raw data))))
                end
            end
      end
  end.

Definition next_packet (turns : nat) (d : Decoder) : option Outcome :=
  match write_headers d with
  | (d, Err e) => Some (Val (d, Err e))
  | (d, Ok _) => packet_loop turns d
  end.

(** ** Runs *)

(** What the player asks of the decoder; an error does not end its use. *)
Inductive Request := Seek (position_ms : Z) | NextPacket (turns : nat).

Inductive asked : list Request → Decoder → Decoder → Prop :=
| asked_nil d : asked [] d d
| asked_seek ms res d d1 l d' : seek ms d = Val (d1, res) → asked l d1 d' → asked (Seek ms :: l) d d'
| asked_next n res d d1 l d' : next_packet n d = Some (Val (d1, res)) → asked l d1 d' → asked (NextPacket n :: l) d d'.

(** The packets a reader gives on the way from one state to another. *)
Inductive gives : R → list Packet → R → Prop :=
| gives_nil r : gives r [] r
| gives_cons r r1 pck l r' : read_packet r = (r1, Ok (Some pck)) → gives r1 l r' → gives r (pck :: l) r'.

(** Fewer than [n] packets are left. *)
Fixpoint ends_within (n : nat) (r : R) : Prop :=
  match n with
  | O => False
  | S n => match read_packet r with (r, Ok (Some _)) => ends_within n r | _ => True end
  end.
End passthrough.



(** ** What is passed on *)

Definition relabel (serial ofs : Z) (pck : Packet) : Written :=
  mkWritten (pck_data pck) serial (end_info pck) (absgp_page pck - ofs).
Abbreviation keeps ofs := (λ pck, absgp_page pck ≠ 0 ∧ absgp_page pck ≠ ofs).

(** A stream of the output: its number, where it starts in the track, the
    packets of the track in it and the one that was made its last. *)
Record Stream := mkStream { s_serial : Z; s_ofs : Z; s_body : list Packet; s_close : option Packet }.

Definition headers (i c s : list Z) (serial : Z) : list Written :=
  [mkWritten i serial EndPage 0; mkWritten c serial NormalPacket 0; mkWritten s serial EndPage 0].
Definition close_of (s : Stream) : list Written :=
  match s_close s with
  | Some p => [mkWritten (pck_data p) (s_serial s) EndStream (absgp_page p - s_ofs s)]
  | None => []
  end.
Definition stream_written (i c h : list Z) (s : Stream) : list Written :=
  headers i c h (s_serial s) ++ (relabel (s_serial s) (s_ofs s) <$> s_body s) ++ close_of s.

(** Audio comes behind the place sought to, and a stream that ended by itself
    is not closed again. *)
Definition stream_ok (s : Stream) : Prop :=
  Forall (λ p, absgp_page p ≠ 0 ∧ s_ofs s < absgp_page p) (s_body s) ∧
  match s_close s with
  | Some p => existsb last_in_stream (s_body s) = false ∧ s_ofs s ≤ absgp_page p
  | None => True
  end.

Section laws.
Context {R W : Type} `{OggReader R} `{OggWriter W} `{!OggWriterLaws W}.
Implicit Types d : PassthroughDecoder R W.

Lemma write_sends data inf absgp d :
  ∃ w, write data inf absgp d = (d <| wtr := w |> <| sent ::= (λ l, l ++ [mkWritten data (stream_serial d) inf absgp]) |>, Ok ()).
Proof.
  unfold write. pose proof (write_packet_ok data (stream_serial d) inf absgp (wtr d)) as Hok.
  destruct (write_packet _ _ _ _ _) as [w res]. simpl in Hok. subst res. by exists w.
Qed.

(** What the fields of a decoder that only reads and writes audio keep. *)
Definition same_stream d d' : Prop :=
  bos d' = bos d ∧ ofsgp_page d' = ofsgp_page d ∧ stream_serial d' = stream_serial d ∧
  ident d' = ident d ∧ comment d' = comment d ∧ setup d' = setup d.

Lemma same_stream_trans d1 d2 d3 : same_stream d1 d2 → same_stream d2 d3 → same_stream d1 d3.
Proof. unfold same_stream. intros. destruct_and!. repeat split; congruence. Qed.

(** The loop passes on, in order, exactly the packets it was given that are
    audio behind the start of the stream. *)
Lemma packet_loop_passes n d d' res :
  packet_loop n d = Some (Val (d', res)) →
  ∃ l r, gives (rdr d) l r ∧ (rdr d' = r ∨ rdr d' = (read_packet r).1) ∧
    let kept := filter (keeps (ofsgp_page d)) l in
    same_stream d d' ∧ Forall (λ p, ofsgp_page d ≤ absgp_page p) kept ∧
    sent d' = sent d ++ (relabel (stream_serial d) (ofsgp_page d) <$> kept) ∧
    eos d' = eos d || existsb last_in_stream kept.
Proof.
  revert d. induction n as [|n IH]; intros d; cbn [packet_loop]; [done|].
  destruct (read_packet (rdr d)) as [r [[pck|]|e]] eqn:Hr; cycle 1.
  { intros [= <- _]. exists [], (rdr d). simpl. rewrite Hr, app_nil_r, orb_false_r. repeat split; auto; constructor. }
  { intros Hd. assert (d' = d <| rdr := r |>) as -> by (by destruct e; simplify_eq).
    exists [], (rdr d). simpl. rewrite Hr, app_nil_r, orb_false_r. repeat split; auto; constructor. }
  destruct (_ || _) eqn:Hskip.
  - intros (l & r' & Hg & Hend & Hl)%IH. exists (pck :: l), r'. split; [by econstructor|]. split; [done|].
    cbv zeta in *. rewrite filter_cons_False; [done|]. simpl in Hskip.
    intros [??]. apply orb_prop in Hskip as [?%bool_decide_eq_true|?%bool_decide_eq_true]; done.
  - apply orb_false_elim in Hskip as [Hz%bool_decide_eq_false Ho%bool_decide_eq_false]. simpl in Ho.
    set (d1 := if last_in_stream pck then _ else _).
    assert (same_stream d d1 ∧ rdr d1 = r ∧ sent d1 = sent d ∧ eos d1 = eos d || last_in_stream pck) as (Hs & Hr1 & Hs1 & He).
    { subst d1. destruct (last_in_stream pck); simpl; rewrite ?orb_true_r, ?orb_false_r; by repeat split. }
    clearbody d1. destruct (usub _ _) as [gp|] eqn:Hgp; [|done]. apply usub_Val_inv in Hgp as [-> Hle].
    destruct (write_sends (pck_data pck) (end_info pck) (absgp_page pck - ofsgp_page d1) d1) as [w ->].
    destruct Hs as (Hb & Hofs & Hser & Hi & Hc & Hh). cbv beta iota zeta.
    rewrite Hofs in *. case_decide.
    + intros (l & r' & Hg & Hend & Hss & Hf & Hsent & Heos)%IH. simpl in *. rewrite Hr1 in Hg. rewrite Hofs, Hser in *.
      exists (pck :: l), r'. split; [by econstructor|]. split; [done|]. rewrite filter_cons_True by done.
      split; [eapply same_stream_trans; [|exact Hss]; by repeat split|]. split; [by constructor|].
      rewrite Hsent, Heos, Hs1, He, fmap_cons, <- app_assoc, <- orb_assoc. by unfold relabel.
    + intros [= <- _]. exists [pck], r. split; [econstructor; [done|constructor]|]. simpl. split; [auto|].
      rewrite filter_cons_True by done. rewrite Hs1, He, Hser. simpl. rewrite orb_false_r.
      split; [by repeat split|]. split; [by repeat constructor|]. done.
Qed.

(** The loop comes to an end: before the packets of the reader do. *)
Lemma packet_loop_ends n d : ends_within n (rdr d) → is_Some (packet_loop n d).
Proof.
  revert d. induction n as [|n IH]; intros d; [done|]. cbn [packet_loop ends_within].
  destruct (read_packet (rdr d)) as [r [[pck|]|[]]]; [|by eauto..]. intros Hr.
  destruct (_ || _); [by apply IH|]. destruct (usub _ _); [|by eauto].
  destruct (write_sends (pck_data pck) (end_info pck) a (if last_in_stream pck then d <| rdr := r |> <| eos := true |> else d <| rdr := r |>))
    as [w ->].
  cbv beta iota zeta. case_decide; [|by eauto]. apply IH. by destruct (last_in_stream pck).
Qed.

(** The streams that are over, and the packets of the one being written. *)
Definition current d (body : list Packet) : Stream := mkStream (stream_serial d) (ofsgp_page d) body None.
Definition cur_written (i c h : list Z) d (cur : option (list Packet)) : list Written :=
  match cur with Some body => stream_written i c h (current d body) | None => [] end.
Definition cur_ok d (cur : option (list Packet)) : Prop :=
  match cur with
  | Some body => bos d = true ∧ eos d = existsb last_in_stream body ∧ stream_ok (current d body)
  | None => bos d = false ∧ eos d = false
  end.
Definition over_ok (s0 : Z) d (s : Stream) : Prop := stream_ok s ∧ s0 ≤ s_serial s < stream_serial d.

Record chained (i c h : list Z) (s0 : Z) (seeks : nat) d (over : list Stream) (cur : option (list Packet)) : Prop := mkChained {
  ch_headers : ident d = i ∧ comment d = c ∧ setup d = h;
  ch_serial : stream_serial d = s0 + Z.of_nat seeks;
  ch_sent : sent d = (over ≫= stream_written i c h) ++ cur_written i c h d cur;
  ch_sorted : StronglySorted Z.lt (s_serial <$> over);
  ch_over : Forall (over_ok s0 d) over;
  ch_cur : cur_ok d cur;
}.

(** Headers are written when no stream is being written. *)
Lemma write_headers_chained i c h s0 k d over cur :
  chained i c h s0 k d over cur →
  ∃ d1, write_headers d = (d1, Ok ()) ∧ chained i c h s0 k d1 over (Some (default [] cur)) ∧ rdr d1 = rdr d.
Proof.
  intros Hd. unfold write_headers. destruct cur as [body|].
  { exists d. rewrite (proj1 (ch_cur _ _ _ _ _ _ _ _ Hd)). done. }
  destruct Hd as [(Hi & Hc & Hh) Hser Hsent Hs Ho [Hb He]]. rewrite Hb.
  destruct (write_sends (ident d) EndPage 0 d) as [w1 ->].
  set (d1 := set_field sent _ _). destruct (write_sends (comment d1) NormalPacket 0 d1) as [w2 ->].
  set (d2 := set_field sent _ _). destruct (write_sends (setup d2) EndPage 0 d2) as [w3 ->].
  eexists. split; [done|]. split; [|done]. split; simpl; try done.
  rewrite Hsent, Hi, Hc, Hh. simpl. rewrite app_nil_r, <- !app_assoc. done.
Qed.

Lemma packet_loop_chained i c h s0 k n d d' res over body :
  chained i c h s0 k d over (Some body) → packet_loop n d = Some (Val (d', res)) →
  ∃ body', chained i c h s0 k d' over (Some body').
Proof.
  intros [(Hi & Hc & Hh) Hser Hsent Hs Ho (Hb & He & Hok & _)] (l & r & _ & _ & Hss & Hle & Hsent' & He')%packet_loop_passes.
  destruct Hss as (Hb' & Hofs & Hser' & Hi' & Hc' & Hh'). simpl in Hok.
  exists (body ++ filter (keeps (ofsgp_page d)) l). split.
  - split_and!; congruence.
  - congruence.
  - rewrite Hsent', Hsent. unfold cur_written, stream_written, current. simpl. rewrite Hser', Hofs, fmap_app, !app_nil_r.
    by rewrite <- !app_assoc.
  - done.
  - unfold over_ok in *. by rewrite Hser'.
  - split; [congruence|]. rewrite He', He, existsb_app. split; [done|]. split; [|done]. simpl. rewrite Hofs.
    apply Forall_app. split; [done|]. apply Forall_forall. intros p Hp.
    rewrite Forall_forall in Hle. specialize (Hle p Hp). apply list_elem_of_filter in Hp as [[? ?] _]. lia.
Qed.

(** When a stream is left all that was written is streams that are over. *)
Definition left (i c h : list Z) (s0 : Z) d (over : list Stream) : Prop :=
  (ident d = i ∧ comment d = c ∧ setup d = h) ∧ sent d = over ≫= stream_written i c h ∧
  StronglySorted Z.lt (s_serial <$> over) ∧ Forall (λ s, stream_ok s ∧ s0 ≤ s_serial s ≤ stream_serial d) over.

Lemma over_left s0 d over :
  Forall (over_ok s0 d) over → Forall (λ s, stream_ok s ∧ s0 ≤ s_serial s ≤ stream_serial d) over.
Proof. intros Ho. eapply Forall_impl; [exact Ho|]. intros s [? ?]. split; [done|lia]. Qed.

Lemma left_snoc i c h s0 k d d1 over body cl :
  let s := mkStream (stream_serial d) (ofsgp_page d) body cl in
  chained i c h s0 k d over (Some body) → stream_ok s →
  sent d1 = sent d ++ close_of s → stream_serial d1 = stream_serial d →
  ident d1 = ident d → comment d1 = comment d → setup d1 = setup d → left i c h s0 d1 (over ++ [s]).
Proof.
  intros s [Hh Hser Hsent Hs Ho _] Hok Hsent1 Hser1 Hi Hc Hse. unfold left. rewrite Hi, Hc, Hse. split; [done|]. split_and!.
  - rewrite Hsent1, Hsent, bind_app, <- app_assoc. f_equal. simpl. rewrite !app_nil_r. unfold stream_written. done.
  - rewrite fmap_app. apply sorted_snoc; [done|]. apply Forall_fmap. eapply Forall_impl; [exact Ho|]. intros s' [_ ?]. simpl. lia.
  - rewrite Hser1. apply Forall_app. split; [by apply over_left|]. constructor; [|constructor]. split; [done|]. simpl. lia.
Qed.

(** It is closed with the next packet, if there is one and it has not ended. *)
Lemma close_stream_left i c h s0 k d d' res over cur :
  chained i c h s0 k d over cur → close_stream d = Val (d', res) →
  res = Ok () ∧ stream_serial d' = stream_serial d ∧ ∃ over', left i c h s0 d' over'.
Proof.
  intros Hd Hclose. unfold close_stream in Hclose. destruct cur as [body|]; cycle 1.
  { destruct Hd as [Hh Hser Hsent Hs Ho [Hb _]]. rewrite Hb in Hclose. injection Hclose as <- <-. split_and!; [done..|].
    exists over. split_and!; [apply Hh..| |done|by apply over_left]. by rewrite Hsent, app_nil_r. }
  destruct (ch_cur _ _ _ _ _ _ _ _ Hd) as (Hb & He & Hok). rewrite Hb in Hclose. cbn [andb] in Hclose.
  assert (∀ r, left i c h s0 (d <| rdr := r |>) (over ++ [current d body])) as Hopen.
  { intros r. eapply left_snoc; try done. simpl. by rewrite app_nil_r. }
  destruct (negb (eos d)) eqn:Heos; [|injection Hclose as <- <-; split_and!; [done..|]; by eexists; apply (Hopen (rdr d))].
  destruct (read_packet (rdr d)) as [r [[p|]|e]]; [|injection Hclose as <- <-; split_and!; [done..|]; by eexists; apply (Hopen r)..].
  apply negb_true_iff in Heos. destruct (usub _ _) as [gp|] eqn:Hgp; [|done]. apply usub_Val_inv in Hgp as [-> Hle].
  rewrite exec_bind_Val in Hclose.
  destruct (write_sends (pck_data p) EndStream (absgp_page p - ofsgp_page d) (d <| rdr := r |>)) as [w Hw].
  rewrite Hw in Hclose. injection Hclose as <- <-. split_and!; [done..|]. eexists.
  apply (left_snoc _ _ _ _ _ d _ _ _ (Some p) Hd); try done. split; [apply Hok|]. simpl. split; [congruence|done].
Qed.

Lemma seek_chained i c h s0 k ms d d' res over cur :
  chained i c h s0 k d over cur → seek ms d = Val (d', res) → ∃ over', chained i c h s0 (S k) d' over' None.
Proof.
  intros Hd Hseek. unfold seek in Hseek. apply exec_bind_Val_inv in Hseek as ([d1 closed] & Hclose & Hseek).
  destruct (close_stream_left _ _ _ _ _ _ _ _ _ _ Hd Hclose) as (-> & Hser1 & over' & Hh & Hsent & Hs & Ho).
  apply exec_bind_Val_inv in Hseek as (serial & Hadd & Hseek). apply uadd_Val_inv in Hadd as [-> _].
  pose proof (ch_serial _ _ _ _ _ _ _ _ Hd) as Hser.
  assert (∀ r o, chained i c h s0 (S k)
    (d1 <| eos := false |> <| bos := false |> <| ofsgp_page := o |> <| stream_serial := stream_serial d1 + 1 |> <| rdr := r |>) over' None) as Hnew.
  { intros r o. split; simpl; [done|lia|by rewrite app_nil_r|done| |done].
    eapply Forall_impl; [exact Ho|]. intros s [? ?]. split; [done|]. simpl. lia. }
  exists over'. destruct (seek_absgp _ _) as [r [b|e]]; [|injection Hseek as <- <-; apply (Hnew r 0)].
  destruct (read_packet r) as [r' [[p|]|e]]; injection Hseek as <- <-; [apply (Hnew r' (absgp_page p))|apply (Hnew r' 0)..].
Qed.

Lemma next_packet_chained i c h s0 k n d d' res over cur :
  chained i c h s0 k d over cur → next_packet n d = Some (Val (d', res)) → ∃ cur', chained i c h s0 k d' over cur'.
Proof.
  intros (d1 & Hw & Hd1 & _)%write_headers_chained. unfold next_packet. rewrite Hw. intros Hl.
  destruct (packet_loop_chained _ _ _ _ _ _ _ _ _ _ _ Hd1 Hl) as [body' ?]. eauto.
Qed.

Fixpoint seeks_of (l : list Request) : nat :=
  match l with [] => 0 | Seek _ :: l => S (seeks_of l) | NextPacket _ :: l => seeks_of l end%nat.

Lemma asked_chained i c h s0 k l d d' over cur :
  chained i c h s0 k d over cur → asked l d d' → ∃ over' cur', chained i c h s0 (k + seeks_of l) d' over' cur'.
Proof.
  intros Hd Hl. revert k over cur Hd. induction Hl as [d|ms res d d1 l d' Hq Hl IH|n res d d1 l d' Hq Hl IH]; intros k over cur Hd; simpl.
  - rewrite Nat.add_0_r. eauto.
  - destruct (seek_chained _ _ _ _ _ _ _ _ _ _ _ Hd Hq) as [over' Hd1]. rewrite <- Nat.add_succ_comm. eauto.
  - destruct (next_packet_chained _ _ _ _ _ _ _ _ _ _ _ Hd Hq) as [cur' Hd1]. eauto.
Qed.

Lemma chain_streams i c h s0 k d over cur :
  chained i c h s0 k d over cur →
  ∃ ss, sent d = ss ≫= stream_written i c h ∧ Forall stream_ok ss ∧ StronglySorted Z.lt (s_serial <$> ss) ∧
    Forall (λ s, s0 ≤ s_serial s ≤ s0 + Z.of_nat k) ss.
Proof.
  intros Hd. assert (∃ ss, left i c h s0 d ss) as (ss & _ & ? & ? & [? Hb]%Forall_and).
  { destruct cur as [body|].
    - eexists. apply (left_snoc _ _ _ _ _ d _ _ _ None Hd); try done; [apply (ch_cur _ _ _ _ _ _ _ _ Hd)|]. simpl. by rewrite app_nil_r.
    - destruct Hd as [Hh Hser Hsent Hs Ho _]. exists over. split_and!; [apply Hh..| |done|by apply over_left].
      by rewrite Hsent, app_nil_r. }
  exists ss. rewrite <- (ch_serial _ _ _ _ _ _ _ _ Hd). done.
Qed.

(** No packet left to read is before the start of the stream. *)
Definition not_before d : Prop := ∀ l r p, gives (rdr d) (l ++ [p]) r → ofsgp_page d ≤ absgp_page p.

Lemma not_before_step d d1 r p :
  not_before d → read_packet (rdr d) = (r, Ok (Some p)) → rdr d1 = r → ofsgp_page d1 = ofsgp_page d →
  ofsgp_page d ≤ absgp_page p ∧ not_before d1.
Proof.
  intros Hd Hr <- Hofs. split; [apply (Hd [] (rdr d1)); econstructor; [done|constructor]|].
  intros l r' p' Hg. rewrite Hofs. apply (Hd (p :: l) r'). by econstructor.
Qed.

Lemma packet_loop_safe n d : not_before d → packet_loop n d ≠ Some Panic.
Proof.
  revert d. induction n as [|n IH]; intros d Hd; [done|]. cbn [packet_loop].
  destruct (read_packet (rdr d)) as [r [[pck|]|[]]] eqn:Hr; [|done..].
  destruct (_ || _); [apply IH; by eapply (not_before_step d)|].
  set (d1 := if last_in_stream pck then _ else _).
  assert (rdr d1 = r ∧ ofsgp_page d1 = ofsgp_page d) as [Hr1 Ho1] by (subst d1; by destruct (last_in_stream pck)).
  clearbody d1. destruct (not_before_step d d1 r pck) as [Hle Hd1]; [done..|]. rewrite usub_Val by lia.
  destruct (write_sends (pck_data pck) (end_info pck) (absgp_page pck - ofsgp_page d1) d1) as [w ->].
  cbv beta iota zeta. case_decide; [|done]. by apply IH.
Qed.

Lemma next_packet_answers i c h s0 k n d over cur :
  chained i c h s0 k d over cur → ends_within n (rdr d) → not_before d → ∃ o, next_packet n d = Some (Val o).
Proof.
  intros Hd Hn Hb. unfold next_packet. destruct (write_headers d) as [d1 [u|e]] eqn:Hw; [|by eauto].
  assert (rdr d1 = rdr d ∧ ofsgp_page d1 = ofsgp_page d) as [Hr Ho].
  { revert Hw. unfold write_headers. destruct (bos d); [by intros [= <- _]|].
    destruct (write_sends (ident d) EndPage 0 d) as [w1 ->].
    set (d2 := set_field sent _ _). destruct (write_sends (comment d2) NormalPacket 0 d2) as [w2 ->].
    set (d3 := set_field sent _ _). destruct (write_sends (setup d3) EndPage 0 d3) as [w3 ->]. by intros [= <- _]. }
  destruct (packet_loop_ends n d1) as [o Hl]; [by rewrite Hr|]. destruct o as [o|]; [by exists o|].
  destruct (packet_loop_safe n d1); [|done]. intros l r p. rewrite Hr, Ho. apply Hb.
Qed.

Lemma seek_answers ms d : stream_serial d < u32_max → not_before d → ∃ o, seek ms d = Val o.
Proof.
  intros Hs Hb. unfold seek.
  assert (∃ d1 res, close_stream d = Val (d1, res) ∧ stream_serial d1 = stream_serial d) as (d1 & res & -> & Hs1).
  { unfold close_stream. destruct (_ && _); [|by eauto].
    destruct (read_packet (rdr d)) as [r [[p|]|e]] eqn:Hr; [|by eauto..].
    destruct (not_before_step d (d <| rdr := r |>) r p) as [Hle _]; [done..|]. rewrite usub_Val, exec_bind_Val by done.
    destruct (write_sends (pck_data p) EndStream (absgp_page p - ofsgp_page d) (d <| rdr := r |>)) as [w ->]. by eauto. }
  cbn. destruct res; [|by eauto]. rewrite uadd_Val by lia. cbn. repeat case_match; by eauto.
Qed.

Lemma get_header_code code (r r' : R) l : get_header code r = Val (r', Ok l) → head l = Some code.
Proof.
  unfold get_header. destruct (read_packet_expected r) as [? [pck|]]; [|done].
  destruct (pck_data pck); [done|]. case_decide; [|done]. by intros [= _ <-]; subst.
Qed.

Lemma passthrough_new_chained clock (r : R) format d :
  passthrough_new (W := W) clock r format = Val (Ok d) →
  (head (ident d) = Some 1 ∧ head (comment d) = Some 3 ∧ head (setup d) = Some 5) ∧
  chained (ident d) (comment d) (setup d) (stream_serial d) 0 d [] None.
Proof.
  unfold passthrough_new. destruct (negb _); [done|]. destruct clock; [|done].
  destruct (get_header 1 r) as [[r1 [i|]]|] eqn:H1; [|done..]. cbn. destruct (get_header 3 r1) as [[r2 [c|]]|] eqn:H2; [|done..].
  cbn. destruct (get_header 5 r2) as [[r3 [h|]]|] eqn:H3; [|done..]. cbn. intros [= <-]. simpl.
  apply get_header_code in H1, H2, H3. split; [done|]. split; simpl; [done|lia|done|constructor|constructor|done].
Qed.

(** C29: Whatever is asked of the decoder, and in whatever order, what it has
    written is a chain of streams with growing numbers, at most one for the
    start and one for every seek.  Each has the three headers of the track,
    then packets of the track with their places counted from where the
    stream starts, and is closed at most once.  Both requests are answered as
    long as the reader does not go back behind that place and numbers are
    left. *)
Theorem passthrough_chain clock (r : R) format (d0 d : PassthroughDecoder R W) l :
  passthrough_new clock r format = Val (Ok d0) → asked l d0 d →
  (head (ident d0) = Some 1 ∧ head (comment d0) = Some 3 ∧ head (setup d0) = Some 5) ∧
  (∃ ss, sent d = ss ≫= stream_written (ident d0) (comment d0) (setup d0) ∧ Forall stream_ok ss ∧
     StronglySorted Z.lt (s_serial <$> ss) ∧
     Forall (λ s, stream_serial d0 ≤ s_serial s ≤ stream_serial d0 + Z.of_nat (seeks_of l)) ss) ∧
  (∀ n, ends_within n (rdr d) → not_before d → ∃ o, next_packet n d = Some (Val o)) ∧
  (∀ ms, stream_serial d < u32_max → not_before d → ∃ o, seek ms d = Val o).
Proof.
  intros [Hhead Hd0]%passthrough_new_chained Hl. split; [done|].
  destruct (asked_chained _ _ _ _ _ _ _ _ _ _ Hd0 Hl) as (over & cur & Hd).
  split; [|split; [intros n; by eapply next_packet_answers|intros ms; apply seek_answers]].
  destruct (chain_streams _ _ _ _ _ _ _ _ Hd) as (ss & ? & ? & ? & ?). by exists ss.
Qed.
End laws.

(** ** A track *)

(** A reader of the packets [all], at those that are left, and a writer that
    keeps what is written until a page ends. *)
Module Toy.
Record Reader := mkReader { all : list Packet; rest : list Packet }.
Definition read (r : Reader) : Reader * result (option Packet) OggReadError :=
  match rest r with
  | p :: l => (mkReader (all r) l, Ok (Some p))
  | [] => (r, Ok None)
  end.

#[global] Instance reader : OggReader Reader := {|
  read_packet := read;
  read_packet_expected r :=
    match read r with
    | (r, Ok (Some p)) => (r, Ok p)
    | (r, Ok None) => (r, Err NoCapturePatternFound)
    | (r, Err e) => (r, Err e)
    end;
  delete_unread_packets r := r;
  seek_absgp g r := (mkReader (all r) (filter (λ p, g ≤ absgp_page p) (all r)), Ok true);
|}.

Record Writer := mkWriter { pending : list Z; out : list Z }.
#[global] Instance writer : OggWriter Writer := {|
  writer_new := mkWriter [] [];
  write_packet data _ inf _ w :=
    (match inf with
     | NormalPacket => mkWriter (pending w ++ data) (out w)
     | _ => mkWriter [] (out w ++ pending w ++ data)
     end, Ok ());
  inner := out;
  set_inner l w := mkWriter (pending w) l;
|}.
#[global] Instance writer_laws : OggWriterLaws Writer.
Proof. by constructor. Qed.

Definition packets : list Packet :=
  [mkPacket [1; 10] 0 false true; mkPacket [3; 11] 0 false false; mkPacket [5; 12] 0 false true;
   mkPacket [20] 441 false true; mkPacket [21] 882 false false; mkPacket [22] 882 false true;
   mkPacket [23] 1323 false true; mkPacket [24] 1764 true true].
Definition track : Reader := mkReader packets packets.

Definition start : PassthroughDecoder Reader Writer :=
  mkPassthrough (mkReader packets (drop 3 packets)) writer_new false false 0 7 [1; 10] [3; 11] [5; 12] [].
Definition requests : list Request := [NextPacket 9; Seek 20; NextPacket 9; NextPacket 9].
(** The stream before the seek is closed with a packet of its own, and the
    packets of the page sought to are left out. *)
Definition chain : list Stream :=
  [mkStream 7 0 [mkPacket [20] 441 false true] (Some (mkPacket [21] 882 false false));
   mkStream 8 882 [mkPacket [23] 1323 false true; mkPacket [24] 1764 true true] None].
Definition final : PassthroughDecoder Reader Writer :=
  mkPassthrough (mkReader packets []) writer_new true true 882 8 [1; 10] [3; 11] [5; 12]
    (chain ≫= stream_written [1; 10] [3; 11] [5; 12]).

Lemma toy_asked : asked requests start final.
Proof. do 4 (econstructor; [vm_compute; reflexivity|]). constructor. Qed.
End Toy.

Lemma passthrough_chain_witness :
  passthrough_new (Some (2 ^ 32 + 7)) Toy.track OGG_VORBIS_160 = Val (Ok Toy.start) ∧
  ∃ ss, sent Toy.final = ss ≫= stream_written [1; 10] [3; 11] [5; 12] ∧ Forall stream_ok ss ∧
    StronglySorted Z.lt (s_serial <$> ss) ∧ Forall (λ s, 7 ≤ s_serial s ≤ 8) ss.
Proof.
  assert (passthrough_new (Some (2 ^ 32 + 7)) Toy.track OGG_VORBIS_160 = Val (Ok Toy.start)) as Hnew by (vm_compute; reflexivity).
  split; [exact Hnew|]. exact (proj1 (proj2 (passthrough_chain _ _ _ _ _ _ Hnew Toy.toy_asked))).
Defined.

(** A track whose first packet is empty ends the thread, and so does a seek
    when the number of the stream, made from the clock, is the last. *)
Lemma empty_header_panics format :
  is_ogg_vorbis format = true →
  passthrough_new (W := Toy.Writer) (Some 0) (Toy.mkReader [] [mkPacket [] 0 false true]) format = Panic.
Proof. unfold passthrough_new. by intros ->. Qed.
Lemma last_serial_panics ms : seek ms (Toy.start <| stream_serial := u32_max |>) = Panic.
Proof. done. Qed.
