(* ===== verification/AlsaMixer.v ===== *)
(** * Volume with ALSA: [playback/src/mixer/alsamixer.rs]

    The volume is that of a control of a sound device: its raw value, when the
    control is one in software, or its level in decibel.  The control is
    looked up anew by every operation. *)

From S2P Require Import Prelude StdTypes Float64 Text ConnectData Metadata Player Mixer.
From Stdlib Require Import SpecFloat.

Local Open Scope Z_scope.

Record MixerConfig := mkMixerConfig { device : string; control : string; index : Z; alsa_volume_ctrl : VolumeCtrl }.
#[export] Instance settable_MixerConfig : Settable MixerConfig := λ r,
  mkMixerConfig (device r) (control r) (index r) (alsa_volume_ctrl r).

Record AlsaMixer := mkAlsaMixer {
  am_config : MixerConfig;
  am_min : Z;
  am_max : Z;
  am_range : Z;
  min_db : f64;
  max_db : f64;
  am_db_range : f64;
  has_switch : bool;
  is_softvol : bool;
  use_linear_in_db : bool;
}.

Inductive AlsaMixerError :=
| CouldNotOpen | CouldNotFindController | CouldNotOpenWithDevice | CouldNotOpenWithName | NoDbRange | CouldNotConvertRaw.

(** Levels in hundredths of a decibel. *)
Definition SND_CTL_TLV_DB_GAIN_MUTE : Z := -9999999.
Definition ZERO_DB : Z := 0.

(** What the [alsa] crate makes of a system: whether the device opens and has
    the control, and the operations of the control, [None] when they fail. *)
Class Alsa (X : Type) := {
  to_db : Z → f32;
  from_db : f32 → Z;
  find_selem : MixerConfig → X → result () AlsaMixerError;
  has_playback_switch : X → bool;
  get_playback_switch : X → option Z;
  get_playback_vol_db : X → option Z;
  get_playback_volume : X → option Z;
  get_playback_volume_range : X → Z * Z;
  get_playback_db_range : X → Z * Z;
  ask_playback_vol_db : Z → X → option Z;
  ctl_new : MixerConfig → X → bool;
  ctl_get_db_range : MixerConfig → X → option (Z * Z);
  set_playback_switch_all : Z → X → option X;
  set_playback_volume_all : Z → X → option X;
  set_playback_db_all : Z → X → option X;
}.

(** A control that is found stays, and its switch is as it was set. *)
Class AlsaLaws (X : Type) `{Alsa X} := {
  switch_set v x x' : set_playback_switch_all v x = Some x' → get_playback_switch x' = Some v;
  switch_found v x x' c : set_playback_switch_all v x = Some x' → find_selem c x' = find_selem c x;
  volume_keeps v x x' c : set_playback_volume_all v x = Some x' →
    find_selem c x' = find_selem c x ∧ get_playback_switch x' = get_playback_switch x;
  db_keeps v x x' c : set_playback_db_all v x = Some x' →
    find_selem c x' = find_selem c x ∧ get_playback_switch x' = get_playback_switch x;
}.

(** [f64::is_normal], of floats in their canonical form; a division of [i64]. *)
Definition is_normal (f : f64) : bool :=
  match f with S754_finite _ m _ => bool_decide (2 ^ 52 ≤ Z.pos m) | _ => false end.
Definition i64_div (a b : Z) : exec Z := if decide (b = 0) then Panic else i64_checked (Z.quot a b).

Section alsa.
Context {X : Type} `{Alsa X} {libm : Libm}.

Definition of_millibel (m : Z) : f64 := F64.of_f32 (to_db m).

(** The reported range of a control in software, whose maximum is taken to be
    zero when the size of a step does not tell it from that. *)
Definition softvol_db_range (c : MixerConfig) (range : Z) (x : X) : exec (result (Z * Z) AlsaMixerError) :=
  if negb (ctl_new c x) then Val (Err CouldNotOpenWithDevice)
  else if existsb (Ascii.eqb Ascii.zero) (String.list_ascii_of_string (control c)) then Val (Err CouldNotOpenWithName)
  else match ctl_get_db_range c x with
  | None => Val (Err NoDbRange)
  | Some (min_millibel, max_millibel) =>
      if decide (max_millibel = ZERO_DB) then Val (Ok (min_millibel, max_millibel))
      else
        span ← i64_checked (max_millibel - min_millibel);
        reported_step_size ← i64_div span range;
        zero_span ← i64_checked (ZERO_DB - min_millibel);
        assumed_step_size ← i64_div zero_span range;
        Val (Ok (min_millibel, if decide (reported_step_size = assumed_step_size) then ZERO_DB else max_millibel))
  end.

Definition hardware_db_range (min max : Z) (x : X) : result (Z * Z) AlsaMixerError :=
  let '(min_millibel, max_millibel) := get_playback_db_range x in
  if bool_decide (min_millibel = SND_CTL_TLV_DB_GAIN_MUTE) && bool_decide (min < max) then
    match ask_playback_vol_db (min + 1) x with
    | Some min_millibel => Ok (min_millibel, max_millibel)
    | None => Err CouldNotConvertRaw
    end
  else Ok (min_millibel, max_millibel).

(** The range that is used, and the control with it. *)
Definition sync_db_range (reported_db_range : f64) (ctrl : VolumeCtrl) : f64 * VolumeCtrl :=
  if range_ok ctrl then (if is_normal (db_range ctrl) then db_range ctrl else reported_db_range, ctrl)
  else (reported_db_range, set_db_range reported_db_range ctrl).

Definition alsa_open (config : MixerConfig) (x : X) : exec (result AlsaMixer AlsaMixerError) :=
  match find_selem config x with
  | Err e => Val (Err e)
  | Ok _ =>
      let has_switch := has_playback_switch x in
      let is_softvol := bool_decide (get_playback_vol_db x = None) in
      let '(min, max) := get_playback_volume_range x in
      diff ← i64_checked (max - min);
      range ← i64_checked (Z.abs diff);
      millibels ← (if is_softvol then softvol_db_range config range x else Val (hardware_db_range min max x));
      match millibels with
      | Err e => Val (Err e)
      | Ok (min_millibel, max_millibel) =>
          let min_db := of_millibel min_millibel in
          let max_db := of_millibel max_millibel in
          let reported_db_range := F64.abs (F64.sub max_db min_db) in
          let '(db_range, ctrl) := sync_db_range reported_db_range (alsa_volume_ctrl config) in
          let use_linear_in_db := negb is_softvol && F64.leb db_range (F64.of_Z 24) in
          let ctrl := if use_linear_in_db then Linear else ctrl in
          Val (Ok (mkAlsaMixer (config <| alsa_volume_ctrl := ctrl |>) min max range min_db max_db db_range
                     has_switch is_softvol use_linear_in_db))
      end
  end.

(** [expect]. *)
Definition expect {A} (o : option A) : exec A := match o with Some a => Val a | None => Panic end.
Definition alsa_element (self : AlsaMixer) (x : X) : exec () :=
  match find_selem (am_config self) x with Ok _ => Val () | Err _ => Panic end.

Definition switched_off (self : AlsaMixer) (x : X) : exec bool :=
  if negb (has_switch self) then Val false
  else
    _ ← alsa_element self x;
    Val (match get_playback_switch x with Some playback => bool_decide (playback = 0) | None => false end).

Definition is_some_linear (self : AlsaMixer) : bool := is_softvol self || use_linear_in_db self.

Definition softvol_mapped (self : AlsaMixer) (raw_volume : Z) : f64 :=
  F64.sub (F64.div (F64.of_Z raw_volume) (F64.of_Z (am_range self))) (F64.of_Z (am_min self)).
Definition db_mapped (self : AlsaMixer) (db_volume : f64) : f64 :=
  if use_linear_in_db self then F64.div (F64.sub db_volume (min_db self)) (am_db_range self)
  else if F64.leb (F64.abs (F64.sub db_volume (of_millibel SND_CTL_TLV_DB_GAIN_MUTE))) F64.EPSILON then F64.zero
  else db_to_ratio (F64.sub db_volume (max_db self)).

Definition alsa_volume (self : AlsaMixer) (x : X) : exec Z :=
  _ ← alsa_element self x;
  off ← switched_off self x;
  if off : bool then Val 0
  else
    mapped_volume ← (if is_softvol self then
        raw_volume ← expect (get_playback_volume x); Val (softvol_mapped self raw_volume)
      else db ← expect (get_playback_vol_db x); Val (db_mapped self (of_millibel db)));
    let mapped_volume :=
      if F64.gtb mapped_volume F64.zero && is_some_linear self then log_linear_to_mapped mapped_volume (am_db_range self)
      else mapped_volume in
    Val (as_unmapped mapped_volume (alsa_volume_ctrl (am_config self))).

Definition set_switch (self : AlsaMixer) (volume : Z) (x : X) : exec X :=
  if has_switch self then
    if decide (volume = 0) then expect (set_playback_switch_all 0 x)
    else off ← switched_off self x; if off : bool then expect (set_playback_switch_all 1 x) else Val x
  else Val x.

Definition scaled_volume (self : AlsaMixer) (mapped_volume : f64) : Z :=
  F64.to_int i64_min i64_max (F64.add (F64.of_Z (am_min self)) (F64.mul mapped_volume (F64.of_Z (am_range self)))).
Definition db_volume (self : AlsaMixer) (volume : Z) (mapped_volume : f64) : f64 :=
  if use_linear_in_db self then F64.add (min_db self) (F64.mul mapped_volume (am_db_range self))
  else if decide (volume = 0) then of_millibel SND_CTL_TLV_DB_GAIN_MUTE
  else F64.add (ratio_to_db mapped_volume) (max_db self).

Definition alsa_set_volume (self : AlsaMixer) (volume : Z) (x : X) : exec X :=
  _ ← alsa_element self x;
  x ← set_switch self volume x;
  let mapped_volume := to_mapped volume (alsa_volume_ctrl (am_config self)) in
  let mapped_volume :=
    if F64.gtb mapped_volume F64.zero && is_some_linear self then log_mapped_to_linear mapped_volume (am_db_range self)
    else mapped_volume in
  if is_softvol self then expect (set_playback_volume_all (scaled_volume self mapped_volume) x)
  else expect (set_playback_db_all (from_db (F64.to_f32 (db_volume self volume mapped_volume))) x).
End alsa.

(** ** Properties *)

Section laws.
Context {X : Type} `{Alsa X} {libm : Libm}.
Implicit Types (self : AlsaMixer) (x : X).

(** A mixer that opened has the distance of the ends of the raw range; the
    levels are used linearly only for hardware with a small range, whose
    control is then linear. *)
Lemma alsa_opened config x self :
  alsa_open config x = Val (Ok self) →
  am_range self = Z.abs (am_max self - am_min self) ∧
  is_softvol self = bool_decide (get_playback_vol_db x = None) ∧ has_switch self = has_playback_switch x ∧
  use_linear_in_db self = negb (is_softvol self) && F64.leb (am_db_range self) (F64.of_Z 24) ∧
  (use_linear_in_db self = true → alsa_volume_ctrl (am_config self) = Linear).
Proof.
  unfold alsa_open. destruct (find_selem _ _); [|done]. destruct (get_playback_volume_range x) as [lo hi].
  unfold i64_checked. intros Hopen. repeat (case_decide; [cbn in Hopen|done]).
  destruct (if bool_decide (get_playback_vol_db x = None) then _ else _) as [[[lo_mb hi_mb]|]|]; [|done..]. cbn in Hopen.
  destruct (sync_db_range _ _) as [r ctrl]. injection Hopen as <-. cbn -[F64.leb F64.of_Z].
  split_and!; [done..|]. by intros ->.
Qed.

(** The reported volume is a [u16]. *)
Lemma alsa_volume_bounds self x v : alsa_volume self x = Val v → 0 ≤ v ≤ u16_max.
Proof.
  unfold alsa_volume. intros Hv. apply exec_bind_Val_inv in Hv as (_ & _ & Hv).
  apply exec_bind_Val_inv in Hv as ([] & _ & Hv); [injection Hv as <-; unfold u16_max; lia|].
  apply exec_bind_Val_inv in Hv as (f & _ & Hv). injection Hv as <-. apply (volume_bounds (mkSoftMixer _ _)).
Qed.

Lemma expect_inv {A} (o : option A) a : expect o = Val a → o = Some a.
Proof. destruct o; [by intros [= ->]|done]. Qed.

(** Whatever is set after the switch leaves the switch alone. *)
Lemma set_volume_switch `{!AlsaLaws X} self v x x' :
  alsa_set_volume self v x = Val x' →
  ∃ x1, alsa_element self x = Val () ∧ set_switch self v x = Val x1 ∧
    find_selem (am_config self) x' = find_selem (am_config self) x1 ∧ get_playback_switch x' = get_playback_switch x1.
Proof.
  unfold alsa_set_volume. intros Hv. apply exec_bind_Val_inv in Hv as ([] & He & Hv).
  apply exec_bind_Val_inv in Hv as (x1 & Hs & Hv). exists x1. split; [done|]. split; [done|].
  destruct (is_softvol self); apply expect_inv in Hv; [by eapply volume_keeps|by eapply db_keeps].
Qed.

(** With a switch, a volume of zero mutes and is read back as zero; any other
    volume leaves the switch on, so that it is heard. *)
Lemma alsa_mutes `{!AlsaLaws X} self v x x' :
  has_switch self = true → alsa_set_volume self v x = Val x' →
  if decide (v = 0) then get_playback_switch x' = Some 0 ∧ alsa_volume self x' = Val 0
  else get_playback_switch x' ≠ Some 0.
Proof.
  intros Hsw (x1 & He & Hs & Hf & Hg)%set_volume_switch. unfold set_switch in Hs. rewrite Hsw in Hs. rewrite Hg. case_decide.
  - apply expect_inv in Hs. rewrite (switch_set _ _ _ Hs) in *. split; [done|].
    unfold alsa_volume, switched_off, alsa_element in *. rewrite Hf, Hsw, Hg, (switch_found _ _ _ _ Hs).
    by destruct (find_selem _ _).
  - apply exec_bind_Val_inv in Hs as (off & Hoff & Hs). unfold switched_off in Hoff. rewrite Hsw, He in Hoff. cbn in Hoff.
    injection Hoff as Hoff. destruct off.
    + apply expect_inv in Hs. by rewrite (switch_set _ _ _ Hs).
    + injection Hs as <-. destruct (get_playback_switch x) as [p|]; [|done]. apply bool_decide_eq_false in Hoff. congruence.
Qed.

(** Of a control in software whose raw values do not start at zero the volume
    is misread: from 10 to 265, say, the highest value is read as silence,
    because the lowest value is subtracted after dividing by the range. *)
Definition offset_softvol (config : MixerConfig) : AlsaMixer :=
  mkAlsaMixer config 10 265 255 (F64.of_Z (-60)) F64.zero (F64.of_Z 60) false true false.

Lemma softvol_offset_misread config x :
  find_selem config x = Ok () → alsa_volume_ctrl config = Linear → get_playback_volume x = Some 265 →
  scaled_volume (offset_softvol config) F64.one = 265 ∧ alsa_volume (offset_softvol config) x = Val 0.
Proof.
  intros Hf Hc Hg. split; [by vm_compute|]. unfold alsa_volume, alsa_element, switched_off.
  cbn [am_config offset_softvol]. rewrite Hf. cbn [mbind exec_bind has_switch is_softvol offset_softvol negb]. rewrite Hg, Hc.
  by vm_compute.
Qed.

(** Opening divides by the range: a control in software with a single raw
    value and a maximum other than 0 dB panics. *)
Lemma single_value_panics config x lo hi :
  ctl_new config x = true → control config = "PCM"%string → ctl_get_db_range config x = Some (lo, hi) → hi ≠ ZERO_DB →
  softvol_db_range config 0 x = Panic.
Proof.
  intros Hn Hc Hr Hz. unfold softvol_db_range. rewrite Hn, Hc, Hr. cbn -[i64_checked]. rewrite decide_False by done.
  by destruct (i64_checked (hi - lo)).
Qed.
End laws.

(** ** A sound card *)

(** A control with a switch and a level. *)
Module Card.
Record State := mkState { switch : Z; level : Z }.
#[global] Instance card : Alsa State := {|
  to_db m := F64.to_f32 (F64.div (F64.of_Z m) (F64.of_Z 100));
  from_db f := F64.to_int i64_min i64_max (F64.mul (F64.of_f32 f) (F64.of_Z 100));
  find_selem _ _ := Ok ();
  has_playback_switch _ := true;
  get_playback_switch x := Some (switch x);
  get_playback_vol_db x := Some (level x);
  get_playback_volume _ := None;
  get_playback_volume_range _ := (0, 64);
  get_playback_db_range _ := (-1600, 0);
  ask_playback_vol_db _ _ := None;
  ctl_new _ _ := false;
  ctl_get_db_range _ _ := None;
  set_playback_switch_all v x := Some (mkState v (level x));
  set_playback_volume_all _ _ := None;
  set_playback_db_all v x := Some (mkState (switch x) v);
|}.
#[global] Instance card_laws : AlsaLaws State.
Proof. split; try done; intros; simplify_eq/=; done. Qed.
End Card.

(** Its 16 dB are used linearly, and a volume of zero mutes. *)
Section card.
Context {libm : Libm}.
Definition card_config : MixerConfig := mkMixerConfig "default" "PCM" 0 (Log F64.zero).
Definition card_mixer : AlsaMixer :=
  mkAlsaMixer (mkMixerConfig "default" "PCM" 0 Linear) 0 64 64 (F64.of_Z (-16)) F64.zero (F64.of_Z 16) true false true.

Lemma card_opens : alsa_open card_config (Card.mkState 1 0) = Val (Ok card_mixer).
Proof. by vm_compute. Qed.
Lemma card_mutes : ∃ x, alsa_set_volume card_mixer 0 (Card.mkState 1 (-800)) = Val x ∧ x = Card.mkState 0 (-1600) ∧ alsa_volume card_mixer x = Val 0.
Proof. eexists. split; [by vm_compute|]. split; [done|]. by vm_compute. Qed.
End card.
