(* ===== verification/Symphonia.v ===== *)
(** * Decoding: [playback/src/decoder/symphonia_decoder.rs] and
    [symphonia_util.rs]

    A reader of the container gives packets, a codec makes samples of them;
    both are of the Symphonia library. *)

From S2P Require Import Prelude StdTypes Float64 Digits Text Metadata Player TrackLoader Passthrough.

Local Open Scope Z_scope.

Definition NUM_CHANNELS : Z := 2.

(** ** The library *)

Inductive SymphoniaError := UnexpectedEof | IoError | DecodeError | OtherError.
Record CodecParams (T : Type) := mkCodecParams {
  sample_rate : option Z;
  channels : option Z;
  time_base : option T;
  n_frames : option Z;
}.
Arguments mkCodecParams {T} _ _ _ _.
Arguments sample_rate {T} _.
Arguments channels {T} _.
Arguments time_base {T} _.
Arguments n_frames {T} _.

Inductive StandardTagKey :=
| ReplayGainAlbumGain | ReplayGainAlbumPeak | ReplayGainTrackGain | ReplayGainTrackPeak
| TrackTitle | Language | Artist | AlbumArtist | Album | TrackNumber | DiscNumber | OtherKey.
#[export] Instance StandardTagKey_eq_dec : EqDecision StandardTagKey.
Proof. solve_decision. Defined.
Inductive TagValue := VFloat (f : f64) | VString (s : string) | VUnsignedInt (z : Z) | VSignedInt (z : Z) | VOther.
Record Tag := mkTag { std_key : option StandardTagKey; tag_value : TagValue }.

(** Readers [F], codecs [D], time bases [T], decoded buffers [B], sample
    buffers [S] and logs of metadata [M].  A time base turns a time stamp into
    a duration; a sample buffer that is too small for a buffer panics. *)
Class Symphonia (F D T B S M : Type) := {
  probe_format : F → option SymphoniaError;
  default_track : F → bool;
  make_codec : F → result D SymphoniaError;
  codec_params : D → CodecParams T;
  calc_time : T → Z → Duration;
  format_next_packet : F → F * result (Z * list Z) SymphoniaError;
  format_seek : Duration → F → F * result Z SymphoniaError;
  decode : Z * list Z → D → D * result B SymphoniaError;
  reset : D → D;
  buffer_for : B → S;
  copy_interleaved : B → S → exec S;
  buffer_samples : S → list f64;
  format_metadata : F → M;
  set_format_metadata : M → F → F;
  current_tags : M → option (list Tag);
  skip_to_latest : M → M;
}.

Inductive SymphoniaDecoderError :=
| ESymphonia (e : SymphoniaError) | NoDefaultTrack | NoSampleRate | UnsupportedRate (rate : Z) | NoChannels | UnsupportedChannels (n : Z).

(** [probed] is the metadata found before the container. *)
Record SymphoniaDecoder (F D S M : Type) := mkSymphonia { format : F; probed : option M; codec : D; sample_buffer : option S }.
Arguments mkSymphonia {F D S M} _ _ _ _.
Arguments format {F D S M} _.
Arguments probed {F D S M} _.
Arguments codec {F D S M} _.
Arguments sample_buffer {F D S M} _.
#[export] Instance settable_SymphoniaDecoder {F D S M} : Settable (SymphoniaDecoder F D S M) := λ r,
  mkSymphonia (format r) (probed r) (codec r) (sample_buffer r).

(** ** Tags *)

(** One tag of the volume of a track; the last of a kind counts. *)
Definition normalisation_tag (data : NormalisationData) (tag : Tag) : NormalisationData :=
  match tag_value tag, std_key tag with
  | VFloat value, Some ReplayGainAlbumGain => mkNormalisationData (track_gain_db data) (track_peak data) value (album_peak data)
  | VFloat value, Some ReplayGainAlbumPeak => mkNormalisationData (track_gain_db data) (track_peak data) (album_gain_db data) value
  | VFloat value, Some ReplayGainTrackGain => mkNormalisationData value (track_peak data) (album_gain_db data) (album_peak data)
  | VFloat value, Some ReplayGainTrackPeak => mkNormalisationData (track_gain_db data) value (album_gain_db data) (album_peak data)
  | _, _ => data
  end.

#[export] Instance settable_LocalFileMetadata : Settable LocalFileMetadata := λ r,
  mkLocalMeta (lm_name r) (lm_language r) (lm_album r) (lm_artists r) (lm_album_artists r) (lm_number r) (lm_disc_number r).

(** One tag of a local file; a number that does not parse unsets the number. *)
Definition local_tag (m : LocalFileMetadata) (tag : Tag) : LocalFileMetadata :=
  match tag_value tag, std_key tag with
  | VString value, Some TrackTitle => m <| lm_name := Some value |>
  | VString value, Some Language => m <| lm_language := Some value |>
  | VString value, Some Artist => m <| lm_artists := Some value |>
  | VString value, Some AlbumArtist => m <| lm_album_artists := Some value |>
  | VString value, Some Album => m <| lm_album := Some value |>
  | VString value, Some TrackNumber => m <| lm_number := result_ok (parse_uint u32_max value) |>
  | VString value, Some DiscNumber => m <| lm_disc_number := result_ok (parse_uint u32_max value) |>
  | VUnsignedInt value, Some TrackNumber | VSignedInt value, Some TrackNumber => m <| lm_number := Some (wrapu 32 value) |>
  | VUnsignedInt value, Some DiscNumber | VSignedInt value, Some DiscNumber => m <| lm_disc_number := Some (wrapu 32 value) |>
  | _, _ => m
  end.

Section symphonia.
Context {F D T B S M : Type} `{!Symphonia F D T B S M}.
Abbreviation Decoder := (SymphoniaDecoder F D S M).

(** [F] is the source as it is probed, with the metadata found on the way. *)
Definition symphonia_new (f : F) (probed : option M) : result Decoder SymphoniaDecoderError :=
  match probe_format f with
  | Some e => Err (ESymphonia e)
  | None =>
      if negb (default_track f) then Err NoDefaultTrack
      else match make_codec f with
      | Err e => Err (ESymphonia e)
      | Ok d =>
          match sample_rate (codec_params d) with
          | None => Err NoSampleRate
          | Some rate =>
              if negb (bool_decide (rate = SAMPLE_RATE)) then Err (UnsupportedRate rate)
              else match channels (codec_params d) with
              | None => Err NoChannels
              | Some n =>
                  if negb (bool_decide (n = NUM_CHANNELS)) then Err (UnsupportedChannels n)
                  else Ok (mkSymphonia f probed d None)
              end
          end
      end
  end.

(** The tags of the container or, when it has none, those found before it. *)
Definition get_latest_metadata (s : Decoder) : Decoder * M :=
  let metadata := format_metadata (format s) in
  match current_tags metadata, probed s with
  | None, Some inner => (s <| probed := Some (skip_to_latest inner) |>, skip_to_latest inner)
  | _, _ => (s <| format ::= set_format_metadata (skip_to_latest metadata) |>, skip_to_latest metadata)
  end.

Definition normalisation_data_of (s : Decoder) : Decoder * option NormalisationData :=
  let '(s, metadata) := get_latest_metadata s in
  (s, match current_tags metadata with
      | None | Some [] => None
      | Some tags => Some (foldl normalisation_tag NormalisationData_default tags)
      end).

Definition local_file_metadata (s : Decoder) : Decoder * option LocalFileMetadata :=
  let '(s, metadata) := get_latest_metadata s in
  (s, foldl local_tag LocalFileMetadata_default <$> current_tags metadata).

Definition ts_to_ms (s : Decoder) (ts : Z) : Z :=
  match time_base (codec_params (codec s)) with
  | Some time_base => wrapu 32 (as_millis (calc_time time_base ts))
  | None => F64.to_int 0 u32_max (F64.mul (F64.of_Z ts) PAGES_PER_MS)
  end.

(** A position behind the end of the track is its end. *)
Definition seek_target (s : Decoder) (position_ms : Z) : Duration :=
  let target := Duration_from_millis position_ms in
  match time_base (codec_params (codec s)), n_frames (codec_params (codec s)) with
  | Some time_base, Some n_frames =>
      let duration := calc_time time_base n_frames in
      if decide (duration_le target duration) then target else duration
  | _, _ => target
  end.

Definition symphonia_seek (position_ms : Z) (s : Decoder) : Decoder * result Z SymphoniaDecoderError :=
  match format_seek (seek_target s position_ms) (format s) with
  | (f, Err e) => (s <| format := f |>, Err (ESymphonia e))
  | (f, Ok actual_ts) =>
      let s := s <| format := f |> <| codec ::= reset |> in
      (s, Ok (ts_to_ms s actual_ts))
  end.

Abbreviation Outcome := (exec (Decoder * result (option (AudioPacketPosition * AudioPacket)) SymphoniaDecoderError)).

(** The samples of a packet, through the buffer that was made for the first. *)
Definition take_samples (decoded : B) (s : Decoder) : exec (Decoder * list f64) :=
  let buffer := match sample_buffer s with Some buffer => buffer | None => buffer_for decoded end in
  buffer ← copy_interleaved decoded buffer;
  Val (s <| sample_buffer := Some buffer |>, buffer_samples buffer).

(** The loop; [None] when it takes more turns than given. *)
Fixpoint decode_loop (turns : nat) (skipped : bool) (s : Decoder) : option Outcome :=
  match turns with
  | O => None
  | Datatypes.S turns =>
      match format_next_packet (format s) with
      | (f, Err UnexpectedEof) => Some (Val (s <| format := f |>, Ok None))
      | (f, Err e) => Some (Val (s <| format := f |>, Err (ESymphonia e)))
      | (f, Ok packet) =>
          let s := s <| format := f |> in
          let position_ms := ts_to_ms s packet.1 in
          match decode packet (codec s) with
          | (d, Ok decoded) =>
              Some ('(s, samples) ← take_samples decoded (s <| codec := d |>);
                    Val (s, Ok (Some (mkPosition position_ms skipped, Samples samples))))
          | (d, Err DecodeError) => decode_loop turns true (s <| codec := d |>)
          | (d, Err e) => Some (Val (s <| codec := d |>, Err (ESymphonia e)))
          end
      end
  end.
Definition symphonia_next_packet (turns : nat) (s : Decoder) : option Outcome := decode_loop turns false s.
End symphonia.

(** ** Properties *)

Section laws.
Context {F D T B S M : Type} `{!Symphonia F D T B S M}.
Implicit Types s : SymphoniaDecoder F D S M.

(** Only stereo at 44100 Hz is decoded. *)
Lemma symphonia_supported (f : F) (m : option M) s :
  symphonia_new f m = Ok s →
  sample_rate (codec_params (codec s)) = Some SAMPLE_RATE ∧ channels (codec_params (codec s)) = Some NUM_CHANNELS ∧
  sample_buffer s = None.
Proof.
  unfold symphonia_new. destruct (probe_format f); [done|]. destruct (default_track f); [|done].
  destruct (make_codec f) as [d|]; [|done]. simpl. destruct (sample_rate _) as [rate|] eqn:Hr; [|done].
  destruct (decide (rate = SAMPLE_RATE)) as [->|]; [|by rewrite bool_decide_eq_false_2].
  rewrite bool_decide_eq_true_2 by done. simpl. destruct (channels _) as [n|] eqn:Hn; [|done].
  destruct (decide (n = NUM_CHANNELS)) as [->|]; [|by rewrite bool_decide_eq_false_2].
  rewrite bool_decide_eq_true_2 by done. by intros [= <-].
Qed.

(** Packets that are read and cannot be decoded, from one state to another. *)
Inductive malformed : SymphoniaDecoder F D S M → nat → SymphoniaDecoder F D S M → Prop :=
| malformed_none s : malformed s 0 s
| malformed_one s f packet d n s' :
    format_next_packet (format s) = (f, Ok packet) → decode packet (codec s) = (d, Err DecodeError) →
    malformed (s <| format := f |> <| codec := d |>) n s' → malformed s (Datatypes.S n) s'.

Lemma decode_loop_skips n k skipped s s' :
  malformed s n s' → decode_loop (n + k) skipped s = decode_loop k (skipped || negb (bool_decide (n = 0%nat))) s'.
Proof.
  intros Hm. revert skipped. induction Hm as [s|s f packet d n s' Hp Hd Hm IH]; intros skipped; simpl.
  - by rewrite orb_false_r.
  - rewrite Hp. cbn. rewrite Hd, IH. by rewrite orb_true_r.
Qed.

(** The next packet is the first that decodes, at its own time, and it is told
    whether packets were left out before it. *)
Lemma next_packet_decodes n s s' f packet d decoded :
  malformed s n s' → format_next_packet (format s') = (f, Ok packet) → decode packet (codec s') = (d, Ok decoded) →
  symphonia_next_packet (Datatypes.S n) s =
    Some ('(s2, samples) ← take_samples decoded (s' <| format := f |> <| codec := d |>);
          Val (s2, Ok (Some (mkPosition (ts_to_ms s' packet.1) (negb (bool_decide (n = 0%nat))), Samples samples)))).
Proof.
  intros Hm Hp Hd. unfold symphonia_next_packet. rewrite <- Nat.add_1_r, (decode_loop_skips _ _ _ _ _ Hm).
  simpl. rewrite Hp. cbn. by rewrite Hd.
Qed.

(** Or the end of the track, even when what is left of it is malformed. *)
Lemma next_packet_ends n s s' f :
  malformed s n s' → format_next_packet (format s') = (f, Err UnexpectedEof) →
  symphonia_next_packet (Datatypes.S n) s = Some (Val (s' <| format := f |>, Ok None)).
Proof.
  intros Hm Hp. unfold symphonia_next_packet. rewrite <- Nat.add_1_r, (decode_loop_skips _ _ _ _ _ Hm).
  simpl. by rewrite Hp.
Qed.

(** The place sought is the position or, if that is earlier, the end. *)
Lemma seek_target_within s position_ms t n :
  time_base (codec_params (codec s)) = Some t → n_frames (codec_params (codec s)) = Some n →
  let target := seek_target s position_ms in
  duration_le target (calc_time t n) ∧ duration_le target (Duration_from_millis position_ms) ∧
  (target = Duration_from_millis position_ms ∨ target = calc_time t n).
Proof.
  intros Ht Hn. unfold seek_target. rewrite Ht, Hn. cbv zeta.
  assert (∀ d, duration_le d d) as Hrefl by (intros d; unfold duration_le; lia).
  case_decide as Hle; [by auto|]. destruct (total duration_le (Duration_from_millis position_ms) (calc_time t n)); [done|by auto].
Qed.

(** Without a time base the position is wrong by the square of the samples in
    a millisecond: one second of samples is told as half an hour. *)
Lemma no_time_base_positions s :
  time_base (codec_params (codec s)) = None → ts_to_ms s 44100 = 1944810 ∧ position_pcm_to_ms 44100 = 1000.
Proof. unfold ts_to_ms. intros ->. by vm_compute. Qed.
End laws.

(** Of several tags of a kind the last one counts. *)
Definition float_of (key : StandardTagKey) (tag : Tag) : option f64 :=
  match tag_value tag with VFloat f => if decide (std_key tag = Some key) then Some f else None | _ => None end.
Lemma normalisation_last_tag tags :
  let data := foldl normalisation_tag NormalisationData_default tags in
  let tag key f := default f (last (omap (float_of key) tags)) in
  data = mkNormalisationData (tag ReplayGainTrackGain F64.zero) (tag ReplayGainTrackPeak F64.one)
           (tag ReplayGainAlbumGain F64.zero) (tag ReplayGainAlbumPeak F64.one).
Proof.
  induction tags as [|t tags IH] using rev_ind; [done|]. cbv zeta in *. rewrite foldl_snoc, IH, !omap_app.
  destruct t as [[[]|] []]; cbn [omap list_omap float_of tag_value std_key normalisation_tag]; rewrite ?app_nil_r; try done;
    repeat (rewrite decide_True by done || rewrite decide_False by done); rewrite ?app_nil_r, ?last_snoc; done.
Qed.

(** ** A track *)

(** A reader of packets with their time stamps, and a codec whose samples are
    the bytes and which cannot decode an empty packet. *)
Module Plain.
#[global] Instance plain : Symphonia (list (Z * list Z)) unit Z (list Z) (list Z) (list (list Tag)) := {|
  probe_format _ := None;
  default_track _ := true;
  make_codec _ := Ok ();
  codec_params _ := mkCodecParams (Some 44100) (Some 2) (Some 44100) (Some 88200);
  calc_time rate ts := mkDuration (ts / rate) (ts `mod` rate * NANOS_PER_SEC / rate);
  format_next_packet f := match f with p :: f => (f, Ok p) | [] => ([], Err UnexpectedEof) end;
  format_seek _ f := (f, Ok 0);
  decode p d := (d, if decide (p.2 = []) then Err DecodeError else Ok p.2);
  reset d := d;
  buffer_for b := b;
  copy_interleaved b s := if decide (length b ≤ length s)%nat then Val b else Panic;
  buffer_samples s := F64.of_Z <$> s;
  format_metadata _ := [];
  set_format_metadata _ f := f;
  current_tags := head;
  skip_to_latest m := match last m with Some l => [l] | None => [] end;
|}.

Definition track_decoder (packets : list (Z * list Z)) : SymphoniaDecoder (list (Z * list Z)) unit (list Z) (list (list Tag)) :=
  mkSymphonia packets None () None.

(** The malformed packet is left out, and a later packet that is longer than
    the first does not fit the buffer made for that. *)
Lemma plain_decodes :
  symphonia_new [(0, []); (441, [1; 2])] None = Ok (track_decoder [(0, []); (441, [1; 2])]) ∧
  symphonia_next_packet 2 (track_decoder [(0, []); (441, [1; 2])]) =
    Some (Val (track_decoder [] <| sample_buffer := Some [1; 2] |>,
               Ok (Some (mkPosition 10 true, Samples [F64.of_Z 1; F64.of_Z 2])))) ∧
  symphonia_next_packet 1 (track_decoder [(441, [1; 2])] <| sample_buffer := Some [1] |>) = Some Panic ∧
  seek_target (track_decoder []) 5000 = mkDuration 2 0.
Proof. by vm_compute. Qed.
End Plain.
